(* ===== verification/_CoqProject ===== *)
-Q . S2P
Prelude.v
Std.v
Map.v
Eviction.v
Scan.v
Value.v
Shard.v
Spec.v
ShardOk.v
Store.v
StoreOk.v
StoreProps.v
Resp.v
RespOk.v
Reply.v
RespProps.v
Dump.v
Float.v
FloatOk.v
Config.v
ConfigProps.v
Commands.v
CommandsOk.v
Glob.v
Persistence.v
Conn.v
Steps.v
ConnOk.v
ConnProps.v
Uring.v
Replica.v
Effects.v
View.v
Durable.v
Commute.v
Snapshot.v
Serial.v
Whole.v
Client.v
Answers.v
Session.v
Input.v
System.v
SystemProps.v
Replay.v
Timeless.v
Absolute.v
Entry.v
Restart.v
Interleave.v
Grain.v
Limits.v
