(* ===== verification/Prelude.v ===== *)
(** * In-mem0: a verification library

    In-mem0 is an in-memory cache server that speaks the Redis protocol.  This
    library models its three crates, [crates/core] (the store), [crates/proto]
    (the protocol) and [crates/server] (commands, connections, durability and
    replication), and proves what makes each part correct, from the slots of the
    hash index up to whole runs of the server and its restarts.  All definitions
    are executable.

    ** The program's parts and their models

    - [core/src/map.rs] is [Map.FlatMap]: an open-addressing table with linear
      probing, growth at 7/8 load and backward-shift deletion.  The state is the
      record [FlatMap.t]; [new], [with_capacity], [get], [get_pre], [get_mut],
      [insert], [insert_pre], [remove], [remove_pre], [backward_shift], [grow]
      and [iter] are the methods of the same names.
    - [core/src/s3fifo.rs] is [Eviction.S3Fifo]: three queues, a ghost set and
      frequency counters kept in two FlatMaps; [evict_one] loops over
      [step_small] and [step_main].
    - [core/src/store.rs]: [Value] has the five types of values, sorted sets
      with their two indices, and the bodies the store runs on collections;
      [Shard.Shard] is one locked shard (map, policy, byte counter, budget) with
      expiry, eviction and every operation; [Store.Store] routes keys to a
      vector of shards; [Dump] writes a snapshot as commands.
    - [proto/src/resp.rs]: [Resp.Resp] has the owned and the zero-copy parser
      and the direct writers, [Reply] the encoder of replies.
    - [server/src/config.rs] is [Config]; [server/src/commands.rs] is [Commands],
      where [dispatch] looks a command up in the list of arms of the source's
      [match], with their guards; [server/src/persistence.rs] is [Persistence];
      [server/src/conn.rs], the registry of replicas in [repl.rs], and startup
      and the reaper of [server.rs] are [Conn]; the replica thread of [repl.rs]
      is [Replica]; the loop of a connection in [runtime_uring.rs] is [Uring].
    - The running server is [System]: a transition system whose events are what
      the operating system reports next to the accept loops ([Server::run],
      [accept_loop]), to the threads of the connections ([conn::handle] and its
      reads, [passive_replica]), to the reaper and to the thread of a replica.
      [Interleave] refines the service of a command into the steps between which
      other threads run: the store, the log, the replicas.  [Steps] refines the
      execution of a command: those that take the lock of a shard more than once
      are programs of single operations, and those on the whole store ([keys],
      [dbsize], [flush_all], [purge_expired], [dump_commands] and the commands
      that call them) take the shards one after the other.  [Grain] puts the two
      together: operations, appends, propagation and the reaper, step by step.
    - [main.rs], the errors of [Server::bootstrap], [tls.rs] and the paths and
      messages of [config.rs] are [Entry]: from the command line and the disk to
      a server or an exit code.
    - [Std] has what the source uses of Rust's standard library: decimal text,
      UTF-8, trimming and parsing of integers; [Float] has the text of [f64],
      the nearest number to a decimal and the shortest decimal of a number,
      computed exactly on integers.

    ** How effects are modelled

    A shard operation takes the time and the shard and returns the shard and the
    result.  A command runs in a state monad over a [World]: the store, a
    counter, and sequences indexed by the counter that give every reading of the
    clock, every random state and every disk fault.  Nothing is assumed about
    these sequences unless a theorem says so.  A connection is a transition on a
    [Server] and a [Conn]: bytes arrive ([receive]), commands are cut out of the
    buffer and served ([handle_command]), replies are appended to what was sent.
    Threads interleave at the granularity of the shard lock (operations), of
    commands ([Durable.server_step]), of reads ([System.step]), of the locks a
    command takes ([Interleave.move]; the store is updated in one step per
    command there), of the operations of a command ([Serial.turn]) and of all of
    these ([Grain.act]).  Machine
    integers are [Z] with the wrap-around of release builds written out.

    ** What the theorems show

    - [Map], [Eviction]: the table refines a finite map, its loops terminate and
      its load is bounded; the policy tracks exactly the live keys and an
      eviction returns one.  Both export their abstraction through the class
      [Represents], and clients reason about [absf] only.  [Scan]: a scan of keys
      stored once evicts no key of the main queue, however long it is.
    - [Spec] has the abstract database, a finite map from keys to entries with
      one function per operation, which shares the pure functions on one collection
      ([push_body], [zadd_body] and the like of [Value]) with the store; [ShardOk]
      and [StoreOk] prove that shards and stores refine it up to eviction, and [StoreProps] states what a client may
      rely on: results, memory bound, no panics, commuting operations, exact
      counters.
    - [RespOk], [RespProps]: parsing inverts writing, both parsers agree, a
      command is not affected by what follows it.
    - [CommandsOk]: a command that is not to be persisted removes expired
      entries at most.  [ConnOk], [ConnProps]: the gates of authentication and
      of read-only replicas, the log misses no change, the fast path agrees with
      [dispatch], chunking does not matter.  [Uring]: the io_uring loop agrees
      with the portable one.  [Glob]: pattern matching terminates and is right, for
      classes denoted by the ranges between their brackets.
      [ConfigProps]: memory sizes, and the command line that spells a
      configuration out is read back as it.  [FloatOk]: for every score, what the
      text of the score is read back as.
    - [Effects] shows that every command is built from store operations on the
      keys it names, and which of them; the theorems on what commands respect
      ([View]), on commands that commute ([Commute]) and on commands that do not
      depend on the time ([Timeless]) are inductions over that.
    - [View]: what a client can see at a time is an equivalence of databases;
      operations and write commands respect it.  [Durable]: replaying the log of
      any history recovers what was visible.  [Replay]: what a server and the
      replay of its log have in common under clocks of their own; [Timeless]: the
      data is the same when no write gives a time to live; [Absolute]: it shows the
      same when keys with a time to live are only stored anew, with an absolute
      time, or deleted.  [Snapshot]: a snapshot restores all live entries, and a
      replica converges to its primary; and [SYNC] asks for no password.
    - [Client] is a reference reader of replies, and the encoder is right for it;
      [Answers] gives every command a type of replies and proves that [dispatch]
      keeps to it; [Session]: every command sent is answered, in order, with what
      [dispatch] gives in the state that the earlier ones left, and the client reads
      back one reply per command.
    - [Input] bounds what waits in the buffer of a connection; [SystemProps]
      proves of any run, whatever any number of clients send, that the store is
      sound and connections are numbered apart, that without the password nothing
      changes, and that expired entries are eventually reaped.  [Restart]: over
      any number of starts and stops with such runs in between nothing is lost,
      and turning the log on over a snapshot loses the snapshot.  [Interleave]:
      what any interleaving can do to the order of the log, and a condition on the
      writes of each key under which recovery is exact ([keyed_writes_recover]).  [Grain]: when commands in execution share
      no key, executing them operation by operation leaves the replies and the log
      as executing each at once, so that recovery is exact there too.  [Steps]: run
      without a break, the program of a command is [dispatch].  [Serial]: with the
      programs of any number of threads taken in turn, commands that share no key
      with those in progress are atomic.  [Whole]: what KEYS answers when other
      commands run between the shards it reads and time passes.
    - [Limits] shows that conditions of these theorems cannot be dropped, for all
      data and histories that are in the way: a replica that connects again
      duplicates lists; a torn record hides all that is logged after it; a replay
      after an expiry loses keys that were made persistent and revives counters;
      writes of one key can be logged in the other order, and a write beside a
      synchronisation can miss the replica; [GETSET] and [MSET] are not atomic for
      commands on the same keys.

    ** Fuel and bounds

    Loops that are not structural take fuel, and the theorems show that the fuel
    given is enough: a turn per slot for probing ([flatmap_loops_terminate]), a
    measure over queue lengths and frequencies for [evict_one], a turn per byte
    for the parsers' and connections' loops, since every command consumes a byte
    ([parse_command_bounds]), and [glob_fuel] for patterns
    ([glob_match_correct]).  The decimal digits of a number have fuel for its
    binary length ([decimal_value]); the search for the shortest decimal of a
    float has a turn per digit and ends with the exact decimal, which is read back
    too.  The limits of the source (512 MiB per argument,
    2^20 arguments, 64 KiB inline lines, a 20-byte digit buffer, an 8 KiB file
    buffer) are kept as they are.

    ** What is a parameter, and what is not modelled

    Parameters: hash functions and the router (any functions), the iteration
    order of hash collections ([HashOrder]: a permutation), and the decimal text
    of floats ([FloatText]: parsing gives 64 bits; [FloatOk.rust_float_text] is an
    instance), and certificates ([Rustls]).
    Errors of the disk, of the network and of the system are arbitrary sequences
    or events.  Not modelled: sockets beyond the bytes sent on them, sleeping and
    the fairness of threads, the encryption of TLS, glommio's executor pool, and
    the notices printed while the server runs.  Recovery and
    replication theorems are stated for a store without a memory limit, since
    evictions are not logged, and, when keys have times to live, for a clock that
    stands still or under the discipline of [Absolute], since relative expiry times
    are logged as they were sent.

    ** Open points

    Flushes, snapshots and new replicas beside the log when all are interleaved
    operation by operation; what can be said of recovery with a memory limit. *)
From Stdlib Require Export Init.Byte Strings.Byte.
From stdpp Require Export base tactics list gmap strings numbers sorting.

#[export] Set Warnings "-clear-no-such-hyp".

(** ** Bytes and byte strings *)

(** A [u8] is the standard library's [byte]; [&[u8]], [Box<[u8]>] and
    [Vec<u8>] are lists of bytes. *)
Abbreviation bytes := (list byte).

#[export] Instance byte_eq_decision : EqDecision byte := Byte.byte_eq_dec.

#[export] Program Instance byte_countable : Countable byte :=
  inj_countable Byte.to_N Byte.of_N _.
Next Obligation. intros x. apply Byte.of_to_N. Qed.

(** The bytes of an ASCII string literal, written [b"..."] in the source. *)
Definition lit (s : string) : bytes := String.list_byte_of_string s.
Arguments lit s%_string_scope.

(** ** Abstraction interface

    Every stateful component comes with a well-formedness predicate and an
    abstraction function to the mathematical object it implements.  Clients of
    a component reason about [absf] only. *)
Class Represents (C A : Type) := { wf : C -> Prop; absf : C -> A }.
Arguments wf {C A _} _ : simpl never.
Arguments absf {C A _} _ : simpl never.
#[export] Hint Mode Represents ! - : typeclass_instances.
Notation "⟦ c ⟧" := (absf c) (at level 0, format "⟦ c ⟧").

(** Two well-formed states that represent the same object.  A partial
    equivalence: it is reflexive exactly on the well-formed states. *)
Definition obs_eq {C A} `{Represents C A} (x y : C) : Prop :=
  wf x ∧ wf y ∧ ⟦x⟧ = ⟦y⟧.
Infix "≃" := obs_eq (at level 70, no associativity).

#[export] Instance obs_eq_per {C A} `{Represents C A} : RelationClasses.PER (obs_eq (C := C)).
Proof.
  split.
  - intros x y (Hx & Hy & Heq). done.
  - intros x y z (Hx & Hy & Hxy) (_ & Hz & Hyz). split_and!; [done..|]. by rewrite Hxy.
Qed.

Lemma obs_eq_refl {C A} `{Represents C A} (x : C) : wf x → x ≃ x.
Proof. intros Hx. by split_and!. Qed.

(** The lemmas that carry well-formedness across operations. *)
Create HintDb inmem discriminated.
Create Rewrite HintDb inmem.
#[export] Hint Resolve obs_eq_refl : inmem.

(** ** Machine integers (release profile: wrap-around) *)
Definition u64_modulus : Z := 2 ^ 64.
Definition wrap_u64 (z : Z) : Z := z `mod` u64_modulus.
Definition i64_min : Z := - 2 ^ 63.
Definition i64_max : Z := 2 ^ 63 - 1.
Definition wrap_i64 (z : Z) : Z := (z + 2 ^ 63) `mod` u64_modulus - 2 ^ 63.
Definition in_i64 (z : Z) : bool := (i64_min <=? z)%Z && (z <=? i64_max)%Z.

(** ** Lists of optional slots *)
Section slots.
Context {A : Type}.
Implicit Types (sl : list (option A)) (x : A).

(** The occupied slots of a table, in slot order. *)
Definition occupied (sl : list (option A)) : list A := omap id sl.

Lemma occupied_split sl i o :
  sl !! i = Some o →
  occupied sl = occupied (take i sl) ++ occupied (o :: drop (S i) sl).
Proof.
  intros Hi. rewrite <- (take_drop_middle sl i o Hi) at 1.
  unfold occupied. by rewrite omap_app.
Qed.

Lemma occupied_insert_split sl i o o' :
  sl !! i = Some o →
  occupied (<[i:=o']> sl) = occupied (take i sl) ++ occupied (o' :: drop (S i) sl).
Proof.
  intros Hi. pose proof (lookup_lt_Some _ _ _ Hi).
  rewrite (occupied_split (<[i:=o']> sl) i o') by (by apply list_lookup_insert_eq).
  by rewrite take_insert_ge, drop_insert_lt by lia.
Qed.

Lemma occupied_fill sl i x :
  sl !! i = Some None → occupied (<[i:=Some x]> sl) ≡ₚ x :: occupied sl.
Proof.
  intros Hi. rewrite (occupied_insert_split _ _ _ _ Hi), (occupied_split _ _ _ Hi).
  simpl. symmetry. apply Permutation_middle.
Qed.

Lemma occupied_clear sl i x :
  sl !! i = Some (Some x) → occupied sl ≡ₚ x :: occupied (<[i:=None]> sl).
Proof.
  intros Hi. rewrite (occupied_insert_split _ _ _ _ Hi), (occupied_split _ _ _ Hi).
  simpl. symmetry. apply Permutation_middle.
Qed.

Lemma elem_of_occupied sl x :
  x ∈ occupied sl ↔ ∃ i, sl !! i = Some (Some x).
Proof.
  unfold occupied. rewrite list_elem_of_omap. setoid_rewrite list_elem_of_lookup.
  split.
  - intros (o & [i Hi] & Ho). exists i. unfold id in Ho. congruence.
  - intros [i Hi]. exists (Some x). eauto.
Qed.

Lemma occupied_length_le sl : length (occupied sl) ≤ length sl.
Proof.
  unfold occupied. induction sl as [|[x|] sl IH]; csimpl; [done|lia|].
  transitivity (length sl); [exact IH|lia].
Qed.

(** A table that is not full has a vacant slot. *)
Lemma occupied_room sl :
  length (occupied sl) < length sl → ∃ i, sl !! i = Some None.
Proof.
  induction sl as [|[x|] sl IH]; simpl; intros Hl; [lia| |by exists 0].
  destruct IH as [i Hi]; [apply Nat.succ_lt_mono; exact Hl|]. by exists (S i).
Qed.
End slots.

(** ** Sums over finite maps *)
Section map_sum.
Context `{Countable K} {A : Type}.
Implicit Types (f : K → A → Z) (m : gmap K A).
Local Open Scope Z_scope.

Definition map_sum (f : K → A → Z) (m : gmap K A) : Z :=
  map_fold (fun k x acc => f k x + acc) 0 m.

Lemma map_sum_empty f : map_sum f ∅ = 0.
Proof. apply map_fold_empty. Qed.

Lemma map_sum_insert f m k x :
  m !! k = None → map_sum f (<[k := x]> m) = f k x + map_sum f m.
Proof.
  intros Hk. unfold map_sum.
  rewrite (map_fold_insert_L (fun k x acc => f k x + acc)); [done| |done]. intros. lia.
Qed.

Lemma map_sum_delete f m k x :
  m !! k = Some x → map_sum f m = f k x + map_sum f (delete k m).
Proof.
  intros Hk. rewrite <- (insert_delete_id m k x Hk) at 1.
  apply map_sum_insert, lookup_delete_eq.
Qed.

Lemma map_sum_overwrite f m k x y :
  m !! k = Some x → map_sum f (<[k := y]> m) = map_sum f m - f k x + f k y.
Proof.
  intros Hk. rewrite <- (insert_delete_eq m k y), (map_sum_delete f m k x Hk).
  rewrite map_sum_insert by apply lookup_delete_eq. lia.
Qed.

Lemma map_sum_nonneg f m : (∀ k x, m !! k = Some x → 0 <= f k x) → 0 <= map_sum f m.
Proof.
  induction m as [|k x m Hk IH] using map_ind; intros Hf; [by rewrite map_sum_empty|].
  rewrite map_sum_insert by done. pose proof (Hf k x (lookup_insert_eq _ _ _)).
  assert (0 <= map_sum f m); [|lia]. apply IH. intros j y Hj. apply Hf.
  rewrite lookup_insert_ne; [done|congruence].
Qed.
End map_sum.
