(* ===== verification/Std.v ===== *)
(** * The parts of the Rust standard library the sources use

    Decimal formatting ([to_string]), [str::parse] for integers, UTF-8
    decoding, [str::trim], and the ASCII case and white-space tests.  A
    [&str] is the list of its code points. *)
From S2P Require Import Prelude.
Local Open Scope Z_scope.

(** ** Results *)

(** [Result<A, &'static str>] *)
Inductive Result (A : Type) := Ok (a : A) | Err (e : string).
Arguments Ok {A} _.
Arguments Err {A} _.

Definition rmap {A B} (f : A -> B) (r : Result A) : Result B :=
  match r with Ok a => Ok (f a) | Err e => Err e end.

(** ** Bytes *)

Definition byte_val (b : byte) : Z := Z.of_N (Byte.to_N b).
Definition byte_of (z : Z) : byte := default x00 (Byte.of_N (Z.to_N z)).

(** [u8::is_ascii_whitespace]: space, tab, line feed, form feed, carriage
    return. *)
Definition is_ascii_whitespace (b : byte) : bool :=
  let v := byte_val b in
  (v =? 32) || (v =? 9) || (v =? 10) || (v =? 12) || (v =? 13).

Definition to_ascii_uppercase (b : byte) : byte :=
  let v := byte_val b in if (97 <=? v) && (v <=? 122) then byte_of (v - 32) else b.

Definition to_ascii_lowercase (b : byte) : byte :=
  let v := byte_val b in if (65 <=? v) && (v <=? 90) then byte_of (v + 32) else b.

(** [<[u8]>::eq_ignore_ascii_case] *)
Definition eq_ignore_ascii_case (a b : bytes) : bool :=
  bool_decide (map to_ascii_lowercase a = map to_ascii_lowercase b).

(** ** Decimal formatting *)

Definition digit (d : Z) : byte := byte_of (48 + d).

(** The digits of [v], most significant first, in front of [acc]; 20 digits
    are enough for a [u64]. *)
Fixpoint dec_loop (fuel : nat) (v : Z) (acc : bytes) : bytes :=
  match fuel with
  | O => acc
  | S fuel => if v =? 0 then acc else dec_loop fuel (v / 10) (digit (v mod 10) :: acc)
  end.

(** [u64::to_string], [usize::to_string] *)
Definition u64_to_string (v : Z) : bytes := if v =? 0 then [digit 0] else dec_loop 20 v [].

(** [i64::to_string] *)
Definition i64_to_string (z : Z) : bytes :=
  if z <? 0 then x2d :: u64_to_string (- z) else u64_to_string z.

(** ** UTF-8 *)

Definition is_cont (b : byte) : bool := (128 <=? byte_val b) && (byte_val b <=? 191).
Definition in_range (lo hi : Z) (b : byte) : bool := (lo <=? byte_val b) && (byte_val b <=? hi).
Definition low6 (b : byte) : Z := byte_val b - 128.

(** [std::str::from_utf8], giving the code points. *)
Fixpoint from_utf8 (s : bytes) : option (list Z) :=
  match s with
  | [] => Some []
  | b0 :: s1 =>
      let v := byte_val b0 in
      if v <? 128 then cons v <$> from_utf8 s1
      else if (194 <=? v) && (v <=? 223) then
        match s1 with
        | b1 :: s2 =>
            if is_cont b1 then cons ((v - 192) * 64 + low6 b1) <$> from_utf8 s2 else None
        | _ => None
        end
      else if (224 <=? v) && (v <=? 239) then
        match s1 with
        | b1 :: b2 :: s3 =>
            let lo := if v =? 224 then 160 else 128 in
            let hi := if v =? 237 then 159 else 191 in
            if in_range lo hi b1 && is_cont b2
            then cons ((v - 224) * 4096 + low6 b1 * 64 + low6 b2) <$> from_utf8 s3 else None
        | _ => None
        end
      else if (240 <=? v) && (v <=? 244) then
        match s1 with
        | b1 :: b2 :: b3 :: s4 =>
            let lo := if v =? 240 then 144 else 128 in
            let hi := if v =? 244 then 143 else 191 in
            if in_range lo hi b1 && is_cont b2 && is_cont b3
            then cons ((v - 240) * 262144 + low6 b1 * 4096 + low6 b2 * 64 + low6 b3) <$> from_utf8 s4
            else None
        | _ => None
        end
      else None
  end.

(** [String::from_utf8_lossy]: each maximal ill-formed prefix becomes U+FFFD. *)
Definition replacement : bytes := [xef; xbf; xbd].

Fixpoint from_utf8_lossy (s : bytes) : bytes :=
  match s with
  | [] => []
  | b0 :: s1 =>
      let v := byte_val b0 in
      if v <? 128 then b0 :: from_utf8_lossy s1
      else if (194 <=? v) && (v <=? 223) then
        match s1 with
        | b1 :: s2 =>
            if is_cont b1 then b0 :: b1 :: from_utf8_lossy s2 else replacement ++ from_utf8_lossy s1
        | [] => replacement
        end
      else if (224 <=? v) && (v <=? 239) then
        let lo := if v =? 224 then 160 else 128 in
        let hi := if v =? 237 then 159 else 191 in
        match s1 with
        | b1 :: s2 =>
            if in_range lo hi b1 then
              match s2 with
              | b2 :: s3 =>
                  if is_cont b2 then b0 :: b1 :: b2 :: from_utf8_lossy s3
                  else replacement ++ from_utf8_lossy s2
              | [] => replacement
              end
            else replacement ++ from_utf8_lossy s1
        | [] => replacement
        end
      else if (240 <=? v) && (v <=? 244) then
        let lo := if v =? 240 then 144 else 128 in
        let hi := if v =? 244 then 143 else 191 in
        match s1 with
        | b1 :: s2 =>
            if in_range lo hi b1 then
              match s2 with
              | b2 :: s3 =>
                  if is_cont b2 then
                    match s3 with
                    | b3 :: s4 =>
                        if is_cont b3 then b0 :: b1 :: b2 :: b3 :: from_utf8_lossy s4
                        else replacement ++ from_utf8_lossy s3
                    | [] => replacement
                    end
                  else replacement ++ from_utf8_lossy s2
              | [] => replacement
              end
            else replacement ++ from_utf8_lossy s1
        | [] => replacement
        end
      else replacement ++ from_utf8_lossy s1
  end.

(** [char::is_whitespace]: the Unicode [White_Space] property. *)
Definition is_whitespace (c : Z) : bool :=
  ((9 <=? c) && (c <=? 13)) || (c =? 32) || (c =? 133) || (c =? 160) || (c =? 5760) ||
  ((8192 <=? c) && (c <=? 8202)) || (c =? 8232) || (c =? 8233) || (c =? 8239) ||
  (c =? 8287) || (c =? 12288).

Fixpoint trim_start (s : list Z) : list Z :=
  match s with
  | c :: s' => if is_whitespace c then trim_start s' else s
  | [] => []
  end.

(** [str::trim] *)
Definition trim (s : list Z) : list Z := reverse (trim_start (reverse (trim_start s))).

(** ** Parsing integers *)

Fixpoint parse_digits (acc : Z) (s : list Z) : option Z :=
  match s with
  | [] => Some acc
  | c :: s => if (48 <=? c) && (c <=? 57) then parse_digits (acc * 10 + (c - 48)) s else None
  end.

(** [str::parse::<i64>]: an optional sign, at least one digit, and a value in
    range. *)
Definition parse_i64_str (s : list Z) : option Z :=
  let '(neg, ds) :=
    match s with
    | 43 :: ds => (false, ds)
    | 45 :: ds => (true, ds)
    | _ => (false, s)
    end in
  match ds with
  | [] => None
  | _ =>
      v ← parse_digits 0 ds;
      let z := if neg then - v else v in
      if in_i64 z then Some z else None
  end.

(** [std::str::from_utf8(b).ok().and_then(|s| s.parse::<i64>().ok())] *)
Definition parse_i64_bytes (b : bytes) : option Z := from_utf8 b ≫= parse_i64_str.

(** ** Facts *)

Lemma byte_val_range b : 0 <= byte_val b < 256.
Proof. unfold byte_val. pose proof (Byte.to_N_bounded b). lia. Qed.

Lemma byte_val_of z : 0 <= z < 256 → byte_val (byte_of z) = z.
Proof.
  intros Hz. unfold byte_val, byte_of. destruct (Byte.of_N (Z.to_N z)) as [b|] eqn:Hb; simpl.
  - apply Byte.to_of_N in Hb. lia.
  - apply Byte.of_N_None_iff in Hb. lia.
Qed.

Lemma byte_val_digit d : 0 <= d < 10 → byte_val (digit d) = 48 + d.
Proof. intros Hd. unfold digit. apply byte_val_of. lia. Qed.

(** An ASCII byte string is its own text. *)
Definition ascii (s : bytes) : Prop := Forall (fun b => byte_val b < 128) s.

Lemma from_utf8_ascii s : ascii s → from_utf8 s = Some (byte_val <$> s).
Proof.
  induction 1 as [|b s Hb _ IH]; [done|]. simpl.
  destruct (Z.ltb_spec (byte_val b) 128); [|lia]. by rewrite IH.
Qed.

Definition is_digit (b : byte) : Prop := 48 <= byte_val b <= 57.

Lemma dec_loop_digits fuel v acc :
  0 <= v → Forall is_digit acc → Forall is_digit (dec_loop fuel v acc).
Proof.
  revert v acc. induction fuel as [|fuel IH]; intros v acc Hv Hacc; simpl; [done|].
  destruct (v =? 0); [done|]. apply IH; [by apply Z.div_pos|].
  constructor; [|done]. unfold is_digit.
  pose proof (Z.mod_pos_bound v 10). rewrite byte_val_digit; lia.
Qed.

Lemma dec_loop_value fuel v acc :
  0 <= v < 10 ^ Z.of_nat fuel →
  parse_digits 0 (byte_val <$> dec_loop fuel v acc) = parse_digits v (byte_val <$> acc).
Proof.
  revert v acc. induction fuel as [|fuel IH]; intros v acc Hv; simpl.
  { change (10 ^ Z.of_nat 0) with 1 in Hv. by replace v with 0 by lia. }
  destruct (Z.eqb_spec v 0) as [->|Hne]; [done|].
  rewrite IH.
  - simpl. pose proof (Z.mod_pos_bound v 10). rewrite byte_val_digit by lia.
    destruct (Z.leb_spec 48 (48 + v mod 10)), (Z.leb_spec (48 + v mod 10) 57);
      simpl; try lia.
    f_equal. pose proof (Z.div_mod v 10). lia.
  - rewrite Nat2Z.inj_succ, Z.pow_succ_r in Hv by lia.
    split; [apply Z.div_pos; lia|]. apply Z.div_lt_upper_bound; lia.
Qed.

Lemma u64_to_string_digits v : 0 <= v → Forall is_digit (u64_to_string v).
Proof.
  intros Hv. unfold u64_to_string. destruct (v =? 0).
  - constructor; [|constructor]. unfold is_digit. rewrite byte_val_digit; lia.
  - apply dec_loop_digits; [done|constructor].
Qed.

Lemma u64_to_string_value v :
  0 <= v < 10 ^ 20 → parse_digits 0 (byte_val <$> u64_to_string v) = Some v.
Proof.
  intros Hv. unfold u64_to_string. destruct (Z.eqb_spec v 0) as [->|Hne]; [done|].
  rewrite dec_loop_value; [done|exact Hv].
Qed.

Lemma dec_loop_acc fuel v acc : ∃ ds, dec_loop fuel v acc = ds ++ acc.
Proof.
  revert v acc. induction fuel as [|fuel IH]; intros v acc; simpl; [by exists []|].
  destruct (v =? 0); [by exists []|].
  destruct (IH (v / 10) (digit (v mod 10) :: acc)) as [ds ->].
  exists (ds ++ [digit (v mod 10)]). by rewrite <- app_assoc.
Qed.

Lemma u64_to_string_nonempty v : u64_to_string v ≠ [].
Proof.
  unfold u64_to_string. destruct (v =? 0) eqn:Hv; [done|].
  change (dec_loop 20 v []) with
    (if v =? 0 then [] else dec_loop 19 (v / 10) [digit (v mod 10)]).
  rewrite Hv. destruct (dec_loop_acc 19 (v / 10) [digit (v mod 10)]) as [ds ->].
  by destruct ds.
Qed.

Lemma digits_ascii s : Forall is_digit s → ascii s.
Proof. intros Hs. eapply Forall_impl; [exact Hs|]. unfold is_digit. intros b. lia. Qed.

Lemma i64_to_string_ascii z : ascii (i64_to_string z).
Proof.
  unfold i64_to_string. destruct (Z.ltb_spec z 0).
  - constructor; [by compute|]. apply digits_ascii, u64_to_string_digits. lia.
  - apply digits_ascii, u64_to_string_digits. lia.
Qed.

(** A text that starts with a digit has no sign to strip. *)
Lemma parse_i64_str_digits ds v :
  Forall is_digit ds → ds ≠ [] → parse_digits 0 (byte_val <$> ds) = Some v →
  parse_i64_str (byte_val <$> ds) = (if in_i64 v then Some v else None) ∧
  parse_i64_str (45 :: (byte_val <$> ds)) = (if in_i64 (- v) then Some (- v) else None).
Proof.
  intros Hds Hne Hv. destruct ds as [|b ds]; [done|].
  apply Forall_cons in Hds as [Hb _]. unfold is_digit in Hb.
  unfold parse_i64_str. rewrite !fmap_cons in *. rewrite Hv. simpl.
  split; [|done].
  assert (∀ (A : Type) (x y z : A),
    match byte_val b with 43 => x | 45 => y | _ => z end = z) as Hm.
  { intros. destruct (byte_val b) as [|p|p]; [done| |done].
    do 6 (destruct p as [p|p|]; try done; try lia). }
  rewrite Hm, Hv. done.
Qed.

Lemma in_i64_spec z : in_i64 z = true ↔ - 2 ^ 63 <= z < 2 ^ 63.
Proof. unfold in_i64, i64_min, i64_max. rewrite andb_true_iff, !Z.leb_le. lia. Qed.

(** Formatting and parsing are inverse on every [i64]. *)
Lemma parse_i64_to_string z : in_i64 z = true → parse_i64_bytes (i64_to_string z) = Some z.
Proof.
  intros Hz. pose proof (proj1 (in_i64_spec z) Hz) as Hr. unfold parse_i64_bytes.
  rewrite from_utf8_ascii by apply i64_to_string_ascii. simpl.
  unfold i64_to_string. destruct (Z.ltb_spec z 0) as [Hneg|Hpos].
  - destruct (parse_i64_str_digits (u64_to_string (- z)) (- z)) as [_ Hp];
      auto using u64_to_string_digits, u64_to_string_nonempty with lia.
    { apply u64_to_string_value. lia. }
    rewrite fmap_cons. change (byte_val x2d) with 45.
    rewrite Hp, Z.opp_involutive, Hz. done.
  - destruct (parse_i64_str_digits (u64_to_string z) z) as [Hp _];
      auto using u64_to_string_digits, u64_to_string_nonempty.
    { apply u64_to_string_value. lia. }
    by rewrite Hp, Hz.
Qed.

(** Text without white space is not changed by [trim]. *)
Lemma trim_start_id s : Forall (fun c => is_whitespace c = false) s → trim_start s = s.
Proof. intros Hs. destruct Hs as [|c s Hc _]; [done|]. simpl. by rewrite Hc. Qed.

Lemma trim_id s : Forall (fun c => is_whitespace c = false) s → trim s = s.
Proof.
  intros Hs. unfold trim. rewrite (trim_start_id s Hs), trim_start_id, reverse_involutive; [done|].
  by apply Forall_reverse.
Qed.

Lemma not_whitespace c : 33 <= c < 128 → is_whitespace c = false.
Proof.
  intros Hc. unfold is_whitespace.
  rewrite (proj2 (Z.leb_gt c 13)), (proj2 (Z.leb_gt 8192 c)) by lia.
  rewrite andb_false_r. simpl. rewrite !orb_false_iff, !Z.eqb_neq. lia.
Qed.

Lemma i64_to_string_no_space z :
  Forall (fun c => is_whitespace c = false) (byte_val <$> i64_to_string z).
Proof.
  assert (∀ v, 0 <= v → Forall (fun c => is_whitespace c = false) (byte_val <$> u64_to_string v)) as Hu.
  { intros v Hv. apply Forall_fmap. eapply Forall_impl; [by apply u64_to_string_digits|].
    intros b Hb. unfold is_digit in Hb. simpl. apply not_whitespace. lia. }
  unfold i64_to_string. destruct (Z.ltb_spec z 0); [|by apply Hu].
  rewrite fmap_cons. constructor; [done|]. apply Hu. lia.
Qed.
