(* ===== verification/Map.v ===== *)
(** * The flat open-addressing hash index ([crates/core/src/map.rs])

    [FlatMap.t V] is the table: a vector of optional entries probed linearly
    from the key's home slot, resized at load factor 7/8, with backward-shift
    deletion instead of tombstones.  Indices, lengths and capacities are
    [usize] values bounded by an allocated vector and are modelled by [nat];
    hashes are [u64] values in [Z].  The [ahash] hasher of a map is a field of
    the record (an arbitrary function of the key). *)
From S2P Require Import Prelude.

Module FlatMap.

(** ** Data *)

Definition LOAD_NUM : nat := 7.
Definition LOAD_DEN : nat := 8.
Definition MIN_CAP : nat := 16.

Record Entry (V : Type) := mkEntry { hash : Z; key : bytes; value : V }.
Arguments mkEntry {V} _ _ _.
Arguments hash {V} _.
Arguments key {V} _.
Arguments value {V} _.

Record t (V : Type) := mk {
  slots : list (option (Entry V));
  len : nat;
  mask : nat;
  hasher : bytes -> Z
}.
Arguments mk {V} _ _ _ _.
Arguments slots {V} _.
Arguments len {V} _.
Arguments mask {V} _.
Arguments hasher {V} _ _.

Section operations.
Context {V : Type}.
Implicit Types (m : t V) (e : Entry V) (h : Z) (k : bytes) (v : V).
Implicit Types (sl : list (option (Entry V))).

(** ** Construction and size *)

(** [h] is the state drawn by [RandomState::new()]. *)
Definition new (h : bytes -> Z) : t V := mk [] 0 0 h.

(** [usize::next_power_of_two]. *)
Definition next_power_of_two (n : nat) : nat := 2 ^ Nat.log2_up n.

Definition alloc (m : t V) (raw_cap : nat) : t V :=
  mk (replicate raw_cap None) (len m) (raw_cap - 1) (hasher m).

Definition with_capacity (h : bytes -> Z) (cap : nat) : t V :=
  let m := new h in
  if 0 <? cap then
    let raw := next_power_of_two ((cap * LOAD_DEN) `div` LOAD_NUM + 1) `max` MIN_CAP in
    alloc m raw
  else m.

Definition is_empty (m : t V) : bool := len m =? 0.
Definition capacity (m : t V) : nat := length (slots m).
Definition hash_key (m : t V) (k : bytes) : Z := hasher m k.

Definition grow_threshold (m : t V) : nat := (length (slots m) `div` LOAD_DEN) * LOAD_NUM.

(** [(hash as usize) & self.mask] *)
Definition home (msk : nat) (h : Z) : nat := Z.to_nat (Z.land h (Z.of_nat msk)).

(** [(i + 1) & self.mask] *)
Definition next (msk i : nat) : nat := Nat.land (i + 1) msk.

(** ** Probing *)

(** How a probe loop ends.  [Stuck] is no result at all: the loop ran out of
    fuel, or indexed outside the vector (a panic). *)
Inductive Probe :=
  | Vacant (i : nat)
  | Found (i : nat) (e : Entry V)
  | Stuck.

(** The probe loop shared by the four lookups: stop at an empty slot or at an
    entry that is a [hit], else move to the next slot. *)
Fixpoint probe (fuel : nat) (hit : Entry V -> bool) (sl : list (option (Entry V)))
    (msk i : nat) : Probe :=
  match fuel with
  | 0 => Stuck
  | S fuel =>
      match sl !! i with
      | None => Stuck
      | Some None => Vacant i
      | Some (Some e) => if hit e then Found i e else probe fuel hit sl msk (next msk i)
      end
  end.

(** [e.hash == hash && e.key.as_ref() == key] *)
Definition hit_key (h : Z) (k : bytes) (e : Entry V) : bool :=
  (hash e =? h)%Z && bool_decide (key e = k).

(** The whole table is one lap, so [length slots] steps are enough. *)
Definition locate (m : t V) (h : Z) (k : bytes) : Probe :=
  probe (length (slots m)) (hit_key h k) (slots m) (mask m) (home (mask m) h).

Definition get_pre (m : t V) (h : Z) (k : bytes) : option V :=
  match slots m with
  | [] => None
  | _ =>
      match locate m h k with
      | Found _ e => Some (value e)
      | _ => None
      end
  end.
Definition get (m : t V) (k : bytes) : option V := get_pre m (hasher m k) k.
Definition contains_key (m : t V) (k : bytes) : bool :=
  match get m k with Some _ => true | None => false end.

Definition set_slots (m : t V) (sl : list (option (Entry V))) : t V :=
  mk sl (len m) (mask m) (hasher m).

(** A [&mut V]: the current value and the write through the reference. *)
Definition get_mut_pre (m : t V) (h : Z) (k : bytes) : option (V * (V -> t V)) :=
  match slots m with
  | [] => None
  | _ =>
      match locate m h k with
      | Found i e =>
          Some (value e, fun v =>
            set_slots m (<[i := Some (mkEntry (hash e) (key e) v)]> (slots m)))
      | _ => None
      end
  end.
Definition get_mut (m : t V) (k : bytes) : option (V * (V -> t V)) :=
  get_mut_pre m (hasher m k) k.

(** [if let Some(v) = m.get_mut(k) { .. }], the body rewriting the value by [f]. *)
Definition modify (m : t V) (k : bytes) (f : V -> V) : t V :=
  match get_mut m k with
  | Some (v, put) => put (f v)
  | None => m
  end.

(** ** Growth *)

(** [while self.slots[i].is_some() { i = (i + 1) & self.mask; }] *)
Fixpoint skip_occupied (fuel : nat) (sl : list (option (Entry V))) (msk i : nat) : option nat :=
  match fuel with
  | 0 => None
  | S fuel =>
      match sl !! i with
      | None => None
      | Some None => Some i
      | Some (Some _) => skip_occupied fuel sl msk (next msk i)
      end
  end.

Definition rehash_one (msk : nat) (sl : list (option (Entry V))) (e : Entry V)
    : list (option (Entry V)) :=
  match skip_occupied (length sl) sl msk (home msk (hash e)) with
  | Some i => <[i := Some e]> sl
  | None => sl
  end.

Definition grow (m : t V) : t V :=
  let new_cap := (2 * length (slots m)) `max` MIN_CAP in
  let old := slots m in
  let msk := new_cap - 1 in
  mk (foldl (rehash_one msk) (replicate new_cap None) (occupied old)) (len m) msk (hasher m).

(** ** Insertion *)

Definition insert_pre (m : t V) (h : Z) (k : bytes) (v : V) : t V * option V :=
  let m :=
    match slots m with
    | [] => alloc m MIN_CAP
    | _ => if grow_threshold m <=? len m then grow m else m
    end in
  match locate m h k with
  | Vacant i => (mk (<[i := Some (mkEntry h k v)]> (slots m)) (S (len m)) (mask m) (hasher m), None)
  | Found i e =>
      (set_slots m (<[i := Some (mkEntry (hash e) (key e) v)]> (slots m)), Some (value e))
  | Stuck => (m, None)
  end.
Definition insert (m : t V) (k : bytes) (v : V) : t V * option V :=
  insert_pre m (hasher m k) k v.

(** ** Removal *)

(** Is [x] cyclically within [(a, b]]? *)
Definition cyclic_in (a b x : nat) : bool :=
  if a <? b then (a <? x) && (x <=? b) else (a <? x) || (x <=? b).

(** The loop of [backward_shift]; [None] is no result (fuel or a panic). *)
Fixpoint backward_shift_loop (fuel : nat) (sl : list (option (Entry V))) (msk hole i : nat)
    : option (list (option (Entry V))) :=
  match fuel with
  | 0 => None
  | S fuel =>
      let i := next msk i in
      match sl !! i with
      | None => None
      | Some None => Some sl
      | Some (Some e) =>
          let ideal := home msk (hash e) in
          if negb (cyclic_in hole i ideal)
          then backward_shift_loop fuel (<[hole := Some e]> (<[i := None]> sl)) msk i i
          else backward_shift_loop fuel sl msk hole i
      end
  end.

Definition backward_shift (m : t V) (hole : nat) : t V :=
  match backward_shift_loop (length (slots m)) (slots m) (mask m) hole hole with
  | Some sl => set_slots m sl
  | None => m
  end.

(** A search that ran off the table, which would be a panic in the source, shows
    as no change; [flatmap_loops_terminate] excludes it on well-formed tables. *)
Definition remove_pre (m : t V) (h : Z) (k : bytes) : t V * option V :=
  match slots m with
  | [] => (m, None)
  | _ =>
      match locate m h k with
      | Found i e =>
          let m := mk (<[i := None]> (slots m)) (len m - 1) (mask m) (hasher m) in
          (backward_shift m i, Some (value e))
      | _ => (m, None)
      end
  end.
Definition remove (m : t V) (k : bytes) : t V * option V := remove_pre m (hasher m k) k.

(** ** Iteration *)
Definition iter (m : t V) : list (bytes * V) :=
  (fun e => (key e, value e)) <$> occupied (slots m).

End operations.

(** ** The ring of slots *)

(** Steps of [next] from slot [x] to slot [y] in a table of [cap] slots. *)
Definition dist (cap x y : nat) : nat := if x <=? y then y - x else cap + y - x.

(** Decides goals about positions on the ring. *)
Ltac ring_cases :=
  unfold dist, cyclic_in in *;
  repeat match goal with
  | H : context [?x <=? ?y] |- _ => destruct (Nat.leb_spec x y)
  | |- context [?x <=? ?y] => destruct (Nat.leb_spec x y)
  | H : context [?x <? ?y] |- _ => destruct (Nat.ltb_spec x y)
  | |- context [?x <? ?y] => destruct (Nat.ltb_spec x y)
  end; simpl in *; try discriminate; try lia.

(** A legal capacity: a power of two, at least [MIN_CAP]. *)
Definition cap_ok (cap : nat) : Prop := MIN_CAP ≤ cap ∧ ∃ n, cap = 2 ^ n.

Lemma cap_ok_double cap : cap_ok cap → cap_ok (2 * cap).
Proof.
  intros [Hm [n ->]]. split; [unfold MIN_CAP in *; lia|]. exists (S n). simpl. lia.
Qed.

Lemma cap_ok_min : cap_ok MIN_CAP.
Proof. split; [done|]. by exists 4. Qed.

Lemma home_lt cap h : cap_ok cap → home (cap - 1) h < cap.
Proof.
  intros [Hm [n ->]]. unfold home.
  replace (Z.of_nat (2 ^ n - 1)) with (Z.ones (Z.of_nat n)).
  - rewrite Z.land_ones by lia.
    pose proof (Z.mod_pos_bound h (2 ^ Z.of_nat n)) as Hb.
    assert (Z.of_nat (2 ^ n) = 2 ^ Z.of_nat n)%Z as Hp by (by rewrite Nat2Z.inj_pow).
    lia.
  - rewrite Z.ones_equiv, Nat2Z.inj_sub, Nat2Z.inj_pow by (unfold MIN_CAP in *; lia). lia.
Qed.

Lemma next_wrap cap i :
  cap_ok cap → i < cap → next (cap - 1) i = if i + 1 =? cap then 0 else i + 1.
Proof.
  intros [Hm [n ->]] Hi. unfold next.
  replace (2 ^ n - 1) with (Nat.ones n) by (rewrite Nat.ones_equiv; lia).
  rewrite Nat.land_ones. destruct (Nat.eqb_spec (i + 1) (2 ^ n)) as [->|Hne].
  - by rewrite Nat.Div0.mod_same.
  - apply Nat.mod_small. lia.
Qed.

Lemma next_lt cap i : cap_ok cap → i < cap → next (cap - 1) i < cap.
Proof. intros Hc Hi. rewrite next_wrap by done. destruct (Nat.eqb_spec (i + 1) cap); lia. Qed.

(** One step closer to [y]. *)
Lemma dist_next cap i y :
  cap_ok cap → i < cap → y < cap → i ≠ y →
  dist cap i y = S (dist cap (next (cap - 1) i) y).
Proof.
  intros Hc Hi Hy Hne. rewrite next_wrap by done.
  destruct (Nat.eqb_spec (i + 1) cap); ring_cases.
Qed.

Lemma dist_same cap i : dist cap i i = 0.
Proof. ring_cases. Qed.

Lemma dist_lt cap x y : x < cap → y < cap → dist cap x y < cap.
Proof. intros. ring_cases. Qed.

(** ** The table invariant *)

#[local] Arguments Nat.div : simpl never.

Section theory.
Context {V : Type}.
Implicit Types (m : t V) (e : Entry V) (h : Z) (k : bytes) (v : V).
Implicit Types (sl : list (option (Entry V))).

Definition filled sl (p : nat) : Prop := ∃ e, sl !! p = Some (Some e).

(** No entry is separated from its home slot by a vacant slot, except maybe
    by a slot that satisfies [hole]. *)
Definition probe_inv (hole : nat → Prop) sl : Prop :=
  ∀ j e, sl !! j = Some (Some e) →
  ∀ p, p < length sl →
    dist (length sl) (home (length sl - 1) (hash e)) p <
    dist (length sl) (home (length sl - 1) (hash e)) j →
    hole p ∨ filled sl p.

Definition keys_of sl : list bytes := key <$> occupied sl.

(** What a table satisfies between calls. *)
Record table_ok m : Prop := {
  tok_shape : (slots m = [] ∧ mask m = 0) ∨
              (cap_ok (length (slots m)) ∧ mask m = length (slots m) - 1);
  tok_len : len m = length (occupied (slots m));
  tok_load : len m ≤ grow_threshold m;
  tok_hash : ∀ e, e ∈ occupied (slots m) → hash e = hasher m (key e);
  tok_keys : NoDup (keys_of (slots m));
  tok_probe : probe_inv (fun _ => False) (slots m)
}.

Definition to_map sl : gmap bytes V :=
  list_to_map ((fun e => (key e, value e)) <$> occupied sl).

#[export] Instance flatmap_represents : Represents (t V) (gmap bytes V) :=
  {| wf := table_ok; absf m := to_map (slots m) |}.

(** ** Probing finds what is there *)

(** Every slot from [i] up to [j] holds an entry that is no hit. *)
Definition scanned (hit : Entry V → bool) sl (i j : nat) : Prop :=
  ∀ p, p < length sl → dist (length sl) i p < dist (length sl) i j →
  ∃ e, sl !! p = Some (Some e) ∧ hit e = false.

Definition probe_post (hit : Entry V → bool) sl (i : nat) (r : Probe) : Prop :=
  match r with
  | Vacant j => sl !! j = Some None ∧ scanned hit sl i j
  | Found j e => sl !! j = Some (Some e) ∧ hit e = true ∧ scanned hit sl i j
  | Stuck => False
  end.

Lemma scanned_step hit sl i j e :
  cap_ok (length sl) → i < length sl → j < length sl → i ≠ j →
  sl !! i = Some (Some e) → hit e = false →
  scanned hit sl (next (length sl - 1) i) j → scanned hit sl i j.
Proof.
  intros Hc Hi Hj Hne He Hh Hs p Hp Hd.
  destruct (decide (i = p)) as [<-|Hip]; [eauto|].
  apply Hs; [done|].
  rewrite (dist_next _ i p), (dist_next _ i j) in Hd by done. lia.
Qed.

(** A probe that starts [d] steps before a vacant slot returns within [d + 1]
    steps. *)
Lemma probe_spec hit sl i q fuel :
  cap_ok (length sl) → i < length sl → sl !! q = Some None →
  dist (length sl) i q < fuel →
  probe_post hit sl i (probe fuel hit sl (length sl - 1) i).
Proof.
  intros Hc Hi Hq. revert i Hi.
  pose proof (lookup_lt_Some _ _ _ Hq) as Hql.
  induction fuel as [|fuel IH]; intros i Hi Hf; [lia|]. simpl.
  destruct (lookup_lt_is_Some_2 sl i Hi) as [[e|] He]; rewrite He.
  2: { split; [done|]. intros p Hp. rewrite dist_same. lia. }
  destruct (hit e) eqn:Hh.
  { split_and!; [done..|]. intros p Hp. rewrite dist_same. lia. }
  assert (i ≠ q) by congruence.
  rewrite (dist_next _ i q) in Hf by done.
  specialize (IH (next (length sl - 1) i) (next_lt _ _ Hc Hi) ltac:(lia)).
  destruct (probe _ _ _ _ _) as [j|j e'|]; simpl in *; [..|done].
  - destruct IH as [Hj Hs]. split; [done|].
    eapply scanned_step; eauto using lookup_lt_Some. congruence.
  - destruct IH as (Hj & Hh' & Hs). split_and!; [done..|].
    eapply scanned_step; eauto using lookup_lt_Some. congruence.
Qed.

Lemma skip_occupied_probe fuel sl msk i :
  skip_occupied fuel sl msk i =
  match probe fuel (fun _ => false) sl msk i with Vacant j => Some j | _ => None end.
Proof.
  revert i. induction fuel as [|fuel IH]; intros i; simpl; [done|].
  destruct (sl !! i) as [[e|]|]; auto.
Qed.

(** Adding an entry at the end of its own probe path. *)
Lemma probe_inv_fill hole hit sl j e :
  probe_inv hole sl → sl !! j = Some None →
  scanned hit sl (home (length sl - 1) (hash e)) j →
  probe_inv hole (<[j := Some e]> sl).
Proof.
  intros Hinv Hj Hs j' e' He' p. rewrite length_insert. intros Hp Hd.
  assert (filled sl p ∨ hole p → hole p ∨ filled (<[j:=Some e]> sl) p) as Hup.
  { intros [[x Hx]|]; [right|by left]. exists x. rewrite list_lookup_insert_ne; congruence. }
  apply Hup. apply list_lookup_insert_Some in He' as [(-> & Heq & _)|(Hne & He')].
  - simplify_eq. left. destruct (Hs p Hp Hd) as (x & Hx & _). by exists x.
  - destruct (Hinv _ _ He' _ Hp Hd); auto.
Qed.

(** ** Reading the abstraction off the table *)

Lemma to_map_Some sl e :
  NoDup (keys_of sl) → e ∈ occupied sl → to_map sl !! key e = Some (value e).
Proof.
  intros Hnd He. apply elem_of_list_to_map_1.
  - unfold keys_of in Hnd. by rewrite <- list_fmap_compose.
  - apply list_elem_of_fmap. eauto.
Qed.

Lemma to_map_None sl k :
  (∀ e, e ∈ occupied sl → key e ≠ k) → to_map sl !! k = None.
Proof.
  intros Hk. apply not_elem_of_list_to_map_1. rewrite <- list_fmap_compose.
  intros (e & -> & He)%list_elem_of_fmap. by apply (Hk e).
Qed.

(** The abstraction only depends on the entries as a multiset. *)
Lemma to_map_perm sl es :
  NoDup (keys_of sl) → occupied sl ≡ₚ es →
  to_map sl = list_to_map ((fun e => (key e, value e)) <$> es).
Proof.
  intros Hnd Hp. apply list_to_map_proper; [|by rewrite Hp].
  unfold keys_of in Hnd. by rewrite <- list_fmap_compose.
Qed.

Lemma keys_of_perm sl es : occupied sl ≡ₚ es → keys_of sl ≡ₚ key <$> es.
Proof. unfold keys_of. by intros ->. Qed.

Lemma table_ok_cap m : table_ok m → slots m ≠ [] → cap_ok (capacity m).
Proof. intros Hm Hne. destruct (tok_shape m Hm) as [[? _]|[? _]]; done. Qed.

Lemma table_ok_mask m : table_ok m → mask m = length (slots m) - 1.
Proof. intros Hm. destruct (tok_shape m Hm) as [[-> ->]|[_ ->]]; done. Qed.

Lemma threshold_lt cap : cap_ok cap → cap `div` LOAD_DEN * LOAD_NUM < cap.
Proof.
  intros [Hm _]. unfold LOAD_DEN, LOAD_NUM, MIN_CAP in *.
  pose proof (Nat.div_mod_eq cap 8). lia.
Qed.

Lemma table_ok_vacant m :
  table_ok m → slots m ≠ [] → ∃ q, slots m !! q = Some None.
Proof.
  intros Hm Hne. apply occupied_room.
  pose proof (tok_len m Hm). pose proof (tok_load m Hm) as Hl.
  pose proof (threshold_lt _ (table_ok_cap m Hm Hne)).
  unfold grow_threshold, capacity in *. lia.
Qed.

(** ** [locate]: a key is found exactly when the table holds it *)

Lemma hit_key_spec h k e : hit_key h k e = true ↔ hash e = h ∧ key e = k.
Proof.
  unfold hit_key. rewrite andb_true_iff, Z.eqb_eq, bool_decide_eq_true. done.
Qed.

Lemma locate_post m k :
  table_ok m → slots m ≠ [] →
  probe_post (hit_key (hasher m k) k) (slots m) (home (length (slots m) - 1) (hasher m k))
    (locate m (hasher m k) k).
Proof.
  intros Hm Hne. unfold locate. rewrite (table_ok_mask m Hm).
  destruct (table_ok_vacant m Hm Hne) as [q Hq].
  pose proof (table_ok_cap m Hm Hne) as Hc.
  apply (probe_spec _ _ _ q); try done.
  - by apply home_lt.
  - apply dist_lt; [by apply home_lt|]. by eapply lookup_lt_Some.
Qed.

Lemma locate_vacant m k j :
  table_ok m → slots m ≠ [] → locate m (hasher m k) k = Vacant j →
  ∀ e, e ∈ occupied (slots m) → key e ≠ k.
Proof.
  intros Hm Hne Hloc e He <-. pose proof (tok_hash m Hm e He) as Hh.
  pose proof (locate_post m (key e) Hm Hne) as Hpost. rewrite Hloc in Hpost.
  destruct Hpost as [Hj Hs]. apply elem_of_occupied in He as [p Hp].
  pose proof (lookup_lt_Some _ _ _ Hp) as Hpl. pose proof (lookup_lt_Some _ _ _ Hj) as Hjl.
  rewrite <- Hh in Hs.
  destruct (decide (dist (length (slots m)) (home (length (slots m) - 1) (hash e)) p <
                    dist (length (slots m)) (home (length (slots m) - 1) (hash e)) j))
    as [Hd|Hd].
  - destruct (Hs p Hpl Hd) as (e' & He' & Hf). rewrite Hp in He'. simplify_eq.
    assert (hit_key (hash e') (key e') e' = true) by (by apply hit_key_spec). congruence.
  - destruct (decide (p = j)) as [->|Hpj]; [congruence|].
    destruct (tok_probe m Hm p e Hp j Hjl) as [[]|[e' He']]; [|congruence].
    pose proof (home_lt _ (hash e) (table_ok_cap m Hm Hne)). unfold capacity in *.
    clear Hs. ring_cases.
Qed.

(** A located entry, in terms of the abstraction. *)
Lemma locate_found m k j e :
  table_ok m → slots m ≠ [] → locate m (hasher m k) k = Found j e →
  slots m !! j = Some (Some e) ∧ hash e = hasher m k ∧ key e = k ∧
  to_map (slots m) !! k = Some (value e).
Proof.
  intros Hm Hne Hloc. pose proof (locate_post m k Hm Hne) as Hpost. rewrite Hloc in Hpost.
  destruct Hpost as (Hj & [Hh <-]%hit_key_spec & _). split_and!; [done..|].
  apply to_map_Some; [apply tok_keys, Hm|]. apply elem_of_occupied. eauto.
Qed.

Lemma locate_not_stuck m k :
  table_ok m → slots m ≠ [] → locate m (hasher m k) k ≠ Stuck.
Proof. intros Hm Hne Hs. pose proof (locate_post m k Hm Hne). by rewrite Hs in *. Qed.

Lemma get_to_map m k : table_ok m → get m k = to_map (slots m) !! k.
Proof.
  intros Hm. unfold get, get_pre.
  destruct (slots m) as [|o sl] eqn:Hsl; [done|]. rewrite <- Hsl.
  assert (slots m ≠ []) as Hne by (by rewrite Hsl).
  destruct (locate m _ k) as [j|j e|] eqn:Hloc.
  - symmetry. by eapply to_map_None, locate_vacant.
  - symmetry. by eapply locate_found.
  - by destruct (locate_not_stuck m k).
Qed.

(** ** Replacing the value of an occupied slot *)

Lemma occupied_replace sl j e e' :
  sl !! j = Some (Some e) →
  occupied (<[j:=Some e']> sl) ≡ₚ e' :: occupied (<[j:=None]> sl).
Proof.
  intros Hj. rewrite <- (list_insert_insert_eq sl j (Some e') None).
  apply occupied_fill. apply list_lookup_insert_eq. by eapply lookup_lt_Some.
Qed.

Lemma probe_inv_replace sl j e e' :
  probe_inv (fun _ => False) sl → sl !! j = Some (Some e) → hash e' = hash e →
  probe_inv (fun _ => False) (<[j := Some e']> sl).
Proof.
  intros Hinv Hj Hh i x Hx p. rewrite length_insert. intros Hp Hd. right.
  assert (filled sl p) as [y Hy].
  { apply list_lookup_insert_Some in Hx as [(-> & Heq & _)|(_ & Hx)].
    - simplify_eq. rewrite Hh in Hd. by destruct (Hinv _ _ Hj _ Hp Hd).
    - by destruct (Hinv _ _ Hx _ Hp Hd). }
  destruct (decide (j = p)) as [->|Hne].
  - exists e'. by apply list_lookup_insert_eq.
  - exists y. by rewrite list_lookup_insert_ne.
Qed.

Lemma replace_ok m j e v :
  table_ok m → slots m !! j = Some (Some e) →
  let m' := set_slots m (<[j := Some (mkEntry (hash e) (key e) v)]> (slots m)) in
  table_ok m' ∧ to_map (slots m') = <[key e := v]> (to_map (slots m)).
Proof.
  intros Hm Hj m'.
  pose proof (occupied_replace _ _ _ (mkEntry (hash e) (key e) v) Hj) as Hocc.
  pose proof (occupied_clear _ _ _ Hj) as Hold.
  assert (NoDup (keys_of (slots m'))) as Hnd.
  { unfold m'; simpl. rewrite (keys_of_perm _ _ Hocc). pose proof (tok_keys m Hm) as Hk.
    by rewrite (keys_of_perm _ _ Hold) in Hk. }
  unfold m' in *; clear m'; simpl in Hnd. split.
  - destruct Hm as [Hshape Hlen Hload Hhash Hkeys Hprobe]. split; simpl; auto.
    + rewrite length_insert. destruct Hshape as [[Hnil _]|?]; [|by right].
      by rewrite Hnil in Hj.
    + by rewrite Hocc, Hlen, Hold.
    + unfold grow_threshold in *. simpl. by rewrite length_insert.
    + intros x Hx. rewrite Hocc in Hx. apply elem_of_cons in Hx as [->|Hx]; simpl.
      * apply Hhash. rewrite Hold. left.
      * apply Hhash. rewrite Hold. by right.
    + by eapply probe_inv_replace.
  - simpl. rewrite (to_map_perm _ _ Hnd Hocc), (to_map_perm _ _ (tok_keys m Hm) Hold).
    simpl. by rewrite insert_insert_eq.
Qed.

Lemma get_mut_to_map m k :
  table_ok m →
  match get_mut m k with
  | Some (v, put) =>
      to_map (slots m) !! k = Some v ∧
      ∀ v', table_ok (put v') ∧ to_map (slots (put v')) = <[k := v']> (to_map (slots m))
  | None => to_map (slots m) !! k = None
  end.
Proof.
  intros Hm. unfold get_mut, get_mut_pre.
  destruct (slots m) as [|o sl] eqn:Hsl; [done|]. rewrite <- Hsl.
  assert (slots m ≠ []) as Hne by (by rewrite Hsl).
  destruct (locate m _ k) as [j|j e|] eqn:Hloc.
  - by eapply to_map_None, locate_vacant.
  - destruct (locate_found m k j e Hm Hne Hloc) as (Hj & _ & <- & Hv).
    split; [done|]. intros v'. by apply replace_ok.
  - by destruct (locate_not_stuck m k).
Qed.

(** ** Growing keeps every entry *)

Lemma occupied_replicate n : occupied (replicate n (@None (Entry V))) = [].
Proof. by induction n. Qed.

Lemma probe_inv_empty n : probe_inv (fun _ => False) (replicate n (@None (Entry V))).
Proof. intros j e [Hj _]%lookup_replicate. done. Qed.

(** One step of the rehash loop, on a table with room left. *)
Lemma rehash_one_ok sl e :
  cap_ok (length sl) → length (occupied sl) < length sl →
  probe_inv (fun _ => False) sl →
  let sl' := rehash_one (length sl - 1) sl e in
  length sl' = length sl ∧ occupied sl' ≡ₚ e :: occupied sl ∧
  probe_inv (fun _ => False) sl'.
Proof.
  intros Hc Hroom Hinv. destruct (occupied_room _ Hroom) as [q Hq].
  pose proof (home_lt _ (hash e) Hc) as Hh.
  pose proof (probe_spec (fun _ => false) sl _ q (length sl) Hc Hh Hq
    (dist_lt _ _ _ Hh (lookup_lt_Some _ _ _ Hq))) as Hpost.
  unfold rehash_one. rewrite skip_occupied_probe.
  destruct (probe _ _ _ _ _) as [j|j e'|]; simpl in Hpost; [|by destruct Hpost as (_ & ? & _)|done].
  destruct Hpost as [Hj Hs]. simpl.
  rewrite length_insert, (occupied_fill _ _ _ Hj). split_and!; [done..|].
  by eapply probe_inv_fill.
Qed.

Lemma rehash_all_ok es sl :
  cap_ok (length sl) → length (occupied sl) + length es < length sl →
  probe_inv (fun _ => False) sl →
  let sl' := foldl (rehash_one (length sl - 1)) sl es in
  length sl' = length sl ∧ occupied sl' ≡ₚ es ++ occupied sl ∧
  probe_inv (fun _ => False) sl'.
Proof.
  revert sl. induction es as [|e es IH]; intros sl Hc Hroom Hinv; simpl in *; [done|].
  destruct (rehash_one_ok sl e Hc ltac:(lia) Hinv) as (Hlen & Hocc & Hinv').
  set (sl1 := rehash_one (length sl - 1) sl e) in *.
  destruct (IH sl1) as (Hlen' & Hocc' & Hinv''); rewrite ?Hlen, ?Hocc; simpl; auto with lia.
  rewrite Hlen in Hlen', Hocc', Hinv''. split_and!; [done| |done].
  rewrite Hocc', Hocc. symmetry. apply Permutation_middle.
Qed.

Lemma grow_ok m :
  table_ok m → slots m ≠ [] →
  table_ok (grow m) ∧ to_map (slots (grow m)) = to_map (slots m) ∧
  hasher (grow m) = hasher m ∧ capacity (grow m) = 2 * capacity m ∧
  len (grow m) = len m.
Proof.
  intros Hm Hne. pose proof (table_ok_cap m Hm Hne) as Hc. unfold capacity in *.
  pose proof (cap_ok_double _ Hc) as Hc2. unfold grow.
  rewrite Nat.max_l by (apply Hc2).
  set (n := 2 * length (slots m)) in *.
  assert (length (occupied (slots m)) < n) as Hroom.
  { pose proof (occupied_length_le (slots m)). destruct Hc as [Hc _].
    unfold n, MIN_CAP in *. lia. }
  destruct (rehash_all_ok (occupied (slots m)) (replicate n None)) as (Hlen & Hocc & Hinv).
  { by rewrite length_replicate. }
  { by rewrite length_replicate, occupied_replicate. }
  { apply probe_inv_empty. }
  rewrite length_replicate in Hlen, Hocc, Hinv.
  rewrite occupied_replicate, app_nil_r in Hocc.
  set (sl := foldl _ _ _) in *.
  assert (NoDup (keys_of sl)) as Hnd.
  { unfold keys_of. rewrite Hocc. apply Hm. }
  split_and!; simpl; try done.
  - destruct Hm as [Hshape Hl Hload Hhash Hkeys Hprobe]. split; simpl.
    + right. by rewrite Hlen.
    + by rewrite Hocc.
    + unfold grow_threshold in *. simpl. rewrite Hlen. unfold n.
      pose proof (Nat.Div0.div_le_mono (length (slots m)) (2 * length (slots m)) LOAD_DEN
        ltac:(lia)).
      unfold LOAD_NUM, LOAD_DEN in *. lia.
    + intros e He. apply Hhash. by rewrite <- Hocc.
    + done.
    + done.
  - rewrite (to_map_perm _ _ Hnd Hocc). done.
Qed.

(** ** Insertion *)

Lemma alloc_ok m :
  table_ok m → slots m = [] →
  table_ok (alloc m MIN_CAP) ∧ to_map (slots (alloc m MIN_CAP)) = to_map (slots m).
Proof.
  intros Hm Hnil. pose proof (tok_len m Hm) as Hl. rewrite Hnil in *. unfold alloc.
  split; [|done]. split; simpl.
  - right. split; [apply cap_ok_min|done].
  - done.
  - rewrite Hl. simpl. lia.
  - intros e He. by apply not_elem_of_nil in He.
  - apply NoDup_nil_2.
  - apply (probe_inv_empty MIN_CAP).
Qed.

(** The entry goes to the vacant slot its probe stopped at. *)
Lemma fill_ok m k v j :
  table_ok m → slots m ≠ [] → len m < grow_threshold m →
  locate m (hasher m k) k = Vacant j →
  let m' := mk (<[j := Some (mkEntry (hasher m k) k v)]> (slots m)) (S (len m)) (mask m) (hasher m) in
  table_ok m' ∧ to_map (slots m') = <[k := v]> (to_map (slots m)).
Proof.
  intros Hm Hne Hlt Hloc. pose proof (locate_post m k Hm Hne) as Hpost.
  rewrite Hloc in Hpost. destruct Hpost as [Hj Hs].
  pose proof (locate_vacant m k j Hm Hne Hloc) as Hfresh. simpl.
  set (e := mkEntry (hasher m k) k v).
  pose proof (occupied_fill _ _ e Hj) as Hocc.
  assert (NoDup (keys_of (<[j:=Some e]> (slots m)))) as Hnd.
  { rewrite (keys_of_perm _ _ Hocc). apply NoDup_cons. split; [|apply Hm].
    intros (x & Hk & Hx)%list_elem_of_fmap. by apply (Hfresh x). }
  split.
  - destruct Hm as [Hshape Hlen Hload Hhash Hkeys Hprobe]. split; simpl; auto.
    + rewrite length_insert. destruct Hshape as [[? _]|?]; [done|by right].
    + by rewrite Hocc, Hlen.
    + unfold grow_threshold in *. simpl. rewrite length_insert. lia.
    + intros x Hx. rewrite Hocc in Hx. apply elem_of_cons in Hx as [->|Hx]; auto.
    + by eapply probe_inv_fill.
  - by rewrite (to_map_perm _ _ Hnd Hocc).
Qed.

(** The table [insert_pre] probes: allocated, with room for one more entry. *)
Definition reserve m : t V :=
  match slots m with
  | [] => alloc m MIN_CAP
  | _ => if grow_threshold m <=? len m then grow m else m
  end.

Lemma reserve_ok m :
  table_ok m →
  table_ok (reserve m) ∧ to_map (slots (reserve m)) = to_map (slots m) ∧
  slots (reserve m) ≠ [] ∧ len (reserve m) < grow_threshold (reserve m) ∧
  hasher (reserve m) = hasher m.
Proof.
  intros Hm. unfold reserve. destruct (slots m) as [|o sl] eqn:Hsl.
  - destruct (alloc_ok m Hm Hsl) as [Hok Hmap]. rewrite Hsl in Hmap.
    split_and!; try done. simpl. rewrite (tok_len m Hm), Hsl. by apply Nat.ltb_lt.
  - rewrite <- Hsl. assert (slots m ≠ []) as Hne by (by rewrite Hsl).
    destruct (Nat.leb_spec (grow_threshold m) (len m)) as [Hfull|Hroom]; [|done].
    destruct (grow_ok m Hm Hne) as (Hok & Hmap & Hh & Hcap & Hlen).
    pose proof (table_ok_cap m Hm Hne) as [Hmin [n Hn]]. pose proof (tok_load m Hm) as Hload.
    unfold grow_threshold, capacity in *. rewrite Hcap, Hlen. split_and!; try done.
    + intros Hnil. rewrite Hnil in Hcap. unfold MIN_CAP in *. simpl in Hcap. lia.
    + unfold LOAD_DEN, LOAD_NUM, MIN_CAP in *.
      pose proof (Nat.div_mod_eq (length (slots m)) 8).
      pose proof (Nat.mod_upper_bound (length (slots m)) 8).
      pose proof (Nat.div_mod_eq (2 * length (slots m)) 8).
      pose proof (Nat.mod_upper_bound (2 * length (slots m)) 8). lia.
Qed.

Lemma insert_reserve m k v :
  insert m k v =
  match locate (reserve m) (hasher m k) k with
  | Vacant i =>
      (mk (<[i := Some (mkEntry (hasher m k) k v)]> (slots (reserve m))) (S (len (reserve m)))
          (mask (reserve m)) (hasher (reserve m)), None)
  | Found i e =>
      (set_slots (reserve m) (<[i := Some (mkEntry (hash e) (key e) v)]> (slots (reserve m))),
       Some (value e))
  | Stuck => (reserve m, None)
  end.
Proof. done. Qed.

Lemma insert_to_map m k v :
  table_ok m →
  table_ok (insert m k v).1 ∧
  to_map (slots (insert m k v).1) = <[k := v]> (to_map (slots m)) ∧
  (insert m k v).2 = to_map (slots m) !! k.
Proof.
  intros Hm. rewrite insert_reserve.
  destruct (reserve_ok m Hm) as (Hok & Hmap & Hne & Hroom & Hh).
  rewrite <- Hmap, <- Hh.
  destruct (locate (reserve m) _ k) as [j|j e|] eqn:Hloc; simpl.
  - destruct (fill_ok _ k v j Hok Hne Hroom Hloc) as [Hok' Hmap'].
    split_and!; [done..|]. symmetry. by eapply to_map_None, locate_vacant.
  - destruct (locate_found _ k j e Hok Hne Hloc) as (Hj & _ & <- & Hv).
    destruct (replace_ok _ j e v Hok Hj) as [Hok' Hmap']. done.
  - by destruct (locate_not_stuck (reserve m) k).
Qed.

(** ** Removal: the backward shift *)

(** The loop invariant: [hole] is vacant, the probe invariant holds up to
    [hole], and the slots after [hole] up to [i] hold entries that do not
    probe across [hole]. *)
Record shift_inv sl (hole i : nat) : Prop := {
  sh_hole : sl !! hole = Some None;
  sh_inv : probe_inv (fun p => p = hole) sl;
  sh_seen : ∀ p, p < length sl →
    0 < dist (length sl) hole p ≤ dist (length sl) hole i →
    ∃ e, sl !! p = Some (Some e) ∧ cyclic_in hole p (home (length sl - 1) (hash e)) = true
}.

(** When the loop meets a vacant slot, nothing probes across [hole] any more. *)
Lemma shift_done sl hole i :
  cap_ok (length sl) → i < length sl → next (length sl - 1) i ≠ hole →
  shift_inv sl hole i → sl !! next (length sl - 1) i = Some None →
  probe_inv (fun _ => False) sl.
Proof.
  intros Hc Hi Hne [Hhole Hinv Hseen] Hend j e Hj p Hp Hd. right.
  destruct (Hinv j e Hj p Hp Hd) as [->|]; [|done]. exfalso.
  pose proof (lookup_lt_Some _ _ _ Hj) as Hjl.
  pose proof (next_lt _ _ Hc Hi) as Hnl. pose proof (home_lt _ (hash e) Hc) as Hhl.
  assert (j ≠ hole) as Hjh by congruence.
  assert (j ≠ next (length sl - 1) i) as Hjn by congruence.
  destruct (decide (dist (length sl) hole j ≤ dist (length sl) hole i)) as [Hle|Hgt].
  - destruct (Hseen j Hjl) as (e' & He' & Hcyc); [ring_cases|].
    rewrite Hj in He'. simplify_eq. clear Hinv Hseen. ring_cases.
  - assert (hole ≠ i ∨ hole = i) as Hhi by lia.
    destruct (Hinv j e Hj (next (length sl - 1) i) Hnl) as [|[x Hx]]; [|done|congruence].
    rewrite next_wrap in * by done. clear Hinv Hseen.
    destruct (Nat.eqb_spec (i + 1) (length sl)); ring_cases.
Qed.

(** Moving an entry that does probe across [hole] into it. *)
Lemma shift_move sl hole i e :
  cap_ok (length sl) → i < length sl → i ≠ hole →
  probe_inv (fun p => p = hole) sl → sl !! hole = Some None →
  sl !! i = Some (Some e) → cyclic_in hole i (home (length sl - 1) (hash e)) = false →
  shift_inv (<[hole := Some e]> (<[i := None]> sl)) i i.
Proof.
  intros Hc Hi Hne Hinv Hhole He Hcyc.
  pose proof (lookup_lt_Some _ _ _ Hhole) as Hhl. pose proof (home_lt _ (hash e) Hc) as Hel.
  assert (∀ p, p ≠ i → p = hole ∨ filled sl p → filled (<[hole:=Some e]> (<[i:=None]> sl)) p)
    as Hfill.
  { intros p Hpi Hp. destruct (decide (p = hole)) as [->|Hph].
    - exists e. apply list_lookup_insert_eq. by rewrite length_insert.
    - destruct Hp as [|[x Hx]]; [done|]. exists x.
      by rewrite !list_lookup_insert_ne by congruence. }
  split; rewrite ?length_insert.
  - rewrite list_lookup_insert_ne by congruence. by apply list_lookup_insert_eq.
  - intros j x Hx p. rewrite !length_insert. intros Hp Hd.
    destruct (decide (p = i)) as [|Hpi]; [by left|]. right. apply Hfill; [done|].
    apply list_lookup_insert_Some in Hx as [(<- & Hxe & _)|(Hjh & Hx)].
    + simplify_eq. apply (Hinv i x He p Hp). clear Hinv Hfill. ring_cases.
    + apply list_lookup_insert_Some in Hx as [(_ & ? & _)|(Hji & Hx)]; [done|].
      by apply (Hinv j x Hx p Hp).
  - intros p Hp. rewrite dist_same. lia.
Qed.

(** The whole loop: it returns, and only moves entries. *)
Lemma backward_shift_loop_ok fuel sl hole i q :
  cap_ok (length sl) → i < length sl → shift_inv sl hole i →
  sl !! q = Some None → q ≠ hole →
  dist (length sl) hole i < dist (length sl) hole q → dist (length sl) i q ≤ fuel →
  ∃ sl', backward_shift_loop fuel sl (length sl - 1) hole i = Some sl' ∧
    length sl' = length sl ∧ occupied sl' ≡ₚ occupied sl ∧ probe_inv (fun _ => False) sl'.
Proof.
  revert sl hole i. induction fuel as [|fuel IH]; intros sl hole i Hc Hi Hsh Hq Hqh Hd Hf.
  { exfalso. pose proof (lookup_lt_Some _ _ _ Hq). ring_cases. }
  pose proof (lookup_lt_Some _ _ _ Hq) as Hql.
  pose proof (lookup_lt_Some _ _ _ (sh_hole _ _ _ Hsh)) as Hhl.
  assert (i ≠ q) as Hiq by (intros ->; lia).
  pose proof (next_lt _ _ Hc Hi) as Hnl.
  pose proof (dist_next _ _ _ Hc Hi Hql Hiq) as Hdq.
  assert (next (length sl - 1) i ≠ hole) as Hnh.
  { rewrite next_wrap by done. destruct (Nat.eqb_spec (i + 1) (length sl)); ring_cases. }
  assert (dist (length sl) hole (next (length sl - 1) i) = S (dist (length sl) hole i)) as Hdh.
  { clear Hdq. rewrite next_wrap in * by done.
    destruct (Nat.eqb_spec (i + 1) (length sl)); ring_cases. }
  simpl. destruct (lookup_lt_is_Some_2 sl _ Hnl) as [[e|] He]; rewrite He.
  2: { exists sl. split_and!; try done. by apply (shift_done sl hole i). }
  assert (next (length sl - 1) i ≠ q) as Hnq by congruence.
  destruct (cyclic_in _ _ _) eqn:Hcyc; simpl.
  - apply IH; try done; [|ring_cases|lia].
    destruct Hsh as [Hhole Hinv Hseen]. split; try done. intros p Hp Hdp.
    destruct (decide (p = next (length sl - 1) i)) as [->|Hpn]; [eauto|].
    apply Hseen; [done|]. split; [lia|]. clear Hinv Hseen. ring_cases.
  - set (sl1 := <[hole:=Some e]> _).
    assert (length sl1 = length sl) as Hlen by (unfold sl1; by rewrite !length_insert).
    destruct (IH sl1 (next (length sl - 1) i) (next (length sl - 1) i))
      as (sl' & Hr & Hl' & Ho' & Hp'); rewrite ?Hlen; try done.
    + unfold sl1. apply shift_move; try done; apply Hsh.
    + unfold sl1. by rewrite !list_lookup_insert_ne by congruence.
    + rewrite dist_same. ring_cases.
    + lia.
    + rewrite Hlen in *. exists sl'. split_and!; try done. rewrite Ho'. unfold sl1.
      rewrite occupied_fill, <- occupied_clear; try done.
      rewrite list_lookup_insert_ne by done. apply Hsh.
Qed.

Lemma probe_inv_clear sl j :
  probe_inv (fun _ => False) sl → probe_inv (fun p => p = j) (<[j := None]> sl).
Proof.
  intros Hinv i e He p. rewrite length_insert. intros Hp Hd.
  apply list_lookup_insert_Some in He as [(_ & ? & _)|(_ & He)]; [done|].
  destruct (decide (p = j)) as [|Hne]; [by left|]. right.
  destruct (Hinv _ _ He _ Hp Hd) as [[]|[x Hx]].
  exists x. by rewrite list_lookup_insert_ne.
Qed.

Lemma backward_shift_ok m j e :
  table_ok m → slots m !! j = Some (Some e) →
  ∃ sl', backward_shift_loop (length (slots m)) (<[j := None]> (slots m)) (mask m) j j = Some sl' ∧
    length sl' = length (slots m) ∧ occupied (slots m) ≡ₚ e :: occupied sl' ∧
    probe_inv (fun _ => False) sl'.
Proof.
  intros Hm Hj. pose proof (lookup_lt_Some _ _ _ Hj) as Hjl.
  assert (slots m ≠ []) as Hne by (intros Hn; by rewrite Hn in Hj).
  destruct (table_ok_vacant m Hm Hne) as [q Hq].
  pose proof (lookup_lt_Some _ _ _ Hq) as Hql.
  assert (q ≠ j) as Hqj by congruence.
  pose proof (table_ok_cap m Hm Hne) as Hc. unfold capacity in Hc.
  destruct (backward_shift_loop_ok (length (slots m)) (<[j := None]> (slots m)) j j q)
    as (sl' & Hr & Hl & Hocc & Hp); rewrite ?length_insert in *; try done.
  - split; rewrite ?length_insert.
    + by apply list_lookup_insert_eq.
    + by apply probe_inv_clear, Hm.
    + intros p Hp. rewrite dist_same. lia.
  - by rewrite list_lookup_insert_ne.
  - rewrite dist_same. ring_cases.
  - by apply Nat.lt_le_incl, dist_lt.
  - exists sl'. rewrite (table_ok_mask m Hm). split_and!; try done.
    by rewrite Hocc, <- (occupied_clear _ _ _ Hj).
Qed.

Lemma remove_to_map m k :
  table_ok m →
  table_ok (remove m k).1 ∧
  to_map (slots (remove m k).1) = delete k (to_map (slots m)) ∧
  (remove m k).2 = to_map (slots m) !! k.
Proof.
  intros Hm. unfold remove, remove_pre.
  destruct (slots m) as [|o sl] eqn:Hsl; [simpl; rewrite Hsl; split_and!; try done|].
  rewrite <- Hsl. assert (slots m ≠ []) as Hne by (by rewrite Hsl).
  destruct (locate m _ k) as [j|j e|] eqn:Hloc; simpl.
  - pose proof (to_map_None _ _ (locate_vacant m k j Hm Hne Hloc)) as Hk.
    by rewrite delete_id, Hk.
  - destruct (locate_found m k j e Hm Hne Hloc) as (Hj & _ & <- & Hv).
    destruct (backward_shift_ok m j e Hm Hj) as (sl' & Hr & Hl & Hocc & Hp).
    unfold backward_shift. simpl. rewrite length_insert, Hr. simpl.
    assert (NoDup (key e :: keys_of sl')) as [Hfresh Hnd]%NoDup_cons.
    { pose proof (tok_keys m Hm) as Hk. by rewrite (keys_of_perm _ _ Hocc) in Hk. }
    split_and!; [| |done].
    + destruct Hm as [Hshape Hlen Hload Hhash Hkeys Hprobe]. split; simpl; try done.
      * destruct Hshape as [[? _]|?]; [done|]. right. by rewrite Hl.
      * rewrite Hlen, Hocc. simpl. lia.
      * unfold grow_threshold in *. simpl. rewrite Hl. lia.
      * intros x Hx. apply Hhash. rewrite Hocc. by right.
    + rewrite (to_map_perm _ _ (tok_keys m Hm) Hocc). simpl.
      rewrite delete_insert_id; [done|]. apply to_map_None.
      intros x Hx Hk. apply Hfresh. rewrite <- Hk. by apply list_elem_of_fmap_2.
  - by destruct (locate_not_stuck m k).
Qed.

(** ** The contract the clients use *)

Lemma table_ok_new hf : table_ok (new hf : t V).
Proof.
  split; simpl; try done; [by left|..].
  - intros e He. by apply not_elem_of_nil in He.
  - apply NoDup_nil_2.
Qed.

Lemma fm_new_wf hf : wf (new hf : t V).
Proof. apply table_ok_new. Qed.

Lemma fm_new_abs hf : ⟦new hf : t V⟧ = ∅.
Proof. done. Qed.

Lemma fm_get m k : wf m → get m k = ⟦m⟧ !! k.
Proof. apply get_to_map. Qed.

Lemma fm_contains_key m k : wf m → contains_key m k = bool_decide (is_Some (⟦m⟧ !! k)).
Proof.
  intros Hm. unfold contains_key. rewrite fm_get by done.
  destruct (⟦m⟧ !! k); symmetry; [by apply bool_decide_eq_true|].
  apply bool_decide_eq_false. by intros [].
Qed.

Lemma fm_insert_wf m k v : wf m → wf (insert m k v).1.
Proof. apply insert_to_map. Qed.

Lemma fm_insert_abs m k v : wf m → ⟦(insert m k v).1⟧ = <[k := v]> ⟦m⟧.
Proof. apply insert_to_map. Qed.

Lemma fm_insert_old m k v : wf m → (insert m k v).2 = ⟦m⟧ !! k.
Proof. apply insert_to_map. Qed.

Lemma fm_remove_wf m k : wf m → wf (remove m k).1.
Proof. apply remove_to_map. Qed.

Lemma fm_remove_abs m k : wf m → ⟦(remove m k).1⟧ = delete k ⟦m⟧.
Proof. apply remove_to_map. Qed.

Lemma fm_remove_old m k : wf m → (remove m k).2 = ⟦m⟧ !! k.
Proof. apply remove_to_map. Qed.

Lemma fm_get_mut m k :
  wf m →
  match get_mut m k with
  | Some (v, put) =>
      ⟦m⟧ !! k = Some v ∧ ∀ v', wf (put v') ∧ ⟦put v'⟧ = <[k := v']> ⟦m⟧
  | None => ⟦m⟧ !! k = None
  end.
Proof. apply get_mut_to_map. Qed.

Lemma fm_modify_wf m k f : wf m → wf (modify m k f).
Proof.
  intros Hm. pose proof (fm_get_mut m k Hm) as Hg. unfold modify.
  destruct (get_mut m k) as [[v put]|]; [|done]. apply Hg.
Qed.

Lemma fm_modify_abs m k f : wf m → ⟦modify m k f⟧ = alter f k ⟦m⟧.
Proof.
  intros Hm. pose proof (fm_get_mut m k Hm) as Hg. unfold modify.
  destruct (get_mut m k) as [[v put]|].
  - destruct Hg as [Hv Hput]. destruct (Hput (f v)) as [_ ->].
    symmetry. by apply alter_alt_Some.
  - symmetry. by apply alter_id'.
Qed.

Lemma fm_len m : wf m → len m = size ⟦m⟧.
Proof.
  intros Hm. rewrite (tok_len m Hm). unfold absf; simpl. unfold to_map.
  rewrite map_size_list_to_map; [by rewrite length_fmap|].
  rewrite <- list_fmap_compose. apply Hm.
Qed.

Lemma fm_iter m : wf m → iter m ≡ₚ map_to_list ⟦m⟧.
Proof.
  intros Hm. symmetry. apply map_to_list_to_map. unfold iter.
  rewrite <- list_fmap_compose. apply Hm.
Qed.

End theory.

#[export] Hint Resolve fm_new_wf fm_insert_wf fm_remove_wf fm_modify_wf : inmem.
#[export] Hint Rewrite @fm_new_abs @fm_insert_abs @fm_insert_old @fm_remove_abs
  @fm_remove_old @fm_modify_abs using (auto with inmem) : inmem.

(** Observationally equal maps answer alike, whatever their capacities,
    layouts and hashers. *)
Section proper.
Context {V : Type}.

#[export] Instance get_proper : Proper (obs_eq ==> eq ==> eq) (@get V).
Proof. intros m1 m2 (? & ? & Heq) k ? <-. by rewrite !fm_get, Heq. Qed.

#[export] Instance insert_proper k v : Proper (obs_eq ==> obs_eq) (fun m : t V => (insert m k v).1).
Proof.
  intros m1 m2 (? & ? & Heq). split_and!; auto with inmem.
  by rewrite !fm_insert_abs, Heq.
Qed.

#[export] Instance remove_proper k : Proper (obs_eq ==> obs_eq) (fun m : t V => (remove m k).1).
Proof.
  intros m1 m2 (? & ? & Heq). split_and!; auto with inmem.
  by rewrite !fm_remove_abs, Heq.
Qed.

#[export] Instance iter_proper : Proper (obs_eq ==> Permutation) (@iter V).
Proof. intros m1 m2 (? & ? & Heq). by rewrite !fm_iter, Heq. Qed.
End proper.

(** ** Whole-run properties *)

(** A call of the public interface, and what it returns. *)
Inductive Op (V : Type) :=
  | OpGet (k : bytes)
  | OpContains (k : bytes)
  | OpGetMut (k : bytes) (v : V)
  | OpInsert (k : bytes) (v : V)
  | OpRemove (k : bytes)
  | OpLen.
Arguments OpGet {V} _.
Arguments OpContains {V} _.
Arguments OpGetMut {V} _ _.
Arguments OpInsert {V} _ _.
Arguments OpRemove {V} _.
Arguments OpLen {V}.

Inductive Ret (V : Type) := RVal (o : option V) | RBool (b : bool) | RNat (n : nat).
Arguments RVal {V} _.
Arguments RBool {V} _.
Arguments RNat {V} _.

Section runs.
Context {V : Type}.

(** One call on the table; [OpGetMut k v] writes [v] through the reference. *)
Definition step (m : t V) (o : Op V) : t V * Ret V :=
  match o with
  | OpGet k => (m, RVal (get m k))
  | OpContains k => (m, RBool (contains_key m k))
  | OpGetMut k v =>
      match get_mut m k with
      | Some (old, put) => (put v, RVal (Some old))
      | None => (m, RVal None)
      end
  | OpInsert k v => let '(m', r) := insert m k v in (m', RVal r)
  | OpRemove k => let '(m', r) := remove m k in (m', RVal r)
  | OpLen => (m, RNat (len m))
  end.

(** The same call on a finite map. *)
Definition spec_step (m : gmap bytes V) (o : Op V) : gmap bytes V * Ret V :=
  match o with
  | OpGet k => (m, RVal (m !! k))
  | OpContains k => (m, RBool (bool_decide (is_Some (m !! k))))
  | OpGetMut k v => (alter (fun _ => v) k m, RVal (m !! k))
  | OpInsert k v => (<[k := v]> m, RVal (m !! k))
  | OpRemove k => (delete k m, RVal (m !! k))
  | OpLen => (m, RNat (size m))
  end.

Fixpoint run {S : Type} (f : S -> Op V -> S * Ret V) (s : S) (os : list (Op V)) : S * list (Ret V) :=
  match os with
  | [] => (s, [])
  | o :: os =>
      let '(s1, r) := f s o in
      let '(s2, rs) := run f s1 os in (s2, r :: rs)
  end.

Lemma step_refines (m : t V) (o : Op V) :
  wf m →
  wf (step m o).1 ∧ ⟦(step m o).1⟧ = (spec_step ⟦m⟧ o).1 ∧ (step m o).2 = (spec_step ⟦m⟧ o).2.
Proof.
  intros Hm. destruct o as [k|k|k v|k v|k|]; simpl.
  - by rewrite fm_get.
  - by rewrite fm_contains_key.
  - pose proof (fm_get_mut m k Hm) as Hg.
    destruct (get_mut m k) as [[old put]|]; simpl.
    + destruct Hg as [Hold Hput]. destruct (Hput v) as [? Habs].
      split_and!; [done| |by rewrite Hold].
      rewrite Habs. symmetry. by apply (alter_alt_Some (fun _ => v) _ _ old).
    + split_and!; [done| |by rewrite Hg]. symmetry. by apply alter_id'.
  - pose proof (insert_to_map m k v Hm) as Hi. destruct (insert m k v). destruct Hi as (? & ? & Hi).
    simpl in Hi. by rewrite Hi.
  - pose proof (remove_to_map m k Hm) as Hr. destruct (remove m k). destruct Hr as (? & ? & Hr).
    simpl in Hr. by rewrite Hr.
  - by rewrite fm_len.
Qed.

Lemma run_refines (m : t V) os :
  wf m →
  wf (run step m os).1 ∧ ⟦(run step m os).1⟧ = (run spec_step ⟦m⟧ os).1 ∧
  (run step m os).2 = (run spec_step ⟦m⟧ os).2.
Proof.
  revert m. induction os as [|o os IH]; intros m Hm; simpl; [done|].
  destruct (step_refines m o Hm) as (Hm1 & Habs & Hr).
  destruct (step m o) as [m1 r], (spec_step ⟦m⟧ o) as [s1 r']. simpl in *. subst.
  destruct (IH m1 Hm1) as (Hm2 & Habs2 & Hrs).
  destruct (run step m1 os), (run spec_step ⟦m1⟧ os). simpl in *. by subst.
Qed.

(** ** Pre-sizing *)

Lemma with_capacity_raw (hf : bytes -> Z) cap :
  0 < cap →
  let m : t V := with_capacity hf cap in
  table_ok m ∧ len m = 0 ∧ cap ≤ grow_threshold m.
Proof.
  intros Hcap. unfold with_capacity. destruct (Nat.ltb_spec 0 cap); [|lia].
  set (n := (cap * LOAD_DEN) `div` LOAD_NUM + 1).
  set (raw := next_power_of_two n `max` MIN_CAP).
  assert (n ≤ raw) as Hn.
  { unfold raw, next_power_of_two. pose proof (Nat.log2_log2_up_spec n). lia. }
  assert (cap_ok raw) as Hraw.
  { split; [lia|]. unfold raw, next_power_of_two.
    destruct (Nat.max_spec (2 ^ Nat.log2_up n) MIN_CAP) as [[_ ->]|[_ ->]]; [by exists 4|].
    by eexists. }
  assert (8 * (raw `div` 8) = raw) as Hdiv.
  { destruct Hraw as [Hmin [e He]]. unfold MIN_CAP in Hmin.
    assert (3 ≤ e) as He3.
    { destruct (Nat.le_gt_cases 3 e) as [?|Hlt]; [done|].
      assert (2 ^ e ≤ 2 ^ 2) by (apply Nat.pow_le_mono_r; lia). simpl in *. lia. }
    replace e with (3 + (e - 3)) in He by lia. rewrite Nat.pow_add_r in He.
    rewrite He. change (2 ^ 3) with 8. rewrite (Nat.mul_comm 8 (2 ^ (e - 3))).
    rewrite Nat.div_mul by lia. lia. }
  split_and!.
  - split; simpl.
    + right. by rewrite length_replicate.
    + by rewrite occupied_replicate.
    + lia.
    + intros x. rewrite occupied_replicate. by intros ?%not_elem_of_nil.
    + unfold keys_of. rewrite occupied_replicate. apply NoDup_nil_2.
    + apply probe_inv_empty.
  - done.
  - unfold grow_threshold. simpl. rewrite length_replicate. unfold n, LOAD_DEN, LOAD_NUM in *.
    pose proof (Nat.div_mod_eq (cap * 8) 7). pose proof (Nat.mod_upper_bound (cap * 8) 7). lia.
Qed.

Lemma insert_keeps_capacity (m : t V) k v :
  table_ok m → len m < grow_threshold m →
  capacity (insert m k v).1 = capacity m ∧ len (insert m k v).1 ≤ S (len m).
Proof.
  intros Hm Hroom. rewrite insert_reserve.
  assert (reserve m = m) as ->.
  { unfold reserve. destruct (slots m) eqn:Hsl.
    - unfold grow_threshold in Hroom. rewrite Hsl in Hroom. simpl in Hroom. lia.
    - destruct (Nat.leb_spec (grow_threshold m) (len m)); [lia|done]. }
  unfold capacity. destruct (locate m _ k); simpl; rewrite ?length_insert; lia.
Qed.

Lemma inserts_keep_capacity (kvs : list (bytes * V)) (m : t V) :
  table_ok m → len m + length kvs ≤ grow_threshold m →
  capacity (run step m ((fun '(k, v) => OpInsert k v) <$> kvs)).1 = capacity m.
Proof.
  revert m. induction kvs as [|[k v] kvs IH]; intros m Hm Hroom; simpl in *; [done|].
  destruct (insert_keeps_capacity m k v Hm ltac:(lia)) as [Hcap Hlen].
  pose proof (fm_insert_wf m k v Hm) as Hm1.
  destruct (insert m k v) as [m1 r]. simpl in *.
  specialize (IH m1 Hm1). destruct (run step m1 _). simpl in *. rewrite <- Hcap.
  apply IH. unfold grow_threshold, capacity in *. rewrite Hcap. lia.
Qed.

(** ** Properties *)

(** C7: the flat hash index refines a finite map.  Any sequence of calls of
    the public interface on a fresh [FlatMap], with any hasher (collisions
    included) and across any number of resizes and backward-shift deletions,
    returns exactly what the same calls return on a mathematical finite map,
    leaves the table well formed and represents the same final map. *)
Theorem flatmap_refines_finite_map (hf : bytes -> Z) (os : list (Op V)) :
  (run step (new hf) os).2 = (run spec_step ∅ os).2 ∧
  wf (run step (new hf) os).1 ∧
  ⟦(run step (new hf) os).1⟧ = (run spec_step ∅ os).1.
Proof.
  destruct (run_refines (new hf) os (fm_new_wf hf)) as (Hwf & Habs & Hret). done.
Qed.

(** No loop of the index diverges.  In every table reached from a fresh
    map, the probe loop started at a key's home slot stops within one lap, for
    present and absent keys, and the backward shift that follows the removal of
    any entry stops within one lap. *)
Theorem flatmap_loops_terminate (hf : bytes -> Z) (os : list (Op V)) (k : bytes) (i : nat) (e : Entry V) :
  let m := (run step (new hf) os).1 in
  slots m !! i = Some (Some e) →
  locate m (hash_key m k) k ≠ Stuck ∧
  is_Some (backward_shift_loop (capacity m) (<[i := None]> (slots m)) (mask m) i i).
Proof.
  intros m Hi. destruct (run_refines (new hf) os (fm_new_wf hf)) as [Hwf _].
  split.
  - apply locate_not_stuck; [done|]. intros Hn. by rewrite Hn in Hi.
  - destruct (backward_shift_ok m i e Hwf Hi) as (sl' & Hr & _). by exists sl'.
Qed.

(** the load factor.  In every table reached from a fresh map the capacity
    is zero or a power of two of at least 16, at most 7/8 of the slots are
    taken, the length field counts the entries, and each entry can be reached
    from its home slot without crossing a vacant slot (no tombstones are
    needed). *)
Theorem flatmap_load_bound (hf : bytes -> Z) (os : list (Op V)) :
  let m := (run step (new hf) os).1 in
  (capacity m = 0 ∨ (16 ≤ capacity m ∧ ∃ n, capacity m = 2 ^ n)) ∧
  8 * len m ≤ 7 * capacity m ∧
  len m = size ⟦m⟧ ∧
  probe_inv (fun _ => False) (slots m).
Proof.
  intros m. destruct (run_refines (new hf) os (fm_new_wf hf)) as [Hwf _].
  change (table_ok m) in Hwf. split_and!.
  - destruct (tok_shape m Hwf) as [[Hn _]|[Hc _]]; [left|by right].
    unfold capacity. by rewrite Hn.
  - pose proof (tok_load m Hwf) as Hl. unfold grow_threshold, LOAD_DEN, LOAD_NUM in Hl.
    unfold capacity. pose proof (Nat.div_mod_eq (length (slots m)) 8). lia.
  - by apply fm_len.
  - apply Hwf.
Qed.

(** Pre-sizing.  A map made by [with_capacity(cap)] takes [cap] insertions
    without ever changing its slot vector. *)
Theorem with_capacity_avoids_grow (hf : bytes -> Z) (cap : nat) (kvs : list (bytes * V)) :
  length kvs ≤ cap →
  let m : t V := with_capacity hf cap in
  capacity (run step m ((fun '(k, v) => OpInsert k v) <$> kvs)).1 = capacity m.
Proof.
  intros Hlen m. destruct (decide (cap = 0)) as [->|Hne].
  - destruct kvs; [done|]. simpl in Hlen. lia.
  - destruct (with_capacity_raw hf cap ltac:(lia)) as (Hok & Hl & Hth).
    apply inserts_keep_capacity; [done|]. unfold m. lia.
Qed.

End runs.

(** ** Witnesses *)

(** A hasher with many collisions: the length of the key. *)
Definition length_hasher (k : bytes) : Z := Z.of_nat (length k).

Lemma flatmap_loops_terminate_witness :
  let m := (run step (new length_hasher)
              [OpInsert (lit "a") 1; OpInsert (lit "b") 2; OpRemove (lit "a")]).1 in
  slots m !! 1 = Some (Some (mkEntry 1 (lit "b") 2)) ∧
  locate m (hash_key m (lit "zz")) (lit "zz") ≠ Stuck ∧
  is_Some (backward_shift_loop (capacity m) (<[1 := None]> (slots m)) (mask m) 1 1).
Proof.
  split; [vm_compute; reflexivity|].
  apply (flatmap_loops_terminate length_hasher
    [OpInsert (lit "a") 1; OpInsert (lit "b") 2; OpRemove (lit "a")]
    (lit "zz") 1 (mkEntry 1 (lit "b") 2)).
  vm_compute. reflexivity.
Defined.

Lemma with_capacity_avoids_grow_witness :
  length [(lit "a", 1); (lit "b", 2)] ≤ 20 ∧
  capacity (run step (with_capacity length_hasher 20)
    [OpInsert (lit "a") 1; OpInsert (lit "b") 2]).1 = 32.
Proof.
  split; [simpl; lia|].
  apply (with_capacity_avoids_grow length_hasher 20 [(lit "a", 1); (lit "b", 2)]).
  simpl. lia.
Defined.

End FlatMap.

Export (hints) FlatMap.
