(* ===== verification/Eviction.v ===== *)
(** * The S3-FIFO eviction policy ([crates/core/src/s3fifo.rs])

    [S3Fifo.t] owns ordering metadata only: a small and a main FIFO of keys, a
    ghost FIFO of recently evicted keys, and two hash indexes, [meta] for the
    live keys and [ghost_set] for the membership of the ghost queue.  Queues
    are lists, front first.  A key deleted from [meta] leaves stale references
    in the queues, which [evict_one] skips. *)
From S2P Require Import Prelude Map.

Module S3Fifo.

(** ** Data *)

Definition PROMOTE_THRESHOLD : nat := 1.
Definition FREQ_MAX : nat := 3.
Definition SMALL_PCT : nat := 10.

Inductive Loc := Small | Main.
#[export] Instance loc_eq_dec : EqDecision Loc.
Proof. solve_decision. Defined.

Record Meta := mkMeta { freq : nat; loc : Loc }.

Record t := mk {
  small : list bytes;
  main : list bytes;
  ghost : list bytes;
  meta : FlatMap.t Meta;
  ghost_set : FlatMap.t unit;
  small_count : nat;
  main_count : nat
}.

(** ** Operations *)

(** [hm] and [hg] are the hasher states of the two fresh indexes. *)
Definition new (hm hg : bytes -> Z) : t :=
  mk [] [] [] (FlatMap.new hm) (FlatMap.new hg) 0 0.

Definition len (p : t) : nat := small_count p + main_count p.
Definition is_empty (p : t) : bool := len p =? 0.

Definition insert (p : t) (k : bytes) : t :=
  let '(gs, r) := FlatMap.remove (ghost_set p) k in
  match r with
  | Some _ =>
      mk (small p) (main p ++ [k]) (ghost p)
         (FlatMap.insert (meta p) k (mkMeta 0 Main)).1 gs
         (small_count p) (main_count p + 1)
  | None =>
      mk (small p ++ [k]) (main p) (ghost p)
         (FlatMap.insert (meta p) k (mkMeta 0 Small)).1 gs
         (small_count p + 1) (main_count p)
  end.

Definition set_meta (p : t) (mt : FlatMap.t Meta) : t :=
  mk (small p) (main p) (ghost p) mt (ghost_set p) (small_count p) (main_count p).

Definition touch (p : t) (k : bytes) : t :=
  set_meta p
    (FlatMap.modify (meta p) k (fun m => mkMeta ((freq m + 1) `min` FREQ_MAX) (loc m))).

Definition remove (p : t) (k : bytes) : t :=
  let '(mt, r) := FlatMap.remove (meta p) k in
  match r with
  | Some m =>
      match loc m with
      | Small => mk (small p) (main p) (ghost p) mt (ghost_set p) (small_count p - 1) (main_count p)
      | Main => mk (small p) (main p) (ghost p) mt (ghost_set p) (small_count p) (main_count p - 1)
      end
  | None => set_meta p mt
  end.

Definition contains (p : t) (k : bytes) : bool := FlatMap.contains_key (meta p) k.

(** The trimming loop of [push_ghost]; each turn pops the queue. *)
Fixpoint trim_ghost (cap : nat) (g : list bytes) (gs : FlatMap.t unit)
    : list bytes * FlatMap.t unit :=
  if cap <? FlatMap.len gs then
    match g with
    | old :: g => trim_ghost cap g (FlatMap.remove gs old).1
    | [] => ([], gs)
    end
  else (g, gs).

Definition push_ghost (p : t) (k : bytes) : t :=
  let gs := (FlatMap.insert (ghost_set p) k tt).1 in
  let g := ghost p ++ [k] in
  let cap := len p `max` 16 in
  let '(g, gs) := trim_ghost cap g gs in
  mk (small p) (main p) g (meta p) gs (small_count p) (main_count p).

Definition step_small (p : t) : t * option bytes :=
  match small p with
  | [] => (mk [] (main p) (ghost p) (meta p) (ghost_set p) 0 (main_count p), None)
  | k :: small' =>
      let p := mk small' (main p) (ghost p) (meta p) (ghost_set p) (small_count p) (main_count p) in
      match FlatMap.get (meta p) k with
      | None => (p, None)
      | Some m =>
          if negb (bool_decide (loc m = Small)) then (p, None)
          else if PROMOTE_THRESHOLD <? freq m then
            let mt := FlatMap.modify (meta p) k (fun _ => mkMeta 0 Main) in
            (mk (small p) (main p ++ [k]) (ghost p) mt (ghost_set p)
                (small_count p - 1) (main_count p + 1), None)
          else
            let p := mk (small p) (main p) (ghost p) (FlatMap.remove (meta p) k).1 (ghost_set p)
                        (small_count p - 1) (main_count p) in
            (push_ghost p k, Some k)
      end
  end.

Definition step_main (p : t) : t * option bytes :=
  match main p with
  | [] => (mk (small p) [] (ghost p) (meta p) (ghost_set p) (small_count p) 0, None)
  | k :: main' =>
      let p := mk (small p) main' (ghost p) (meta p) (ghost_set p) (small_count p) (main_count p) in
      match FlatMap.get (meta p) k with
      | None => (p, None)
      | Some m =>
          if negb (bool_decide (loc m = Main)) then (p, None)
          else if 0 <? freq m then
            let mt := FlatMap.modify (meta p) k (fun m => mkMeta (freq m - 1) (loc m)) in
            (mk (small p) (main p ++ [k]) (ghost p) mt (ghost_set p)
                (small_count p) (main_count p), None)
          else
            (mk (small p) (main p) (ghost p) (FlatMap.remove (meta p) k).1 (ghost_set p)
                (small_count p) (main_count p - 1), Some k)
      end
  end.

(** Evict from the small queue when it exceeds its share, or is all there is. *)
Definition use_small (p : t) : bool :=
  (main_count p =? 0) ||
  ((0 <? small_count p) &&
   ((small_count p + main_count p) * SMALL_PCT <=? small_count p * 100)).

(** The loop of [evict_one]; [None] is no result: out of fuel. *)
Fixpoint evict_loop (fuel : nat) (p : t) : option (t * option bytes) :=
  match fuel with
  | 0 => None
  | S fuel =>
      if (small_count p =? 0) && (main_count p =? 0) then Some (p, None)
      else
        let '(p', victim) := if use_small p then step_small p else step_main p in
        match victim with
        | Some v => Some (p', Some v)
        | None => evict_loop fuel p'
        end
  end.

(** Each turn that evicts nothing shortens the small queue, or the main queue,
    or lowers a frequency. *)
Definition evict_fuel (p : t) : nat :=
  S (2 * length (small p) + length (main p) +
     sum_list (freq ∘ snd <$> FlatMap.iter (meta p))).

Definition evict_one (p : t) : t * option bytes :=
  match evict_loop (evict_fuel p) p with
  | Some r => r
  | None => (p, None)
  end.

(** ** Counting over the metadata *)

Definition count_loc (l : Loc) (m : gmap bytes Meta) : nat :=
  size (filter (fun kv => loc kv.2 = l) m).

Definition total_freq (m : gmap bytes Meta) : nat :=
  sum_list (freq ∘ snd <$> map_to_list m).

Lemma count_loc_insert l m k x :
  m !! k = None →
  count_loc l (<[k := x]> m) = (if decide (loc x = l) then 1 else 0) + count_loc l m.
Proof.
  intros Hk. unfold count_loc. case_decide as Hl.
  - rewrite map_filter_insert_True by done. rewrite map_size_insert_None; [done|].
    apply map_lookup_filter_None. auto.
  - rewrite map_filter_insert_not'; [done..|]. intros y Hy. congruence.
Qed.

Lemma count_loc_delete l m k x :
  m !! k = Some x →
  count_loc l m = (if decide (loc x = l) then 1 else 0) + count_loc l (delete k m).
Proof.
  intros Hk. rewrite <- (insert_delete_id m k x Hk) at 1.
  apply count_loc_insert, lookup_delete_eq.
Qed.

Lemma count_loc_overwrite l m k x y :
  m !! k = Some x →
  count_loc l (<[k := y]> m) + (if decide (loc x = l) then 1 else 0) =
  (if decide (loc y = l) then 1 else 0) + count_loc l m.
Proof.
  intros Hk. rewrite <- (insert_delete_eq m k y).
  rewrite count_loc_insert, (count_loc_delete l m k x Hk) by apply lookup_delete_eq. lia.
Qed.

Lemma count_loc_total m : count_loc Small m + count_loc Main m = size m.
Proof.
  induction m as [|k x m Hk IH] using map_ind; [done|].
  rewrite !count_loc_insert, map_size_insert_None, <- IH by done.
  destruct (loc x); simpl; repeat case_decide; try done; lia.
Qed.

Lemma count_loc_pos l m : 0 < count_loc l m → ∃ k x, m !! k = Some x ∧ loc x = l.
Proof.
  unfold count_loc. intros Hpos.
  destruct (map_choose (filter (fun kv => loc kv.2 = l) m)) as (k & x & Hx).
  { intros Hemp. rewrite Hemp, map_size_empty in Hpos. lia. }
  apply map_lookup_filter_Some in Hx as [Hx Hl]. exists k, x. done.
Qed.

Lemma total_freq_insert m k x :
  m !! k = None → total_freq (<[k := x]> m) = freq x + total_freq m.
Proof. intros Hk. unfold total_freq. by rewrite map_to_list_insert. Qed.

Lemma total_freq_delete m k x :
  m !! k = Some x → total_freq m = freq x + total_freq (delete k m).
Proof.
  intros Hk. rewrite <- (insert_delete_id m k x Hk) at 1.
  apply total_freq_insert, lookup_delete_eq.
Qed.

Lemma total_freq_overwrite m k x y :
  m !! k = Some x → total_freq (<[k := y]> m) + freq x = freq y + total_freq m.
Proof.
  intros Hk. rewrite <- (insert_delete_eq m k y), (total_freq_delete m k x Hk).
  rewrite total_freq_insert by apply lookup_delete_eq. lia.
Qed.

(** ** The policy invariant *)

(** The counters are exact, every live key is referenced by the queue its
    metadata names, frequencies are capped, and a ghost key is in the ghost
    queue and not live. *)
Record policy_ok (p : t) : Prop := {
  pok_meta : wf (meta p);
  pok_ghost : wf (ghost_set p);
  pok_small : small_count p = count_loc Small ⟦meta p⟧;
  pok_main : main_count p = count_loc Main ⟦meta p⟧;
  pok_queued : ∀ k x, ⟦meta p⟧ !! k = Some x →
    k ∈ match loc x with Small => small p | Main => main p end;
  pok_freq : ∀ k x, ⟦meta p⟧ !! k = Some x → freq x ≤ FREQ_MAX;
  pok_ghosts : ∀ k, is_Some (⟦ghost_set p⟧ !! k) → k ∈ ghost p ∧ ⟦meta p⟧ !! k = None
}.

#[export] Instance s3fifo_represents : Represents t (gmap bytes Meta) :=
  {| wf := policy_ok; absf p := ⟦meta p⟧ |}.

Lemma s3_abs p : ⟦p⟧ = ⟦meta p⟧.
Proof. done. Qed.

Lemma s3_new_ok hm hg : wf (new hm hg).
Proof.
  split; simpl; autorewrite with inmem; auto with inmem; try done.
  intros k [x Hx]. by rewrite lookup_empty in Hx.
Qed.

(** The counter of live keys is exact. *)
Lemma s3_len p : wf p → len p = size ⟦p⟧.
Proof.
  intros Hp. unfold len. rewrite (pok_small p Hp), (pok_main p Hp). apply count_loc_total.
Qed.

Lemma s3_contains p k : wf p → contains p k = bool_decide (is_Some (⟦p⟧ !! k)).
Proof. intros Hp. apply FlatMap.fm_contains_key, Hp. Qed.

(** A state that differs in its queues only by holding more references. *)
Lemma policy_ok_mono p p' :
  policy_ok p → meta p' = meta p → ghost_set p' = ghost_set p →
  small_count p' = small_count p → main_count p' = main_count p →
  ghost p' = ghost p →
  (∀ k x, ⟦meta p⟧ !! k = Some x →
     k ∈ match loc x with Small => small p' | Main => main p' end) →
  policy_ok p'.
Proof.
  intros [] Hm Hg Hs Hn Hgh Hq. split; rewrite ?Hm, ?Hg, ?Hs, ?Hn, ?Hgh; auto.
Qed.

(** Replacing the metadata of a live key without moving it between queues. *)
Lemma set_meta_ok p k x y :
  policy_ok p → ⟦meta p⟧ !! k = Some x → loc y = loc x → freq y ≤ FREQ_MAX →
  ∀ mt, wf mt → ⟦mt⟧ = <[k := y]> ⟦meta p⟧ → policy_ok (set_meta p mt).
Proof.
  intros [Hm Hg Hs Hn Hq Hf Hgh] Hk Hl Hy mt Hmt Habs. split; simpl; rewrite ?Habs; auto.
  - pose proof (count_loc_overwrite Small _ _ _ y Hk). rewrite Hl in *. lia.
  - pose proof (count_loc_overwrite Main _ _ _ y Hk). rewrite Hl in *. lia.
  - intros j z Hz. apply lookup_insert_Some in Hz as [[<- <-]|[_ Hz]]; [|by apply Hq].
    rewrite Hl. by apply Hq.
  - intros j z Hz. apply lookup_insert_Some in Hz as [[<- <-]|[_ Hz]]; [done|by eapply Hf].
  - intros j Hj. destruct (Hgh j Hj) as [Hin Hnone]. split; [done|].
    apply lookup_insert_None. split; [done|]. intros ->. congruence.
Qed.

(** The invariant only depends on what the metadata index represents. *)
Lemma set_meta_same p mt :
  policy_ok p → wf mt → ⟦mt⟧ = ⟦meta p⟧ → policy_ok (set_meta p mt).
Proof. intros [] Hmt Habs. split; simpl; rewrite ?Habs; auto. Qed.

Lemma touch_spec p k :
  wf p →
  wf (touch p k) ∧
  ⟦touch p k⟧ = alter (fun m => mkMeta ((freq m + 1) `min` FREQ_MAX) (loc m)) k ⟦p⟧.
Proof.
  intros Hp. pose proof (pok_meta p Hp) as Hm. rewrite !s3_abs. unfold touch.
  set (f := fun m => _). simpl. rewrite FlatMap.fm_modify_abs by done. split; [|done].
  destruct (⟦meta p⟧ !! k) as [x|] eqn:Hk.
  - apply (set_meta_ok p k x (f x)); auto with inmem; unfold f; simpl; [lia|].
    rewrite FlatMap.fm_modify_abs by done. by apply (alter_alt_Some f).
  - apply set_meta_same; auto with inmem.
    rewrite FlatMap.fm_modify_abs by done. by apply alter_id'.
Qed.

(** Dropping a live key from the metadata and from its counter. *)
Lemma forget_ok p k x mt sc mc :
  policy_ok p → ⟦meta p⟧ !! k = Some x → wf mt → ⟦mt⟧ = delete k ⟦meta p⟧ →
  sc = small_count p - (if decide (loc x = Small) then 1 else 0) →
  mc = main_count p - (if decide (loc x = Main) then 1 else 0) →
  policy_ok (mk (small p) (main p) (ghost p) mt (ghost_set p) sc mc).
Proof.
  intros [Hm Hg Hs Hn Hq Hf Hgh] Hk Hmt Habs -> ->. split; simpl; rewrite ?Habs; auto.
  - pose proof (count_loc_delete Small _ _ _ Hk). lia.
  - pose proof (count_loc_delete Main _ _ _ Hk). lia.
  - intros j z [_ Hz]%lookup_delete_Some. by apply Hq.
  - intros j z [_ Hz]%lookup_delete_Some. by eapply Hf.
  - intros j Hj. destruct (Hgh j Hj) as [Hin Hnone]. split; [done|].
    apply lookup_delete_None. by right.
Qed.

Lemma remove_spec p k : wf p → wf (remove p k) ∧ ⟦remove p k⟧ = delete k ⟦p⟧.
Proof.
  intros Hp. pose proof (pok_meta p Hp) as Hm. rewrite !s3_abs.
  pose proof (FlatMap.fm_remove_wf (meta p) k Hm) as Hmt.
  pose proof (FlatMap.fm_remove_abs (meta p) k Hm) as Habs.
  pose proof (FlatMap.fm_remove_old (meta p) k Hm) as Hold.
  unfold remove. destruct (FlatMap.remove (meta p) k) as [mt [x|]]; simpl in *.
  - destruct (loc x) eqn:Hl; (split; [|done]);
      apply (forget_ok p k x); try done; rewrite Hl; simpl; lia.
  - split; [|done]. apply set_meta_same; try done. rewrite Habs. by apply delete_id.
Qed.

(** Admitting a key that is not live. *)
Lemma insert_spec p k :
  wf p → ⟦p⟧ !! k = None →
  wf (insert p k) ∧
  ⟦insert p k⟧ =
    <[k := mkMeta 0 (if decide (is_Some (⟦ghost_set p⟧ !! k)) then Main else Small)]> ⟦p⟧.
Proof.
  intros [Hm Hg Hs Hn Hq Hf Hgh] Hk. rewrite !s3_abs in *.
  pose proof (FlatMap.fm_remove_wf (ghost_set p) k Hg) as Hgs.
  pose proof (FlatMap.fm_remove_abs (ghost_set p) k Hg) as Hgabs.
  pose proof (FlatMap.fm_remove_old (ghost_set p) k Hg) as Hold.
  unfold insert. destruct (FlatMap.remove (ghost_set p) k) as [gs r]; simpl in *.
  assert (∀ l (q : bytes -> Loc -> Prop) j z,
    (∀ j y, ⟦meta p⟧ !! j = Some y → q j (loc y)) → q k l →
    <[k := mkMeta 0 l]> ⟦meta p⟧ !! j = Some z → q j (loc z)) as Hins.
  { intros l q j z Hq0 Hk0 [[<- <-]|[_ Hz]]%lookup_insert_Some; auto. }
  assert (∀ l j, is_Some (⟦gs⟧ !! j) → j ∈ ghost p ∧ <[k := mkMeta 0 l]> ⟦meta p⟧ !! j = None)
    as Hgh'.
  { intros l j. rewrite Hgabs. intros [u [Hkj Hu]%lookup_delete_Some].
    destruct (Hgh j) as [Hin Hnone]; [by exists u|]. split; [done|].
    by rewrite lookup_insert_ne. }
  destruct r as [u|]; simpl; rewrite <- Hold; simpl;
    (split; [split; simpl; autorewrite with inmem; auto with inmem|
             by rewrite FlatMap.fm_insert_abs]).
  all: rewrite ?count_loc_insert by done; simpl; try (rewrite Hs || rewrite Hn; simpl; lia).
  - intros j z Hz.
    apply (Hins Main (fun j l => j ∈ match l with Small => small p | Main => main p ++ [k] end) j z);
      [|set_solver|done].
    intros i y Hy. specialize (Hq i y Hy). destruct (loc y); set_solver.
  - intros j z [[<- <-]|[_ Hz]]%lookup_insert_Some; [simpl; lia|by eapply Hf].
  - intros j z Hz.
    apply (Hins Small (fun j l => j ∈ match l with Small => small p ++ [k] | Main => main p end) j z);
      [|set_solver|done].
    intros i y Hy. specialize (Hq i y Hy). destruct (loc y); set_solver.
  - intros j z [[<- <-]|[_ Hz]]%lookup_insert_Some; [simpl; lia|by eapply Hf].
Qed.

(** ** The ghost queue *)

Lemma trim_ghost_ok cap g gs :
  wf gs → (∀ j, is_Some (⟦gs⟧ !! j) → j ∈ g) →
  let r := trim_ghost cap g gs in
  wf r.2 ∧ ⟦r.2⟧ ⊆ ⟦gs⟧ ∧ (∀ j, is_Some (⟦r.2⟧ !! j) → j ∈ r.1) ∧
  size ⟦r.2⟧ ≤ cap.
Proof.
  revert gs. induction g as [|old g IH]; intros gs Hgs Hin; simpl;
    rewrite (FlatMap.fm_len gs Hgs); destruct (Nat.ltb_spec cap (size ⟦gs⟧)); simpl; try done.
  - assert (⟦gs⟧ = ∅) as Hemp.
    { apply map_empty. intros j. apply eq_None_not_Some. intros Hj.
      by apply (not_elem_of_nil j), Hin. }
    rewrite Hemp, map_size_empty in *. lia.
  - destruct (IH (FlatMap.remove gs old).1) as (Hwf & Hsub & Hin' & Hsz); auto with inmem.
    { intros j. autorewrite with inmem. intros [u [Hne Hu]%lookup_delete_Some].
      specialize (Hin j (mk_is_Some _ _ Hu)). apply elem_of_cons in Hin as [->|?]; done. }
    split_and!; try done. etrans; [exact Hsub|]. autorewrite with inmem. apply delete_subseteq.
Qed.

Lemma push_ghost_ok p k :
  policy_ok p → ⟦meta p⟧ !! k = None →
  policy_ok (push_ghost p k) ∧ meta (push_ghost p k) = meta p.
Proof.
  intros [Hm Hg Hs Hn Hq Hf Hgh] Hk. unfold push_ghost.
  destruct (trim_ghost_ok (len p `max` 16) (ghost p ++ [k]) (FlatMap.insert (ghost_set p) k tt).1)
    as (Hwf & Hsub & Hin & _); auto with inmem.
  { intros j. autorewrite with inmem. intros [u Hu].
    apply elem_of_app. apply lookup_insert_Some in Hu as [[<- _]|[_ Hu]].
    - right. by apply list_elem_of_singleton.
    - left. apply (Hgh j). by exists u. }
  destruct (trim_ghost _ _ _) as [g gs]. simpl in *. split; [|done]. split; simpl; auto.
  intros j Hj. split; [by apply Hin|].
  destruct Hj as [u Hu]. autorewrite with inmem in Hsub.
  pose proof (lookup_weaken _ _ _ _ Hu Hsub) as Hu'.
  apply lookup_insert_Some in Hu' as [[<- _]|[_ Hu']]; [done|].
  apply (Hgh j). by exists u.
Qed.

(** The key just pushed survives the trimming, unless an older reference to it
    is popped. *)
Lemma trim_ghost_keeps_last cap g gs k :
  wf gs → 1 ≤ cap → k ∉ g → is_Some (⟦gs⟧ !! k) →
  (∀ j, is_Some (⟦gs⟧ !! j) → j ∈ g ++ [k]) →
  is_Some (⟦(trim_ghost cap (g ++ [k]) gs).2⟧ !! k).
Proof.
  intros Hgs Hcap. revert gs Hgs. induction g as [|old g IH]; intros gs Hgs Hk Hin Hall;
    simpl; rewrite (FlatMap.fm_len gs Hgs); destruct (Nat.ltb_spec cap (size ⟦gs⟧)) as [Hlt|];
    simpl; try done.
  - assert (size (dom ⟦gs⟧) ≤ size ({[k]} : gset bytes)) as Hle.
    { apply subseteq_size. intros j Hj%elem_of_dom. specialize (Hall j Hj).
      apply list_elem_of_singleton in Hall as ->. by apply elem_of_singleton. }
    rewrite size_dom, size_singleton in Hle. lia.
  - apply not_elem_of_cons in Hk as [Hne Hk]. apply IH; auto with inmem.
    + by rewrite FlatMap.fm_remove_abs, lookup_delete_ne by done.
    + intros j. rewrite FlatMap.fm_remove_abs by done.
      intros [u [Hj Hu]%lookup_delete_Some]. specialize (Hall j (mk_is_Some _ _ Hu)).
      apply elem_of_cons in Hall as [->|?]; done.
Qed.

Lemma push_ghost_remembers p k :
  wf (ghost_set p) → (∀ j, is_Some (⟦ghost_set p⟧ !! j) → j ∈ ghost p) → k ∉ ghost p →
  is_Some (⟦ghost_set (push_ghost p k)⟧ !! k).
Proof.
  intros Hg Hall Hk. unfold push_ghost.
  pose proof (trim_ghost_keeps_last (len p `max` 16) (ghost p)
    (FlatMap.insert (ghost_set p) k tt).1 k) as Hkeep.
  destruct (trim_ghost _ _ _) as [g gs]. simpl in *.
  apply Hkeep; auto with inmem; [lia|..].
  - rewrite FlatMap.fm_insert_abs, lookup_insert_eq by done. done.
  - intros j. rewrite FlatMap.fm_insert_abs by done. intros [u Hu]. apply elem_of_app.
    apply lookup_insert_Some in Hu as [[<- _]|[_ Hu]].
    + right. by apply list_elem_of_singleton.
    + left. apply Hall. by exists u.
Qed.

(** ** One step of the eviction loop *)

Definition potential (p : t) : nat :=
  2 * length (small p) + length (main p) + total_freq ⟦meta p⟧.

Lemma evict_fuel_potential p : wf p → evict_fuel p = S (potential p).
Proof.
  intros Hp. unfold evict_fuel, potential, total_freq.
  by rewrite (FlatMap.fm_iter _ (pok_meta p Hp)).
Qed.

(** A step evicts a live key, or makes progress and keeps the live keys. *)
Definition step_post (p p' : t) (r : option bytes) : Prop :=
  wf p' ∧
  match r with
  | Some k => is_Some (⟦p⟧ !! k) ∧ ⟦p'⟧ = delete k ⟦p⟧
  | None => dom ⟦p'⟧ = dom ⟦p⟧ ∧ potential p' < potential p
  end.

(** Popping a reference that is not the live reference of its key. *)
Lemma pop_small_ok p k small' :
  policy_ok p → small p = k :: small' →
  (∀ x, ⟦meta p⟧ !! k = Some x → loc x = Main) →
  policy_ok (mk small' (main p) (ghost p) (meta p) (ghost_set p) (small_count p) (main_count p)).
Proof.
  intros Hp Hsm Hk. apply (policy_ok_mono p); try done. intros j x Hx.
  pose proof (pok_queued p Hp j x Hx) as Hin. simpl. destruct (loc x) eqn:Hl; [|done].
  rewrite Hsm in Hin. apply elem_of_cons in Hin as [->|?]; [|done].
  specialize (Hk x Hx). congruence.
Qed.

Lemma pop_main_ok p k main' :
  policy_ok p → main p = k :: main' →
  (∀ x, ⟦meta p⟧ !! k = Some x → loc x = Small) →
  policy_ok (mk (small p) main' (ghost p) (meta p) (ghost_set p) (small_count p) (main_count p)).
Proof.
  intros Hp Hmn Hk. apply (policy_ok_mono p); try done. intros j x Hx.
  pose proof (pok_queued p Hp j x Hx) as Hin. simpl. destruct (loc x) eqn:Hl; [done|].
  rewrite Hmn in Hin. apply elem_of_cons in Hin as [->|?]; [|done].
  specialize (Hk x Hx). congruence.
Qed.

Lemma promote_ok p k x small' mt :
  policy_ok p → small p = k :: small' → ⟦meta p⟧ !! k = Some x → loc x = Small →
  wf mt → ⟦mt⟧ = <[k := mkMeta 0 Main]> ⟦meta p⟧ →
  policy_ok (mk small' (main p ++ [k]) (ghost p) mt (ghost_set p)
                (small_count p - 1) (main_count p + 1)).
Proof.
  intros [Hm Hg Hs Hn Hq Hf Hgh] Hsm Hk Hl Hmt Habs. split; simpl; rewrite ?Habs; auto.
  - pose proof (count_loc_overwrite Small _ _ _ (mkMeta 0 Main) Hk).
    rewrite Hl in *. simpl in *. lia.
  - pose proof (count_loc_overwrite Main _ _ _ (mkMeta 0 Main) Hk).
    rewrite Hl in *. simpl in *. lia.
  - intros j z [[<- <-]|[Hne Hz]]%lookup_insert_Some; simpl.
    + apply elem_of_app. right. by apply list_elem_of_singleton.
    + specialize (Hq j z Hz). destruct (loc z).
      * rewrite Hsm in Hq. apply elem_of_cons in Hq as [->|?]; done.
      * apply elem_of_app. by left.
  - intros j z [[<- <-]|[_ Hz]]%lookup_insert_Some; [simpl; lia|by eapply Hf].
  - intros j Hj. destruct (Hgh j Hj) as [Hin Hnone]. split; [done|].
    apply lookup_insert_None. split; [done|]. intros ->. congruence.
Qed.

(** A second chance: lower the frequency, go to the back of the main queue. *)
Lemma requeue_ok p k x main' mt :
  policy_ok p → main p = k :: main' → ⟦meta p⟧ !! k = Some x → loc x = Main →
  wf mt → ⟦mt⟧ = <[k := mkMeta (freq x - 1) (loc x)]> ⟦meta p⟧ →
  policy_ok (mk (small p) (main' ++ [k]) (ghost p) mt (ghost_set p)
                (small_count p) (main_count p)).
Proof.
  intros Hp Hmn Hk Hl Hmt Habs.
  assert (policy_ok (set_meta p mt)) as Hp1.
  { apply (set_meta_ok p k x (mkMeta (freq x - 1) (loc x))); try done.
    simpl. pose proof (pok_freq p Hp k x Hk). lia. }
  apply (policy_ok_mono (set_meta p mt)); try done. intros j z Hz.
  pose proof (pok_queued _ Hp1 j z Hz) as Hin. simpl in *. destruct (loc z); [done|].
  rewrite Hmn in Hin. apply elem_of_app.
  apply elem_of_cons in Hin as [->|?]; [right|by left]. by apply list_elem_of_singleton.
Qed.

Lemma step_small_spec p :
  wf p → 0 < small_count p → step_post p (step_small p).1 (step_small p).2.
Proof.
  intros Hp Hpos. pose proof (pok_meta p Hp) as Hm. unfold step_small.
  destruct (small p) as [|k small'] eqn:Hsm.
  { exfalso. rewrite (pok_small p Hp) in Hpos.
    apply count_loc_pos in Hpos as (k & x & Hk & Hl).
    pose proof (pok_queued p Hp k x Hk) as Hin. rewrite Hl, Hsm in Hin.
    by apply not_elem_of_nil in Hin. }
  simpl. rewrite FlatMap.fm_get by done.
  assert (∀ x, potential (mk small' (main p) (ghost p) (meta p) x (small_count p) (main_count p))
    < potential p) as Hpot by (intros x; unfold potential; rewrite Hsm; simpl; lia).
  destruct (⟦meta p⟧ !! k) as [x|] eqn:Hk.
  2: { split; [|split; [done|apply Hpot]]. apply (pop_small_ok p k); try done. intros x Hx. congruence. }
  destruct (bool_decide_reflect (loc x = Small)) as [Hl|Hl]; simpl.
  2: { split; [|split; [done|apply Hpot]]. apply (pop_small_ok p k); try done. intros y Hy.
       rewrite Hk in Hy. simplify_eq. by destruct (loc y). }
  destruct (Nat.ltb_spec PROMOTE_THRESHOLD (freq x)) as [Hfr|Hfr]; simpl.
  - pose proof (FlatMap.fm_modify_abs (meta p) k (fun _ => mkMeta 0 Main) Hm) as Habs.
    rewrite (alter_alt_Some (fun _ => mkMeta 0 Main) _ _ x Hk) in Habs.
    split; [by apply (promote_ok p k x); auto with inmem|]. rewrite !s3_abs. simpl.
    rewrite Habs. split; [by apply dom_insert_lookup_L|].
    unfold potential. simpl. rewrite Habs, Hsm, length_app. simpl.
    pose proof (total_freq_overwrite _ _ _ (mkMeta 0 Main) Hk). simpl in *.
    unfold PROMOTE_THRESHOLD in *. lia.
  - pose proof (FlatMap.fm_remove_abs (meta p) k Hm) as Habs.
    set (p1 := mk (small p) (main p) (ghost p) (FlatMap.remove (meta p) k).1 (ghost_set p)
                  (small_count p - 1) (main_count p)).
    assert (policy_ok p1) as Hp1.
    { apply (forget_ok p k x); auto with inmem; rewrite Hl; simpl; lia. }
    assert (⟦meta p1⟧ !! k = None) as Hk1 by (simpl; rewrite Habs; apply lookup_delete_eq).
    pose proof (pop_small_ok p1 k small' Hp1 Hsm) as Hp2.
    destruct (push_ghost_ok _ k (Hp2 ltac:(intros y Hy; congruence)) Hk1) as [Hp3 Hmeta].
    split; [exact Hp3|]. split; [by rewrite s3_abs, Hk|].
    rewrite s3_abs. etrans; [exact (f_equal absf Hmeta)|]. exact Habs.
Qed.

Lemma step_main_spec p :
  wf p → 0 < main_count p → step_post p (step_main p).1 (step_main p).2.
Proof.
  intros Hp Hpos. pose proof (pok_meta p Hp) as Hm. unfold step_main.
  destruct (main p) as [|k main'] eqn:Hmn.
  { exfalso. rewrite (pok_main p Hp) in Hpos.
    apply count_loc_pos in Hpos as (k & x & Hk & Hl).
    pose proof (pok_queued p Hp k x Hk) as Hin. rewrite Hl, Hmn in Hin.
    by apply not_elem_of_nil in Hin. }
  simpl. rewrite FlatMap.fm_get by done.
  assert (∀ x, potential (mk (small p) main' (ghost p) (meta p) x (small_count p) (main_count p))
    < potential p) as Hpot by (intros x; unfold potential; rewrite Hmn; simpl; lia).
  destruct (⟦meta p⟧ !! k) as [x|] eqn:Hk.
  2: { split; [|split; [done|apply Hpot]]. apply (pop_main_ok p k); try done. intros x Hx. congruence. }
  destruct (bool_decide_reflect (loc x = Main)) as [Hl|Hl]; simpl.
  2: { split; [|split; [done|apply Hpot]]. apply (pop_main_ok p k); try done. intros y Hy.
       rewrite Hk in Hy. simplify_eq. by destruct (loc y). }
  destruct (Nat.ltb_spec 0 (freq x)) as [Hfr|Hfr]; simpl.
  - set (f := fun m => mkMeta (freq m - 1) (loc m)).
    pose proof (FlatMap.fm_modify_abs (meta p) k f Hm) as Habs.
    rewrite (alter_alt_Some f _ _ x Hk) in Habs.
    split; [by apply (requeue_ok p k x); auto with inmem|]. rewrite !s3_abs. simpl.
    rewrite Habs. split; [by apply dom_insert_lookup_L|].
    unfold potential. simpl. rewrite Habs, Hmn, length_app. simpl.
    pose proof (total_freq_overwrite _ _ _ (f x) Hk). simpl in *. lia.
  - pose proof (FlatMap.fm_remove_abs (meta p) k Hm) as Habs.
    set (p1 := mk (small p) (main p) (ghost p) (FlatMap.remove (meta p) k).1 (ghost_set p)
                  (small_count p) (main_count p - 1)).
    assert (policy_ok p1) as Hp1.
    { apply (forget_ok p k x); auto with inmem; rewrite Hl; simpl; lia. }
    assert (⟦meta p1⟧ !! k = None) as Hk1 by (simpl; rewrite Habs; apply lookup_delete_eq).
    split; [apply (pop_main_ok p1 k main' Hp1 Hmn); intros y Hy; congruence|].
    split; [by rewrite s3_abs, Hk|]. exact Habs.
Qed.

(** ** The eviction loop *)

Lemma step_spec p :
  wf p → (small_count p =? 0) && (main_count p =? 0) = false →
  let r := if use_small p then step_small p else step_main p in step_post p r.1 r.2.
Proof.
  intros Hp Hne. simpl. unfold use_small.
  destruct (Nat.eqb_spec (main_count p) 0) as [Hmn|Hmn]; simpl in *.
  - apply step_small_spec; [done|].
    destruct (Nat.eqb_spec (small_count p) 0); [done|lia].
  - destruct (Nat.ltb_spec 0 (small_count p)); simpl; [|by apply step_main_spec; auto with lia].
    case_match; [by apply step_small_spec|by apply step_main_spec; auto with lia].
Qed.

(** What a call of [evict_one] promises to the store. *)
Definition evict_post (p p' : t) (r : option bytes) : Prop :=
  wf p' ∧
  match r with
  | Some k => k ∈ dom ⟦p⟧ ∧ dom ⟦p'⟧ = dom ⟦p⟧ ∖ {[k]}
  | None => dom ⟦p⟧ = ∅ ∧ dom ⟦p'⟧ = ∅
  end.

Lemma evict_loop_spec fuel p :
  wf p → potential p < fuel →
  ∃ p' r, evict_loop fuel p = Some (p', r) ∧ evict_post p p' r.
Proof.
  revert p. induction fuel as [|fuel IH]; intros p Hp Hpot; [lia|]. simpl.
  destruct (_ && _) eqn:Hemp.
  - exists p, None. split; [done|]. split; [done|].
    assert (size ⟦p⟧ = 0) as Hsz.
    { rewrite <- (s3_len p Hp). unfold len.
      apply andb_true_iff in Hemp as [->%Nat.eqb_eq ->%Nat.eqb_eq]. done. }
    apply map_size_empty_inv in Hsz. by rewrite Hsz, dom_empty_L.
  - pose proof (step_spec p Hp Hemp) as [Hp1 Hr]. simpl in *.
    destruct (if use_small p then _ else _) as [p1 [k|]]; simpl in *.
    + exists p1, (Some k). split; [done|]. split; [done|]. destruct Hr as [Hk ->].
      rewrite dom_delete_L, elem_of_dom. done.
    + destruct Hr as [Hdom Hlt].
      destruct (IH p1 Hp1 ltac:(lia)) as (p' & r & Hev & Hpost). exists p', r.
      split; [done|]. unfold evict_post in *. by rewrite <- Hdom.
Qed.

Lemma evict_one_spec p : wf p → evict_post p (evict_one p).1 (evict_one p).2.
Proof.
  intros Hp. unfold evict_one.
  destruct (evict_loop_spec (evict_fuel p) p Hp) as (p' & r & -> & Hpost); [|done].
  rewrite evict_fuel_potential by done. lia.
Qed.

Lemma s3_touch_wf p k : wf p → wf (touch p k).
Proof. intros Hp. by apply touch_spec. Qed.

Lemma s3_touch_dom p k : wf p → dom ⟦touch p k⟧ = dom ⟦p⟧.
Proof. intros Hp. destruct (touch_spec p k Hp) as [_ ->]. apply dom_alter_L. Qed.

Lemma s3_remove_wf p k : wf p → wf (remove p k).
Proof. intros Hp. by apply remove_spec. Qed.

Lemma s3_remove_dom p k : wf p → dom ⟦remove p k⟧ = dom ⟦p⟧ ∖ {[k]}.
Proof. intros Hp. destruct (remove_spec p k Hp) as [_ ->]. apply dom_delete_L. Qed.

Lemma s3_insert_wf p k : wf p → k ∉ dom ⟦p⟧ → wf (insert p k).
Proof. intros Hp Hk. apply insert_spec; [done|]. by apply not_elem_of_dom. Qed.

Lemma s3_insert_dom p k : wf p → k ∉ dom ⟦p⟧ → dom ⟦insert p k⟧ = {[k]} ∪ dom ⟦p⟧.
Proof.
  intros Hp Hk. destruct (insert_spec p k Hp) as [_ ->]; [by apply not_elem_of_dom|].
  apply dom_insert_L.
Qed.

#[export] Hint Resolve s3_new_ok s3_touch_wf s3_remove_wf s3_insert_wf : inmem.

(** ** Histories *)

(** The states a caller can reach, each with the set of keys it should be
    holding values for.  The store inserts a key only when it is absent. *)
Inductive history (hm hg : bytes -> Z) : t -> gset bytes -> Prop :=
  | h_new : history hm hg (new hm hg) ∅
  | h_insert p live k :
      history hm hg p live -> k ∉ live -> history hm hg (insert p k) ({[k]} ∪ live)
  | h_touch p live k : history hm hg p live -> history hm hg (touch p k) live
  | h_remove p live k : history hm hg p live -> history hm hg (remove p k) (live ∖ {[k]})
  | h_evict p live p' r :
      history hm hg p live -> evict_one p = (p', r) ->
      history hm hg p' (match r with Some k => live ∖ {[k]} | None => live end).

Lemma history_ok hm hg p live : history hm hg p live → wf p ∧ dom ⟦p⟧ = live.
Proof.
  induction 1 as [|p live k _ [Hp <-] Hk|p live k _ [Hp <-]|p live k _ [Hp <-]
                 |p live p' r _ [Hp <-] Hev].
  - split; [auto with inmem|]. apply (dom_empty_L (M := gmap bytes)).
  - split; [auto with inmem|by apply s3_insert_dom].
  - split; [auto with inmem|by apply s3_touch_dom].
  - split; [auto with inmem|by apply s3_remove_dom].
  - pose proof (evict_one_spec p Hp) as [Hp' Hr]. rewrite Hev in Hp', Hr. simpl in *.
    split; [done|]. destruct r; [by apply Hr|]. destruct Hr as [-> ->]. done.
Qed.

(** ** Properties *)

(** The policy tracks exactly the keys the store holds.  After any history
    of insertions of absent keys, hits, removals and evictions, the live count
    is the number of keys held, [contains] answers membership, and no
    frequency exceeds its cap. *)
Theorem s3fifo_tracks_live_keys hm hg p live :
  history hm hg p live →
  len p = size live ∧
  (∀ k, contains p k = bool_decide (k ∈ live)) ∧
  (∀ k x, ⟦p⟧ !! k = Some x → freq x ≤ FREQ_MAX).
Proof.
  intros [Hp <-]%history_ok. split_and!.
  - by rewrite s3_len, size_dom.
  - intros k. rewrite s3_contains by done. apply bool_decide_ext. by rewrite elem_of_dom.
  - apply Hp.
Qed.

(** C29: [evict_one] always returns, and returns a live victim.  After any
    history, the eviction loop ends within the computed number of turns,
    whatever stale references the queues hold; it returns a key the store
    holds whenever there is one, and nothing exactly when there is none; and
    the victim is the only key that stops being tracked. *)
Theorem s3fifo_evict_one_live hm hg p live :
  history hm hg p live →
  is_Some (evict_loop (evict_fuel p) p) ∧
  match evict_one p with
  | (p', Some k) => k ∈ live ∧ dom ⟦p'⟧ = live ∖ {[k]}
  | (p', None) => live = ∅
  end.
Proof.
  intros [Hp <-]%history_ok. split.
  - destruct (evict_loop_spec (evict_fuel p) p Hp) as (p' & r & -> & _); [|done].
    rewrite evict_fuel_potential by done. lia.
  - pose proof (evict_one_spec p Hp) as [_ Hr].
    destruct (evict_one p) as [p' [k|]]; simpl in *; [done|apply Hr].
Qed.

(** What happens at the head of the small queue.  A live key that was hit
    at most once is evicted and remembered as a ghost, so that inserting it
    again admits it to the main queue (when the ghost queue held no older
    reference to it); a key hit at least twice moves to the back of the main
    queue with its frequency reset, and nothing is evicted. *)
Theorem s3fifo_small_head p k x rest :
  wf p → small p = k :: rest → ⟦p⟧ !! k = Some x → loc x = Small →
  (freq x ≤ 1 →
     (step_small p).2 = Some k ∧ ⟦(step_small p).1⟧ !! k = None ∧
     (k ∉ ghost p → ⟦insert (step_small p).1 k⟧ !! k = Some (mkMeta 0 Main))) ∧
  (1 < freq x →
     (step_small p).2 = None ∧ ⟦(step_small p).1⟧ = <[k := mkMeta 0 Main]> ⟦p⟧ ∧
     main (step_small p).1 = main p ++ [k]).
Proof.
  intros Hp Hsm Hk Hl. pose proof (pok_meta p Hp) as Hm. rewrite s3_abs in Hk.
  pose proof (step_small_spec p Hp) as Hpost.
  assert (0 < small_count p) as Hpos.
  { rewrite (pok_small p Hp). pose proof (count_loc_delete Small _ _ _ Hk) as Hc.
    rewrite Hl in Hc. simpl in Hc. lia. }
  specialize (Hpost Hpos). revert Hpost. unfold step_small. rewrite Hsm. simpl.
  rewrite FlatMap.fm_get, Hk by done. simpl. rewrite Hl. simpl.
  destruct (Nat.ltb_spec PROMOTE_THRESHOLD (freq x)) as [Hfr|Hfr]; simpl;
    intros [Hwf Hr]; unfold PROMOTE_THRESHOLD in *; (split; [intros Hf|intros Hf]); try lia.
  - split_and!; try done. rewrite !s3_abs. simpl. rewrite FlatMap.fm_modify_abs by done.
    by apply (alter_alt_Some (fun _ => mkMeta 0 Main) _ _ x).
  - destruct Hr as [_ Hr]. split_and!; [done|by rewrite Hr, lookup_delete_eq|].
    intros Hgh. destruct (insert_spec _ k Hwf) as [_ ->]; [by rewrite Hr, lookup_delete_eq|].
    rewrite lookup_insert_eq. rewrite decide_True; [done|].
    apply push_ghost_remembers; [apply Hp| |done]. intros j Hj. by apply (pok_ghosts p Hp j).
Qed.

(** C36: the bookkeeping of removed keys is not bounded by the live keys.
    Inserting and removing one key [n] times leaves no live key and [n] stale
    references in the small queue: references are only dropped by an eviction,
    so churn that stays below the memory budget grows the queue for ever. *)
Theorem s3fifo_churn_grows_queue hm hg k n :
  let p := Nat.iter n (fun p => remove (insert p k) k) (new hm hg) in
  len p = 0 ∧ length (small p) = n.
Proof.
  simpl. set (churn := fun p => remove (insert p k) k).
  enough (∀ p, p = Nat.iter n churn (new hm hg) →
    wf p ∧ ⟦p⟧ = ∅ ∧ ⟦ghost_set p⟧ = ∅ ∧ length (small p) = n) as Hinv.
  { destruct (Hinv _ eq_refl) as (Hp & Habs & _ & Hlen).
    by rewrite s3_len, Habs, map_size_empty. }
  induction n as [|n' IH]; intros p ->; simpl.
  { split_and!; auto with inmem. }
  destruct (IH _ eq_refl) as (Hp & Habs & Hgs & Hlen). set (q := Nat.iter n' churn _) in *.
  assert (⟦q⟧ !! k = None) as Hk by (by rewrite Habs, lookup_empty).
  destruct (insert_spec q k Hp Hk) as [Hp1 Habs1].
  destruct (remove_spec _ k Hp1) as [Hp2 Habs2]. unfold churn.
  split_and!; [done| | |].
  - rewrite Habs2, Habs1, Habs, delete_insert_id by apply lookup_empty. done.
  - unfold remove, insert.
    pose proof (FlatMap.fm_remove_abs (ghost_set q) k (pok_ghost q Hp)) as Hg.
    rewrite Hgs in Hg.
    destruct (FlatMap.remove (ghost_set q) k) as [gs [u|]]; simpl in *;
      destruct (FlatMap.remove _ k) as [mt [x|]]; simpl; try destruct (loc x); simpl;
      by rewrite Hg, delete_empty.
  - unfold remove, insert.
    pose proof (FlatMap.fm_remove_old (ghost_set q) k (pok_ghost q Hp)) as Hold.
    rewrite Hgs, lookup_empty in Hold.
    destruct (FlatMap.remove (ghost_set q) k) as [gs r]; simpl in *. subst r.
    destruct (FlatMap.remove _ k) as [mt [x|]]; simpl; try destruct (loc x); simpl;
      rewrite length_app; simpl; lia.
Qed.

(** ** Witnesses *)

Definition wh : bytes -> Z := FlatMap.length_hasher.

(** Two keys, one of them hit twice. *)
Definition two_keys : t :=
  touch (touch (insert (insert (new wh wh) (lit "a")) (lit "b")) (lit "a")) (lit "a").

Lemma two_keys_history : history wh wh two_keys ({[lit "b"]} ∪ ({[lit "a"]} ∪ ∅)).
Proof.
  unfold two_keys. repeat (apply h_touch).
  apply h_insert; [apply h_insert; [apply h_new|set_solver]|].
  by vm_compute.
Defined.

Lemma s3fifo_tracks_live_keys_witness :
  history wh wh two_keys ({[lit "b"]} ∪ ({[lit "a"]} ∪ ∅)) ∧ len two_keys = 2.
Proof.
  split; [apply two_keys_history|].
  etransitivity; [exact (proj1 (s3fifo_tracks_live_keys wh wh two_keys _ two_keys_history))|].
  vm_compute; reflexivity.
Defined.

(** The key hit twice is promoted, the other one is evicted. *)
Lemma s3fifo_evict_one_live_witness :
  (evict_one two_keys).2 = Some (lit "b") ∧
  is_Some (evict_loop (evict_fuel two_keys) two_keys).
Proof.
  split; [vm_compute; reflexivity|].
  exact (proj1 (s3fifo_evict_one_live wh wh two_keys _ two_keys_history)).
Defined.

Lemma s3fifo_small_head_witness :
  (step_small two_keys).2 = None ∧
  main (step_small two_keys).1 = [lit "a"].
Proof.
  destruct (s3fifo_small_head two_keys (lit "a") (mkMeta 2 Small) [lit "b"])
    as [_ Hhot].
  - apply (history_ok wh wh two_keys _ two_keys_history).
  - vm_compute; reflexivity.
  - vm_compute; reflexivity.
  - reflexivity.
  - destruct Hhot as (H1 & _ & H2); [simpl; lia|]. split; [exact H1|exact H2].
Defined.

End S3Fifo.

Export (hints) S3Fifo.
