(* ===== verification/Scan.v ===== *)
(** * The eviction policy resists scans ([crates/core/src/s3fifo.rs])

    What the comment on the threshold of promotion promises: keys that are seen
    once are evicted out of the small queue, however many of them come, and do
    not push the keys of the main queue out. *)
From S2P Require Import Prelude Map Eviction.
Import S3Fifo.
Local Open Scope nat_scope.

(** What a client does during a scan: it stores a new key, which makes the store
    evict one, or it hits a key it had. *)
Inductive Use := Scan (k : bytes) | Hit (k : bytes).

Definition use (p : t) (u : Use) : t :=
  match u with
  | Scan k => (evict_one (insert p k)).1
  | Hit k => touch p k
  end.

(** No key of the small queue was hit more than once. *)
Definition calm (p : t) : Prop := ∀ k x, ⟦p⟧ !! k = Some x → loc x = Small → freq x ≤ 1.

(** The small queue has its share. *)
Definition shared (p : t) : Prop := 0 < small_count p ∧ main_count p ≤ 9 * small_count p.

(** The keys the policy knows: live ones and ghosts. *)
Definition known (p : t) (k : bytes) : Prop := is_Some (⟦p⟧ !! k) ∨ is_Some (⟦ghost_set p⟧ !! k).

(** ** Eviction out of the small queue *)

Lemma shared_use_small p : shared p → use_small p = true.
Proof.
  intros [Hpos Hle]. unfold use_small, SMALL_PCT. apply orb_true_iff. right. apply andb_true_iff.
  split; [by apply Nat.ltb_lt|]. apply Nat.leb_le. lia.
Qed.

Lemma shared_same p p' : wf p → wf p' → ⟦p'⟧ = ⟦p⟧ → shared p → shared p'.
Proof.
  intros Hp Hp' Heq. rewrite !s3_abs in Heq. unfold shared.
  rewrite (pok_small p Hp), (pok_main p Hp), (pok_small p' Hp'), (pok_main p' Hp'), Heq. done.
Qed.

Lemma push_ghost_known p k j :
  wf (ghost_set p) → (∀ j, is_Some (⟦ghost_set p⟧ !! j) → j ∈ ghost p) →
  is_Some (⟦ghost_set (push_ghost p k)⟧ !! j) → j = k ∨ is_Some (⟦ghost_set p⟧ !! j).
Proof.
  intros Hg Hall. unfold push_ghost.
  destruct (trim_ghost_ok (len p `max` 16) (ghost p ++ [k]) (FlatMap.insert (ghost_set p) k tt).1)
    as (_ & Hsub & _ & _); auto with inmem.
  { intros i. autorewrite with inmem. intros [u [[<- _]|[_ Hu]]%lookup_insert_Some]; apply elem_of_app.
    - right. by apply list_elem_of_singleton.
    - left. apply Hall. by exists u. }
  destruct (trim_ghost _ _ _) as [g gs]. simpl in *. intros [u Hu].
  eapply lookup_weaken in Hu; [|exact Hsub]. rewrite FlatMap.fm_insert_abs in Hu by done.
  apply lookup_insert_Some in Hu as [[<- _]|[_ Hu]]; [by left|right; by exists u].
Qed.

(** A step evicts a key of the small queue, or drops a stale reference. *)
Lemma step_small_calm p :
  wf p → calm p → shared p →
  let '(p', r) := step_small p in
  match r with
  | Some k => (∃ x, ⟦p⟧ !! k = Some x ∧ loc x = Small) ∧ ⟦p'⟧ = delete k ⟦p⟧
  | None => ⟦p'⟧ = ⟦p⟧
  end ∧ ∀ j, known p' j → known p j.
Proof.
  intros Hp Hcalm [Hpos _]. pose proof (step_small_spec p Hp Hpos) as [_ Hr]. revert Hr.
  pose proof (pok_meta p Hp) as Hm. unfold step_small, known. destruct (small p) as [|k rest]; [done|].
  cbn [meta]. rewrite FlatMap.fm_get by done.
  destruct (⟦meta p⟧ !! k) as [x|] eqn:Hk; [|done].
  destruct (bool_decide_reflect (loc x = Small)) as [Hl|Hl]; [|done]. cbn [negb].
  pose proof (Hcalm k x Hk Hl) as Hf. unfold PROMOTE_THRESHOLD.
  destruct (Nat.ltb_spec 1 (freq x)) as [?|_]; [lia|]. cbn [fst snd]. intros [_ Habs].
  split; [split; [by exists x|done]|]. intros j. rewrite Habs.
  intros [[y [_ Hy]%lookup_delete_Some]|Hj]; [left; by exists y|].
  apply push_ghost_known in Hj as [->|Hj]; [left; by exists x|by right|apply Hp|].
  intros i Hi. by apply (pok_ghosts p Hp i).
Qed.

Lemma evict_loop_calm fuel p :
  wf p → calm p → shared p → potential p < fuel →
  ∃ p' k x, evict_loop fuel p = Some (p', Some k) ∧ wf p' ∧ ⟦p⟧ !! k = Some x ∧ loc x = Small ∧
    ⟦p'⟧ = delete k ⟦p⟧ ∧ ∀ j, known p' j → known p j.
Proof.
  revert p. induction fuel as [|fuel IH]; intros p Hp Hcalm Hsh Hpot; [lia|]. cbn [evict_loop].
  rewrite (proj2 (Nat.eqb_neq (small_count p) 0)) by (destruct Hsh; lia). cbn [andb].
  rewrite shared_use_small by done. pose proof (step_small_spec p Hp (proj1 Hsh)) as [Hp1 Hr].
  pose proof (step_small_calm p Hp Hcalm Hsh) as Hs.
  destruct (step_small p) as [p1 [k|]]; cbn [fst snd] in *; destruct Hs as [Hs Hkn].
  - destruct Hs as [(x & Hk & Hl) Habs]. by exists p1, k, x.
  - destruct Hr as [_ Hlt].
    destruct (IH p1) as (p' & k & x & Hev & Hp' & Hk & Hl & Habs & Hkn'); [done| |exact (shared_same p p1 Hp Hp1 Hs Hsh)|lia|].
    { intros j y Hy. apply (Hcalm j y). by rewrite <- Hs. }
    rewrite Hs in Hk, Habs. exists p', k, x. split_and!; auto.
Qed.

(** ** A scan *)

(** One new key: a key of the small queue goes, the counts stay. *)
Lemma scan_step p k :
  wf p → calm p → main_count p ≤ 9 * S (small_count p) → ¬ known p k →
  let p' := use p (Scan k) in
  wf p' ∧ calm p' ∧ small_count p' = small_count p ∧ main_count p' = main_count p ∧
  (∀ j, known p' j → j = k ∨ known p j) ∧
  (∀ j x, ⟦p⟧ !! j = Some x → loc x = Main → ⟦p'⟧ !! j = Some x).
Proof.
  intros Hp Hcalm Hshare Hnew. cbn [use].
  assert (⟦p⟧ !! k = None) as Hk by (apply eq_None_not_Some; intros H; apply Hnew; by left).
  destruct (insert_spec p k Hp Hk) as [Hp1 Habs1].
  rewrite decide_False in Habs1 by (intros H; apply Hnew; by right). set (p1 := insert p k) in *.
  assert (calm p1) as Hcalm1.
  { intros j x. rewrite Habs1. intros [[_ <-]|[_ Hj]]%lookup_insert_Some; [simpl; lia|by eapply Hcalm]. }
  assert (∀ j, known p1 j → j = k ∨ known p j) as Hkn1.
  { intros j [Hj|Hj]; [rewrite Habs1 in Hj|].
    - destruct Hj as [y [[-> _]|[_ Hy]]%lookup_insert_Some]; [by left|right; left; by exists y].
    - right. right. revert Hj. unfold p1, insert.
      pose proof (FlatMap.fm_remove_abs (ghost_set p) k (pok_ghost p Hp)) as Hgs.
      destruct (FlatMap.remove (ghost_set p) k) as [gs [u|]]; cbn [fst ghost_set] in *; rewrite Hgs;
        intros [y [_ Hy]%lookup_delete_Some]; by exists y. }
  rewrite !s3_abs in *.
  assert (small_count p1 = S (small_count p) ∧ main_count p1 = main_count p) as [Hs1 Hm1].
  { rewrite (pok_small p1 Hp1), (pok_main p1 Hp1), Habs1, !count_loc_insert by done.
    rewrite (pok_small p Hp), (pok_main p Hp). simpl. lia. }
  destruct (evict_loop_calm (evict_fuel p1) p1 Hp1 Hcalm1) as (p' & v & x & Hev & Hp' & Hv & Hl & Habs & Hkn);
    [split; lia|rewrite evict_fuel_potential by done; lia|].
  unfold evict_one. rewrite Hev. cbn [fst]. rewrite !s3_abs in *.
  pose proof (count_loc_delete Small _ _ _ Hv) as Hcs. pose proof (count_loc_delete Main _ _ _ Hv) as Hcm.
  rewrite Hl in Hcs, Hcm. simpl in Hcs, Hcm. split_and!; [done| | | | |].
  - intros j y. rewrite s3_abs, Habs. intros [_ Hy]%lookup_delete_Some. by eapply Hcalm1.
  - rewrite (pok_small p' Hp'), Habs. rewrite (pok_small p1 Hp1) in Hs1. lia.
  - rewrite (pok_main p' Hp'), Habs. rewrite (pok_main p1 Hp1) in Hm1. lia.
  - auto.
  - intros j y Hj Hly. rewrite Habs, Habs1. rewrite lookup_delete_ne, lookup_insert_ne; [done|congruence|].
    intros ->. rewrite Habs1 in Hv. destruct (decide (k = j)) as [->|Hne]; [congruence|].
    rewrite lookup_insert_ne in Hv by done. congruence.
Qed.

(** A hit on a key of the main queue. *)
Lemma hit_step p k x :
  wf p → calm p → ⟦p⟧ !! k = Some x → loc x = Main →
  let p' := use p (Hit k) in
  wf p' ∧ calm p' ∧ small_count p' = small_count p ∧ main_count p' = main_count p ∧
  (∀ j, known p' j → known p j) ∧
  (∀ j x, ⟦p⟧ !! j = Some x → loc x = Main → ∃ x', ⟦p'⟧ !! j = Some x' ∧ loc x' = Main).
Proof.
  intros Hp Hcalm Hk Hl. cbn [use]. destruct (touch_spec p k Hp) as [Hp' Habs].
  rewrite (alter_alt_Some _ _ _ x Hk) in Habs. split_and!; [done| |done|done| |].
  - intros j y. rewrite Habs. intros [[_ <-]|[_ Hj]]%lookup_insert_Some; [simpl; congruence|by eapply Hcalm].
  - intros j. unfold known. rewrite Habs. intros [[y [[<- _]|[_ Hj]]%lookup_insert_Some]|Hj];
      [left; by exists x|left; by exists y|by right].
  - intros j y Hj Hly. rewrite Habs. destruct (decide (k = j)) as [<-|Hne].
    + rewrite lookup_insert_eq. eexists. split; [done|]. done.
    + rewrite lookup_insert_ne by done. by exists y.
Qed.

Definition scanned (us : list Use) : list bytes :=
  omap (fun u => match u with Scan k => Some k | Hit _ => None end) us.

(** C30: scans do not flush the cache. Take a policy whose main queue has at
    most nine times one key more than the small queue has, and no key of the
    small queue hit more than once. However many new keys, neither live nor in
    the ghost set, are stored, each making the store evict one key, with hits on
    keys of the main queue at any time in between: every key of the main queue
    stays, and the number of keys stays the same. *)
Theorem s3fifo_scan_resistant hm hg p live us :
  history hm hg p live →
  (∀ k x, ⟦p⟧ !! k = Some x → loc x = Small → freq x ≤ 1) →
  main_count p ≤ 9 * S (small_count p) →
  NoDup (scanned us) → (∀ k, k ∈ scanned us → k ∉ live ∧ ⟦ghost_set p⟧ !! k = None) →
  (∀ k, Hit k ∈ us → ∃ x, ⟦p⟧ !! k = Some x ∧ loc x = Main) →
  let p' := foldl use p us in
  len p' = len p ∧
  ∀ k x, ⟦p⟧ !! k = Some x → loc x = Main → ∃ x', ⟦p'⟧ !! k = Some x' ∧ loc x' = Main.
Proof.
  intros [Hp <-]%history_ok Hcalm Hshare Hnd Hnew Hhits.
  assert (∀ k, k ∈ scanned us → ¬ known p k) as Hfresh.
  { intros k Hk. destruct (Hnew k Hk) as [Hl%not_elem_of_dom Hg].
    intros [H|H]; [rewrite Hl in H|rewrite Hg in H]; by apply is_Some_None in H. }
  clear Hnew. fold (calm p) in Hcalm. revert p Hp Hcalm Hshare Hhits Hfresh.
  induction us as [|u us IH]; intros p Hp Hcalm Hshare Hhits Hfresh; [split; [done|eauto]|].
  cbn [foldl].
  assert (∀ k, Hit k ∈ us → ∃ x, ⟦p⟧ !! k = Some x ∧ loc x = Main) as Hhits'
    by (intros k Hk; apply Hhits; by right).
  destruct u as [k|k]; cbn [scanned omap list_omap] in Hnd, Hfresh.
  - apply NoDup_cons in Hnd as [Hk Hnd].
    destruct (scan_step p k Hp Hcalm Hshare (Hfresh k ltac:(by left))) as (Hp1 & Hc1 & Hs1 & Hm1 & Hkn & Hkeep).
    destruct (IH Hnd (use p (Scan k)) Hp1 Hc1) as [Hlen Hall]; [lia| | |].
    + intros j Hj. destruct (Hhits' j Hj) as (x & Hx & Hl). exists x. split; [by apply Hkeep|done].
    + intros j Hj [->|Hj']%Hkn; [done|]. by apply (Hfresh j); [right|].
    + split; [unfold len in *; lia|]. intros j x Hx Hl. by eapply Hall; [apply Hkeep|].
  - destruct (Hhits k ltac:(by left)) as (y & Hy & Hly).
    destruct (hit_step p k y Hp Hcalm Hy Hly) as (Hp1 & Hc1 & Hs1 & Hm1 & Hkn & Hkeep).
    destruct (IH Hnd (use p (Hit k)) Hp1 Hc1) as [Hlen Hall]; [lia| | |].
    + intros j Hj. destruct (Hhits' j Hj) as (x & Hx & Hl). by eapply Hkeep.
    + intros j Hj Hj'%Hkn. by apply (Hfresh j).
    + split; [unfold len in *; lia|]. intros j x Hx Hl. destruct (Hkeep j x Hx Hl) as (x' & Hx' & Hl').
      by eapply Hall.
Qed.

(** ** Witness *)

(** The key hit twice moves to the main queue when the other one is evicted. *)
Definition hot_key : t := (evict_one two_keys).1.

Definition demo_scan : list Use :=
  [Scan (lit "s1"); Hit (lit "a"); Scan (lit "s2"); Scan (lit "s3"); Scan (lit "s4")].

Lemma demo_hits k : Hit k ∈ demo_scan → k = lit "a".
Proof.
  unfold demo_scan. intros Hk. repeat (apply elem_of_cons in Hk as [Hk|Hk]; [congruence|]).
  by apply elem_of_nil in Hk.
Qed.

Lemma s3fifo_scan_resistant_witness :
  len (foldl use hot_key demo_scan) = 1 ∧
  ∃ x, ⟦foldl use hot_key demo_scan⟧ !! lit "a" = Some x ∧ loc x = Main.
Proof.
  assert (history wh wh hot_key (({[lit "b"]} ∪ ({[lit "a"]} ∪ ∅)) ∖ {[lit "b"]})) as Hh.
  { apply (h_evict wh wh two_keys ({[lit "b"]} ∪ ({[lit "a"]} ∪ ∅)) hot_key (Some (lit "b")) two_keys_history).
    vm_compute. reflexivity. }
  assert (⟦hot_key⟧ !! lit "a" = Some (mkMeta 0 Main)) as Ha by (vm_compute; reflexivity).
  destruct (s3fifo_scan_resistant wh wh hot_key _ demo_scan Hh) as [Hlen Hall].
  - intros k x Hk Hl.
    assert (map_Forall (fun _ x => freq x ≤ 1) ⟦hot_key⟧) as Hf
      by (refine (bool_decide_unpack _ _); vm_compute; exact I).
    exact (Hf k x Hk).
  - apply Nat.leb_le. vm_compute. reflexivity.
  - refine (bool_decide_unpack _ _). vm_compute. exact I.
  - assert (Forall (fun k => k ∉ (({[lit "b"]} ∪ ({[lit "a"]} ∪ ∅)) ∖ {[lit "b"]} : gset bytes) ∧
      ⟦ghost_set hot_key⟧ !! k = None) (scanned demo_scan)) as Hf
      by (refine (bool_decide_unpack _ _); vm_compute; exact I).
    intros k Hk. rewrite Forall_forall in Hf. exact (Hf k Hk).
  - intros k Hk. exists (mkMeta 0 Main). split; [|reflexivity].
    apply demo_hits in Hk. rewrite Hk. exact Ha.
  - split; [rewrite Hlen; vm_compute; reflexivity|]. exact (Hall (lit "a") _ Ha eq_refl).
Defined.
