(* ===== verification/Value.v ===== *)
(** * Stored values ([crates/core/src/store.rs], lines 30 to 180 and 831 to 858)

    The five Redis types.  [HashMap] and [HashSet] are stdpp finite maps and
    sets; a [BTreeSet] is the list of its elements in increasing order; an
    [f64] is its IEEE-754 bit pattern, ordered by [f64::total_cmp]. *)
From S2P Require Import Prelude Std.
Local Open Scope Z_scope.

(** ** Scores *)

Definition f64 : Type := Z.
Definition f64_ok (x : f64) : Prop := 0 <= x < 2 ^ 64.

Module OrdF64.
(** The key [f64::total_cmp] compares: the bits as an [i64], with the lower 63
    bits flipped for negative numbers. *)
Definition total_key (x : f64) : Z :=
  let l := wrap_i64 x in if l <? 0 then Z.lxor l (2 ^ 63 - 1) else l.

Definition cmp (x y : f64) : comparison := total_key x ?= total_key y.
End OrdF64.

(** [Ord] of byte slices: lexicographic. *)
Fixpoint bytes_cmp (a b : bytes) : comparison :=
  match a, b with
  | [], [] => Eq
  | [], _ => Lt
  | _, [] => Gt
  | x :: a, y :: b =>
      match byte_val x ?= byte_val y with Eq => bytes_cmp a b | c => c end
  end.

(** [Ord] of [(OrdF64, Box<[u8]>)]. *)
Definition pair_cmp (p q : f64 * bytes) : comparison :=
  match OrdF64.cmp p.1 q.1 with Eq => bytes_cmp p.2 q.2 | c => c end.

(** [BTreeSet::insert] and [BTreeSet::remove] *)
Fixpoint bt_insert (x : f64 * bytes) (l : list (f64 * bytes)) : list (f64 * bytes) :=
  match l with
  | [] => [x]
  | y :: l' =>
      match pair_cmp x y with
      | Lt => x :: l
      | Eq => l
      | Gt => y :: bt_insert x l'
      end
  end.

Fixpoint bt_remove (x : f64 * bytes) (l : list (f64 * bytes)) : list (f64 * bytes) :=
  match l with
  | [] => []
  | y :: l' =>
      match pair_cmp x y with
      | Lt => l
      | Eq => l'
      | Gt => y :: bt_remove x l'
      end
  end.

(** ** Sorted sets *)

Module ZSet.
Record t := mk { scores : gmap bytes f64; sorted : list (f64 * bytes) }.

Definition default : t := mk ∅ [].
Definition len (z : t) : nat := size (scores z).

Definition insert (z : t) (m : bytes) (score : f64) : t * bool :=
  let scores' := <[m := score]> (scores z) in
  match scores z !! m with
  | Some old => (mk scores' (bt_insert (score, m) (bt_remove (old, m) (sorted z))), false)
  | None => (mk scores' (bt_insert (score, m) (sorted z)), true)
  end.

Definition remove (z : t) (m : bytes) : t * bool :=
  match scores z !! m with
  | Some score => (mk (delete m (scores z)) (bt_remove (score, m) (sorted z)), true)
  | None => (z, false)
  end.

Definition score (z : t) (m : bytes) : option f64 := scores z !! m.

(** The [norm] closure of [range]. *)
Definition norm (n i : Z) : Z := if i <? 0 then Z.max (n + i) 0 else Z.min i (n - 1).

Definition range (z : t) (start stop : Z) : list (bytes * f64) :=
  let n := Z.of_nat (length (sorted z)) in
  if n =? 0 then []
  else
    let s := norm n start in
    let e := norm n stop in
    if e <? s then []
    else (fun p => (p.2, p.1)) <$> take (Z.to_nat (e - s + 1)) (drop (Z.to_nat s) (sorted z)).

Definition bytes (z : t) : Z :=
  map_sum (fun k _ => Z.of_nat (length k) + 8 + 24) (scores z).
End ZSet.

(** ** Values *)

Inductive Value :=
  | VStr (s : bytes)
  | VList (l : list bytes)
  | VHash (h : gmap bytes bytes)
  | VSet (s : gset bytes)
  | VZSet (z : ZSet.t).

Definition type_name (v : Value) : string :=
  match v with
  | VStr _ => "string"
  | VList _ => "list"
  | VHash _ => "hash"
  | VSet _ => "set"
  | VZSet _ => "zset"
  end.

Definition zlen {A} (l : list A) : Z := Z.of_nat (length l).

Definition value_bytes (v : Value) : Z :=
  match v with
  | VStr s => zlen s
  | VList l => foldr (fun e acc => zlen e + 16 + acc) 0 l
  | VHash h => map_sum (fun k v => zlen k + zlen v + 32) h
  | VSet s => foldr (fun m acc => zlen m + 16 + acc) 0 (elements s)
  | VZSet z => ZSet.bytes z
  end.

(** ** Collections

    What the [with_collection!] macro takes for a type: the variant, the empty
    collection it is created with, and the [MaybeEmpty] trait. *)
Class Collection (C : Type) := {
  variant : C -> Value;
  as_variant : Value -> option C;
  make : C;
  coll_is_empty : C -> bool
}.

#[export] Instance list_collection : Collection (list bytes) := {|
  variant := VList;
  as_variant v := match v with VList l => Some l | _ => None end;
  make := [];
  coll_is_empty l := match l with [] => true | _ => false end
|}.

#[export] Instance hash_collection : Collection (gmap bytes bytes) := {|
  variant := VHash;
  as_variant v := match v with VHash h => Some h | _ => None end;
  make := ∅;
  coll_is_empty h := bool_decide (h = ∅)
|}.

#[export] Instance set_collection : Collection (gset bytes) := {|
  variant := VSet;
  as_variant v := match v with VSet s => Some s | _ => None end;
  make := ∅;
  coll_is_empty s := bool_decide (s = ∅)
|}.

#[export] Instance zset_collection : Collection ZSet.t := {|
  variant := VZSet;
  as_variant v := match v with VZSet z => Some z | _ => None end;
  make := ZSet.default;
  coll_is_empty z := (ZSet.len z =? 0)%nat
|}.

(** ** Hash iteration order *)

(** The order a [HashMap] or a [HashSet] is iterated in: not specified by the
    standard library, but every element comes out exactly once. *)
Class HashOrder := {
  iter_map : gmap bytes bytes → list (bytes * bytes);
  iter_set : gset bytes → list bytes;
  iter_map_perm h : iter_map h ≡ₚ map_to_list h;
  iter_set_perm s : iter_set s ≡ₚ elements s
}.

(** The orders exist: stdpp's own. *)
Definition canonical_order : HashOrder.
Proof. by refine {| iter_map := map_to_list; iter_set := elements |}. Defined.

(** ** The bodies the store runs on collections *)

(** [push]: the closure of [Store::push]. *)
Definition push_body (vals : list bytes) (left : bool) (l : list bytes) : list bytes * nat :=
  let l := foldl (fun l v => if left then v :: l else l ++ [v]) l vals in (l, length l).

(** [VecDeque::pop_back] *)
Definition pop_back (l : list bytes) : option (bytes * list bytes) :=
  match last l with
  | Some x => Some (x, take (length l - 1) l)
  | None => None
  end.

Definition pop_item (left : bool) (l : list bytes) : option (bytes * list bytes) :=
  if left then match l with x :: l => Some (x, l) | [] => None end else pop_back l.

Fixpoint pop_loop (fuel : nat) (count : Z) (left : bool) (l out : list bytes)
    : list bytes * list bytes :=
  match fuel with
  | O => (l, out)
  | S fuel =>
      if count <=? 0 then (l, out)
      else
        match pop_item left l with
        | Some (x, l) => pop_loop fuel (count - 1) left l (out ++ [x])
        | None => (l, out)
        end
  end.

(** [pop]: the closure of [Store::pop].  The loop runs [count] times unless a
    pop finds the list empty, so one turn more than the length is enough. *)
Definition pop_body (count : Z) (left : bool) (l : list bytes) : list bytes * list bytes :=
  pop_loop (S (length l)) count left l [].

Definition hset_body (pairs : list (bytes * bytes)) (h : gmap bytes bytes)
    : gmap bytes bytes * nat :=
  foldl (fun '(h, added) '(f, v) =>
           (<[f := v]> h, match h !! f with None => S added | Some _ => added end))
        (h, O) pairs.

Definition hdel_body (fields : list bytes) (h : gmap bytes bytes) : gmap bytes bytes * nat :=
  foldl (fun '(h, n) f =>
           (delete f h, match h !! f with Some _ => S n | None => n end))
        (h, O) fields.

Definition sadd_body (members : list bytes) (s : gset bytes) : gset bytes * nat :=
  foldl (fun '(s, n) m => ({[m]} ∪ s, if bool_decide (m ∈ s) then n else S n)) (s, O) members.

Definition srem_body (members : list bytes) (s : gset bytes) : gset bytes * nat :=
  foldl (fun '(s, n) m => (s ∖ {[m]}, if bool_decide (m ∈ s) then S n else n)) (s, O) members.

Definition zadd_body (pairs : list (f64 * bytes)) (z : ZSet.t) : ZSet.t * nat :=
  foldl (fun '(z, n) '(score, m) =>
           let '(z, added) := ZSet.insert z m score in (z, if (added : bool) then S n else n))
        (z, O) pairs.

Definition zrem_body (members : list bytes) (z : ZSet.t) : ZSet.t * nat :=
  foldl (fun '(z, n) m =>
           let '(z, removed) := ZSet.remove z m in (z, if (removed : bool) then S n else n))
        (z, O) members.

(** [lrange]: the closure of [Store::lrange] on a list; [i64] arithmetic wraps
    around. *)
Definition lrange_body (start stop : Z) (l : list bytes) : list bytes :=
  let n := zlen l in
  if n =? 0 then []
  else
    let s := if start <? 0 then Z.max (n + start) 0 else Z.min start n in
    let e := if stop <? 0 then Z.max (n + stop + 1) 0 else Z.min (wrap_i64 (stop + 1)) n in
    if e <=? s then [] else take (Z.to_nat (e - s)) (drop (Z.to_nat s) l).

(** ** Lists: facts *)

(** The reference for index ranges: the elements whose index, counted from
    [i], lies in [[a, b]]. *)
Fixpoint slice_from {A} (i a b : Z) (l : list A) : list A :=
  match l with
  | [] => []
  | x :: l =>
      if (a <=? i) && (i <=? b) then x :: slice_from (i + 1) a b l
      else slice_from (i + 1) a b l
  end.

Definition slice {A} (a b : Z) (l : list A) : list A := slice_from 0 a b l.

(** The index a Redis range argument denotes in a list of [n] elements. *)
Definition redis_index (n i : Z) : Z := if i <? 0 then n + i else i.

Lemma slice_from_take_drop {A} (l : list A) i a b :
  slice_from i a b l = take (Z.to_nat (b + 1 - Z.max a i)) (drop (Z.to_nat (a - i)) l).
Proof.
  revert i. induction l as [|x l IH]; intros i; simpl; [by rewrite drop_nil, take_nil|].
  rewrite IH. destruct (Z.leb_spec a i); simpl.
  - replace (Z.to_nat (a - i)) with O by lia. replace (Z.to_nat (a - (i + 1))) with O by lia.
    rewrite !drop_0. destruct (Z.leb_spec i b).
    + replace (Z.to_nat (b + 1 - Z.max a i)) with (S (Z.to_nat (b + 1 - Z.max a (i + 1)))) by lia.
      done.
    + replace (Z.to_nat (b + 1 - Z.max a i)) with O by lia.
      by replace (Z.to_nat (b + 1 - Z.max a (i + 1))) with O by lia.
  - replace (Z.to_nat (a - i)) with (S (Z.to_nat (a - (i + 1)))) by lia. simpl.
    do 2 f_equal. lia.
Qed.

Lemma slice_take_drop {A} (l : list A) a b :
  slice a b l = take (Z.to_nat (b + 1 - Z.max a 0)) (drop (Z.to_nat a) l).
Proof. unfold slice. rewrite slice_from_take_drop. by rewrite Z.sub_0_r. Qed.

Lemma zlen_nonneg {A} (l : list A) : 0 <= zlen l.
Proof. unfold zlen. lia. Qed.

Lemma slice_clip {A} (l : list A) a b :
  slice a b l = slice (Z.max a 0) (Z.min b (zlen l - 1)) l.
Proof.
  rewrite !slice_take_drop. replace (Z.to_nat (Z.max a 0)) with (Z.to_nat a) by lia.
  destruct (Z.le_gt_cases b (zlen l - 1)) as [Hb|Hb].
  - f_equal; lia.
  - rewrite !take_ge; [done|..]; rewrite length_drop; unfold zlen in *; lia.
Qed.

Lemma slice_empty {A} (l : list A) a b : b < a ∨ zlen l <= a ∨ b < 0 → slice a b l = [].
Proof.
  intros Hab. rewrite slice_take_drop. destruct Hab as [H|[H|H]].
  - by replace (Z.to_nat (b + 1 - Z.max a 0)) with O by lia.
  - rewrite drop_ge, take_nil; [done|]. unfold zlen in *. lia.
  - by replace (Z.to_nat (b + 1 - Z.max a 0)) with O by lia.
Qed.

Lemma wrap_i64_small z : - 2 ^ 63 <= z < 2 ^ 63 → wrap_i64 z = z.
Proof. intros Hz. unfold wrap_i64, u64_modulus. rewrite Z.mod_small by lia. lia. Qed.

(** [LRANGE] gives the elements between two indices, counted from the end
    when negative and cut to the list, for every pair of [i64] indices but a
    stop of [i64::MAX]. *)
Lemma lrange_body_slice l start stop :
  in_i64 start = true → in_i64 stop = true → stop ≠ i64_max →
  lrange_body start stop l =
  slice (redis_index (zlen l) start) (redis_index (zlen l) stop) l.
Proof.
  rewrite !in_i64_spec. intros Hs He Hne. unfold lrange_body, redis_index, i64_max in *.
  pose proof (zlen_nonneg l).
  destruct (Z.eqb_spec (zlen l) 0) as [Hz|Hz].
  { destruct l; [done|]. unfold zlen in Hz. simpl in Hz. lia. }
  rewrite (wrap_i64_small (stop + 1)) by lia.
  destruct (Z.leb_spec (if stop <? 0 then Z.max (zlen l + stop + 1) 0 else Z.min (stop + 1) (zlen l))
             (if start <? 0 then Z.max (zlen l + start) 0 else Z.min start (zlen l))) as [Hle|Hlt].
  - rewrite slice_empty; [done|].
    destruct (Z.ltb_spec start 0), (Z.ltb_spec stop 0); lia.
  - rewrite slice_clip, slice_take_drop.
    f_equal; [|f_equal]; destruct (Z.ltb_spec start 0), (Z.ltb_spec stop 0); lia.
Qed.

Lemma lrange_body_slice_witness :
  lrange_body (-2) 100 [lit "a"; lit "b"; lit "c"] = [lit "b"; lit "c"].
Proof.
  etransitivity; [exact (lrange_body_slice [lit "a"; lit "b"; lit "c"] (-2) 100 eq_refl eq_refl
    ltac:(done))|]. vm_compute. reflexivity.
Defined.

(** [stop + 1] overflows at [i64::MAX]: the range is empty, whatever the
    list. *)
Lemma lrange_body_overflow l start : lrange_body start i64_max l = [].
Proof.
  unfold lrange_body. pose proof (zlen_nonneg l). destruct (zlen l =? 0); [done|].
  change (i64_max <? 0) with false.
  change (wrap_i64 (i64_max + 1)) with (- 2 ^ 63). cbv iota.
  destruct (Z.leb_spec (Z.min (- 2 ^ 63) (zlen l))
             (if start <? 0 then Z.max (zlen l + start) 0 else Z.min start (zlen l))); [done|].
  destruct (Z.ltb_spec start 0); lia.
Qed.

Lemma push_body_spec vals (left : bool) l :
  push_body vals left l =
  let l' := if left then reverse vals ++ l else l ++ vals in (l', length l').
Proof.
  assert (foldl (fun l v => if left then v :: l else l ++ [v]) l vals =
          if left then reverse vals ++ l else l ++ vals) as Hf.
  { revert l. induction vals as [|v vals IH]; intros l; simpl.
    - destruct left; [done|by rewrite app_nil_r].
    - rewrite IH. destruct left; [by rewrite reverse_cons, <- app_assoc|by rewrite <- app_assoc]. }
  unfold push_body. by rewrite Hf.
Qed.

Lemma pop_back_snoc l x : pop_back (l ++ [x]) = Some (x, l).
Proof.
  unfold pop_back. rewrite last_snoc, length_app. simpl.
  replace (length l + 1 - 1)%nat with (length l) by lia. by rewrite take_app_length.
Qed.

Lemma pop_loop_left fuel count l out :
  0 <= count → (length l < fuel)%nat →
  pop_loop fuel count true l out =
  (drop (Z.to_nat count) l, out ++ take (Z.to_nat count) l).
Proof.
  revert count l out. induction fuel as [|fuel IH]; intros count l out Hc Hl; [lia|]. simpl.
  destruct (Z.leb_spec count 0) as [Hz|Hz].
  { replace count with 0 by lia. simpl. by rewrite app_nil_r. }
  destruct l as [|x l]; simpl in *; [by rewrite drop_nil, take_nil, app_nil_r|].
  rewrite IH by lia. replace (Z.to_nat count) with (S (Z.to_nat (count - 1))) by lia.
  simpl. by rewrite <- app_assoc.
Qed.

Lemma pop_loop_right fuel count l out :
  0 <= count → (length l < fuel)%nat →
  pop_loop fuel count false (reverse l) out =
  (reverse (drop (Z.to_nat count) l), out ++ take (Z.to_nat count) l).
Proof.
  revert count l out. induction fuel as [|fuel IH]; intros count l out Hc Hl; [lia|]. simpl.
  destruct (Z.leb_spec count 0) as [Hz|Hz].
  { replace count with 0 by lia. simpl. by rewrite app_nil_r. }
  destruct l as [|x l]; [by rewrite reverse_nil, drop_nil, take_nil, app_nil_r|].
  simpl in Hl. rewrite reverse_cons, pop_back_snoc, IH by lia.
  replace (Z.to_nat count) with (S (Z.to_nat (count - 1))) by lia.
  simpl. by rewrite <- app_assoc.
Qed.

(** Popping from a side takes a prefix of the list read from that side. *)
Lemma pop_body_spec count (left : bool) l :
  0 <= count →
  pop_body count left l =
  let c := Z.to_nat count in
  if left then (drop c l, take c l)
  else (reverse (drop c (reverse l)), take c (reverse l)).
Proof.
  intros Hc. unfold pop_body. destruct left; [by apply pop_loop_left; auto with lia|].
  rewrite <- (reverse_involutive l) at 2. rewrite pop_loop_right; [done..|].
  rewrite length_reverse. lia.
Qed.

(** ** Sorted sets: facts *)

Lemma total_key_inj x y :
  f64_ok x → f64_ok y → OrdF64.total_key x = OrdF64.total_key y → x = y.
Proof.
  unfold f64_ok, OrdF64.total_key. intros Hx Hy.
  assert (∀ z, 0 <= z < 2 ^ 64 → wrap_i64 z = if z <? 2 ^ 63 then z else z - 2 ^ 64) as Hw.
  { intros z Hz. unfold wrap_i64, u64_modulus. destruct (Z.ltb_spec z (2 ^ 63)).
    - rewrite Z.mod_small; lia.
    - rewrite <- (Z_mod_plus _ (-1)) by lia. rewrite Z.mod_small; lia. }
  assert (∀ a, 0 <= Z.lxor a (2 ^ 63 - 1) ↔ 0 <= a) as Hsign.
  { intros a. rewrite Z.lxor_nonneg. lia. }
  assert (wrap_i64 x = wrap_i64 y → x = y) as Hwinj.
  { rewrite (Hw x Hx), (Hw y Hy).
    destruct (Z.ltb_spec x (2 ^ 63)), (Z.ltb_spec y (2 ^ 63)); lia. }
  pose proof (Hsign (wrap_i64 x)). pose proof (Hsign (wrap_i64 y)).
  destruct (Z.ltb_spec (wrap_i64 x) 0), (Z.ltb_spec (wrap_i64 y) 0); intros Heq; try lia.
  - apply Hwinj. rewrite <- (Z.lxor_0_r (wrap_i64 x)), <- (Z.lxor_0_r (wrap_i64 y)).
    rewrite <- (Z.lxor_nilpotent (2 ^ 63 - 1)), <- !Z.lxor_assoc. by rewrite Heq.
Qed.

Lemma byte_val_inj x y : byte_val x = byte_val y → x = y.
Proof.
  unfold byte_val. intros Hxy%N2Z.inj.
  pose proof (Byte.of_to_N x) as Hx. pose proof (Byte.of_to_N y) as Hy. congruence.
Qed.

Lemma bytes_cmp_eq a b : bytes_cmp a b = Eq → a = b.
Proof.
  revert b. induction a as [|x a IH]; intros [|y b]; simpl; try done.
  destruct (byte_val x ?= byte_val y) eqn:Hc; try done.
  apply Z.compare_eq, byte_val_inj in Hc. intros Heq%IH. congruence.
Qed.

Lemma bytes_cmp_refl a : bytes_cmp a a = Eq.
Proof. induction a as [|x a IH]; simpl; [done|]. by rewrite Z.compare_refl. Qed.

Lemma bytes_cmp_antisym a b : bytes_cmp b a = CompOpp (bytes_cmp a b).
Proof.
  revert b. induction a as [|x a IH]; intros [|y b]; simpl; try done.
  rewrite (Z.compare_antisym (byte_val x) (byte_val y)).
  destruct (byte_val x ?= byte_val y); simpl; auto.
Qed.

Lemma bytes_cmp_trans a b c : bytes_cmp a b = Lt → bytes_cmp b c = Lt → bytes_cmp a c = Lt.
Proof.
  revert b c. induction a as [|x a IH]; intros [|y b] [|z c]; simpl; try done.
  destruct (Z.compare_spec (byte_val x) (byte_val y)),
    (Z.compare_spec (byte_val y) (byte_val z)), (Z.compare_spec (byte_val x) (byte_val z));
    try done; try lia; eauto.
Qed.

Lemma pair_cmp_eq p q : f64_ok p.1 → f64_ok q.1 → pair_cmp p q = Eq → p = q.
Proof.
  intros Hp Hq. unfold pair_cmp, OrdF64.cmp.
  destruct (_ ?= _) eqn:Hc; try done. intros Hb%bytes_cmp_eq.
  apply Z.compare_eq, total_key_inj in Hc; [|done..]. destruct p, q. simpl in *. congruence.
Qed.

Lemma pair_cmp_refl p : pair_cmp p p = Eq.
Proof. unfold pair_cmp, OrdF64.cmp. by rewrite Z.compare_refl, bytes_cmp_refl. Qed.

Lemma pair_cmp_antisym p q : pair_cmp q p = CompOpp (pair_cmp p q).
Proof.
  unfold pair_cmp, OrdF64.cmp.
  rewrite (Z.compare_antisym (OrdF64.total_key p.1) (OrdF64.total_key q.1)).
  destruct (_ ?= _); simpl; auto using bytes_cmp_antisym.
Qed.

Lemma pair_cmp_trans p q r : pair_cmp p q = Lt → pair_cmp q r = Lt → pair_cmp p r = Lt.
Proof.
  unfold pair_cmp, OrdF64.cmp.
  destruct (Z.compare_spec (OrdF64.total_key p.1) (OrdF64.total_key q.1)),
    (Z.compare_spec (OrdF64.total_key q.1) (OrdF64.total_key r.1)),
    (Z.compare_spec (OrdF64.total_key p.1) (OrdF64.total_key r.1));
    try done; try lia; eauto using bytes_cmp_trans.
Qed.

(** The order of a [BTreeSet] of scored members. *)
Definition pair_lt (p q : f64 * bytes) : Prop := pair_cmp p q = Lt.
Definition scores_ok (l : list (f64 * bytes)) : Prop := Forall (fun p => f64_ok p.1) l.

Lemma bt_insert_elem x l y :
  f64_ok x.1 → scores_ok l → y ∈ bt_insert x l ↔ y = x ∨ y ∈ l.
Proof.
  intros Hx Hl. induction Hl as [|z l Hz Hl IH]; simpl.
  - rewrite elem_of_cons. done.
  - destruct (pair_cmp x z) eqn:Hc; rewrite ?elem_of_cons, ?IH.
    + apply pair_cmp_eq in Hc as ->; [|done..]. naive_solver.
    + done.
    + naive_solver.
Qed.

Lemma bt_insert_sorted x l :
  f64_ok x.1 → scores_ok l → StronglySorted pair_lt l → StronglySorted pair_lt (bt_insert x l).
Proof.
  intros Hx Hok Hs. induction Hs as [|z l Hs IH Hz]; simpl; [repeat constructor|].
  apply Forall_cons in Hok as [Hzok Hok].
  destruct (pair_cmp x z) eqn:Hc; [by constructor|..].
  - constructor; [by constructor|]. constructor; [done|].
    eapply Forall_impl; [exact Hz|]. intros w. by apply pair_cmp_trans.
  - constructor; [auto|]. apply Forall_forall. intros w Hw.
    apply bt_insert_elem in Hw as [->|Hw]; [..|done|done].
    + unfold pair_lt. by rewrite pair_cmp_antisym, Hc.
    + by eapply Forall_forall in Hz.
Qed.

Lemma bt_remove_sublist x l : bt_remove x l `sublist_of` l.
Proof.
  induction l as [|z l IH]; simpl; [constructor|].
  destruct (pair_cmp x z); [by apply sublist_cons|done|by apply sublist_skip].
Qed.

Lemma pair_lt_irrefl p : ¬ pair_lt p p.
Proof. unfold pair_lt. by rewrite pair_cmp_refl. Qed.

Lemma bt_remove_elem x l y :
  f64_ok x.1 → scores_ok l → StronglySorted pair_lt l →
  y ∈ bt_remove x l ↔ y ≠ x ∧ y ∈ l.
Proof.
  intros Hx Hok Hs. induction Hs as [|z l Hs IH Hz]; simpl.
  { rewrite elem_of_nil. tauto. }
  apply Forall_cons in Hok as [Hzok Hok]. rewrite Forall_forall in Hz.
  assert (∀ w, pair_lt x w → y = w → y ≠ x) as Hne.
  { intros w Hw -> ->. by apply pair_lt_irrefl in Hw. }
  destruct (pair_cmp x z) eqn:Hc; rewrite ?elem_of_cons, ?IH by done.
  - apply pair_cmp_eq in Hc as ->; [|done..].
    split; [|naive_solver]. intros Hy. split; [|by right]. by apply (Hne y); [apply Hz|].
  - split; [|tauto]. intros [->|Hy]; (split; [|auto]).
    + by apply (Hne z).
    + apply (Hne y); [|done]. eapply pair_cmp_trans; [exact Hc|by apply Hz].
  - assert (z ≠ x) as Hzx by (intros ->; by rewrite pair_cmp_refl in Hc). naive_solver.
Qed.

Lemma sublist_Forall {A} (P : A → Prop) (l k : list A) :
  l `sublist_of` k → Forall P k → Forall P l.
Proof.
  rewrite !Forall_forall. intros Hsub Hk x Hx. by eapply Hk, elem_of_sublist.
Qed.

Lemma sublist_sorted (l k : list (f64 * bytes)) :
  l `sublist_of` k → StronglySorted pair_lt k → StronglySorted pair_lt l.
Proof.
  intros Hsub. induction Hsub as [|x l k Hsub IH|x l k Hsub IH]; intros Hs; [constructor|..];
    inversion_clear Hs as [|?? Hk Hx]; [|auto].
  constructor; [auto|]. by eapply sublist_Forall.
Qed.

Lemma strongly_sorted_NoDup l : StronglySorted pair_lt l → NoDup l.
Proof.
  induction 1 as [|x l _ IH Hx]; constructor; [|done].
  intros Hin. rewrite Forall_forall in Hx. by apply (pair_lt_irrefl x), Hx.
Qed.

(** The index is sorted and agrees with the score table. *)
Record zset_ok (z : ZSet.t) : Prop := {
  zok_sorted : StronglySorted pair_lt (ZSet.sorted z);
  zok_scores : scores_ok (ZSet.sorted z);
  zok_agree : ∀ m s, ZSet.scores z !! m = Some s ↔ (s, m) ∈ ZSet.sorted z
}.

Lemma zset_default_ok : zset_ok ZSet.default.
Proof.
  split; simpl; [constructor|constructor|]. intros m s. rewrite lookup_empty, elem_of_nil. done.
Qed.

Lemma zset_score_ok z m s : zset_ok z → ZSet.scores z !! m = Some s → f64_ok s.
Proof.
  intros Hz Hm%(zok_agree z Hz). pose proof (zok_scores z Hz) as Hok.
  unfold scores_ok in Hok. rewrite Forall_forall in Hok. by apply (Hok (s, m)).
Qed.

Lemma zset_insert_ok z m s :
  zset_ok z → f64_ok s →
  zset_ok (ZSet.insert z m s).1 ∧
  ZSet.scores (ZSet.insert z m s).1 = <[m := s]> (ZSet.scores z) ∧
  (ZSet.insert z m s).2 = bool_decide (ZSet.scores z !! m = None).
Proof.
  intros Hz Hs. unfold ZSet.insert.
  destruct (ZSet.scores z !! m) as [old|] eqn:Hm; simpl; (split_and!; [|done|done]);
    destruct Hz as [Hsort Hok Hag].
  - set (l := bt_remove (old, m) (ZSet.sorted z)).
    assert (f64_ok old) as Hold by (by eapply zset_score_ok).
    assert (StronglySorted pair_lt l) as Hl
      by (eapply sublist_sorted; [apply bt_remove_sublist|done]).
    assert (scores_ok l) as Hlok by (eapply sublist_Forall; [apply bt_remove_sublist|done]).
    split; simpl; [by apply bt_insert_sorted|..].
    + apply Forall_forall. intros p Hp. apply bt_insert_elem in Hp as [->|Hp]; try done.
      by eapply Forall_forall in Hlok.
    + intros j t. rewrite bt_insert_elem by done. unfold l.
      rewrite bt_remove_elem, lookup_insert_Some, Hag by done.
      split; [|intros [[= -> ->]|[Hne Hin]]; [by left|]].
      * intros [[<- <-]|[Hne Hin]]; [by left|]. right. split; [|done]. congruence.
      * right. split; [|done]. intros <-.
        apply Hag in Hin. rewrite Hm in Hin. congruence.
  - split; simpl; [by apply bt_insert_sorted|..].
    + apply Forall_forall. intros p Hp. apply bt_insert_elem in Hp as [->|Hp]; try done.
      by eapply Forall_forall in Hok.
    + intros j t. rewrite bt_insert_elem, lookup_insert_Some, Hag by done.
      split; [|intros [[= -> ->]|Hin]; [by left|]].
      * intros [[<- <-]|[Hne Hin]]; [by left|by right].
      * right. split; [|done]. intros <-. apply Hag in Hin. congruence.
Qed.

Lemma zset_remove_ok z m :
  zset_ok z →
  zset_ok (ZSet.remove z m).1 ∧
  ZSet.scores (ZSet.remove z m).1 = delete m (ZSet.scores z) ∧
  (ZSet.remove z m).2 = bool_decide (is_Some (ZSet.scores z !! m)).
Proof.
  intros Hz. unfold ZSet.remove.
  destruct (ZSet.scores z !! m) as [old|] eqn:Hm; simpl; [|by rewrite delete_id].
  split_and!; [|done|done]. assert (f64_ok old) as Hold by (by eapply zset_score_ok).
  destruct Hz as [Hsort Hok Hag]. split; simpl.
  - eapply sublist_sorted; [apply bt_remove_sublist|done].
  - eapply sublist_Forall; [apply bt_remove_sublist|done].
  - intros j t. rewrite bt_remove_elem, lookup_delete_Some, Hag by done. split.
    + intros [Hne Hin]. split; [|done]. congruence.
    + intros [Hne Hin]. split; [|done]. intros <-. apply Hag in Hin. congruence.
Qed.

(** The two parts of a sorted set hold the same members. *)
Lemma zset_sorted_perm z :
  zset_ok z → (fun p => (p.2, p.1)) <$> ZSet.sorted z ≡ₚ map_to_list (ZSet.scores z).
Proof.
  intros Hz. apply NoDup_Permutation.
  - apply NoDup_fmap_2; [intros [] [] [= -> ->]; done|]. apply strongly_sorted_NoDup, Hz.
  - apply NoDup_map_to_list.
  - intros [m s]. rewrite elem_of_map_to_list, (zok_agree z Hz), list_elem_of_fmap. split.
    + intros ([s' m'] & [= -> ->] & Hin). done.
    + intros Hin. by exists (s, m).
Qed.

Lemma zset_len z : zset_ok z → ZSet.len z = length (ZSet.sorted z).
Proof.
  intros Hz. unfold ZSet.len. rewrite <- length_map_to_list, <- (zset_sorted_perm z Hz).
  by rewrite length_fmap.
Qed.

(** [ZRANGE] gives the members between two ranks, counted from the end when
    negative, for a start below the length and a stop not before the first
    member. *)
Lemma zset_range_slice z start stop :
  let n := zlen (ZSet.sorted z) in
  start < n → - n <= stop →
  ZSet.range z start stop =
  (fun p => (p.2, p.1)) <$> slice (redis_index n start) (redis_index n stop) (ZSet.sorted z).
Proof.
  intros n Hs He. unfold ZSet.range. fold (zlen (ZSet.sorted z)). fold n.
  assert (0 <= n) by apply zlen_nonneg.
  destruct (Z.eqb_spec n 0) as [Hz|Hz].
  { unfold n, zlen in Hz. destruct (ZSet.sorted z); [done|]. simpl in Hz. lia. }
  unfold ZSet.norm, redis_index.
  destruct (Z.ltb_spec (if stop <? 0 then Z.max (n + stop) 0 else Z.min stop (n - 1))
              (if start <? 0 then Z.max (n + start) 0 else Z.min start (n - 1))).
  - rewrite slice_empty; [done|]. fold n.
    destruct (Z.ltb_spec start 0), (Z.ltb_spec stop 0); lia.
  - rewrite slice_clip, slice_take_drop. fold n.
    f_equal. f_equal; [|f_equal]; destruct (Z.ltb_spec start 0), (Z.ltb_spec stop 0); lia.
Qed.

Definition demo_zset : ZSet.t :=
  (zadd_body [(1, lit "a"); (2, lit "b"); (3, lit "c")] ZSet.default).1.

Lemma zset_range_slice_witness : ZSet.range demo_zset (-2) 7 = [(lit "b", 2); (lit "c", 3)].
Proof.
  etransitivity; [exact (zset_range_slice demo_zset (-2) 7
    ltac:(vm_compute; reflexivity) ltac:(vm_compute; discriminate))|].
  vm_compute. reflexivity.
Defined.

(** Out of bounds, [ZRANGE] clamps both ends to a member: a start past the
    end gives the last member, a stop before the beginning gives the first one,
    where the range is empty. *)
Lemma zset_range_clamps z p l :
  (ZSet.sorted z = l ++ [p] →
   ∀ start stop, zlen (l ++ [p]) <= start → start <= stop →
   ZSet.range z start stop = [(p.2, p.1)]) ∧
  (ZSet.sorted z = p :: l →
   ∀ stop, stop < - zlen (p :: l) → ZSet.range z 0 stop = [(p.2, p.1)]).
Proof.
  split; intros Hsort; unfold ZSet.range; rewrite Hsort; fold (zlen (l ++ [p]));
    fold (zlen (p :: l)).
  - intros start stop Hs Hst. pose proof (zlen_nonneg l).
    assert (zlen (l ++ [p]) = zlen l + 1) as Hl by (unfold zlen; rewrite length_app; simpl; lia).
    unfold ZSet.norm. destruct (Z.eqb_spec (zlen (l ++ [p])) 0); [lia|].
    destruct (Z.ltb_spec start 0), (Z.ltb_spec stop 0); try lia.
    rewrite !Z.min_r by lia.
    destruct (Z.ltb_spec (zlen (l ++ [p]) - 1) (zlen (l ++ [p]) - 1)); [lia|].
    replace (Z.to_nat (zlen (l ++ [p]) - 1)) with (length l) by (rewrite Hl; unfold zlen; lia).
    rewrite drop_app_length.
    by replace (Z.to_nat (zlen (l ++ [p]) - 1 - (zlen (l ++ [p]) - 1) + 1)) with 1%nat by lia.
  - intros stop Hst. assert (0 < zlen (p :: l)) by (unfold zlen; simpl; lia).
    unfold ZSet.norm. destruct (Z.eqb_spec (zlen (p :: l)) 0); [lia|].
    destruct (Z.ltb_spec stop 0); [|lia]. change (0 <? 0) with false. cbv iota.
    rewrite Z.max_r, Z.min_l by lia. done.
Qed.

(** ** Collections: facts *)

(** The values a store may hold: collections are never empty. *)
Definition value_ok (v : Value) : Prop :=
  match v with
  | VStr _ => True
  | VList l => l ≠ []
  | VHash h => h ≠ ∅
  | VSet s => s ≠ ∅
  | VZSet z => zset_ok z ∧ ZSet.len z ≠ O
  end.

(** What the [with_collection!] macro relies on. *)
Class CollectionOk (C : Type) `{Collection C} := {
  coll_inv : C → Prop;
  as_variant_variant c : as_variant (variant c) = Some c;
  variant_as_variant v c : as_variant v = Some c → v = variant c;
  make_is_empty : coll_is_empty make = true;
  make_inv : coll_inv make;
  value_ok_variant c : value_ok (variant c) ↔ coll_inv c ∧ coll_is_empty c = false
}.

#[export] Program Instance list_collection_ok : CollectionOk (list bytes) :=
  {| coll_inv _ := True |}.
Next Obligation. done. Qed.
Next Obligation. by intros [] c [= ->]. Qed.
Next Obligation. done. Qed.
Next Obligation. done. Qed.
Next Obligation. intros [|x l]; simpl; naive_solver. Qed.

#[export] Program Instance hash_collection_ok : CollectionOk (gmap bytes bytes) :=
  {| coll_inv _ := True |}.
Next Obligation. done. Qed.
Next Obligation. by intros [] c [= ->]. Qed.
Next Obligation. done. Qed.
Next Obligation. done. Qed.
Next Obligation. intros h; simpl. rewrite bool_decide_eq_false. naive_solver. Qed.

#[export] Program Instance set_collection_ok : CollectionOk (gset bytes) :=
  {| coll_inv _ := True |}.
Next Obligation. done. Qed.
Next Obligation. by intros [] c [= ->]. Qed.
Next Obligation. done. Qed.
Next Obligation. done. Qed.
Next Obligation. intros s; simpl. rewrite bool_decide_eq_false. naive_solver. Qed.

#[export] Program Instance zset_collection_ok : CollectionOk ZSet.t :=
  {| coll_inv := zset_ok |}.
Next Obligation. done. Qed.
Next Obligation. by intros [] c [= ->]. Qed.
Next Obligation. done. Qed.
Next Obligation. apply zset_default_ok. Qed.
Next Obligation. intros z; simpl. by rewrite Nat.eqb_neq. Qed.

(** A body that keeps the collection's invariant. *)
Definition body_ok {C R} `{CollectionOk C} (body : C → C * R) : Prop :=
  ∀ c, coll_inv c → coll_inv (body c).1.

Lemma hset_body_spec pairs h :
  (hset_body pairs h).1 = foldl (fun h p => <[p.1 := p.2]> h) h pairs ∧
  size (hset_body pairs h).1 = (size h + (hset_body pairs h).2)%nat.
Proof.
  unfold hset_body. enough (∀ n,
    let r := foldl (fun '(h, added) '(f, v) =>
           (<[f := v]> h, match h !! f with None => S added | Some _ => added end)) (h, n) pairs in
    r.1 = foldl (fun h p => <[p.1 := p.2]> h) h pairs ∧ (size r.1 + n = size h + r.2)%nat) as Hn.
  { specialize (Hn O). simpl in Hn. destruct Hn as [-> Hn]. split; [done|]. lia. }
  revert h. induction pairs as [|[f v] pairs IH]; intros h n; simpl; [done|].
  destruct (IH (<[f := v]> h) (match h !! f with None => S n | Some _ => n end)) as [Hh Hn].
  split; [done|]. rewrite map_size_insert in Hn; unfold id in Hn. destruct (h !! f); lia.
Qed.

Lemma hdel_body_spec fields h :
  (hdel_body fields h).1 = foldl (fun h f => delete f h) h fields ∧
  size h = (size (hdel_body fields h).1 + (hdel_body fields h).2)%nat.
Proof.
  unfold hdel_body. enough (∀ n,
    let r := foldl (fun '(h, n) f =>
           (delete f h, match h !! f with Some _ => S n | None => n end)) (h, n) fields in
    r.1 = foldl (fun h f => delete f h) h fields ∧ (size r.1 + r.2 = size h + n)%nat) as Hn.
  { specialize (Hn O). simpl in Hn. destruct Hn as [-> Hn]. split; [done|]. lia. }
  revert h. induction fields as [|f fields IH]; intros h n; simpl; [done|].
  destruct (IH (delete f h) (match h !! f with Some _ => S n | None => n end)) as [Hh Hn].
  split; [done|]. rewrite map_size_delete in Hn; unfold id in Hn. destruct (h !! f) eqn:Hf; [|lia].
  assert (size h ≠ O); [|lia]. intros Hz%map_size_empty_iff. by rewrite Hz in Hf.
Qed.

Lemma sadd_body_spec members s :
  (sadd_body members s).1 = s ∪ list_to_set members ∧
  size (sadd_body members s).1 = (size s + (sadd_body members s).2)%nat.
Proof.
  unfold sadd_body. enough (∀ n,
    let r := foldl (fun '(s, n) m =>
      ({[m]} ∪ s, if bool_decide (m ∈ s) then n else S n)) (s, n) members in
    r.1 = s ∪ list_to_set members ∧ (size r.1 + n = size s + r.2)%nat) as Hn.
  { specialize (Hn O). simpl in Hn. destruct Hn as [-> Hn]. split; [done|]. lia. }
  revert s. induction members as [|m ms IH]; intros s n; simpl; [split; [set_solver|done]|].
  destruct (IH ({[m]} ∪ s) (if bool_decide (m ∈ s) then n else S n)) as [Hs Hn].
  split; [set_solver|]. case_bool_decide as Hm.
  - assert ({[m]} ∪ s = s) as Heq by set_solver. rewrite Heq in *. lia.
  - rewrite size_union, size_singleton in Hn by set_solver. lia.
Qed.

Lemma srem_body_spec members s :
  (srem_body members s).1 = s ∖ list_to_set members ∧
  size s = (size (srem_body members s).1 + (srem_body members s).2)%nat.
Proof.
  unfold srem_body. enough (∀ n,
    let r := foldl (fun '(s, n) m =>
      (s ∖ {[m]}, if bool_decide (m ∈ s) then S n else n)) (s, n) members in
    r.1 = s ∖ list_to_set members ∧ (size r.1 + r.2 = size s + n)%nat) as Hn.
  { specialize (Hn O). simpl in Hn. destruct Hn as [-> Hn]. split; [done|]. lia. }
  revert s. induction members as [|m ms IH]; intros s n; simpl; [split; [set_solver|done]|].
  destruct (IH (s ∖ {[m]}) (if bool_decide (m ∈ s) then S n else n)) as [Hs Hn].
  split; [set_solver|]. case_bool_decide as Hm.
  - rewrite (size_difference s {[m]}), size_singleton in Hn by set_solver.
    assert (size s ≠ O); [|lia]. intros Hz%size_empty_inv. set_solver.
  - assert (s ∖ {[m]} = s) as Heq by set_solver. rewrite Heq in *. lia.
Qed.

Lemma zadd_body_spec pairs z :
  zset_ok z → Forall (fun p => f64_ok p.1) pairs →
  zset_ok (zadd_body pairs z).1 ∧
  ZSet.scores (zadd_body pairs z).1 = foldl (fun h p => <[p.2 := p.1]> h) (ZSet.scores z) pairs ∧
  ZSet.len (zadd_body pairs z).1 = (ZSet.len z + (zadd_body pairs z).2)%nat.
Proof.
  unfold zadd_body, ZSet.len. intros Hz Hok. enough (∀ n,
    let r := foldl (fun '(z, n) '(score, m) =>
           let '(z, added) := ZSet.insert z m score in (z, if (added : bool) then S n else n))
        (z, n) pairs in
    zset_ok r.1 ∧ ZSet.scores r.1 = foldl (fun h p => <[p.2 := p.1]> h) (ZSet.scores z) pairs ∧
    (size (ZSet.scores r.1) + n = size (ZSet.scores z) + r.2)%nat) as Hn.
  { specialize (Hn O). simpl in Hn. destruct Hn as (Ho & -> & Hn). split_and!; [done..|]. lia. }
  revert z Hz. induction Hok as [|[x m] pairs Hx Hok IH]; intros z Hz n; simpl; [done|].
  destruct (zset_insert_ok z m x Hz Hx) as (Hz' & Hsc & Hb).
  destruct (ZSet.insert z m x) as [z' b]; simpl in *.
  destruct (IH z' Hz' (if b then S n else n)) as (Ho & -> & Hn).
  rewrite Hsc in *. split_and!; [done..|]. rewrite map_size_insert in Hn; unfold id in Hn. subst b.
  destruct (ZSet.scores z !! m); simpl in *; lia.
Qed.

Lemma zrem_body_spec members z :
  zset_ok z →
  zset_ok (zrem_body members z).1 ∧
  ZSet.scores (zrem_body members z).1 = foldl (fun h m => delete m h) (ZSet.scores z) members ∧
  ZSet.len z = (ZSet.len (zrem_body members z).1 + (zrem_body members z).2)%nat.
Proof.
  unfold zrem_body, ZSet.len. intros Hz. enough (∀ n,
    let r := foldl (fun '(z, n) m =>
           let '(z, removed) := ZSet.remove z m in (z, if (removed : bool) then S n else n))
        (z, n) members in
    zset_ok r.1 ∧ ZSet.scores r.1 = foldl (fun h m => delete m h) (ZSet.scores z) members ∧
    (size (ZSet.scores r.1) + r.2 = size (ZSet.scores z) + n)%nat) as Hn.
  { specialize (Hn O). simpl in Hn. destruct Hn as (Ho & -> & Hn). split_and!; [done..|]. lia. }
  revert z Hz. induction members as [|m ms IH]; intros z Hz n; simpl; [done|].
  destruct (zset_remove_ok z m Hz) as (Hz' & Hsc & Hb).
  destruct (ZSet.remove z m) as [z' b]; simpl in *.
  destruct (IH z' Hz' (if b then S n else n)) as (Ho & -> & Hn).
  rewrite Hsc in *. split_and!; [done..|]. rewrite map_size_delete in Hn; unfold id in Hn. subst b.
  destruct (ZSet.scores z !! m) eqn:Hm; simpl in *; [|lia].
  assert (size (ZSet.scores z) ≠ O); [|lia]. intros Hzz%map_size_empty_iff. by rewrite Hzz in Hm.
Qed.

(** The bodies of the store keep the invariants of their collections. *)
Lemma trivial_body_ok {C R} `{CollectionOk C} (body : C → C * R) :
  (∀ c, coll_inv c) → body_ok body.
Proof. intros Hc c _. apply Hc. Qed.

Lemma push_body_ok vals left : body_ok (push_body vals left).
Proof. by apply trivial_body_ok. Qed.
Lemma pop_body_ok count left : body_ok (pop_body count left).
Proof. by apply trivial_body_ok. Qed.
Lemma hset_body_ok pairs : body_ok (hset_body pairs).
Proof. by apply trivial_body_ok. Qed.
Lemma hdel_body_ok fields : body_ok (hdel_body fields).
Proof. by apply trivial_body_ok. Qed.
Lemma sadd_body_ok ms : body_ok (sadd_body ms).
Proof. by apply trivial_body_ok. Qed.
Lemma srem_body_ok ms : body_ok (srem_body ms).
Proof. by apply trivial_body_ok. Qed.
Lemma zadd_body_ok pairs : Forall (fun p => f64_ok p.1) pairs → body_ok (zadd_body pairs).
Proof. intros Hp z Hz. by apply zadd_body_spec. Qed.
Lemma zrem_body_ok ms : body_ok (zrem_body ms).
Proof. intros z Hz. by apply zrem_body_spec. Qed.
#[export] Hint Resolve push_body_ok pop_body_ok hset_body_ok hdel_body_ok sadd_body_ok
  srem_body_ok zadd_body_ok zrem_body_ok : inmem.

Lemma value_bytes_nonneg v : 0 <= value_bytes v.
Proof.
  assert (∀ l : list bytes, 0 <= foldr (fun e acc => zlen e + 16 + acc) 0 l) as Hl.
  { induction l as [|x l IH]; simpl; [done|]. pose proof (zlen_nonneg x). lia. }
  destruct v as [s|l|h|s|z]; simpl; [apply zlen_nonneg|apply Hl| |apply Hl|].
  - apply map_sum_nonneg. intros k x _. pose proof (zlen_nonneg k). pose proof (zlen_nonneg x). lia.
  - apply map_sum_nonneg. intros k x _. lia.
Qed.
