(* ===== verification/Shard.v ===== *)
(** * One shard of the store ([crates/core/src/store.rs], lines 155 to 693)

    A shard ties the hash index, the eviction policy and the memory accounting
    together.  Every operation takes the clock reading [now] the source takes
    with [now_ms()] before it locks the shard.  [bytes] and [budget] are
    [usize] values in [Z]; the invariant shows the subtractions never go below
    zero. *)
From S2P Require Import Prelude Std Map Eviction Value.
Local Open Scope Z_scope.

Definition WRONGTYPE : string :=
  "WRONGTYPE Operation against a key holding the wrong kind of value".

Definition ENTRY_OVERHEAD : Z := 64.

Definition key_overhead (key_len : Z) : Z := key_len + ENTRY_OVERHEAD.

(** The [RandomState]s a fresh shard draws: one per hash index. *)
Record Hashers := mkHashers { h_map : bytes -> Z; h_meta : bytes -> Z; h_ghost : bytes -> Z }.

Record Entry := mkEntry { value : Value; expire_at : option Z }.

Inductive Ttl := NoKey | NoExpiry | Millis (ms : Z).

Inductive StrRead := SRStr (s : bytes) | SRNone | SRWrongType.

Record SetOptions := mkSetOptions {
  nx : bool;
  xx : bool;
  keep_ttl : bool;
  opt_expire_at : option Z
}.
Definition default_options : SetOptions := mkSetOptions false false false None.

Module Shard.

Record t := mk {
  map : FlatMap.t Entry;
  pol : S3Fifo.t;
  bytes : Z;
  budget : Z
}.

Definition set_map (s : t) (m : FlatMap.t Entry) : t := mk m (pol s) (bytes s) (budget s).
Definition set_pol (s : t) (p : S3Fifo.t) : t := mk (map s) p (bytes s) (budget s).
Definition set_bytes (s : t) (b : Z) : t := mk (map s) (pol s) b (budget s).

Definition new (hs : Hashers) (budget : Z) : t :=
  mk (FlatMap.new (h_map hs)) (S3Fifo.new (h_meta hs) (h_ghost hs)) 0 budget.

(** ** Internal operations *)

Definition drop_key (s : t) (key : list byte) : t * bool :=
  let '(m, r) := FlatMap.remove (map s) key in
  match r with
  | Some e =>
      (mk m (if budget s =? 0 then pol s else S3Fifo.remove (pol s) key)
          (bytes s - (key_overhead (zlen key) + value_bytes (value e))) (budget s), true)
  | None => (set_map s m, false)
  end.

Definition touch (s : t) (key : list byte) : t :=
  if budget s =? 0 then s else set_pol s (S3Fifo.touch (pol s) key).

(** Is the entry still visible at time [now]? *)
Definition unexpired (now : Z) (e : Entry) : bool :=
  match expire_at e with Some t => negb (t <=? now) | None => true end.

Definition live (s : t) (key : list byte) (now : Z) : t * bool :=
  match FlatMap.get (map s) key with
  | None => (s, false)
  | Some e => if unexpired now e then (s, true) else ((drop_key s key).1, false)
  end.

(** The loop of [enforce_budget]; [None] is no result: out of fuel. *)
Fixpoint enforce_loop (fuel : nat) (s : t) : option t :=
  match fuel with
  | O => None
  | S fuel =>
      if budget s <? bytes s then
        let '(p, victim) := S3Fifo.evict_one (pol s) in
        match victim with
        | Some v => enforce_loop fuel (drop_key (set_pol s p) v).1
        | None => Some (set_pol s p)
        end
      else Some s
  end.

(** Each turn drops a key, so one turn per key and a last test are enough. *)
Definition enforce_budget (s : t) : t :=
  if budget s =? 0 then s
  else
    match enforce_loop (S (FlatMap.len (map s))) s with
    | Some s' => s'
    | None => s
    end.

Definition put_new (s : t) (key : list byte) (v : Value) (exp : option Z) : t :=
  mk (FlatMap.insert (map s) key (mkEntry v exp)).1
     (if budget s =? 0 then pol s else S3Fifo.insert (pol s) key)
     (bytes s + (key_overhead (zlen key) + value_bytes v)) (budget s).

(** [s.map.get(key).map(|e| e.value.bytes())], or zero. *)
Definition bytes_at (s : t) (key : list byte) : Z :=
  match FlatMap.get (map s) key with Some e => value_bytes (value e) | None => 0 end.

(** The [with_collection!] macro.  [body] is run on the collection at [key],
    created empty when the key is absent. *)
Definition with_collection {C R} `{Collection C} (now : Z) (s : t) (key : list byte)
    (body : C -> C * R) : t * Result R :=
  let '(s, existed) := live s key now in
  let s := if (existed : bool) then s else put_new s key (variant make) None in
  let before := bytes_at s key in
  match FlatMap.get_mut (map s) key with
  | Some (e, put) =>
      match as_variant (value e) with
      | Some c =>
          let '(c', r) := body c in
          let s := set_map s (put (mkEntry (variant c') (expire_at e))) in
          let after := bytes_at s key in
          let s := set_bytes s (bytes s + after - before) in
          let s := touch s key in
          let empty :=
            match FlatMap.get (map s) key with
            | Some e => match as_variant (value e) with Some c => coll_is_empty c | None => false end
            | None => false
            end in
          if (empty : bool) then ((drop_key s key).1, Ok r) else (enforce_budget s, Ok r)
      | None => (s, Err WRONGTYPE)
      end
  | None => (s, Err "entry was just ensured")
  end.

(** [read_collection]: [f] sees the value, or nothing. *)
Definition read_collection {R} (now : Z) (s : t) (key : list byte) (f : option Value -> R) : t * R :=
  let '(s, l) := live s key now in
  if negb l then (s, f None)
  else
    let s := touch s key in
    (s, f (value <$> FlatMap.get (map s) key)).

(** ** Strings *)

Definition get (now : Z) (s : t) (key : list byte) : t * Result (option (list byte)) :=
  let '(s, l) := live s key now in
  if negb l then (s, Ok None)
  else
    let s := touch s key in
    match value <$> FlatMap.get (map s) key with
    | Some (VStr v) => (s, Ok (Some v))
    | Some _ => (s, Err WRONGTYPE)
    | None => (s, Ok None)
    end.

Definition read_str {R} (now : Z) (s : t) (key : list byte) (f : StrRead -> R) : t * R :=
  let '(s, l) := live s key now in
  if negb l then (s, f SRNone)
  else
    let s := touch s key in
    match value <$> FlatMap.get (map s) key with
    | Some (VStr v) => (s, f (SRStr v))
    | Some _ => (s, f SRWrongType)
    | None => (s, f SRNone)
    end.

Definition set (now : Z) (s : t) (key val : list byte) (opts : SetOptions) : t * bool :=
  let '(s, existed) := live s key now in
  if nx opts && existed then (s, false)
  else if xx opts && negb existed then (s, false)
  else
    let new_expire :=
      if keep_ttl opts && existed then FlatMap.get (map s) key ≫= expire_at
      else opt_expire_at opts in
    let s :=
      if (existed : bool) then
        let old_bytes := bytes_at s key in
        let s := set_bytes s (bytes s + zlen val - old_bytes) in
        let s := set_map s (FlatMap.modify (map s) key (fun _ => mkEntry (VStr val) new_expire)) in
        touch s key
      else put_new s key (VStr val) new_expire in
    (enforce_budget s, true).

Definition del (now : Z) (s : t) (key : list byte) : t * bool :=
  let '(s, l) := live s key now in
  if negb l then (s, false) else drop_key s key.

Definition exists_ (now : Z) (s : t) (key : list byte) : t * bool := live s key now.

Definition type_of (now : Z) (s : t) (key : list byte) : t * string :=
  let '(s, l) := live s key now in
  if negb l then (s, "none"%string)
  else
    (s, match FlatMap.get (map s) key with
        | Some e => type_name (value e)
        | None => "none"%string
        end).

Definition set_expire_at (now : Z) (s : t) (key : list byte) (at_ : option Z) : t * bool :=
  let '(s, l) := live s key now in
  if negb l then (s, false)
  else
    match FlatMap.get_mut (map s) key with
    | Some (e, put) => (set_map s (put (mkEntry (value e) at_)), true)
    | None => (s, false)
    end.

Definition pttl (now : Z) (s : t) (key : list byte) : t * Ttl :=
  let '(s, l) := live s key now in
  if negb l then (s, NoKey)
  else
    (s, match FlatMap.get (map s) key ≫= expire_at with
        | None => NoExpiry
        | Some t => Millis (Z.max (t - now) 0)
        end).

Definition NOT_AN_INTEGER : string := "value is not an integer or out of range".
Definition OVERFLOW : string := "increment or decrement would overflow".

(** The integer a string value denotes: [t.trim().parse::<i64>()]. *)
Definition parse_counter (v : list byte) : option Z := t ← from_utf8 v; parse_i64_str (trim t).

(** [i64::checked_add] *)
Definition checked_add (a b : Z) : option Z := if in_i64 (a + b) then Some (a + b) else None.

Definition incr_by (now : Z) (s : t) (key : list byte) (delta : Z) : t * Result Z :=
  let '(s, existed) := live s key now in
  let cur : Result Z :=
    if (existed : bool) then
      match value <$> FlatMap.get (map s) key with
      | Some (VStr v) =>
          match parse_counter v with Some n => Ok n | None => Err NOT_AN_INTEGER end
      | Some _ => Err WRONGTYPE
      | None => Ok 0
      end
    else Ok 0 in
  match cur with
  | Err e => (s, Err e)
  | Ok cur =>
      match checked_add cur delta with
      | None => (s, Err OVERFLOW)
      | Some next =>
          let b := i64_to_string next in
          let expire := if (existed : bool) then FlatMap.get (map s) key ≫= expire_at else None in
          let s := if (existed : bool) then (drop_key s key).1 else s in
          let s := put_new s key (VStr b) expire in
          (enforce_budget s, Ok next)
      end
  end.

Definition append (now : Z) (s : t) (key suffix : list byte) : t * Result nat :=
  let '(s, existed) := live s key now in
  let refused :=
    existed && match value <$> FlatMap.get (map s) key with
               | Some (VStr _) => false
               | Some _ => true
               | None => false
               end in
  if refused then (s, Err WRONGTYPE)
  else
    let cur : Result (list byte * option Z) :=
      if (existed : bool) then
        match FlatMap.get (map s) key with
        | Some e => match value e with VStr v => Ok (v, expire_at e) | _ => Err "entered unreachable code" end
        | None => Err "called unwrap on a None value"
        end
      else Ok ([], None) in
    match cur with
    | Err e => (s, Err e)
    | Ok (cur, expire) =>
        let v := cur ++ suffix in
        let new_len := length v in
        let s := if (existed : bool) then (drop_key s key).1 else s in
        let s := put_new s key (VStr v) expire in
        (enforce_budget s, Ok new_len)
    end.

Definition strlen (now : Z) (s : t) (key : list byte) : t * Result nat :=
  let '(s, l) := live s key now in
  if negb l then (s, Ok O)
  else
    match value <$> FlatMap.get (map s) key with
    | Some (VStr v) => (s, Ok (length v))
    | Some _ => (s, Err WRONGTYPE)
    | None => (s, Ok O)
    end.

(** ** Lists *)

Definition push (now : Z) (s : t) (key : list byte) (vals : list (list byte)) (left : bool)
    : t * Result nat :=
  with_collection now s key (push_body vals left).

Definition pop (now : Z) (s : t) (key : list byte) (count : Z) (left : bool)
    : t * Result (list (list byte)) :=
  with_collection now s key (pop_body count left).

Definition llen (now : Z) (s : t) (key : list byte) : t * Result nat :=
  read_collection now s key (fun v =>
    match v with
    | Some (VList l) => Ok (length l)
    | Some _ => Err WRONGTYPE
    | None => Ok O
    end).

Definition lrange (now : Z) (s : t) (key : list byte) (start stop : Z)
    : t * Result (list (list byte)) :=
  read_collection now s key (fun v =>
    match v with
    | Some (VList l) => Ok (lrange_body start stop l)
    | Some _ => Err WRONGTYPE
    | None => Ok []
    end).

(** ** Hashes *)

Definition hset (now : Z) (s : t) (key : list byte) (pairs : list (list byte * list byte))
    : t * Result nat :=
  with_collection now s key (hset_body pairs).

Definition hget (now : Z) (s : t) (key field : list byte) : t * Result (option (list byte)) :=
  read_collection now s key (fun v =>
    match v with
    | Some (VHash h) => Ok (h !! field)
    | Some _ => Err WRONGTYPE
    | None => Ok None
    end).

Definition hdel (now : Z) (s : t) (key : list byte) (fields : list (list byte)) : t * Result nat :=
  with_collection now s key (hdel_body fields).

Definition hlen (now : Z) (s : t) (key : list byte) : t * Result nat :=
  read_collection now s key (fun v =>
    match v with
    | Some (VHash h) => Ok (size h)
    | Some _ => Err WRONGTYPE
    | None => Ok O
    end).

Definition hgetall {HO : HashOrder} (now : Z) (s : t) (key : list byte)
    : t * Result (list (list byte * list byte)) :=
  read_collection now s key (fun v =>
    match v with
    | Some (VHash h) => Ok (iter_map h)
    | Some _ => Err WRONGTYPE
    | None => Ok []
    end).

(** ** Sets *)

Definition sadd (now : Z) (s : t) (key : list byte) (members : list (list byte)) : t * Result nat :=
  with_collection now s key (sadd_body members).

Definition srem (now : Z) (s : t) (key : list byte) (members : list (list byte)) : t * Result nat :=
  with_collection now s key (srem_body members).

Definition sismember (now : Z) (s : t) (key member : list byte) : t * Result bool :=
  read_collection now s key (fun v =>
    match v with
    | Some (VSet s) => Ok (bool_decide (member ∈ s))
    | Some _ => Err WRONGTYPE
    | None => Ok false
    end).

Definition scard (now : Z) (s : t) (key : list byte) : t * Result nat :=
  read_collection now s key (fun v =>
    match v with
    | Some (VSet s) => Ok (size s)
    | Some _ => Err WRONGTYPE
    | None => Ok O
    end).

Definition smembers {HO : HashOrder} (now : Z) (s : t) (key : list byte)
    : t * Result (list (list byte)) :=
  read_collection now s key (fun v =>
    match v with
    | Some (VSet s) => Ok (iter_set s)
    | Some _ => Err WRONGTYPE
    | None => Ok []
    end).

(** ** Sorted sets *)

Definition zadd (now : Z) (s : t) (key : list byte) (pairs : list (f64 * list byte)) : t * Result nat :=
  with_collection now s key (zadd_body pairs).

Definition zrem (now : Z) (s : t) (key : list byte) (members : list (list byte)) : t * Result nat :=
  with_collection now s key (zrem_body members).

Definition zscore (now : Z) (s : t) (key member : list byte) : t * Result (option f64) :=
  read_collection now s key (fun v =>
    match v with
    | Some (VZSet z) => Ok (ZSet.score z member)
    | Some _ => Err WRONGTYPE
    | None => Ok None
    end).

Definition zcard (now : Z) (s : t) (key : list byte) : t * Result nat :=
  read_collection now s key (fun v =>
    match v with
    | Some (VZSet z) => Ok (ZSet.len z)
    | Some _ => Err WRONGTYPE
    | None => Ok O
    end).

Definition zrange (now : Z) (s : t) (key : list byte) (start stop : Z)
    : t * Result (list (list byte * f64)) :=
  read_collection now s key (fun v =>
    match v with
    | Some (VZSet z) => Ok (ZSet.range z start stop)
    | Some _ => Err WRONGTYPE
    | None => Ok []
    end).

(** ** Whole-shard operations *)

(** The part of [flush_all], [purge_expired], [keys] under one lock. *)
Definition flush (hs : Hashers) (s : t) : t := new hs (budget s).

Definition expired_keys (now : Z) (s : t) : list (list byte) :=
  (filter (fun p => unexpired now p.2 = false) (FlatMap.iter (map s))).*1.

Definition purge_expired (now : Z) (s : t) : t * nat :=
  foldl (fun '(s, removed) k =>
           let '(s, dropped) := drop_key s k in (s, if (dropped : bool) then S removed else removed))
        (s, O) (expired_keys now s).

Definition keys (now : Z) (s : t) : list (list byte) :=
  (filter (fun p => unexpired now p.2 = true) (FlatMap.iter (map s))).*1.

End Shard.
