(* ===== verification/Spec.v ===== *)
(** * The database a store implements

    The reference semantics of the store: a finite map from keys to entries,
    a clock reading, and one function per operation.  There is no hash table,
    no eviction queue and no byte counter here; a memory limit appears as the
    relation [settles], which says what eviction may do to a result. *)
From S2P Require Import Prelude Std Value Shard.
Local Open Scope Z_scope.

(** The operations of the public interface that address one key. *)
Inductive Op :=
  | OGet (k : bytes)
  | OSet (k v : bytes) (opts : SetOptions)
  | ODel (k : bytes)
  | OExists (k : bytes)
  | OTypeOf (k : bytes)
  | OExpireAt (k : bytes) (at_ : option Z)
  | OPttl (k : bytes)
  | OIncrBy (k : bytes) (delta : Z)
  | OAppend (k suffix : bytes)
  | OStrlen (k : bytes)
  | OPush (k : bytes) (vals : list bytes) (left : bool)
  | OPop (k : bytes) (count : Z) (left : bool)
  | OLlen (k : bytes)
  | OLrange (k : bytes) (start stop : Z)
  | OHset (k : bytes) (pairs : list (bytes * bytes))
  | OHget (k field : bytes)
  | OHdel (k : bytes) (fields : list bytes)
  | OHlen (k : bytes)
  | OHgetall (k : bytes)
  | OSadd (k : bytes) (members : list bytes)
  | OSrem (k : bytes) (members : list bytes)
  | OSismember (k member : bytes)
  | OScard (k : bytes)
  | OSmembers (k : bytes)
  | OZadd (k : bytes) (pairs : list (f64 * bytes))
  | OZrem (k : bytes) (members : list bytes)
  | OZscore (k member : bytes)
  | OZcard (k : bytes)
  | OZrange (k : bytes) (start stop : Z).

(** What they return. *)
Inductive Ret :=
  | RStr (r : Result (option bytes))
  | RBool (b : bool)
  | RType (s : string)
  | RTtl (t : Ttl)
  | RInt (r : Result Z)
  | RLen (r : Result nat)
  | RItems (r : Result (list bytes))
  | RPairs (r : Result (list (bytes * bytes)))
  | RFlag (r : Result bool)
  | RScore (r : Result (option f64))
  | RScored (r : Result (list (bytes * f64))).

Definition op_key (o : Op) : bytes :=
  match o with
  | OGet k | OSet k _ _ | ODel k | OExists k | OTypeOf k | OExpireAt k _ | OPttl k
  | OIncrBy k _ | OAppend k _ | OStrlen k | OPush k _ _ | OPop k _ _ | OLlen k
  | OLrange k _ _ | OHset k _ | OHget k _ | OHdel k _ | OHlen k | OHgetall k
  | OSadd k _ | OSrem k _ | OSismember k _ | OScard k | OSmembers k | OZadd k _
  | OZrem k _ | OZscore k _ | OZcard k | OZrange k _ _ => k
  end.

(** An argument of type [f64] is a bit pattern of 64 bits. *)
Definition op_ok (o : Op) : Prop :=
  match o with OZadd _ pairs => Forall (fun p => f64_ok p.1) pairs | _ => True end.

Module Db.

Abbreviation t := (gmap bytes Entry).

(** The entry a caller sees at time [now]. *)
Definition find (now : Z) (m : t) (k : bytes) : option Entry :=
  e ← m !! k; if Shard.unexpired now e then Some e else None.

(** Looking at an expired key removes it. *)
Definition purge (now : Z) (k : bytes) (m : t) : t :=
  match find now m k with Some _ => m | None => delete k m end.

(** Reads leave the database as it is, but for an expired key. *)
Definition read {R : Type} (now : Z) (m : t) (k : bytes) (f : option Value → R) : t * R :=
  (purge now k m, f (value <$> find now m k)).

(** An update of a collection of one type: created when absent, an error on a
    value of another type, and the key is removed when it ends empty. *)
Definition update {C R : Type} `{Collection C} (now : Z) (m : t) (k : bytes) (body : C → C * R)
    : t * Result R :=
  let run c expire :=
    let '(c, r) := body c in
    (if coll_is_empty c then delete k m else <[k := mkEntry (variant c) expire]> m, Ok r) in
  match find now m k with
  | None => run make None
  | Some e => match as_variant (value e) with Some c => run c (expire_at e) | None => (m, Err WRONGTYPE) end
  end.

Definition set (now : Z) (m : t) (k v : bytes) (o : SetOptions) : t * bool :=
  let old := find now m k in
  if match old with Some _ => nx o | None => xx o end then (purge now k m, false)
  else
    let expire := match old with
                  | Some e => if keep_ttl o then expire_at e else opt_expire_at o
                  | None => opt_expire_at o
                  end in
    (<[k := mkEntry (VStr v) expire]> m, true).

(** A string that is read, rewritten and keeps its expiry. *)
Definition rewrite_str {R : Type} (now : Z) (m : t) (k : bytes) (empty : bytes)
    (f : bytes → Result (bytes * R)) : t * Result R :=
  let '(old, expire) :=
    match find now m k with
    | None => (Ok empty, None)
    | Some e => (match value e with VStr v => Ok v | _ => Err WRONGTYPE end, expire_at e)
    end in
  match old with
  | Err e => (purge now k m, Err e)
  | Ok old =>
      match f old with
      | Err e => (purge now k m, Err e)
      | Ok (v, r) => (<[k := mkEntry (VStr v) expire]> m, Ok r)
      end
  end.

Definition incr_by (now : Z) (m : t) (k : bytes) (delta : Z) : t * Result Z :=
  rewrite_str now m k (lit "0") (fun v =>
    match Shard.parse_counter v with
    | None => Err Shard.NOT_AN_INTEGER
    | Some n => if in_i64 (n + delta) then Ok (i64_to_string (n + delta), n + delta)
                else Err Shard.OVERFLOW
    end).

Definition append (now : Z) (m : t) (k suffix : bytes) : t * Result nat :=
  rewrite_str now m k [] (fun v => Ok (v ++ suffix, (length v + length suffix)%nat)).

(** The result of a read of one type of value. *)
Definition typed {C R : Type} (as_type : Value → option C) (f : C → R) (absent : R) (v : option Value)
    : Result R :=
  match v with
  | None => Ok absent
  | Some v => match as_type v with Some c => Ok (f c) | None => Err WRONGTYPE end
  end.

Definition as_str (v : Value) : option bytes := match v with VStr s => Some s | _ => None end.

Section exec.
Context {HO : HashOrder}.

Definition exec (now : Z) (m : t) (o : Op) : t * Ret :=
  match o with
  | OGet k => prod_map id RStr (read now m k (typed as_str Some None))
  | OSet k v o => prod_map id RBool (set now m k v o)
  | ODel k => (delete k m, RBool (bool_decide (is_Some (find now m k))))
  | OExists k => (purge now k m, RBool (bool_decide (is_Some (find now m k))))
  | OTypeOf k => prod_map id RType (read now m k (from_option type_name "none"%string))
  | OExpireAt k at_ =>
      match find now m k with
      | Some e => (<[k := mkEntry (value e) at_]> m, RBool true)
      | None => (purge now k m, RBool false)
      end
  | OPttl k =>
      (purge now k m,
       RTtl match find now m k with
            | None => NoKey
            | Some e => match expire_at e with None => NoExpiry | Some t => Millis (t - now) end
            end)
  | OIncrBy k delta => prod_map id RInt (incr_by now m k delta)
  | OAppend k suffix => prod_map id RLen (append now m k suffix)
  | OStrlen k => prod_map id RLen (read now m k (typed as_str length O))
  | OPush k vals side => prod_map id RLen (update now m k (push_body vals side))
  | OPop k count side => prod_map id RItems (update now m k (pop_body count side))
  | OLlen k => prod_map id RLen (read now m k (typed (C := list bytes) as_variant length O))
  | OLrange k start stop =>
      prod_map id RItems (read now m k (typed as_variant (lrange_body start stop) []))
  | OHset k pairs => prod_map id RLen (update now m k (hset_body pairs))
  | OHget k f =>
      prod_map id RStr (read now m k (typed (C := gmap bytes bytes) as_variant (lookup f) None))
  | OHdel k fields => prod_map id RLen (update now m k (hdel_body fields))
  | OHlen k => prod_map id RLen (read now m k (typed (C := gmap bytes bytes) as_variant size O))
  | OHgetall k => prod_map id RPairs (read now m k (typed as_variant iter_map []))
  | OSadd k ms => prod_map id RLen (update now m k (sadd_body ms))
  | OSrem k ms => prod_map id RLen (update now m k (srem_body ms))
  | OSismember k x =>
      prod_map id RFlag
        (read now m k (typed (C := gset bytes) as_variant (fun s => bool_decide (x ∈ s)) false))
  | OScard k => prod_map id RLen (read now m k (typed (C := gset bytes) as_variant size O))
  | OSmembers k => prod_map id RItems (read now m k (typed as_variant iter_set []))
  | OZadd k pairs => prod_map id RLen (update now m k (zadd_body pairs))
  | OZrem k ms => prod_map id RLen (update now m k (zrem_body ms))
  | OZscore k x => prod_map id RScore (read now m k (typed as_variant (fun z => ZSet.score z x) None))
  | OZcard k => prod_map id RLen (read now m k (typed as_variant ZSet.len O))
  | OZrange k start stop =>
      prod_map id RScored (read now m k (typed as_variant (fun z => ZSet.range z start stop) []))
  end.
End exec.

(** ** Memory *)

(** What the accounting charges for an entry, and for a database. *)
Definition entry_cost (k : bytes) (e : Entry) : Z :=
  key_overhead (zlen k) + value_bytes (value e).
Definition cost (m : t) : Z := map_sum entry_cost m.

(** A budget of zero means no limit. *)
Definition fits (budget : Z) (m : t) : Prop := budget = 0 ∨ cost m <= budget.

(** What may be left of [m] after eviction: entries of [m] that fit the
    budget, and all of [m] when it fits already. *)
Definition settles (budget : Z) (m m' : t) : Prop :=
  m' ⊆ m ∧ fits budget m' ∧ (fits budget m → m' = m).

(** Every value the database holds is one a client could have written. *)
Definition values_ok (m : t) : Prop := ∀ k e, m !! k = Some e → value_ok (value e).

(** ** Facts *)

Implicit Types (k j : bytes) (now : Z) (m : t).

Lemma entry_cost_pos k e : 0 < entry_cost k e.
Proof.
  unfold entry_cost, key_overhead, ENTRY_OVERHEAD.
  pose proof (zlen_nonneg k). pose proof (value_bytes_nonneg (value e)). lia.
Qed.

Lemma cost_nonneg m : 0 <= cost m.
Proof. apply map_sum_nonneg. intros k e _. pose proof (entry_cost_pos k e). lia. Qed.

Lemma cost_delete m k : cost (delete k m) <= cost m.
Proof.
  destruct (m !! k) as [e|] eqn:Hk; [|by rewrite delete_id].
  unfold cost. rewrite (map_sum_delete _ m k e Hk). pose proof (entry_cost_pos k e). lia.
Qed.

Lemma fits_delete b m k : fits b m → fits b (delete k m).
Proof. pose proof (cost_delete m k). unfold fits. lia. Qed.

Lemma cost_subseteq m m' : m' ⊆ m → cost m' <= cost m.
Proof.
  revert m. induction m' as [|k e m' Hk IH] using map_ind; intros m Hsub.
  { pose proof (cost_nonneg m). change (cost ∅) with 0. lia. }
  assert (m !! k = Some e) as Hm.
  { eapply lookup_weaken; [|exact Hsub]. apply lookup_insert_eq. }
  unfold cost. rewrite map_sum_insert, (map_sum_delete _ m k e) by done. fold (cost m').
  fold (cost (delete k m)). enough (cost m' <= cost (delete k m)) by lia. apply IH.
  rewrite <- (delete_insert_id m' k e Hk). by apply delete_mono.
Qed.

Lemma fits_subseteq b m m' : m' ⊆ m → fits b m → fits b m'.
Proof. intros Hsub%cost_subseteq. unfold fits. lia. Qed.

Lemma purge_alt now k m : purge now k m = m ∨ purge now k m = delete k m.
Proof. unfold purge. destruct (find _ _ _); auto. Qed.

Lemma fits_purge b now k m : fits b m → fits b (purge now k m).
Proof. destruct (purge_alt now k m) as [->| ->]; auto using fits_delete. Qed.

Lemma values_ok_subseteq m m' : values_ok m → m' ⊆ m → values_ok m'.
Proof. intros Hm Hsub k e Hk. eapply Hm, lookup_weaken; eauto. Qed.

Lemma values_ok_delete m k : values_ok m → values_ok (delete k m).
Proof. intros Hm. eapply values_ok_subseteq; [done|]. apply delete_subseteq. Qed.

Lemma purge_subseteq now k m : purge now k m ⊆ m.
Proof. destruct (purge_alt now k m) as [->| ->]; [done|apply delete_subseteq]. Qed.

Lemma values_ok_purge now k m : values_ok m → values_ok (purge now k m).
Proof. intros Hm. eapply values_ok_subseteq; [done|]. apply purge_subseteq. Qed.

Lemma values_ok_insert m k e : values_ok m → value_ok (value e) → values_ok (<[k := e]> m).
Proof. intros Hm He j x [[<- <-]|[_ Hj]]%lookup_insert_Some; [done|by eapply Hm]. Qed.

Lemma settles_refl b m : fits b m → settles b m m.
Proof. intros Hm. by split_and!. Qed.

Lemma find_Some now m k e :
  find now m k = Some e ↔ m !! k = Some e ∧ Shard.unexpired now e = true.
Proof.
  unfold find. rewrite bind_Some. split.
  - intros (x & Hx & Hu). case_match; simplify_eq. done.
  - intros [Hk Hu]. exists e. by rewrite Hu.
Qed.

Lemma purge_lookup now k m : purge now k m !! k = find now m k.
Proof.
  unfold purge. destruct (find now m k) as [e|] eqn:Hf; [by apply find_Some in Hf as [-> _]|].
  apply lookup_delete_eq.
Qed.

(** An operation on [k] looks at [k] only and changes [k] only. *)
Definition local {R : Type} (k : bytes) (f : t → t * R) : Prop :=
  (∀ m1 m2, m1 !! k = m2 !! k → (f m1).2 = (f m2).2 ∧ (f m1).1 !! k = (f m2).1 !! k) ∧
  (∀ m j, j ≠ k → (f m).1 !! j = m !! j).

Lemma find_local now m1 m2 k : m1 !! k = m2 !! k → find now m1 k = find now m2 k.
Proof. unfold find. by intros ->. Qed.

Lemma purge_ne now k m j : j ≠ k → purge now k m !! j = m !! j.
Proof. intros Hne. destruct (purge_alt now k m) as [->| ->]; [done|by apply lookup_delete_ne]. Qed.

Lemma local_map {R R' : Type} (g : R → R') k (f : t → t * R) :
  local k f → local k (fun m => prod_map id g (f m)).
Proof.
  intros [Hl Hf]. split.
  - intros m1 m2 Hm. destruct (Hl m1 m2 Hm) as [Hr Hk].
    destruct (f m1), (f m2). simpl in *. by rewrite Hr.
  - intros m j Hj. specialize (Hf m j Hj). by destruct (f m).
Qed.

Lemma read_local {R : Type} now k (f : option Value → R) : local k (fun m => read now m k f).
Proof.
  split; [|intros; by apply purge_ne]. intros m1 m2 Hm. unfold read. simpl.
  by rewrite !purge_lookup, (find_local now m1 m2 k Hm).
Qed.

Lemma update_local {C R : Type} `{Collection C} now k (body : C → C * R) :
  local k (fun m => update now m k body).
Proof.
  unfold update. split.
  - intros m1 m2 Hm. rewrite (find_local now m1 m2 k Hm).
    destruct (find now m2 k) as [e|]; [destruct (as_variant (value e)) as [c|]; [|done]|];
      destruct (body _) as [c' r]; simpl; (split; [done|]); destruct (coll_is_empty c');
      by rewrite ?lookup_delete_eq, ?lookup_insert_eq.
  - intros m j Hj.
    destruct (find now m k) as [e|]; [destruct (as_variant (value e)) as [c|]; [|done]|];
      destruct (body _) as [c' r]; simpl; destruct (coll_is_empty c');
      by rewrite ?lookup_delete_ne, ?lookup_insert_ne.
Qed.

Lemma set_local now k v o : local k (fun m => set now m k v o).
Proof.
  unfold set. split.
  - intros m1 m2 Hm. rewrite (find_local now m1 m2 k Hm). destruct (find now m2 k) eqn:Hf.
    all: case_match; simpl; (split; [done|]);
      by rewrite ?lookup_insert_eq, ?purge_lookup, ?(find_local now m1 m2 k Hm).
  - intros m j Hj. case_match; simpl; by rewrite ?lookup_insert_ne, ?purge_ne.
Qed.

Lemma rewrite_str_local {R : Type} now k empty (f : bytes → Result (bytes * R)) :
  local k (fun m => rewrite_str now m k empty f).
Proof.
  unfold rewrite_str. split.
  - intros m1 m2 Hm. rewrite (find_local now m1 m2 k Hm).
    repeat case_match; simplify_eq; simpl; (split; [done|]);
      by rewrite ?lookup_insert_eq, ?purge_lookup, ?(find_local now m1 m2 k Hm).
  - intros m j Hj. repeat case_match; simplify_eq; simpl; by rewrite ?lookup_insert_ne, ?purge_ne.
Qed.

Lemma exec_local {HO : HashOrder} now o : local (op_key o) (fun m => exec now m o).
Proof.
  destruct o; cbn [op_key exec];
    try apply local_map, read_local; try apply local_map, update_local;
    try apply local_map, rewrite_str_local; try apply local_map, set_local.
  - split; simpl; [|intros; by apply lookup_delete_ne].
    intros m1 m2 Hm. by rewrite !lookup_delete_eq, (find_local now m1 m2 k Hm).
  - split; simpl; [|intros; by apply purge_ne].
    intros m1 m2 Hm. by rewrite !purge_lookup, (find_local now m1 m2 k Hm).
  - split.
    + intros m1 m2 Hm. rewrite (find_local now m1 m2 k Hm). case_match; simpl;
      by rewrite ?lookup_insert_eq, ?purge_lookup, ?(find_local now m1 m2 k Hm).
    + intros m j Hj. case_match; simpl; by rewrite ?lookup_insert_ne, ?purge_ne.
  - split; simpl; [|intros; by apply purge_ne].
    intros m1 m2 Hm. by rewrite !purge_lookup, (find_local now m1 m2 k Hm).
Qed.

Lemma insert_purge now k m e : <[k := e]> (purge now k m) = <[k := e]> m.
Proof. destruct (purge_alt now k m) as [->| ->]; [done|apply insert_delete_eq]. Qed.

Lemma delete_purge now k m : delete k (purge now k m) = delete k m.
Proof. destruct (purge_alt now k m) as [->| ->]; [done|apply delete_delete_eq]. Qed.

End Db.

#[export] Hint Resolve Db.cost_nonneg Db.fits_delete Db.fits_purge Db.values_ok_delete
  Db.values_ok_purge Db.settles_refl : inmem.
