(* ===== verification/ShardOk.v ===== *)
(** * A shard implements the database

    The invariant of a shard, and the refinement of every operation of
    [Shard.v] by the database of [Spec.v]: same result, and a state that is the
    database's next state up to eviction. *)
From S2P Require Import Prelude Std Map Eviction Value Shard Spec.
Local Open Scope Z_scope.

Section invariant.
Implicit Types (s : Shard.t) (k : bytes) (m : Db.t).

(** The index and the policy are well formed, the byte counter is exact, and
    with a budget the policy tracks exactly the keys of the index. *)
Record core (s : Shard.t) : Prop := {
  core_map : wf (Shard.map s);
  core_pol : wf (Shard.pol s);
  core_bytes : Shard.bytes s = Db.cost ⟦Shard.map s⟧;
  core_budget : 0 <= Shard.budget s;
  core_track : Shard.budget s ≠ 0 → dom ⟦Shard.pol s⟧ = dom ⟦Shard.map s⟧
}.

Definition shard_ok (s : Shard.t) : Prop :=
  core s ∧ Db.values_ok ⟦Shard.map s⟧ ∧ Db.fits (Shard.budget s) ⟦Shard.map s⟧.

#[export] Instance shard_represents : Represents Shard.t Db.t :=
  {| wf := shard_ok; absf s := ⟦Shard.map s⟧ |}.

Lemma shard_abs s : ⟦s⟧ = ⟦Shard.map s⟧.
Proof. done. Qed.

(** An internal step: the invariant holds and the database is now [m]. *)
Definition becomes (s s' : Shard.t) m : Prop :=
  core s' ∧ ⟦s'⟧ = m ∧ Shard.budget s' = Shard.budget s.

Lemma becomes_refl s : core s → becomes s s ⟦s⟧.
Proof. intros Hs. by split_and!. Qed.

Lemma becomes_trans s s' s'' m m' : becomes s s' m → becomes s' s'' m' → becomes s s'' m'.
Proof. intros (? & ? & ?) (? & ? & ?). split_and!; congruence. Qed.

Lemma new_core hs b : 0 <= b → core (Shard.new hs b).
Proof. intros Hb. split; simpl; auto with inmem; done. Qed.

Lemma drop_key_ok s k :
  core s →
  becomes s (Shard.drop_key s k).1 (delete k ⟦s⟧) ∧
  (Shard.drop_key s k).2 = bool_decide (is_Some (⟦s⟧ !! k)).
Proof.
  intros [Hm Hp Hb Hbud Ht]. unfold Shard.drop_key. rewrite shard_abs.
  pose proof (FlatMap.fm_remove_wf (Shard.map s) k Hm) as Hwf.
  pose proof (FlatMap.fm_remove_abs (Shard.map s) k Hm) as Habs.
  pose proof (FlatMap.fm_remove_old (Shard.map s) k Hm) as Hold.
  destruct (FlatMap.remove (Shard.map s) k) as [f [e|]]; simpl in *; rewrite <- Hold;
    (split; [|done]); (split; [|by split]).
  - split; simpl; auto.
    + case_match; auto with inmem.
    + rewrite Habs, Hb. unfold Db.cost. rewrite (map_sum_delete _ _ k e) by done.
      unfold Db.entry_cost. lia.
    + intros Hne. destruct (Z.eqb_spec (Shard.budget s) 0); [done|].
      rewrite S3Fifo.s3_remove_dom, Habs, dom_delete_L by done. by rewrite Ht.
  - split; simpl; auto; rewrite Habs, delete_id by done; auto.
Qed.

Lemma touch_ok s k : core s → becomes s (Shard.touch s k) ⟦s⟧.
Proof.
  intros Hs. unfold Shard.touch. case_match; [by apply becomes_refl|].
  split; [|by split]. destruct Hs as [Hm Hp Hb Hbud Ht]. split; simpl; auto with inmem.
  intros Hne. rewrite S3Fifo.s3_touch_dom by done. auto.
Qed.

Lemma live_ok s k now :
  core s →
  becomes s (Shard.live s k now).1 (Db.purge now k ⟦s⟧) ∧
  (Shard.live s k now).2 = bool_decide (is_Some (Db.find now ⟦s⟧ k)).
Proof.
  intros Hs. unfold Shard.live, Db.purge, Db.find. rewrite FlatMap.fm_get by apply Hs.
  rewrite <- shard_abs. destruct (⟦s⟧ !! k) as [e|] eqn:Hk; simpl.
  - destruct (Shard.unexpired now e); (split; [|done]); [by apply becomes_refl|].
    by apply drop_key_ok.
  - rewrite delete_id by done. split; [by apply becomes_refl|done].
Qed.

Lemma put_new_ok s k v x :
  core s → ⟦s⟧ !! k = None → becomes s (Shard.put_new s k v x) (<[k := mkEntry v x]> ⟦s⟧).
Proof.
  intros [Hm Hp Hb Hbud Ht] Hk. rewrite shard_abs in *. unfold Shard.put_new.
  pose proof (FlatMap.fm_insert_abs (Shard.map s) k (mkEntry v x) Hm) as Habs.
  assert (Shard.budget s ≠ 0 → k ∉ dom ⟦Shard.pol s⟧) as Hnk.
  { intros Hne. rewrite Ht by done. by apply not_elem_of_dom. }
  split; [|by split]. split; simpl; auto with inmem.
  - destruct (Z.eqb_spec (Shard.budget s) 0); [done|]. apply S3Fifo.s3_insert_wf; auto.
  - rewrite Habs, Hb. unfold Db.cost. rewrite map_sum_insert by done.
    unfold Db.entry_cost. simpl. lia.
  - intros Hne. destruct (Z.eqb_spec (Shard.budget s) 0); [done|].
    rewrite S3Fifo.s3_insert_dom, Habs, dom_insert_L by auto. by rewrite Ht.
Qed.

(** Replacing the entry of a key in place, with the byte counter adjusted. *)
Lemma overwrite_ok s k (f : FlatMap.t Entry) e e' b :
  core s → ⟦s⟧ !! k = Some e → wf f → ⟦f⟧ = <[k := e']> ⟦s⟧ →
  b = Shard.bytes s + value_bytes (value e') - value_bytes (value e) →
  becomes s (Shard.mk f (Shard.pol s) b (Shard.budget s)) (<[k := e']> ⟦s⟧).
Proof.
  intros [Hm Hp Hb Hbud Ht] Hk Hf Habs ->. rewrite shard_abs in *.
  split; [|by split]. split; simpl; auto.
  - rewrite Habs, Hb. unfold Db.cost. rewrite (map_sum_overwrite _ _ k e) by done.
    unfold Db.entry_cost. lia.
  - intros Hne. rewrite Habs, dom_insert_lookup_L by done. auto.
Qed.

(** ** Eviction *)

(** One turn of the loop of [enforce_budget]: a victim of the policy is a key
    of the index, and there is one as long as anything is stored. *)
Lemma evict_step s :
  core s → Shard.budget s ≠ 0 → Shard.budget s < Shard.bytes s →
  ∃ p v, S3Fifo.evict_one (Shard.pol s) = (p, Some v) ∧ is_Some (⟦s⟧ !! v) ∧
    becomes s (Shard.drop_key (Shard.set_pol s p) v).1 (delete v ⟦s⟧).
Proof.
  intros [Hm Hp Hb Hbud Ht] Hne Hover. rewrite shard_abs in *.
  pose proof (S3Fifo.evict_one_spec (Shard.pol s) Hp) as [Hp' Hr].
  destruct (S3Fifo.evict_one (Shard.pol s)) as [p [v|]]; simpl in *.
  - destruct Hr as [Hv Hdom]. exists p, v. rewrite Ht in * by done.
    apply elem_of_dom in Hv as Hin. split_and!; [done..|].
    destruct Hin as [e He]. unfold Shard.drop_key. simpl.
    pose proof (FlatMap.fm_remove_wf (Shard.map s) v Hm) as Hwf.
    pose proof (FlatMap.fm_remove_abs (Shard.map s) v Hm) as Habs.
    pose proof (FlatMap.fm_remove_old (Shard.map s) v Hm) as Hold.
    destruct (FlatMap.remove (Shard.map s) v) as [f r]; simpl in *. subst r. rewrite He.
    simpl. split; [|by split]. destruct (Z.eqb_spec (Shard.budget s) 0); [done|].
    split; simpl; auto with inmem.
    + rewrite Habs, Hb. unfold Db.cost. rewrite (map_sum_delete _ _ v e) by done.
      unfold Db.entry_cost. lia.
    + intros _. rewrite S3Fifo.s3_remove_dom, Hdom, Habs, dom_delete_L by done. set_solver.
  - destruct Hr as [Hemp _]. rewrite Ht in Hemp by done. apply dom_empty_inv_L in Hemp.
    rewrite Hemp in Hb. change (Db.cost ∅) with 0 in Hb. lia.
Qed.

Lemma size_delete_lt {A} (m : gmap bytes A) k :
  is_Some (m !! k) → (size (delete k m) < size m)%nat.
Proof.
  intros Hk. rewrite map_size_delete. destruct Hk as [e He]. rewrite He.
  assert (size m ≠ O); [|lia]. intros Hz%map_size_empty_iff. by rewrite Hz in He.
Qed.

(** One turn per key and one last test are enough; the loop ends within the
    budget and takes nothing when it starts within it. *)
Lemma enforce_loop_ok fuel s :
  core s → Shard.budget s ≠ 0 → (size ⟦s⟧ < fuel)%nat →
  ∃ s', Shard.enforce_loop fuel s = Some s' ∧ core s' ∧ Shard.budget s' = Shard.budget s ∧
    Db.settles (Shard.budget s) ⟦s⟧ ⟦s'⟧.
Proof.
  revert s. induction fuel as [|fuel IH]; intros s Hs Hne Hfuel; [lia|]. simpl.
  destruct (Z.ltb_spec (Shard.budget s) (Shard.bytes s)) as [Hover|Hfit].
  - destruct (evict_step s Hs Hne Hover) as (p & v & -> & Hv & Hs1 & Habs & Hbud).
    destruct (IH (Shard.drop_key (Shard.set_pol s p) v).1) as (s' & -> & Hs' & Hb' & Hset).
    { done. }
    { congruence. }
    { rewrite Habs. pose proof (size_delete_lt _ _ Hv). lia. }
    exists s'. split_and!; [done|done|congruence|]. rewrite Habs, Hbud in Hset.
    destruct Hset as (Hsub & Hfits & _). split_and!; [|done|].
    + etrans; [exact Hsub|]. apply delete_subseteq.
    + intros Hf. rewrite (core_bytes s Hs) in Hover. unfold Db.fits in Hf.
      rewrite shard_abs in Hf. lia.
  - exists s. split_and!; [done..|]. apply Db.settles_refl. right.
    rewrite shard_abs, <- (core_bytes s Hs). lia.
Qed.

Lemma enforce_budget_ok s :
  core s →
  core (Shard.enforce_budget s) ∧ Shard.budget (Shard.enforce_budget s) = Shard.budget s ∧
  Db.settles (Shard.budget s) ⟦s⟧ ⟦Shard.enforce_budget s⟧.
Proof.
  intros Hs. unfold Shard.enforce_budget.
  destruct (Z.eqb_spec (Shard.budget s) 0) as [Hz|Hne].
  - split_and!; [done..|]. apply Db.settles_refl. by left.
  - destruct (enforce_loop_ok (S (FlatMap.len (Shard.map s))) s Hs Hne) as (s' & -> & H); [|done].
    rewrite FlatMap.fm_len by apply Hs. rewrite shard_abs. lia.
Qed.

(** ** Refinement *)

(** The outcome of a shard operation against the outcome of the database's:
    the same answer, and what eviction may leave of the database's state. *)
Definition refines {R} (s : Shard.t) (out : Shard.t * R) (spec : Db.t * R) : Prop :=
  out.2 = spec.2 ∧ wf out.1 ∧ Shard.budget out.1 = Shard.budget s ∧
  Db.settles (Shard.budget s) spec.1 ⟦out.1⟧.

(** A step within the budget that evicts nothing. *)
Lemma refines_keep {R} s s' m (r : R) :
  becomes s s' m → Db.values_ok m → Db.fits (Shard.budget s) m → refines s (s', r) (m, r).
Proof.
  intros (Hc & Hm & Hb) Hv Hf. split_and!; simpl; [done| |done|].
  - unfold wf; simpl. unfold shard_ok. rewrite <- shard_abs, Hm, Hb. done.
  - rewrite Hm. auto with inmem.
Qed.

(** A step that ends in [enforce_budget]. *)
Lemma refines_enforce {R} s s' m (r : R) :
  becomes s s' m → Db.values_ok m → refines s (Shard.enforce_budget s', r) (m, r).
Proof.
  intros (Hc & Hm & Hb) Hv. destruct (enforce_budget_ok s' Hc) as (Hc' & Hb' & Hset).
  rewrite Hb, Hm in Hset. split_and!; simpl; [done| |congruence|done].
  destruct Hset as (Hsub & Hfit & _). unfold wf; simpl. unfold shard_ok.
  rewrite <- shard_abs, Hb', Hb. split_and!; [done| |done].
  by eapply Db.values_ok_subseteq.
Qed.

Lemma refines_map {R R'} (f : R → R') s out spec :
  refines s out spec → refines s (prod_map id f out) (prod_map id f spec).
Proof. destruct out, spec. intros (Hr & Hrest). simpl in *. subst. done. Qed.

(** What the test for a live key at the start of an operation finds. *)
Lemma live_cases s k now :
  core s →
  (∃ e, Shard.live s k now = (s, true) ∧ Db.find now ⟦s⟧ k = Some e ∧
     ⟦s⟧ !! k = Some e ∧ Db.purge now k ⟦s⟧ = ⟦s⟧) ∨
  (∃ s1, Shard.live s k now = (s1, false) ∧ Db.find now ⟦s⟧ k = None ∧
     Db.purge now k ⟦s⟧ = delete k ⟦s⟧ ∧ becomes s s1 (delete k ⟦s⟧)).
Proof.
  intros Hs. destruct (live_ok s k now Hs) as [Hb Hl]. unfold Db.purge in *.
  destruct (Db.find now ⟦s⟧ k) as [e|] eqn:Hf; [left|right].
  - exists e. apply Db.find_Some in Hf as [Hk Hu]. split_and!; try done.
    unfold Shard.live. rewrite FlatMap.fm_get by apply Hs. rewrite <- shard_abs, Hk. by rewrite Hu.
  - destruct (Shard.live s k now) as [s1 l]. simpl in *. subst l. by exists s1.
Qed.

Lemma wf_parts s :
  wf s → core s ∧ Db.values_ok ⟦s⟧ ∧ Db.fits (Shard.budget s) ⟦s⟧.
Proof. done. Qed.

Lemma get_abs s k : core s → FlatMap.get (Shard.map s) k = ⟦s⟧ !! k.
Proof. intros Hs. rewrite FlatMap.fm_get; [done|apply Hs]. Qed.

End invariant.

(** Splits on the outcome of the test for a live key. *)
Ltac live_case s k now Hs :=
  let e := fresh "e" in let s1 := fresh "s1" in
  let Hl := fresh "Hl" in let Hf := fresh "Hf" in
  let Hp := fresh "Hp" in let Hk := fresh "Hk" in let Hb := fresh "Hb" in
  destruct (live_cases s k now Hs) as [(e & Hl & Hf & Hk & Hp)|(s1 & Hl & Hf & Hp & Hb)];
  rewrite Hl, ?Hf, ?Hp; cbn [fst snd negb andb orb fmap option_fmap option_map];
  [|destruct Hb as (? & ? & ?)].

Section reads.
Implicit Types (s : Shard.t) (k : bytes) (m : Db.t).

(** A read that counts as an access. *)
Lemma read_collection_refines {R} now s k (f : option Value → R) :
  wf s → refines s (Shard.read_collection now s k f) (Db.read now ⟦s⟧ k f).
Proof.
  intros (Hs & Hv & Hfit)%wf_parts. unfold Shard.read_collection, Db.read.
  live_case s k now Hs.
  - destruct (touch_ok s k Hs) as (Ht & Ha & Hbu). rewrite get_abs, Ha, Hk by done.
    by apply refines_keep.
  - apply refines_keep; auto with inmem. by split_and!.
Qed.

(** A read that does not. *)
Lemma peek_refines {R} now s k (f : option Value → R) :
  wf s →
  refines s (let '(s, l) := Shard.live s k now in
             if negb l then (s, f None) else (s, f (value <$> FlatMap.get (Shard.map s) k)))
    (Db.read now ⟦s⟧ k f).
Proof.
  intros (Hs & Hv & Hfit)%wf_parts. unfold Db.read.
  live_case s k now Hs.
  - rewrite get_abs, Hk by done. apply refines_keep; auto. by apply becomes_refl.
  - apply refines_keep; auto with inmem. by split_and!.
Qed.

Lemma read_collection_ext {R} now s k (f g : option Value → R) :
  (∀ v, f v = g v) → Shard.read_collection now s k f = Shard.read_collection now s k g.
Proof.
  intros Hfg. unfold Shard.read_collection. destruct (Shard.live s k now) as [s1 []]; simpl;
    by rewrite Hfg.
Qed.

Lemma get_read now s k :
  Shard.get now s k = Shard.read_collection now s k (Db.typed Db.as_str Some None).
Proof.
  unfold Shard.get, Shard.read_collection. destruct (Shard.live s k now) as [s1 []]; simpl; [|done].
  by destruct (FlatMap.get _ k) as [[[] ?]|].
Qed.

Lemma read_str_read {R} now s k (f : StrRead → R) :
  Shard.read_str now s k f =
  Shard.read_collection now s k (fun v =>
    f match v with None => SRNone | Some (VStr s) => SRStr s | Some _ => SRWrongType end).
Proof.
  unfold Shard.read_str, Shard.read_collection.
  destruct (Shard.live s k now) as [s1 []]; simpl; [|done].
  by destruct (FlatMap.get _ k) as [[[] ?]|].
Qed.

Lemma exists_refines now s k :
  wf s →
  refines s (Shard.exists_ now s k)
    (Db.purge now k ⟦s⟧, bool_decide (is_Some (Db.find now ⟦s⟧ k))).
Proof.
  intros (Hs & Hv & Hfit)%wf_parts. unfold Shard.exists_. live_case s k now Hs.
  - apply refines_keep; auto. by apply becomes_refl.
  - apply refines_keep; auto with inmem. by split_and!.
Qed.

Lemma type_of_refines now s k :
  wf s → refines s (Shard.type_of now s k) (Db.read now ⟦s⟧ k (from_option type_name "none"%string)).
Proof.
  intros Hs. pose proof (peek_refines now s k (from_option type_name "none"%string) Hs) as Hp.
  unfold Shard.type_of. destruct (Shard.live s k now) as [s1 []]; simpl in *; [|done].
  by destruct (FlatMap.get _ k).
Qed.

Lemma strlen_refines now s k :
  wf s → refines s (Shard.strlen now s k) (Db.read now ⟦s⟧ k (Db.typed Db.as_str length O)).
Proof.
  intros Hs. pose proof (peek_refines now s k (Db.typed Db.as_str length O) Hs) as Hp.
  unfold Shard.strlen. destruct (Shard.live s k now) as [s1 []]; simpl in *; [|done].
  by destruct (FlatMap.get _ k) as [[[] ?]|].
Qed.

Lemma pttl_refines now s k :
  wf s →
  refines s (Shard.pttl now s k)
    (Db.purge now k ⟦s⟧,
     match Db.find now ⟦s⟧ k with
     | None => NoKey
     | Some e => match expire_at e with None => NoExpiry | Some t => Millis (t - now) end
     end).
Proof.
  intros (Hs & Hv & Hfit)%wf_parts. unfold Shard.pttl. live_case s k now Hs.
  - rewrite get_abs, Hk by done. apply Db.find_Some in Hf as [_ Hu].
    unfold Shard.unexpired in Hu. simpl.
    destruct (expire_at e) as [x|]; [|apply refines_keep; auto; by apply becomes_refl].
    rewrite Z.max_l by (apply negb_true_iff, Z.leb_gt in Hu; lia).
    apply refines_keep; auto. by apply becomes_refl.
  - apply refines_keep; auto with inmem. by split_and!.
Qed.

End reads.

Section writes.
Implicit Types (s : Shard.t) (k : bytes) (m : Db.t).

(** A key that is stored, whether it was there or not, replaces the entry. *)
Lemma put_after_drop s k v x e :
  core s → ⟦s⟧ !! k = Some e →
  becomes s (Shard.put_new (Shard.drop_key s k).1 k v x) (<[k := mkEntry v x]> ⟦s⟧).
Proof.
  intros Hs Hk. destruct (drop_key_ok s k Hs) as [(Hc & Ha & Hb) _].
  eapply becomes_trans; [by split_and!|]. rewrite <- insert_delete_eq, <- Ha.
  apply put_new_ok; [done|]. rewrite Ha. apply lookup_delete_eq.
Qed.

Lemma put_after_purge s s1 k v x :
  becomes s s1 (delete k ⟦s⟧) →
  becomes s (Shard.put_new s1 k v x) (<[k := mkEntry v x]> ⟦s⟧).
Proof.
  intros Hb. eapply becomes_trans; [exact Hb|]. destruct Hb as (Hc & Ha & _).
  rewrite <- insert_delete_eq, <- Ha. apply put_new_ok; [done|]. rewrite Ha.
  apply lookup_delete_eq.
Qed.

Lemma set_refines now s k v o :
  wf s → refines s (Shard.set now s k v o) (Db.set now ⟦s⟧ k v o).
Proof.
  intros (Hs & Hv & Hfit)%wf_parts. unfold Shard.set, Db.set. live_case s k now Hs.
  - rewrite andb_true_r, andb_false_r. destruct (nx o).
    { apply refines_keep; auto. by apply becomes_refl. }
    rewrite !get_abs, Hk by done. rewrite andb_true_r. cbn [mbind option_bind].
    set (e' := mkEntry (VStr v) _).
    apply refines_enforce; [|by apply Db.values_ok_insert].
    unfold Shard.bytes_at. rewrite get_abs, Hk by done.
    pose proof (core_map s Hs) as Hm. pose proof (overwrite_ok s k
      (FlatMap.modify (Shard.map s) k (fun _ => e')) e e'
      (Shard.bytes s + zlen v - value_bytes (value e)) Hs Hk) as Hov.
    eapply becomes_trans; [apply Hov; auto with inmem|].
    + rewrite FlatMap.fm_modify_abs by done. by apply (alter_alt_Some (fun _ => e') _ _ e).
    + destruct Hov as (Hc & Ha & _); auto with inmem.
      { rewrite FlatMap.fm_modify_abs by done. by apply (alter_alt_Some (fun _ => e') _ _ e). }
      pose proof (touch_ok _ k Hc) as Ht. rewrite Ha in Ht. exact Ht.
  - rewrite andb_false_r, andb_true_r. destruct (xx o).
    { apply refines_keep; auto with inmem. by split_and!. }
    apply refines_enforce; [|by apply Db.values_ok_insert].
    rewrite andb_false_r. apply put_after_purge. by split_and!.
Qed.

Lemma del_refines now s k :
  wf s →
  refines s (Shard.del now s k) (delete k ⟦s⟧, bool_decide (is_Some (Db.find now ⟦s⟧ k))).
Proof.
  intros (Hs & Hv & Hfit)%wf_parts. unfold Shard.del. live_case s k now Hs.
  - destruct (drop_key_ok s k Hs) as [Hb Hr]. rewrite Hk in Hr.
    destruct (Shard.drop_key s k) as [s1 r]. simpl in *. subst r.
    apply refines_keep; auto with inmem.
  - apply refines_keep; auto with inmem. by split_and!.
Qed.

Lemma set_expire_at_refines now s k at_ :
  wf s →
  refines s (Shard.set_expire_at now s k at_)
    match Db.find now ⟦s⟧ k with
    | Some e => (<[k := mkEntry (value e) at_]> ⟦s⟧, true)
    | None => (Db.purge now k ⟦s⟧, false)
    end.
Proof.
  intros (Hs & Hv & Hfit)%wf_parts. unfold Shard.set_expire_at. live_case s k now Hs.
  - pose proof (FlatMap.fm_get_mut (Shard.map s) k (core_map s Hs)) as Hg.
    rewrite <- shard_abs, Hk in Hg.
    destruct (FlatMap.get_mut (Shard.map s) k) as [[e1 put]|]; [|done].
    destruct Hg as [[= <-] Hput]. destruct (Hput (mkEntry (value e) at_)) as [Hwf Habs].
    assert (becomes s (Shard.set_map s (put (mkEntry (value e) at_)))
              (<[k := mkEntry (value e) at_]> ⟦s⟧)) as Hb.
    { apply (overwrite_ok s k _ e); auto. simpl. lia. }
    apply refines_keep; [done| |].
    + apply Db.values_ok_insert; [done|]. exact (Hv k e Hk).
    + unfold Db.fits, Db.cost in *. rewrite (map_sum_overwrite _ _ k e) by done.
      unfold Db.entry_cost in *. simpl. lia.
  - apply refines_keep; auto with inmem. by split_and!.
Qed.

Lemma append_refines now s k suffix :
  wf s → refines s (Shard.append now s k suffix) (Db.append now ⟦s⟧ k suffix).
Proof.
  intros (Hs & Hv & Hfit)%wf_parts. unfold Shard.append, Db.append, Db.rewrite_str.
  live_case s k now Hs.
  - rewrite get_abs, Hk by done. cbn [fmap option_fmap option_map andb].
    destruct (value e) as [v| | | |] eqn:Hve;
      try (apply refines_keep; auto; by apply becomes_refl).
    rewrite length_app. apply refines_enforce; [|by apply Db.values_ok_insert].
    by eapply put_after_drop.
  - cbn [andb]. rewrite app_nil_l. apply refines_enforce; [|by apply Db.values_ok_insert].
    apply put_after_purge. by split_and!.
Qed.

Lemma incr_by_refines now s k delta :
  wf s → refines s (Shard.incr_by now s k delta) (Db.incr_by now ⟦s⟧ k delta).
Proof.
  intros (Hs & Hv & Hfit)%wf_parts. unfold Shard.incr_by, Db.incr_by, Db.rewrite_str.
  unfold Shard.checked_add. live_case s k now Hs.
  - rewrite get_abs, Hk by done. cbn [fmap option_fmap option_map mbind option_bind].
    destruct (value e) as [v| | | |] eqn:Hve;
      try (apply refines_keep; auto; by apply becomes_refl).
    destruct (Shard.parse_counter v) as [n|];
      [|apply refines_keep; auto; by apply becomes_refl].
    destruct (in_i64 (n + delta)); [|apply refines_keep; auto; by apply becomes_refl].
    apply refines_enforce; [|by apply Db.values_ok_insert].
    by eapply put_after_drop.
  - change (Shard.parse_counter (lit "0")) with (Some 0). cbv beta iota.
    destruct (in_i64 (0 + delta)); [|apply refines_keep; auto with inmem; by split_and!].
    apply refines_enforce; [|by apply Db.values_ok_insert].
    apply put_after_purge. by split_and!.
Qed.

(** The part of [with_collection!] after the entry is ensured. *)
Definition run_body {C R} `{Collection C} s k (body : C → C * R) : Shard.t * Result R :=
  let before := Shard.bytes_at s k in
  match FlatMap.get_mut (Shard.map s) k with
  | Some (e, put) =>
      match as_variant (value e) with
      | Some c =>
          let '(c', r) := body c in
          let s := Shard.set_map s (put (mkEntry (variant c') (expire_at e))) in
          let after := Shard.bytes_at s k in
          let s := Shard.set_bytes s (Shard.bytes s + after - before) in
          let s := Shard.touch s k in
          let empty :=
            match FlatMap.get (Shard.map s) k with
            | Some e => match as_variant (value e) with Some c => coll_is_empty c | None => false end
            | None => false
            end in
          if (empty : bool) then ((Shard.drop_key s k).1, Ok r) else (Shard.enforce_budget s, Ok r)
      | None => (s, Err WRONGTYPE)
      end
  | None => (s, Err "entry was just ensured")
  end.

Lemma with_collection_run {C R} `{Collection C} now s k (body : C → C * R) :
  Shard.with_collection now s k body =
  let '(s, existed) := Shard.live s k now in
  run_body (if (existed : bool) then s else Shard.put_new s k (variant make) None) k body.
Proof. unfold Shard.with_collection. by destruct (Shard.live s k now). Qed.

Section run_body.
Context {C R} `{CollectionOk C} (body : C → C * R).

Lemma run_body_ok s s1 k m e c :
  becomes s s1 m → m !! k = Some e → as_variant (value e) = Some c →
  Db.values_ok (delete k m) → Db.fits (Shard.budget s) (delete k m) →
  coll_inv (body c).1 →
  refines s (run_body s1 k body)
    (if coll_is_empty (body c).1 then delete k m
     else <[k := mkEntry (variant (body c).1) (expire_at e)]> m, Ok (body c).2).
Proof.
  intros (Hc & Ha & Hb) Hk Hv Hok Hfit Hinv. unfold run_body.
  pose proof (FlatMap.fm_get_mut (Shard.map s1) k (core_map s1 Hc)) as Hg.
  rewrite <- shard_abs, Ha, Hk in Hg.
  destruct (FlatMap.get_mut (Shard.map s1) k) as [[e1 put]|]; [|done].
  destruct Hg as [[= <-] Hput]. rewrite Hv. destruct (body c) as [c' r]. simpl in Hinv |- *.
  set (e' := mkEntry (variant c') (expire_at e)). destruct (Hput e') as [Hwf Habs].
  assert (Shard.bytes_at s1 k = value_bytes (value e)) as ->.
  { unfold Shard.bytes_at. by rewrite get_abs, Ha, Hk. }
  unfold Shard.bytes_at.
  cbn [Shard.set_map Shard.map]. rewrite (FlatMap.fm_get (put e')), Habs, lookup_insert_eq by done.
  set (s2 := Shard.set_bytes _ _).
  assert (becomes s s2 (<[k := e']> m)) as Hs2.
  { eapply becomes_trans; [by split_and!|]. rewrite <- Ha. apply (overwrite_ok s1 k _ e); auto.
    - by rewrite Ha.
    - by rewrite Ha. }
  assert (becomes s (Shard.touch s2 k) (<[k := e']> m)) as Hs3.
  { eapply becomes_trans; [exact Hs2|]. destruct Hs2 as (Hc2 & <- & _). by apply touch_ok. }
  destruct Hs3 as (Hc3 & Ha3 & Hb3). rewrite get_abs, Ha3, lookup_insert_eq by done. simpl.
  rewrite as_variant_variant. destruct (coll_is_empty c') eqn:Hemp.
  - destruct (drop_key_ok _ k Hc3) as [Hd _]. rewrite Ha3, delete_insert_eq in Hd.
    apply refines_keep; [|done..]. eapply becomes_trans; [by split_and!|exact Hd].
  - apply refines_enforce; [by split_and!|].
    rewrite <- insert_delete_eq. apply Db.values_ok_insert; [done|]. simpl.
    by apply value_ok_variant.
Qed.

Lemma with_collection_refines now s k :
  body_ok body → wf s →
  refines s (Shard.with_collection now s k body) (Db.update now ⟦s⟧ k body).
Proof.
  intros Hbody (Hs & Hv & Hfit)%wf_parts. rewrite with_collection_run. unfold Db.update.
  live_case s k now Hs.
  - destruct (as_variant (value e)) as [c|] eqn:Hc.
    + pose proof (run_body_ok s s k ⟦s⟧ e c (becomes_refl s Hs) Hk Hc) as Hrun.
      destruct (body c) as [c' r] eqn:Hbc. simpl in Hrun. apply Hrun; auto with inmem.
      pose proof (Hbody c) as Hi. rewrite Hbc in Hi. apply Hi.
      pose proof (Hv k e Hk) as Hve. apply variant_as_variant in Hc. rewrite Hc in Hve.
      by apply value_ok_variant in Hve as [? _].
    + unfold run_body.
      pose proof (FlatMap.fm_get_mut (Shard.map s) k (core_map s Hs)) as Hg.
      rewrite <- shard_abs, Hk in Hg.
      destruct (FlatMap.get_mut (Shard.map s) k) as [[e1 put]|]; [|done].
      destruct Hg as [[= <-] _]. rewrite Hc. apply refines_keep; auto. by apply becomes_refl.
  - assert (becomes s (Shard.put_new s1 k (variant make) None)
              (<[k := mkEntry (variant make) None]> ⟦s⟧)) as Hb
      by (apply put_after_purge; by split_and!).
    pose proof (run_body_ok s _ k _ (mkEntry (variant make) None) make Hb
      (lookup_insert_eq _ _ _) (as_variant_variant _)) as Hrun.
    rewrite delete_insert_eq, insert_insert_eq in Hrun. simpl in Hrun.
    pose proof (Hbody make make_inv).
    destruct (body make) as [c' r]. simpl in Hrun |- *. apply Hrun; auto with inmem.
Qed.
End run_body.

End writes.

(** ** The whole interface *)

Section exec.
Context {HO : HashOrder}.
Implicit Types (s : Shard.t).

Definition shard_exec (now : Z) (s : Shard.t) (o : Op) : Shard.t * Ret :=
  match o with
  | OGet k => prod_map id RStr (Shard.get now s k)
  | OSet k v o => prod_map id RBool (Shard.set now s k v o)
  | ODel k => prod_map id RBool (Shard.del now s k)
  | OExists k => prod_map id RBool (Shard.exists_ now s k)
  | OTypeOf k => prod_map id RType (Shard.type_of now s k)
  | OExpireAt k at_ => prod_map id RBool (Shard.set_expire_at now s k at_)
  | OPttl k => prod_map id RTtl (Shard.pttl now s k)
  | OIncrBy k delta => prod_map id RInt (Shard.incr_by now s k delta)
  | OAppend k suffix => prod_map id RLen (Shard.append now s k suffix)
  | OStrlen k => prod_map id RLen (Shard.strlen now s k)
  | OPush k vals side => prod_map id RLen (Shard.push now s k vals side)
  | OPop k count side => prod_map id RItems (Shard.pop now s k count side)
  | OLlen k => prod_map id RLen (Shard.llen now s k)
  | OLrange k start stop => prod_map id RItems (Shard.lrange now s k start stop)
  | OHset k pairs => prod_map id RLen (Shard.hset now s k pairs)
  | OHget k f => prod_map id RStr (Shard.hget now s k f)
  | OHdel k fields => prod_map id RLen (Shard.hdel now s k fields)
  | OHlen k => prod_map id RLen (Shard.hlen now s k)
  | OHgetall k => prod_map id RPairs (Shard.hgetall now s k)
  | OSadd k ms => prod_map id RLen (Shard.sadd now s k ms)
  | OSrem k ms => prod_map id RLen (Shard.srem now s k ms)
  | OSismember k x => prod_map id RFlag (Shard.sismember now s k x)
  | OScard k => prod_map id RLen (Shard.scard now s k)
  | OSmembers k => prod_map id RItems (Shard.smembers now s k)
  | OZadd k pairs => prod_map id RLen (Shard.zadd now s k pairs)
  | OZrem k ms => prod_map id RLen (Shard.zrem now s k ms)
  | OZscore k x => prod_map id RScore (Shard.zscore now s k x)
  | OZcard k => prod_map id RLen (Shard.zcard now s k)
  | OZrange k start stop => prod_map id RScored (Shard.zrange now s k start stop)
  end.

Lemma read_typed {C R} `{Collection C} now s k (f : C → R) (absent : R) g :
  (∀ v, g v = Db.typed as_variant f absent v) → wf s →
  refines s (Shard.read_collection now s k g) (Db.read now ⟦s⟧ k (Db.typed as_variant f absent)).
Proof.
  intros Hg Hs. rewrite (read_collection_ext _ _ _ _ _ Hg). by apply read_collection_refines.
Qed.

Lemma shard_exec_refines now s o :
  wf s → op_ok o → refines s (shard_exec now s o) (Db.exec now ⟦s⟧ o).
Proof.
  intros Hs Ho. destruct o; cbn [shard_exec Db.exec];
    try (apply refines_map, read_typed; [by intros [[]|]|done]);
    try (apply refines_map, with_collection_refines; [auto with inmem|done]).
  - apply refines_map. rewrite get_read. by apply read_collection_refines.
  - by apply refines_map, set_refines.
  - exact (refines_map RBool _ _ _ (del_refines now s k Hs)).
  - exact (refines_map RBool _ _ _ (exists_refines now s k Hs)).
  - by apply refines_map, type_of_refines.
  - pose proof (refines_map RBool _ _ _ (set_expire_at_refines now s k at_ Hs)) as Hr.
    by destruct (Db.find now ⟦s⟧ k).
  - exact (refines_map RTtl _ _ _ (pttl_refines now s k Hs)).
  - by apply refines_map, incr_by_refines.
  - by apply refines_map, append_refines.
  - by apply refines_map, strlen_refines.
Qed.

End exec.

(** ** Whole-shard operations *)

Section sweep.
Implicit Types (s : Shard.t).

Lemma new_ok hs b : 0 <= b → wf (Shard.new hs b) ∧ ⟦Shard.new hs b⟧ = ∅.
Proof.
  intros Hb. split; [|done]. split; [by apply new_core|]. split.
  - intros k e He. exfalso. exact (lookup_empty_Some k e He).
  - by right.
Qed.

Lemma drop_keys_ok s ks :
  core s → NoDup ks → (∀ k, k ∈ ks → is_Some (⟦s⟧ !! k)) →
  let r := foldl (fun '(s, removed) k =>
             let '(s, dropped) := Shard.drop_key s k in
             (s, if (dropped : bool) then S removed else removed)) in
  ∀ n, becomes s (r (s, n) ks).1 (filter (fun p => p.1 ∉ ks) ⟦s⟧) ∧
       (r (s, n) ks).2 = (n + length ks)%nat.
Proof.
  intros Hs Hnd Hin r n. revert s n Hs Hin.
  induction Hnd as [|k ks Hk Hnd IH]; intros s n Hs Hin; simpl.
  - split; [|lia]. rewrite map_filter_id; [by apply becomes_refl|].
    intros. apply not_elem_of_nil.
  - destruct (drop_key_ok s k Hs) as [(Hc & Ha & Hb) Hd].
    rewrite bool_decide_eq_true_2 in Hd by (apply Hin; left).
    destruct (Shard.drop_key s k) as [s1 d]. simpl in *. subst d.
    destruct (IH s1 (S n)) as [Hbec ->]; [done| |].
    { intros j Hj. rewrite Ha, lookup_delete_ne by congruence. apply Hin. by right. }
    split; [|lia]. eapply becomes_trans; [by split_and!|]. rewrite Ha in Hbec.
    replace (filter (fun p => p.1 ∉ k :: ks) ⟦s⟧)
      with (filter (fun p : bytes * Entry => p.1 ∉ ks) (delete k ⟦s⟧)); [done|].
    apply map_eq. intros j. apply option_eq. intros e.
    rewrite !map_lookup_filter_Some, lookup_delete_Some, not_elem_of_cons. simpl. naive_solver.
Qed.

Lemma keys_NoDup (P : bytes * Entry → Prop) `{∀ p, Decision (P p)} s :
  core s → NoDup ((filter P (FlatMap.iter (Shard.map s))).*1).
Proof.
  intros Hs. eapply sublist_NoDup; [|apply fmap_sublist, sublist_filter].
  rewrite (FlatMap.fm_iter (Shard.map s)) by apply Hs. apply NoDup_fst_map_to_list.
Qed.

Lemma elem_of_keys (P : bytes * Entry → Prop) `{∀ p, Decision (P p)} s k :
  core s → k ∈ (filter P (FlatMap.iter (Shard.map s))).*1 ↔ ∃ e, ⟦s⟧ !! k = Some e ∧ P (k, e).
Proof.
  intros Hs. rewrite list_elem_of_fmap. setoid_rewrite list_elem_of_filter.
  setoid_rewrite (FlatMap.fm_iter (Shard.map s) (core_map s Hs)).
  split.
  - intros ([k' e] & -> & HP & He%elem_of_map_to_list). by exists e.
  - intros (e & He & HP). exists (k, e). by rewrite elem_of_map_to_list.
Qed.

(** [purge_expired] removes exactly the expired entries, and counts them. *)
Lemma purge_expired_ok now s :
  wf s →
  refines s (Shard.purge_expired now s)
    (filter (fun p => Shard.unexpired now p.2 = true) ⟦s⟧,
     size (filter (fun p => Shard.unexpired now p.2 = false) ⟦s⟧)).
Proof.
  intros (Hs & Hv & Hfit)%wf_parts. unfold Shard.purge_expired.
  set (ks := Shard.expired_keys now s).
  assert (∀ k, k ∈ ks ↔ ∃ e, ⟦s⟧ !! k = Some e ∧ Shard.unexpired now e = false) as Hks
    by (intros k; by apply elem_of_keys).
  assert (NoDup ks) as Hnd by (by apply keys_NoDup).
  destruct (drop_keys_ok s ks Hs Hnd) with (n := O) as [Hb Hn].
  { intros k (e & He & _)%Hks. by exists e. }
  destruct (foldl _ (s, O) ks) as [s' n]. simpl in Hn, Hb. subst n.
  assert (filter (fun p : bytes * Entry => p.1 ∉ ks) ⟦s⟧ =
          filter (fun p => Shard.unexpired now p.2 = true) ⟦s⟧) as Heq.
  { apply map_filter_ext. intros k e He. simpl. rewrite Hks.
    destruct (Shard.unexpired now e) eqn:Hu; [|naive_solver].
    split; [done|]. intros _ (e' & He' & Hu'). congruence. }
  assert (length ks = size (filter (fun p => Shard.unexpired now p.2 = false) ⟦s⟧)) as Hlen.
  { rewrite <- size_dom, <- (size_list_to_set (C := gset bytes) ks Hnd). f_equal.
    apply set_eq. intros k. rewrite elem_of_list_to_set, Hks, elem_of_dom.
    unfold is_Some. setoid_rewrite map_lookup_filter_Some. done. }
  rewrite Hlen, Heq in *. apply refines_keep; [done|..].
  - eapply Db.values_ok_subseteq; [done|]. apply map_filter_subseteq.
  - eapply Db.fits_subseteq; [|done]. apply map_filter_subseteq.
Qed.

(** [keys] lists the live keys, each once. *)
Lemma keys_ok now s :
  wf s →
  NoDup (Shard.keys now s) ∧
  ∀ k, k ∈ Shard.keys now s ↔ is_Some (Db.find now ⟦s⟧ k).
Proof.
  intros (Hs & Hv & Hfit)%wf_parts. split; [by apply keys_NoDup|]. intros k.
  unfold Shard.keys. rewrite elem_of_keys by done. unfold is_Some.
  setoid_rewrite Db.find_Some. done.
Qed.

End sweep.
