(* ===== verification/Store.v ===== *)
(** * The sharded store ([crates/core/src/store.rs], lines 249 to 785)

    A store is a vector of shards, each behind its own lock.  An operation on
    a key runs on the shard the key is routed to; an operation on the whole
    store visits the shards one by one.  The router is [ahash] with fixed
    seeds: a parameter.  A key operation is atomic: it holds the lock of its
    one shard from the test for expiry to the end. *)
From S2P Require Import Prelude Std Map Eviction Value Shard Spec ShardOk.
Local Open Scope Z_scope.

#[export] Instance shard_inhabited : Inhabited Shard.t :=
  populate (Shard.new (mkHashers (fun _ => 0) (fun _ => 0) (fun _ => 0)) 0).

Module Store.

Record t := mk { shards : list Shard.t; mask : Z; router : bytes → Z }.

(** [seeds i] are the random states drawn for shard [i]. *)
Definition new (seeds : nat → Hashers) (router : bytes → Z) (nshards : nat) (maxmemory : Z) : t :=
  let n := FlatMap.next_power_of_two (nshards `max` 1) in
  let per_shard := if maxmemory =? 0 then 0 else Z.max (maxmemory / Z.of_nat n) 1 in
  mk ((fun i => Shard.new (seeds i) per_shard) <$> seq 0 n) (Z.of_nat n - 1) router.

(** The index of [shard]; [shards[i]] panics out of range, and [index_in_range]
    shows it never is. *)
Definition shard_index (st : t) (key : bytes) : nat :=
  Z.to_nat (Z.land (router st key) (mask st)).

Definition shard (st : t) (key : bytes) : Shard.t := shards st !!! shard_index st key.

(** Lock the shard of [key], run [f] on it, unlock.  The source reads the time
    before it waits for the lock; the time is an argument of the operations, and
    the readings of the clock are any sequence ([Commands.World]), not an increasing
    one, so a time that is stale when the lock is taken is among the cases. *)
Definition on_shard {R : Type} (st : t) (key : bytes) (f : Shard.t → Shard.t * R) : t * R :=
  let '(s, r) := f (shard st key) in
  (mk (<[shard_index st key := s]> (shards st)) (mask st) (router st), r).

Definition shard_count (st : t) : nat := length (shards st).

(** ** Key operations *)

Definition get now st key := on_shard st key (fun s => Shard.get now s key).
Definition read_str {R : Type} now st key (f : StrRead → R) :=
  on_shard st key (fun s => Shard.read_str now s key f).
Definition set now st key val opts := on_shard st key (fun s => Shard.set now s key val opts).
Definition del now st key := on_shard st key (fun s => Shard.del now s key).
Definition exists_ now st key := on_shard st key (fun s => Shard.exists_ now s key).
Definition type_of now st key := on_shard st key (fun s => Shard.type_of now s key).
Definition expire_at now st key at_ := on_shard st key (fun s => Shard.set_expire_at now s key at_).
Definition pttl now st key := on_shard st key (fun s => Shard.pttl now s key).
Definition incr_by now st key delta := on_shard st key (fun s => Shard.incr_by now s key delta).
Definition append now st key suffix := on_shard st key (fun s => Shard.append now s key suffix).
Definition strlen now st key := on_shard st key (fun s => Shard.strlen now s key).
Definition push now st key vals left := on_shard st key (fun s => Shard.push now s key vals left).
Definition pop now st key count left := on_shard st key (fun s => Shard.pop now s key count left).
Definition llen now st key := on_shard st key (fun s => Shard.llen now s key).
Definition lrange now st key start stop :=
  on_shard st key (fun s => Shard.lrange now s key start stop).
Definition hset now st key pairs := on_shard st key (fun s => Shard.hset now s key pairs).
Definition hget now st key field := on_shard st key (fun s => Shard.hget now s key field).
Definition hdel now st key fields := on_shard st key (fun s => Shard.hdel now s key fields).
Definition hlen now st key := on_shard st key (fun s => Shard.hlen now s key).
Definition hgetall {HO : HashOrder} now st key := on_shard st key (fun s => Shard.hgetall now s key).
Definition sadd now st key members := on_shard st key (fun s => Shard.sadd now s key members).
Definition srem now st key members := on_shard st key (fun s => Shard.srem now s key members).
Definition sismember now st key m := on_shard st key (fun s => Shard.sismember now s key m).
Definition scard now st key := on_shard st key (fun s => Shard.scard now s key).
Definition smembers {HO : HashOrder} now st key := on_shard st key (fun s => Shard.smembers now s key).
Definition zadd now st key pairs := on_shard st key (fun s => Shard.zadd now s key pairs).
Definition zrem now st key members := on_shard st key (fun s => Shard.zrem now s key members).
Definition zscore now st key m := on_shard st key (fun s => Shard.zscore now s key m).
Definition zcard now st key := on_shard st key (fun s => Shard.zcard now s key).
Definition zrange now st key start stop :=
  on_shard st key (fun s => Shard.zrange now s key start stop).

(** ** Whole-store operations *)

Definition dbsize (st : t) : nat := sum_list ((fun s => FlatMap.len (Shard.map s)) <$> shards st).

(** [seeds i] are the random states drawn for the new shard [i]. *)
Definition flush_all (seeds : nat → Hashers) (st : t) : t :=
  mk (imap (fun i s => Shard.flush (seeds i) s) (shards st)) (mask st) (router st).

(** The part of it under the lock of shard [i]. *)
Definition flush_shard (hs : Hashers) (i : nat) (st : t) : t :=
  mk (alter (Shard.flush hs) i (shards st)) (mask st) (router st).

Definition purge_expired (now : Z) (st : t) : t * nat :=
  let r := Shard.purge_expired now <$> shards st in
  (mk r.*1 (mask st) (router st), sum_list r.*2).

(** The part of it under the lock of shard [i]. *)
Definition purge_shard (now : Z) (i : nat) (st : t) : t * nat :=
  (mk (alter (fun s => (Shard.purge_expired now s).1) i (shards st)) (mask st) (router st),
   (Shard.purge_expired now (shards st !!! i)).2).

Definition keys (now : Z) (st : t) : list bytes := shards st ≫= Shard.keys now.

(** Every key operation by its name. *)
Definition exec {HO : HashOrder} (now : Z) (st : t) (o : Op) : t * Ret :=
  match o with
  | OGet k => prod_map id RStr (get now st k)
  | OSet k v o => prod_map id RBool (set now st k v o)
  | ODel k => prod_map id RBool (del now st k)
  | OExists k => prod_map id RBool (exists_ now st k)
  | OTypeOf k => prod_map id RType (type_of now st k)
  | OExpireAt k at_ => prod_map id RBool (expire_at now st k at_)
  | OPttl k => prod_map id RTtl (pttl now st k)
  | OIncrBy k delta => prod_map id RInt (incr_by now st k delta)
  | OAppend k suffix => prod_map id RLen (append now st k suffix)
  | OStrlen k => prod_map id RLen (strlen now st k)
  | OPush k vals side => prod_map id RLen (push now st k vals side)
  | OPop k count side => prod_map id RItems (pop now st k count side)
  | OLlen k => prod_map id RLen (llen now st k)
  | OLrange k start stop => prod_map id RItems (lrange now st k start stop)
  | OHset k pairs => prod_map id RLen (hset now st k pairs)
  | OHget k f => prod_map id RStr (hget now st k f)
  | OHdel k fields => prod_map id RLen (hdel now st k fields)
  | OHlen k => prod_map id RLen (hlen now st k)
  | OHgetall k => prod_map id RPairs (hgetall now st k)
  | OSadd k ms => prod_map id RLen (sadd now st k ms)
  | OSrem k ms => prod_map id RLen (srem now st k ms)
  | OSismember k x => prod_map id RFlag (sismember now st k x)
  | OScard k => prod_map id RLen (scard now st k)
  | OSmembers k => prod_map id RItems (smembers now st k)
  | OZadd k pairs => prod_map id RLen (zadd now st k pairs)
  | OZrem k ms => prod_map id RLen (zrem now st k ms)
  | OZscore k x => prod_map id RScore (zscore now st k x)
  | OZcard k => prod_map id RLen (zcard now st k)
  | OZrange k start stop => prod_map id RScored (zrange now st k start stop)
  end.

End Store.
