(* ===== verification/StoreOk.v ===== *)
(** * The store implements the database

    The invariant of the sharded store, its refinement of the database of
    [Spec.v], the memory bound, and what interleaved operations may rely on. *)
From S2P Require Import Prelude Std Map Eviction Value Shard Spec ShardOk Store.
Local Open Scope Z_scope.

(** ** The invariant *)

Section invariant.
Implicit Types (st : Store.t) (s : Shard.t) (k : bytes).

(** The budget every shard has. *)
Definition shard_budget (st : Store.t) : Z := Shard.budget (Store.shards st !!! 0%nat).

Record store_ok (st : Store.t) : Prop := {
  st_pow : ∃ p, length (Store.shards st) = (2 ^ p)%nat;
  st_mask : Store.mask st = zlen (Store.shards st) - 1;
  st_shards : ∀ i s, Store.shards st !! i = Some s → wf s;
  st_budget : ∀ i s, Store.shards st !! i = Some s → Shard.budget s = shard_budget st;
  st_routed : ∀ i s k, Store.shards st !! i = Some s → is_Some (⟦s⟧ !! k) →
    Store.shard_index st k = i
}.

Definition union_all (ms : list Db.t) : Db.t := foldr (∪) ∅ ms.

#[export] Instance store_represents : Represents Store.t Db.t :=
  {| wf := store_ok; absf st := union_all (absf <$> Store.shards st) |}.

Lemma union_all_lookup (ms : list Db.t) i k :
  (∀ j m, ms !! j = Some m → is_Some (m !! k) → j = i) →
  union_all ms !! k = ms !! i ≫= lookup k.
Proof.
  revert i. induction ms as [|m ms IH]; intros i Hi; simpl; [by rewrite lookup_empty|].
  destruct i as [|i]; simpl.
  - destruct (m !! k) as [e|] eqn:Hm; [by apply lookup_union_Some_l|].
    rewrite lookup_union_r by done. rewrite (IH (length ms)).
    + by rewrite lookup_ge_None_2 by lia.
    + intros j m' Hj Hk. exfalso. specialize (Hi (S j) m' Hj Hk). lia.
  - rewrite lookup_union_r.
    + apply IH. intros j m' Hj Hk. specialize (Hi (S j) m' Hj Hk). lia.
    + apply eq_None_not_Some. intros Hk. specialize (Hi O m eq_refl Hk). lia.
Qed.

Lemma union_all_empty ms : Forall (.= ∅) ms → union_all ms = ∅.
Proof. induction 1 as [|m ms -> _ IH]; [done|]. simpl. by rewrite IH, map_empty_union. Qed.

(** The index the router gives is always that of a shard. *)
Lemma index_in_range st k : wf st → (Store.shard_index st k < length (Store.shards st))%nat.
Proof.
  intros Hst. unfold Store.shard_index. destruct (st_pow st Hst) as [p Hp].
  rewrite (st_mask st Hst). unfold zlen. rewrite Hp.
  replace (Z.of_nat (2 ^ p) - 1) with (Z.ones (Z.of_nat p))
    by (rewrite Z.ones_equiv, Nat2Z.inj_pow; lia).
  rewrite Z.land_ones by lia.
  pose proof (Z.mod_pos_bound (Store.router st k) (2 ^ Z.of_nat p)) as Hb.
  rewrite <- (Nat2Z.id (2 ^ p)), Nat2Z.inj_pow. apply Z2Nat.inj_lt; lia.
Qed.

Lemma shard_lookup st k :
  wf st → Store.shards st !! Store.shard_index st k = Some (Store.shard st k).
Proof. intros Hst. apply list_lookup_lookup_total_lt. by apply index_in_range. Qed.

Lemma shard_wf st k : wf st → wf (Store.shard st k).
Proof. intros Hst. eapply st_shards; [done|]. by apply shard_lookup. Qed.

Lemma shard_budget_eq st k : wf st → Shard.budget (Store.shard st k) = shard_budget st.
Proof. intros Hst. eapply st_budget; [done|]. by apply shard_lookup. Qed.

(** A key is in the store when it is in its shard. *)
Lemma store_lookup st k : wf st → ⟦st⟧ !! k = ⟦Store.shard st k⟧ !! k.
Proof.
  intros Hst. unfold absf at 1; simpl. rewrite (union_all_lookup _ (Store.shard_index st k)).
  - by rewrite list_lookup_fmap, shard_lookup.
  - intros j m. rewrite list_lookup_fmap, fmap_Some. intros (s & Hs & ->) Hk.
    symmetry. by eapply st_routed.
Qed.

Lemma shard_subseteq st i s : wf st → Store.shards st !! i = Some s → ⟦s⟧ ⊆ ⟦st⟧.
Proof.
  intros Hst Hi. apply map_subseteq_spec. intros k e Hk. rewrite store_lookup by done.
  assert (Store.shard_index st k = i) as Heq by (by eapply st_routed; eauto).
  pose proof (shard_lookup st k Hst) as Hl. rewrite Heq, Hi in Hl. by injection Hl as <-.
Qed.

(** Replacing the shard of [k] by a well-formed one whose keys are old ones, or
    [k]. *)
Lemma replace_shard_ok st k s' :
  wf st → wf s' → Shard.budget s' = shard_budget st →
  (∀ j, is_Some (⟦s'⟧ !! j) → Store.shard_index st j = Store.shard_index st k) →
  let st' := Store.mk (<[Store.shard_index st k := s']> (Store.shards st))
               (Store.mask st) (Store.router st) in
  wf st' ∧ shard_budget st' = shard_budget st ∧
  ∀ j, ⟦st'⟧ !! j = if decide (Store.shard_index st j = Store.shard_index st k)
                    then ⟦s'⟧ !! j else ⟦st⟧ !! j.
Proof.
  intros Hst Hs' Hb' Hroute st'. set (i := Store.shard_index st k) in *.
  pose proof (index_in_range st k Hst) as Hi. fold i in Hi.
  assert (∀ j s, Store.shards st' !! j = Some s →
            (j = i ∧ s = s') ∨ (j ≠ i ∧ Store.shards st !! j = Some s)) as Hcases.
  { intros j s Hj. simpl in Hj. apply list_lookup_insert_Some in Hj. naive_solver. }
  assert (shard_budget st' = shard_budget st) as Hb.
  { unfold shard_budget at 1. simpl. destruct (decide (i = O)) as [Heq|Hne].
    - rewrite Heq, list_lookup_total_insert_eq by lia. done.
    - by rewrite list_lookup_total_insert_ne. }
  assert (wf st') as Hwf.
  { split; simpl.
    - rewrite length_insert. apply Hst.
    - unfold zlen. rewrite length_insert. apply Hst.
    - intros j s [[-> ->]|[_ Hj]]%Hcases; [done|exact (st_shards st Hst j s Hj)].
    - intros j s [[-> ->]|[_ Hj]]%Hcases; rewrite Hb; [done|exact (st_budget st Hst j s Hj)].
    - intros j s l [[-> ->]|[_ Hj]]%Hcases Hl; [by apply Hroute|exact (st_routed st Hst j s l Hj Hl)]. }
  split_and!; [done..|]. intros j. rewrite store_lookup by done.
  unfold Store.shard. change (Store.shard_index st' j) with (Store.shard_index st j). simpl.
  destruct (decide (Store.shard_index st j = i)) as [->|Hne].
  - by rewrite list_lookup_total_insert_eq.
  - rewrite list_lookup_total_insert_ne by done. by rewrite store_lookup.
Qed.

End invariant.

(** ** Refinement of key operations *)

Section refinement.
Context {HO : HashOrder}.
Implicit Types (now : Z) (st : Store.t) (k : bytes) (o : Op).

Lemma on_shard_map {R R' : Type} (g : R → R') st k (f : Shard.t → Shard.t * R) :
  prod_map id g (Store.on_shard st k f) = Store.on_shard st k (fun s => prod_map id g (f s)).
Proof. unfold Store.on_shard. by destruct (f (Store.shard st k)). Qed.

Lemma exec_on_shard now st o :
  Store.exec now st o = Store.on_shard st (op_key o) (fun s => shard_exec now s o).
Proof. destruct o; apply on_shard_map. Qed.

(** The entries of a database that are routed where [k] is. *)
Definition shard_part st k (m : Db.t) : Db.t :=
  filter (fun p => Store.shard_index st p.1 = Store.shard_index st k) m.

Lemma shard_part_lookup st k (m : Db.t) j :
  shard_part st k m !! j =
  if decide (Store.shard_index st j = Store.shard_index st k) then m !! j else None.
Proof.
  unfold shard_part. rewrite map_lookup_filter.
  destruct (m !! j) as [x|]; simpl; repeat case_decide; repeat case_guard; done.
Qed.

(** What an operation on a bounded store may lose: keys of the shard it ran
    on, and only when that shard would not fit its budget. *)
Definition sharded_settles st k (m m' : Db.t) : Prop :=
  m' ⊆ m ∧
  (∀ j, Store.shard_index st j ≠ Store.shard_index st k → m' !! j = m !! j) ∧
  (Db.fits (shard_budget st) (shard_part st k m) → m' = m).

Definition same_layout st st' : Prop :=
  Store.router st' = Store.router st ∧ Store.mask st' = Store.mask st ∧
  length (Store.shards st') = length (Store.shards st) ∧ shard_budget st' = shard_budget st.

Lemma same_layout_refl st : same_layout st st.
Proof. done. Qed.

Lemma same_layout_trans st1 st2 st3 : same_layout st1 st2 → same_layout st2 st3 → same_layout st1 st3.
Proof. unfold same_layout. intros (-> & -> & -> & ->). done. Qed.

Lemma same_layout_index st st' k : same_layout st st' → Store.shard_index st' k = Store.shard_index st k.
Proof. unfold Store.shard_index. by intros (-> & -> & _). Qed.

(** The database of one shard, seen from the store. *)
Lemma shard_filter st k :
  wf st →
  ⟦Store.shard st k⟧ = shard_part st k ⟦st⟧.
Proof.
  intros Hst. apply map_eq. intros j. apply option_eq. intros e. unfold shard_part.
  rewrite map_lookup_filter_Some, store_lookup by done. simpl. split.
  - intros Hj. assert (Store.shard_index st j = Store.shard_index st k) as Heq.
    { eapply st_routed; [done|by apply shard_lookup|by exists e]. }
    unfold Store.shard in *. by rewrite Heq.
  - intros [Hj Heq]. unfold Store.shard in *. by rewrite <- Heq.
Qed.

Lemma store_exec_ok now st o :
  wf st → op_ok o →
  let out := Store.exec now st o in let spec := Db.exec now ⟦st⟧ o in
  out.2 = spec.2 ∧ wf out.1 ∧ same_layout st out.1 ∧
  sharded_settles st (op_key o) spec.1 ⟦out.1⟧.
Proof.
  intros Hst Ho. rewrite exec_on_shard. unfold Store.on_shard.
  set (k := op_key o). set (s := Store.shard st k).
  pose proof (shard_exec_refines now s o (shard_wf st k Hst) Ho) as (Hr & Hwf & Hbud & Hset).
  destruct (Db.exec_local now o) as [Hloc Hframe]. fold k in Hloc, Hframe.
  destruct (Hloc ⟦st⟧ ⟦s⟧ (store_lookup st k Hst)) as [Hret Hk].
  destruct (shard_exec now s o) as [s' r]. simpl in *.
  unfold s in Hbud, Hset. rewrite shard_budget_eq in Hbud, Hset by done. fold s in Hset.
  destruct Hset as (Hsub & _ & Heq).
  assert (∀ j, Store.shard_index st j = Store.shard_index st k →
            (Db.exec now ⟦s⟧ o).1 !! j = (Db.exec now ⟦st⟧ o).1 !! j) as Hown.
  { intros j Hj. destruct (decide (j = k)) as [->|Hne]; [done|].
    rewrite !Hframe, store_lookup by done. unfold s, Store.shard. by rewrite Hj. }
  assert (∀ j, is_Some (⟦s'⟧ !! j) → Store.shard_index st j = Store.shard_index st k) as Hroute.
  { intros j [e Hj]. eapply lookup_weaken in Hj; [|exact Hsub].
    destruct (decide (j = k)) as [->|Hne]; [done|]. rewrite Hframe in Hj by done.
    eapply st_routed; [done|by apply shard_lookup|by exists e]. }
  destruct (replace_shard_ok st k s' Hst Hwf Hbud Hroute) as (Hst' & Hb' & Hlk).
  split_and!; [congruence|done| |].
  { split_and!; simpl; auto using length_insert. }
  split_and!.
  - apply map_subseteq_spec. intros j e. rewrite Hlk. case_decide as Hj.
    + intros He. rewrite <- Hown by done. by eapply lookup_weaken.
    + intros He. rewrite Hframe by congruence. done.
  - intros j Hj. rewrite Hlk, decide_False, Hframe by congruence. done.
  - intros Hfit. apply map_eq. intros j. rewrite Hlk. case_decide as Hj.
    + rewrite <- Hown by done. f_equal. apply Heq.
      replace (Db.exec now ⟦s⟧ o).1 with (shard_part st k (Db.exec now ⟦st⟧ o).1); [done|].
      apply map_eq. intros l. rewrite shard_part_lookup.
      case_decide as Hl; [by rewrite Hown|]. rewrite Hframe by congruence. unfold s.
      rewrite shard_filter, shard_part_lookup by done.
      by rewrite decide_False.
    + by rewrite Hframe by congruence.
Qed.

End refinement.

(** ** Whole-store operations *)

Section whole.
Implicit Types (now : Z) (st : Store.t) (k : bytes).

Lemma new_store_ok seeds router n mm :
  0 <= mm →
  let st := Store.new seeds router n mm in
  wf st ∧ ⟦st⟧ = ∅ ∧
  shard_budget st =
    (if mm =? 0 then 0 else Z.max (mm / zlen (Store.shards st)) 1).
Proof.
  intros Hmm st. set (c := FlatMap.next_power_of_two (n `max` 1)).
  set (b := if mm =? 0 then 0 else Z.max (mm / Z.of_nat c) 1).
  assert (0 <= b) as Hb by (unfold b; case_match; lia).
  assert (∀ i s, Store.shards st !! i = Some s → ∃ j, s = Shard.new (seeds j) b) as Hsh.
  { intros i s Hi. simpl in Hi. apply list_lookup_fmap_Some in Hi as (j & -> & _). by exists j. }
  assert (length (Store.shards st) = c) as Hlen by (simpl; by rewrite length_fmap, length_seq).
  assert (0 < c)%nat as Hc.
  { unfold c, FlatMap.next_power_of_two. pose proof (Nat.pow_nonzero 2 (Nat.log2_up (n `max` 1))).
    lia. }
  assert (shard_budget st = b) as Hsb.
  { unfold shard_budget. destruct (Hsh O (Store.shards st !!! 0%nat)) as [j ->]; [|done].
    apply list_lookup_lookup_total_lt. lia. }
  split_and!.
  - split.
    + exists (Nat.log2_up (n `max` 1)). exact Hlen.
    + unfold zlen. by rewrite Hlen.
    + intros i s [j ->]%Hsh. by apply new_ok.
    + intros i s [j ->]%Hsh. by rewrite Hsb.
    + intros i s k [j ->]%Hsh. destruct (new_ok (seeds j) b Hb) as [_ ->].
      rewrite lookup_empty. by intros [].
  - apply union_all_empty, Forall_fmap, Forall_lookup. intros i s [j ->]%Hsh. done.
  - rewrite Hsb. unfold b, zlen. by rewrite Hlen.
Qed.

(** A pass over the shards that only removes entries. *)
Lemma sweep_ok st shards' :
  wf st → length shards' = length (Store.shards st) →
  (∀ i s s', Store.shards st !! i = Some s → shards' !! i = Some s' →
     wf s' ∧ Shard.budget s' = Shard.budget s ∧ ⟦s'⟧ ⊆ ⟦s⟧) →
  let st' := Store.mk shards' (Store.mask st) (Store.router st) in
  wf st' ∧ same_layout st st' ∧
  ∀ k, ⟦st'⟧ !! k = ⟦shards' !!! Store.shard_index st k⟧ !! k.
Proof.
  intros Hst Hlen Hsh st'.
  assert (∀ i s', shards' !! i = Some s' → ∃ s, Store.shards st !! i = Some s) as Hold.
  { intros i s' Hi. apply lookup_lt_is_Some. rewrite <- Hlen. by eapply lookup_lt_Some. }
  assert (∀ i s', shards' !! i = Some s' → Shard.budget s' = shard_budget st) as Hbud.
  { intros i s' Hi. destruct (Hold i s' Hi) as [s Hs]. destruct (Hsh i s s' Hs Hi) as (_ & -> & _).
    exact (st_budget st Hst i s Hs). }
  assert (shard_budget st' = shard_budget st) as Hb.
  { apply (Hbud O). apply list_lookup_lookup_total_lt. simpl. rewrite Hlen.
    pose proof (index_in_range st [] Hst). lia. }
  assert (wf st') as Hwf.
  { split; simpl.
    - rewrite Hlen. apply Hst.
    - unfold zlen. rewrite Hlen. apply Hst.
    - intros i s' Hi. destruct (Hold i s' Hi) as [s Hs]. by destruct (Hsh i s s' Hs Hi).
    - intros i s' Hi. rewrite Hb. by eapply Hbud.
    - intros i s' k Hi [e He]. destruct (Hold i s' Hi) as [s Hs].
      destruct (Hsh i s s' Hs Hi) as (_ & _ & Hsub).
      eapply lookup_weaken in He; [|exact Hsub].
      exact (st_routed st Hst i s k Hs (mk_is_Some _ _ He)). }
  split_and!; [done|by split_and!|]. intros k. by rewrite store_lookup.
Qed.

Lemma flush_all_ok seeds st :
  wf st →
  wf (Store.flush_all seeds st) ∧ same_layout st (Store.flush_all seeds st) ∧
  ⟦Store.flush_all seeds st⟧ = ∅.
Proof.
  intros Hst. unfold Store.flush_all.
  set (shards' := imap _ _).
  assert (∀ i s s', Store.shards st !! i = Some s → shards' !! i = Some s' →
            wf s' ∧ Shard.budget s' = Shard.budget s ∧ ⟦s'⟧ = ∅) as Hsh.
  { intros i s s' Hi. unfold shards'. rewrite list_lookup_imap, Hi. intros [= <-].
    assert (0 <= Shard.budget s) as Hb by apply (st_shards st Hst i s Hi).
    by destruct (new_ok (seeds i) (Shard.budget s) Hb). }
  destruct (sweep_ok st shards' Hst) as (Hwf & Hlay & Hlk).
  - apply length_imap.
  - intros i s s' Hi Hi'. destruct (Hsh i s s' Hi Hi') as (? & ? & ->).
    split_and!; [done..|]. apply map_empty_subseteq.
  - split_and!; [done..|]. apply map_eq. intros k. rewrite Hlk, lookup_empty.
    pose proof (shard_lookup st k Hst) as Hi.
    destruct (Hsh _ _ (shards' !!! Store.shard_index st k) Hi) as (_ & _ & ->);
      [|apply lookup_empty].
    apply list_lookup_lookup_total_lt. unfold shards'. rewrite length_imap.
    by apply index_in_range.
Qed.

(** A change of one shard. *)
Lemma alter_shard_ok (g : Shard.t → Shard.t) i st :
  wf st → (∀ s, wf s → wf (g s) ∧ Shard.budget (g s) = Shard.budget s ∧ ⟦g s⟧ ⊆ ⟦s⟧) →
  let st' := Store.mk (alter g i (Store.shards st)) (Store.mask st) (Store.router st) in
  wf st' ∧ same_layout st st' ∧
  ∀ k, ⟦st'⟧ !! k = if decide (Store.shard_index st k = i) then ⟦g (Store.shard st k)⟧ !! k else ⟦st⟧ !! k.
Proof.
  intros Hst Hg. cbv zeta. set (shards' := alter _ _ _).
  destruct (sweep_ok st shards' Hst) as (Hwf & Hlay & Hlk).
  - apply length_alter.
  - intros j s s' Hj Hj'. pose proof (st_shards st Hst j s Hj) as Hs. unfold shards' in Hj'.
    destruct (decide (i = j)) as [->|Hne].
    + rewrite list_lookup_alter_eq, Hj in Hj'. injection Hj' as <-. by apply Hg.
    + rewrite list_lookup_alter_ne, Hj in Hj' by done. by injection Hj' as <-.
  - split_and!; [done..|]. intros k. rewrite Hlk. pose proof (shard_lookup st k Hst) as Hi.
    unfold shards'. destruct (decide (Store.shard_index st k = i)) as [<-|Hne].
    + erewrite list_lookup_total_correct; [done|]. by rewrite list_lookup_alter_eq, Hi.
    + erewrite list_lookup_total_correct; [|rewrite list_lookup_alter_ne by done; exact Hi].
      by rewrite store_lookup.
Qed.

Lemma flush_shard_ok hs i st :
  wf st →
  wf (Store.flush_shard hs i st) ∧ same_layout st (Store.flush_shard hs i st) ∧
  ∀ k, ⟦Store.flush_shard hs i st⟧ !! k = if decide (Store.shard_index st k = i) then None else ⟦st⟧ !! k.
Proof.
  intros Hst. assert (∀ s, wf s → wf (Shard.flush hs s) ∧ ⟦Shard.flush hs s⟧ = ∅) as Hnew
    by (intros s Hs; apply (new_ok hs (Shard.budget s)), Hs).
  destruct (alter_shard_ok (Shard.flush hs) i st Hst) as (Hwf & Hlay & Hlk).
  - intros s Hs. destruct (Hnew s Hs) as [Hw ->]. split_and!; [done..|]. apply map_empty_subseteq.
  - split_and!; [done..|]. intros k. unfold Store.flush_shard. rewrite Hlk. case_decide; [|done].
    destruct (Hnew (Store.shard st k)) as [_ ->]; [|apply lookup_empty].
    apply (st_shards st Hst _ _ (shard_lookup st k Hst)).
Qed.

(** *** Sums over the shards *)

Lemma map_sum_union (f : bytes → Entry → Z) (m1 m2 : Db.t) :
  m1 ##ₘ m2 → map_sum f (m1 ∪ m2) = map_sum f m1 + map_sum f m2.
Proof.
  induction m1 as [|k e m1 Hk IH] using map_ind; intros Hd.
  { by rewrite map_empty_union, map_sum_empty. }
  apply map_disjoint_insert_l in Hd as [Hk2 Hd].
  rewrite <- insert_union_l, !map_sum_insert, IH by (done || by apply lookup_union_None). lia.
Qed.

Definition separated (ms : list Db.t) : Prop :=
  ∀ i j m m' k, ms !! i = Some m → ms !! j = Some m' →
    is_Some (m !! k) → is_Some (m' !! k) → i = j.

Lemma separated_cons m ms : separated (m :: ms) → separated ms ∧ m ##ₘ union_all ms.
Proof.
  intros Hsep. split.
  - intros i j m1 m2 k Hi Hj H1 H2. specialize (Hsep (S i) (S j) m1 m2 k Hi Hj H1 H2). lia.
  - apply map_disjoint_spec. intros k x y Hx. rewrite (union_all_lookup ms (length ms)).
    + rewrite lookup_ge_None_2 by lia. done.
    + intros j m' Hj Hk. exfalso.
      specialize (Hsep O (S j) m m' k eq_refl Hj (mk_is_Some _ _ Hx) Hk). lia.
Qed.

Lemma store_separated st : wf st → separated (absf <$> Store.shards st).
Proof.
  intros Hst i j m m' k. rewrite !list_lookup_fmap_Some.
  intros (s & -> & Hs) (s' & -> & Hs') Hk Hk'.
  transitivity (Store.shard_index st k); [symmetry|]; by eapply st_routed; eauto.
Qed.

Lemma union_all_size (ms : list Db.t) :
  separated ms → size (union_all ms) = sum_list (size <$> ms).
Proof.
  induction ms as [|m ms IH]; intros Hsep; simpl; [apply map_size_empty|].
  apply separated_cons in Hsep as [Hsep Hd]. by rewrite map_size_disj_union, IH.
Qed.

Definition sum_Z (l : list Z) : Z := foldr Z.add 0 l.

Lemma union_all_cost (ms : list Db.t) :
  separated ms → Db.cost (union_all ms) = sum_Z (Db.cost <$> ms).
Proof.
  induction ms as [|m ms IH]; intros Hsep; simpl; [done|].
  apply separated_cons in Hsep as [Hsep Hd]. unfold Db.cost at 1.
  rewrite map_sum_union by done. fold (Db.cost m) (Db.cost (union_all ms)). by rewrite IH.
Qed.

(** The bytes all the shards have accounted for. *)
Definition total_bytes st : Z := sum_Z (Shard.bytes <$> Store.shards st).

Lemma total_bytes_cost st : wf st → total_bytes st = Db.cost ⟦st⟧.
Proof.
  intros Hst. unfold absf; simpl. rewrite union_all_cost by (by apply store_separated).
  unfold total_bytes. rewrite <- list_fmap_compose. f_equal. apply list_fmap_ext.
  intros i s Hs. by apply (st_shards st Hst i s Hs).
Qed.

Lemma dbsize_ok st : wf st → Store.dbsize st = size ⟦st⟧.
Proof.
  intros Hst. unfold absf; simpl. rewrite union_all_size by (by apply store_separated).
  unfold Store.dbsize. rewrite <- list_fmap_compose. f_equal. apply list_fmap_ext.
  intros i s Hs. apply FlatMap.fm_len. by apply (st_shards st Hst i s Hs).
Qed.

Lemma NoDup_bind_index {A B} (f : A → list B) l :
  (∀ i j x y b, l !! i = Some x → l !! j = Some y → b ∈ f x → b ∈ f y → i = j) →
  (∀ i x, l !! i = Some x → NoDup (f x)) → NoDup (l ≫= f).
Proof.
  induction l as [|x l IH]; intros Hsep Hnd; csimpl; [constructor|].
  apply NoDup_app. split_and!; [exact (Hnd O x eq_refl)| |].
  - intros b Hb (y & Hy & [j Hj]%list_elem_of_lookup)%list_elem_of_bind.
    specialize (Hsep O (S j) x y b eq_refl Hj Hb Hy). lia.
  - apply IH; [|intros i y Hi; exact (Hnd (S i) y Hi)].
    intros i j y z b Hi Hj Hy Hz. specialize (Hsep (S i) (S j) y z b Hi Hj Hy Hz). lia.
Qed.

Lemma keys_store_ok now st :
  wf st →
  NoDup (Store.keys now st) ∧ ∀ k, k ∈ Store.keys now st ↔ is_Some (Db.find now ⟦st⟧ k).
Proof.
  intros Hst. unfold Store.keys. split.
  - apply NoDup_bind_index.
    + intros i j s s' k Hi Hj Hk Hk'.
      apply (keys_ok now s) in Hk; [|exact (st_shards st Hst i s Hi)].
      apply (keys_ok now s') in Hk'; [|exact (st_shards st Hst j s' Hj)].
      destruct Hk as [e [He _]%Db.find_Some], Hk' as [e' [He' _]%Db.find_Some].
      rewrite <- (st_routed st Hst i s k Hi (mk_is_Some _ _ He)).
      exact (st_routed st Hst j s' k Hj (mk_is_Some _ _ He')).
    + intros i s Hi. apply keys_ok. exact (st_shards st Hst i s Hi).
  - intros k. rewrite list_elem_of_bind. rewrite (Db.find_local now _ _ _ (store_lookup st k Hst)).
    split.
    + intros (s & Hk & [i Hi]%list_elem_of_lookup).
      apply (keys_ok now s) in Hk; [|exact (st_shards st Hst i s Hi)].
      pose proof Hk as [e [He _]%Db.find_Some].
      pose proof (shard_lookup st k Hst) as Hl.
      rewrite (st_routed st Hst i s k Hi (mk_is_Some _ _ He)), Hi in Hl. by injection Hl as <-.
    + intros Hk. exists (Store.shard st k). split.
      * apply keys_ok; [by apply shard_wf|done].
      * apply list_elem_of_lookup. eexists. by apply shard_lookup.
Qed.

Lemma sum_list_fmap_add {A} (f g h : A → nat) l :
  (∀ i x, l !! i = Some x → (f x + g x = h x)%nat) →
  (sum_list (f <$> l) + sum_list (g <$> l) = sum_list (h <$> l))%nat.
Proof.
  induction l as [|x l IH]; intros Hl; csimpl; [done|].
  pose proof (Hl O x eq_refl). rewrite <- IH by (intros i y Hi; exact (Hl (S i) y Hi)). lia.
Qed.

Lemma unexpired_split now (m : Db.t) :
  (size (filter (fun p => Shard.unexpired now p.2 = false) m) +
   size (filter (fun p => Shard.unexpired now p.2 = true) m) = size m)%nat.
Proof.
  rewrite <- (map_filter_union_complement (fun p => Shard.unexpired now p.2 = false) m) at 3.
  rewrite map_size_disj_union by apply map_disjoint_filter_complement.
  do 2 f_equal. apply map_filter_ext. intros k e _. simpl. by rewrite not_false_iff_true.
Qed.

Lemma purge_shard_ok now i st :
  wf st →
  let st' := (Store.purge_shard now i st).1 in
  wf st' ∧ same_layout st st' ∧
  ∀ k, ⟦st'⟧ !! k = if decide (Store.shard_index st k = i)
    then filter (fun p => Shard.unexpired now p.2 = true) ⟦st⟧ !! k else ⟦st⟧ !! k.
Proof.
  intros Hst. assert (∀ s, wf s → wf (Shard.purge_expired now s).1 ∧
    Shard.budget (Shard.purge_expired now s).1 = Shard.budget s ∧
    ⟦(Shard.purge_expired now s).1⟧ = filter (fun p => Shard.unexpired now p.2 = true) ⟦s⟧) as Hsh.
  { intros s Hs. destruct (purge_expired_ok now s Hs) as (Hr & Hwf & Hb & _ & _ & Heq). split_and!; [done..|].
    apply Heq. eapply Db.fits_subseteq; [|apply Hs]. apply map_filter_subseteq. }
  destruct (alter_shard_ok (fun s => (Shard.purge_expired now s).1) i st Hst) as (Hwf & Hlay & Hlk).
  - intros s Hs. destruct (Hsh s Hs) as (? & ? & ->). split_and!; [done..|]. apply map_filter_subseteq.
  - split_and!; [done..|]. intros k. cbn [Store.purge_shard fst]. rewrite Hlk. case_decide; [|done].
    destruct (Hsh (Store.shard st k)) as (_ & _ & Ha); [apply (st_shards st Hst _ _ (shard_lookup st k Hst))|].
    rewrite Ha, !map_lookup_filter. by rewrite store_lookup.
Qed.

Lemma purge_expired_store_ok now st :
  wf st →
  let '(st', removed) := Store.purge_expired now st in
  wf st' ∧ same_layout st st' ∧
  ⟦st'⟧ = filter (fun p => Shard.unexpired now p.2 = true) ⟦st⟧ ∧
  (removed + size ⟦st'⟧ = size ⟦st⟧)%nat.
Proof.
  intros Hst. unfold Store.purge_expired. rewrite <- !list_fmap_compose.
  set (st' := Store.mk _ _ _).
  assert (∀ i s, Store.shards st !! i = Some s →
    wf (Shard.purge_expired now s).1 ∧
    Shard.budget (Shard.purge_expired now s).1 = Shard.budget s ∧
    ⟦(Shard.purge_expired now s).1⟧ = filter (fun p => Shard.unexpired now p.2 = true) ⟦s⟧ ∧
    (Shard.purge_expired now s).2 =
      size (filter (fun p => Shard.unexpired now p.2 = false) ⟦s⟧)) as Hsh.
  { intros i s Hi. pose proof (st_shards st Hst i s Hi) as Hs.
    destruct (purge_expired_ok now s Hs) as (Hr & Hwf & Hb & _ & _ & Heq).
    split_and!; [done..| |done]. apply Heq. eapply Db.fits_subseteq; [|apply Hs].
    apply map_filter_subseteq. }
  destruct (sweep_ok st (Store.shards st')) as (Hwf & Hlay & Hlk); [done|apply length_fmap|..].
  { intros i s s' Hi. simpl. rewrite list_lookup_fmap, Hi. intros [= <-].
    destruct (Hsh i s Hi) as (? & ? & Ha & _). split_and!; [done..|]. simpl. rewrite Ha.
    apply map_filter_subseteq. }
  split_and!; [done..| |].
  - apply map_eq. intros k. rewrite Hlk. simpl.
    erewrite list_lookup_total_correct; [|by rewrite list_lookup_fmap, shard_lookup].
    destruct (Hsh _ _ (shard_lookup st k Hst)) as (_ & _ & Ha & _).
    simpl in *. rewrite Ha, !map_lookup_filter. by rewrite store_lookup.
  - rewrite <- !dbsize_ok by done. unfold Store.dbsize. simpl. rewrite <- list_fmap_compose.
    apply (sum_list_fmap_add (snd ∘ Shard.purge_expired now)
             ((fun s => FlatMap.len (Shard.map s)) ∘ (fst ∘ Shard.purge_expired now))).
    intros i s Hi. destruct (Hsh i s Hi) as (Hw & _ & Ha & Hn). simpl. rewrite Hn.
    rewrite (FlatMap.fm_len (Shard.map s)), FlatMap.fm_len;
      [|apply Hw|apply (st_shards st Hst i s Hi)].
    rewrite <- !shard_abs, Ha. apply unexpired_split.
Qed.

End whole.

(** ** Histories *)

(** The stores a server can reach: any operations, at any clock readings. *)
Inductive reach {HO : HashOrder} (maxmemory : Z) : Store.t → Prop :=
  | reach_new seeds router n : reach maxmemory (Store.new seeds router n maxmemory)
  | reach_exec now st o :
      reach maxmemory st → op_ok o → reach maxmemory (Store.exec now st o).1
  | reach_flush_all seeds st : reach maxmemory st → reach maxmemory (Store.flush_all seeds st)
  | reach_flush_shard hs i st : reach maxmemory st → reach maxmemory (Store.flush_shard hs i st)
  | reach_purge_expired now st :
      reach maxmemory st → reach maxmemory (Store.purge_expired now st).1
  | reach_purge_shard now i st : reach maxmemory st → reach maxmemory (Store.purge_shard now i st).1.

Section histories.
Context {HO : HashOrder}.
Implicit Types (now : Z) (st : Store.t) (k : bytes).

Lemma reach_ok mm st :
  0 <= mm → reach mm st →
  wf st ∧
  shard_budget st = (if mm =? 0 then 0 else Z.max (mm / zlen (Store.shards st)) 1).
Proof.
  intros Hmm. induction 1 as [seeds router n|now st o _ [Hst Hb] Ho|seeds st _ [Hst Hb]
    |hs i st _ [Hst Hb]|now st _ [Hst Hb]|now i st _ [Hst Hb]].
  - by destruct (new_store_ok seeds router n mm Hmm) as (? & _ & ?).
  - destruct (store_exec_ok now st o Hst Ho) as (_ & Hwf & (_ & _ & Hl & Hb') & _).
    split; [done|]. rewrite Hb', Hb. unfold zlen. by rewrite Hl.
  - destruct (flush_all_ok seeds st Hst) as (Hwf & (_ & _ & Hl & Hb') & _).
    split; [done|]. rewrite Hb', Hb. unfold zlen. by rewrite Hl.
  - destruct (flush_shard_ok hs i st Hst) as (Hwf & (_ & _ & Hl & Hb') & _).
    split; [done|]. rewrite Hb', Hb. unfold zlen. by rewrite Hl.
  - pose proof (purge_expired_store_ok now st Hst) as Hp.
    destruct (Store.purge_expired now st) as [st' r]. destruct Hp as (Hwf & (_ & _ & Hl & Hb') & _).
    simpl. split; [done|]. rewrite Hb', Hb. unfold zlen. by rewrite Hl.
  - destruct (purge_shard_ok now i st Hst) as (Hwf & (_ & _ & Hl & Hb') & _).
    split; [done|]. rewrite Hb', Hb. unfold zlen. by rewrite Hl.
Qed.

End histories.
