(* ===== verification/StoreProps.v ===== *)
(** * Properties of the store

    What a client of the store may rely on, in any state a server can reach. *)
From S2P Require Import Prelude Std Map Eviction Value Shard Spec ShardOk Store StoreOk.
Local Open Scope Z_scope.

(** ** Runs *)

(** A sequence of operations, each at its clock reading. *)
Fixpoint run_ops {S : Type} (step : Z → S → Op → S * Ret) (s : S) (ops : list (Z * Op))
    : S * list Ret :=
  match ops with
  | [] => (s, [])
  | (now, o) :: ops =>
      let '(s, r) := step now s o in
      let '(s, rs) := run_ops step s ops in (s, r :: rs)
  end.

(** The messages of the errors an operation can answer with. *)
Definition ret_error (r : Ret) : option string :=
  let err {A} (r : Result A) := match r with Ok _ => None | Err e => Some e end in
  match r with
  | RStr r => err r | RInt r => err r | RLen r => err r | RItems r => err r
  | RPairs r => err r | RFlag r => err r | RScore r => err r | RScored r => err r
  | RBool _ | RType _ | RTtl _ => None
  end.

Section runs.
Context {HO : HashOrder}.
Implicit Types (now : Z) (st : Store.t) (k : bytes).

Lemma unbounded_run_ok st ops :
  wf st → shard_budget st = 0 → Forall (fun p => op_ok p.2) ops →
  (run_ops Store.exec st ops).2 = (run_ops Db.exec ⟦st⟧ ops).2 ∧
  ⟦(run_ops Store.exec st ops).1⟧ = (run_ops Db.exec ⟦st⟧ ops).1.
Proof.
  intros Hst Hb Hops. revert st Hst Hb.
  induction Hops as [|[now o] ops Ho Hops IH]; intros st Hst Hb; [done|]. cbn [run_ops].
  destruct (store_exec_ok now st o Hst Ho) as (Hr & Hwf & (_ & _ & _ & Hb') & _ & _ & Heq).
  specialize (Heq ltac:(left; exact Hb)).
  destruct (Store.exec now st o) as [st' r]. simpl in *.
  destruct (Db.exec now ⟦st⟧ o) as [m' r']. simpl in *. subst.
  specialize (IH st' Hwf ltac:(congruence)) as [IHr IHs].
  destruct (run_ops Store.exec st' ops), (run_ops Db.exec ⟦st'⟧ ops).
  simpl in *. by rewrite IHr, IHs.
Qed.

Lemma db_errors now (m : Db.t) o :
  match ret_error (Db.exec now m o).2 with
  | None => True
  | Some e => e = WRONGTYPE ∨ e = Shard.NOT_AN_INTEGER ∨ e = Shard.OVERFLOW
  end.
Proof.
  destruct o; simpl; unfold Db.read, Db.update, Db.typed, Db.incr_by, Db.append, Db.rewrite_str;
    repeat case_match; simplify_eq/=; auto.
Qed.

(** *** Memory *)

Lemma cost_small (m : Db.t) : Db.cost m <= 1 → Db.cost m = 0.
Proof.
  destruct (decide (m = ∅)) as [->|Hne]; [done|].
  apply map_choose in Hne as (k & e & Hk). unfold Db.cost.
  rewrite (map_sum_delete _ m k e Hk). fold (Db.cost (delete k m)).
  pose proof (Db.cost_nonneg (delete k m)). unfold Db.entry_cost, key_overhead, ENTRY_OVERHEAD.
  pose proof (zlen_nonneg k). pose proof (value_bytes_nonneg (value e)). lia.
Qed.

Lemma sum_Z_le (l : list Z) b : Forall (fun x => x <= b) l → sum_Z l <= zlen l * b.
Proof. unfold zlen. induction 1 as [|x l Hx _ IH]; simpl in *; lia. Qed.

Lemma total_bytes_bound mm st :
  0 < mm → wf st → shard_budget st = Z.max (mm / zlen (Store.shards st)) 1 →
  total_bytes st <= mm.
Proof.
  intros Hmm Hst Hb. set (n := zlen (Store.shards st)) in *.
  assert (0 < n) as Hn.
  { unfold n, zlen. pose proof (index_in_range st [] Hst). lia. }
  assert (∀ s, s ∈ Store.shards st → Shard.bytes s <= mm / n) as Hle.
  { intros s [i Hi]%list_elem_of_lookup. pose proof (st_shards st Hst i s Hi) as (Hc & _ & Hf).
    pose proof (st_budget st Hst i s Hi) as Hbs. rewrite Hb in Hbs.
    rewrite (core_bytes s Hc). unfold Db.fits in Hf. rewrite Hbs in Hf.
    pose proof (Z.div_pos mm n ltac:(lia) Hn).
    destruct (Z.max_spec (mm / n) 1) as [[Hlt Hm]|[Hge Hm]]; rewrite Hm in Hf; [|lia].
    rewrite cost_small by lia. lia. }
  assert (total_bytes st <= n * (mm / n)) as Hsum.
  { unfold total_bytes. etrans; [apply (sum_Z_le _ (mm / n))|].
    - apply Forall_fmap, Forall_forall. exact Hle.
    - unfold zlen. rewrite length_fmap. done. }
  pose proof (Z.mul_div_le mm n Hn). lia.
Qed.

(** *** Counters *)

Lemma parse_counter_to_string z :
  in_i64 z = true → Shard.parse_counter (i64_to_string z) = Some z.
Proof.
  intros Hz. pose proof (parse_i64_to_string z Hz) as Hp. unfold parse_i64_bytes in Hp.
  unfold Shard.parse_counter. rewrite from_utf8_ascii in * by apply i64_to_string_ascii.
  simpl in *. by rewrite trim_id by apply i64_to_string_no_space.
Qed.

Fixpoint prefix_sums (acc : Z) (ds : list Z) : list Z :=
  match ds with [] => [] | d :: ds => (acc + d) :: prefix_sums (acc + d) ds end.

Definition incr_calls k (calls : list (Z * Z)) : list (Z * Op) :=
  (fun p => (p.1, OIncrBy k p.2)) <$> calls.

Lemma incr_by_counter now (m : Db.t) k acc d :
  match m !! k with
  | None => acc = 0
  | Some e => e = mkEntry (VStr (i64_to_string acc)) None ∧ in_i64 acc = true
  end →
  in_i64 (acc + d) = true →
  Db.exec now m (OIncrBy k d) =
  (<[k := mkEntry (VStr (i64_to_string (acc + d))) None]> m, RInt (Ok (acc + d))).
Proof.
  intros Hk Hd. cbn [Db.exec]. unfold Db.incr_by, Db.rewrite_str, Db.find.
  destruct (m !! k) as [e|]; simpl.
  - destruct Hk as [-> Hacc]. simpl. by rewrite parse_counter_to_string, Hd.
  - subst acc. change (Shard.parse_counter (lit "0")) with (Some 0).
    rewrite Z.add_0_l in *. cbn [from_option]. rewrite !Z.add_0_l. by rewrite Hd.
Qed.

Lemma db_incr_run (m : Db.t) k acc calls :
  match m !! k with
  | None => acc = 0
  | Some e => e = mkEntry (VStr (i64_to_string acc)) None ∧ in_i64 acc = true
  end →
  Forall (fun z => in_i64 z = true) (prefix_sums acc calls.*2) →
  (run_ops Db.exec m (incr_calls k calls)).2 =
    (fun z => RInt (Ok z)) <$> prefix_sums acc calls.*2 ∧
  (run_ops Db.exec m (incr_calls k calls)).1 =
    match last (prefix_sums acc calls.*2) with
    | None => m
    | Some z => <[k := mkEntry (VStr (i64_to_string z)) None]> m
    end.
Proof.
  revert m acc. induction calls as [|[now d] calls IH]; intros m acc Hk Hok; [done|].
  simpl in Hok. apply Forall_cons in Hok as [Hd Hok].
  cbn [incr_calls fmap list_fmap run_ops fst snd]. rewrite (incr_by_counter _ _ _ acc) by done.
  destruct (IH (<[k := mkEntry (VStr (i64_to_string (acc + d))) None]> m) (acc + d)) as [Hr Hm].
  { by rewrite lookup_insert_eq. }
  { done. }
  fold (incr_calls k calls). destruct (run_ops Db.exec _ (incr_calls k calls)) as [m' rs].
  cbn [fst snd] in *. subst. split; [done|].
  change ((now, d) :: calls).*2 with (d :: calls.*2). cbn [prefix_sums]. rewrite last_cons.
  destruct (last (prefix_sums (acc + d) calls.*2)) as [z|]; [apply insert_insert_eq|done].
Qed.

End runs.

(** ** Properties *)

Section props.
Context {HO : HashOrder}.
Implicit Types (now : Z) (st : Store.t) (k : bytes).

(** C1: the store behaves as one map from keys to values.  In every state a
    server can reach, an operation answers what the database answers, wrong
    types, failed conversions and overflows included.  The entries after it are
    the database's, except that keys of the same shard may have been evicted,
    and none is when the shard fits its budget. *)
Theorem store_refines_db mm st now o :
  0 <= mm → reach mm st → op_ok o →
  (Store.exec now st o).2 = (Db.exec now ⟦st⟧ o).2 ∧
  sharded_settles st (op_key o) (Db.exec now ⟦st⟧ o).1 ⟦(Store.exec now st o).1⟧.
Proof.
  intros Hmm Hst Ho. apply reach_ok in Hst as [Hst _]; [|done].
  by destruct (store_exec_ok now st o Hst Ho) as (? & _ & _ & ?).
Qed.

(** without a memory limit, a run of any length from a fresh store gives
    the results of the database, whatever the number of shards, the router and
    the hash functions. *)
Theorem store_unbounded_run seeds router n ops :
  Forall (fun p => op_ok p.2) ops →
  (run_ops Store.exec (Store.new seeds router n 0) ops).2 = (run_ops Db.exec ∅ ops).2 ∧
  ⟦(run_ops Store.exec (Store.new seeds router n 0) ops).1⟧ = (run_ops Db.exec ∅ ops).1.
Proof.
  intros Hops. destruct (new_store_ok seeds router n 0 ltac:(lia)) as (Hwf & Habs & Hb).
  rewrite <- Habs. by apply unbounded_run_ok.
Qed.

(** C6: the memory limit is never exceeded.  The bytes the shards account for
    are exactly the cost of what is stored, and at most [maxmemory] when a
    limit is set. *)
Theorem store_memory_bound mm st :
  0 <= mm → reach mm st →
  total_bytes st = Db.cost ⟦st⟧ ∧ (mm ≠ 0 → total_bytes st <= mm).
Proof.
  intros Hmm Hst. apply reach_ok in Hst as [Hst Hb]; [|done].
  split; [by apply total_bytes_cost|]. intros Hne.
  apply total_bytes_bound; [lia|done|]. rewrite Hb. by destruct (Z.eqb_spec mm 0).
Qed.

(** C31: no key operation panics. The index of a key's shard is in range, and
    the [unreachable!] of the collection operations and the [unwrap] and the
    second [unreachable!] of [append], which are errors of their own in the
    model, are not reached: the only errors are the three documented ones. *)
Theorem store_no_panic mm st now o :
  0 <= mm → reach mm st → op_ok o →
  (Store.shard_index st (op_key o) < Store.shard_count st)%nat ∧
  match ret_error (Store.exec now st o).2 with
  | None => True
  | Some e => e = WRONGTYPE ∨ e = Shard.NOT_AN_INTEGER ∨ e = Shard.OVERFLOW
  end.
Proof.
  intros Hmm Hst Ho. apply reach_ok in Hst as [Hst _]; [|done].
  split; [by apply index_in_range|].
  destruct (store_exec_ok now st o Hst Ho) as (-> & _). apply db_errors.
Qed.

(** the operations on the whole store.  [dbsize] counts the entries,
    [keys] lists the live keys once each, [purge_expired] removes exactly the
    expired entries and counts them, [flush_all] leaves nothing. *)
Theorem store_whole_operations mm st now seeds :
  0 <= mm → reach mm st →
  Store.dbsize st = size ⟦st⟧ ∧
  NoDup (Store.keys now st) ∧
  (∀ k, k ∈ Store.keys now st ↔ is_Some (Db.find now ⟦st⟧ k)) ∧
  ⟦(Store.purge_expired now st).1⟧ = filter (fun p => Shard.unexpired now p.2 = true) ⟦st⟧ ∧
  ((Store.purge_expired now st).2 + size ⟦(Store.purge_expired now st).1⟧ = size ⟦st⟧)%nat ∧
  ⟦Store.flush_all seeds st⟧ = ∅.
Proof.
  intros Hmm Hst. apply reach_ok in Hst as [Hst _]; [|done].
  destruct (keys_store_ok now st Hst) as [Hnd Hk].
  pose proof (purge_expired_store_ok now st Hst) as Hp.
  destruct (Store.purge_expired now st) as [st' r]. destruct Hp as (_ & _ & Ha & Hn).
  split_and!; try done; [by apply dbsize_ok|by apply flush_all_ok].
Qed.

(** operations on different shards commute: both orders give the same
    answers and the same store, so it does not matter how threads that hold
    different locks interleave. *)
Theorem store_ops_commute st n1 o1 n2 o2 :
  Store.shard_index st (op_key o1) ≠ Store.shard_index st (op_key o2) →
  let '(st1, r1) := Store.exec n1 st o1 in
  let '(st2, r2) := Store.exec n2 st o2 in
  Store.exec n2 st1 o2 = ((Store.exec n1 st2 o1).1, r2) ∧
  (Store.exec n1 st2 o1).2 = r1.
Proof.
  intros Hne. rewrite !exec_on_shard. unfold Store.on_shard, Store.shard.
  set (i1 := Store.shard_index st (op_key o1)) in *.
  set (i2 := Store.shard_index st (op_key o2)) in *.
  destruct (shard_exec n1 (Store.shards st !!! i1) o1) as [s1 r1] eqn:H1.
  destruct (shard_exec n2 (Store.shards st !!! i2) o2) as [s2 r2] eqn:H2.
  rewrite !exec_on_shard. unfold Store.on_shard, Store.shard, Store.shard_index in *. simpl.
  fold i1 i2. rewrite !list_lookup_total_insert_ne by done. rewrite H1, H2. simpl.
  split; [|done]. do 2 f_equal. by apply list_insert_insert_ne.
Qed.

(** Increments are never lost.  When any number of clients increment one
    key, each call at its own time and in any order the shard's lock admits, call
    number [i] answers the sum of the first [i] increments, and the key holds
    the decimal text of the total, as long as no partial sum overflows. *)
Theorem store_incr_exact seeds router n k calls :
  Forall (fun z => in_i64 z = true) (prefix_sums 0 calls.*2) →
  let out := run_ops Store.exec (Store.new seeds router n 0) (incr_calls k calls) in
  out.2 = (fun z => RInt (Ok z)) <$> prefix_sums 0 calls.*2 ∧
  ⟦out.1⟧ !! k =
    (fun z => mkEntry (VStr (i64_to_string z)) None) <$> last (prefix_sums 0 calls.*2).
Proof.
  intros Hok out. destruct (new_store_ok seeds router n 0 ltac:(lia)) as (Hwf & Habs & Hb).
  destruct (unbounded_run_ok _ (incr_calls k calls) Hwf Hb) as [Hr Hm].
  { unfold incr_calls. by apply Forall_fmap, Forall_true. }
  fold out in Hr, Hm. rewrite Hr, Hm, Habs.
  destruct (db_incr_run ∅ k 0 calls) as [-> ->]; [by rewrite lookup_empty|done|].
  split; [done|]. destruct (last _); simpl; [apply lookup_insert_eq|apply lookup_empty].
Qed.

End props.

(** ** Witnesses *)

(** Two shards, routed by the length of the key; every hash collides. *)
Definition demo_seeds (i : nat) : Hashers :=
  mkHashers FlatMap.length_hasher FlatMap.length_hasher FlatMap.length_hasher.
Definition demo_store (maxmemory : Z) : Store.t :=
  Store.new demo_seeds FlatMap.length_hasher 2 maxmemory.
Definition demo_set (k v : bytes) : Op := OSet k v default_options.

#[local] Existing Instance canonical_order.

(** A store limited to 300 bytes with one entry, then a second one that does
    not fit beside it. *)
Definition demo_full : Store.t :=
  (Store.exec 10 (demo_store 300) (demo_set (lit "aa") (lit "1"))).1.

Lemma demo_full_reach : reach 300 demo_full.
Proof. apply reach_exec; [apply reach_new|done]. Defined.

Lemma store_refines_db_witness :
  (Store.exec 11 demo_full (OIncrBy (lit "aa") 41)).2 = RInt (Ok 42) ∧
  (Store.exec 11 demo_full (OHget (lit "aa") (lit "f"))).2 = RStr (Err WRONGTYPE).
Proof.
  split.
  - etransitivity; [exact (proj1 (store_refines_db 300 demo_full 11 (OIncrBy (lit "aa") 41)
      ltac:(lia) demo_full_reach I))|]. vm_compute. reflexivity.
  - etransitivity; [exact (proj1 (store_refines_db 300 demo_full 11 (OHget (lit "aa") (lit "f"))
      ltac:(lia) demo_full_reach I))|]. vm_compute. reflexivity.
Defined.

Lemma store_unbounded_run_witness :
  (run_ops Store.exec (demo_store 0)
     [(5, demo_set (lit "k") (lit "7")); (6, OIncrBy (lit "k") 3); (7, OGet (lit "k"))]).2 =
  [RBool true; RInt (Ok 10); RStr (Ok (Some (lit "10")))].
Proof.
  etransitivity; [exact (proj1 (store_unbounded_run demo_seeds FlatMap.length_hasher 2
    [(5, demo_set (lit "k") (lit "7")); (6, OIncrBy (lit "k") 3); (7, OGet (lit "k"))]
    ltac:(repeat constructor)))|]. vm_compute. reflexivity.
Defined.

(** Three entries of 67 bytes on a shard with a budget of 150 bytes: one goes. *)
Lemma store_memory_bound_witness :
  let st := (Store.exec 12 (Store.exec 11 demo_full (demo_set (lit "bb") (lit "2"))).1
               (demo_set (lit "cc") (lit "3"))).1 in
  total_bytes st = 134 ∧ total_bytes st <= 300.
Proof.
  intros st. split; [vm_compute; reflexivity|].
  refine (proj2 (store_memory_bound 300 st _ _) _); [lia| |lia].
  apply reach_exec; [apply reach_exec; [apply demo_full_reach|exact I]|exact I].
Defined.

Lemma store_no_panic_witness :
  ret_error (Store.exec 11 demo_full (OAppend (lit "aa") (lit "x"))).2 = None ∧
  (Store.shard_index demo_full (lit "aa") < Store.shard_count demo_full)%nat.
Proof.
  split; [vm_compute; reflexivity|].
  exact (proj1 (store_no_panic 300 demo_full 11 (OAppend (lit "aa") (lit "x"))
    ltac:(lia) demo_full_reach I)).
Defined.

Lemma store_whole_operations_witness :
  Store.dbsize demo_full = 1%nat ∧ ⟦Store.flush_all demo_seeds demo_full⟧ = ∅.
Proof.
  split; [vm_compute; reflexivity|].
  apply (store_whole_operations 300 demo_full 11 demo_seeds ltac:(lia) demo_full_reach).
Defined.

Lemma store_ops_commute_witness :
  let st1 := (Store.exec 1 (demo_store 0) (demo_set (lit "aa") (lit "1"))).1 in
  let st2 := (Store.exec 2 (demo_store 0) (demo_set (lit "b") (lit "2"))).1 in
  (Store.exec 2 st1 (demo_set (lit "b") (lit "2"))).1 =
  (Store.exec 1 st2 (demo_set (lit "aa") (lit "1"))).1.
Proof.
  pose proof (store_ops_commute (demo_store 0) 1 (demo_set (lit "aa") (lit "1"))
    2 (demo_set (lit "b") (lit "2"))) as H.
  assert (Store.shard_index (demo_store 0) (op_key (demo_set (lit "aa") (lit "1"))) ≠
          Store.shard_index (demo_store 0) (op_key (demo_set (lit "b") (lit "2")))) as Hne
    by (vm_compute; discriminate).
  specialize (H Hne).
  destruct (Store.exec 1 (demo_store 0) (demo_set (lit "aa") (lit "1"))) as [st1 r1].
  destruct (Store.exec 2 (demo_store 0) (demo_set (lit "b") (lit "2"))) as [st2 r2].
  destruct H as [H _]. intros s1 s2. subst s1 s2. cbn [fst]. rewrite H. reflexivity.
Defined.

Lemma store_incr_exact_witness :
  (run_ops Store.exec (demo_store 0) (incr_calls (lit "n") [(1, 5); (9, -7); (4, 2)])).2 =
  [RInt (Ok 5); RInt (Ok (-2)); RInt (Ok 0)].
Proof.
  exact (proj1 (store_incr_exact demo_seeds FlatMap.length_hasher 2 (lit "n")
    [(1, 5); (9, -7); (4, 2)] ltac:(repeat constructor))).
Defined.
