(* ===== verification/Resp.v ===== *)
(** * The RESP protocol ([crates/proto/src/resp.rs], lines 1 to 270)

    The two command parsers, the owned one and the zero-copy one, and the
    writers of the fast path.  A position in the input is a [nat]; the input is
    a list of bytes.  [Result<Option<A>, ProtocolError>] is [Parsed A]. *)
From S2P Require Import Prelude Std.
Local Open Scope Z_scope.

Inductive ProtocolError := Malformed (m : string) | TooLarge.

(** [Err(e)], [Ok(None)] and [Ok(Some(a))]. *)
Inductive Parsed (A : Type) := Failed (e : ProtocolError) | Incomplete | Complete (a : A).
Arguments Failed {A} _.
Arguments Incomplete {A}.
Arguments Complete {A} _.

Definition pbind {A B : Type} (x : Parsed A) (f : A → Parsed B) : Parsed B :=
  match x with
  | Failed e => Failed e
  | Incomplete => Incomplete
  | Complete a => f a
  end.

Module Resp.

Definition MAX_BULK_LEN : Z := 512 * 1024 * 1024.
Definition MAX_ARRAY_LEN : Z := 1024 * 1024.

Definition CR : byte := x0d.
Definition LF : byte := x0a.
Definition CRLF : bytes := [CR; LF].

(** The index of the next CR LF; [i] is the index of the head of [s]. *)
Fixpoint crlf_from (s : bytes) (i : nat) : option nat :=
  match s with
  | b1 :: s' =>
      match s' with
      | b2 :: _ =>
          if bool_decide (b1 = CR) && bool_decide (b2 = LF) then Some i else crlf_from s' (S i)
      | [] => None
      end
  | [] => None
  end.

(** [&buf[a..b]] *)
Definition slice (buf : bytes) (a b : nat) : bytes := take (b - a) (drop a buf).

Definition read_line (buf : bytes) (start : nat) : option (bytes * nat) :=
  match crlf_from (drop start buf) start with
  | Some i => Some (slice buf start i, (i + 2)%nat)
  | None => None
  end.

Definition parse_int (line : bytes) : Parsed Z :=
  match parse_i64_bytes line with
  | Some z => Complete z
  | None => Failed (Malformed "invalid integer")
  end.

(** ** One bulk string of an array

    The body of the loop over the arguments, up to the push: where the data
    starts, its length, and where the next argument starts. *)
Definition bulk_at (buf : bytes) (pos : nat) : Parsed (nat * nat * nat) :=
  match buf !! pos with
  | None => Incomplete
  | Some b =>
      if negb (bool_decide (b = x24)) then Failed (Malformed "expected bulk string in command")
      else
        match read_line buf (pos + 1) with
        | None => Incomplete
        | Some (len_line, after_len) =>
            pbind (parse_int len_line) (fun len =>
              if len <? 0 then Failed (Malformed "null bulk in command")
              else if MAX_BULK_LEN <? len then Failed TooLarge
              else
                let len := Z.to_nat len in
                let data_end := (after_len + len)%nat in
                if (length buf <? data_end + 2)%nat then Incomplete
                else if negb (bool_decide (slice buf data_end (data_end + 2) = CRLF))
                then Failed (Malformed "bulk not CRLF-terminated")
                else Complete (after_len, len, (data_end + 2)%nat))
        end
  end.

(** ** The owned parser *)

Definition Command : Type := list bytes * nat.

Fixpoint array_loop (n : nat) (buf : bytes) (pos : nat) (argv : list bytes) : Parsed Command :=
  match n with
  | O => Complete (argv, pos)
  | S n =>
      pbind (bulk_at buf pos) (fun '(after_len, len, next) =>
        array_loop n buf next (argv ++ [slice buf after_len (after_len + len)]))
  end.

Definition parse_array_command (buf : bytes) : Parsed Command :=
  match read_line buf 1 with
  | None => Incomplete
  | Some (line, pos) =>
      pbind (parse_int line) (fun n =>
        if n <? 0 then Complete ([], pos)
        else if MAX_ARRAY_LEN <? n then Failed TooLarge
        else array_loop (Z.to_nat n) buf pos [])
  end.

(** [line.split(|b| b.is_ascii_whitespace())] *)
Fixpoint split_ws (s : bytes) : list bytes :=
  match s with
  | [] => [[]]
  | b :: s =>
      if is_ascii_whitespace b then [] :: split_ws s
      else match split_ws s with w :: ws => (b :: w) :: ws | [] => [[b]] end
  end.

Definition parse_inline_command (buf : bytes) : Parsed Command :=
  match read_line buf 0 with
  | None => if (64 * 1024 <? length buf)%nat then Failed TooLarge else Incomplete
  | Some (line, consumed) => Complete (filter (fun w => w ≠ []) (split_ws line), consumed)
  end.

Definition parse_command (buf : bytes) : Parsed Command :=
  match buf with
  | [] => Incomplete
  | b :: _ => if bool_decide (b = x2a) then parse_array_command buf else parse_inline_command buf
  end.

(** ** The zero-copy parser

    It fills [argv] with ranges [(offset, len)] of the input and returns how
    much it consumed; [argv] keeps what was pushed when it stops early. *)

Definition Ranges : Type := list (nat * nat) * Parsed nat.

Fixpoint array_ranges (n : nat) (buf : bytes) (pos : nat) (argv : list (nat * nat)) : Ranges :=
  match n with
  | O => (argv, Complete pos)
  | S n =>
      if (length buf <=? pos)%nat then (argv, Incomplete)
      else if negb (bool_decide (buf !! pos = Some x24))
      then (argv, Failed (Malformed "expected bulk string in command"))
      else
        match read_line buf (pos + 1) with
        | None => (argv, Incomplete)
        | Some (len_line, after_len) =>
            match parse_int len_line with
            | Failed e => (argv, Failed e)
            | Incomplete => (argv, Incomplete)
            | Complete len =>
                if len <? 0 then (argv, Failed (Malformed "null bulk in command"))
                else if MAX_BULK_LEN <? len then (argv, Failed TooLarge)
                else
                  let len := Z.to_nat len in
                  let data_end := (after_len + len)%nat in
                  if (length buf <? data_end + 2)%nat then (argv, Incomplete)
                  else if negb (bool_decide (slice buf data_end (data_end + 2) = CRLF))
                  then (argv, Failed (Malformed "bulk not CRLF-terminated"))
                  else array_ranges n buf (data_end + 2) (argv ++ [(after_len, len)])
            end
        end
  end.

(** The inner loops: [while i < line.len() && p(line[i]) { i += 1 }]. *)
Fixpoint skip_while (p : byte → bool) (s : bytes) (i : nat) : nat :=
  match s with
  | b :: s => if p b then skip_while p s (S i) else i
  | [] => i
  end.

(** The outer loop moves forward at every turn, so a turn per byte is enough. *)
Fixpoint inline_ranges (fuel : nat) (line : bytes) (i : nat) (argv : list (nat * nat))
    : list (nat * nat) :=
  match fuel with
  | O => argv
  | S fuel =>
      if (i <? length line)%nat then
        let start := skip_while is_ascii_whitespace (drop i line) i in
        let i := skip_while (fun b => negb (is_ascii_whitespace b)) (drop start line) start in
        inline_ranges fuel line i (if (start <? i)%nat then argv ++ [(start, (i - start)%nat)] else argv)
      else argv
  end.

Definition parse_command_ranges (buf : bytes) (argv : list (nat * nat)) : Ranges :=
  match buf with
  | [] => ([], Incomplete)
  | b :: _ =>
      if bool_decide (b = x2a) then
        match read_line buf 1 with
        | None => ([], Incomplete)
        | Some (line, pos) =>
            match parse_int line with
            | Failed e => ([], Failed e)
            | Incomplete => ([], Incomplete)
            | Complete n =>
                if n <? 0 then ([], Complete pos)
                else if MAX_ARRAY_LEN <? n then ([], Failed TooLarge)
                else array_ranges (Z.to_nat n) buf pos []
            end
        end
      else
        match read_line buf 0 with
        | None => ([], if (64 * 1024 <? length buf)%nat then Failed TooLarge else Incomplete)
        | Some (line, consumed) =>
            (inline_ranges (length line) line 0 [], Complete consumed)
        end
  end.

(** ** Writers *)

(** The digit loop of [write_uint], on its 20-byte stack buffer; [None] is an
    index out of range or no end. *)
Fixpoint uint_loop (fuel : nat) (tmp : bytes) (i : nat) (v : Z) : option (bytes * nat) :=
  if v <=? 0 then Some (tmp, i)
  else
    match fuel, i with
    | S fuel, S i => uint_loop fuel (<[i := byte_of (48 + v `mod` 10)]> tmp) i (v / 10)
    | _, _ => None
    end.

Definition write_uint (out : bytes) (v : Z) : option bytes :=
  if v =? 0 then Some (out ++ [x30])
  else
    '(tmp, i) ← uint_loop 20 (replicate 20 x00) 20 v;
    Some (out ++ drop i tmp).

Definition write_bulk (out data : bytes) : option bytes :=
  out ← write_uint (out ++ [x24]) (Z.of_nat (length data));
  Some (out ++ CRLF ++ data ++ CRLF).

Definition write_null (out : bytes) (resp3 : bool) : bytes :=
  out ++ (if resp3 then lit "_" ++ CRLF else lit "$-1" ++ CRLF).

(** A [&str] argument is given by its UTF-8 bytes. *)
Definition write_simple (out s : bytes) : bytes := out ++ [x2b] ++ s ++ CRLF.
Definition write_error (out msg : bytes) : bytes := out ++ [x2d] ++ msg ++ CRLF.

Definition write_int (out : bytes) (n : Z) : option bytes :=
  let out := out ++ [x3a] in
  out ← (if n <? 0 then write_uint (out ++ [x2d]) (Z.abs n) else write_uint out n);
  Some (out ++ CRLF).

(** ** Commands as text

    [write_cmd] of [crates/core/src/store.rs], which writes a command the way a
    client would send it. *)

Definition write_arg (a : bytes) : bytes :=
  [x24] ++ u64_to_string (Z.of_nat (length a)) ++ CRLF ++ a ++ CRLF.

Definition write_cmd (out : bytes) (args : list bytes) : bytes :=
  foldl (fun out a => out ++ write_arg a)
    (out ++ [x2a] ++ u64_to_string (Z.of_nat (length args)) ++ CRLF) args.

End Resp.
