(* ===== verification/RespOk.v ===== *)
(** * The protocol parsers and writers: proofs *)
From S2P Require Import Prelude Std Resp.
Local Open Scope Z_scope.

Import Resp.

(** ** Lines *)

Section lines.
Implicit Types (s buf : bytes) (i : nat).

Lemma crlf_from_cons b1 b2 s i :
  crlf_from (b1 :: b2 :: s) i =
  if bool_decide (b1 = CR) && bool_decide (b2 = LF) then Some i else crlf_from (b2 :: s) (S i).
Proof. done. Qed.

Lemma crlf_from_shift s i : crlf_from s i = (fun j => (i + j)%nat) <$> crlf_from s 0.
Proof.
  revert i. induction s as [|b1 s IH]; intros i; [done|]. simpl.
  destruct s as [|b2 s]; [done|]. case_match; [simpl; f_equal; lia|].
  rewrite IH, (IH 1%nat). destruct (crlf_from (b2 :: s) 0); simpl; [f_equal; lia|done].
Qed.

(** What a found line end is: the first CR LF. *)
Lemma crlf_from_Some s j :
  crlf_from s 0 = Some j →
  ∃ rest, s = take j s ++ CRLF ++ rest ∧ (j + 2 <= length s)%nat.
Proof.
  revert j. induction s as [|b1 s IH]; intros j; [done|]. simpl.
  destruct s as [|b2 s]; [done|]. case_match eqn:Hc.
  - intros [= <-]. apply andb_true_iff in Hc as [->%bool_decide_eq_true ->%bool_decide_eq_true].
    exists s. split; [done|]. simpl. lia.
  - rewrite crlf_from_shift. destruct (crlf_from (b2 :: s) 0) as [j'|] eqn:Hj; [|done].
    intros [= <-]. destruct (IH j' eq_refl) as (rest & Hs & Hl). exists rest.
    split; [|simpl in *; lia]. simpl. f_equal. exact Hs.
Qed.

(** More input does not change a line end that was found. *)
Lemma crlf_from_app s t i j : crlf_from s i = Some j → crlf_from (s ++ t) i = Some j.
Proof.
  revert i. induction s as [|b1 s IH]; intros i; [done|]. simpl.
  destruct s as [|b2 s]; [done|]. simpl. case_match; [done|]. apply (IH (S i)).
Qed.

(** A line without CR ends at its CR LF. *)
Lemma crlf_from_line s t i :
  CR ∉ s → crlf_from (s ++ CRLF ++ t) i = Some (i + length s)%nat.
Proof.
  revert i. induction s as [|b s IH]; intros i Hs.
  - simpl. f_equal. lia.
  - apply not_elem_of_cons in Hs as [Hb Hs]. rewrite <- app_comm_cons.
    specialize (IH (S i) Hs). destruct (s ++ CRLF ++ t) as [|b2 s'] eqn:Heq; [by destruct s|].
    rewrite crlf_from_cons, bool_decide_eq_false_2 by congruence. cbn [andb].
    rewrite IH. simpl. f_equal. lia.
Qed.

Lemma slice_app_l buf t a b : (b <= length buf)%nat → slice (buf ++ t) a b = slice buf a b.
Proof.
  intros Hb. unfold slice. destruct (le_lt_dec a b) as [Ha|Ha].
  - rewrite drop_app_le by lia. rewrite take_app_le; [done|]. rewrite length_drop. lia.
  - by replace (b - a)%nat with O by lia.
Qed.

Lemma read_line_spec buf start line pos :
  read_line buf start = Some (line, pos) →
  (start + 2 <= pos <= length buf)%nat ∧ line = slice buf start (pos - 2).
Proof.
  unfold read_line. rewrite crlf_from_shift.
  destruct (crlf_from (drop start buf) 0) as [j|] eqn:Hj; [|done]. simpl. intros [= <- <-].
  destruct (crlf_from_Some _ _ Hj) as (_ & _ & Hl). rewrite length_drop in Hl.
  split; [lia|]. f_equal. lia.
Qed.

Lemma read_line_app buf t start r :
  read_line buf start = Some r → read_line (buf ++ t) start = Some r.
Proof.
  intros Hr. pose proof Hr as Hr'. destruct r as [line pos].
  apply read_line_spec in Hr' as [Hpos ->]. revert Hr. unfold read_line.
  destruct (crlf_from (drop start buf) start) as [i|] eqn:Hi; [|done].
  rewrite drop_app_le by lia. rewrite (crlf_from_app _ _ _ _ Hi).
  intros [= Hsl <-]. rewrite slice_app_l by lia. by rewrite Hsl.
Qed.

(** A line in the middle of the input. *)
Lemma read_line_at pre line t :
  CR ∉ line →
  read_line (pre ++ line ++ CRLF ++ t) (length pre) =
  Some (line, (length pre + length line + 2)%nat).
Proof.
  intros Hl. unfold read_line. rewrite drop_app_length, crlf_from_line by done.
  unfold slice. rewrite drop_app_length.
  replace (length pre + length line - length pre)%nat with (length line) by lia.
  by rewrite take_app_length.
Qed.

End lines.

(** ** The owned parser: stability and progress *)

Section stability.
Implicit Types (buf t : bytes) (pos n : nat) (argv : list bytes).

(** A verdict on a prefix of the input is the verdict on the input. *)
Definition settled {A} (x y : Parsed A) : Prop :=
  match x with Incomplete => True | _ => y = x end.

Lemma settled_refl {A} (x : Parsed A) : settled x x.
Proof. by destruct x. Qed.

Lemma settled_bind {A B} (x y : Parsed A) (f g : A → Parsed B) :
  settled x y → (∀ a, x = Complete a → settled (f a) (g a)) → settled (pbind x f) (pbind y g).
Proof. destruct x; simpl; [by intros ->|done|]. intros -> Hf. by apply Hf. Qed.

Lemma parse_int_total line : parse_int line ≠ Incomplete.
Proof. unfold parse_int. by case_match. Qed.

Lemma bulk_at_settled buf t pos : settled (bulk_at buf pos) (bulk_at (buf ++ t) pos).
Proof.
  unfold bulk_at. destruct (buf !! pos) as [b|] eqn:Hb; [|done].
  rewrite (lookup_app_l_Some _ _ _ _ Hb). case_match; [done|].
  destruct (read_line buf (pos + 1)) as [[line after]|] eqn:Hl; [|done].
  rewrite (read_line_app _ _ _ _ Hl). apply settled_bind; [apply settled_refl|].
  intros len _. case_match; [done|]. case_match; [done|]. cbv zeta.
  destruct (Nat.ltb_spec (length buf) (after + Z.to_nat len + 2)) as [|Hle]; [done|].
  rewrite slice_app_l by lia. rewrite length_app.
  destruct (Nat.ltb_spec (length buf + length t) (after + Z.to_nat len + 2)); [lia|].
  case_match; done.
Qed.

Lemma bulk_at_spec buf pos a len next :
  bulk_at buf pos = Complete (a, len, next) →
  (pos < a)%nat ∧ next = (a + len + 2)%nat ∧ (next <= length buf)%nat.
Proof.
  unfold bulk_at. destruct (buf !! pos); [|done]. case_match; [done|].
  destruct (read_line buf (pos + 1)) as [[line after]|] eqn:Hl; [|done].
  apply read_line_spec in Hl as [Hl _].
  destruct (parse_int line) as [| |z]; simpl; [done|done|].
  case_match; [done|]. case_match; [done|]. cbv zeta.
  destruct (Nat.ltb_spec (length buf) (after + Z.to_nat z + 2)); [done|].
  case_match; [done|]. intros [= <- <- <-]. lia.
Qed.

Lemma array_loop_settled n buf t pos argv :
  settled (array_loop n buf pos argv) (array_loop n (buf ++ t) pos argv).
Proof.
  revert pos argv. induction n as [|n IH]; intros pos argv; [done|]. simpl.
  apply settled_bind; [apply bulk_at_settled|]. intros [[a len] next] Hb.
  apply bulk_at_spec in Hb. rewrite slice_app_l by lia. apply IH.
Qed.

Lemma array_loop_pos n buf pos argv argv' pos' :
  array_loop n buf pos argv = Complete (argv', pos') → (pos <= length buf)%nat →
  (pos <= pos' <= length buf)%nat.
Proof.
  revert pos argv. induction n as [|n IH]; intros pos argv; simpl; [intros [= -> ->]; lia|].
  destruct (bulk_at buf pos) as [| |[[a len] next]] eqn:Hb; [done|done|]. simpl.
  apply bulk_at_spec in Hb. intros Hr Hp. apply IH in Hr; lia.
Qed.

Lemma parse_array_settled buf t :
  settled (parse_array_command buf) (parse_array_command (buf ++ t)).
Proof.
  unfold parse_array_command. destruct (read_line buf 1) as [[line pos]|] eqn:Hl; [|done].
  rewrite (read_line_app _ _ _ _ Hl). apply settled_bind; [apply settled_refl|].
  intros z _. case_match; [done|]. case_match; [done|]. apply array_loop_settled.
Qed.

Lemma parse_command_complete_app buf t r :
  parse_command buf = Complete r → parse_command (buf ++ t) = Complete r.
Proof.
  unfold parse_command. destruct buf as [|b buf]; [done|]. simpl.
  change (b :: buf ++ t) with ((b :: buf) ++ t). case_match.
  - intros Hr. pose proof (parse_array_settled (b :: buf) t) as Hs. rewrite Hr in Hs. exact Hs.
  - unfold parse_inline_command.
    destruct (read_line (b :: buf) 0) as [[line pos]|] eqn:Hl; [|by case_match].
    by rewrite (read_line_app _ _ _ _ Hl).
Qed.

Lemma parse_command_bounds buf argv consumed :
  parse_command buf = Complete (argv, consumed) → (0 < consumed <= length buf)%nat.
Proof.
  unfold parse_command. destruct buf as [|b buf]; [done|]. case_match.
  - unfold parse_array_command.
    destruct (read_line (b :: buf) 1) as [[line pos]|] eqn:Hl; [|done].
    apply read_line_spec in Hl as [Hl _]. destruct (parse_int line) as [| |z]; simpl; [done|done|].
    case_match; [intros [= <- <-]; simpl in *; lia|]. case_match; [done|].
    intros Hr%array_loop_pos; simpl in *; lia.
  - unfold parse_inline_command.
    destruct (read_line (b :: buf) 0) as [[line pos]|] eqn:Hl; [|by case_match].
    apply read_line_spec in Hl as [Hl _]. intros [= _ <-]. simpl in *. lia.
Qed.

End stability.

(** ** Encoded commands *)

Section encoded.
Implicit Types (pre t a : bytes) (args : list bytes).

Lemma digits_no_CR s : Forall is_digit s → CR ∉ s.
Proof.
  intros Hs Hin. rewrite Forall_forall in Hs. apply Hs in Hin.
  unfold is_digit in Hin. change (byte_val CR) with 13 in Hin. lia.
Qed.

Lemma parse_int_to_string z :
  0 <= z → in_i64 z = true → parse_int (u64_to_string z) = Complete z.
Proof.
  intros Hz Hi. unfold parse_int. pose proof (parse_i64_to_string z Hi) as Hp.
  unfold i64_to_string in Hp. destruct (Z.ltb_spec z 0); [lia|]. by rewrite Hp.
Qed.

Lemma write_cmd_concat out args :
  write_cmd out args =
  out ++ [x2a] ++ u64_to_string (Z.of_nat (length args)) ++ CRLF ++ concat (write_arg <$> args).
Proof.
  unfold write_cmd.
  assert (∀ acc l, foldl (fun out a => out ++ write_arg a) acc l = acc ++ concat (write_arg <$> l)) as Hf.
  { intros acc l. revert acc. induction l as [|a l IH]; intros acc; simpl; [by rewrite app_nil_r|].
    by rewrite IH, <- app_assoc. }
  rewrite Hf, <- !app_assoc. done.
Qed.

(** What a bulk string may hold. *)
Definition bulk_fits a : Prop := Z.of_nat (length a) <= MAX_BULK_LEN.

Lemma bulk_fits_i64 a : bulk_fits a → in_i64 (Z.of_nat (length a)) = true.
Proof. unfold bulk_fits, MAX_BULK_LEN. intros Ha. apply in_i64_spec. lia. Qed.

Lemma slice_middle pre a t : slice (pre ++ a ++ t) (length pre) (length pre + length a) = a.
Proof.
  unfold slice. rewrite drop_app_length.
  replace (length pre + length a - length pre)%nat with (length a) by lia. apply take_app_length.
Qed.

Lemma bulk_at_encoded pre a t :
  bulk_fits a →
  ∃ start, bulk_at (pre ++ write_arg a ++ t) (length pre) =
             Complete (start, length a, (length pre + length (write_arg a))%nat) ∧
           slice (pre ++ write_arg a ++ t) start (start + length a) = a.
Proof.
  intros Ha. set (L := u64_to_string (Z.of_nat (length a))).
  assert (CR ∉ L) as HL by (apply digits_no_CR, u64_to_string_digits; lia).
  set (pre1 := pre ++ [x24]). set (pre2 := pre1 ++ L ++ CRLF).
  assert (pre ++ write_arg a ++ t = pre1 ++ L ++ CRLF ++ a ++ CRLF ++ t) as H1
    by (unfold write_arg, pre1; fold L; by rewrite <- !app_assoc).
  assert (pre ++ write_arg a ++ t = pre2 ++ a ++ CRLF ++ t) as H2
    by (rewrite H1; unfold pre2; by rewrite <- !app_assoc).
  assert (pre ++ write_arg a ++ t = (pre2 ++ a) ++ CRLF ++ t) as H3
    by (rewrite H2; by rewrite <- !app_assoc).
  assert (length pre1 = (length pre + 1)%nat) as Hp1 by (unfold pre1; rewrite length_app; done).
  assert (length pre2 = (length pre + 1 + length L + 2)%nat) as Hp2
    by (unfold pre2; rewrite !length_app, Hp1; simpl; lia).
  assert (length (write_arg a) = (1 + length L + 2 + length a + 2)%nat) as Hwa
    by (unfold write_arg; fold L; rewrite !length_app; simpl; lia).
  exists (length pre2). split.
  - unfold bulk_at.
    assert ((pre ++ write_arg a ++ t) !! length pre = Some x24) as ->
      by (rewrite lookup_app_r, Nat.sub_diag by lia; done).
    rewrite bool_decide_eq_true_2 by done. cbn [negb].
    assert (read_line (pre ++ write_arg a ++ t) (length pre + 1) = Some (L, length pre2)) as ->.
    { rewrite H1, <- Hp1, read_line_at by done. repeat f_equal. lia. }
    unfold L at 1. rewrite parse_int_to_string by (lia || by apply bulk_fits_i64). cbn [pbind].
    destruct (Z.ltb_spec (Z.of_nat (length a)) 0); [lia|].
    destruct (Z.ltb_spec MAX_BULK_LEN (Z.of_nat (length a))); [unfold bulk_fits in Ha; lia|].
    cbv zeta. rewrite Nat2Z.id.
    destruct (Nat.ltb_spec (length (pre ++ write_arg a ++ t)) (length pre2 + length a + 2)) as [Hlt|_].
    { rewrite !length_app in Hlt. lia. }
    assert (slice (pre ++ write_arg a ++ t) (length pre2 + length a) (length pre2 + length a + 2)
            = CRLF) as ->.
    { rewrite H3. rewrite <- length_app. apply (slice_middle (pre2 ++ a) CRLF t). }
    rewrite bool_decide_eq_true_2 by done. cbn [negb]. do 2 f_equal. lia.
  - rewrite H2. apply slice_middle.
Qed.

Lemma array_loop_encoded pre args t acc :
  Forall bulk_fits args →
  array_loop (length args) (pre ++ concat (write_arg <$> args) ++ t) (length pre) acc =
  Complete (acc ++ args, (length pre + length (concat (write_arg <$> args)))%nat).
Proof.
  intros Hargs. revert pre acc. induction Hargs as [|a args Ha Hargs IH]; intros pre acc.
  - simpl. by rewrite app_nil_r, Nat.add_0_r.
  - rewrite fmap_cons. cbn [length array_loop concat]. rewrite <- app_assoc.
    destruct (bulk_at_encoded pre a (concat (write_arg <$> args) ++ t) Ha) as (start & -> & Hsl).
    cbn [pbind]. rewrite Hsl. rewrite <- length_app.
    replace (pre ++ write_arg a ++ concat (write_arg <$> args) ++ t)
      with ((pre ++ write_arg a) ++ concat (write_arg <$> args) ++ t) by (by rewrite <- !app_assoc).
    rewrite IH, <- app_assoc. rewrite !length_app. do 2 f_equal. lia.
Qed.

(** A command the parser accepts. *)
Definition command_fits args : Prop :=
  Z.of_nat (length args) <= MAX_ARRAY_LEN ∧ Forall bulk_fits args.

Lemma parse_encoded args t :
  command_fits args →
  parse_command (write_cmd [] args ++ t) = Complete (args, length (write_cmd [] args)).
Proof.
  intros [Hn Hargs]. rewrite write_cmd_concat. rewrite app_nil_l.
  set (L := u64_to_string (Z.of_nat (length args))).
  set (B := concat (write_arg <$> args)).
  assert (CR ∉ L) as HL by (apply digits_no_CR, u64_to_string_digits; lia).
  replace (([x2a] ++ L ++ CRLF ++ B) ++ t) with ([x2a] ++ L ++ CRLF ++ B ++ t)
    by (by rewrite <- !app_assoc).
  unfold parse_command. cbn [app]. rewrite bool_decide_eq_true_2 by done.
  change (x2a :: L ++ CRLF ++ B ++ t) with ([x2a] ++ L ++ CRLF ++ B ++ t).
  unfold parse_array_command. change 1%nat with (length [x2a]) at 1. rewrite read_line_at by done.
  unfold L at 1. unfold MAX_ARRAY_LEN in *. rewrite parse_int_to_string;
    [|lia|apply in_i64_spec; lia]. cbn [pbind].
  destruct (Z.ltb_spec (Z.of_nat (length args)) 0); [lia|].
  destruct (Z.ltb_spec (1024 * 1024) (Z.of_nat (length args))); [lia|]. rewrite Nat2Z.id.
  replace ([x2a] ++ L ++ CRLF ++ B ++ t) with (([x2a] ++ L ++ CRLF) ++ B ++ t)
    by (by rewrite <- !app_assoc).
  replace (length [x2a] + length L + 2)%nat with (length ([x2a] ++ L ++ CRLF))
    by (rewrite !length_app; simpl; lia).
  unfold B. rewrite array_loop_encoded by done. f_equal. f_equal.
  rewrite !length_app. simpl. rewrite !length_app. simpl. lia.
Qed.

(** Every strict prefix of an encoded command asks for more input. *)
Lemma parse_encoded_prefix args n :
  command_fits args → (n < length (write_cmd [] args))%nat →
  parse_command (take n (write_cmd [] args)) = Incomplete.
Proof.
  intros Hfit Hn. pose proof (parse_encoded args [] Hfit) as Hfull. rewrite app_nil_r in Hfull.
  set (enc := write_cmd [] args) in *.
  destruct (parse_command (take n enc)) as [e| |r] eqn:Hp; [exfalso|done|exfalso].
  - assert (parse_array_command (take n enc) = Failed e ∧ parse_array_command enc = Complete (args, length enc))
      as [Hpre Hall].
    { revert Hp Hfull. unfold enc. rewrite write_cmd_concat. destruct n as [|n]; [done|].
      cbn [app take]. unfold parse_command. rewrite bool_decide_eq_true_2 by done. done. }
    pose proof (parse_array_settled (take n enc) (drop n enc)) as Hs.
    rewrite Hpre, take_drop, Hall in Hs. done.
  - pose proof (parse_command_complete_app _ (drop n enc) _ Hp) as Hc.
    rewrite take_drop, Hfull in Hc. injection Hc as <-.
    apply parse_command_bounds in Hp. rewrite length_take in Hp. lia.
Qed.

End encoded.

(** ** The zero-copy parser agrees with the owned one *)

Section ranges.
Implicit Types (buf line s w : bytes) (i pos n : nat).

Definition range_slice buf (r : nat * nat) : bytes := slice buf r.1 (r.1 + r.2).

(** The arguments a zero-copy result stands for. *)
Definition owned buf (r : Ranges) : Parsed Command :=
  match r.2 with
  | Failed e => Failed e
  | Incomplete => Incomplete
  | Complete c => Complete (range_slice buf <$> r.1, c)
  end.

Lemma array_ranges_bulk n buf pos argv :
  array_ranges (S n) buf pos argv =
  match bulk_at buf pos with
  | Failed e => (argv, Failed e)
  | Incomplete => (argv, Incomplete)
  | Complete (a, len, next) => array_ranges n buf next (argv ++ [(a, len)])
  end.
Proof.
  cbn [array_ranges]. unfold bulk_at. destruct (buf !! pos) as [b|] eqn:Hb.
  - pose proof (lookup_lt_Some _ _ _ Hb). destruct (Nat.leb_spec (length buf) pos); [lia|].
    rewrite (bool_decide_ext (Some b = Some x24) (b = x24)) by (split; congruence).
    case_match; [done|]. destruct (read_line buf (pos + 1)) as [[line after]|]; [|done].
    destruct (parse_int line) as [| |z]; [done|done|]. cbn [pbind].
    case_match; [done|]. case_match; [done|]. cbv zeta. case_match; [done|]. by case_match.
  - apply lookup_ge_None in Hb. by destruct (Nat.leb_spec (length buf) pos); [|lia].
Qed.

Lemma array_ranges_owned n buf pos argv :
  owned buf (array_ranges n buf pos argv) = array_loop n buf pos (range_slice buf <$> argv).
Proof.
  revert pos argv. induction n as [|n IH]; intros pos argv; [done|].
  rewrite array_ranges_bulk. cbn [array_loop].
  destruct (bulk_at buf pos) as [| |[[a len] next]]; [done|done|]. cbn [pbind].
  rewrite IH, fmap_app. done.
Qed.

(** *** Inline commands *)

Definition ws (b : byte) : Prop := is_ascii_whitespace b = true.
Definition words s : list bytes := filter (fun w => w ≠ []) (split_ws s).

(** [rest] does not continue a word. *)
Definition at_boundary s : Prop := match s with [] => True | b :: _ => ws b end.

Lemma split_ws_nonempty s : split_ws s ≠ [].
Proof. destruct s as [|b s]; simpl; [done|]. case_match; [done|]. by destruct (split_ws s). Qed.

Lemma words_ws s rest : Forall ws s → words (s ++ rest) = words rest.
Proof.
  induction 1 as [|b s Hb _ IH]; [done|]. unfold words in *. simpl. unfold ws in Hb. rewrite Hb.
  by rewrite filter_cons_False by (by intros []).
Qed.

Lemma split_ws_word w rest :
  Forall (fun b => ¬ ws b) w → at_boundary rest →
  split_ws (w ++ rest) = w :: match rest with [] => [] | _ :: r => split_ws r end.
Proof.
  induction 1 as [|b w Hb _ IH]; intros Hr.
  - destruct rest as [|b r]; [done|]. simpl. unfold at_boundary, ws in Hr. by rewrite Hr.
  - simpl. unfold ws in Hb. apply not_true_is_false in Hb. rewrite Hb. by rewrite IH.
Qed.

Lemma words_word w rest :
  w ≠ [] → Forall (fun b => ¬ ws b) w → at_boundary rest →
  words (w ++ rest) = w :: words rest.
Proof.
  intros Hne Hw Hr. unfold words. rewrite split_ws_word, filter_cons_True by done. f_equal.
  destruct rest as [|b r]; [done|]. simpl. unfold at_boundary, ws in Hr. rewrite Hr.
  by rewrite filter_cons_False by (by intros []).
Qed.

Lemma skip_while_spec (p : byte → bool) s i :
  ∃ s1 s2, s = s1 ++ s2 ∧ Forall (fun b => p b = true) s1 ∧
    (match s2 with [] => True | b :: _ => p b = false end) ∧
    skip_while p s i = (i + length s1)%nat.
Proof.
  revert i. induction s as [|b s IH]; intros i; simpl.
  - exists [], []. split_and!; [done|constructor|done|simpl; lia].
  - destruct (p b) eqn:Hb.
    + destruct (IH (S i)) as (s1 & s2 & -> & Hs1 & Hs2 & ->). exists (b :: s1), s2.
      split_and!; [done|by constructor|done|simpl; lia].
    + exists [], (b :: s). split_and!; [done|constructor|done|simpl; lia].
Qed.

(** One turn of the outer loop takes the white space and the word in front. *)
Lemma inline_turn line i :
  (i < length line)%nat →
  let start := skip_while is_ascii_whitespace (drop i line) i in
  let i' := skip_while (fun b => negb (is_ascii_whitespace b)) (drop start line) start in
  (i < i' <= length line)%nat ∧ (start <= i')%nat ∧
  words (drop i line) =
    (if (start <? i')%nat then [range_slice line (start, (i' - start)%nat)] else [])
      ++ words (drop i' line).
Proof.
  intros Hi start i'.
  destruct (skip_while_spec is_ascii_whitespace (drop i line) i) as (s1 & s2 & Hs & Hs1 & Hs2 & Hst).
  fold start in Hst.
  assert (drop start line = s2) as Hdrop.
  { rewrite Hst. rewrite <- drop_drop, Hs. apply drop_app_length. }
  destruct (skip_while_spec (fun b => negb (is_ascii_whitespace b)) (drop start line) start)
    as (w & s3 & Hw & Hw1 & Hw2 & Hi').
  fold i' in Hi'. rewrite Hdrop in Hw.
  assert (drop i' line = s3) as Hdrop'.
  { rewrite Hi', <- drop_drop, Hdrop, Hw. apply drop_app_length. }
  assert (length line = (i + length s1 + length w + length s3)%nat) as Hlen.
  { pose proof (f_equal length Hs) as Hl. rewrite Hw, length_drop, !length_app in Hl. lia. }
  assert (Forall (fun b => ¬ ws b) w) as Hwd.
  { eapply Forall_impl; [exact Hw1|]. intros b Hb%negb_true_iff. unfold ws. congruence. }
  assert (at_boundary s3) as Hb3.
  { destruct s3 as [|b s3]; [done|]. unfold at_boundary, ws. by apply negb_false_iff. }
  assert (s1 ++ w ≠ []) as Hprog.
  { intros [-> ->]%app_eq_nil. simpl in *. subst s2. destruct s3 as [|b s3].
    - simpl in Hlen. lia.
    - rewrite Hw in Hs2. simpl in Hb3. unfold ws in Hb3. congruence. }
  assert (0 < length s1 + length w)%nat as Hpos.
  { rewrite <- length_app. destruct (s1 ++ w); [done|simpl; lia]. }
  split_and!; [lia..|]. rewrite Hs, Hw, Hdrop', words_ws by done.
  destruct (Nat.ltb_spec start i') as [Hlt|Hge].
  - rewrite words_word; [|intros ->; simpl in *; lia|done|done].
    simpl. f_equal. unfold range_slice, slice. simpl.
    replace (start + (i' - start) - start)%nat with (length w) by lia.
    rewrite Hdrop, Hw. by rewrite take_app_length.
  - destruct w; [done|]. simpl in *. lia.
Qed.

Lemma inline_ranges_words fuel line i argv :
  (length line <= i + fuel)%nat →
  range_slice line <$> inline_ranges fuel line i argv =
    (range_slice line <$> argv) ++ words (drop i line) ∧
  (Forall (fun r => (r.1 + r.2 <= length line)%nat) argv →
   Forall (fun r => (r.1 + r.2 <= length line)%nat) (inline_ranges fuel line i argv)).
Proof.
  revert i argv. induction fuel as [|fuel IH]; intros i argv Hf; simpl.
  { rewrite drop_ge by lia. split; [|done]. change (words []) with (@nil bytes). by rewrite app_nil_r. }
  destruct (Nat.ltb_spec i (length line)) as [Hi|Hi].
  - destruct (inline_turn line i Hi) as (Hi' & Hst & Hwd). rewrite Hwd.
    set (start := skip_while _ _ i) in *. set (i' := skip_while _ _ start) in *.
    destruct (IH i' (if (start <? i')%nat then argv ++ [(start, (i' - start)%nat)] else argv))
      as [-> Hall]; [lia|]. split.
    + destruct (start <? i')%nat; [|done]. by rewrite fmap_app, <- app_assoc.
    + intros Hargv. apply Hall. destruct (start <? i')%nat; [|done].
      apply Forall_app. split; [done|]. constructor; [simpl; lia|constructor].
  - rewrite drop_ge by lia. split; [|done]. change (words []) with (@nil bytes). by rewrite app_nil_r.
Qed.

Lemma parse_ranges_owned buf argv :
  owned buf (parse_command_ranges buf argv) = parse_command buf.
Proof.
  unfold parse_command_ranges, parse_command. destruct buf as [|b buf]; [done|]. case_match.
  - unfold parse_array_command. destruct (read_line (b :: buf) 1) as [[line pos]|]; [|done].
    destruct (parse_int line) as [| |z]; [done|done|]. cbn [pbind].
    case_match; [done|]. case_match; [done|]. apply array_ranges_owned.
  - unfold parse_inline_command.
    destruct (read_line (b :: buf) 0) as [[line pos]|] eqn:Hl; [|by case_match].
    apply read_line_spec in Hl as [Hpos Hline]. unfold owned. cbn [fst snd].
    destruct (inline_ranges_words (length line) line 0 []) as [Hw Hall]; [lia|].
    rewrite drop_0 in Hw. simpl in Hw. unfold words in Hw. rewrite <- Hw. do 2 f_equal.
    apply list_fmap_ext. intros i r Hr. specialize (Hall (Forall_nil_2 _)).
    rewrite Forall_lookup in Hall. specialize (Hall i r Hr). unfold range_slice.
    assert (length line <= pos - 2)%nat as Hll.
    { rewrite Hline. unfold slice. rewrite length_take. lia. }
    rewrite Hline at 1. unfold slice. rewrite drop_0, Nat.sub_0_r, skipn_firstn_comm.
    rewrite take_take. f_equal. lia.
Qed.

End ranges.
