(* ===== verification/Reply.v ===== *)
(** * Replies ([crates/proto/src/resp.rs], lines 270 to 396)

    The reply type, its RESP2 and RESP3 encodings, and the tests on [f64] the
    sources use.  An [f64] is its bit pattern; its decimal text is the standard
    library's and a parameter ([FloatText]). *)
From S2P Require Import Prelude Std Value Resp.
Local Open Scope Z_scope.

(** ** Floating point, on the bits *)

Module F64.
Definition exponent (x : f64) : Z := Z.land (Z.shiftr x 52) 2047.
Definition fraction (x : f64) : Z := Z.land x (2 ^ 52 - 1).
Definition sign (x : f64) : bool := Z.testbit x 63.

Definition is_nan (x : f64) : bool := (exponent x =? 2047) && negb (fraction x =? 0).
Definition is_infinite (x : f64) : bool := (exponent x =? 2047) && (fraction x =? 0).
Definition is_finite (x : f64) : bool := negb (exponent x =? 2047).

(** A finite number is [±mant * 2 ^ scale]. *)
Definition mant (x : f64) : Z :=
  if exponent x =? 0 then fraction x else fraction x + 2 ^ 52.
Definition scale (x : f64) : Z := Z.max (exponent x) 1 - 1075.

(** [x > 0.0] *)
Definition is_positive (x : f64) : bool :=
  negb (is_nan x) && negb (sign x) && negb ((exponent x =? 0) && (fraction x =? 0)).

(** The magnitude of [x.trunc()], for finite [x]. *)
Definition magnitude (x : f64) : Z :=
  if 0 <=? scale x then mant x * 2 ^ scale x else mant x / 2 ^ (- scale x).

(** [x == x.trunc()]: true of infinities, false of NaN. *)
Definition is_integral (x : f64) : bool :=
  if is_nan x then false
  else if is_infinite x then true
  else (0 <=? scale x) || (mant x mod 2 ^ (- scale x) =? 0).

(** [x as i64]: truncates, saturates, and takes NaN to zero. *)
Definition as_i64 (x : f64) : Z :=
  if is_nan x then 0
  else
    let m := if is_infinite x then 2 ^ 63 else magnitude x in
    Z.max i64_min (Z.min i64_max (if sign x then - m else m)).
End F64.

(** The decimal text of a float: [format!("{x}")] and [str::parse::<f64>]. *)
Class FloatText := {
  display : f64 → bytes;
  parse_f64 : bytes → option f64;
  (* the result has 64 bits *)
  parse_f64_ok s x : parse_f64 s = Some x → f64_ok x
}.

(** ** Replies *)

#[local] Set Warnings "-register-all".

Inductive Reply :=
  | Simple (s : bytes)
  | Error (s : bytes)
  | Int (n : Z)
  | Bulk (b : option bytes)
  | Array (items : option (list Reply))
  | Null
  | Bool (b : bool)
  | Double (d : f64)
  | Map (pairs : list (Reply * Reply)).

Definition ok : Reply := Simple (lit "OK").

Section encode.
Context {FT : FloatText}.

Definition format_double (d : f64) : bytes :=
  if F64.is_infinite d then (if F64.is_positive d then lit "inf" else lit "-inf")
  else if F64.is_nan d then lit "nan"
  else display d.

Fixpoint encode (r : Reply) (out : bytes) (resp3 : bool) : bytes :=
  match r with
  | Simple s => out ++ [x2b] ++ s ++ Resp.CRLF
  | Error s => out ++ [x2d] ++ s ++ Resp.CRLF
  | Int n => out ++ [x3a] ++ i64_to_string n ++ Resp.CRLF
  | Bulk None => out ++ (if resp3 then lit "_" else lit "$-1") ++ Resp.CRLF
  | Bulk (Some b) =>
      out ++ [x24] ++ u64_to_string (Z.of_nat (length b)) ++ Resp.CRLF ++ b ++ Resp.CRLF
  | Array None => out ++ (if resp3 then lit "_" else lit "*-1") ++ Resp.CRLF
  | Array (Some items) =>
      let out := out ++ [x2a] ++ u64_to_string (Z.of_nat (length items)) ++ Resp.CRLF in
      (fix go (items : list Reply) (out : bytes) : bytes :=
         match items with
         | [] => out
         | it :: items => go items (encode it out resp3)
         end) items out
  | Null => out ++ (if resp3 then lit "_" else lit "$-1") ++ Resp.CRLF
  | Bool b =>
      out ++ (if resp3 then (if b then lit "#t" else lit "#f")
              else (if b then lit ":1" else lit ":0")) ++ Resp.CRLF
  | Double d =>
      if resp3 then out ++ [x2c] ++ format_double d ++ Resp.CRLF
      else
        let s := format_double d in
        out ++ [x24] ++ u64_to_string (Z.of_nat (length s)) ++ Resp.CRLF ++ s ++ Resp.CRLF
  | Map pairs =>
      let out :=
        if resp3 then out ++ [x25] ++ u64_to_string (Z.of_nat (length pairs)) ++ Resp.CRLF
        else out ++ [x2a] ++ u64_to_string (Z.of_nat (length pairs) * 2) ++ Resp.CRLF in
      (fix go (pairs : list (Reply * Reply)) (out : bytes) : bytes :=
         match pairs with
         | [] => out
         | (k, v) :: pairs => go pairs (encode v (encode k out resp3) resp3)
         end) pairs out
  end.

Definition to_bytes (r : Reply) (resp3 : bool) : bytes := encode r [] resp3.

End encode.
