(* ===== verification/RespProps.v ===== *)
(** * Properties of the protocol *)
From S2P Require Import Prelude Std Value Resp RespOk Reply.
Local Open Scope Z_scope.

Import Resp.

(** ** Writers *)

Section writers.
Implicit Types (out tmp data : bytes).

Lemma uint_loop_spec i tmp v :
  0 <= v < 10 ^ Z.of_nat i → (i <= length tmp)%nat →
  ∃ tmp' i', uint_loop i tmp i v = Some (tmp', i') ∧ drop i' tmp' = dec_loop i v (drop i tmp).
Proof.
  revert tmp v. induction i as [|i IH]; intros tmp v Hv Hi.
  - change (10 ^ Z.of_nat 0) with 1 in Hv. replace v with 0 by lia. simpl. eauto.
  - simpl. destruct (Z.leb_spec v 0) as [Hz|Hpos].
    { replace v with 0 by lia. simpl. eauto. }
    destruct (Z.eqb_spec v 0); [lia|].
    rewrite Nat2Z.inj_succ, Z.pow_succ_r in Hv by lia.
    destruct (IH (<[i := byte_of (48 + v `mod` 10)]> tmp) (v / 10)) as (tmp' & i' & Hl & Hd).
    + split; [apply Z.div_pos; lia|]. apply Z.div_lt_upper_bound; lia.
    + rewrite length_insert. lia.
    + exists tmp', i'. split; [done|]. rewrite Hd. f_equal.
      rewrite (drop_S _ (byte_of (48 + v `mod` 10)) i) by (apply list_lookup_insert_eq; lia).
      unfold digit. f_equal. apply drop_insert_lt; lia.
Qed.

(** The stack buffer is long enough for every [u64]. *)
Lemma write_uint_spec out v : 0 <= v < 2 ^ 64 → write_uint out v = Some (out ++ u64_to_string v).
Proof.
  intros Hv. unfold write_uint, u64_to_string. destruct (Z.eqb_spec v 0); [done|].
  destruct (uint_loop_spec 20 (replicate 20 x00) v) as (tmp & i & -> & Hd).
  - split; [lia|]. etrans; [apply Hv|]. done.
  - done.
  - simpl. rewrite Hd. done.
Qed.

Context {FT : FloatText}.

Lemma write_bulk_encode out data (resp3 : bool) :
  Z.of_nat (length data) < 2 ^ 64 → write_bulk out data = Some (encode (Bulk (Some data)) out resp3).
Proof.
  intros Hd. unfold write_bulk. rewrite write_uint_spec by lia. simpl. by rewrite <- !app_assoc.
Qed.

Lemma write_int_encode out n (resp3 : bool) :
  in_i64 n = true → write_int out n = Some (encode (Int n) out resp3).
Proof.
  intros Hn%in_i64_spec. unfold write_int. simpl. unfold i64_to_string. destruct (Z.ltb_spec n 0).
  - rewrite Z.abs_neq, write_uint_spec by lia. simpl. by rewrite <- !app_assoc.
  - rewrite write_uint_spec by lia. simpl. by rewrite <- !app_assoc.
Qed.

End writers.

(** ** Properties *)

Section props.
Context {FT : FloatText}.
Implicit Types (args : list bytes) (buf t out : bytes).

(** C25: a command written as text is read back.  The text [write_cmd] produces,
    followed by anything, parses to the same arguments and consumes exactly the
    text, for every command within the parser's limits; and while any of it is
    missing the parser asks for more input. *)
Theorem resp_command_round_trip args t :
  command_fits args →
  parse_command (write_cmd [] args ++ t) = Complete (args, length (write_cmd [] args)) ∧
  ∀ n, (n < length (write_cmd [] args))%nat →
    parse_command (take n (write_cmd [] args)) = Incomplete.
Proof.
  intros Hfit. split; [by apply parse_encoded|]. intros n Hn. by apply parse_encoded_prefix.
Qed.

(** C26: the zero-copy parser agrees with the owned one on every input: the same
    verdict, the same number of bytes consumed, and ranges that cut out the
    same arguments. *)
Theorem resp_ranges_equiv buf argv :
  parse_command buf =
  match parse_command_ranges buf argv with
  | (ranges, Complete consumed) =>
      Complete ((fun r => slice buf r.1 (r.1 + r.2)) <$> ranges, consumed)
  | (_, Incomplete) => Incomplete
  | (_, Failed e) => Failed e
  end.
Proof.
  rewrite <- (parse_ranges_owned buf argv). unfold owned.
  destruct (parse_command_ranges buf argv) as [r [| |]]; done.
Qed.

(** Parsing a stream makes progress and does not look back.  A parsed
    command consumes at least one byte and no more than there are, and it is
    the same whatever arrives after it. *)
Theorem resp_parse_stream buf t argv consumed :
  parse_command buf = Complete (argv, consumed) →
  (0 < consumed <= length buf)%nat ∧ parse_command (buf ++ t) = Complete (argv, consumed).
Proof.
  intros Hp. split; [by eapply parse_command_bounds|by apply parse_command_complete_app].
Qed.

(** the writers of the fast path produce the encoding of the reply they
    stand for, and the digit loop never leaves its 20-byte buffer. *)
Theorem resp_writers_encode out data n (resp3 : bool) :
  Z.of_nat (length data) < 2 ^ 64 → in_i64 n = true →
  write_bulk out data = Some (encode (Bulk (Some data)) out resp3) ∧
  write_int out n = Some (encode (Int n) out resp3) ∧
  write_null out resp3 = encode Null out resp3 ∧
  write_simple out data = encode (Simple data) out resp3 ∧
  write_error out data = encode (Error data) out resp3.
Proof.
  intros Hd Hn. split_and!; [by apply write_bulk_encode|by apply write_int_encode|..];
    by destruct resp3.
Qed.

End props.

(** ** Witnesses *)

Lemma resp_command_round_trip_witness :
  parse_command (lit "*2" ++ CRLF ++ lit "$3" ++ CRLF ++ lit "GET" ++ CRLF ++ lit "$1" ++ CRLF
                   ++ lit "k" ++ CRLF ++ lit "PING") =
  Complete ([lit "GET"; lit "k"], 20%nat).
Proof.
  assert (command_fits [lit "GET"; lit "k"]) as Hfit.
  { split; [by compute|]. repeat constructor; by compute. }
  exact (proj1 (resp_command_round_trip [lit "GET"; lit "k"] (lit "PING") Hfit)).
Defined.

Lemma resp_parse_stream_witness :
  parse_command (lit "PING x" ++ CRLF ++ lit "*1") = Complete ([lit "PING"; lit "x"], 8%nat).
Proof.
  exact (proj2 (resp_parse_stream (lit "PING x" ++ CRLF) (lit "*1") [lit "PING"; lit "x"] 8
    ltac:(vm_compute; reflexivity))).
Defined.

(** A stand-in for the decimal text of floats. *)
Definition demo_float_text : FloatText.
Proof. by refine {| display x := u64_to_string x; parse_f64 _ := None |}. Defined.

Lemma resp_writers_encode_witness :
  write_int [] i64_min = Some (lit ":-9223372036854775808" ++ CRLF).
Proof.
  exact (proj1 (proj2 (resp_writers_encode (FT := demo_float_text) [] (lit "v") i64_min false
    ltac:(by compute) ltac:(by compute)))).
Defined.
