(* ===== verification/Dump.v ===== *)
(** * Snapshots of the store as commands ([crates/core/src/store.rs], lines 763 to 872)

    [dump_commands] writes, for every live entry, the commands that recreate
    it, in the protocol's text form. *)
From S2P Require Import Prelude Std Map Value Shard Store Resp Reply.
Local Open Scope Z_scope.

Section dump.
Context {HO : HashOrder} {FT : FloatText}.

Definition fmt_score (s : f64) : bytes :=
  if F64.is_integral s && F64.is_finite s then i64_to_string (F64.as_i64 s) else display s.

Definition recreate_args (key : bytes) (v : Value) : list bytes :=
  match v with
  | VStr v => [lit "SET"; key; v]
  | VList l => lit "RPUSH" :: key :: l
  | VHash h => lit "HSET" :: key :: (iter_map h ≫= fun '(f, v) => [f; v])
  | VSet s => lit "SADD" :: key :: iter_set s
  | VZSet z => lit "ZADD" :: key :: (ZSet.sorted z ≫= fun '(sc, m) => [fmt_score sc; m])
  end.

Definition encode_recreate (out key : bytes) (v : Value) : bytes :=
  Resp.write_cmd out (recreate_args key v).

Definition dump_entry (now : Z) (out : bytes) (kv : bytes * Entry) : bytes :=
  let '(k, e) := kv in
  if Shard.unexpired now e then
    let out := encode_recreate out k (value e) in
    match expire_at e with
    | Some t => Resp.write_cmd out [lit "PEXPIREAT"; k; u64_to_string t]
    | None => out
    end
  else out.

Definition dump_shard (now : Z) (out : bytes) (s : Shard.t) : bytes :=
  foldl (dump_entry now) out (FlatMap.iter (Shard.map s)).

Definition dump_commands (now : Z) (st : Store.t) : bytes :=
  foldl (dump_shard now) [] (Store.shards st).

End dump.
