(* ===== verification/Float.v ===== *)
(** * The text of floating-point numbers

    What the sources use of the standard library for [f64]: [str::parse], which
    gives the number nearest to a decimal, and [Display], which gives the shortest
    decimal that is read back as the number.  Both are computed exactly, on
    integers.  An [f64] is its bit pattern. *)
From S2P Require Import Prelude Std Map Value Shard Store Resp Reply Dump.
Local Open Scope Z_scope.

(** ** The number nearest to a fraction *)

(** [n / (d * 2 ^ e)] as a fraction. *)
Definition scaled (n d e : Z) : Z * Z :=
  if 0 <=? e then (n, d * 2 ^ e) else (n * 2 ^ (- e), d).

Definition round_half_even (n d : Z) : Z :=
  let q := n / d in
  let r := n mod d in
  if (2 * r <? d) || ((2 * r =? d) && Z.even q) then q else q + 1.

(** The largest [l] with [2 ^ l <= n / d]. *)
Definition floor_log2 (n d : Z) : Z :=
  let l := Z.log2 n - Z.log2 d in
  let '(n, d) := scaled n d l in
  if n <? d then l - 1 else l.

Definition INFINITY : f64 := 2047 * 2 ^ 52.
Definition NAN : f64 := 2047 * 2 ^ 52 + 2 ^ 51.

(** The bits of [m * 2 ^ e]; [m = 2 ^ 53] is the next power of two. *)
Definition bits (m e : Z) : f64 := if m <? 2 ^ 52 then m else (e + 1075) * 2 ^ 52 + (m - 2 ^ 52).

(** The number nearest to the positive fraction [n / d]. *)
Definition nearest (n d : Z) : f64 :=
  let e := Z.max (floor_log2 n d - 52) (-1074) in
  let '(n, d) := scaled n d e in
  let x := bits (round_half_even n d) e in
  if INFINITY <=? x then INFINITY else x.

(** ** Parsing *)

Definition digit_of (b : byte) : option Z :=
  let v := byte_val b - 48 in if (0 <=? v) && (v <=? 9) then Some v else None.

(** The digits at the beginning of a text, after [n] digits of value [w]. *)
Fixpoint take_digits (w n : Z) (s : bytes) : Z * Z * bytes :=
  match s with
  | b :: s' =>
      match digit_of b with
      | Some v => take_digits (w * 10 + v) (n + 1) s'
      | None => (w, n, s)
      end
  | [] => (w, n, [])
  end.

(** The digits of an exponent; beyond 65536 they no longer matter. *)
Fixpoint take_exponent (w : Z) (s : bytes) : option Z :=
  match s with
  | [] => Some w
  | b :: s => v ← digit_of b; take_exponent (if w <? 65536 then w * 10 + v else w) s
  end.

Definition parse_exponent (s : bytes) : option Z :=
  let '(neg, s) :=
    match s with x2d :: s => (true, s) | x2b :: s => (false, s) | _ => (false, s) end in
  match s with
  | [] => None
  | _ => x ← take_exponent 0 s; Some (if (neg : bool) then - x else x)
  end.

(** A decimal [w * 10 ^ x]: digits, a point, digits, and an exponent. *)
Definition parse_number (s : bytes) : option (Z * Z) :=
  let '(w, n, s) := take_digits 0 0 s in
  let '(w, f, s) := match s with x2e :: s => take_digits w 0 s | _ => (w, 0, s) end in
  if n + f =? 0 then None
  else
    match s with
    | [] => Some (w, - f)
    | b :: s =>
        if bool_decide (to_ascii_lowercase b = x65)
        then x ← parse_exponent s; Some (w, x - f)
        else None
    end.

Definition from_decimal (w x : Z) : f64 :=
  if w =? 0 then 0 else if 0 <=? x then nearest (w * 10 ^ x) 1 else nearest w (10 ^ (- x)).

(** A number without a sign. *)
Definition parse_abs (s : bytes) : option f64 :=
  match parse_number s with
  | Some (w, x) => Some (from_decimal w x)
  | None =>
      if eq_ignore_ascii_case s (lit "nan") then Some NAN
      else if eq_ignore_ascii_case s (lit "inf") || eq_ignore_ascii_case s (lit "infinity")
      then Some INFINITY
      else None
  end.

(** [str::parse::<f64>] *)
Definition parse_float (s : bytes) : option f64 :=
  match s with
  | x2d :: s => x ← parse_abs s; Some (x + 2 ^ 63)
  | x2b :: s => parse_abs s
  | _ => parse_abs s
  end.

(** ** Formatting *)

(** All decimal digits of an integer. *)
Definition decimal (n : Z) : bytes :=
  if n =? 0 then [digit 0] else dec_loop (S (Z.to_nat (Z.log2 n))) n [].

(** [k] decimal digits. *)
Fixpoint fixed (k : nat) (n : Z) (acc : bytes) : bytes :=
  match k with O => acc | S k => fixed k (n / 10) (digit (n mod 10) :: acc) end.

(** [c * 10 ^ -k] with as few decimals as possible. *)
Fixpoint reduce (k : nat) (c : Z) : Z * nat :=
  match k with
  | O => (c, O)
  | S k' => if c mod 10 =? 0 then reduce k' (c / 10) else (c, k)
  end.

(** [c * 10 ^ -k] in positional notation. *)
Definition positional (c : Z) (k : nat) : bytes :=
  let '(c, k) := reduce k c in
  match k with
  | O => decimal c
  | _ => decimal (c / 10 ^ Z.of_nat k) ++ x2e :: fixed k (c mod 10 ^ Z.of_nat k) []
  end.

(** The shortest decimal that is read back as [x = v * 10 ^ -k]: cut [v] off at
    one digit, two digits and so on, down or up; [u] is the unit of the last
    digit.  When both are read back the nearer one is taken. *)
Fixpoint shortest (fuel : nat) (x : f64) (v : Z) (k : nat) (u : Z) : bytes :=
  match fuel with
  | O => positional v k
  | S fuel =>
      let lo := v / u * u in
      let hi := lo + u in
      let down := bool_decide (parse_abs (positional lo k) = Some x) in
      let up := bool_decide (parse_abs (positional hi k) = Some x) in
      if down && negb (up && (u <=? 2 * (v - lo))) then positional lo k
      else if up then positional hi k
      else shortest fuel x v k (u / 10)
  end.

(** The exact decimal of a finite number, as an integer and its decimals. *)
Definition exact (x : f64) : Z * nat :=
  let e := F64.scale x in
  if 0 <=? e then (F64.mant x * 2 ^ e, O) else (F64.mant x * 5 ^ (- e), Z.to_nat (- e)).

(** [format!("{x}")] *)
Definition display_float (x : f64) : bytes :=
  if F64.is_nan x then lit "NaN"
  else
    (if F64.sign x then [x2d] else []) ++
    (if F64.is_infinite x then lit "inf"
     else if F64.mant x =? 0 then lit "0"
     else
       let '(v, k) := exact x in
       let n := pred (length (decimal v)) in
       shortest n (x mod 2 ^ 63) v k (10 ^ Z.of_nat n)).
