(* ===== verification/FloatOk.v ===== *)
(** * The text of scores

    [parse_float] reads the exact decimal of a number back, whatever way the
    decimal is written; [display_float] gives a text that is read back; and what
    the text [fmt_score] writes for a score is read back as, for every score. *)
From S2P Require Import Prelude Std Map Value Shard Store Resp Reply Dump Float.
Local Open Scope Z_scope.

(** ** The bits of a number *)

Lemma exponent_div x : 0 <= x → F64.exponent x = x / 2 ^ 52 mod 2 ^ 11.
Proof.
  intros Hx. unfold F64.exponent. rewrite Z.shiftr_div_pow2 by lia.
  change 2047 with (Z.ones 11). by rewrite Z.land_ones by lia.
Qed.

Lemma fraction_mod x : F64.fraction x = x mod 2 ^ 52.
Proof.
  unfold F64.fraction. change (2 ^ 52 - 1) with (Z.ones 52). by rewrite Z.land_ones by lia.
Qed.

Lemma sign_spec x : f64_ok x → F64.sign x = (2 ^ 63 <=? x).
Proof.
  unfold f64_ok, F64.sign. intros Hx. apply eq_bool_prop_intro.
  rewrite !Is_true_true, Z.leb_le, Z.testbit_true by lia.
  assert (0 <= x / 2 ^ 63 < 2) as Hq.
  { split; [apply Z.div_pos; lia|]. apply Z.div_lt_upper_bound; lia. }
  rewrite (Z.mod_small _ _ Hq). pose proof (Z.div_mod x (2 ^ 63)).
  pose proof (Z.mod_pos_bound x (2 ^ 63)). nia.
Qed.

Lemma finite_plain x : F64.is_finite x = true → F64.is_nan x = false ∧ F64.is_infinite x = false.
Proof.
  unfold F64.is_finite, F64.is_nan, F64.is_infinite. by intros ->%negb_true_iff.
Qed.

(** The bits below the sign. *)
Lemma exponent_abs x : 0 <= x → F64.exponent (x mod 2 ^ 63) = F64.exponent x.
Proof.
  intros Hx. rewrite !exponent_div by (try apply Z.mod_pos_bound; lia).
  change (2 ^ 63) with (2 ^ 52 * 2 ^ 11). rewrite Z.rem_mul_r by lia.
  rewrite Z.mul_comm, Z.div_add by lia. rewrite (Z.div_small (x mod 2 ^ 52)).
  - by rewrite Z.add_0_l, Z.mod_mod.
  - apply Z.mod_pos_bound. lia.
Qed.

Lemma fraction_abs x : F64.fraction (x mod 2 ^ 63) = F64.fraction x.
Proof.
  rewrite !fraction_mod. change (2 ^ 63) with (2 ^ 52 * 2 ^ 11).
  rewrite Z.rem_mul_r by lia. rewrite Z.mul_comm, Z.mod_add by lia. by rewrite Z.mod_mod.
Qed.

Lemma mant_abs x : 0 <= x → F64.mant (x mod 2 ^ 63) = F64.mant x.
Proof. intros Hx. unfold F64.mant. by rewrite exponent_abs, fraction_abs. Qed.

Lemma scale_abs x : 0 <= x → F64.scale (x mod 2 ^ 63) = F64.scale x.
Proof. intros Hx. unfold F64.scale. by rewrite exponent_abs. Qed.

Lemma magnitude_abs x : 0 <= x → F64.magnitude (x mod 2 ^ 63) = F64.magnitude x.
Proof. intros Hx. unfold F64.magnitude. by rewrite scale_abs, mant_abs. Qed.

(** The mantissa and scale of a finite number, and its bits. *)
Definition canonical (m e : Z) : Prop :=
  0 <= m < 2 ^ 53 ∧ -1074 <= e <= 971 ∧ (2 ^ 52 <= m ∨ e = -1074).

Lemma finite_canonical x :
  0 <= x → F64.is_finite x = true → canonical (F64.mant x) (F64.scale x).
Proof.
  intros Hx Hf. unfold canonical, F64.mant, F64.scale. unfold F64.is_finite in Hf.
  apply negb_true_iff, Z.eqb_neq in Hf.
  rewrite fraction_mod. pose proof (Z.mod_pos_bound x (2 ^ 52)) as Hm.
  assert (0 <= F64.exponent x < 2048).
  { rewrite exponent_div by done. apply Z.mod_pos_bound. lia. }
  destruct (Z.eqb_spec (F64.exponent x) 0) as [->|]; lia.
Qed.

Lemma bits_mant_scale x : 0 <= x < 2 ^ 63 → bits (F64.mant x) (F64.scale x) = x.
Proof.
  intros Hx. unfold bits, F64.mant, F64.scale. rewrite fraction_mod, exponent_div by lia.
  pose proof (Z.mod_pos_bound x (2 ^ 52)). pose proof (Z.div_mod x (2 ^ 52)).
  assert (0 <= x / 2 ^ 52 < 2 ^ 11) as Hq.
  { split; [apply Z.div_pos; lia|]. apply Z.div_lt_upper_bound; lia. }
  rewrite (Z.mod_small _ _ Hq).
  destruct (Z.eqb_spec (x / 2 ^ 52) 0) as [E0|E0].
  - destruct (Z.ltb_spec (x mod 2 ^ 52) (2 ^ 52)); lia.
  - destruct (Z.ltb_spec (x mod 2 ^ 52 + 2 ^ 52) (2 ^ 52)); lia.
Qed.

(** ** The nearest number *)

(** [n / d] is at least [2 ^ j], on a common denominator [2 ^ K]. *)
Definition reaches (n d j : Z) : Prop := (scaled n d j).2 <= (scaled n d j).1.

Lemma reaches_spec K n d j :
  0 <= K → 0 <= j + K → reaches n d j ↔ d * 2 ^ (j + K) <= n * 2 ^ K.
Proof.
  intros HK HjK. unfold reaches, scaled. destruct (Z.leb_spec 0 j); simpl.
  - rewrite Z.pow_add_r, Z.mul_assoc by lia.
    apply Z.mul_le_mono_pos_r, Z.pow_pos_nonneg; lia.
  - replace (n * 2 ^ K) with (n * 2 ^ (- j) * 2 ^ (j + K)).
    + apply Z.mul_le_mono_pos_r, Z.pow_pos_nonneg; lia.
    + rewrite <- Z.mul_assoc, <- Z.pow_add_r by lia. do 2 f_equal. lia.
Qed.

Lemma reaches_unique n d i j :
  0 < d → reaches n d i → ¬ reaches n d (i + 1) → reaches n d j → ¬ reaches n d (j + 1) → i = j.
Proof.
  intros Hd. set (K := Z.abs i + Z.abs j).
  rewrite !(reaches_spec K) by lia. intros Hi Hi' Hj Hj'.
  assert (∀ a b, 0 <= a + 1 + K → a < b → d * 2 ^ (a + 1 + K) <= d * 2 ^ (b + K)) as Hmono.
  { intros a b Ha Hab. apply Z.mul_le_mono_pos_l; [done|]. apply Z.pow_le_mono_r; lia. }
  destruct (Z.lt_trichotomy i j) as [H|[H|H]]; [|done|].
  - pose proof (Hmono i j). lia.
  - pose proof (Hmono j i). lia.
Qed.

Lemma floor_log2_spec n d :
  0 < n → 0 < d → reaches n d (floor_log2 n d) ∧ ¬ reaches n d (floor_log2 n d + 1).
Proof.
  intros Hn Hd. pose proof (Z.log2_spec n Hn) as [Hn1 Hn2]. pose proof (Z.log2_spec d Hd) as [Hd1 Hd2].
  pose proof (Z.log2_nonneg n). pose proof (Z.log2_nonneg d).
  unfold floor_log2. set (a := Z.log2 n) in *. set (b := Z.log2 d) in *.
  assert (reaches n d (a - b - 1)) as Hlow.
  { apply (reaches_spec (b + 1)); [lia..|]. replace (a - b - 1 + (b + 1)) with a by lia.
    rewrite <- Z.add_1_r in Hd2. rewrite (Z.mul_comm n). apply Z.mul_le_mono_nonneg; lia. }
  assert (¬ reaches n d (a - b + 1)) as Hhigh.
  { rewrite (reaches_spec b) by lia. replace (a - b + 1 + b) with (a + 1) by lia.
    apply Z.lt_nge. rewrite <- Z.add_1_r in Hn2. rewrite (Z.mul_comm n).
    apply Z.lt_le_trans with (2 ^ b * 2 ^ (a + 1)).
    - apply Z.mul_lt_mono_pos_l; [apply Z.pow_pos_nonneg; lia|done].
    - apply Z.mul_le_mono_nonneg_r; [|done]. apply Z.pow_nonneg. lia. }
  destruct (scaled n d (a - b)) as [n' d'] eqn:Hs.
  assert (reaches n d (a - b) ↔ d' <= n') as Hmid by (unfold reaches; by rewrite Hs).
  destruct (Z.ltb_spec n' d').
  - split; [done|]. replace (a - b - 1 + 1) with (a - b) by lia. rewrite Hmid. lia.
  - split; [by apply Hmid|done].
Qed.

(** [n / d = m * 2 ^ e] *)
Definition equals (n d m e : Z) : Prop := (scaled n d e).1 = m * (scaled n d e).2.

Lemma equals_spec K n d m e :
  0 <= K → 0 <= e + K → equals n d m e → n * 2 ^ K = m * (d * 2 ^ (e + K)).
Proof.
  intros HK HeK. unfold equals, scaled. destruct (Z.leb_spec 0 e); simpl; intros He.
  - rewrite He, Z.pow_add_r by lia. lia.
  - replace (2 ^ K) with (2 ^ (- e) * 2 ^ (e + K)) by (rewrite <- Z.pow_add_r by lia; f_equal; lia).
    rewrite !Z.mul_assoc. by rewrite He.
Qed.

Lemma equals_floor_log2 n d m e :
  0 < n → 0 < d → 0 < m → equals n d m e → floor_log2 n d = Z.log2 m + e.
Proof.
  intros Hn Hd Hm He. destruct (floor_log2_spec n d Hn Hd) as [H1 H2].
  pose proof (Z.log2_spec m Hm) as [Hm1 Hm2]. pose proof (Z.log2_nonneg m).
  rewrite <- Z.add_1_r in Hm2. set (p := Z.log2 m) in *.
  assert (0 < d * 2 ^ (e + Z.abs e)) as HD by (apply Z.mul_pos_pos, Z.pow_pos_nonneg; lia).
  apply (reaches_unique n d); [done..| |];
    rewrite (reaches_spec (Z.abs e)), (equals_spec (Z.abs e) _ _ m e) by (done || lia).
  - replace (p + e + Z.abs e) with (p + (e + Z.abs e)) by lia. rewrite Z.pow_add_r by lia.
    rewrite (Z.mul_comm (2 ^ p)), Z.mul_assoc, (Z.mul_comm m). apply Z.mul_le_mono_pos_l; lia.
  - replace (p + e + 1 + Z.abs e) with (p + 1 + (e + Z.abs e)) by lia. rewrite Z.pow_add_r by lia.
    rewrite (Z.mul_comm (2 ^ (p + 1))), Z.mul_assoc, (Z.mul_comm m).
    apply Z.lt_nge, Z.mul_lt_mono_pos_l; lia.
Qed.

Lemma round_exact m d : 0 < d → round_half_even (m * d) d = m.
Proof.
  intros Hd. unfold round_half_even. rewrite Z.div_mul, Z.mod_mul by lia.
  by destruct (Z.ltb_spec (2 * 0) d); [|lia].
Qed.

Lemma canonical_bits m e : canonical m e → 0 <= bits m e < INFINITY.
Proof.
  unfold canonical, bits, INFINITY. intros (?&?&?). destruct (Z.ltb_spec m (2 ^ 52)); lia.
Qed.

(** A fraction that is a number is read as it. *)
Lemma nearest_exact n d m e :
  0 < n → 0 < d → 0 < m → canonical m e → equals n d m e → nearest n d = bits m e.
Proof.
  intros Hn Hd Hm Hc He. unfold nearest. rewrite (equals_floor_log2 _ _ _ _ Hn Hd Hm He).
  assert (Z.max (Z.log2 m + e - 52) (-1074) = e) as ->.
  { destruct Hc as (?&?&Hc). assert (Z.log2 m < 53) by (apply Z.log2_lt_pow2; lia).
    destruct Hc as [Hc| ->]; [|lia]. assert (52 <= Z.log2 m) by (apply Z.log2_le_pow2; lia). lia. }
  unfold equals in He. destruct (scaled n d e) as [n' d'] eqn:Hs. simpl in He. subst n'.
  assert (0 < d').
  { unfold scaled in Hs. case_match; simplify_eq; [|done]. apply Z.mul_pos_pos, Z.pow_pos_nonneg; lia. }
  rewrite round_exact by done. pose proof (canonical_bits m e Hc).
  destruct (Z.leb_spec INFINITY (bits m e)); lia.
Qed.

Lemma nearest_number x n d :
  0 <= x < 2 ^ 63 → F64.is_finite x = true → 0 < F64.mant x → 0 < n → 0 < d →
  equals n d (F64.mant x) (F64.scale x) → nearest n d = x.
Proof.
  intros Hx Hf Hm Hn Hd He.
  rewrite (nearest_exact n d _ _ Hn Hd Hm (finite_canonical x ltac:(lia) Hf) He).
  by apply bits_mant_scale.
Qed.

Lemma nearest_range n d : 0 < n → 0 < d → 0 <= nearest n d <= INFINITY.
Proof.
  intros Hn Hd. unfold nearest. set (e := Z.max _ _). assert (-1074 <= e) by lia.
  destruct (scaled n d e) as [n' d'] eqn:Hs.
  assert (0 <= n' ∧ 0 < d') as [Hn' Hd'].
  { unfold scaled in Hs. case_match; simplify_eq.
    - split; [lia|]. apply Z.mul_pos_pos, Z.pow_pos_nonneg; lia.
    - split; [|done]. apply Z.mul_nonneg_nonneg, Z.pow_nonneg; lia. }
  assert (0 <= round_half_even n' d') as Hr.
  { unfold round_half_even. pose proof (Z.div_pos n' d'). case_match; lia. }
  assert (0 <= bits (round_half_even n' d') e) by (unfold bits; case_match; lia).
  unfold INFINITY in *. destruct (Z.leb_spec (2047 * 2 ^ 52) (bits (round_half_even n' d') e)); lia.
Qed.

(** ** Digits *)

Lemma digit_of_spec b : is_digit b → digit_of b = Some (byte_val b - 48).
Proof.
  unfold is_digit, digit_of. intros Hb.
  destruct (Z.leb_spec 0 (byte_val b - 48)), (Z.leb_spec (byte_val b - 48) 9); [done|lia..].
Qed.

(** Digits are read up to the first byte that is none. *)
Lemma take_digits_app w n s t v :
  Forall is_digit s → parse_digits w (byte_val <$> s) = Some v →
  match t with b :: _ => digit_of b = None | [] => True end →
  take_digits w n (s ++ t) = (v, n + Z.of_nat (length s), t).
Proof.
  intros Hs. revert w n. induction Hs as [|b s Hb _ IH]; intros w n.
  - intros [= ->] Ht. rewrite Z.add_0_r. destruct t as [|b t]; [done|]. simpl. by rewrite Ht.
  - rewrite fmap_cons. simpl. rewrite (digit_of_spec b Hb). unfold is_digit in Hb.
    destruct (Z.leb_spec 48 (byte_val b)), (Z.leb_spec (byte_val b) 57); [|lia..]. simpl.
    intros Hv Ht. rewrite (IH _ _ Hv Ht). do 2 f_equal. lia.
Qed.

Lemma decimal_digits c : 0 <= c → Forall is_digit (decimal c).
Proof.
  intros Hc. unfold decimal. destruct (c =? 0); [|by apply dec_loop_digits].
  repeat constructor; rewrite byte_val_digit; lia.
Qed.

Lemma decimal_value c : 0 <= c → parse_digits 0 (byte_val <$> decimal c) = Some c.
Proof.
  intros Hc. unfold decimal. destruct (Z.eqb_spec c 0) as [->|Hne]; [done|].
  rewrite dec_loop_value; [done|]. split; [done|].
  pose proof (Z.log2_spec c ltac:(lia)) as [_ Hl]. eapply Z.lt_le_trans; [exact Hl|].
  pose proof (Z.log2_nonneg c). rewrite Nat2Z.inj_succ, Z2Nat.id by done. apply Z.pow_le_mono_l. lia.
Qed.

Lemma decimal_nonempty c : decimal c ≠ [].
Proof.
  unfold decimal. destruct (c =? 0) eqn:Hc; [done|]. cbn [dec_loop]. rewrite Hc.
  destruct (dec_loop_acc (Z.to_nat (Z.log2 c)) (c / 10) [digit (c mod 10)]) as [ds ->].
  by destruct ds.
Qed.

Lemma fixed_spec k c acc w :
  0 <= c < 10 ^ Z.of_nat k → Forall is_digit acc →
  Forall is_digit (fixed k c acc) ∧ length (fixed k c acc) = (k + length acc)%nat ∧
  parse_digits w (byte_val <$> fixed k c acc) =
    parse_digits (w * 10 ^ Z.of_nat k + c) (byte_val <$> acc).
Proof.
  revert c acc w. induction k as [|k IH]; intros c acc w Hc Hacc.
  { change (10 ^ Z.of_nat 0) with 1 in *. split_and!; [done..|]. simpl. f_equal. lia. }
  pose proof (Z.mod_pos_bound c 10 ltac:(lia)) as Hm. pose proof (Z.div_mod c 10 ltac:(lia)).
  rewrite Nat2Z.inj_succ, Z.pow_succ_r in * by lia. simpl.
  destruct (IH (c / 10) (digit (c mod 10) :: acc) w) as (Hd&Hl&Hv).
  - split; [apply Z.div_pos; lia|]. apply Z.div_lt_upper_bound; lia.
  - constructor; [|done]. unfold is_digit. rewrite byte_val_digit; lia.
  - split_and!; [done|rewrite Hl; simpl; lia|]. rewrite Hv, fmap_cons. simpl.
    rewrite byte_val_digit by lia.
    destruct (Z.leb_spec 48 (48 + c mod 10)), (Z.leb_spec (48 + c mod 10) 57); [|lia..]. simpl.
    f_equal. lia.
Qed.

Lemma reduce_spec k c :
  0 <= c →
  let '(w, j) := reduce k c in 0 <= w ∧ (j <= k)%nat ∧ w * 10 ^ Z.of_nat (k - j) = c.
Proof.
  revert c. induction k as [|k IH]; intros c Hc; simpl; [lia|].
  destruct (Z.eqb_spec (c mod 10) 0) as [H0|H0]; [|rewrite Nat.sub_diag; lia].
  specialize (IH (c / 10) (Z.div_pos c 10 Hc ltac:(lia))). destruct (reduce k (c / 10)) as [w j].
  destruct IH as (Hw&Hj&He). split_and!; [done|lia|].
  replace (S k - j)%nat with (S (k - j)) by lia.
  rewrite Nat2Z.inj_succ, Z.pow_succ_r by lia. pose proof (Z.div_mod c 10). lia.
Qed.

Lemma parse_number_digits s v :
  Forall is_digit s → s ≠ [] → parse_digits 0 (byte_val <$> s) = Some v → parse_number s = Some (v, 0).
Proof.
  intros Hs Hne Hv. unfold parse_number. rewrite <- (app_nil_r s).
  rewrite (take_digits_app _ _ _ _ v) by done. destruct s as [|b s]; [done|]. rewrite length_cons.
  by destruct (Z.eqb_spec (0 + Z.of_nat (S (length s)) + 0) 0); [lia|].
Qed.

(** [c * 10 ^ -k] in positional notation is read as that fraction. *)
Lemma parse_positional c k :
  0 <= c → ∃ w j, (j <= k)%nat ∧ 0 <= w ∧ w * 10 ^ Z.of_nat (k - j) = c ∧
    parse_number (positional c k) = Some (w, - Z.of_nat j).
Proof.
  intros Hc. pose proof (reduce_spec k c Hc) as Hr. unfold positional.
  destruct (reduce k c) as [w j]. destruct Hr as (Hw&Hj&He). exists w, j. split_and!; [done..|].
  destruct j as [|j].
  - apply parse_number_digits; auto using decimal_digits, decimal_value, decimal_nonempty.
  - unfold parse_number. set (J := S j) in *. assert (0 < 10 ^ Z.of_nat J) as HJ by (apply Z.pow_pos_nonneg; lia).
    pose proof (Z.mod_pos_bound w _ HJ) as Hm. pose proof (Z.div_pos w _ Hw HJ) as Hq.
    rewrite (take_digits_app _ _ _ _ (w / 10 ^ Z.of_nat J)) by auto using decimal_digits, decimal_value.
    destruct (fixed_spec J (w mod 10 ^ Z.of_nat J) [] (w / 10 ^ Z.of_nat J)) as (Hd&Hl&Hv); [done..|].
    rewrite <- (app_nil_r (fixed J _ _)). rewrite (take_digits_app _ _ _ _ w); [|done| |done].
    + rewrite Hl, Nat.add_0_r.
      destruct (Z.eqb_spec (0 + Z.of_nat (length (decimal (w / 10 ^ Z.of_nat J))) + (0 + Z.of_nat J)) 0);
        [lia|]. by rewrite Z.add_0_l.
    + rewrite Hv. simpl. f_equal. pose proof (Z.div_mod w (10 ^ Z.of_nat J)). lia.
Qed.

Lemma positional_head c k : 0 <= c → ∃ b s, positional c k = b :: s ∧ is_digit b.
Proof.
  intros Hc. pose proof (reduce_spec k c Hc) as Hr. unfold positional.
  destruct (reduce k c) as [w j]. destruct Hr as (Hw&_&_).
  assert (∀ v t, 0 <= v → ∃ b s, decimal v ++ t = b :: s ∧ is_digit b) as Hhead.
  { intros v t Hv. pose proof (decimal_digits v Hv) as Hd. pose proof (decimal_nonempty v) as Hne.
    destruct (decimal v) as [|b s]; [done|]. apply Forall_cons in Hd as [Hb _].
    by exists b, (s ++ t). }
  destruct j; [rewrite <- (app_nil_r (decimal w)); by apply Hhead|].
  apply Hhead, Z.div_pos; [done|]. apply Z.pow_pos_nonneg; lia.
Qed.

Lemma parse_float_unsigned b s : is_digit b → parse_float (b :: s) = parse_abs (b :: s).
Proof.
  unfold is_digit. intros Hb.
  assert (b ≠ x2d) by (intros ->; change (byte_val x2d) with 45 in Hb; lia).
  assert (b ≠ x2b) by (intros ->; change (byte_val x2b) with 43 in Hb; lia).
  clear Hb. unfold parse_float. generalize (parse_abs (b :: s)). intros r.
  destruct b; first [contradiction|reflexivity].
Qed.

(** ** Numbers and their decimals *)

Section magnitude.
Context (x : f64) (Hx : 0 <= x < 2 ^ 63) (Hfin : F64.is_finite x = true) (Hpos : 0 < F64.mant x).

(** A decimal with the value of [x] is read as [x]. *)
Lemma from_decimal_exact w j :
  0 < w → equals w (10 ^ Z.of_nat j) (F64.mant x) (F64.scale x) → from_decimal w (- Z.of_nat j) = x.
Proof using Hx Hfin Hpos.
  intros Hw He. unfold from_decimal. destruct (Z.eqb_spec w 0); [lia|].
  assert (nearest w (10 ^ Z.of_nat j) = x) as Hn.
  { apply nearest_number; try done. apply Z.pow_pos_nonneg; lia. }
  destruct (Z.leb_spec 0 (- Z.of_nat j)).
  - replace j with O in * by lia. change (10 ^ Z.of_nat 0) with 1 in Hn. by rewrite Z.mul_1_r.
  - by rewrite Z.opp_involutive.
Qed.

(** The exact decimal is read back, in any positional notation. *)
Lemma parse_exact : let '(v, k) := exact x in 0 < v ∧ parse_abs (positional v k) = Some x.
Proof using Hx Hfin Hpos.
  assert (∀ v k, 0 < v →
    (∀ w j, (j <= k)%nat → 0 <= w → w * 10 ^ Z.of_nat (k - j) = v →
      equals w (10 ^ Z.of_nat j) (F64.mant x) (F64.scale x)) →
    parse_abs (positional v k) = Some x) as Hread.
  { intros v k Hv He. destruct (parse_positional v k) as (w&j&Hj&Hw&Hwv&Hp); [lia|].
    unfold parse_abs. rewrite Hp. f_equal. apply from_decimal_exact; [nia|by apply He]. }
  unfold exact. destruct (Z.leb_spec 0 (F64.scale x)) as [Hs|Hs].
  - assert (0 < F64.mant x * 2 ^ F64.scale x) as Hv by (apply Z.mul_pos_pos, Z.pow_pos_nonneg; lia).
    split; [done|]. apply Hread; [done|]. intros w j Hj Hw Hwv. replace j with O in * by lia.
    unfold equals, scaled. destruct (Z.leb_spec 0 (F64.scale x)); [|lia]. simpl in *. lia.
  - assert (0 < F64.mant x * 5 ^ (- F64.scale x)) as Hv by (apply Z.mul_pos_pos, Z.pow_pos_nonneg; lia).
    split; [done|]. apply Hread; [done|]. intros w j Hj Hw Hwv.
    unfold equals, scaled. destruct (Z.leb_spec 0 (F64.scale x)); [lia|]. simpl.
    set (k := - F64.scale x) in *. rewrite Nat2Z.inj_sub, Z2Nat.id in * by lia.
    apply (Z.mul_reg_r _ _ (10 ^ (k - Z.of_nat j))).
    { apply Z.pow_nonzero; lia. }
    rewrite <- !Z.mul_assoc, (Z.mul_comm (2 ^ k)), Z.mul_assoc, Hwv.
    rewrite <- !Z.mul_assoc, <- Z.pow_mul_l, <- Z.pow_add_r by lia. do 2 f_equal. lia.
Qed.

End magnitude.

Lemma shortest_reads n x v k u :
  0 <= v → 0 <= u → parse_abs (positional v k) = Some x →
  ∃ c, 0 <= c ∧ shortest n x v k u = positional c k ∧ parse_abs (positional c k) = Some x.
Proof.
  intros Hv. revert u. induction n as [|n IH]; intros u Hu Hp; [by exists v|].
  cbn [shortest]. set (lo := v / u * u).
  assert (0 <= lo) as Hlo.
  { apply Z.mul_nonneg_nonneg; [|done]. destruct (decide (u = 0)) as [->|]; [by rewrite Z.div_0_r|].
    apply Z.div_pos; lia. }
  repeat case_bool_decide; cbn [andb negb]; try (case_match; cbn [negb]);
    first [by exists lo|by exists (lo + u); split_and!; [lia|..]|apply IH; [apply Z.div_pos; lia|done]].
Qed.

(** ** Signs *)

Lemma sign_split x : f64_ok x → x = (if F64.sign x then 2 ^ 63 else 0) + x mod 2 ^ 63.
Proof.
  intros Hx. rewrite (sign_spec x Hx). unfold f64_ok in Hx. destruct (Z.leb_spec (2 ^ 63) x).
  - rewrite <- (Z.mod_unique x (2 ^ 63) 1 (x - 2 ^ 63)); lia.
  - rewrite Z.mod_small; lia.
Qed.

Lemma parse_signed x s :
  f64_ok x → (∃ b t, s = b :: t ∧ is_digit b) → parse_abs s = Some (x mod 2 ^ 63) →
  parse_float ((if F64.sign x then [x2d] else []) ++ s) = Some x.
Proof.
  intros Hx (b&t&->&Hb) Hs. pose proof (sign_split x Hx) as He. destruct (F64.sign x).
  - cbn [app parse_float]. rewrite Hs. cbn [mbind option_bind]. f_equal. lia.
  - rewrite app_nil_l, parse_float_unsigned by done. rewrite Hs. f_equal. lia.
Qed.

Section number.
Context (x : f64) (Hx : f64_ok x) (Hfin : F64.is_finite x = true).

Let Hx0 : 0 <= x := proj1 Hx.

Lemma abs_facts :
  0 <= x mod 2 ^ 63 < 2 ^ 63 ∧ F64.is_finite (x mod 2 ^ 63) = true ∧
  F64.mant (x mod 2 ^ 63) = F64.mant x ∧ F64.scale (x mod 2 ^ 63) = F64.scale x.
Proof using Hx Hfin.
  split_and!; [apply Z.mod_pos_bound; lia|apply Z.mod_pos_bound; lia| | |].
  - unfold F64.is_finite in *. by rewrite exponent_abs.
  - by apply mant_abs.
  - by apply scale_abs.
Qed.

Lemma display_reads : 0 < F64.mant x → parse_float (display_float x) = Some x.
Proof using Hx Hfin.
  intros Hm. destruct abs_facts as (Ha&Hf&Em&Es).
  pose proof (parse_exact (x mod 2 ^ 63) Ha Hf ltac:(lia)) as He.
  replace (exact (x mod 2 ^ 63)) with (exact x) in He by (unfold exact; by rewrite Em, Es).
  unfold display_float. destruct (finite_plain x Hfin) as [-> ->]. destruct (Z.eqb_spec (F64.mant x) 0); [lia|].
  destruct (exact x) as [v k]. destruct He as [Hv Hp].
  destruct (shortest_reads (pred (length (decimal v))) (x mod 2 ^ 63) v k
    (10 ^ Z.of_nat (pred (length (decimal v))))) as (c&Hc&->&Hcp); [lia|apply Z.pow_nonneg; lia|done|].
  apply parse_signed; [done|by apply positional_head|done].
Qed.

Lemma integer_reads :
  0 < F64.mant x → F64.is_integral x = true → F64.magnitude x < 2 ^ 63 →
  parse_float (i64_to_string (F64.as_i64 x)) = Some x.
Proof using Hx Hfin.
  intros Hm Hi Hlt. destruct abs_facts as (Ha&Hf&Em&Es).
  destruct (finite_plain x Hfin) as [Hn Hinf].
  assert (0 < F64.magnitude x ∧ equals (F64.magnitude x) 1 (F64.mant x) (F64.scale x)) as [Hpos He].
  { unfold F64.is_integral in Hi. rewrite Hn, Hinf in Hi.
    unfold equals, scaled, F64.magnitude in *. destruct (Z.leb_spec 0 (F64.scale x)); cbn [fst snd].
    - rewrite Z.mul_1_l. split; [|done]. apply Z.mul_pos_pos, Z.pow_pos_nonneg; lia.
    - cbn [orb] in Hi. apply Z.eqb_eq in Hi. rewrite Z.mul_1_r. set (d := 2 ^ (- F64.scale x)) in *.
      assert (0 < d) by (apply Z.pow_pos_nonneg; lia).
      pose proof (Z.div_mod (F64.mant x) d). nia. }
  set (M := F64.magnitude x) in *.
  assert (i64_to_string (F64.as_i64 x) = (if F64.sign x then [x2d] else []) ++ u64_to_string M) as ->.
  { unfold F64.as_i64. rewrite Hn, Hinf. fold M. unfold i64_to_string, i64_min, i64_max.
    destruct (F64.sign x).
    - rewrite Z.min_r, Z.max_r by lia. destruct (Z.ltb_spec (- M) 0); [|lia].
      by rewrite Z.opp_involutive.
    - rewrite Z.min_r, Z.max_r by lia. by destruct (Z.ltb_spec M 0); [lia|]. }
  pose proof (u64_to_string_digits M ltac:(lia)) as Hd.
  pose proof (u64_to_string_nonempty M) as Hne.
  apply parse_signed; [done| |].
  - destruct (u64_to_string M) as [|b t]; [done|]. apply Forall_cons in Hd as [Hb _]. by exists b, t.
  - unfold parse_abs. rewrite (parse_number_digits _ M) by (done || apply u64_to_string_value; lia).
    f_equal. apply (from_decimal_exact _ Ha Hf ltac:(lia) _ O); [done|]. by rewrite Em, Es.
Qed.

End number.

(** ** The standard library's text *)

Lemma from_decimal_range w y : 0 <= w → 0 <= from_decimal w y <= INFINITY.
Proof.
  intros Hw. unfold from_decimal. destruct (Z.eqb_spec w 0); [unfold INFINITY; lia|].
  destruct (Z.leb_spec 0 y); apply nearest_range; lia.
Qed.

Lemma take_digits_nonneg w n s : 0 <= w → 0 <= (take_digits w n s).1.1.
Proof.
  revert w n. induction s as [|b s IH]; intros w n Hw; [done|]. simpl.
  destruct (digit_of b) as [v|] eqn:Hv; [|done]. apply IH.
  unfold digit_of in Hv. case_match eqn:Hc; simplify_eq. lia.
Qed.

Lemma parse_number_nonneg s w y : parse_number s = Some (w, y) → 0 <= w.
Proof.
  unfold parse_number. pose proof (take_digits_nonneg 0 0 s ltac:(lia)) as Hw.
  destruct (take_digits 0 0 s) as [[w1 n] s1]. simpl in Hw.
  assert (∀ r, r = match s1 with x2e :: s => take_digits w1 0 s | _ => (w1, 0, s1) end → 0 <= r.1.1)
    as Hr.
  { intros r ->. destruct s1 as [|b s1]; [done|]. destruct b; try done. by apply take_digits_nonneg. }
  destruct (match s1 with x2e :: s => take_digits w1 0 s | _ => (w1, 0, s1) end) as [[w2 f] s2].
  specialize (Hr _ eq_refl). simpl in Hr. case_match; [done|]. destruct s2 as [|b s2]; [by intros [= <- _]|].
  case_bool_decide; [|done]. destruct (parse_exponent s2); simpl; [|done]. by intros [= <- _].
Qed.

Lemma parse_abs_range s x : parse_abs s = Some x → 0 <= x < 2 ^ 63.
Proof.
  unfold parse_abs. destruct (parse_number s) as [[w y]|] eqn:Hp.
  - intros [= <-]. apply parse_number_nonneg in Hp. pose proof (from_decimal_range w y Hp).
    unfold INFINITY in *. lia.
  - repeat case_match; intros [= <-]; unfold NAN, INFINITY; lia.
Qed.

Lemma parse_float_ok s x : parse_float s = Some x → f64_ok x.
Proof.
  assert (∀ s x, parse_abs s = Some x → f64_ok x) as Habs.
  { intros t y Hy%parse_abs_range. unfold f64_ok. lia. }
  assert (∀ s x, (y ← parse_abs s; Some (y + 2 ^ 63)) = Some x → f64_ok x) as Hneg.
  { intros t y. destruct (parse_abs t) as [z|] eqn:Hz; simpl; [|done]. intros [= <-].
    apply parse_abs_range in Hz. unfold f64_ok. lia. }
  unfold parse_float. destruct s as [|b s]; [apply Habs|]. generalize (b :: s). intros t.
  destruct b; first [apply Hneg|apply Habs].
Qed.

Definition rust_float_text : FloatText :=
  {| display := display_float; parse_f64 := parse_float; parse_f64_ok := parse_float_ok |}.

(** The score read from the text of a score: the sign of zero is lost, and
    beyond the range of an [i64] the text is that of the nearest [i64]. *)
Definition score_read (x : f64) : f64 :=
  if F64.is_nan x then NAN
  else if x =? 2 ^ 63 then 0
  else if F64.is_finite x && (2 ^ 63 <=? F64.magnitude x)
  then (if F64.sign x then 2 ^ 63 else 0) + bits (2 ^ 52) 11
  else x.

Lemma infinite_bits x :
  f64_ok x → F64.is_infinite x = true → x = (if F64.sign x then 2 ^ 63 else 0) + INFINITY.
Proof.
  intros Hx [He Hf]%andb_true_iff. rewrite (sign_split x Hx) at 1. f_equal.
  apply Z.eqb_eq in He, Hf. unfold f64_ok in Hx.
  rewrite <- (bits_mant_scale (x mod 2 ^ 63)) by (apply Z.mod_pos_bound; lia).
  rewrite mant_abs, scale_abs by lia. unfold F64.mant, F64.scale. by rewrite He, Hf.
Qed.

Lemma zero_bits x :
  f64_ok x → F64.is_finite x = true → F64.mant x = 0 → x = (if F64.sign x then 2 ^ 63 else 0).
Proof.
  intros Hx Hf Hm. rewrite (sign_split x Hx) at 1. unfold f64_ok in Hx.
  rewrite <- (bits_mant_scale (x mod 2 ^ 63)) by (apply Z.mod_pos_bound; lia).
  rewrite mant_abs, Hm by lia. apply Z.add_0_r.
Qed.

(** What is beyond [i64] is an integer, and its text is that of the bound. *)
Lemma large_text x :
  f64_ok x → F64.is_finite x = true → 2 ^ 63 <= F64.magnitude x →
  F64.is_integral x = true ∧ F64.as_i64 x = if F64.sign x then i64_min else i64_max.
Proof.
  intros Hx Hfin Hm. destruct (finite_plain x Hfin) as [Hn Hi].
  destruct (finite_canonical x (proj1 Hx) Hfin) as (Hmant&_&_).
  unfold F64.is_integral, F64.as_i64. rewrite Hn, Hi. split.
  - unfold F64.magnitude in Hm. destruct (Z.leb_spec 0 (F64.scale x)); [done|].
    assert (F64.mant x / 2 ^ (- F64.scale x) <= F64.mant x).
    { apply Z.div_le_upper_bound; [apply Z.pow_pos_nonneg; lia|].
      pose proof (Z.pow_pos_nonneg 2 (- F64.scale x) ltac:(lia) ltac:(lia)). nia. }
    lia.
  - unfold i64_min, i64_max in *. destruct (F64.sign x); lia.
Qed.

(** C28: [fmt_score] against the parser of scores: for every score the text is
    read back as the score itself, except that a negative zero becomes zero and
    that a finite score of magnitude [2 ^ 63] or more becomes [2 ^ 63] with its
    sign (and a NaN the canonical one). *)
Theorem score_text_round_trip x :
  f64_ok x → parse_f64 (FloatText := rust_float_text) (fmt_score (FT := rust_float_text) x) =
    Some (score_read x).
Proof.
  intros Hx. unfold fmt_score, score_read. cbn [display parse_f64 rust_float_text].
  destruct (F64.is_finite x) eqn:Hfin.
  - destruct (finite_plain x Hfin) as [-> _]. rewrite andb_true_r, andb_true_l.
    destruct (decide (F64.mant x = 0)) as [H0|H0].
    { pose proof (zero_bits x Hx Hfin H0) as ->. by destruct (F64.sign x). }
    assert (0 < F64.mant x) as Hpos by (pose proof (finite_canonical x (proj1 Hx) Hfin) as [? _]; lia).
    assert ((x =? 2 ^ 63) = false) as -> by (apply Z.eqb_neq; by intros ->).
    destruct (Z.leb_spec (2 ^ 63) (F64.magnitude x)) as [Hbig|Hsmall].
    + destruct (large_text x Hx Hfin Hbig) as [-> ->]. by destruct (F64.sign x).
    + destruct (F64.is_integral x) eqn:Hi; [by apply integer_reads|by apply display_reads].
  - rewrite andb_false_r, andb_false_l. unfold display_float.
    destruct (F64.is_nan x) eqn:Hnan; [done|].
    assert (F64.is_infinite x = true) as Hinf.
    { unfold F64.is_finite, F64.is_nan, F64.is_infinite in *. apply negb_false_iff in Hfin.
      rewrite Hfin in *. by apply negb_false_iff in Hnan. }
    rewrite Hinf. rewrite (infinite_bits x Hx Hinf). by destruct (F64.sign x).
Qed.

(** 0.1, and [2 ^ 63 + 2048], which is read back as [2 ^ 63]. *)
Lemma score_text_round_trip_witness :
  parse_f64 (FloatText := rust_float_text)
    (fmt_score (FT := rust_float_text) 4591870180066957722) = Some 4591870180066957722 ∧
  parse_f64 (FloatText := rust_float_text)
    (fmt_score (FT := rust_float_text) 4890909195324358657) = Some 4890909195324358656.
Proof.
  split.
  - rewrite (score_text_round_trip 4591870180066957722 ltac:(split; [discriminate|reflexivity])).
    vm_compute. reflexivity.
  - rewrite (score_text_round_trip 4890909195324358657 ltac:(split; [discriminate|reflexivity])).
    vm_compute. reflexivity.
Defined.
