(* ===== verification/Config.v ===== *)
(** * Configuration ([crates/server/src/config.rs], lines 1 to 140)

    The server's settings and the parser of its command line.  A [String] or a
    [PathBuf] is its UTF-8 bytes; a memory size is parsed on the code points of
    its text. *)
From S2P Require Import Prelude Std.
Local Open Scope Z_scope.

Record Config := mkConfig {
  bind : bytes;
  port : Z;
  shards : Z;
  maxmemory : Z;
  appendonly : bool;
  requirepass : option bytes;
  replicaof : option (bytes * Z);
  masterauth : option bytes;
  tls_cert : option bytes;
  tls_key : option bytes;
  dir : bytes;
  aof_file : bytes;
  snapshot_file : bytes
}.

Definition DEFAULT_SHARDS : Z := 512.

Definition default_config : Config :=
  mkConfig (lit "127.0.0.1") 6380 DEFAULT_SHARDS 0 false None None None None None
    (lit ".") (lit "inmem.aof") (lit "inmem.snapshot").

(** The messages [from_args] can fail with; the text of an invalid memory size
    is given by its code points. *)
Inductive ConfigError :=
  | EHelp
  | ENeedsValue (name : bytes)
  | EInvalidPort
  | EInvalidShards
  | EInvalidMem (s : list Z)
  | EInvalidReplicaofPort.

(** ** Numbers *)

(** [str::parse] for an unsigned type with largest value [max], on code points. *)
Definition parse_unsigned (max : Z) (s : list Z) : option Z :=
  let ds := match s with 43 :: ds => ds | _ => s end in
  match ds with
  | [] => None
  | _ => v ← parse_digits 0 ds; if v <=? max then Some v else None
  end.

Definition usize_max : Z := 2 ^ 64 - 1.

Definition parse_u16 (s : bytes) : option Z := t ← from_utf8 s; parse_unsigned 65535 t.
Definition parse_usize (s : bytes) : option Z := t ← from_utf8 s; parse_unsigned usize_max t.

(** [strip_suffix] *)
Definition strip_suffix (suffix s : list Z) : option (list Z) :=
  let n := (length s - length suffix)%nat in
  if (length suffix <=? length s)%nat && bool_decide (drop n s = suffix) then Some (take n s)
  else None.

Definition lower_char (c : Z) : Z := if (65 <=? c) && (c <=? 90) then c + 32 else c.

(** [parse_mem]; the product wraps around. *)
Definition parse_mem (s : bytes) : Z + ConfigError :=
  let t := lower_char <$> trim (default [] (from_utf8 s)) in
  let '(num, mult) :=
    match strip_suffix [103; 98] t with
    | Some p => (p, 2 ^ 30)
    | None =>
        match strip_suffix [109; 98] t with
        | Some p => (p, 2 ^ 20)
        | None =>
            match strip_suffix [107; 98] t with
            | Some p => (p, 2 ^ 10)
            | None => match strip_suffix [98] t with Some p => (p, 1) | None => (t, 1) end
            end
        end
    end in
  match parse_unsigned usize_max (trim num) with
  | Some n => inl (wrap_u64 (n * mult))
  | None => inr (EInvalidMem t)
  end.

(** ** The command line *)

(** [trim_start_matches("--")] *)
Fixpoint trim_dashes (s : bytes) : bytes :=
  match s with
  | x2d :: s' => match s' with x2d :: s'' => trim_dashes s'' | _ => s end
  | _ => s
  end.

(** [split_once(':')] *)
Fixpoint split_colon (s : bytes) : option (bytes * bytes) :=
  match s with
  | [] => None
  | b :: s =>
      if bool_decide (b = x3a) then Some ([], s)
      else '(h, p) ← split_colon s; Some (b :: h, p)
  end.

Inductive Arg :=
  | AHelp | APort | ABind | AShards | AMaxmemory | AAppendonly | ARequirepass | AMasterauth
  | ATlsCert | ATlsKey | AReplicaof | ADir | AAofFile | ASnapshotFile | AUnknown.

(** The arms of the [match] on the lower-cased option name. *)
Definition arg_of (key : bytes) : Arg :=
  let k s := bool_decide (key = lit s) in
  if k "help" || k "h" then AHelp
  else if k "port" then APort
  else if k "bind" then ABind
  else if k "shards" then AShards
  else if k "maxmemory" then AMaxmemory
  else if k "appendonly" then AAppendonly
  else if k "requirepass" then ARequirepass
  else if k "masterauth" then AMasterauth
  else if k "tls-cert" || k "tls-cert-file" then ATlsCert
  else if k "tls-key" || k "tls-key-file" then ATlsKey
  else if k "replicaof" || k "slaveof" then AReplicaof
  else if k "dir" then ADir
  else if k "aof-file" || k "appendfilename" then AAofFile
  else if k "snapshot-file" || k "dbfilename" then ASnapshotFile
  else AUnknown.

(** What an option with its value does to the settings. *)
Definition set_arg (c : Config) (a : Arg) (v : bytes) : Config + ConfigError :=
  let '(mkConfig bind port shards maxmemory appendonly requirepass replicaof masterauth tls_cert
          tls_key dir aof_file snapshot_file) := c in
  match a with
  | APort =>
      match parse_u16 v with
      | Some p => inl (mkConfig bind p shards maxmemory appendonly requirepass replicaof masterauth
                         tls_cert tls_key dir aof_file snapshot_file)
      | None => inr EInvalidPort
      end
  | ABind => inl (mkConfig v port shards maxmemory appendonly requirepass replicaof masterauth
                    tls_cert tls_key dir aof_file snapshot_file)
  | AShards =>
      match parse_usize v with
      | Some n => inl (mkConfig bind port n maxmemory appendonly requirepass replicaof masterauth
                         tls_cert tls_key dir aof_file snapshot_file)
      | None => inr EInvalidShards
      end
  | AMaxmemory =>
      match parse_mem v with
      | inl n => inl (mkConfig bind port shards n appendonly requirepass replicaof masterauth
                        tls_cert tls_key dir aof_file snapshot_file)
      | inr e => inr e
      end
  | AAppendonly =>
      let v := to_ascii_lowercase <$> v in
      let yes := bool_decide (v = lit "yes") || bool_decide (v = lit "true")
                 || bool_decide (v = lit "1") in
      inl (mkConfig bind port shards maxmemory yes requirepass replicaof masterauth
             tls_cert tls_key dir aof_file snapshot_file)
  | ARequirepass => inl (mkConfig bind port shards maxmemory appendonly (Some v) replicaof masterauth
                           tls_cert tls_key dir aof_file snapshot_file)
  | AMasterauth => inl (mkConfig bind port shards maxmemory appendonly requirepass replicaof (Some v)
                          tls_cert tls_key dir aof_file snapshot_file)
  | ATlsCert => inl (mkConfig bind port shards maxmemory appendonly requirepass replicaof masterauth
                       (Some v) tls_key dir aof_file snapshot_file)
  | ATlsKey => inl (mkConfig bind port shards maxmemory appendonly requirepass replicaof masterauth
                      tls_cert (Some v) dir aof_file snapshot_file)
  | ADir => inl (mkConfig bind port shards maxmemory appendonly requirepass replicaof masterauth
                   tls_cert tls_key v aof_file snapshot_file)
  | AAofFile => inl (mkConfig bind port shards maxmemory appendonly requirepass replicaof masterauth
                       tls_cert tls_key dir v snapshot_file)
  | ASnapshotFile => inl (mkConfig bind port shards maxmemory appendonly requirepass replicaof
                            masterauth tls_cert tls_key dir aof_file v)
  | AHelp | AReplicaof | AUnknown => inl c
  end.

Definition set_replicaof (c : Config) (host : bytes) (p : bytes) : Config + ConfigError :=
  match parse_u16 p with
  | Some n =>
      inl (mkConfig (bind c) (port c) (shards c) (maxmemory c) (appendonly c) (requirepass c)
             (Some (host, n)) (masterauth c) (tls_cert c) (tls_key c) (dir c) (aof_file c)
             (snapshot_file c))
  | None => inr EInvalidReplicaofPort
  end.

Definition arg_name (a : Arg) : bytes :=
  match a with
  | APort => lit "port" | ABind => lit "bind" | AShards => lit "shards"
  | AMaxmemory => lit "maxmemory" | AAppendonly => lit "appendonly"
  | ARequirepass => lit "requirepass" | AMasterauth => lit "masterauth"
  | ATlsCert => lit "tls-cert" | ATlsKey => lit "tls-key" | AReplicaof => lit "replicaof"
  | ADir => lit "dir" | AAofFile => lit "aof-file" | ASnapshotFile => lit "snapshot-file"
  | AHelp | AUnknown => []
  end.

(** [need] when the arguments have run out. *)
Definition needs_value (a : Arg) : ConfigError := ENeedsValue (arg_name a).

Fixpoint parse_args (c : Config) (args : list bytes) : Config + ConfigError :=
  match args with
  | [] => inl c
  | arg :: args =>
      let key := to_ascii_lowercase <$> trim_dashes arg in
      match arg_of key with
      | AHelp => inr EHelp
      | AUnknown => parse_args c args
      | AReplicaof =>
          match args with
          | [] => inr (needs_value AReplicaof)
          | first :: args =>
              match split_colon first with
              | Some (h, p) =>
                  match set_replicaof c h p with inl c => parse_args c args | inr e => inr e end
              | None =>
                  match args with
                  | [] => inr (needs_value AReplicaof)
                  | p :: args =>
                      match set_replicaof c first p with
                      | inl c => parse_args c args
                      | inr e => inr e
                      end
                  end
              end
          end
      | a =>
          match args with
          | [] => inr (needs_value a)
          | v :: args =>
              match set_arg c a v with inl c => parse_args c args | inr e => inr e end
          end
      end
  end.

Definition from_args (args : list bytes) : Config + ConfigError := parse_args default_config args.
