(* ===== verification/ConfigProps.v ===== *)
(** * Properties of the configuration *)
From S2P Require Import Prelude Std Config.
Local Open Scope Z_scope.

(** ** Numbers *)

Lemma digits_char s :
  Forall is_digit s → Forall (fun c => 48 <= c <= 57) (byte_val <$> s).
Proof. intros Hs. apply Forall_fmap. eapply Forall_impl; [exact Hs|]. by intros b Hb. Qed.

Lemma parse_unsigned_to_string max v :
  0 <= v <= max → max < 10 ^ 20 → parse_unsigned max (byte_val <$> u64_to_string v) = Some v.
Proof.
  intros Hv Hm. unfold parse_unsigned.
  pose proof (u64_to_string_digits v ltac:(lia)) as Hd.
  pose proof (u64_to_string_value v ltac:(lia)) as Hp.
  pose proof (u64_to_string_nonempty v) as Hne.
  destruct (u64_to_string v) as [|b ds]; [done|].
  rewrite fmap_cons in *. apply Forall_cons in Hd as [Hb _]. unfold is_digit in Hb.
  assert (match byte_val b :: (byte_val <$> ds) with 43 :: ds' => ds' | _ => byte_val b :: (byte_val <$> ds) end
          = byte_val b :: (byte_val <$> ds)) as ->.
  { generalize dependent (byte_val b). intros c Hp Hc. generalize (byte_val <$> ds). intros l.
    do 6 (destruct c as [|c|c]; try lia; try done). }
  rewrite Hp. simpl. by rewrite (proj2 (Z.leb_le _ _)) by lia.
Qed.

Lemma to_string_ascii v : 0 <= v → ascii (u64_to_string v).
Proof. intros Hv. by apply digits_ascii, u64_to_string_digits. Qed.

Lemma parse_u16_to_string v : 0 <= v <= 65535 → parse_u16 (u64_to_string v) = Some v.
Proof.
  intros Hv. unfold parse_u16. rewrite from_utf8_ascii by (apply to_string_ascii; lia).
  simpl. by apply parse_unsigned_to_string.
Qed.

Lemma parse_usize_to_string v : 0 <= v < 2 ^ 64 → parse_usize (u64_to_string v) = Some v.
Proof.
  intros Hv. unfold parse_usize. rewrite from_utf8_ascii by (apply to_string_ascii; lia).
  apply parse_unsigned_to_string; unfold usize_max; lia.
Qed.

(** ** Memory sizes *)

Lemma strip_suffix_exact suf l r :
  length r = length suf → strip_suffix suf (l ++ r) = if decide (r = suf) then Some l else None.
Proof.
  intros Hlen. unfold strip_suffix. rewrite length_app, Hlen.
  rewrite (proj2 (Nat.leb_le _ _)) by lia.
  replace (length l + length suf - length suf)%nat with (length l) by lia.
  rewrite drop_app_length, take_app_length. cbn [andb].
  case_bool_decide; case_decide; done.
Qed.

(** A suffix that ends differently is not stripped. *)
Lemma strip_suffix_last suf a l b :
  a ≠ b → strip_suffix (suf ++ [a]) (l ++ [b]) = None.
Proof.
  intros Hne. unfold strip_suffix. rewrite !length_app. simpl.
  destruct (_ <=? _)%nat eqn:Hle; [|done]. apply Nat.leb_le in Hle. cbn [andb].
  rewrite drop_app_le by lia. rewrite bool_decide_eq_false_2; [done|].
  intros Heq%(f_equal last). rewrite !last_snoc in Heq. congruence.
Qed.

Definition unit_size (u : bytes) (mult : Z) : Prop :=
  (to_ascii_lowercase <$> u, mult) ∈
    [(lit "", 1); (lit "b", 1); (lit "kb", 2 ^ 10); (lit "mb", 2 ^ 20); (lit "gb", 2 ^ 30)].

Lemma lower_char_byte b :
  byte_val b < 128 → lower_char (byte_val b) = byte_val (to_ascii_lowercase b).
Proof. destruct b; vm_compute; try done; congruence. Qed.

Definition plain (c : Z) : Prop := 48 <= c <= 57 ∨ 65 <= c <= 90 ∨ 97 <= c <= 122.

Lemma plain_not_space c : plain c → is_whitespace c = false.
Proof.
  unfold plain, is_whitespace. intros Hc.
  repeat (rewrite orb_false_iff || rewrite andb_false_iff || rewrite Z.eqb_neq || rewrite Z.leb_gt).
  lia.
Qed.

Lemma letter_plain b : 97 <= byte_val (to_ascii_lowercase b) <= 122 → plain (byte_val b).
Proof.
  unfold plain, to_ascii_lowercase. intros Hb. case_match eqn:Hc; [|lia].
  apply andb_true_iff in Hc as [?%Z.leb_le ?%Z.leb_le]. lia.
Qed.

(** The names of the units, in lower case. *)
Lemma unit_cases u mult :
  unit_size u mult →
  ∃ x, to_ascii_lowercase <$> u = x ∧
    (x = lit "" ∧ mult = 1 ∨ x = lit "b" ∧ mult = 1 ∨ x = lit "kb" ∧ mult = 2 ^ 10 ∨
     x = lit "mb" ∧ mult = 2 ^ 20 ∨ x = lit "gb" ∧ mult = 2 ^ 30).
Proof.
  unfold unit_size. intros Hu. exists (to_ascii_lowercase <$> u). split; [done|].
  rewrite !elem_of_cons in Hu.
  destruct Hu as [E|[E|[E|[E|[E|E]]]]]; [injection E as -> ->; tauto..|by apply elem_of_nil in E].
Qed.

Lemma unit_letters u mult :
  unit_size u mult → Forall (fun b => 97 <= byte_val (to_ascii_lowercase b) <= 122) u.
Proof.
  intros (x & Hx & Hc)%unit_cases.
  assert (Forall (fun b => 97 <= byte_val b <= 122) x) as Hf.
  { destruct Hc as [[-> _]|[[-> _]|[[-> _]|[[-> _]|[-> _]]]]]; repeat constructor; by compute. }
  subst x. by apply Forall_fmap in Hf.
Qed.

(** The text [parse_mem] works on. *)
Lemma mem_text n u mult :
  0 <= n → unit_size u mult →
  lower_char <$> trim (default [] (from_utf8 (u64_to_string n ++ u))) =
  (byte_val <$> u64_to_string n) ++ (byte_val <$> (to_ascii_lowercase <$> u)).
Proof.
  intros Hn Hu%unit_letters. pose proof (u64_to_string_digits n Hn) as Hd.
  assert (Forall (fun b => plain (byte_val b)) (u64_to_string n ++ u)) as Hp.
  { apply Forall_app. split; (eapply Forall_impl; [eassumption|]).
    - intros b Hb. left. exact Hb.
    - intros b. apply letter_plain. }
  rewrite from_utf8_ascii; cycle 1.
  { eapply Forall_impl; [exact Hp|]. unfold plain. intros b. simpl. lia. }
  cbn [from_option]. unfold id. rewrite trim_id; cycle 1.
  { apply Forall_fmap. eapply Forall_impl; [exact Hp|]. intros b. apply plain_not_space. }
  rewrite !fmap_app. f_equal.
  - rewrite <- list_fmap_compose. apply Forall_fmap_ext_1. eapply Forall_impl; [exact Hd|].
    unfold is_digit, lower_char. intros b Hb. simpl. case_match eqn:Hc; [|done].
    apply andb_true_iff in Hc as [?%Z.leb_le _]. lia.
  - rewrite <- !list_fmap_compose. apply Forall_fmap_ext_1. eapply Forall_impl; [exact Hu|].
    intros b Hb. simpl. apply lower_char_byte. apply letter_plain in Hb. unfold plain in Hb. lia.
Qed.

(** A memory size means what it says: a decimal number and a unit, in upper
    or lower case, give the product, when it fits the machine word. *)
Theorem config_memory_size n u mult :
  0 <= n → unit_size u mult → n * mult < 2 ^ 64 →
  parse_mem (u64_to_string n ++ u) = inl (n * mult).
Proof.
  intros Hn Hu Hlt. unfold parse_mem. rewrite (mem_text n u mult) by done.
  pose proof (u64_to_string_digits n Hn) as Hd.
  destruct (unit_cases u mult Hu) as (x & -> & Hx).
  assert (1 <= mult) as Hm by (clear -Hx; destruct Hx as [[_ ->]|[[_ ->]|[[_ ->]|[[_ ->]|[_ ->]]]]]; lia).
  assert (n < 2 ^ 64) as Hn64 by nia.
  set (D := byte_val <$> u64_to_string n).
  assert (∃ D' d, D = D' ++ [d] ∧ 48 <= d <= 57) as (D' & d & HD & Hdig).
  { unfold D. pose proof (digits_char _ Hd) as Hc. pose proof (u64_to_string_nonempty n) as Hne.
    destruct (exists_last Hne) as (l & b & Hl). rewrite Hl, fmap_app in *.
    exists (byte_val <$> l), (byte_val b). split; [done|].
    apply Forall_app in Hc as [_ Hc]. by inversion Hc. }
  assert (parse_unsigned usize_max (trim D) = Some n) as Hparse.
  { rewrite trim_id.
    - apply parse_unsigned_to_string; unfold usize_max; lia.
    - eapply Forall_impl; [apply (digits_char _ Hd)|]. intros c Hc. apply plain_not_space. by left. }
  assert (∀ a b r, length r = 2%nat → r ≠ [a; b] → strip_suffix [a; b] (D ++ r) = None) as H2.
  { intros a b r Hr Hne. rewrite strip_suffix_exact by done. by case_decide. }
  assert (∀ a b, b ≠ d → strip_suffix [a; b] D = None) as H0.
  { intros a b Hb. rewrite HD. by apply (strip_suffix_last [a]). }
  assert (∀ a, a ≠ d → strip_suffix [a; 98] (D ++ [98]) = None) as H1.
  { intros a Ha. rewrite HD, <- app_assoc. simpl. rewrite strip_suffix_exact by done.
    case_decide as He; [|done]. congruence. }
  assert (∀ r, strip_suffix r (D ++ r) = Some D) as Hex.
  { intros r. rewrite strip_suffix_exact by done. by case_decide. }
  assert (strip_suffix [98] D = None) as Hb.
  { rewrite HD. apply (strip_suffix_last []). lia. }
  assert (wrap_u64 (n * mult) = n * mult) as Hw.
  { unfold wrap_u64, u64_modulus. apply Z.mod_small. nia. }
  destruct Hx as [[-> ->]|[[-> ->]|[[-> ->]|[[-> ->]|[-> ->]]]]].
  - change (byte_val <$> lit "") with (@nil Z). rewrite app_nil_r, !H0, Hb by lia.
    by rewrite Hparse, Hw.
  - change (byte_val <$> lit "b") with [98]. rewrite !H1, Hex by lia. by rewrite Hparse, Hw.
  - change (byte_val <$> lit "kb") with [107; 98]. rewrite (H2 103 98), (H2 109 98), Hex by done.
    by rewrite Hparse, Hw.
  - change (byte_val <$> lit "mb") with [109; 98]. rewrite (H2 103 98), Hex by done.
    by rewrite Hparse, Hw.
  - change (byte_val <$> lit "gb") with [103; 98]. rewrite Hex. by rewrite Hparse, Hw.
Qed.

Lemma config_memory_size_witness : parse_mem (lit "512Mb") = inl 536870912.
Proof.
  exact (config_memory_size 512 (lit "Mb") (2 ^ 20) ltac:(lia)
    ltac:(do 3 right; left) ltac:(lia)).
Defined.

(** A size beyond the machine word wraps around silently, so a very large
    limit can be read as no limit at all. *)
Theorem config_memory_wraps : parse_mem (lit "17179869184gb") = inl 0.
Proof. vm_compute. reflexivity. Qed.

(** ** The command line *)

(** One option and its value. *)
Definition spell (a : Arg) (v : bytes) : list bytes := [lit "--" ++ arg_name a; v].

Definition spell_some (a : Arg) (v : option bytes) : list bytes :=
  match v with Some v => spell a v | None => [] end.

(** The command line that asks for given settings. *)
Definition to_args (c : Config) : list bytes :=
  spell ABind (bind c) ++ spell APort (u64_to_string (port c)) ++
  spell AShards (u64_to_string (shards c)) ++ spell AMaxmemory (u64_to_string (maxmemory c)) ++
  spell AAppendonly (if appendonly c then lit "yes" else lit "no") ++
  spell_some ARequirepass (requirepass c) ++
  match replicaof c with
  | Some (host, p) => spell AReplicaof host ++ [u64_to_string p]
  | None => []
  end ++
  spell_some AMasterauth (masterauth c) ++ spell_some ATlsCert (tls_cert c) ++
  spell_some ATlsKey (tls_key c) ++ spell ADir (dir c) ++ spell AAofFile (aof_file c) ++
  spell ASnapshotFile (snapshot_file c).

(** Settings in the range of their types; a host name has no colon. *)
Definition settable (c : Config) : Prop :=
  0 <= port c <= 65535 ∧ 0 <= shards c < 2 ^ 64 ∧ 0 <= maxmemory c < 2 ^ 64 ∧
  match replicaof c with Some (host, p) => x3a ∉ host ∧ 0 <= p <= 65535 | None => True end.

(** An option takes the next argument, whatever it is. *)
Lemma parse_option c a v rest :
  a ≠ AHelp → a ≠ AUnknown → a ≠ AReplicaof →
  parse_args c (spell a v ++ rest) =
  match set_arg c a v with inl c => parse_args c rest | inr e => inr e end.
Proof. by destruct a. Qed.

Lemma split_colon_none s : x3a ∉ s → split_colon s = None.
Proof.
  induction s as [|b s IH]; [done|]. rewrite not_elem_of_cons. intros [Hb Hs].
  cbn [split_colon]. rewrite bool_decide_eq_false_2 by congruence. by rewrite IH.
Qed.

Lemma parse_replicaof c host p rest :
  x3a ∉ host → 0 <= p <= 65535 →
  parse_args c ((spell AReplicaof host ++ [u64_to_string p]) ++ rest) =
  parse_args (mkConfig (bind c) (port c) (shards c) (maxmemory c) (appendonly c) (requirepass c)
    (Some (host, p)) (masterauth c) (tls_cert c) (tls_key c) (dir c) (aof_file c) (snapshot_file c)) rest.
Proof.
  intros Hh Hp. change (parse_args c ((spell AReplicaof host ++ [u64_to_string p]) ++ rest)) with
    (match split_colon host with
     | Some (h, q) => match set_replicaof c h q with
                      | inl c => parse_args c (u64_to_string p :: rest) | inr e => inr e end
     | None => match set_replicaof c host (u64_to_string p) with
               | inl c => parse_args c rest | inr e => inr e end
     end).
  rewrite split_colon_none by done. unfold set_replicaof. by rewrite parse_u16_to_string.
Qed.

Lemma parse_mem_to_string n : 0 <= n < 2 ^ 64 → parse_mem (u64_to_string n) = inl n.
Proof.
  intros Hn. pose proof (config_memory_size n [] 1 ltac:(lia) ltac:(left) ltac:(lia)) as H.
  by rewrite app_nil_r, Z.mul_1_r in H.
Qed.

(** C27: every setting can be given on the command line, and is read back: a
    command line that spells out all settings gives exactly these settings,
    whatever the strings in them are, values that look like options included. *)
Theorem command_line_round_trip c : settable c → from_args (to_args c) = inl c.
Proof.
  destruct c as [b p s m a rp ro ma tc tk d af sf].
  unfold settable, from_args, to_args, default_config. cbn [bind port shards maxmemory appendonly requirepass
    replicaof masterauth tls_cert tls_key dir aof_file snapshot_file].
  intros (Hp & Hs & Hm & Hro).
  rewrite parse_option by done. cbn [set_arg].
  rewrite parse_option by done. cbn [set_arg]. rewrite parse_u16_to_string by done.
  rewrite parse_option by done. cbn [set_arg]. rewrite parse_usize_to_string by done.
  rewrite parse_option by done. cbn [set_arg]. rewrite parse_mem_to_string by done.
  rewrite parse_option by done. cbn [set_arg].
  assert (∀ b : bool, bool_decide (to_ascii_lowercase <$> (if b then lit "yes" else lit "no") = lit "yes")
    || bool_decide (to_ascii_lowercase <$> (if b then lit "yes" else lit "no") = lit "true")
    || bool_decide (to_ascii_lowercase <$> (if b then lit "yes" else lit "no") = lit "1") = b) as Hyes
    by (by intros []).
  rewrite Hyes.
  destruct rp as [rp|]; cbn [spell_some app]; [rewrite parse_option by done; cbn [set_arg]|].
  all: destruct ro as [[host q]|]; cbn [app]; [destruct Hro; rewrite parse_replicaof by done|].
  all: cbn [bind port shards maxmemory appendonly requirepass replicaof masterauth tls_cert tls_key dir
    aof_file snapshot_file].
  all: destruct ma as [ma|]; cbn [spell_some app]; [rewrite parse_option by done; cbn [set_arg]|].
  all: destruct tc as [tc|]; cbn [spell_some app]; [rewrite parse_option by done; cbn [set_arg]|].
  all: destruct tk as [tk|]; cbn [spell_some app]; [rewrite parse_option by done; cbn [set_arg]|].
  all: rewrite !parse_option by done; cbn [set_arg]; rewrite <- (app_nil_r (spell ASnapshotFile sf));
    by rewrite parse_option.
Qed.

Lemma command_line_round_trip_witness :
  let c := mkConfig (lit "::1") 7000 64 1048576 true (Some (lit "--help")) (Some (lit "primary", 6380))
             None None None (lit "/data") (lit "a") (lit "b") in
  from_args (to_args c) = inl c.
Proof.
  apply command_line_round_trip. unfold settable. cbn [port shards maxmemory replicaof].
  split_and!; try lia. refine (bool_decide_unpack _ _). vm_compute. exact I.
Defined.
