(* ===== verification/Commands.v ===== *)
(** * Command dispatch ([crates/server/src/commands.rs], lines 1 to 869)

    A command runs in a world: the shared store, the clock that every call of
    [now_ms()] reads, the random states a flush draws, and the snapshot file.
    Clock readings, random states and input/output faults are sequences indexed
    by the number of calls made so far, and nothing is assumed of them. *)
From S2P Require Import Prelude Std Map Value Shard Store Resp Reply Dump Config.
Local Open Scope Z_scope.

(** ** The world *)

Record World := mkWorld {
  store : Store.t;
  tick : nat;
  clock : nat → Z;
  entropy : nat → nat → Hashers;
  io_fault : nat → option bytes;
  snapshot : option bytes
}.

Definition set_store (w : World) (st : Store.t) : World :=
  mkWorld st (S (tick w)) (clock w) (entropy w) (io_fault w) (snapshot w).

Definition M (A : Type) : Type := World → World * A.

#[export] Instance M_ret : MRet M := fun A a w => (w, a).
#[export] Instance M_bind : MBind M := fun A B f m w => let '(w, a) := m w in f a w.

(** A call that reads the clock and uses the store. *)
Definition call {R : Type} (f : Z → Store.t → Store.t * R) : M R := fun w =>
  let '(st, r) := f (clock w (tick w)) (store w) in (set_store w st, r).

(** [now_ms()] *)
Definition now_ms : M Z := call (fun now st => (st, now)).

(** A read of the store without the clock. *)
Definition peek {R : Type} (f : Store.t → R) : M R := fun w => (w, f (store w)).

Definition flush_all : M unit := fun w =>
  (set_store w (Store.flush_all (entropy w (tick w)) (store w)), ()).

(** [iter().map(f).collect()] *)
Fixpoint mapM {A B : Type} (f : A → M B) (l : list A) : M (list B) :=
  match l with
  | [] => mret []
  | a :: l => b ← f a; bs ← mapM f l; mret (b :: bs)
  end.

(** [iter().filter(f).count()] *)
Definition countM {A : Type} (f : A → M bool) (l : list A) : M Z :=
  bs ← mapM f l; mret (Z.of_nat (length (filter (fun b => b = true) bs))).

(** ** Connections and outcomes *)

Record ConnState := mkConn { resp3 : bool; name : bytes; conn_id : Z; authenticated : bool }.

Definition conn_new (id : Z) (authenticated : bool) : ConnState := mkConn false [] id authenticated.
Definition internal : ConnState := conn_new 0 true.

Record Outcome := mkOutcome { reply : Reply; quit : bool; persist : bool }.

Definition out_r (r : Reply) : Outcome := mkOutcome r false false.
Definition out_w (r : Reply) : Outcome := mkOutcome r false true.
Definition out_maybe (r : Reply) (dirty : bool) : Outcome := mkOutcome r false dirty.

(** ** Replies *)

Definition err (msg : string) : Reply := Error (lit "ERR " ++ lit msg).
Definition wrong_args (cmd : string) : Reply :=
  Error (lit "ERR wrong number of arguments for '" ++ lit cmd ++ lit "' command").
Definition store_err (e : string) : Reply :=
  if bool_decide (e = WRONGTYPE) then Error (lit e) else err e.
Definition bulk (v : option bytes) : Reply := Bulk v.
Definition bulks (l : list bytes) : list Reply := (fun x => Bulk (Some x)) <$> l.
Definition int_of (b : bool) : Z := if b then 1 else 0.
Definition eq_ci (a : bytes) (b : string) : bool := eq_ignore_ascii_case a (lit b).

(** [String::from_utf8_lossy(x).to_ascii_uppercase()], and to lower case *)
Definition upper_text (x : bytes) : bytes := to_ascii_uppercase <$> from_utf8_lossy x.
Definition lower_text (x : bytes) : bytes := to_ascii_lowercase <$> from_utf8_lossy x.

Definition int_or_err (r : Result nat) : Outcome :=
  match r with
  | Ok n => out_r (Int (Z.of_nat n))
  | Err e => out_r (store_err e)
  end.

(** A count of changes: persisted when there were any. *)
Definition dirty_count (r : Result nat) : Outcome :=
  match r with
  | Ok n => out_maybe (Int (Z.of_nat n)) (0 <? n)%nat
  | Err e => out_r (store_err e)
  end.

(** The length after a write. *)
Definition written_len (r : Result nat) : Outcome :=
  match r with
  | Ok n => out_w (Int (Z.of_nat n))
  | Err e => out_r (store_err e)
  end.

Definition str_or_err (r : Result (option bytes)) : Outcome :=
  match r with
  | Ok v => out_r (bulk v)
  | Err e => out_r (store_err e)
  end.

(** [chunks(2)] of an even number of arguments *)
Fixpoint pairs_of (l : list bytes) : list (bytes * bytes) :=
  match l with
  | a :: b :: l => (a, b) :: pairs_of l
  | _ => []
  end.

Definition is_multiple_of_2 (n : nat) : bool := (n mod 2 =? 0)%nat.

(** ** Connection and introspection *)

Definition auth (argv : list bytes) (st : ConnState) (cfg : Config) : ConnState * Outcome :=
  match (if (length argv =? 2)%nat then Some (argv !!! 1%nat)
         else if (length argv =? 3)%nat then Some (argv !!! 2%nat) else None) with
  | None => (st, out_r (wrong_args "auth"))
  | Some pass =>
      match requirepass cfg with
      | None => (st, out_r (err "Client sent AUTH, but no password is set"))
      | Some want =>
          if bool_decide (pass = want)
          then (mkConn (resp3 st) (name st) (conn_id st) true, out_r ok)
          else (st, out_r (Error (lit "WRONGPASS invalid username-password pair")))
      end
  end.

Definition hello (argv : list bytes) (st : ConnState) : ConnState * Outcome :=
  let st' :=
    if (2 <=? length argv)%nat then
      match parse_i64_bytes (argv !!! 1%nat) with
      | Some 2 => Some (mkConn false (name st) (conn_id st) (authenticated st))
      | Some 3 => Some (mkConn true (name st) (conn_id st) (authenticated st))
      | _ => None
      end
    else Some st in
  match st' with
  | None => (st, out_r (Error (lit "NOPROTO unsupported protocol version")))
  | Some st =>
      let m (k : string) (v : Reply) := (Bulk (Some (lit k)), v) in
      (st, out_r (Map
         [m "server"%string (Bulk (Some (lit "inmem")));
          m "version"%string (Bulk (Some (lit "0.0.1")));
          m "proto"%string (Int (if resp3 st then 3 else 2));
          m "id"%string (Int (wrap_i64 (conn_id st)));
          m "mode"%string (Bulk (Some (lit "standalone")));
          m "role"%string (Bulk (Some (lit "master")));
          m "modules"%string (Array (Some []))]))
  end.

Definition command_meta (argv : list bytes) : Outcome :=
  if (2 <=? length argv)%nat && eq_ci (argv !!! 1%nat) "count" then out_r (Int 0)
  else out_r (Array (Some [])).

Definition config_value (cfg : Config) (key : bytes) : option bytes :=
  if bool_decide (key = lit "maxmemory") then Some (u64_to_string (maxmemory cfg))
  else if bool_decide (key = lit "maxmemory-policy") then Some (lit "allkeys-lfu")
  else if bool_decide (key = lit "save") then Some []
  else if bool_decide (key = lit "appendonly")
  then Some (if appendonly cfg then lit "yes" else lit "no")
  else None.

Definition config_cmd (argv : list bytes) (cfg : Config) : Outcome :=
  if (2 <=? length argv)%nat && eq_ci (argv !!! 1%nat) "get" then
    out_r (Array (Some (drop 2 argv ≫= fun param =>
      match config_value cfg (lower_text param) with
      | Some val => [Bulk (Some param); Bulk (Some val)]
      | None => []
      end)))
  else out_r ok.

Definition client_cmd (argv : list bytes) (st : ConnState) : ConnState * Outcome :=
  if (length argv <? 2)%nat then (st, out_r (wrong_args "client"))
  else
    let sub := upper_text (argv !!! 1%nat) in
    if bool_decide (sub = lit "SETNAME") && (length argv =? 3)%nat
    then (mkConn (resp3 st) (argv !!! 2%nat) (conn_id st) (authenticated st), out_r ok)
    else if bool_decide (sub = lit "GETNAME") then (st, out_r (Bulk (Some (name st))))
    else if bool_decide (sub = lit "ID") then (st, out_r (Int (wrap_i64 (conn_id st))))
    else if bool_decide (sub = lit "INFO") then
      (st, out_r (Bulk (Some (lit "id=" ++ u64_to_string (conn_id st) ++ lit " name="
                              ++ from_utf8_lossy (name st) ++ [x0a]))))
    else (st, out_r ok).

Definition line (s : bytes) : bytes := s ++ Resp.CRLF.

Definition info_lines (cfg : Config) (keys shards : nat) : bytes :=
  line (lit "# Server") ++ line (lit "redis_version:7.4.0-inmem-0.0.1")
  ++ line (lit "inmem_version:0.0.1") ++ line (lit "mode:standalone")
  ++ line (lit "# Clients") ++ line (lit "connected_clients:1")
  ++ line (lit "# Memory") ++ line (lit "maxmemory:" ++ u64_to_string (maxmemory cfg))
  ++ line (lit "maxmemory_policy:allkeys-lfu")
  ++ line (lit "# Keyspace")
  ++ line (lit "db0:keys=" ++ u64_to_string (Z.of_nat keys) ++ lit ",expires=0,avg_ttl=0")
  ++ line (lit "# Replication") ++ line (lit "role:master")
  ++ line (lit "# Stats") ++ line (lit "shards:" ++ u64_to_string (Z.of_nat shards)).

Definition info_text (cfg : Config) (st : Store.t) : bytes :=
  info_lines cfg (Store.dbsize st) (Store.shard_count st).

(** ** Strings *)

Definition NOT_INT : string := "value is not an integer or out of range".

(** [now + (arg.max(0) as u64) * unit], which wraps around *)
Definition from_now (now arg unit : Z) : Z := wrap_u64 (now + wrap_u64 (Z.max arg 0 * unit)).

(** The loop over the options of [SET]; [inr] is an early return. *)
Fixpoint set_opts (now : Z) (rest : list bytes) (opts : SetOptions) (want_get : bool)
    : (SetOptions * bool) + Reply :=
  match rest with
  | [] => inl (opts, want_get)
  | a :: rest =>
      let opt := upper_text a in
      let o s := bool_decide (opt = lit s) in
      if o "NX"%string
      then set_opts now rest (mkSetOptions true (xx opts) (keep_ttl opts) (opt_expire_at opts)) want_get
      else if o "XX"%string
      then set_opts now rest (mkSetOptions (nx opts) true (keep_ttl opts) (opt_expire_at opts)) want_get
      else if o "KEEPTTL"%string
      then set_opts now rest (mkSetOptions (nx opts) (xx opts) true (opt_expire_at opts)) want_get
      else if o "GET"%string then set_opts now rest opts true
      else if o "EX"%string || o "PX"%string || o "EXAT"%string || o "PXAT"%string then
        match rest with
        | [] => inr (err NOT_INT)
        | a :: rest =>
            match parse_i64_bytes a with
            | None => inr (err NOT_INT)
            | Some arg =>
                let at_ :=
                  if o "EX"%string then from_now now arg 1000
                  else if o "PX"%string then from_now now arg 1
                  else if o "EXAT"%string then wrap_u64 (Z.max arg 0 * 1000)
                  else Z.max arg 0 in
                set_opts now rest (mkSetOptions (nx opts) (xx opts) (keep_ttl opts) (Some at_)) want_get
            end
        end
      else inr (err "syntax error")
  end.

Definition set_cmd (argv : list bytes) : M Outcome :=
  if (length argv <? 3)%nat then mret (out_r (wrong_args "set"))
  else
    let key := argv !!! 1%nat in
    let val := argv !!! 2%nat in
    now ← now_ms;
    match set_opts now (drop 3 argv) default_options false with
    | inr e => mret (out_r e)
    | inl (opts, want_get) =>
        old ← (if (want_get : bool) then call (fun now st => Store.get now st key) else mret (Ok None));
        match old with
        | Err e => mret (out_r (store_err e))
        | Ok old =>
            did ← call (fun now st => Store.set now st key val opts);
            let reply := if (want_get : bool) then bulk old
                         else if (did : bool) then ok else Bulk None in
            mret (out_maybe reply did)
        end
    end.

Definition setex_cmd (argv : list bytes) (ms : bool) : M Outcome :=
  if negb (length argv =? 4)%nat
  then mret (out_r (wrong_args (if ms then "psetex" else "setex")))
  else
    match parse_i64_bytes (argv !!! 2%nat) with
    | None => mret (out_r (err NOT_INT))
    | Some n =>
        if n <=? 0 then mret (out_r (err "invalid expire time"))
        else
          now ← now_ms;
          let at_ := if ms then wrap_u64 (now + n) else wrap_u64 (now + wrap_u64 (n * 1000)) in
          _ ← call (fun now st => Store.set now st (argv !!! 1%nat) (argv !!! 3%nat)
                                    (mkSetOptions false false false (Some at_)));
          mret (out_w ok)
    end.

Definition incr_reply (r : Result Z) : Outcome :=
  match r with
  | Ok v => out_w (Int v)
  | Err e => out_r (store_err e)
  end.

Definition incr_cmd (argv : list bytes) (fixed : Z) (by_ : bool) : M Outcome :=
  let arg :=
    if by_ then
      if negb (length argv =? 3)%nat then inr (wrong_args "incrby")
      else
        match parse_i64_bytes (argv !!! 2%nat) with
        | None => inr (err NOT_INT)
        | Some d =>
            if eq_ci (argv !!! 0%nat) "decrby" then
              if in_i64 (- d) then inl (argv !!! 1%nat, - d) else inr (err "decrement would overflow")
            else inl (argv !!! 1%nat, d)
        end
    else if negb (length argv =? 2)%nat then inr (wrong_args "incr")
    else inl (argv !!! 1%nat, fixed) in
  match arg with
  | inr e => mret (out_r e)
  | inl (key, delta) =>
      r ← call (fun now st => Store.incr_by now st key delta);
      mret (incr_reply r)
  end.

Definition getset_cmd (argv : list bytes) : M Outcome :=
  old ← call (fun now st => Store.get now st (argv !!! 1%nat));
  match old with
  | Err e => mret (out_r (store_err e))
  | Ok old =>
      _ ← call (fun now st => Store.set now st (argv !!! 1%nat) (argv !!! 2%nat) default_options);
      mret (out_w (bulk old))
  end.

Definition setnx_cmd (argv : list bytes) : M Outcome :=
  ok ← call (fun now st => Store.set now st (argv !!! 1%nat) (argv !!! 2%nat)
                             (mkSetOptions true false false None));
  mret (out_maybe (Int (int_of ok)) ok).

Definition mset_cmd (argv : list bytes) : M Outcome :=
  if (length argv <? 3)%nat || is_multiple_of_2 (length argv) then mret (out_r (wrong_args "mset"))
  else
    _ ← mapM (fun '(k, v) => call (fun now st => Store.set now st k v default_options))
          (pairs_of (drop 1 argv));
    mret (out_w ok).

Definition mget_cmd (argv : list bytes) : M Outcome :=
  items ← mapM (fun k =>
            r ← call (fun now st => Store.get now st k);
            mret (match r with Ok v => bulk v | Err _ => Bulk None end)) (drop 1 argv);
  mret (out_r (Array (Some items))).

(** ** Lists *)

Definition push_cmd (argv : list bytes) (left : bool) : M Outcome :=
  if (length argv <? 3)%nat then mret (out_r (wrong_args (if left then "lpush" else "rpush")))
  else
    r ← call (fun now st => Store.push now st (argv !!! 1%nat) (drop 2 argv) left);
    mret (written_len r).

Definition pop_reply (count : option Z) (items : list bytes) : Reply :=
  match count with
  | Some _ => match items with [] => Array None | _ => Array (Some (bulks items)) end
  | None => match items with x :: _ => Bulk (Some x) | [] => Bulk None end
  end.

Definition pop_cmd (argv : list bytes) (left : bool) : M Outcome :=
  if negb (length argv =? 2)%nat && negb (length argv =? 3)%nat
  then mret (out_r (wrong_args (if left then "lpop" else "rpop")))
  else
    let count : option Z + Reply :=
      if (length argv =? 3)%nat then
        match parse_i64_bytes (argv !!! 2%nat) with
        | Some c => if 0 <=? c then inl (Some c)
                    else inr (err "value is out of range, must be positive")
        | None => inr (err "value is out of range, must be positive")
        end
      else inl None in
    match count with
    | inr e => mret (out_r e)
    | inl count =>
        r ← call (fun now st => Store.pop now st (argv !!! 1%nat) (default 1 count) left);
        mret (match r with
              | Err e => out_r (store_err e)
              | Ok items => out_maybe (pop_reply count items) (negb (bool_decide (items = [])))
              end)
    end.

Definition items_or_err (r : Result (list bytes)) : Outcome :=
  match r with
  | Ok items => out_r (Array (Some (bulks items)))
  | Err e => out_r (store_err e)
  end.

Definition lrange_cmd (argv : list bytes) : M Outcome :=
  match parse_i64_bytes (argv !!! 2%nat), parse_i64_bytes (argv !!! 3%nat) with
  | Some start, Some stop =>
      r ← call (fun now st => Store.lrange now st (argv !!! 1%nat) start stop);
      mret (items_or_err r)
  | _, _ => mret (out_r (err NOT_INT))
  end.

(** ** Hashes *)

Definition hset_cmd (argv : list bytes) (hmset : bool) : M Outcome :=
  if (length argv <? 4)%nat || negb (is_multiple_of_2 (length argv))
  then mret (out_r (wrong_args (if hmset then "hmset" else "hset")))
  else
    r ← call (fun now st => Store.hset now st (argv !!! 1%nat) (pairs_of (drop 2 argv)));
    mret (match r with
          | Ok n => out_w (if hmset then ok else Int (Z.of_nat n))
          | Err e => out_r (store_err e)
          end).

Definition hmget_cmd (argv : list bytes) : M Outcome :=
  items ← mapM (fun f =>
            r ← call (fun now st => Store.hget now st (argv !!! 1%nat) f);
            mret (match r with Ok v => bulk v | Err _ => Bulk None end)) (drop 2 argv);
  mret (out_r (Array (Some items))).

(** ** Keyspace *)

(** [matches!(cur, Ttl::Millis(_))] *)
Definition is_millis (t : Ttl) : bool := match t with Millis _ => true | _ => false end.

Definition expire_allowed (flag : bytes) (cur : Ttl) (now new_at : Z) : option bool :=
  let f := upper_text flag in
  if bool_decide (f = lit "NX") then Some (match cur with NoExpiry => true | _ => false end)
  else if bool_decide (f = lit "XX") then Some (is_millis cur)
  else if bool_decide (f = lit "GT")
  then Some (match cur with Millis ms => wrap_u64 (now + ms) <? new_at | _ => false end)
  else if bool_decide (f = lit "LT")
  then Some (match cur with
             | NoExpiry => true
             | Millis ms => new_at <? wrap_u64 (now + ms)
             | NoKey => false
             end)
  else None.

Definition expire_cmd (argv : list bytes) (unit_ms : Z) (absolute : bool) : M Outcome :=
  if (length argv <? 3)%nat then mret (out_r (wrong_args "expire"))
  else
    match parse_i64_bytes (argv !!! 2%nat) with
    | None => mret (out_r (err NOT_INT))
    | Some n =>
        ex ← call (fun now st => Store.exists_ now st (argv !!! 1%nat));
        if negb ex then mret (out_r (Int 0))
        else
          now ← now_ms;
          let new_at := if absolute then wrap_u64 (Z.max n 0 * unit_ms) else from_now now n unit_ms in
          let finish : M Outcome :=
            _ ← call (fun now st => Store.expire_at now st (argv !!! 1%nat) (Some new_at));
            mret (out_w (Int 1)) in
          match argv !! 3%nat with
          | None => finish
          | Some flag =>
              cur ← call (fun now st => Store.pttl now st (argv !!! 1%nat));
              match expire_allowed flag cur now new_at with
              | None => mret (out_r (err "Unsupported option"))
              | Some false => mret (out_r (Int 0))
              | Some true => finish
              end
          end
    end.

Definition persist_cmd (argv : list bytes) : M Outcome :=
  cur ← call (fun now st => Store.pttl now st (argv !!! 1%nat));
  if is_millis cur then
    _ ← call (fun now st => Store.expire_at now st (argv !!! 1%nat) None);
    mret (out_maybe (Int 1) true)
  else mret (out_maybe (Int 0) false).

Definition ttl_reply (seconds : bool) (t : Ttl) : Reply :=
  match t with
  | NoKey => Int (-2)
  | NoExpiry => Int (-1)
  | Millis ms => Int (wrap_i64 (if seconds then (ms + 999) / 1000 else ms))
  end.

Definition ttl_cmd (argv : list bytes) (seconds : bool) : M Outcome :=
  if negb (length argv =? 2)%nat then mret (out_r (wrong_args "ttl"))
  else
    t ← call (fun now st => Store.pttl now st (argv !!! 1%nat));
    mret (out_r (ttl_reply seconds t)).

(** *** Glob patterns *)

#[export] Instance byte_inhabited : Inhabited byte := populate x00.

(** [match_class]: the scan of a class, from the byte after [[] or [^]; the
    index of its end and whether [c] was in it. *)
Fixpoint class_loop (fuel : nat) (p : bytes) (c : byte) (i : nat) (matched : bool) : nat * bool :=
  match fuel with
  | O => (i, matched)
  | S fuel =>
      match p !! i with
      | None => (i, matched)
      | Some a =>
          if bool_decide (a = x5d) then (i, matched)
          else if (i + 2 <? length p)%nat && bool_decide (p !! (i + 1)%nat = Some x2d)
                  && negb (bool_decide (p !! (i + 2)%nat = Some x5d)) then
            let hi := p !!! (i + 2)%nat in
            class_loop fuel p c (i + 3)
              (if (byte_val a <=? byte_val c) && (byte_val c <=? byte_val hi) then true else matched)
          else class_loop fuel p c (i + 1) (if bool_decide (a = c) then true else matched)
      end
  end.

Definition match_class (p : bytes) (c : byte) : nat * bool :=
  let negate := bool_decide (p !! 1%nat = Some x5e) in
  let '(i, matched) := class_loop (length p) p c (if negate then 2%nat else 1%nat) false in
  ((if (i <? length p)%nat then (i + 1)%nat else i), xorb matched negate).

(** One attempt at the current pattern position: where to go on, if it fits;
    the third part is the new place to come back to after a star. *)
Definition glob_step (pat s : bytes) (pi si : nat) : option (nat * nat * bool) :=
  match pat !! pi, s !! si with
  | Some p, Some c =>
      if bool_decide (p = x2a) then Some ((pi + 1)%nat, si, true)
      else if bool_decide (p = x3f) then Some ((pi + 1)%nat, (si + 1)%nat, false)
      else if bool_decide (p = x5b) then
        let '(np, matched) := match_class (drop pi pat) c in
        if matched then Some ((pi + np)%nat, (si + 1)%nat, false) else None
      else if bool_decide (p = c) then Some ((pi + 1)%nat, (si + 1)%nat, false)
      else None
  | _, _ => None
  end.

(** The trailing stars of the pattern. *)
Fixpoint only_stars (p : bytes) : bool :=
  match p with
  | [] => true
  | b :: p => bool_decide (b = x2a) && only_stars p
  end.

(** The main loop; [None] is no result: out of fuel. *)
Fixpoint glob_loop (fuel : nat) (pat s : bytes) (pi si : nat) (star : option (nat * nat))
    : option bool :=
  match fuel with
  | O => None
  | S fuel =>
      if (si <? length s)%nat then
        match glob_step pat s pi si with
        | Some (pi', si', true) => glob_loop fuel pat s pi' si' (Some (pi, si))
        | Some (pi', si', false) => glob_loop fuel pat s pi' si' star
        | None =>
            match star with
            | Some (sp, ss) => glob_loop fuel pat s (sp + 1) (ss + 1) (Some (sp, (ss + 1)%nat))
            | None => Some false
            end
        end
      else Some (only_stars (drop pi pat))
  end.

(** Between two returns to a star the pattern position grows, and a return
    moves the star's place in the text, so this many turns are enough. *)
Definition glob_fuel (pat s : bytes) : nat :=
  ((length pat + 2) * (length s + 2) * (length pat + 2))%nat.

Definition glob_match (pat s : bytes) : bool :=
  default false (glob_loop (glob_fuel pat s) pat s 0 0 None).

Definition keys_cmd (argv : list bytes) : M Outcome :=
  ks ← call (fun now st => (st, Store.keys now st));
  mret (out_r (Array (Some (bulks (filter (fun k => glob_match (argv !!! 1%nat) k = true) ks))))).

(** The options of [SCAN]: the last [MATCH] counts. *)
Fixpoint scan_pattern (rest : list bytes) (pattern : option bytes) : option bytes :=
  match rest with
  | [] => pattern
  | a :: rest =>
      let opt := upper_text a in
      if bool_decide (opt = lit "MATCH") then
        match rest with p :: rest => scan_pattern rest (Some p) | [] => None end
      else if bool_decide (opt = lit "COUNT") || bool_decide (opt = lit "TYPE") then
        match rest with _ :: rest => scan_pattern rest pattern | [] => pattern end
      else scan_pattern rest pattern
  end.

Definition scan_cmd (argv : list bytes) : M Outcome :=
  let pattern := scan_pattern (drop 2 argv) None in
  ks ← call (fun now st => (st, Store.keys now st));
  let keep k := match pattern with Some p => glob_match p k | None => true end in
  mret (out_r (Array (Some [Bulk (Some (lit "0"));
                            Array (Some (bulks (filter (fun k => keep k = true) ks)))]))).

(** ** Commands that depend on the order of hashes or the text of floats *)

Section dispatch.
Context {HO : HashOrder} {FT : FloatText}.

Definition hgetall_cmd (argv : list bytes) (st : ConnState) : M Outcome :=
  r ← call (fun now s => Store.hgetall now s (argv !!! 1%nat));
  mret (match r with
        | Err e => out_r (store_err e)
        | Ok pairs =>
            if resp3 st
            then out_r (Map ((fun p => (Bulk (Some p.1), Bulk (Some p.2))) <$> pairs))
            else out_r (Array (Some (bulks (pairs ≫= fun p => [p.1; p.2]))))
        end).

Definition hkeys_vals_cmd (argv : list bytes) (keys : bool) : M Outcome :=
  r ← call (fun now s => Store.hgetall now s (argv !!! 1%nat));
  mret (match r with
        | Err e => out_r (store_err e)
        | Ok pairs => out_r (Array (Some (bulks ((fun p => if keys then p.1 else p.2) <$> pairs))))
        end).

(** The scores and members of [ZADD]; [None] when a score is not a float. *)
Fixpoint zadd_pairs (l : list (bytes * bytes)) : option (list (f64 * bytes)) :=
  match l with
  | [] => Some []
  | (s, m) :: l => score ← parse_f64 s; ps ← zadd_pairs l; Some ((score, m) :: ps)
  end.

Definition zadd_cmd (argv : list bytes) : M Outcome :=
  if (length argv <? 4)%nat || negb (is_multiple_of_2 (length argv))
  then mret (out_r (wrong_args "zadd"))
  else
    match zadd_pairs (pairs_of (drop 2 argv)) with
    | None => mret (out_r (err "value is not a valid float"))
    | Some pairs =>
        r ← call (fun now st => Store.zadd now st (argv !!! 1%nat) pairs);
        mret (written_len r)
    end.

Definition zscore_cmd (argv : list bytes) : M Outcome :=
  r ← call (fun now st => Store.zscore now st (argv !!! 1%nat) (argv !!! 2%nat));
  mret (match r with
        | Ok (Some s) => out_r (Bulk (Some (fmt_score s)))
        | Ok None => out_r (Bulk None)
        | Err e => out_r (store_err e)
        end).

Definition zrange_cmd (argv : list bytes) : M Outcome :=
  match parse_i64_bytes (argv !!! 2%nat), parse_i64_bytes (argv !!! 3%nat) with
  | Some start, Some stop =>
      let withscores := (5 <=? length argv)%nat && eq_ci (argv !!! 4%nat) "withscores" in
      r ← call (fun now st => Store.zrange now st (argv !!! 1%nat) start stop);
      mret (match r with
            | Err e => out_r (store_err e)
            | Ok items =>
                out_r (Array (Some (bulks (items ≫= fun '(m, sc) =>
                  m :: if withscores : bool then [fmt_score sc] else []))))
            end)
  | _, _ => mret (out_r (err NOT_INT))
  end.

(** [SAVE]: [save_snapshot] writes a temporary file and renames it, so a
    fault leaves the old file. *)
Definition save_snapshot : M (option bytes) := fun w =>
  let data := dump_commands (clock w (tick w)) (store w) in
  match io_fault w (tick w) with
  | Some e =>
      (mkWorld (store w) (S (tick w)) (clock w) (entropy w) (io_fault w) (snapshot w), Some e)
  | None =>
      (mkWorld (store w) (S (tick w)) (clock w) (entropy w) (io_fault w) (Some data), None)
  end.

Definition save_cmd : M Outcome :=
  r ← save_snapshot;
  mret (match r with
        | None => out_r ok
        | Some e => out_r (Error (lit "ERR snapshot failed: " ++ e))
        end).

(** ** Dispatch

    An arm of the [match] on the command name: the patterns, the guard on the
    arguments, and the body. *)
Record Arm := mkArm {
  pats : list string;
  guard : nat → bool;
  body : bytes → list bytes → ConnState → Config → M (ConnState * Outcome)
}.

Definition any (n : nat) : bool := true.

(** A body that leaves the connection as it is. *)
Definition cmd (f : list bytes → M Outcome)
    : bytes → list bytes → ConnState → Config → M (ConnState * Outcome) :=
  fun _ argv st _ => o ← f argv; mret (st, o).

(** A body that calls the store once. *)
Definition op {R : Type} (f : Z → Store.t → list bytes → Store.t * R) (g : R → Outcome)
    : bytes → list bytes → ConnState → Config → M (ConnState * Outcome) :=
  cmd (fun argv => r ← call (fun now st => f now st argv); mret (g r)).

(** A body that uses neither the store nor the clock. *)
Definition pure_cmd (f : list bytes → ConnState → Config → ConnState * Outcome)
    : bytes → list bytes → ConnState → Config → M (ConnState * Outcome) :=
  fun _ argv st cfg => mret (f argv st cfg).

Definition introspection_arms : list Arm :=
  [mkArm ["PING"] any (pure_cmd (fun argv st _ =>
     (st, match length argv with
          | 1%nat => out_r (Simple (lit "PONG"))
          | 2%nat => out_r (Bulk (Some (argv !!! 1%nat)))
          | _ => out_r (wrong_args "ping")
          end)));
   mkArm ["ECHO"] (Nat.eqb 2) (pure_cmd (fun argv st _ => (st, out_r (Bulk (Some (argv !!! 1%nat))))));
   mkArm ["HELLO"] any (pure_cmd (fun argv st _ => hello argv st));
   mkArm ["QUIT"] any (pure_cmd (fun _ st _ => (st, mkOutcome ok true false)));
   mkArm ["SELECT"] any (pure_cmd (fun _ st _ => (st, out_r ok)));
   mkArm ["AUTH"] any (pure_cmd auth);
   mkArm ["COMMAND"] any (pure_cmd (fun argv st _ => (st, command_meta argv)));
   mkArm ["CONFIG"] any (pure_cmd (fun argv st cfg => (st, config_cmd argv cfg)));
   mkArm ["CLIENT"] any (pure_cmd (fun argv st _ => client_cmd argv st));
   mkArm ["INFO"] any (fun _ _ st cfg =>
     t ← peek (info_text cfg); mret (st, out_r (Bulk (Some t))));
   mkArm ["DBSIZE"] any (fun _ _ st _ =>
     n ← peek Store.dbsize; mret (st, out_r (Int (Z.of_nat n))));
   mkArm ["FLUSHALL"; "FLUSHDB"] any (fun _ _ st _ => _ ← flush_all; mret (st, out_w ok))].

Definition string_arms : list Arm :=
  [mkArm ["SET"] any (cmd set_cmd);
   mkArm ["GET"] (Nat.eqb 2) (op (fun now st argv => Store.get now st (argv !!! 1%nat)) str_or_err);
   mkArm ["GETSET"] (Nat.eqb 3) (cmd getset_cmd);
   mkArm ["SETNX"] (Nat.eqb 3) (cmd setnx_cmd);
   mkArm ["SETEX"; "PSETEX"] any (fun nm argv st _ =>
     o ← setex_cmd argv (bool_decide (nm = lit "PSETEX")); mret (st, o));
   mkArm ["MSET"] any (cmd mset_cmd);
   mkArm ["MGET"] (Nat.leb 2) (cmd mget_cmd);
   mkArm ["APPEND"] (Nat.eqb 3)
     (op (fun now st argv => Store.append now st (argv !!! 1%nat) (argv !!! 2%nat)) written_len);
   mkArm ["STRLEN"] (Nat.eqb 2) (op (fun now st argv => Store.strlen now st (argv !!! 1%nat)) int_or_err);
   mkArm ["INCR"] any (cmd (fun argv => incr_cmd argv 1 false));
   mkArm ["DECR"] any (cmd (fun argv => incr_cmd argv (-1) false));
   mkArm ["INCRBY"] any (cmd (fun argv => incr_cmd argv 0 true));
   mkArm ["DECRBY"] any (cmd (fun argv => incr_cmd argv 0 true))].

Definition collection_arms : list Arm :=
  [mkArm ["LPUSH"] any (cmd (fun argv => push_cmd argv true));
   mkArm ["RPUSH"] any (cmd (fun argv => push_cmd argv false));
   mkArm ["LPOP"] any (cmd (fun argv => pop_cmd argv true));
   mkArm ["RPOP"] any (cmd (fun argv => pop_cmd argv false));
   mkArm ["LLEN"] (Nat.eqb 2) (op (fun now st argv => Store.llen now st (argv !!! 1%nat)) int_or_err);
   mkArm ["LRANGE"] (Nat.eqb 4) (cmd lrange_cmd);
   mkArm ["HSET"; "HMSET"] any (fun nm argv st _ =>
     o ← hset_cmd argv (bool_decide (nm = lit "HMSET")); mret (st, o));
   mkArm ["HGET"] (Nat.eqb 3)
     (op (fun now st argv => Store.hget now st (argv !!! 1%nat) (argv !!! 2%nat)) str_or_err);
   mkArm ["HDEL"] (Nat.leb 3)
     (op (fun now st argv => Store.hdel now st (argv !!! 1%nat) (drop 2 argv)) dirty_count);
   mkArm ["HLEN"] (Nat.eqb 2) (op (fun now st argv => Store.hlen now st (argv !!! 1%nat)) int_or_err);
   mkArm ["HEXISTS"] (Nat.eqb 3)
     (op (fun now st argv => Store.hget now st (argv !!! 1%nat) (argv !!! 2%nat)) (fun r =>
        match r with
        | Ok v => out_r (Int (int_of (bool_decide (is_Some v))))
        | Err e => out_r (store_err e)
        end));
   mkArm ["HGETALL"] (Nat.eqb 2) (fun _ argv st _ => o ← hgetall_cmd argv st; mret (st, o));
   mkArm ["HKEYS"; "HVALS"] (Nat.eqb 2) (fun nm argv st _ =>
     o ← hkeys_vals_cmd argv (bool_decide (nm = lit "HKEYS")); mret (st, o));
   mkArm ["HMGET"] (Nat.leb 3) (cmd hmget_cmd);
   mkArm ["SADD"] (Nat.leb 3)
     (op (fun now st argv => Store.sadd now st (argv !!! 1%nat) (drop 2 argv)) dirty_count);
   mkArm ["SREM"] (Nat.leb 3)
     (op (fun now st argv => Store.srem now st (argv !!! 1%nat) (drop 2 argv)) dirty_count);
   mkArm ["SISMEMBER"] (Nat.eqb 3)
     (op (fun now st argv => Store.sismember now st (argv !!! 1%nat) (argv !!! 2%nat)) (fun r =>
        match r with
        | Ok b => out_r (Int (int_of b))
        | Err e => out_r (store_err e)
        end));
   mkArm ["SCARD"] (Nat.eqb 2) (op (fun now st argv => Store.scard now st (argv !!! 1%nat)) int_or_err);
   mkArm ["SMEMBERS"] (Nat.eqb 2)
     (op (fun now st argv => Store.smembers now st (argv !!! 1%nat)) items_or_err);
   mkArm ["ZADD"] any (cmd zadd_cmd);
   mkArm ["ZSCORE"] (Nat.eqb 3) (cmd zscore_cmd);
   mkArm ["ZREM"] (Nat.leb 3)
     (op (fun now st argv => Store.zrem now st (argv !!! 1%nat) (drop 2 argv)) dirty_count);
   mkArm ["ZCARD"] (Nat.eqb 2) (op (fun now st argv => Store.zcard now st (argv !!! 1%nat)) int_or_err);
   mkArm ["ZRANGE"] (Nat.leb 4) (cmd zrange_cmd)].

Definition keyspace_arms : list Arm :=
  [mkArm ["DEL"; "UNLINK"] (Nat.leb 2) (cmd (fun argv =>
     n ← countM (fun k => call (fun now st => Store.del now st k)) (drop 1 argv);
     mret (out_maybe (Int n) (0 <? n))));
   mkArm ["EXISTS"] (Nat.leb 2) (cmd (fun argv =>
     n ← countM (fun k => call (fun now st => Store.exists_ now st k)) (drop 1 argv);
     mret (out_r (Int n))));
   mkArm ["TYPE"] (Nat.eqb 2)
     (op (fun now st argv => Store.type_of now st (argv !!! 1%nat)) (fun t => out_r (Simple (lit t))));
   mkArm ["EXPIRE"] any (cmd (fun argv => expire_cmd argv 1000 false));
   mkArm ["PEXPIRE"] any (cmd (fun argv => expire_cmd argv 1 false));
   mkArm ["EXPIREAT"] any (cmd (fun argv => expire_cmd argv 1000 true));
   mkArm ["PEXPIREAT"] any (cmd (fun argv => expire_cmd argv 1 true));
   mkArm ["PERSIST"] (Nat.eqb 2) (cmd persist_cmd);
   mkArm ["TTL"] any (cmd (fun argv => ttl_cmd argv true));
   mkArm ["PTTL"] any (cmd (fun argv => ttl_cmd argv false));
   mkArm ["KEYS"] (Nat.eqb 2) (cmd keys_cmd);
   mkArm ["SCAN"] (Nat.leb 2) (cmd scan_cmd);
   mkArm ["SAVE"; "BGSAVE"] any (cmd (fun _ => save_cmd))].

Definition arms : list Arm :=
  introspection_arms ++ string_arms ++ collection_arms ++ keyspace_arms.

(** The first 24 bytes of the command name, in upper case. *)
Definition upper (nm : bytes) : bytes := to_ascii_uppercase <$> take 24 nm.

Definition arm_matches (nm : bytes) (n : nat) (a : Arm) : bool :=
  existsb (fun p => bool_decide (nm = lit p)) (pats a) && guard a n.

Definition unknown_command (nm : bytes) : Outcome :=
  out_r (Error (lit "ERR unknown command '" ++ from_utf8_lossy nm ++ lit "'")).

Definition dispatch (argv : list bytes) (st : ConnState) (cfg : Config) : M (ConnState * Outcome) :=
  let nm := upper (argv !!! 0%nat) in
  match find (arm_matches nm (length argv)) arms with
  | Some a => body a nm argv st cfg
  | None => mret (st, unknown_command (argv !!! 0%nat))
  end.

End dispatch.
