(* ===== verification/CommandsOk.v ===== *)
(** * Dispatch: what a command may change

    A command whose outcome is not to be persisted changes nothing but the
    removal of expired entries, and a command that is persisted is one of the
    write commands. *)
From S2P Require Import Prelude Std Map Eviction Value Shard Spec ShardOk Store StoreOk.
From S2P Require Import Resp Reply Dump Config Commands.
Local Open Scope Z_scope.

(** ** Operations that report no change *)

Section clean.
Context {HO : HashOrder}.
Implicit Types (now : Z) (m : Db.t) (k : bytes).

(** Does the result of an operation say that it changed something? *)
Definition op_dirty (o : Op) (r : Ret) : bool :=
  match o, r with
  | (OSet _ _ _ | ODel _ | OExpireAt _ _), RBool b => b
  | OIncrBy _ _, RInt (Ok _) => true
  | (OAppend _ _ | OPush _ _ _ | OHset _ _ | OZadd _ _), RLen (Ok _) => true
  | OPop _ _ _, RItems (Ok items) => negb (bool_decide (items = []))
  | (OHdel _ _ | OSadd _ _ | OSrem _ _ | OZrem _ _), RLen (Ok n) => (0 <? n)%nat
  | _, _ => false
  end.

Lemma foldl_count_zero {A C : Type} (f : C → A → C * bool) (g : C * nat → A → C * nat) l c n :
  (∀ c n a, g (c, n) a = ((f c a).1, if (f c a).2 then S n else n)) →
  (∀ c a, (f c a).2 = false → (f c a).1 = c) →
  (n <= (foldl g (c, n) l).2)%nat ∧
  ((foldl g (c, n) l).2 = n → foldl g (c, n) l = (c, n)).
Proof.
  intros Hg Hf. revert c n. induction l as [|a l IH]; intros c n; simpl; [done|].
  rewrite Hg. destruct (f c a).2 eqn:Hb.
  - destruct (IH (f c a).1 (S n)) as [Hle _]. split; lia.
  - rewrite (Hf c a Hb). apply IH.
Qed.

Lemma sadd_body_zero ms s : (sadd_body ms s).2 = O → (sadd_body ms s).1 = s.
Proof.
  intros Hz. destruct (foldl_count_zero (fun s (m : bytes) => ({[m]} ∪ s, negb (bool_decide (m ∈ s))))
    (fun '(s, n) (m : bytes) => ({[m]} ∪ s, if bool_decide (m ∈ s) then n else S n)) ms s O) as [_ H].
  - intros c n a. simpl. by case_bool_decide.
  - intros c a Hc%negb_false_iff%bool_decide_eq_true. simpl in *. set_solver.
  - unfold sadd_body in *. by rewrite (H Hz).
Qed.

Lemma srem_body_zero ms s : (srem_body ms s).2 = O → (srem_body ms s).1 = s.
Proof.
  intros Hz. destruct (foldl_count_zero (fun s (m : bytes) => (s ∖ {[m]}, bool_decide (m ∈ s)))
    (fun '(s, n) (m : bytes) => (s ∖ {[m]}, if bool_decide (m ∈ s) then S n else n)) ms s O) as [_ H].
  - intros c n a. simpl. by case_bool_decide.
  - intros c a Hc%bool_decide_eq_false. simpl in *. set_solver.
  - unfold srem_body in *. by rewrite (H Hz).
Qed.

Lemma hdel_body_zero fs h : (hdel_body fs h).2 = O → (hdel_body fs h).1 = h.
Proof.
  intros Hz. destruct (foldl_count_zero (fun (h : gmap bytes bytes) f =>
      (delete f h, match h !! f with Some _ => true | None => false end))
    (fun '(h, n) f => (delete f h, match h !! f with Some _ => S n | None => n end)) fs h O) as [_ H].
  - intros c n a. simpl. by case_match.
  - intros c a. simpl. destruct (c !! a) eqn:Ha; [done|]. intros _. by apply delete_id.
  - unfold hdel_body in *. by rewrite (H Hz).
Qed.

Lemma zrem_body_zero ms z : (zrem_body ms z).2 = O → (zrem_body ms z).1 = z.
Proof.
  intros Hz. destruct (foldl_count_zero ZSet.remove
    (fun '(z, n) (m : bytes) =>
       let '(z, removed) := ZSet.remove z m in (z, if (removed : bool) then S n else n)) ms z O)
    as [_ H].
  - intros c n a. by destruct (ZSet.remove c a).
  - intros c a. unfold ZSet.remove. by case_match.
  - unfold zrem_body in *. by rewrite (H Hz).
Qed.

Lemma pop_loop_nil fuel count (left : bool) l out l' :
  pop_loop fuel count left l out = (l', []) → l' = l.
Proof.
  intros Hp. assert (∀ fuel count l out, ∃ more, (pop_loop fuel count left l out).2 = out ++ more) as Hm.
  { clear. induction fuel as [|fuel IH]; intros count l out; simpl; [exists []; by rewrite app_nil_r|].
    case_match; [exists []; by rewrite app_nil_r|].
    destruct (pop_item left l) as [[x l']|]; [|exists []; by rewrite app_nil_r].
    destruct (IH (count - 1) l' (out ++ [x])) as [more ->]. exists (x :: more). by rewrite <- app_assoc. }
  destruct fuel as [|fuel]; simpl in Hp; [by injection Hp as <-|].
  case_match; [by injection Hp as <-|].
  destruct (pop_item left l) as [[x l1]|]; [|by injection Hp as <-].
  destruct (Hm fuel (count - 1) l1 (out ++ [x])) as [more Heq]. rewrite Hp in Heq.
  simpl in Heq. by destruct out.
Qed.

Lemma pop_body_nil count left l l' : pop_body count left l = (l', []) → l' = l.
Proof. apply pop_loop_nil. Qed.

(** An update whose body leaves the collection as it was. *)
Lemma update_same {C R : Type} `{CollectionOk C} now m k (body : C → C * R) :
  Db.values_ok m →
  (∀ r, (Db.update now m k body).2 = Ok r → ∀ c, (body c).2 = r → (body c).1 = c) →
  (Db.update now m k body).1 = Db.purge now k m.
Proof.
  intros Hv Hsame. unfold Db.update, Db.purge in *.
  destruct (Db.find now m k) as [e|] eqn:Hf.
  - destruct (as_variant (value e)) as [c|] eqn:Hc; [|done].
    destruct (body c) as [c' r] eqn:Hb. simpl in *.
    assert (c' = c) as -> by (specialize (Hsame r eq_refl c); rewrite Hb in Hsame; by apply Hsame).
    apply Db.find_Some in Hf as [Hk _]. pose proof (Hv k e Hk) as Hve.
    apply variant_as_variant in Hc. rewrite Hc in Hve. apply value_ok_variant in Hve as [_ ->].
    apply insert_id. rewrite Hk. destruct e as [v x]. simpl in *. by rewrite Hc.
  - destruct (body make) as [c' r] eqn:Hb. simpl in *.
    assert (c' = make) as -> by (specialize (Hsame r eq_refl make); rewrite Hb in Hsame; by apply Hsame).
    by rewrite make_is_empty.
Qed.

Lemma update_clean {C R : Type} `{CollectionOk C} now m k (body : C → C * R) (f : Result R → Ret) o :
  Db.values_ok m →
  (∀ r c, op_dirty o (f (Ok r)) = false → (body c).2 = r → (body c).1 = c) →
  op_dirty o (prod_map id f (Db.update now m k body)).2 = false →
  (prod_map id f (Db.update now m k body)).1 = Db.purge now k m.
Proof.
  intros Hv Hsame Hd. rewrite <- (update_same now m k body Hv).
  - by destruct (Db.update now m k body).
  - intros r Hr c Hc. apply (Hsame r c); [|done]. rewrite <- Hr.
    by destruct (Db.update now m k body).
Qed.

Lemma db_clean now m o :
  Db.values_ok m → op_dirty o (Db.exec now m o).2 = false →
  (Db.exec now m o).1 = Db.purge now (op_key o) m.
Proof.
  intros Hv. destruct o; try (intros _; reflexivity); cbn [Db.exec op_key];
    try (apply update_clean; [done|]; simpl; intros r c Hd Hr; try done).
  - unfold Db.set. case_match; simpl; [done|]. case_match; done.
  - simpl. unfold Db.purge. destruct (Db.find now m k); simpl; done.
  - unfold Db.purge. destruct (Db.find now m k); simpl; done.
  - unfold Db.incr_by, Db.rewrite_str, Db.purge. repeat case_match; simplify_eq/=; done.
  - unfold Db.append, Db.rewrite_str, Db.purge. repeat case_match; simplify_eq/=; done.
  - apply negb_false_iff, bool_decide_eq_true in Hd. subst r.
    destruct (pop_body count left c) as [l' items] eqn:Hp. simpl in *. subst items.
    by eapply pop_body_nil.
  - apply hdel_body_zero. apply Nat.ltb_ge in Hd. lia.
  - apply sadd_body_zero. apply Nat.ltb_ge in Hd. lia.
  - apply srem_body_zero. apply Nat.ltb_ge in Hd. lia.
  - apply zrem_body_zero. apply Nat.ltb_ge in Hd. lia.
Qed.

End clean.

(** ** Worlds *)

Section worlds.
Context {HO : HashOrder} {FT : FloatText}.
Context (mm : Z) (Hmm : 0 <= mm).
Implicit Types (now : Z) (w : World) (st : Store.t) (k : bytes) (clk : nat → Z) (m : Db.t).

(** Entries are only lost, and only when a clock reading says they expired. *)
Definition expires_only (clk : nat → Z) (m m' : Db.t) : Prop :=
  m' ⊆ m ∧
  ∀ k e, m !! k = Some e → m' !! k = None → ∃ i, Shard.unexpired (clk i) e = false.

Lemma expires_only_refl clk m : expires_only clk m m.
Proof. split; [done|]. intros k e H1 H2. congruence. Qed.

Lemma expires_only_trans (clk : nat → Z) (m1 m2 m3 : Db.t) :
  expires_only clk m1 m2 → expires_only clk m2 m3 → expires_only clk m1 m3.
Proof.
  intros [Hs1 He1] [Hs2 He2]. split; [by etrans|]. intros k e H1 H3.
  destruct (m2 !! k) as [e'|] eqn:H2; [|by eapply He1].
  assert (e' = e) as -> by (eapply lookup_weaken in H2; [|exact Hs1]; congruence).
  by eapply He2.
Qed.

Lemma purge_expires_only clk i m k : expires_only clk m (Db.purge (clk i) k m).
Proof.
  split; [apply Db.purge_subseteq|]. intros j e Hj Hp. exists i.
  destruct (decide (j = k)) as [->|Hne]; [|rewrite Db.purge_ne in Hp by done; congruence].
  rewrite Db.purge_lookup in Hp. unfold Db.find in Hp. rewrite Hj in Hp. simpl in Hp.
  by destruct (Shard.unexpired (clk i) e).
Qed.

(** A step of the server: the store stays reachable and laid out as it is, the
    environment is the same, and the result tells whether anything but expiry
    happened. *)
Definition quiet {A : Type} (f : M A) (dirty : A → bool) : Prop :=
  ∀ w, reach mm (store w) →
    let '(w', a) := f w in
    reach mm (store w') ∧ clock w' = clock w ∧ same_layout (store w) (store w') ∧
    (dirty a = false → expires_only (clock w) ⟦store w⟧ ⟦store w'⟧).

Lemma quiet_ret {A : Type} (a : A) d : quiet (mret a) d.
Proof. intros w Hw. split_and!; [done..|]. intros _. apply expires_only_refl. Qed.

(** The result of the whole must be dirty when the first part was. *)
Lemma quiet_bind {A B : Type} (m : M A) (f : A → M B) d1 d2 :
  quiet m d1 → (∀ a, quiet (f a) d2) →
  (∀ a w, d1 a = true → d2 (f a w).2 = true) → quiet (m ≫= f) d2.
Proof.
  intros Hm Hf Hd w Hw. unfold mbind, M_bind. specialize (Hm w Hw).
  destruct (m w) as [w1 a]. destruct Hm as (Hw1 & Hc1 & Hl1 & Hq1). specialize (Hf a w1 Hw1).
  specialize (Hd a w1). destruct (f a w1) as [w2 b]. destruct Hf as (Hw2 & Hc2 & Hl2 & Hq2).
  simpl in Hd. split_and!; [done|congruence|by eapply same_layout_trans|]. intros Hb.
  eapply expires_only_trans; [apply Hq1; destruct (d1 a); [by rewrite Hd in Hb|done]|].
  rewrite <- Hc1. by apply Hq2.
Qed.

Lemma quiet_bind_clean {A B : Type} (m : M A) (f : A → M B) d :
  quiet m (fun _ => false) → (∀ a, quiet (f a) d) → quiet (m ≫= f) d.
Proof. intros Hm Hf. by eapply quiet_bind. Qed.

Lemma quiet_weaken {A : Type} (m : M A) d d' :
  quiet m d → (∀ a, d' a = false → d a = false) → quiet m d'.
Proof.
  intros Hm Hd w Hw. specialize (Hm w Hw). destruct (m w) as [w' a].
  destruct Hm as (? & ? & ? & ?). split_and!; auto.
Qed.

Lemma quiet_mapM {A B : Type} (f : A → M B) l :
  (∀ a, quiet (f a) (fun _ => false)) → quiet (mapM f l) (fun _ => false).
Proof.
  intros Hf. induction l as [|a l IH]; simpl; [apply quiet_ret|].
  apply quiet_bind_clean; [done|]. intros b. apply quiet_bind_clean; [done|].
  intros bs. apply quiet_ret.
Qed.

Lemma quiet_mapM_dirty {A B : Type} (f : A → M B) l (d : B → bool) :
  (∀ a, quiet (f a) d) → quiet (mapM f l) (existsb d).
Proof.
  intros Hf. induction l as [|a l IH]; simpl; [apply quiet_ret|].
  apply (quiet_bind _ _ d); [done| |].
  - intros b. apply (quiet_bind _ _ (existsb d)); [done|intros bs; apply quiet_ret|].
    intros bs w Hbs. simpl. by rewrite Hbs, orb_true_r.
  - intros b w Hb. unfold mbind, M_bind. destruct (mapM f l w) as [w' bs]. simpl. by rewrite Hb.
Qed.

(** *** Calls of the store *)

Lemma fits_part st k : wf st → Db.fits (shard_budget st) (shard_part st k ⟦st⟧).
Proof.
  intros Hst. rewrite <- shard_filter by done. rewrite <- (shard_budget_eq st k Hst).
  by apply shard_wf.
Qed.

Lemma store_values_ok st : wf st → Db.values_ok ⟦st⟧.
Proof.
  intros Hst k e Hk. rewrite store_lookup in Hk by done.
  destruct (shard_wf st k Hst) as (_ & Hv & _). exact (Hv k e Hk).
Qed.

Lemma store_exec_clean now st o :
  wf st → op_ok o → op_dirty o (Store.exec now st o).2 = false →
  ⟦(Store.exec now st o).1⟧ = Db.purge now (op_key o) ⟦st⟧.
Proof.
  intros Hst Ho Hd. destruct (store_exec_ok now st o Hst Ho) as (Hr & _ & _ & _ & _ & Heq).
  rewrite Hr in Hd. pose proof (db_clean now ⟦st⟧ o (store_values_ok st Hst) Hd) as Hc.
  rewrite Hc in Heq. apply Heq. eapply Db.fits_subseteq; [|by apply (fits_part st (op_key o))].
  unfold shard_part. apply map_filter_strong_subseteq_ext.
  intros k e [Hk Hl]. split; [done|].
  eapply lookup_weaken; [exact Hl|apply Db.purge_subseteq].
Qed.

Lemma quiet_call {R : Type} (o : Op) (C : R → Ret) (f : Z → Store.t → Store.t * R) d :
  (∀ now st, Store.exec now st o = prod_map id C (f now st)) → op_ok o →
  (∀ r, d r = false → op_dirty o (C r) = false) → quiet (call f) d.
Proof.
  intros Hf Ho Hd w Hw. unfold call. specialize (Hf (clock w (tick w)) (store w)).
  destruct (f (clock w (tick w)) (store w)) as [st' r] eqn:Hfw.
  pose proof (reach_exec mm (clock w (tick w)) (store w) o Hw Ho) as Hw'.
  pose proof (store_exec_clean (clock w (tick w)) (store w) o) as Hc.
  pose proof (store_exec_ok (clock w (tick w)) (store w) o (proj1 (reach_ok mm _ Hmm Hw)) Ho) as (_ & _ & Hl & _).
  rewrite Hf in *. simpl in *. split_and!; [done..|]. intros Hdr.
  rewrite Hc; [|by apply (reach_ok mm)|done|by apply Hd]. apply purge_expires_only.
Qed.

Lemma quiet_now : quiet now_ms (fun _ => false).
Proof. intros w Hw. split_and!; [done..|]. intros _. apply expires_only_refl. Qed.

Lemma quiet_look {R : Type} (f : Z → Store.t → R) d : quiet (call (fun now st => (st, f now st))) d.
Proof. intros w Hw. split_and!; [done..|]. intros _. apply expires_only_refl. Qed.

Lemma quiet_peek {R : Type} (f : Store.t → R) d : quiet (peek f) d.
Proof. intros w Hw. split_and!; [done..|]. intros _. apply expires_only_refl. Qed.

Lemma quiet_flush_all : quiet flush_all (fun _ => true).
Proof.
  intros w Hw. split_and!; [by apply reach_flush_all|done| |done].
  apply (flush_all_ok (entropy w (tick w)) (store w)), (proj1 (reach_ok mm _ Hmm Hw)).
Qed.

Lemma quiet_save : quiet save_snapshot (fun _ => false).
Proof.
  intros w Hw. unfold save_snapshot.
  destruct (io_fault w (tick w)); (split_and!; [done..|]); intros _; apply expires_only_refl.
Qed.

(** The operations, each with what its result says about a change. *)
Definition res_ok {A : Type} (r : Result A) : bool := match r with Ok _ => true | Err _ => false end.
Definition res_count (r : Result nat) : bool :=
  match r with Ok n => (0 <? n)%nat | Err _ => false end.
Definition res_items (r : Result (list bytes)) : bool :=
  match r with Ok l => negb (bool_decide (l = [])) | Err _ => false end.

Lemma quiet_get k : quiet (call (fun now st => Store.get now st k)) (fun _ => false).
Proof. by apply (quiet_call (OGet k) RStr); [..|intros []]. Qed.
Lemma quiet_set k v o : quiet (call (fun now st => Store.set now st k v o)) (fun b => b).
Proof. by apply (quiet_call (OSet k v o) RBool); [..|intros []]. Qed.
Lemma quiet_del k : quiet (call (fun now st => Store.del now st k)) (fun b => b).
Proof. by apply (quiet_call (ODel k) RBool); [..|intros []]. Qed.
Lemma quiet_exists_ k : quiet (call (fun now st => Store.exists_ now st k)) (fun _ => false).
Proof. by apply (quiet_call (OExists k) RBool); [..|intros []]. Qed.
Lemma quiet_type_of k : quiet (call (fun now st => Store.type_of now st k)) (fun _ => false).
Proof. by apply (quiet_call (OTypeOf k) RType); [..|intros []]. Qed.
Lemma quiet_expire_at k a : quiet (call (fun now st => Store.expire_at now st k a)) (fun b => b).
Proof. by apply (quiet_call (OExpireAt k a) RBool); [..|intros []]. Qed.
Lemma quiet_pttl k : quiet (call (fun now st => Store.pttl now st k)) (fun _ => false).
Proof. by apply (quiet_call (OPttl k) RTtl); [..|intros []]. Qed.
Lemma quiet_incr_by k d : quiet (call (fun now st => Store.incr_by now st k d)) (res_ok).
Proof. by apply (quiet_call (OIncrBy k d) RInt); [..|intros []]. Qed.
Lemma quiet_append k v : quiet (call (fun now st => Store.append now st k v)) (res_ok).
Proof. by apply (quiet_call (OAppend k v) RLen); [..|intros []]. Qed.
Lemma quiet_strlen k : quiet (call (fun now st => Store.strlen now st k)) (fun _ => false).
Proof. by apply (quiet_call (OStrlen k) RLen); [..|intros []]. Qed.
Lemma quiet_push k vs b : quiet (call (fun now st => Store.push now st k vs b)) (res_ok).
Proof. by apply (quiet_call (OPush k vs b) RLen); [..|intros []]. Qed.
Lemma quiet_pop k c b : quiet (call (fun now st => Store.pop now st k c b)) (res_items).
Proof. by apply (quiet_call (OPop k c b) RItems); [..|intros []]. Qed.
Lemma quiet_llen k : quiet (call (fun now st => Store.llen now st k)) (fun _ => false).
Proof. by apply (quiet_call (OLlen k) RLen); [..|intros []]. Qed.
Lemma quiet_lrange k a b : quiet (call (fun now st => Store.lrange now st k a b)) (fun _ => false).
Proof. by apply (quiet_call (OLrange k a b) RItems); [..|intros []]. Qed.
Lemma quiet_hset k ps : quiet (call (fun now st => Store.hset now st k ps)) (res_ok).
Proof. by apply (quiet_call (OHset k ps) RLen); [..|intros []]. Qed.
Lemma quiet_hget k v : quiet (call (fun now st => Store.hget now st k v)) (fun _ => false).
Proof. by apply (quiet_call (OHget k v) RStr); [..|intros []]. Qed.
Lemma quiet_hdel k vs : quiet (call (fun now st => Store.hdel now st k vs)) (res_count).
Proof. by apply (quiet_call (OHdel k vs) RLen); [..|intros []]. Qed.
Lemma quiet_hlen k : quiet (call (fun now st => Store.hlen now st k)) (fun _ => false).
Proof. by apply (quiet_call (OHlen k) RLen); [..|intros []]. Qed.
Lemma quiet_hgetall k : quiet (call (fun now st => Store.hgetall now st k)) (fun _ => false).
Proof. by apply (quiet_call (OHgetall k) RPairs); [..|intros []]. Qed.
Lemma quiet_sadd k vs : quiet (call (fun now st => Store.sadd now st k vs)) (res_count).
Proof. by apply (quiet_call (OSadd k vs) RLen); [..|intros []]. Qed.
Lemma quiet_srem k vs : quiet (call (fun now st => Store.srem now st k vs)) (res_count).
Proof. by apply (quiet_call (OSrem k vs) RLen); [..|intros []]. Qed.
Lemma quiet_sismember k v : quiet (call (fun now st => Store.sismember now st k v)) (fun _ => false).
Proof. by apply (quiet_call (OSismember k v) RFlag); [..|intros []]. Qed.
Lemma quiet_scard k : quiet (call (fun now st => Store.scard now st k)) (fun _ => false).
Proof. by apply (quiet_call (OScard k) RLen); [..|intros []]. Qed.
Lemma quiet_smembers k : quiet (call (fun now st => Store.smembers now st k)) (fun _ => false).
Proof. by apply (quiet_call (OSmembers k) RItems); [..|intros []]. Qed.
Lemma quiet_zrem k vs : quiet (call (fun now st => Store.zrem now st k vs)) (res_count).
Proof. by apply (quiet_call (OZrem k vs) RLen); [..|intros []]. Qed.
Lemma quiet_zscore k v : quiet (call (fun now st => Store.zscore now st k v)) (fun _ => false).
Proof. by apply (quiet_call (OZscore k v) RScore); [..|intros []]. Qed.
Lemma quiet_zcard k : quiet (call (fun now st => Store.zcard now st k)) (fun _ => false).
Proof. by apply (quiet_call (OZcard k) RLen); [..|intros []]. Qed.
Lemma quiet_zrange k a b : quiet (call (fun now st => Store.zrange now st k a b)) (fun _ => false).
Proof. by apply (quiet_call (OZrange k a b) RScored); [..|intros []]. Qed.
Lemma quiet_zadd k ps :
  Forall (fun p => f64_ok p.1) ps → quiet (call (fun now st => Store.zadd now st k ps)) res_ok.
Proof. intros Hps. by apply (quiet_call (OZadd k ps) RLen); [..|intros []]. Qed.

(** *** Handlers *)

(** One call whose result decides the outcome. *)
Lemma quiet_reply {R : Type} (f : M R) (g : R → Outcome) d :
  quiet f d → (∀ r, d r = true → persist (g r) = true) → quiet (r ← f; mret (g r)) persist.
Proof.
  intros Hf Hg. apply (quiet_bind _ _ d); [done|intros; apply quiet_ret|].
  intros r w Hr. by apply Hg.
Qed.

Lemma quiet_set_cmd argv : quiet (set_cmd argv) persist.
Proof.
  unfold set_cmd. case_match; [apply quiet_ret|]. apply quiet_bind_clean; [apply quiet_now|].
  intros now. destruct (set_opts _ _ _ _) as [[opts want]|e]; [|apply quiet_ret].
  apply quiet_bind_clean; [destruct want; [apply quiet_get|apply quiet_ret]|].
  intros [old|e]; [|apply quiet_ret]. apply (quiet_reply _ _ (fun b => b)); [apply quiet_set|].
  by intros [].
Qed.

Lemma quiet_setex_cmd argv ms : quiet (setex_cmd argv ms) persist.
Proof.
  unfold setex_cmd. case_match; [apply quiet_ret|].
  destruct (parse_i64_bytes _) as [n|]; [|apply quiet_ret]. case_match; [apply quiet_ret|].
  apply quiet_bind_clean; [apply quiet_now|]. intros now.
  apply (quiet_reply _ _ (fun b => b)); [apply quiet_set|done].
Qed.

Lemma quiet_incr_cmd argv fixed by_ : quiet (incr_cmd argv fixed by_) persist.
Proof.
  unfold incr_cmd. match goal with |- quiet (match ?x with _ => _ end) _ => destruct x as [[k d]|e] end;
    [|apply quiet_ret].
  apply (quiet_reply _ _ res_ok); [apply quiet_incr_by|by intros []].
Qed.

Lemma quiet_getset_cmd argv : quiet (getset_cmd argv) persist.
Proof.
  apply quiet_bind_clean; [apply quiet_get|]. intros [old|e]; [|apply quiet_ret].
  apply (quiet_reply _ _ (fun b => b)); [apply quiet_set|done].
Qed.

Lemma quiet_setnx_cmd argv : quiet (setnx_cmd argv) persist.
Proof. apply (quiet_reply _ _ (fun b => b)); [apply quiet_set|by intros []]. Qed.

Lemma quiet_mset_cmd argv : quiet (mset_cmd argv) persist.
Proof.
  unfold mset_cmd. case_match; [apply quiet_ret|].
  apply (quiet_reply _ _ (existsb (fun b => b))); [|done].
  apply quiet_mapM_dirty. intros [k v]. apply quiet_set.
Qed.

Lemma quiet_mget_cmd argv : quiet (mget_cmd argv) persist.
Proof.
  apply (quiet_reply _ _ (fun _ => false)); [|done]. apply quiet_mapM. intros k.
  apply quiet_bind_clean; [apply quiet_get|intros; apply quiet_ret].
Qed.

Lemma quiet_hmget_cmd argv : quiet (hmget_cmd argv) persist.
Proof.
  apply (quiet_reply _ _ (fun _ => false)); [|done]. apply quiet_mapM. intros f.
  apply quiet_bind_clean; [apply quiet_hget|intros; apply quiet_ret].
Qed.

Lemma quiet_push_cmd argv side : quiet (push_cmd argv side) persist.
Proof.
  unfold push_cmd. case_match; [apply quiet_ret|].
  apply (quiet_reply _ _ res_ok); [apply quiet_push|by intros []].
Qed.

Lemma quiet_pop_cmd argv side : quiet (pop_cmd argv side) persist.
Proof.
  unfold pop_cmd. case_match; [apply quiet_ret|].
  match goal with |- quiet (match ?x with _ => _ end) _ => destruct x as [count|e] end;
    [|apply quiet_ret].
  apply (quiet_reply _ _ res_items); [apply quiet_pop|by intros []].
Qed.

Lemma quiet_lrange_cmd argv : quiet (lrange_cmd argv) persist.
Proof.
  unfold lrange_cmd. do 2 (destruct (parse_i64_bytes _); [|apply quiet_ret]).
  apply quiet_bind_clean; [apply quiet_lrange|intros; apply quiet_ret].
Qed.

Lemma quiet_zrange_cmd argv : quiet (zrange_cmd argv) persist.
Proof.
  unfold zrange_cmd. do 2 (destruct (parse_i64_bytes _); [|apply quiet_ret]).
  apply quiet_bind_clean; [apply quiet_zrange|intros; apply quiet_ret].
Qed.

Lemma quiet_hset_cmd argv hmset : quiet (hset_cmd argv hmset) persist.
Proof.
  unfold hset_cmd. case_match; [apply quiet_ret|].
  apply (quiet_reply _ _ res_ok); [apply quiet_hset|by intros []].
Qed.

Lemma zadd_pairs_ok l ps : zadd_pairs l = Some ps → Forall (fun p => f64_ok p.1) ps.
Proof.
  revert ps. induction l as [|[s x] l IH]; intros ps; simpl; [by intros [= <-]|].
  destruct (parse_f64 s) as [v|] eqn:Hv; simpl; [|done].
  destruct (zadd_pairs l) as [ps'|]; simpl; [|done]. intros [= <-].
  constructor; [by eapply parse_f64_ok|by apply IH].
Qed.

Lemma quiet_zadd_cmd argv : quiet (zadd_cmd argv) persist.
Proof.
  unfold zadd_cmd. case_match; [apply quiet_ret|].
  destruct (zadd_pairs _) as [ps|] eqn:Hps; [|apply quiet_ret].
  apply (quiet_reply _ _ res_ok); [by eapply quiet_zadd, zadd_pairs_ok|by intros []].
Qed.

Lemma quiet_expire_cmd argv unit_ms absolute : quiet (expire_cmd argv unit_ms absolute) persist.
Proof.
  unfold expire_cmd. case_match; [apply quiet_ret|].
  destruct (parse_i64_bytes _) as [n|]; [|apply quiet_ret].
  apply quiet_bind_clean; [apply quiet_exists_|]. intros ex. case_match; [apply quiet_ret|].
  apply quiet_bind_clean; [apply quiet_now|]. intros now. cbv zeta.
  set (new_at := if absolute then _ else _).
  assert (quiet (_ ← call (fun now st => Store.expire_at now st (argv !!! 1%nat) (Some new_at));
                 mret (out_w (Int 1))) persist) as Hfin.
  { apply (quiet_reply _ _ (fun b => b)); [apply quiet_expire_at|done]. }
  destruct (argv !! 3%nat) as [flag|]; [|exact Hfin].
  apply quiet_bind_clean; [apply quiet_pttl|]. intros cur.
  destruct (expire_allowed _ _ _ _) as [[]|]; [exact Hfin|apply quiet_ret..].
Qed.

Lemma quiet_persist_cmd argv : quiet (persist_cmd argv) persist.
Proof.
  apply quiet_bind_clean; [apply quiet_pttl|]. intros cur. case_match; [|apply quiet_ret].
  apply (quiet_reply _ _ (fun b => b)); [apply quiet_expire_at|done].
Qed.

Lemma quiet_ttl_cmd argv seconds : quiet (ttl_cmd argv seconds) persist.
Proof.
  unfold ttl_cmd. case_match; [apply quiet_ret|].
  apply quiet_bind_clean; [apply quiet_pttl|intros; apply quiet_ret].
Qed.

Lemma quiet_del_cmd argv :
  quiet (n ← countM (fun k => call (fun now st => Store.del now st k)) (drop 1 argv);
         mret (out_maybe (Int n) (0 <? n))) persist.
Proof.
  apply (quiet_reply _ _ (fun n => 0 <? n)); [|done]. unfold countM.
  apply (quiet_bind _ _ (existsb (fun b => b)));
    [apply quiet_mapM_dirty; intros k; apply quiet_del|intros; apply quiet_ret|].
  intros bs w Hbs. simpl. apply Z.ltb_lt. apply existsb_exists in Hbs as (b & Hb & ->).
  destruct (filter (fun b => b = true) bs) eqn:Hf; [|simpl; lia].
  apply list_elem_of_In in Hb. assert (true ∈ filter (fun b => b = true) bs) as Hin
    by (by apply list_elem_of_filter). rewrite Hf in Hin. by apply not_elem_of_nil in Hin.
Qed.

(** *** Dispatch *)

Definition arm_quiet (a : Arm) : Prop :=
  ∀ nm argv cs cfg, quiet (body a nm argv cs cfg) (fun r => persist r.2).

Lemma quiet_keep (f : M Outcome) (cs : ConnState) :
  quiet f persist → quiet (o ← f; mret (cs, o)) (fun r => persist r.2).
Proof.
  intros Hf. apply (quiet_bind _ _ persist); [done|intros; apply quiet_ret|]. by intros o w.
Qed.

Lemma arm_cmd ps g f : (∀ argv, quiet (f argv) persist) → arm_quiet (mkArm ps g (cmd f)).
Proof. intros Hf nm argv st cfg. apply quiet_keep, Hf. Qed.

Lemma arm_op {R : Type} ps g (f : Z → Store.t → list bytes → Store.t * R) out d :
  (∀ argv, quiet (call (fun now st => f now st argv)) d) →
  (∀ r, d r = true → persist (out r) = true) → arm_quiet (mkArm ps g (op f out)).
Proof. intros Hf Hout. apply arm_cmd. intros argv. by apply (quiet_reply _ _ d). Qed.

Lemma arm_pure ps g f : arm_quiet (mkArm ps g (pure_cmd f)).
Proof. intros nm argv cs cfg. apply quiet_ret. Qed.

Lemma introspection_quiet : Forall arm_quiet introspection_arms.
Proof.
  unfold introspection_arms. repeat (apply Forall_cons_2; [first [apply arm_pure|idtac]|]); [..|constructor];
    intros nm argv cs cfg; simpl.
  - apply quiet_bind_clean; [apply quiet_peek|intros; apply quiet_ret].
  - apply quiet_bind_clean; [apply quiet_peek|intros; apply quiet_ret].
  - by apply (quiet_bind _ _ (fun _ => true)); [apply quiet_flush_all|intros; apply quiet_ret|].
Qed.

Lemma string_quiet : Forall arm_quiet string_arms.
Proof.
  unfold string_arms. repeat (apply Forall_cons_2); [..|constructor].
  - apply arm_cmd, quiet_set_cmd.
  - apply (arm_op _ _ _ _ (fun _ => false)); [|done]. intros argv. apply quiet_get.
  - apply arm_cmd, quiet_getset_cmd.
  - apply arm_cmd, quiet_setnx_cmd.
  - intros nm argv cs cfg. apply quiet_keep, quiet_setex_cmd.
  - apply arm_cmd, quiet_mset_cmd.
  - apply arm_cmd, quiet_mget_cmd.
  - apply (arm_op _ _ _ _ res_ok); [intros argv; apply quiet_append|by intros []].
  - apply (arm_op _ _ _ _ (fun _ => false)); [|done]. intros argv. apply quiet_strlen.
  - apply arm_cmd. intros argv. apply quiet_incr_cmd.
  - apply arm_cmd. intros argv. apply quiet_incr_cmd.
  - apply arm_cmd. intros argv. apply quiet_incr_cmd.
  - apply arm_cmd. intros argv. apply quiet_incr_cmd.
Qed.

Lemma collection_quiet : Forall arm_quiet collection_arms.
Proof.
  assert (∀ r, res_count r = true → persist (dirty_count r) = true) as Hcount by (by intros []).
  unfold collection_arms. repeat (apply Forall_cons_2); [..|constructor].
  - apply arm_cmd. intros argv. apply quiet_push_cmd.
  - apply arm_cmd. intros argv. apply quiet_push_cmd.
  - apply arm_cmd. intros argv. apply quiet_pop_cmd.
  - apply arm_cmd. intros argv. apply quiet_pop_cmd.
  - apply (arm_op _ _ _ _ (fun _ => false)); [|done]. intros argv. apply quiet_llen.
  - apply arm_cmd, quiet_lrange_cmd.
  - intros nm argv cs cfg. apply quiet_keep, quiet_hset_cmd.
  - apply (arm_op _ _ _ _ (fun _ => false)); [|done]. intros argv. apply quiet_hget.
  - apply (arm_op _ _ _ _ res_count); [|done]. intros argv. apply quiet_hdel.
  - apply (arm_op _ _ _ _ (fun _ => false)); [|done]. intros argv. apply quiet_hlen.
  - apply (arm_op _ _ _ _ (fun _ => false)); [|done]. intros argv. apply quiet_hget.
  - intros nm argv cs cfg. apply quiet_keep.
    apply quiet_bind_clean; [apply quiet_hgetall|intros; apply quiet_ret].
  - intros nm argv cs cfg. apply quiet_keep.
    apply quiet_bind_clean; [apply quiet_hgetall|intros; apply quiet_ret].
  - apply arm_cmd, quiet_hmget_cmd.
  - apply (arm_op _ _ _ _ res_count); [|done]. intros argv. apply quiet_sadd.
  - apply (arm_op _ _ _ _ res_count); [|done]. intros argv. apply quiet_srem.
  - apply (arm_op _ _ _ _ (fun _ => false)); [|done]. intros argv. apply quiet_sismember.
  - apply (arm_op _ _ _ _ (fun _ => false)); [|done]. intros argv. apply quiet_scard.
  - apply (arm_op _ _ _ _ (fun _ => false)); [|done]. intros argv. apply quiet_smembers.
  - apply arm_cmd, quiet_zadd_cmd.
  - apply arm_cmd. intros argv. apply quiet_bind_clean; [apply quiet_zscore|intros; apply quiet_ret].
  - apply (arm_op _ _ _ _ res_count); [|done]. intros argv. apply quiet_zrem.
  - apply (arm_op _ _ _ _ (fun _ => false)); [|done]. intros argv. apply quiet_zcard.
  - apply arm_cmd, quiet_zrange_cmd.
Qed.

Lemma keyspace_quiet : Forall arm_quiet keyspace_arms.
Proof.
  unfold keyspace_arms. repeat (apply Forall_cons_2); [..|constructor].
  - apply arm_cmd, quiet_del_cmd.
  - apply arm_cmd. intros argv. apply (quiet_reply _ _ (fun _ => false)); [|done].
    apply quiet_bind_clean; [|intros; apply quiet_ret]. apply quiet_mapM. intros k.
    apply quiet_exists_.
  - apply (arm_op _ _ _ _ (fun _ => false)); [|done]. intros argv. apply quiet_type_of.
  - apply arm_cmd. intros argv. apply quiet_expire_cmd.
  - apply arm_cmd. intros argv. apply quiet_expire_cmd.
  - apply arm_cmd. intros argv. apply quiet_expire_cmd.
  - apply arm_cmd. intros argv. apply quiet_expire_cmd.
  - apply arm_cmd, quiet_persist_cmd.
  - apply arm_cmd. intros argv. apply quiet_ttl_cmd.
  - apply arm_cmd. intros argv. apply quiet_ttl_cmd.
  - apply arm_cmd. intros argv. apply quiet_bind_clean; [apply quiet_look|intros; apply quiet_ret].
  - apply arm_cmd. intros argv. apply quiet_bind_clean; [apply quiet_look|intros; apply quiet_ret].
  - apply arm_cmd. intros argv. apply quiet_bind_clean; [apply quiet_save|intros; apply quiet_ret].
Qed.

Lemma arms_quiet a : a ∈ arms → arm_quiet a.
Proof.
  revert a. apply Forall_forall. unfold arms.
  apply Forall_app; split; [apply introspection_quiet|].
  apply Forall_app; split; [apply string_quiet|].
  apply Forall_app; split; [apply collection_quiet|apply keyspace_quiet].
Qed.

Lemma dispatch_quiet argv cs cfg : quiet (dispatch argv cs cfg) (fun r => persist r.2).
Proof.
  unfold dispatch. destruct (find _ arms) as [a|] eqn:Hf; [|apply quiet_ret].
  apply find_some in Hf as [Ha%list_elem_of_In _]. by apply arms_quiet.
Qed.

End worlds.
