(* ===== verification/Glob.v ===== *)
(** * Glob patterns

    [KEYS] and [SCAN] match keys with a loop that comes back to the last star
    only.  It terminates and accepts exactly what the pattern denotes. *)
From S2P Require Import Prelude Std Map Value Shard Store Resp Reply Dump Config Commands.

(** ** What a pattern denotes *)

Definition STAR : byte := x2a.
Definition QUESTION : byte := x3f.
Definition BRACKET : byte := x5b.

Definition CLOSING : byte := x5d.
Definition DASH : byte := x2d.
Definition CARET : byte := x5e.

(** What stands between the brackets of a class, up to the closing one or the end
    of the pattern: ranges of bytes, a single byte being a range of its own, and
    the number of pattern bytes they take with the closing bracket.  A dash
    between two bytes makes a range, unless the second is the closing bracket. *)
Fixpoint class_ranges (p : bytes) : list (byte * byte) * nat :=
  match p with
  | [] => ([], 0)
  | a :: p1 =>
      if bool_decide (a = CLOSING) then ([], 1)
      else
        let single := let '(l, n) := class_ranges p1 in ((a, a) :: l, S n) in
        match p1 with
        | d :: hi :: p3 =>
            if bool_decide (d = DASH ∧ hi ≠ CLOSING)
            then let '(l, n) := class_ranges p3 in ((a, hi) :: l, 3 + n)
            else single
        | _ => single
        end
  end.

Definition between (c : byte) (r : byte * byte) : Prop := (byte_val r.1 ≤ byte_val c ≤ byte_val r.2)%Z.

(** The tokens of a pattern but for the star. *)
Inductive Token :=
  | AnyByte
  | Exactly (b : byte)
  | OneOf (ranges : list (byte * byte))
  | NoneOf (ranges : list (byte * byte)).

Definition accepts (t : Token) (c : byte) : Prop :=
  match t with
  | AnyByte => True
  | Exactly b => c = b
  | OneOf ranges => Exists (between c) ranges
  | NoneOf ranges => ¬ Exists (between c) ranges
  end.

(** The token at the head of a pattern, and how many bytes it takes. *)
Definition head_token (p : bytes) : Token * nat :=
  match p with
  | [] => (AnyByte, 1)
  | b :: q =>
      if bool_decide (b = QUESTION) then (AnyByte, 1)
      else if bool_decide (b = BRACKET) then
        match q with
        | d :: q' =>
            if bool_decide (d = CARET) then let '(l, n) := class_ranges q' in (NoneOf l, 2 + n)
            else let '(l, n) := class_ranges q in (OneOf l, 1 + n)
        | [] => (OneOf [], 1)
        end
      else (Exactly b, 1)
  end.

(** A star stands for any text, any other token for one byte. *)
Inductive globs : bytes → bytes → Prop :=
  | globs_nil : globs [] []
  | globs_star p s t : globs p t → globs (STAR :: p) (s ++ t)
  | globs_token b p c s :
      b ≠ STAR → accepts (head_token (b :: p)).1 c →
      globs (drop (head_token (b :: p)).2 (b :: p)) s → globs (b :: p) (c :: s).

(** ** Character classes *)

#[export] Instance between_dec c r : Decision (between c r).
Proof. unfold between. apply _. Defined.

#[export] Instance accepts_dec t c : Decision (accepts t c).
Proof. destruct t; cbn [accepts]; apply _. Defined.

Lemma between_single c a : between c (a, a) ↔ c = a.
Proof.
  unfold between. cbn [fst snd]. split; [|intros ->; lia]. intros H.
  apply byte_val_inj. lia.
Qed.

Lemma between_bool c r :
  bool_decide (between c r) = ((byte_val r.1 <=? byte_val c)%Z && (byte_val c <=? byte_val r.2)%Z).
Proof.
  apply eq_true_iff_eq. rewrite bool_decide_eq_true, andb_true_iff, !Z.leb_le. done.
Qed.

(** The loop over a class reads the ranges. *)
Lemma class_loop_ranges fuel p c i m :
  length p - i < fuel → i ≤ length p →
  let '(l, n) := class_ranges (drop i p) in
  let '(j, m') := class_loop fuel p c i m in
  m' = m || bool_decide (Exists (between c) l) ∧ (if j <? length p then j + 1 else j) = i + n.
Proof.
  revert i m. induction fuel as [|fuel IH]; intros i m Hf Hi; [lia|]. cbn [class_loop].
  destruct (p !! i) as [a|] eqn:Ha; cycle 1.
  { apply lookup_ge_None in Ha. rewrite drop_ge by done. cbn [class_ranges].
    rewrite bool_decide_eq_false_2, orb_false_r by (by intros ?%Exists_nil). split; [done|].
    destruct (Nat.ltb_spec i (length p)); lia. }
  pose proof (lookup_lt_Some _ _ _ Ha) as Hlt. rewrite (drop_S _ _ _ Ha). cbn [class_ranges]. fold CLOSING.
  case_bool_decide as Hc.
  { rewrite bool_decide_eq_false_2, orb_false_r by (by intros ?%Exists_nil). split; [done|].
    destruct (Nat.ltb_spec i (length p)); lia. }
  (* a single byte *)
  assert (let '(l, n) := (let '(l, n) := class_ranges (drop (S i) p) in ((a, a) :: l, S n)) in
    let '(j, m') := class_loop fuel p c (i + 1) (if bool_decide (a = c) then true else m) in
    m' = m || bool_decide (Exists (between c) l) ∧ (if j <? length p then j + 1 else j) = i + n) as Hsingle.
  { specialize (IH (i + 1) (if bool_decide (a = c) then true else m) ltac:(lia) ltac:(lia)).
    replace (i + 1) with (S i) in * by lia. destruct (class_ranges (drop (S i) p)) as [l n].
    destruct (class_loop fuel p c (S i) _) as [j m']. destruct IH as [-> Hj]. cbv beta iota. rewrite Hj. split; [|lia].
    rewrite (bool_decide_ext _ _ (Exists_cons (between c) (a, a) l)), bool_decide_or.
    rewrite (bool_decide_ext _ _ (between_single c a)), orb_assoc. f_equal.
    destruct (decide (a = c)) as [->|Hne].
    - by rewrite !bool_decide_eq_true_2, orb_true_r.
    - rewrite !bool_decide_eq_false_2 by congruence. by rewrite orb_false_r. }
  destruct (drop (S i) p) as [|d q] eqn:Hd.
  { assert (length p = S i) by (apply (f_equal length) in Hd; rewrite length_drop in Hd; simpl in Hd; lia).
    destruct (Nat.ltb_spec (i + 2) (length p)); [lia|]. exact Hsingle. }
  assert (p !! (i + 1) = Some d ∧ drop (i + 2) p = q) as [Hd1 Hq].
  { replace (i + 1) with (S i) by lia. split.
    - rewrite <- (Nat.add_0_r (S i)), <- lookup_drop, Hd. done.
    - replace (i + 2) with (S i + 1) by lia. rewrite <- drop_drop, Hd. done. }
  destruct q as [|hi q].
  { assert (length p = i + 2) by (apply (f_equal length) in Hd; rewrite length_drop in Hd; simpl in Hd; lia).
    destruct (Nat.ltb_spec (i + 2) (length p)); [lia|]. exact Hsingle. }
  assert (p !! (i + 2) = Some hi ∧ drop (i + 3) p = q) as [Hd2 Hq3].
  { split.
    - rewrite <- (Nat.add_0_r (i + 2)), <- lookup_drop, Hq. done.
    - replace (i + 3) with (i + 2 + 1) by lia. rewrite <- drop_drop, Hq. done. }
  pose proof (lookup_lt_Some _ _ _ Hd2). destruct (Nat.ltb_spec (i + 2) (length p)); [|lia]. rewrite Hd1, Hd2. cbn [andb].
  fold DASH CLOSING. rewrite (list_lookup_total_correct _ _ _ Hd2).
  destruct (decide (d = DASH ∧ hi ≠ CLOSING)) as [[-> Hhi]|Hno].
  - rewrite !bool_decide_eq_true_2, bool_decide_eq_false_2 by (done || congruence). cbn [negb andb].
    match goal with |- context [class_loop fuel p c (i + 3) ?b] => specialize (IH (i + 3) b ltac:(lia) ltac:(lia)); rewrite Hq3 in IH end.
    destruct (class_ranges q) as [l n]. destruct (class_loop fuel p c (i + 3) _) as [j m'].
    destruct IH as [-> Hj]. cbv beta iota. rewrite Hj. split; [|lia].
    rewrite (bool_decide_ext _ _ (Exists_cons (between c) (a, hi) l)), bool_decide_or, orb_assoc. f_equal.
    rewrite between_bool. cbn [fst snd]. destruct (_ && _); [by rewrite orb_true_r|by rewrite orb_false_r].
  - rewrite (bool_decide_eq_false_2 (_ ∧ _)) by done.
    assert (bool_decide (Some d = Some DASH) && negb (bool_decide (Some hi = Some CLOSING)) = false) as ->; [|exact Hsingle].
    apply not_true_iff_false. rewrite andb_true_iff, negb_true_iff, bool_decide_eq_true, bool_decide_eq_false.
    intros [[= ->] Hhi]. apply Hno. split; [done|congruence].
Qed.

Lemma match_class_token q c :
  match_class (BRACKET :: q) c =
    ((head_token (BRACKET :: q)).2, bool_decide (accepts (head_token (BRACKET :: q)).1 c)).
Proof.
  unfold match_class. set (p := BRACKET :: q). destruct q as [|d q]; [done|].
  change (p !! 1) with (Some d). cbn [head_token p]. fold CARET.
  destruct (decide (d = CARET)) as [->|Hd].
  - rewrite bool_decide_eq_true_2 by done.
    pose proof (class_loop_ranges (length p) p c 2 false ltac:(cbn [length p]; lia) ltac:(cbn [length p]; lia)) as H.
    change (drop 2 p) with q in H. destruct (class_ranges q) as [l n], (class_loop _ _ _ _ _) as [j m'].
    destruct H as [-> ->]. cbn [fst snd orb]. f_equal. rewrite xorb_true_r, <- bool_decide_not.
    by apply bool_decide_ext.
  - rewrite !(bool_decide_eq_false_2 (d = CARET)), (bool_decide_eq_false_2 (Some d = Some CARET)) by congruence.
    pose proof (class_loop_ranges (length p) p c 1 false ltac:(cbn [length p]; lia) ltac:(cbn [length p]; lia)) as H.
    change (drop 1 p) with (d :: q) in H. destruct (class_ranges (d :: q)) as [l n], (class_loop _ _ _ _ _) as [j m'].
    destruct H as [-> ->]. cbn [fst snd orb]. f_equal. rewrite xorb_false_r. by apply bool_decide_ext.
Qed.

Lemma head_token_pos p : 0 < (head_token p).2.
Proof.
  destruct p as [|b [|d q]]; unfold head_token; repeat case_bool_decide;
    try match goal with |- context [class_ranges ?x] => destruct (class_ranges x) end; cbn [snd]; lia.
Qed.

(** ** One step of the loop *)

Section glob.
Context (pat s : bytes).
Implicit Types (pi si : nat).

(** What is left of the pattern matches what is left of the text. *)
Definition rest_globs pi si : Prop := globs (drop pi pat) (drop si s).

Lemma glob_step_token pi si b c :
  pat !! pi = Some b → s !! si = Some c → b ≠ STAR →
  glob_step pat s pi si =
  if bool_decide (accepts (head_token (drop pi pat)).1 c) then Some (pi + (head_token (drop pi pat)).2, si + 1, false) else None.
Proof.
  intros Hb Hc Hne. unfold glob_step. rewrite Hb, Hc, (drop_S _ b pi Hb).
  rewrite bool_decide_eq_false_2 by done. fold QUESTION BRACKET.
  destruct (decide (b = QUESTION)) as [->|Hq]; [done|].
  rewrite !(bool_decide_eq_false_2 (b = QUESTION)) by done.
  destruct (decide (b = BRACKET)) as [->|Hbr].
  - rewrite bool_decide_eq_true_2, match_class_token by done. done.
  - cbn [head_token]. rewrite !(bool_decide_eq_false_2 (b = QUESTION)), !(bool_decide_eq_false_2 (b = BRACKET)) by done.
    cbn [fst snd accepts]. destruct (decide (b = c)) as [->|Hbc].
    + by rewrite !bool_decide_eq_true_2.
    + by rewrite !bool_decide_eq_false_2.
Qed.

Lemma rest_globs_token pi si b c :
  pat !! pi = Some b → s !! si = Some c → b ≠ STAR →
  rest_globs pi si ↔
  accepts (head_token (drop pi pat)).1 c ∧ rest_globs (pi + (head_token (drop pi pat)).2) (si + 1).
Proof.
  intros Hb Hc Hne. unfold rest_globs. rewrite (drop_S s c si Hc), <- drop_drop.
  replace (si + 1) with (S si) by lia. rewrite (drop_S pat b pi Hb). split.
  - inversion 1; subst; [done|]. by simplify_eq.
  - intros [Ha Hg]. by apply globs_token.
Qed.

Lemma rest_globs_star pi si :
  pat !! pi = Some STAR → si ≤ length s →
  rest_globs pi si ↔ ∃ j, si ≤ j ≤ length s ∧ rest_globs (pi + 1) j.
Proof.
  intros Hb Hsi. unfold rest_globs. rewrite (drop_S pat STAR pi Hb).
  replace (pi + 1) with (S pi) by lia. split.
  - inversion 1 as [|p t1 t2 Hg Hp Heq|]; [subst|done].
    exists (si + length t1).
    assert (length (drop si s) = length t1 + length t2) as Hl by (rewrite <- Heq; apply length_app).
    rewrite length_drop in Hl. split; [lia|]. rewrite <- drop_drop, <- Heq, drop_app_length. done.
  - intros (j & Hj & Hg). replace (drop si s) with (take (j - si) (drop si s) ++ drop j s).
    + by apply globs_star.
    + rewrite <- (take_drop (j - si) (drop si s)) at 2. rewrite drop_drop. do 2 f_equal. lia.
Qed.

Lemma rest_globs_end pi : rest_globs pi (length s) ↔ only_stars (drop pi pat) = true.
Proof.
  unfold rest_globs. rewrite (drop_ge s) by lia. induction (drop pi pat) as [|b p IH]; simpl.
  - split; [done|]. intros _. constructor.
  - rewrite andb_true_iff, bool_decide_eq_true, <- IH. split.
    + inversion 1 as [|p' t1 t2 Hg Hp Heq|]; subst. split; [done|].
      by apply app_nil in Heq as [-> ->].
    + intros [-> Hg]. by apply (globs_star _ []).
Qed.

Lemma rest_globs_no_pattern pi si : pat !! pi = None → si < length s → ¬ rest_globs pi si.
Proof.
  intros Hb%lookup_ge_None Hsi. unfold rest_globs. rewrite (drop_ge pat) by done.
  assert (∀ t, globs [] t → t = []) as Hnil by (by inversion 1).
  intros Heq%Hnil%(f_equal length). rewrite length_drop in Heq. simpl in Heq. lia.
Qed.

(** ** The stretch since the last star *)

(** [n] tokens without a star lead from [a] to [b]. *)
Inductive tokens : nat → nat → nat → Prop :=
  | tokens_here a : tokens 0 a a
  | tokens_more n a b c x :
      tokens n a b → pat !! b = Some x → x ≠ STAR →
      c = b + (head_token (drop b pat)).2 → tokens (S n) a c.

Lemma tokens_rest n a b j :
  tokens n a b → j ≤ length s → rest_globs a j → j + n ≤ length s ∧ rest_globs b (j + n).
Proof.
  intros Ht Hj Hg. induction Ht as [a|n a b c x Ht IH Hx Hne ->]; [by rewrite Nat.add_0_r|].
  destruct (IH Hg) as [Hle Hb]. clear IH. destruct (s !! (j + n)) as [y|] eqn:Hy.
  - destruct (proj1 (rest_globs_token b (j + n) x y Hx Hy Hne) Hb) as [_ Hb'].
    apply lookup_lt_Some in Hy. split; [lia|]. by replace (j + S n) with (j + n + 1) by lia.
  - apply lookup_ge_None in Hy. exfalso. unfold rest_globs in Hb.
    rewrite (drop_ge s) in Hb by lia. rewrite (drop_S pat x b Hx) in Hb. inversion Hb. done.
Qed.

(** The star the loop can come back to: it was tried from [ss] on, and the
    tokens since then matched up to here. *)
Definition star_ok (star : option (nat * nat)) pi si : Prop :=
  match star with
  | None => True
  | Some (sp, ss) => pat !! sp = Some STAR ∧ ss ≤ si ∧ tokens (si - ss) (sp + 1) pi
  end.

Definition retries (star : option (nat * nat)) : Prop :=
  match star with
  | None => False
  | Some (sp, ss) => ∃ j, ss < j ≤ length s ∧ rest_globs (sp + 1) j
  end.

(** What the star could still reach, it can reach from here. *)
Lemma retries_star star pi si :
  star_ok star pi si → pat !! pi = Some STAR → si ≤ length s → retries star → rest_globs pi si.
Proof.
  intros Hok Hpi Hsi. destruct star as [[sp ss]|]; [|done]. destruct Hok as (_ & Hss & Ht).
  intros (j & Hj & Hg). destruct (tokens_rest _ _ _ j Ht) as [Hle Hr]; [lia|done|].
  apply rest_globs_star in Hr as (i & Hi & Hr); [|done..].
  apply rest_globs_star; [done..|]. exists i. split; [lia|done].
Qed.

Lemma retries_end star pi : star_ok star pi (length s) → ¬ retries star.
Proof.
  destruct star as [[sp ss]|]; [|by intros _ []]. intros (_ & Hss & Ht) (j & Hj & Hg).
  destruct (tokens_rest _ _ _ j Ht) as [Hle _]; [lia|done|]. lia.
Qed.

(** ** The loop *)

(** Turns left: the star moves forward in the pattern or the text, or the
    position in the pattern does. *)
Definition star_room (star : option (nat * nat)) : nat :=
  match star with
  | None => length pat + length s + 2
  | Some (sp, ss) => (length pat - sp) + (length s - ss)
  end.
Definition turns (star : option (nat * nat)) pi : nat :=
  star_room star * (length pat + 1) + (length pat - pi).

Lemma glob_loop_spec fuel pi si star :
  star_ok star pi si → si ≤ length s →
  (match star with Some (sp, _) => sp < pi | None => True end) →
  turns star pi < fuel →
  ∃ r, glob_loop fuel pat s pi si star = Some r ∧ (r = true ↔ rest_globs pi si ∨ retries star).
Proof.
  revert pi si star. induction fuel as [|fuel IH]; intros pi si star Hok Hsi Hsp Hf; [lia|].
  cbn [glob_loop]. destruct (Nat.ltb_spec si (length s)) as [Hlt|Hge]; cycle 1.
  { assert (si = length s) as -> by lia. eexists. split; [done|].
    rewrite <- rest_globs_end. pose proof (retries_end star pi Hok). tauto. }
  destruct (lookup_lt_is_Some_2 s si Hlt) as [c Hc].
  assert (∀ r : bool, glob_step pat s pi si = None → ¬ rest_globs pi si →
    ∃ r, match star with
         | Some (sp, ss) => glob_loop fuel pat s (sp + 1) (ss + 1) (Some (sp, ss + 1))
         | None => Some false
         end = Some r ∧ (r = true ↔ rest_globs pi si ∨ retries star)) as Hfail.
  { intros _ _ Hno. destruct star as [[sp ss]|]; [|exists false; naive_solver].
    destruct Hok as (Hst & Hss & Ht). apply lookup_lt_Some in Hst as Hspl.
    destruct (IH (sp + 1) (ss + 1) (Some (sp, ss + 1))) as (r & Hr & Hiff).
    - split_and!; [done..|]. rewrite Nat.sub_diag. constructor.
    - lia.
    - lia.
    - unfold turns, star_room in *. nia.
    - exists r. split; [done|]. rewrite Hiff. split.
      + intros [Hg|(j & Hj & Hg)]; right; [exists (ss + 1)|exists j]; (split; [lia|done]).
      + intros [Hg|(j & Hj & Hg)]; [done|].
        destruct (decide (j = ss + 1)) as [->|]; [by left|]. right. exists j. split; [lia|done]. }
  destruct (pat !! pi) as [b|] eqn:Hb; cycle 1.
  { assert (glob_step pat s pi si = None) as Hn by (unfold glob_step; by rewrite Hb).
    rewrite Hn. apply (Hfail true); [done|]. by apply rest_globs_no_pattern. }
  pose proof (lookup_lt_Some _ _ _ Hb) as Hpi.
  destruct (decide (b = STAR)) as [->|Hne].
  - assert (glob_step pat s pi si = Some (pi + 1, si, true)) as -> by (unfold glob_step; by rewrite Hb, Hc).
    destruct (IH (pi + 1) si (Some (pi, si))) as (r & Hr & Hiff).
    + split_and!; [done..|]. rewrite Nat.sub_diag. constructor.
    + lia.
    + lia.
    + unfold turns, star_room in *. destruct star as [[sp ss]|]; [destruct Hok as (_ & ? & _)|]; nia.
    + exists r. split; [done|]. rewrite Hiff, (rest_globs_star pi si) by done. split.
      * intros [Hg|(j & Hj & Hg)]; left; [exists si|exists j]; (split; [lia|done]).
      * intros Hg. assert (∃ j, si ≤ j ≤ length s ∧ rest_globs (pi + 1) j) as (j & Hj & Hr').
        { destruct Hg as [Hg|Hg]; [done|]. apply rest_globs_star; [done..|]. by eapply retries_star. }
        destruct (decide (j = si)) as [->|]; [by left|]. right. exists j. split; [lia|done].
  - rewrite (glob_step_token pi si b c) by done.
    pose proof (rest_globs_token pi si b c Hb Hc Hne) as Hrt.
    case_bool_decide as Ha.
    + pose proof (head_token_pos (drop pi pat)) as Htl.
      destruct (IH (pi + (head_token (drop pi pat)).2) (si + 1) star) as (r & Hr & Hiff).
      * destruct star as [[sp ss]|]; [|done]. destruct Hok as (? & ? & Ht). split_and!; [done|lia|].
        replace (si + 1 - ss) with (S (si - ss)) by lia. by eapply tokens_more.
      * lia.
      * destruct star as [[]|]; lia.
      * unfold turns in *. lia.
      * exists r. split; [done|]. rewrite Hiff. tauto.
    + apply (Hfail true).
      * rewrite (glob_step_token pi si b c) by done. by rewrite bool_decide_eq_false_2.
      * intros Hg. by apply Hrt in Hg as [? _].
Qed.

End glob.

(** C24: [glob_match] always gives an answer, and it is the right one: the loop,
    which comes back to the last star only, accepts a text exactly when it can
    be cut up so that every star stands for some part and every other token for
    one byte it accepts, where a class accepts the bytes in the ranges between
    its brackets, or the others after a caret. *)
Theorem glob_match_correct pat s :
  glob_loop (glob_fuel pat s) pat s 0 0 None ≠ None ∧ (glob_match pat s = true ↔ globs pat s).
Proof.
  destruct (glob_loop_spec pat s (glob_fuel pat s) 0 0 None) as (r & Hr & Hiff); [done|lia|done| |].
  { unfold turns, star_room, glob_fuel. nia. }
  unfold glob_match. rewrite Hr. split; [done|]. simpl. rewrite Hiff.
  unfold rest_globs, retries. rewrite !drop_0. tauto.
Qed.
