(* ===== verification/Persistence.v ===== *)
(** * Durability ([crates/server/src/persistence.rs], lines 20 to 111)

    The append-only file is a list of bytes; opening it for appending never
    removes any.  A fault of the disk may cut a write anywhere. *)
From S2P Require Import Prelude Std Value Shard Store Resp Reply Dump Config Commands.
Local Open Scope Z_scope.

(** ** The append-only file *)

(** The text of a command: [encode_command]. *)
Definition encode_command (argv : list bytes) (out : bytes) : bytes :=
  let out := out ++ [x2a] ++ u64_to_string (Z.of_nat (length argv)) ++ Resp.CRLF in
  foldl (fun out a =>
    out ++ [x24] ++ u64_to_string (Z.of_nat (length a)) ++ Resp.CRLF ++ a ++ Resp.CRLF) out argv.

(** [Aof]: what reached the file, and what the [BufWriter] still holds (empty
    between two appends, unless the disk failed). *)
Record Aof := mkAof { on_disk : bytes; buffered : bytes }.

Definition aof_open (file : bytes) : Aof := mkAof file [].

(** The capacity of [BufWriter::new] *)
Definition BUF_CAPACITY : Z := 8192.

(** A fault of the disk: it takes [n] bytes more and then fails with [e]. *)
Definition Fault : Type := option (nat * bytes).

(** Write [data] out: what was not taken, the fault that is left, the error. *)
Definition write_out (file data : bytes) (fault : Fault) : bytes * bytes * Fault * option bytes :=
  match fault with
  | None => (file ++ data, [], None, None)
  | Some (n, e) =>
      if (n <? length data)%nat then (file ++ take n data, drop n data, Some (O, e), Some e)
      else (file ++ data, [], Some ((n - length data)%nat, e), None)
  end.

(** [BufWriter::flush]: what the disk does not take stays in the buffer. *)
Definition aof_flush (a : Aof) (fault : Fault) : Aof * Fault * option bytes :=
  let '(file, rest, fault, e) := write_out (on_disk a) (buffered a) fault in
  (mkAof file rest, fault, e).

(** [BufWriter::write_all]: a record that does not fit makes the buffer flush
    first, and one larger than the buffer goes to the file directly. *)
Definition aof_write_all (a : Aof) (buf : bytes) (fault : Fault) : Aof * Fault * option bytes :=
  let spare := BUF_CAPACITY - zlen (buffered a) in
  if zlen buf <? spare then (mkAof (on_disk a) (buffered a ++ buf), fault, None)
  else
    let '(a, fault, e) := if spare <? zlen buf then aof_flush a fault else (a, fault, None) in
    match e with
    | Some e => (a, fault, Some e)
    | None =>
        if BUF_CAPACITY <=? zlen buf then
          let '(file, _, fault, e) := write_out (on_disk a) buf fault in
          (mkAof file (buffered a), fault, e)
        else (mkAof (on_disk a) (buffered a ++ buf), fault, None)
    end.

(** [Aof::append] *)
Definition aof_append (a : Aof) (fault : Fault) (argv : list bytes) : Aof * option bytes :=
  let '(a, fault, e) := aof_write_all a (encode_command argv []) fault in
  match e with
  | Some e => (a, Some e)
  | None => let '(a, _, e) := aof_flush a fault in (a, e)
  end.

(** ** Replay *)

Section replay.
Context {HO : HashOrder} {FT : FloatText}.

(** The loop of [replay_file]: the connection state and the number of commands
    applied.  Every turn consumes a byte, so a turn per byte is enough. *)
Fixpoint replay_loop (fuel : nat) (cfg : Config) (data : bytes) (cursor : nat)
    (st : ConnState) (applied : nat) : M nat :=
  match fuel with
  | O => mret applied
  | S fuel =>
      if (cursor <? length data)%nat then
        match Resp.parse_command (drop cursor data) with
        | Complete (argv, consumed) =>
            let cursor := (cursor + consumed)%nat in
            match argv with
            | [] => replay_loop fuel cfg data cursor st applied
            | _ =>
                '(st, _) ← dispatch argv st cfg;
                replay_loop fuel cfg data cursor st (S applied)
            end
        | Incomplete => mret applied
        | Failed _ => mret applied
        end
      else mret applied
  end.

(** [replay_file]; a file that does not exist counts as empty. *)
Definition replay_file (cfg : Config) (file : option bytes) : M nat :=
  match file with
  | None => mret O
  | Some data => replay_loop (S (length data)) cfg data 0 internal O
  end.

Definition load_aof (cfg : Config) (file : option bytes) : M nat := replay_file cfg file.
Definition load_snapshot (cfg : Config) (file : option bytes) : M nat := replay_file cfg file.

End replay.
