(* ===== verification/Conn.v ===== *)
(** * Connections and replication ([crates/server/src/conn.rs] and the registry
    of [crates/server/src/repl.rs])

    A connection takes commands out of its input buffer and answers them in
    order.  A write to a socket is an append to what has been sent on it. *)
From S2P Require Import Prelude Std Value Shard Store Resp Reply Dump Config Commands Persistence.
Local Open Scope Z_scope.

(** ** Shared server state *)

Record Server := mkServer {
  world : World;
  config : Config;
  aof : option Aof;
  aof_fault : nat → Fault;
  (* what was sent to each connected replica *)
  replicas : list bytes;
  link_down : nat → nat → bool;
  read_only : bool
}.

Definition set_world (sv : Server) (w : World) : Server :=
  mkServer w (config sv) (aof sv) (aof_fault sv) (replicas sv) (link_down sv) (read_only sv).
Definition set_aof (sv : Server) (f : option Aof) : Server :=
  mkServer (world sv) (config sv) f (aof_fault sv) (replicas sv) (link_down sv) (read_only sv).
Definition set_replicas (sv : Server) (l : list bytes) : Server :=
  mkServer (world sv) (config sv) (aof sv) (aof_fault sv) l (link_down sv) (read_only sv).

(** ** Replication registry *)

Definition has_replicas (sv : Server) : bool := (0 <? length (replicas sv))%nat.

(** [link_down t i]: the write to replica [i] fails at time [t]. *)
Definition add_replica_with_snapshot (sv : Server) (snapshot : bytes) : Server :=
  if link_down sv (tick (world sv)) (length (replicas sv)) then sv
  else set_replicas sv (replicas sv ++ [snapshot]).

Definition propagate (sv : Server) (data : bytes) : Server :=
  let alive := imap (fun i feed =>
    if link_down sv (tick (world sv)) i then None else Some (feed ++ data)) (replicas sv) in
  set_replicas sv (omap (fun x => x) alive).

(** [repl::encode] *)
Definition encode_args (out : bytes) (args : list bytes) : bytes :=
  let out := out ++ [x2a] ++ u64_to_string (Z.of_nat (length args)) ++ Resp.CRLF in
  foldl (fun out a =>
    out ++ [x24] ++ u64_to_string (Z.of_nat (length a)) ++ Resp.CRLF ++ a ++ Resp.CRLF) out args.

Definition write_commands : list string :=
  ["SET"; "SETNX"; "SETEX"; "PSETEX"; "GETSET"; "MSET"; "APPEND"; "INCR"; "DECR"; "INCRBY";
   "DECRBY"; "DEL"; "UNLINK"; "EXPIRE"; "PEXPIRE"; "EXPIREAT"; "PEXPIREAT"; "PERSIST";
   "FLUSHALL"; "FLUSHDB"; "LPUSH"; "RPUSH"; "LPOP"; "RPOP"; "HSET"; "HMSET"; "HDEL"; "SADD";
   "SREM"; "ZADD"; "ZREM"]%string.

Definition is_write_command (nm : bytes) : bool :=
  existsb (fun p => bool_decide (nm = lit p)) write_commands.

(** ** One command *)

Definition is_preauth_ok (nm : bytes) : bool :=
  existsb (fun p => bool_decide (nm = lit p)) ["AUTH"; "HELLO"; "QUIT"; "PING"]%string.

(** The writers cannot run out of buffer ([write_uint_spec]). *)
Definition wrote (out : bytes) (r : option bytes) : bytes := default out r.

Definition fast_incr (key : bytes) (delta : Z) (out : bytes) : M (bytes * bool) :=
  r ← call (fun now st => Store.incr_by now st key delta);
  mret (match r with
        | Ok v => (wrote out (Resp.write_int out v), true)
        | Err e =>
            if bool_decide (e = WRONGTYPE) then (Resp.write_error out (lit e), false)
            else (Resp.write_error out (lit "ERR " ++ lit e), false)
        end).

(** [serve_fast]: [None] falls back to [dispatch]. *)
Definition serve_fast (st : ConnState) (argv : list bytes) (out : bytes) : option (M (bytes * bool)) :=
  let nm := upper (argv !!! 0%nat) in
  let n := length argv in
  if bool_decide (nm = lit "GET") && (n =? 2)%nat then
    Some (out ← call (fun now s => Store.read_str now s (argv !!! 1%nat) (fun r =>
                        match r with
                        | SRStr b => wrote out (Resp.write_bulk out b)
                        | SRNone => Resp.write_null out (resp3 st)
                        | SRWrongType => Resp.write_error out (lit WRONGTYPE)
                        end));
          mret (out, false))
  else if bool_decide (nm = lit "SET") && (n =? 3)%nat then
    Some (_ ← call (fun now s => Store.set now s (argv !!! 1%nat) (argv !!! 2%nat) default_options);
          mret (Resp.write_simple out (lit "OK"), true))
  else if bool_decide (nm = lit "PING") && (n =? 1)%nat then
    Some (mret (Resp.write_simple out (lit "PONG"), false))
  else if bool_decide (nm = lit "INCR") && (n =? 2)%nat then Some (fast_incr (argv !!! 1%nat) 1 out)
  else if bool_decide (nm = lit "DECR") && (n =? 2)%nat then Some (fast_incr (argv !!! 1%nat) (-1) out)
  else None.

(** What the loop does after a command. *)
Inductive Flow :=
  | Next        (* go on *)
  | Quit        (* flush and close *)
  | Passive     (* the connection is now a feed of a replica *)
  | Closed.     (* the error was written, close *)

Section serve.
Context {HO : HashOrder} {FT : FloatText}.

(** Serve a command on the fast path, or dispatch it and encode the reply; the
    last part says whether it is to be persisted. *)
Definition execute (w : World) (cfg : Config) (st : ConnState) (argv : list bytes) (out : bytes)
    : World * ConnState * bytes * bool * bool :=
  match serve_fast st argv out with
  | Some m => let '(w, (out, is_write)) := m w in (w, st, out, false, is_write)
  | None =>
      let '(w, (st, o)) := dispatch argv st cfg w in
      (w, st, encode (reply o) out (resp3 st), quit o, persist o)
  end.

(** The append-only file, then the replicas. *)
Definition log_write (sv : Server) (argv : list bytes) (out : bytes) : Server * bytes * bool :=
  let '(sv, out, failed) :=
    match aof sv with
    | None => (sv, out, false)
    | Some file =>
        match aof_append file (aof_fault sv (tick (world sv))) argv with
        | (file, None) => (set_aof sv (Some file), out, false)
        | (file, Some e) =>
            (set_aof sv (Some file), Resp.write_error out (lit "ERR aof write failed: " ++ e), true)
        end
    end in
  let sv := if has_replicas sv then propagate sv (encode_args [] argv) else sv in
  (sv, out, failed).

(** The body of the inner loop of [run] after a command was parsed.  [raw] tells
    whether there is a plain socket to feed a replica on. *)
Definition handle_command (raw : bool) (sv : Server) (st : ConnState) (argv : list bytes) (out : bytes)
    : Server * ConnState * bytes * Flow :=
  let nm := upper (argv !!! 0%nat) in
  if bool_decide (nm = lit "SYNC") || bool_decide (nm = lit "PSYNC") then
    if raw then
      let w := world sv in
      let snapshot := dump_commands (clock w (tick w)) (store w) in
      (add_replica_with_snapshot (set_world sv (set_store w (store w))) snapshot, st, out, Passive)
    else (sv, st, Resp.write_error out (lit "ERR replication is not supported over TLS"), Closed)
  else if negb (authenticated st) && negb (is_preauth_ok nm)
  then (sv, st, Resp.write_error out (lit "NOAUTH Authentication required."), Next)
  else if read_only sv && is_write_command nm
  then (sv, st, Resp.write_error out (lit "READONLY You can't write against a read only replica."), Next)
  else
    let '(w, st, out, quit, is_write) := execute (world sv) (config sv) st argv out in
    let sv := set_world sv w in
    let '(sv, out, failed) :=
      if (is_write : bool) && (bool_decide (is_Some (aof sv)) || has_replicas sv)
      then log_write sv argv out else (sv, out, false) in
    (sv, st, out, if (quit : bool) || (failed : bool) then Quit else Next).

(** ** The loop over the input buffer *)

(** [Display] of [ProtocolError] *)
Definition error_text (e : ProtocolError) : bytes :=
  match e with
  | Malformed m => lit "protocol error: " ++ lit m
  | TooLarge => lit "protocol error: frame too large"
  end.

(** [cursor] is where the next command starts.  Every turn consumes a byte, so
    a turn per byte and a last one are enough. *)
Fixpoint input_loop (fuel : nat) (raw : bool) (sv : Server) (st : ConnState) (inbuf : bytes)
    (cursor : nat) (out : bytes) : Server * ConnState * nat * bytes * Flow :=
  match fuel with
  | O => (sv, st, cursor, out, Next)
  | S fuel =>
      let '(ranges, r) := Resp.parse_command_ranges (drop cursor inbuf) [] in
      match r with
      | Incomplete => (sv, st, cursor, out, Next)
      | Failed e =>
          (sv, st, cursor, Resp.write_error out (lit "ERR Protocol error: " ++ error_text e), Quit)
      | Complete consumed =>
          let base := cursor in
          let cursor := (cursor + consumed)%nat in
          match ranges with
          | [] => input_loop fuel raw sv st inbuf cursor out
          | _ =>
              let argv := (fun '(o, l) => Resp.slice inbuf (base + o) (base + o + l)) <$> ranges in
              let '(sv, st, out, flow) := handle_command raw sv st argv out in
              match flow with
              | Next => input_loop fuel raw sv st inbuf cursor out
              | _ => (sv, st, cursor, out, flow)
              end
          end
      end
  end.

(** ** A connection *)

Record Conn := mkConnection {
  cstate : ConnState;
  inbuf : bytes;
  sent : bytes;
  flow : Flow
}.

Definition accept (sv : Server) (id : Z) : Conn :=
  mkConnection (conn_new id (bool_decide (requirepass (config sv) = None))) [] [] Next.

(** One turn of the outer loop of [run]: a chunk arrives, the commands in the
    buffer are served, what is left stays, and the output is written at once. *)
Definition receive (raw : bool) (sv : Server) (c : Conn) (chunk : bytes) : Server * Conn :=
  match flow c with
  | Next =>
      let buf := inbuf c ++ chunk in
      let '(sv, st, cursor, out, fl) := input_loop (S (length buf)) raw sv (cstate c) buf 0 [] in
      (sv, mkConnection st (drop cursor buf) (sent c ++ out) fl)
  | _ => (sv, c)
  end.

(** ** Startup *)

(** [Server::bootstrap] on what is on the disk: a new store, recovered from the
    append-only file when there is one, else from the snapshot. *)
Definition bootstrap (router : bytes → Z) (cfg : Config) (aof_on_disk snap_on_disk : option bytes)
    (faults : nat → Fault) (links : nat → nat → bool) (w : World) : Server :=
  let w := set_store w (Store.new (entropy w (tick w)) router (Z.to_nat (shards cfg)) (maxmemory cfg)) in
  let '(w, _) :=
    if appendonly cfg && bool_decide (is_Some aof_on_disk) then load_aof cfg aof_on_disk w
    else if bool_decide (is_Some snap_on_disk) then load_snapshot cfg snap_on_disk w
    else (w, O) in
  let log := if appendonly cfg then Some (aof_open (default [] aof_on_disk)) else None in
  mkServer w cfg log faults [] links (bool_decide (is_Some (replicaof cfg))).

(** One turn of the thread of [Server::start_reaper] *)
Definition reaper_turn (sv : Server) : Server :=
  set_world sv (call (fun now st => Store.purge_expired now st) (world sv)).1.

End serve.
