(* ===== verification/Steps.v ===== *)
(** * Commands step by step ([crates/server/src/commands.rs])

    A command takes the lock of a shard once per operation and holds no lock in
    between, so a command with several operations, such as [MSET], [DEL] or
    [GETSET], can be interrupted by the commands of other connections; and a
    command on the whole store, such as [KEYS] or [FLUSHALL], locks the shards in
    turn.  Here these commands are programs of single steps, one per lock, and
    without an interruption a program is the command of [Commands.v]. *)
From S2P Require Import Prelude Std Map Eviction Value Shard Spec ShardOk Store StoreOk.
From S2P Require Import Resp Reply Dump Config Commands CommandsOk Persistence Conn.
Local Open Scope Z_scope.

(** ** Programs of steps *)

Inductive Prog (A : Type) : Type :=
  | Done (a : A)
  | Do (R : Type) (f : M R) (k : R → Prog A).
Arguments Done {A} a.
Arguments Do {A R} f k.

#[export] Instance Prog_ret : MRet Prog := fun A a => Done a.
#[export] Instance Prog_bind : MBind Prog := fun A B g =>
  fix bind p := match p with Done a => g a | Do f k => Do f (fun r => bind (k r)) end.

(** One step. *)
Definition step {R : Type} (f : M R) : Prog R := Do f Done.

(** The program without an interruption. *)
Fixpoint run {A : Type} (p : Prog A) : M A :=
  match p with
  | Done a => mret a
  | Do f k => r ← f; run (k r)
  end.

(** [iter().map(f).collect()] and [iter().filter(f).count()] *)
Fixpoint mapP {A B : Type} (f : A → Prog B) (l : list A) : Prog (list B) :=
  match l with
  | [] => mret []
  | a :: l => b ← f a; bs ← mapP f l; mret (b :: bs)
  end.

Definition countP {A : Type} (f : A → Prog bool) (l : list A) : Prog Z :=
  bs ← mapP f l; mret (Z.of_nat (length (filter (fun b => b = true) bs))).

(** [for x in l { acc = f(acc, x) }] *)
Fixpoint foldP {A B : Type} (f : B → A → Prog B) (acc : B) (l : list A) : Prog B :=
  match l with
  | [] => mret acc
  | a :: l => acc ← f acc a; foldP f acc l
  end.

Section commands.
Context {HO : HashOrder} {FT : FloatText}.
Implicit Types (argv : list bytes) (cfg : Config) (w : World).

(** ** The commands with several steps *)

Definition set_steps argv : Prog Outcome :=
  if (length argv <? 3)%nat then mret (out_r (wrong_args "set"))
  else
    let key := argv !!! 1%nat in
    let val := argv !!! 2%nat in
    now ← step now_ms;
    match set_opts now (drop 3 argv) default_options false with
    | inr e => mret (out_r e)
    | inl (opts, want_get) =>
        old ← (if (want_get : bool) then step (call (fun now st => Store.get now st key)) else mret (Ok None));
        match old with
        | Err e => mret (out_r (store_err e))
        | Ok old =>
            did ← step (call (fun now st => Store.set now st key val opts));
            let reply := if (want_get : bool) then bulk old
                         else if (did : bool) then ok else Bulk None in
            mret (out_maybe reply did)
        end
    end.

Definition setex_steps argv (ms : bool) : Prog Outcome :=
  if negb (length argv =? 4)%nat
  then mret (out_r (wrong_args (if ms then "psetex" else "setex")))
  else
    match parse_i64_bytes (argv !!! 2%nat) with
    | None => mret (out_r (err NOT_INT))
    | Some n =>
        if n <=? 0 then mret (out_r (err "invalid expire time"))
        else
          now ← step now_ms;
          let at_ := if ms then wrap_u64 (now + n) else wrap_u64 (now + wrap_u64 (n * 1000)) in
          _ ← step (call (fun now st => Store.set now st (argv !!! 1%nat) (argv !!! 3%nat)
                                          (mkSetOptions false false false (Some at_))));
          mret (out_w ok)
    end.

Definition getset_steps argv : Prog Outcome :=
  old ← step (call (fun now st => Store.get now st (argv !!! 1%nat)));
  match old with
  | Err e => mret (out_r (store_err e))
  | Ok old =>
      _ ← step (call (fun now st => Store.set now st (argv !!! 1%nat) (argv !!! 2%nat) default_options));
      mret (out_w (bulk old))
  end.

Definition mset_steps argv : Prog Outcome :=
  if (length argv <? 3)%nat || is_multiple_of_2 (length argv) then mret (out_r (wrong_args "mset"))
  else
    _ ← mapP (fun '(k, v) => step (call (fun now st => Store.set now st k v default_options)))
          (pairs_of (drop 1 argv));
    mret (out_w ok).

Definition mget_steps argv : Prog Outcome :=
  items ← mapP (fun k =>
            r ← step (call (fun now st => Store.get now st k));
            mret (match r with Ok v => bulk v | Err _ => Bulk None end)) (drop 1 argv);
  mret (out_r (Array (Some items))).

Definition hmget_steps argv : Prog Outcome :=
  items ← mapP (fun f =>
            r ← step (call (fun now st => Store.hget now st (argv !!! 1%nat) f));
            mret (match r with Ok v => bulk v | Err _ => Bulk None end)) (drop 2 argv);
  mret (out_r (Array (Some items))).

Definition del_steps argv : Prog Outcome :=
  n ← countP (fun k => step (call (fun now st => Store.del now st k))) (drop 1 argv);
  mret (out_maybe (Int n) (0 <? n)).

Definition exists_steps argv : Prog Outcome :=
  n ← countP (fun k => step (call (fun now st => Store.exists_ now st k))) (drop 1 argv);
  mret (out_r (Int n)).

Definition expire_steps argv (unit_ms : Z) (absolute : bool) : Prog Outcome :=
  if (length argv <? 3)%nat then mret (out_r (wrong_args "expire"))
  else
    match parse_i64_bytes (argv !!! 2%nat) with
    | None => mret (out_r (err NOT_INT))
    | Some n =>
        ex ← step (call (fun now st => Store.exists_ now st (argv !!! 1%nat)));
        if negb ex then mret (out_r (Int 0))
        else
          now ← step now_ms;
          let new_at := if absolute then wrap_u64 (Z.max n 0 * unit_ms) else from_now now n unit_ms in
          let finish : Prog Outcome :=
            _ ← step (call (fun now st => Store.expire_at now st (argv !!! 1%nat) (Some new_at)));
            mret (out_w (Int 1)) in
          match argv !! 3%nat with
          | None => finish
          | Some flag =>
              cur ← step (call (fun now st => Store.pttl now st (argv !!! 1%nat)));
              match expire_allowed flag cur now new_at with
              | None => mret (out_r (err "Unsupported option"))
              | Some false => mret (out_r (Int 0))
              | Some true => finish
              end
          end
    end.

Definition persist_steps argv : Prog Outcome :=
  cur ← step (call (fun now st => Store.pttl now st (argv !!! 1%nat)));
  if is_millis cur then
    _ ← step (call (fun now st => Store.expire_at now st (argv !!! 1%nat) None));
    mret (out_maybe (Int 1) true)
  else mret (out_maybe (Int 0) false).

(** ** The commands on the whole store *)

(** [now_ms()], and the number of shards, which never changes. *)
Definition now_count : M (Z * nat) := call (fun now st => (st, (now, Store.shard_count st))).

(** A look at shard [i] under its lock. *)
Definition peek_shard {R : Type} (i : nat) (f : Shard.t → R) : M R :=
  peek (fun st => f (Store.shards st !!! i)).

Definition keys_steps : Prog (list bytes) :=
  '(now, n) ← step now_count;
  kss ← mapP (fun i => step (peek_shard i (Shard.keys now))) (seq 0 n);
  mret (concat kss).

Definition dbsize_steps : Prog nat :=
  n ← step (peek Store.shard_count);
  ns ← mapP (fun i => step (peek_shard i (fun s => FlatMap.len (Shard.map s)))) (seq 0 n);
  mret (sum_list ns).

(** [RandomState::new()] for the new shards, and one of them put in place. *)
Definition draw : M ((nat → Hashers) * nat) := fun w =>
  (set_store w (store w), (entropy w (tick w), Store.shard_count (store w))).

Definition flush_step (hs : Hashers) (i : nat) : M unit := fun w =>
  (mkWorld (Store.flush_shard hs i (store w)) (tick w) (clock w) (entropy w) (io_fault w) (snapshot w), ()).

Definition flush_steps : Prog Outcome :=
  '(seeds, n) ← step draw;
  _ ← mapP (fun i => step (flush_step (seeds i) i)) (seq 0 n);
  mret (out_w ok).

(** [purge_expired]: the expired entries of one shard after the other. *)
Definition purge_step (now : Z) (i : nat) : M nat := fun w =>
  let '(st, n) := Store.purge_shard now i (store w) in
  (mkWorld st (tick w) (clock w) (entropy w) (io_fault w) (snapshot w), n).

Definition purge_steps : Prog nat :=
  '(now, n) ← step now_count;
  ns ← mapP (fun i => step (purge_step now i)) (seq 0 n);
  mret (sum_list ns).

(** [dump_commands], with the clock read at its beginning. *)
Definition dump_shards (now : Z) (n : nat) : Prog bytes :=
  foldP (fun out i => step (peek_shard i (dump_shard now out))) [] (seq 0 n).

Definition dump_steps : Prog bytes :=
  '(now, n) ← step (fun w => (w, (clock w (tick w), Store.shard_count (store w))));
  dump_shards now n.

(** The temporary file and its renaming, with one fault for both: whichever fails,
    the snapshot is the old one, and a temporary file that is left behind is never
    read. *)
Definition write_snapshot (data : bytes) : M (option bytes) := fun w =>
  match io_fault w (tick w) with
  | Some e =>
      (mkWorld (store w) (S (tick w)) (clock w) (entropy w) (io_fault w) (snapshot w), Some e)
  | None =>
      (mkWorld (store w) (S (tick w)) (clock w) (entropy w) (io_fault w) (Some data), None)
  end.

Definition save_steps : Prog Outcome :=
  data ← dump_steps;
  r ← step (write_snapshot data);
  mret (match r with
        | None => out_r ok
        | Some e => out_r (Error (lit "ERR snapshot failed: " ++ e))
        end).

Definition keys_cmd_steps argv : Prog Outcome :=
  ks ← keys_steps;
  mret (out_r (Array (Some (bulks (filter (fun k => glob_match (argv !!! 1%nat) k = true) ks))))).

Definition scan_steps argv : Prog Outcome :=
  let pattern := scan_pattern (drop 2 argv) None in
  ks ← keys_steps;
  let keep k := match pattern with Some p => glob_match p k | None => true end in
  mret (out_r (Array (Some [Bulk (Some (lit "0"));
                            Array (Some (bulks (filter (fun k => keep k = true) ks)))]))).

Definition info_steps cfg : Prog Outcome :=
  keys ← dbsize_steps;
  shards ← step (peek Store.shard_count);
  mret (out_r (Bulk (Some (info_lines cfg keys shards)))).

(** The arms of [dispatch] with more than one step. *)
Record SArm := mkSArm {
  spats : list string;
  sguard : nat → bool;
  sbody : bytes → list bytes → Config → Prog Outcome
}.

Definition stepped_arms : list SArm :=
  [mkSArm ["SET"] any (fun _ argv _ => set_steps argv);
   mkSArm ["GETSET"] (Nat.eqb 3) (fun _ argv _ => getset_steps argv);
   mkSArm ["SETEX"; "PSETEX"] any (fun nm argv _ => setex_steps argv (bool_decide (nm = lit "PSETEX")));
   mkSArm ["MSET"] any (fun _ argv _ => mset_steps argv);
   mkSArm ["MGET"] (Nat.leb 2) (fun _ argv _ => mget_steps argv);
   mkSArm ["HMGET"] (Nat.leb 3) (fun _ argv _ => hmget_steps argv);
   mkSArm ["DEL"; "UNLINK"] (Nat.leb 2) (fun _ argv _ => del_steps argv);
   mkSArm ["EXISTS"] (Nat.leb 2) (fun _ argv _ => exists_steps argv);
   mkSArm ["EXPIRE"] any (fun _ argv _ => expire_steps argv 1000 false);
   mkSArm ["PEXPIRE"] any (fun _ argv _ => expire_steps argv 1 false);
   mkSArm ["EXPIREAT"] any (fun _ argv _ => expire_steps argv 1000 true);
   mkSArm ["PEXPIREAT"] any (fun _ argv _ => expire_steps argv 1 true);
   mkSArm ["PERSIST"] (Nat.eqb 2) (fun _ argv _ => persist_steps argv);
   mkSArm ["INFO"] any (fun _ _ cfg => info_steps cfg);
   mkSArm ["DBSIZE"] any (fun _ _ _ => n ← dbsize_steps; mret (out_r (Int (Z.of_nat n))));
   mkSArm ["FLUSHALL"; "FLUSHDB"] any (fun _ _ _ => flush_steps);
   mkSArm ["KEYS"] (Nat.eqb 2) (fun _ argv _ => keys_cmd_steps argv);
   mkSArm ["SCAN"] (Nat.leb 2) (fun _ argv _ => scan_steps argv);
   mkSArm ["SAVE"; "BGSAVE"] any (fun _ _ _ => save_steps)].

Definition sarm_matches (nm : bytes) (n : nat) (a : SArm) : bool :=
  existsb (fun p => bool_decide (nm = lit p)) (spats a) && sguard a n.

(** [dispatch] by steps.  The other commands have one operation, or none. *)
Definition program argv (st : ConnState) cfg : Prog (ConnState * Outcome) :=
  let nm := upper (argv !!! 0%nat) in
  match find (sarm_matches nm (length argv)) stepped_arms with
  | Some a => o ← sbody a nm argv cfg; mret (st, o)
  | None => step (dispatch argv st cfg)
  end.

(** ** Without interruptions a program is the command *)

Definition same {A : Type} (f g : M A) : Prop := ∀ w, f w = g w.

Lemma run_bind {A B : Type} (p : Prog A) (q : A → Prog B) :
  same (run (p ≫= q)) (a ← run p; run (q a)).
Proof.
  intros w. revert w. induction p as [a|R f k IH]; intros w; [done|].
  change (Do f k ≫= q) with (Do f (fun r => k r ≫= q)). cbn [run]. unfold mbind, M_bind in *.
  destruct (f w) as [w1 r]. apply IH.
Qed.

Lemma run_step {R : Type} (f : M R) : same (run (step f)) f.
Proof. intros w. cbn [run step]. unfold mbind, M_bind. by destruct (f w). Qed.

Lemma same_bind {A B : Type} (f g : M A) (h k : A → M B) :
  same f g → (∀ a, same (h a) (k a)) → same (f ≫= h) (g ≫= k).
Proof. intros Hf Hh w. unfold mbind, M_bind. rewrite Hf. destruct (g w) as [w1 a]. apply Hh. Qed.

Lemma run_then {A B : Type} (p : Prog A) (q : A → Prog B) (f : M A) (g : A → M B) :
  same (run p) f → (∀ a, same (run (q a)) (g a)) → same (run (p ≫= q)) (f ≫= g).
Proof. intros Hp Hq w. rewrite run_bind. by apply same_bind. Qed.

Lemma run_mapP {A B : Type} (p : A → Prog B) (f : A → M B) l :
  (∀ a, same (run (p a)) (f a)) → same (run (mapP p l)) (mapM f l).
Proof.
  intros Hp. induction l as [|a l IH]; [done|]. cbn [mapP mapM].
  apply run_then; [apply Hp|]. intros b. apply run_then; [apply IH|done].
Qed.

(** Both sides have the same shape. *)
Ltac walk :=
  repeat first
    [done
    |apply run_step
    |apply run_mapP; intros ?
    |apply run_then; [|intros ?]
    |case_match; cbv beta iota zeta].

Lemma run_set argv : same (run (set_steps argv)) (set_cmd argv).
Proof. unfold set_steps, set_cmd. walk. Qed.
Lemma run_setex argv ms : same (run (setex_steps argv ms)) (setex_cmd argv ms).
Proof. unfold setex_steps, setex_cmd. walk. Qed.
Lemma run_getset argv : same (run (getset_steps argv)) (getset_cmd argv).
Proof. unfold getset_steps, getset_cmd. walk. Qed.
Lemma run_mset argv : same (run (mset_steps argv)) (mset_cmd argv).
Proof. unfold mset_steps, mset_cmd. walk. Qed.
Lemma run_mget argv : same (run (mget_steps argv)) (mget_cmd argv).
Proof. unfold mget_steps, mget_cmd. walk. Qed.
Lemma run_hmget argv : same (run (hmget_steps argv)) (hmget_cmd argv).
Proof. unfold hmget_steps, hmget_cmd. walk. Qed.
Lemma run_expire argv u b : same (run (expire_steps argv u b)) (expire_cmd argv u b).
Proof. unfold expire_steps, expire_cmd. walk. Qed.
Lemma run_persist argv : same (run (persist_steps argv)) (persist_cmd argv).
Proof. unfold persist_steps, persist_cmd. walk. Qed.

(** *** Whole-store commands *)

(** Looking at every shard by its index. *)
Lemma by_index {R : Type} (f : Shard.t → R) (l : list Shard.t) :
  (fun i => f (l !!! i)) <$> seq 0 (length l) = f <$> l.
Proof.
  apply list_eq. intros i. rewrite !list_lookup_fmap.
  destruct (decide (i < length l)%nat) as [Hi|Hi].
  - rewrite lookup_seq_lt by done. cbn. by rewrite (list_lookup_lookup_total_lt l i Hi).
  - rewrite lookup_seq_ge by lia. by rewrite (lookup_ge_None_2 l i) by lia.
Qed.

(** Every element is changed once. *)
Lemma alter_each {A : Type} (g : nat → A → A) (l : list A) :
  foldl (fun l i => alter (g i) i l) l (seq 0 (length l)) = imap g l.
Proof.
  assert (∀ n a (l0 : list A) j, foldl (fun l i => alter (g i) i l) l0 (seq a n) !! j =
    (if decide (a <= j < a + n)%nat then g j else id) <$> l0 !! j) as H.
  { induction n as [|n IH]; intros a l0 j; cbn [seq foldl].
    - rewrite decide_False by lia. by destruct (_ !! j).
    - rewrite IH. destruct (decide (a = j)) as [->|Hne].
      + rewrite list_lookup_alter_eq, decide_False, decide_True by lia. by destruct (_ !! j).
      + rewrite list_lookup_alter_ne by done. by repeat case_decide; try lia. }
  apply list_eq. intros j. rewrite H, list_lookup_imap. destruct (l !! j) as [x|] eqn:Hj; [|done].
  apply lookup_lt_Some in Hj. by rewrite decide_True by lia.
Qed.

(** The store with other shards. *)
Definition with_shards (w : World) (l : list Shard.t) : World :=
  mkWorld (Store.mk l (Store.mask (store w)) (Store.router (store w))) (tick w) (clock w) (entropy w)
    (io_fault w) (snapshot w).

Lemma run_flushes seeds l w :
  (run (mapP (fun i => step (flush_step (seeds i) i)) l) w).1 =
    with_shards w (foldl (fun sh i => alter (Shard.flush (seeds i)) i sh) (Store.shards (store w)) l).
Proof.
  revert w. induction l as [|a l IH]; intros w; [by destruct w as [[] ? ? ? ? ?]|]. cbn [mapP]. rewrite run_bind.
  unfold mbind at 1, M_bind at 1. rewrite run_step. cbn [flush_step]. rewrite run_bind.
  unfold mbind at 1, M_bind at 1. match goal with |- context [run ?p ?w0] => specialize (IH w0); destruct (run p w0) end.
  exact IH.
Qed.

Lemma run_flush : same (run flush_steps) (_ ← flush_all; mret (out_w ok)).
Proof.
  intros w. unfold flush_steps. rewrite run_bind. unfold mbind at 1, M_bind at 1. rewrite run_step.
  cbn [draw]. rewrite run_bind. unfold mbind at 1, M_bind at 1.
  match goal with |- context [run (mapP ?p ?l) ?w0] =>
    pose proof (run_flushes (entropy w (tick w)) l w0) as H; destruct (run (mapP p l) w0) as [w1 rs] end.
  cbn [fst set_store store] in H. unfold Store.shard_count in H. rewrite alter_each in H. by subst w1.
Qed.

Lemma run_purges now n a w :
  run (mapP (fun i => step (purge_step now i)) (seq a n)) w =
    (with_shards w (foldl (fun sh i => alter (fun s => (Shard.purge_expired now s).1) i sh) (Store.shards (store w)) (seq a n)),
     (fun i => (Shard.purge_expired now (Store.shards (store w) !!! i)).2) <$> seq a n).
Proof.
  revert a w. induction n as [|n IH]; intros a w; [by destruct w as [[] ? ? ? ? ?]|]. cbn [seq mapP]. rewrite run_bind.
  unfold mbind at 1, M_bind at 1. rewrite run_step. cbn [purge_step Store.purge_shard]. rewrite run_bind.
  unfold mbind at 1, M_bind at 1. rewrite IH.
  cbn [store Store.shards foldl fmap list_fmap]. unfold mret at 1. cbn [Prog_ret run]. unfold mret at 1, M_ret.
  do 2 f_equal. apply list_fmap_ext. intros i j Hi. apply lookup_seq in Hi as [-> Hi].
  cbn [store Store.shards]. do 2 f_equal. rewrite !list_lookup_total_alt. by rewrite list_lookup_alter_ne by lia.
Qed.

(** The thread of the reaper, without a break. *)
Lemma run_purge : same (run purge_steps) (call (fun now st => Store.purge_expired now st)).
Proof.
  intros w. unfold purge_steps. rewrite run_bind. unfold mbind at 1, M_bind at 1. rewrite run_step.
  cbn [now_count call]. rewrite run_bind. unfold mbind at 1, M_bind at 1. rewrite run_purges.
  cbn [set_store store]. unfold Store.shard_count. rewrite alter_each.
  rewrite (by_index (fun s => (Shard.purge_expired (clock w (tick w)) s).2)).
  unfold call, Store.purge_expired. rewrite <- !list_fmap_compose.
  replace (imap _ _) with ((fst ∘ Shard.purge_expired (clock w (tick w))) <$> Store.shards (store w)); [done|].
  apply list_eq. intros j. by rewrite list_lookup_imap, list_lookup_fmap.
Qed.

Lemma run_peeks {A R : Type} (f : A → Store.t → R) l w :
  run (mapP (fun i => step (peek (f i))) l) w = (w, (fun i => f i (store w)) <$> l).
Proof.
  induction l as [|a l IH]; [done|]. cbn [mapP]. rewrite run_bind. unfold mbind at 1, M_bind at 1.
  rewrite run_step. cbn [peek]. rewrite run_bind. unfold mbind at 1, M_bind at 1. by rewrite IH.
Qed.

Lemma run_folds {A B : Type} (f : B → A → Store.t → B) acc l w :
  run (foldP (fun acc i => step (peek (f acc i))) acc l) w = (w, foldl (fun acc i => f acc i (store w)) acc l).
Proof.
  revert acc. induction l as [|a l IH]; intros acc; [done|]. cbn [foldP]. rewrite run_bind.
  unfold mbind at 1, M_bind at 1. rewrite run_step. cbn [peek]. apply IH.
Qed.

Lemma by_index_foldl {B : Type} (f : B → Shard.t → B) acc (l : list Shard.t) :
  foldl (fun acc i => f acc (l !!! i)) acc (seq 0 (length l)) = foldl f acc l.
Proof.
  transitivity (foldl f acc ((fun i => id (l !!! i)) <$> seq 0 (length l))); [|by rewrite by_index, list_fmap_id].
  generalize (seq 0 (length l)). intros js. revert acc. induction js as [|j js IH]; intros acc; [done|]. apply IH.
Qed.

Lemma keys_by_shard now st :
  concat ((fun i => Shard.keys now (Store.shards st !!! i)) <$> seq 0 (Store.shard_count st)) = Store.keys now st.
Proof.
  unfold Store.shard_count. rewrite (by_index (Shard.keys now)). unfold Store.keys.
  induction (Store.shards st) as [|s l IH]; [done|]. csimpl. by rewrite IH.
Qed.

Lemma run_keys : same (run keys_steps) (call (fun now st => (st, Store.keys now st))).
Proof.
  intros w. unfold keys_steps. rewrite run_bind. unfold mbind at 1, M_bind at 1. rewrite run_step.
  cbn [now_count call]. rewrite run_bind. unfold mbind at 1, M_bind at 1. unfold peek_shard.
  rewrite run_peeks. unfold call. rewrite <- keys_by_shard. reflexivity.
Qed.

Lemma run_dbsize : same (run dbsize_steps) (peek Store.dbsize).
Proof.
  intros w. unfold dbsize_steps. rewrite run_bind. unfold mbind at 1, M_bind at 1. rewrite run_step.
  cbn [peek]. rewrite run_bind. unfold mbind at 1, M_bind at 1. unfold peek_shard. rewrite run_peeks.
  unfold peek, Store.dbsize. rewrite <- (by_index (fun s => FlatMap.len (Shard.map s))). reflexivity.
Qed.

Lemma run_dump now w :
  run (dump_shards now (Store.shard_count (store w))) w = (w, dump_commands now (store w)).
Proof.
  unfold dump_shards, peek_shard. rewrite run_folds. unfold Store.shard_count, dump_commands.
  by rewrite (by_index_foldl (dump_shard now)).
Qed.

Lemma run_save : same (run save_steps) save_cmd.
Proof.
  intros w. unfold save_steps, dump_steps. rewrite !run_bind. unfold mbind at 1, M_bind at 1. rewrite run_bind.
  unfold mbind at 1, M_bind at 1. rewrite run_step. rewrite run_dump.
  rewrite run_bind. unfold mbind at 1, M_bind at 1. rewrite run_step.
  unfold save_cmd, save_snapshot, write_snapshot, mbind, M_bind. by destruct (io_fault w (tick w)).
Qed.

Lemma run_info cfg : same (run (info_steps cfg)) (t ← peek (info_text cfg); mret (out_r (Bulk (Some t)))).
Proof.
  intros w. unfold info_steps. rewrite run_bind. unfold mbind at 1, M_bind at 1. by rewrite run_dbsize.
Qed.

Lemma run_count {A : Type} (p : A → Prog bool) (f : A → M bool) (g : Z → Outcome) l :
  (∀ a, same (run (p a)) (f a)) →
  same (run (n ← countP p l; mret (g n))) (n ← countM f l; mret (g n)).
Proof.
  intros Hp. apply run_then; [|done]. apply run_then; [by apply run_mapP|done].
Qed.

(** [dispatch] finds the body whose steps an arm has. *)
Definition arm_stepped (a : SArm) : Prop :=
  ∀ p argv st cfg, p ∈ spats a → upper (argv !!! 0%nat) = lit p → sguard a (length argv) = true →
    same (run (sbody a (lit p) argv cfg)) (prod_map id snd ∘ dispatch argv st cfg) ∧
    ∀ w, (dispatch argv st cfg w).2.1 = st.

Lemma stepped_body a p argv st cfg (f : M Outcome) :
  same (run (sbody a (lit p) argv cfg)) f → dispatch argv st cfg = (o ← f; mret (st, o)) →
  same (run (sbody a (lit p) argv cfg)) (prod_map id snd ∘ dispatch argv st cfg) ∧
  ∀ w, (dispatch argv st cfg w).2.1 = st.
Proof.
  intros Hf ->. split; intros w; cbn; [rewrite Hf|]; unfold mbind, M_bind; by destruct (f w).
Qed.

(** The arm of a name and its number of arguments. *)
Ltac found Hnm Hg :=
  cbn [sguard] in Hg; unfold dispatch; rewrite Hnm;
  try (apply Nat.eqb_eq in Hg; rewrite <- Hg);
  try (apply Nat.leb_le, Nat.le_sum in Hg as [? ->]);
  reflexivity.

Lemma arms_stepped : Forall arm_stepped stepped_arms.
Proof.
  unfold stepped_arms. repeat first [apply Forall_nil_2|apply Forall_cons_2];
    intros p argv st cfg Hp Hnm Hg; cbn [spats] in Hp;
    repeat (apply elem_of_cons in Hp as [Hp|Hp]; [subst p|]); try (by apply elem_of_nil in Hp);
    (eapply stepped_body; cbn [sbody];
      [first [apply run_set|apply run_getset|apply run_setex|apply run_mset|apply run_mget|apply run_hmget
             |apply run_expire|apply run_persist|apply run_count; intros ?; apply run_step|apply run_info|apply run_flush|apply run_save
             |apply run_then; [apply run_dbsize|intros ?; intros ?; reflexivity]
             |apply run_then; [apply run_keys|intros ?; intros ?; reflexivity]]
      |found Hnm Hg]).
Qed.

(** Uninterrupted, the steps of a command are [dispatch]. *)
Lemma program_runs argv st cfg : same (run (program argv st cfg)) (dispatch argv st cfg).
Proof.
  unfold program. destruct (find _ stepped_arms) as [a|] eqn:Hf; [|apply run_step].
  apply find_some in Hf as [Ha%list_elem_of_In Hm].
  pose proof (proj1 (Forall_forall _ _) arms_stepped a Ha) as Hs.
  apply andb_true_iff in Hm as [Hm Hg].
  apply existsb_exists in Hm as (p & Hp%list_elem_of_In & Hnm%bool_decide_eq_true).
  destruct (Hs p argv st cfg Hp Hnm Hg) as [Hrun Hst]. rewrite Hnm.
  intros w. rewrite run_bind. unfold mbind, M_bind. rewrite Hrun. specialize (Hst w). cbn.
  destruct (dispatch argv st cfg w) as [w1 [st1 o]]. cbn in *. by subst st1.
Qed.

End commands.
