(* ===== verification/ConnOk.v ===== *)
(** * Connections: proofs *)
From S2P Require Import Prelude Std Map Eviction Value Shard Spec ShardOk Store StoreOk.
From S2P Require Import Resp RespOk Reply RespProps Dump Config Commands CommandsOk Persistence Conn.
Local Open Scope Z_scope.

(** ** Write commands *)

Section write_commands.
Context {HO : HashOrder} {FT : FloatText}.

Definition never_persists (m : M (ConnState * Outcome)) : Prop := ∀ w, persist (m w).2.2 = false.

(** An arm either matches write commands only, or never asks for persistence. *)
Definition arm_classified (a : Arm) : Prop :=
  forallb (fun p => is_write_command (lit p)) (pats a) = true ∨
  ∀ nm argv st cfg, never_persists (body a nm argv st cfg).

Lemma never_ret st o : persist o = false → never_persists (mret (st, o)).
Proof. by intros Ho w. Qed.

Lemma never_bind {A : Type} (m : M A) f :
  (∀ a, never_persists (f a)) → never_persists (m ≫= f).
Proof. intros Hf w. unfold mbind, M_bind. destruct (m w) as [w' a]. apply Hf. Qed.

Lemma never_keep (f : M Outcome) (st : ConnState) :
  (∀ w, persist (f w).2 = false) → never_persists (o ← f; mret (st, o)).
Proof. intros Hf w. unfold mbind, M_bind. specialize (Hf w). by destruct (f w). Qed.

Lemma reply_never {R : Type} (f : M R) (g : R → Outcome) w :
  (∀ r, persist (g r) = false) → persist ((r ← f; mret (g r)) w).2 = false.
Proof. intros Hg. unfold mbind, M_bind. destruct (f w). apply Hg. Qed.

Lemma int_or_err_never r : persist (int_or_err r) = false.
Proof. by destruct r. Qed.
Lemma str_or_err_never r : persist (str_or_err r) = false.
Proof. by destruct r. Qed.
Lemma items_or_err_never r : persist (items_or_err r) = false.
Proof. by destruct r. Qed.

Lemma never_pure f nm argv st cfg :
  (∀ argv st cfg, persist (f argv st cfg).2 = false) →
  never_persists (pure_cmd f nm argv st cfg).
Proof. intros Hf w. apply Hf. Qed.

Lemma hello_never argv st : persist (hello argv st).2 = false.
Proof.
  unfold hello. match goal with |- context [match ?x with None => _ | Some _ => _ end] =>
    destruct x; done end.
Qed.

Lemma auth_never argv st cfg : persist (auth argv st cfg).2 = false.
Proof.
  unfold auth. destruct (if (length argv =? 2)%nat then _ else _); [|done].
  destruct (requirepass cfg); [|done]. by case_bool_decide.
Qed.

Lemma client_never argv st : persist (client_cmd argv st).2 = false.
Proof.
  unfold client_cmd. destruct (length argv <? 2)%nat; [done|]. cbv zeta.
  destruct (bool_decide _ && _); [done|]. do 3 (destruct (bool_decide _); [done|]). done.
Qed.

Lemma config_never argv cfg : persist (config_cmd argv cfg) = false.
Proof. unfold config_cmd. by destruct (_ && _). Qed.

Lemma command_never argv : persist (command_meta argv) = false.
Proof. unfold command_meta. by destruct (_ && _). Qed.

Lemma introspection_classified : Forall arm_classified introspection_arms.
Proof.
  unfold introspection_arms. repeat apply Forall_cons_2; [..|constructor];
    [right; intros nm argv st cfg..|left; vm_compute; reflexivity];
    try (apply never_pure; clear; intros argv st cfg);
    try (apply never_bind; intros; by apply never_ret).
  - by destruct (length argv) as [|[|[|]]].
  - done.
  - apply hello_never.
  - done.
  - done.
  - apply auth_never.
  - apply command_never.
  - apply config_never.
  - apply client_never.
Qed.

Ltac never_reply :=
  right; intros nm argv st cfg; apply never_keep; intros w; apply reply_never;
  auto using str_or_err_never, int_or_err_never, items_or_err_never.
Ltac writes := left; vm_compute; reflexivity.

Lemma string_classified : Forall arm_classified string_arms.
Proof.
  unfold string_arms. repeat apply Forall_cons_2; [..|constructor].
  - writes.
  - never_reply.
  - writes.
  - writes.
  - writes.
  - writes.
  - never_reply.
  - writes.
  - never_reply.
  - writes.
  - writes.
  - writes.
  - writes.
Qed.

Lemma collection_classified : Forall arm_classified collection_arms.
Proof.
  unfold collection_arms. repeat apply Forall_cons_2; [..|constructor].
  - writes.
  - writes.
  - writes.
  - writes.
  - never_reply.
  - right; intros nm argv st cfg; apply never_keep; intros w. unfold lrange_cmd.
    do 2 (destruct (parse_i64_bytes _); [|done]). apply reply_never, items_or_err_never.
  - writes.
  - never_reply.
  - writes.
  - never_reply.
  - never_reply. by intros [].
  - never_reply. intros [|]; [by destruct (resp3 st)|done].
  - never_reply. by intros [].
  - never_reply.
  - writes.
  - writes.
  - never_reply. by intros [].
  - never_reply.
  - never_reply.
  - writes.
  - never_reply. by intros [[]|].
  - writes.
  - never_reply.
  - right; intros nm argv st cfg; apply never_keep; intros w. unfold zrange_cmd.
    do 2 (destruct (parse_i64_bytes _); [|done]). apply reply_never. by intros [].
Qed.

Lemma keyspace_classified : Forall arm_classified keyspace_arms.
Proof.
  unfold keyspace_arms. repeat apply Forall_cons_2; [..|constructor].
  - writes.
  - never_reply.
  - never_reply.
  - writes.
  - writes.
  - writes.
  - writes.
  - writes.
  - right; intros nm argv st cfg; apply never_keep; intros w. unfold ttl_cmd.
    destruct (negb _); [done|]. by apply reply_never.
  - right; intros nm argv st cfg; apply never_keep; intros w. unfold ttl_cmd.
    destruct (negb _); [done|]. by apply reply_never.
  - never_reply.
  - never_reply.
  - never_reply. by intros [].
Qed.

Lemma arms_classified a : a ∈ arms → arm_classified a.
Proof.
  revert a. apply Forall_forall. unfold arms.
  apply Forall_app; split; [apply introspection_classified|].
  apply Forall_app; split; [apply string_classified|].
  apply Forall_app; split; [apply collection_classified|apply keyspace_classified].
Qed.

(** Everything that is persisted is a write command. *)
Lemma dispatch_persist_write argv st cfg w :
  persist (dispatch argv st cfg w).2.2 = true → is_write_command (upper (argv !!! 0%nat)) = true.
Proof.
  unfold dispatch. destruct (find _ arms) as [a|] eqn:Hf; [|done].
  apply find_some in Hf as [Ha%list_elem_of_In Hm].
  destruct (arms_classified a Ha) as [Hw|Hn]; [|by rewrite Hn].
  intros _. unfold arm_matches in Hm. apply andb_true_iff in Hm as [Hm _].
  apply existsb_exists in Hm as (p & Hp%list_elem_of_In & ->%bool_decide_eq_true).
  rewrite forallb_forall in Hw. by apply Hw, list_elem_of_In.
Qed.

End write_commands.

(** ** Authentication is never lost *)

Section authentication.
Context {HO : HashOrder} {FT : FloatText}.

Definition arm_keeps_auth (a : Arm) : Prop :=
  ∀ nm argv st cfg w, authenticated st = true →
    authenticated (body a nm argv st cfg w).2.1 = true.

Lemma bind_keeps {A : Type} (m : M A) (f : A → Outcome) (st : ConnState) w :
  ((o ← m; mret (st, f o)) w).2.1 = st.
Proof. unfold mbind, M_bind. by destruct (m w). Qed.

Lemma keeps_cmd ps g f : arm_keeps_auth (mkArm ps g (cmd f)).
Proof. intros nm argv st cfg w Hst. unfold body, cmd. by rewrite (bind_keeps _ (fun o => o)). Qed.

Lemma keeps_bind {A : Type} ps g (m : bytes → list bytes → ConnState → Config → M A)
    (f : bytes → list bytes → ConnState → Config → A → Outcome) :
  arm_keeps_auth (mkArm ps g (fun nm argv st cfg => o ← m nm argv st cfg; mret (st, f nm argv st cfg o))).
Proof. intros nm argv st cfg w Hst. unfold body. by rewrite bind_keeps. Qed.

Lemma keeps_pure ps g f :
  (∀ argv st cfg, authenticated st = true → authenticated (f argv st cfg).1 = true) →
  arm_keeps_auth (mkArm ps g (pure_cmd f)).
Proof. intros Hf nm argv st cfg w Hst. by apply Hf. Qed.

Lemma hello_keeps argv st : authenticated (hello argv st).1 = authenticated st.
Proof.
  unfold hello. destruct (2 <=? length argv)%nat; [|done].
  destruct (parse_i64_bytes _) as [[|[[]|[]|]|]|]; try done.
Qed.

Lemma client_keeps argv st : authenticated (client_cmd argv st).1 = authenticated st.
Proof.
  unfold client_cmd. destruct (length argv <? 2)%nat; [done|]. cbv zeta.
  destruct (bool_decide _ && _); [done|]. do 3 (destruct (bool_decide _); [done|]). done.
Qed.

Lemma auth_keeps argv st cfg : authenticated st = true → authenticated (auth argv st cfg).1 = true.
Proof.
  intros Hst. unfold auth. destruct (if (length argv =? 2)%nat then _ else _); [|done].
  destruct (requirepass cfg); [|done]. by case_bool_decide.
Qed.

Lemma introspection_keeps : Forall arm_keeps_auth introspection_arms.
Proof.
  unfold introspection_arms. repeat apply Forall_cons_2; [..|constructor];
    try (apply keeps_pure; intros argv st cfg Hst);
    try (intros nm argv st cfg w Hst; unfold body; by rewrite bind_keeps); try done.
  - by rewrite hello_keeps.
  - by apply auth_keeps.
  - by rewrite client_keeps.
Qed.

Lemma arms_keep_auth a : a ∈ arms → arm_keeps_auth a.
Proof.
  revert a. apply Forall_forall. unfold arms.
  apply Forall_app; split; [apply introspection_keeps|].
  unfold string_arms, collection_arms, keyspace_arms.
  repeat apply Forall_cons_2; try constructor;
    first [apply keeps_cmd
          |intros nm argv st cfg w Hst; unfold body; by rewrite (bind_keeps _ (fun o => o))].
Qed.

Lemma dispatch_keeps_auth argv st cfg w :
  authenticated st = true → authenticated (dispatch argv st cfg w).2.1 = true.
Proof.
  intros Hst. unfold dispatch. destruct (find _ arms) as [a|] eqn:Hf; [|done].
  apply find_some in Hf as [Ha%list_elem_of_In _]. by apply arms_keep_auth.
Qed.

(** The commands a client may send before it authenticates use neither the
    store nor the clock. *)
Lemma dispatch_preauth argv st cfg w :
  is_preauth_ok (upper (argv !!! 0%nat)) = true → (dispatch argv st cfg w).1 = w.
Proof.
  unfold is_preauth_ok. intros Hp. unfold dispatch.
  apply existsb_exists in Hp as (p & Hp & ->%bool_decide_eq_true).
  repeat destruct Hp as [<-|Hp]; [..|done]; reflexivity.
Qed.

Lemma execute_keeps_auth w cfg st argv out :
  authenticated st = true → authenticated (execute w cfg st argv out).1.1.1.2 = true.
Proof.
  intros Hst. unfold execute. destruct (serve_fast st argv out) as [m|].
  - by destruct (m w) as [w' [out' b]].
  - pose proof (dispatch_keeps_auth argv st cfg w Hst) as Ha.
    by destruct (dispatch argv st cfg w) as [w' [st' o]].
Qed.

Lemma handle_command_keeps_auth raw sv st argv out :
  authenticated st = true → authenticated (handle_command raw sv st argv out).1.1.2 = true.
Proof.
  intros Hst. unfold handle_command. destruct (bool_decide _ || _); [by destruct raw|].
  destruct (negb (authenticated st) && _); [done|]. destruct (read_only sv && _); [done|].
  pose proof (execute_keeps_auth (world sv) (config sv) st argv out Hst) as He.
  destruct (execute _ _ _ _ _) as [[[[w' st'] out'] q] b].
  by destruct (if b && _ then _ else _) as [[sv2 out2] failed].
Qed.

End authentication.

(** ** One command *)

Section commands.
Context {HO : HashOrder} {FT : FloatText} (mm : Z) (Hmm : 0 <= mm).

Lemma read_str_get {R : Type} now st k (f : StrRead → R) :
  Store.read_str now st k f =
  prod_map id (fun r => f match r with
                          | Ok (Some v) => SRStr v
                          | Ok None => SRNone
                          | Err _ => SRWrongType
                          end) (Store.get now st k).
Proof.
  unfold Store.read_str, Store.get. rewrite on_shard_map. unfold Store.on_shard.
  assert (∀ s, Shard.read_str now s k f = prod_map id (fun r => f match r with
                          | Ok (Some v) => SRStr v
                          | Ok None => SRNone
                          | Err _ => SRWrongType
                          end) (Shard.get now s k)) as Hs.
  { intros s. unfold Shard.read_str, Shard.get. destruct (Shard.live s k now) as [s1 []]; simpl; [|done].
    by destruct (FlatMap.get _ k) as [[[] ?]|]. }
  by rewrite Hs.
Qed.

Lemma quiet_read_str {R : Type} k (f : StrRead → R) :
  quiet mm (call (fun now st => Store.read_str now st k f)) (fun _ => false).
Proof.
  intros w Hw. unfold call. rewrite read_str_get.
  pose proof (quiet_get mm Hmm k w Hw) as Hq. unfold call in Hq.
  by destruct (Store.get _ _ _).
Qed.

Lemma serve_fast_quiet st argv out m :
  serve_fast st argv out = Some m →
  quiet mm m (fun r => r.2) ∧
  ∀ w, (m w).2.2 = true → is_write_command (upper (argv !!! 0%nat)) = true.
Proof.
  unfold serve_fast. set (nm := upper (argv !!! 0%nat)).
  destruct (bool_decide (nm = lit "GET") && _).
  { intros [= <-]. split.
    - apply quiet_bind_clean; [apply quiet_read_str|intros; apply quiet_ret].
    - intros w. unfold mbind, M_bind. by destruct (call _ w). }
  destruct (bool_decide (nm = lit "SET") && _) eqn:Hs.
  { intros [= <-]. apply andb_true_iff in Hs as [->%bool_decide_eq_true _]. split; [|done].
    apply (quiet_bind mm _ _ (fun b => b)); [by apply quiet_set|intros; apply quiet_ret|done]. }
  destruct (bool_decide (nm = lit "PING") && _).
  { intros [= <-]. split; [apply quiet_ret|done]. }
  assert (∀ d, quiet mm (fast_incr (argv !!! 1%nat) d out) (fun r => r.2)) as Hincr.
  { intros d. apply (quiet_bind mm _ _ res_ok); [by apply quiet_incr_by|intros; apply quiet_ret|].
    by intros []. }
  destruct (bool_decide (nm = lit "INCR") && _) eqn:Hi.
  { intros [= <-]. apply andb_true_iff in Hi as [->%bool_decide_eq_true _]. done. }
  destruct (bool_decide (nm = lit "DECR") && _) eqn:Hd; [|done].
  intros [= <-]. apply andb_true_iff in Hd as [->%bool_decide_eq_true _]. done.
Qed.

(** What a command did to the store, and whether it says so. *)
Lemma execute_ok w cfg st argv out :
  reach mm (store w) →
  let '(w', st', out', q, is_write) := execute w cfg st argv out in
  reach mm (store w') ∧ clock w' = clock w ∧
  (authenticated st = true → authenticated st' = true) ∧
  (is_write = true → is_write_command (upper (argv !!! 0%nat)) = true) ∧
  (is_write = false → expires_only (clock w) ⟦store w⟧ ⟦store w'⟧).
Proof.
  intros Hw. unfold execute. destruct (serve_fast st argv out) as [m|] eqn:Hs.
  - destruct (serve_fast_quiet st argv out m Hs) as [Hq Hp]. specialize (Hq w Hw). specialize (Hp w).
    destruct (m w) as [w' [out' b]]. destruct Hq as (? & ? & _ & ?). by split_and!.
  - pose proof (dispatch_quiet mm Hmm argv st cfg w Hw) as Hq.
    pose proof (dispatch_persist_write argv st cfg w) as Hp.
    pose proof (dispatch_keeps_auth argv st cfg w) as Ha.
    destruct (dispatch argv st cfg w) as [w' [st' o]]. destruct Hq as (? & ? & _ & ?). by split_and!.
Qed.

Lemma log_write_world sv argv out : world (log_write sv argv out).1.1 = world sv.
Proof.
  unfold log_write. destruct (aof sv) as [file|]; [|by destruct (has_replicas sv)].
  destruct (aof_append file _ argv) as [file' [e|]]; by destruct (has_replicas _).
Qed.

(** The world after a command is the one [execute] leaves, when the gates let
    the command through. *)
Lemma handle_command_ok raw sv st argv out :
  reach mm (store (world sv)) →
  let '(sv', st', out', fl) := handle_command raw sv st argv out in
  reach mm (store (world sv')) ∧ clock (world sv') = clock (world sv) ∧
  config sv' = config sv ∧ read_only sv' = read_only sv ∧
  (authenticated st = true → authenticated st' = true) ∧
  (expires_only (clock (world sv)) ⟦store (world sv)⟧ ⟦store (world sv')⟧ ∨
   (read_only sv = false ∧ is_write_command (upper (argv !!! 0%nat)) = true)).
Proof.
  intros Hw. unfold handle_command. set (nm := upper (argv !!! 0%nat)).
  destruct (bool_decide (nm = lit "SYNC") || _).
  { destruct raw; [|split_and!; auto; left; apply expires_only_refl].
    unfold add_replica_with_snapshot. simpl.
    destruct (link_down sv _ _); simpl; (split_and!; auto; left; apply expires_only_refl). }
  destruct (negb (authenticated st) && _).
  { split_and!; auto. left. apply expires_only_refl. }
  destruct (read_only sv && is_write_command nm) eqn:Hro.
  { split_and!; auto. left. apply expires_only_refl. }
  pose proof (execute_ok (world sv) (config sv) st argv out Hw) as He.
  destruct (execute _ _ _ _ _) as [[[[w' st'] out'] q] is_write].
  destruct He as (Hw' & Hc & Ha & Hwr & Hex).
  set (sv1 := set_world sv w').
  assert (∀ sv2 out2 failed,
    (if is_write && (bool_decide (is_Some (aof sv1)) || has_replicas sv1)
     then log_write sv1 argv out' else (sv1, out', false)) = (sv2, out2, failed) →
    world sv2 = w' ∧ config sv2 = config sv ∧ read_only sv2 = read_only sv) as Hlog.
  { intros sv2 out2 failed. destruct (is_write && _); [|by intros [= <- <- <-]].
    intros Hl. pose proof (log_write_world sv1 argv out') as Hlw. rewrite Hl in Hlw.
    split; [done|]. revert Hl. unfold log_write.
    destruct (aof sv1) as [file|]; [destruct (aof_append file _ argv) as [file' [e|]]|];
      (destruct (has_replicas _); by intros [= <- <- <-]). }
  destruct (if is_write && _ then _ else _) as [[sv2 out2] failed].
  destruct (Hlog _ _ _ eq_refl) as (Hw2 & Hc2 & Hr2). rewrite Hw2.
  split_and!; [done|done|done|done|done|]. destruct is_write.
  - right. specialize (Hwr eq_refl). unfold nm in Hro. rewrite Hwr, andb_true_r in Hro. done.
  - left. by apply Hex.
Qed.

(** *** The log *)

(** An append that succeeds leaves everything in the file, the bytes an earlier
    fault left in the buffer first; one that fails leaves a beginning of it, and
    nothing that was in the file is lost. *)
Lemma write_out_spec file data fault :
  let '(file', rest, fault', e) := write_out file data fault in
  match e with
  | None => file' = file ++ data ∧ rest = [] ∧ (fault = None → fault' = None)
  | Some _ => file' ++ rest = file ++ data ∧ file `prefix_of` file' ∧ fault ≠ None
  end.
Proof.
  unfold write_out. destruct fault as [[n e]|]; [|done].
  destruct (n <? length data)%nat; [|done].
  rewrite <- app_assoc, take_drop. split_and!; [done|by eexists|done].
Qed.

Definition appended (a : Aof) (data : bytes) (a' : Aof) (fault : Fault) (e : option bytes) : Prop :=
  on_disk a `prefix_of` on_disk a' ∧
  on_disk a' ++ buffered a' `prefix_of` on_disk a ++ buffered a ++ data ∧
  (e = None → on_disk a' = on_disk a ++ buffered a ++ data ∧ buffered a' = []) ∧
  (fault = None → e = None).

Lemma aof_flush_ok a fault :
  let '(a', fault', e) := aof_flush a fault in
  appended a [] a' fault e ∧ on_disk a' ++ buffered a' = on_disk a ++ buffered a ∧
  (fault = None → fault' = None).
Proof.
  unfold aof_flush. pose proof (write_out_spec (on_disk a) (buffered a) fault) as Hw.
  destruct (write_out _ _ _) as [[[file rest] fault'] [e|]]; unfold appended; cbn [on_disk buffered].
  - destruct Hw as (Heq & Hp & Hf). rewrite app_nil_r, Heq. split_and!; by try intros ?.
  - destruct Hw as (-> & -> & Hf). rewrite !app_nil_r.
    split_and!; try done; by eexists.
Qed.

Lemma aof_write_all_ok a data fault :
  let '(a', fault', e) := aof_write_all a data fault in
  on_disk a `prefix_of` on_disk a' ∧
  on_disk a' ++ buffered a' `prefix_of` on_disk a ++ buffered a ++ data ∧
  (e = None → on_disk a' ++ buffered a' = on_disk a ++ buffered a ++ data) ∧
  (fault = None → e = None ∧ fault' = None).
Proof.
  unfold aof_write_all. destruct (zlen data <? _) eqn:Hsp.
  { cbn [on_disk buffered]. split_and!; done. }
  destruct (if _ <? zlen data then aof_flush a fault else (a, fault, None)) as [[a1 f1] e1] eqn:H1.
  assert (on_disk a `prefix_of` on_disk a1 ∧ on_disk a1 ++ buffered a1 = on_disk a ++ buffered a ∧
    (fault = None → e1 = None ∧ f1 = None) ∧
    (e1 = None → BUF_CAPACITY <= zlen data → buffered a1 = [])) as (Hp1 & Heq1 & Hf1 & Hb1).
  { pose proof (aof_flush_ok a fault) as Hf. destruct (_ <? zlen data) eqn:Hlt.
    - rewrite H1 in Hf. destruct Hf as ((? & _ & He & ?) & ? & ?). split_and!; [done..| |]; [auto|].
      intros Hn _. by apply He.
    - injection H1 as <- <- <-. split_and!; [done..|]. intros _ Hc. apply nil_length_inv.
      apply Z.ltb_ge in Hlt, Hsp. unfold zlen in *. lia. }
  destruct e1 as [e1|].
  { split_and!; [done| |done|by intros [? _]%Hf1]. rewrite Heq1, app_assoc. by eexists. }
  destruct (BUF_CAPACITY <=? zlen data) eqn:Hcap.
  - apply Z.leb_le in Hcap. specialize (Hb1 eq_refl Hcap). rewrite Hb1 in *. rewrite app_nil_r in Heq1.
    pose proof (write_out_spec (on_disk a1) data f1) as Hw. rewrite (app_assoc (on_disk a)), <- Heq1.
    destruct (write_out _ _ _) as [[[file rest] f2] [e2|]]; cbn [on_disk buffered]; rewrite app_nil_r.
    + destruct Hw as (Heq & Hp & Hf). split_and!; [by etrans|rewrite <- Heq; by eexists|done|].
      intros [_ ?]%Hf1. done.
    + destruct Hw as (-> & _ & Hf). split_and!; [etrans; [done|by eexists]|done|done|].
      intros [_ ?]%Hf1. auto.
  - cbn [on_disk buffered]. rewrite !(app_assoc (on_disk _)), Heq1. split_and!; naive_solver.
Qed.

Lemma aof_append_ok a fault argv :
  let '(a', e) := aof_append a fault argv in appended a (encode_command argv []) a' fault e.
Proof.
  unfold aof_append. pose proof (aof_write_all_ok a (encode_command argv []) fault) as Hw.
  destruct (aof_write_all a (encode_command argv []) fault) as [[a1 f1] [e1|]].
  - destruct Hw as (? & ? & _ & Hf). split_and!; [done..|]. by intros [? _]%Hf.
  - destruct Hw as (Hp & _ & Heq & Hf). specialize (Heq eq_refl).
    pose proof (aof_flush_ok a1 f1) as Hfl. destruct (aof_flush a1 f1) as [[a2 f2] e2].
    destruct Hfl as ((Hp2 & Hpre & He2 & Hf2) & Heq2 & _). rewrite app_nil_r in He2.
    split_and!; [by etrans|by rewrite Heq2, Heq|by rewrite <- Heq|].
    intros [_ ?]%Hf. auto.
Qed.

(** What one logged command does: one record more, or the connection ends. *)
Definition log_outcome (sv : Server) (argv : list bytes) (sv' : Server) (fl : Flow) : Prop :=
  match aof sv, aof sv' with
  | None, None => True
  | Some a, Some a' =>
      ∃ e, appended a (encode_command argv []) a' (aof_fault sv (tick (world sv'))) e ∧
           (e ≠ None → fl = Quit)
  | _, _ => False
  end.

Lemma log_write_aof sv argv out :
  let '(sv', _, failed) := log_write sv argv out in
  log_outcome sv argv sv' (if failed then Quit else Next) ∧
  replicas sv' = if has_replicas sv then replicas (propagate sv (encode_args [] argv)) else replicas sv.
Proof.
  pose proof (log_write_world sv argv out) as Hw. unfold log_write in *.
  destruct (aof sv) as [a|] eqn:Ha.
  - pose proof (aof_append_ok a (aof_fault sv (tick (world sv))) argv) as Happ.
    destruct (aof_append a (aof_fault sv (tick (world sv))) argv) as [a' e'].
    destruct e' as [e'|]; unfold has_replicas in *; cbn [replicas set_aof] in *;
      destruct (0 <? length (replicas sv))%nat; cbn [fst] in *;
      (split; [|done]); unfold log_outcome; rewrite Ha, Hw; cbn [aof set_aof propagate set_replicas];
      eexists; (split; [exact Happ|done]).
  - destruct (has_replicas sv); unfold log_outcome; rewrite Ha; by simpl; rewrite ?Ha.
Qed.

(** The gates of a command, and what happens behind them. *)
Lemma handle_command_log raw sv st argv out :
  reach mm (store (world sv)) →
  let '(sv', st', out', fl) := handle_command raw sv st argv out in
  (expires_only (clock (world sv)) ⟦store (world sv)⟧ ⟦store (world sv')⟧ ∧ aof sv' = aof sv) ∨
  (read_only sv = false ∧ is_write_command (upper (argv !!! 0%nat)) = true ∧
   (authenticated st = true ∨ is_preauth_ok (upper (argv !!! 0%nat)) = true) ∧
   log_outcome sv argv sv' fl).
Proof.
  intros Hw. unfold handle_command. set (nm := upper (argv !!! 0%nat)).
  destruct (bool_decide (nm = lit "SYNC") || _).
  { destruct raw; [|left; split; [apply expires_only_refl|done]].
    unfold add_replica_with_snapshot. simpl.
    destruct (link_down sv _ _); simpl; left; (split; [apply expires_only_refl|done]). }
  destruct (negb (authenticated st) && negb (is_preauth_ok nm)) eqn:Hau.
  { left. split; [apply expires_only_refl|done]. }
  destruct (read_only sv && is_write_command nm) eqn:Hro.
  { left. split; [apply expires_only_refl|done]. }
  pose proof (execute_ok (world sv) (config sv) st argv out Hw) as He.
  destruct (execute _ _ _ _ _) as [[[[w' st'] out'] q] is_write].
  destruct He as (Hw' & Hc & Ha & Hwr & Hex). destruct is_write; [|left; split; [by apply Hex|done]].
  specialize (Hwr eq_refl). fold nm in Hwr. rewrite Hwr, andb_true_r in Hro.
  assert (authenticated st = true ∨ is_preauth_ok nm = true) as Hgate.
  { destruct (authenticated st), (is_preauth_ok nm); auto. }
  rewrite andb_true_l. set (sv1 := set_world sv w').
  destruct (bool_decide (is_Some (aof sv1)) || has_replicas sv1) eqn:Hlog.
  - pose proof (log_write_aof sv1 argv out') as Hl. pose proof (log_write_world sv1 argv out') as Hlw.
    destruct (log_write sv1 argv out') as [[sv2 out2] failed]. destruct Hl as [Hl _].
    cbn [fst] in Hlw. unfold log_outcome in *. unfold sv1 in *; cbn [aof aof_fault world set_world] in *.
    right. split_and!; [done..|]. destruct (aof sv), (aof sv2); try done.
    destruct Hl as (e & Happ & Hq). exists e. split; [done|]. intros He.
    specialize (Hq He). destruct failed; [|done]. by rewrite orb_true_r.
  - right. split_and!; [done..|]. unfold log_outcome. unfold sv1 in *; cbn [aof set_world] in *.
    apply orb_false_iff in Hlog as [Hn%bool_decide_eq_false _].
    destruct (aof sv); [by destruct Hn|done].
Qed.

End commands.

(** ** Replies are appended to the output *)

Section output.
Context {HO : HashOrder} {FT : FloatText}.
Implicit Types (out : bytes).

Lemma encode_app (r : Reply) : ∀ (out : bytes) (b : bool), encode r out b = out ++ encode r [] b.
Proof.
  revert r. fix IH 1. intros r out b. destruct r as [s|s|n|[x|]|[items|]| |x|d|pairs]; try reflexivity.
  - cbn [encode]. set (go := fix go (items : list Reply) (out : bytes) : bytes := _).
    assert (∀ out1 out2, go items (out1 ++ out2) = out1 ++ go items out2) as Hgo.
    { induction items as [|it items IHi]; intros out1 out2; [reflexivity|]. simpl.
      rewrite (IH it (out1 ++ out2)), <- app_assoc, IHi. rewrite (IH it out2). reflexivity. }
    apply Hgo.
  - cbn [encode]. destruct b; reflexivity.
  - cbn [encode]. set (go := fix go (pairs : list (Reply * Reply)) (out : bytes) : bytes := _).
    assert (∀ out1 out2, go pairs (out1 ++ out2) = out1 ++ go pairs out2) as Hgo.
    { induction pairs as [|[k v] pairs IHi]; intros out1 out2; [reflexivity|]. simpl.
      rewrite (IH k (out1 ++ out2)), <- app_assoc. rewrite (IH v (out1 ++ _)).
      rewrite (IH k out2), (IH v (out2 ++ _)), <- !app_assoc. rewrite !IHi. reflexivity. }
    destruct b; apply Hgo.
Qed.

Lemma wrote_int_app out n : wrote out (Resp.write_int out n) = out ++ wrote [] (Resp.write_int [] n).
Proof.
  assert (∀ pre o v, Resp.write_uint (pre ++ o) v = (fun x => pre ++ x) <$> Resp.write_uint o v) as Hu.
  { intros pre o v. unfold Resp.write_uint. case_match; [by rewrite <- app_assoc|].
    destruct (Resp.uint_loop _ _ _ v) as [[tmp i]|]; simpl; [by rewrite <- app_assoc|done]. }
  unfold Resp.write_int. rewrite <- !app_assoc. simpl.
  destruct (n <? 0); rewrite Hu; destruct (Resp.write_uint _ _); simpl;
    rewrite ?app_nil_r, <- ?app_assoc; done.
Qed.

Lemma wrote_bulk_app out v : wrote out (Resp.write_bulk out v) = out ++ wrote [] (Resp.write_bulk [] v).
Proof.
  assert (∀ pre o v, Resp.write_uint (pre ++ o) v = (fun x => pre ++ x) <$> Resp.write_uint o v) as Hu.
  { intros pre o z. unfold Resp.write_uint. case_match; [by rewrite <- app_assoc|].
    destruct (Resp.uint_loop _ _ _ z) as [[tmp i]|]; simpl; [by rewrite <- app_assoc|done]. }
  unfold Resp.write_bulk. rewrite Hu. simpl. destruct (Resp.write_uint [x24] _); simpl;
    rewrite ?app_nil_r, <- ?app_assoc; done.
Qed.

(** The world a computation leaves does not depend on how its result is used. *)
Lemma call_map {R S : Type} (f : Z → Store.t → Store.t * R) (g : R → S) w :
  (r ← call f; mret (g r)) w = prod_map id g (call f w).
Proof. unfold mbind, M_bind. by destruct (call f w). Qed.

Definition with_out {A B C : Type} (out : bytes) (x : A * B * bytes * C) : A * B * bytes * C :=
  let '(a, b, o, c) := x in (a, b, out ++ o, c).

Lemma serve_fast_app st argv out w :
  match serve_fast st argv out, serve_fast st argv [] with
  | Some m, Some m0 => m w = let '(w', (o, b)) := m0 w in (w', (out ++ o, b))
  | None, None => True
  | _, _ => False
  end.
Proof.
  assert (∀ d, fast_incr (argv !!! 1%nat) d out w =
    let '(w', (o, b)) := fast_incr (argv !!! 1%nat) d [] w in (w', (out ++ o, b))) as Hincr.
  { intros d. unfold fast_incr. rewrite !call_map. destruct (call _ w) as [w' [v|e]]; simpl.
    - by rewrite wrote_int_app.
    - by case_bool_decide. }
  unfold serve_fast.
  destruct (bool_decide (_ = lit "GET") && _).
  { rewrite !call_map. unfold call. rewrite !read_str_get.
    destruct (Store.get _ _ _) as [s' [[v|]|e]]; simpl; [by rewrite wrote_bulk_app| |done].
    unfold Resp.write_null. by destruct (resp3 st). }
  destruct (bool_decide (_ = lit "SET") && _).
  { rewrite !call_map. by destruct (call _ w). }
  destruct (bool_decide (_ = lit "PING") && _); [done|].
  destruct (bool_decide (_ = lit "INCR") && _); [apply Hincr|].
  destruct (bool_decide (_ = lit "DECR") && _); [apply Hincr|done].
Qed.

Lemma execute_app w cfg st argv out :
  execute w cfg st argv out =
  let '(w', st', o, q, b) := execute w cfg st argv [] in (w', st', out ++ o, q, b).
Proof.
  unfold execute. pose proof (serve_fast_app st argv out w) as Hf.
  destruct (serve_fast st argv out) as [m|], (serve_fast st argv []) as [m0|]; [|done..|].
  - rewrite Hf. by destruct (m0 w) as [w' [o b]].
  - destruct (dispatch argv st cfg w) as [w' [st' o]]. by rewrite encode_app.
Qed.

Lemma log_write_app sv argv out :
  log_write sv argv out = let '(sv', o, f) := log_write sv argv [] in (sv', out ++ o, f).
Proof.
  unfold log_write. destruct (aof sv) as [file|]; [|by rewrite app_nil_r].
  destruct (aof_append file _ argv) as [file' [e|]]; [done|by rewrite app_nil_r].
Qed.

Lemma handle_command_app raw sv st argv out :
  handle_command raw sv st argv out = with_out out (handle_command raw sv st argv []).
Proof.
  unfold handle_command. destruct (bool_decide _ || _).
  { destruct raw; [|done]. simpl. by rewrite app_nil_r. }
  destruct (negb _ && _); [done|]. destruct (read_only sv && _); [done|].
  rewrite execute_app. destruct (execute _ _ _ _ []) as [[[[w' st'] o] q] b].
  destruct (b && _); [|done]. rewrite log_write_app.
  destruct (log_write (set_world sv w') argv o) as [[sv2 o2] f2] eqn:Hl.
  rewrite log_write_app in Hl. destruct (log_write (set_world sv w') argv []) as [[sv1 o1] f1].
  injection Hl as <- <- <-. simpl. by rewrite <- app_assoc.
Qed.

End output.

(** ** The input loop *)

Section input.
Context {HO : HashOrder} {FT : FloatText}.
Implicit Types (buf rest out : bytes) (fuel : nat).

(** The loop on what is left of the buffer, with the owned parser; the third
    part of the result is what stays in the buffer. *)
Fixpoint serve_rest (fuel : nat) (raw : bool) (sv : Server) (st : ConnState) (rest out : bytes)
    : Server * ConnState * bytes * bytes * Flow :=
  match fuel with
  | O => (sv, st, rest, out, Next)
  | S fuel =>
      match Resp.parse_command rest with
      | Incomplete => (sv, st, rest, out, Next)
      | Failed e =>
          (sv, st, rest, Resp.write_error out (lit "ERR Protocol error: " ++ error_text e), Quit)
      | Complete (argv, consumed) =>
          match argv with
          | [] => serve_rest fuel raw sv st (drop consumed rest) out
          | _ =>
              let '(sv, st, out, flow) := handle_command raw sv st argv out in
              match flow with
              | Next => serve_rest fuel raw sv st (drop consumed rest) out
              | _ => (sv, st, drop consumed rest, out, flow)
              end
          end
      end
  end.

Lemma slice_drop buf base a b : Resp.slice buf (base + a) (base + b) = Resp.slice (drop base buf) a b.
Proof. unfold Resp.slice. rewrite drop_drop. f_equal. lia. Qed.

Lemma input_loop_rest fuel raw sv st buf cursor out :
  serve_rest fuel raw sv st (drop cursor buf) out =
  let '(sv', st', cursor', out', fl) := input_loop fuel raw sv st buf cursor out in
  (sv', st', drop cursor' buf, out', fl).
Proof.
  revert sv st cursor out. induction fuel as [|fuel IH]; intros sv st cursor out; [done|].
  cbn [serve_rest input_loop]. rewrite <- (parse_ranges_owned (drop cursor buf) []). unfold owned.
  destruct (Resp.parse_command_ranges (drop cursor buf) []) as [ranges [e| |consumed]]; cbn [fst snd];
    [done..|].
  rewrite drop_drop. destruct ranges as [|r ranges]; [apply IH|].
  assert (range_slice (drop cursor buf) <$> r :: ranges =
          (fun '(o, l) => Resp.slice buf (cursor + o) (cursor + o + l)) <$> r :: ranges) as ->.
  { apply list_fmap_ext. intros i [o l] _. unfold range_slice. cbn [fst snd].
    rewrite <- Nat.add_assoc. symmetry. apply slice_drop. }
  destruct ((fun '(o, l) => _) <$> r :: ranges) as [|a argv] eqn:Hargv; [done|].
  destruct (handle_command raw sv st (a :: argv) out) as [[[sv1 st1] out1] []]; [apply IH|done..].
Qed.

(** A turn per byte is enough. *)
Lemma serve_rest_fuel fuel raw sv st rest out :
  (length rest < fuel)%nat →
  serve_rest fuel raw sv st rest out = serve_rest (S (length rest)) raw sv st rest out.
Proof.
  revert sv st rest out. induction fuel as [fuel IH] using lt_wf_ind. intros sv st rest out Hf.
  destruct fuel as [|fuel]; [lia|]. cbn [serve_rest].
  destruct (Resp.parse_command rest) as [e| |[argv consumed]] eqn:Hp; [done..|].
  apply parse_command_bounds in Hp.
  assert (∀ sv st out, serve_rest fuel raw sv st (drop consumed rest) out =
                       serve_rest (length rest) raw sv st (drop consumed rest) out) as Heq.
  { intros sv' st' out'. rewrite (IH fuel); [|lia|rewrite length_drop; lia].
    destruct (decide (fuel = length rest)) as [->|Hne].
    - rewrite (IH (length rest)); [done|lia|rewrite length_drop; lia].
    - rewrite (IH (length rest)); [done|lia|rewrite length_drop; lia]. }
  destruct argv as [|a argv]; [apply Heq|].
  destruct (handle_command raw sv st (a :: argv) out) as [[[sv1 st1] out1] []]; [apply Heq|done..].
Qed.

(** The output so far is only a prefix. *)
Lemma serve_rest_app fuel raw sv st rest out :
  serve_rest fuel raw sv st rest out =
  let '(sv', st', rest', o, fl) := serve_rest fuel raw sv st rest [] in (sv', st', rest', out ++ o, fl).
Proof.
  revert sv st rest out. induction fuel as [|fuel IH]; intros sv st rest out; cbn [serve_rest].
  { by rewrite app_nil_r. }
  destruct (Resp.parse_command rest) as [e| |[argv consumed]]; [done|by rewrite app_nil_r|].
  destruct argv as [|a argv]; [apply IH|]. rewrite handle_command_app.
  destruct (handle_command raw sv st (a :: argv) []) as [[[sv1 st1] out1] []]; simpl; [|done..].
  rewrite IH, (IH _ _ _ out1).
  destruct (serve_rest fuel raw sv1 st1 (drop consumed rest) []) as [[[[? ?] ?] ?] ?].
  by rewrite app_assoc.
Qed.

(** More input: what was served stays served, and the rest is served as if it
    had arrived with the new bytes. *)
Lemma serve_rest_more fuel raw sv st rest out more sv1 st1 rest1 out1 :
  (length rest < fuel)%nat →
  serve_rest fuel raw sv st rest out = (sv1, st1, rest1, out1, Next) →
  serve_rest (S (length (rest ++ more))) raw sv st (rest ++ more) out =
  serve_rest (S (length (rest1 ++ more))) raw sv1 st1 (rest1 ++ more) out1.
Proof.
  revert sv st rest out. induction fuel as [fuel IH] using lt_wf_ind. intros sv st rest out Hf.
  destruct fuel as [|fuel]; [lia|]. cbn [serve_rest].
  destruct (Resp.parse_command rest) as [e| |[argv consumed]] eqn:Hp; [done|by intros [= <- <- <- <-]|].
  pose proof (parse_command_bounds _ _ _ Hp) as Hb.
  assert (∀ sv st out, serve_rest fuel raw sv st (drop consumed rest) out = (sv1, st1, rest1, out1, Next) →
    serve_rest (length (rest ++ more)) raw sv st (drop consumed (rest ++ more)) out =
    serve_rest (S (length (rest1 ++ more))) raw sv1 st1 (rest1 ++ more) out1) as Hnext.
  { intros sv' st' out' Hs. rewrite drop_app_le by lia.
    rewrite serve_rest_fuel by (rewrite !length_app, length_drop; lia).
    apply (IH fuel); [lia|rewrite length_drop; lia|done]. }
  rewrite (parse_command_complete_app _ more _ Hp).
  destruct argv as [|a argv]; [apply Hnext|].
  destruct (handle_command raw sv st (a :: argv) out) as [[[sv2 st2] out2] []]; [apply Hnext|done..].
Qed.

Lemma receive_rest raw sv c chunk :
  flow c = Next →
  receive raw sv c chunk =
  let '(sv', st', rest, o, fl) :=
    serve_rest (S (length (inbuf c ++ chunk))) raw sv (cstate c) (inbuf c ++ chunk) [] in
  (sv', mkConnection st' rest (sent c ++ o) fl).
Proof.
  intros Hfl. unfold receive. rewrite Hfl.
  pose proof (input_loop_rest (S (length (inbuf c ++ chunk))) raw sv (cstate c)
    (inbuf c ++ chunk) 0 []) as Hr. rewrite drop_0 in Hr. rewrite Hr.
  by destruct (input_loop _ raw sv (cstate c) (inbuf c ++ chunk) 0 []) as [[[[? ?] ?] ?] ?].
Qed.

Lemma receive_app raw sv c a b :
  flow (receive raw sv c a).2 = Next →
  receive raw (receive raw sv c a).1 (receive raw sv c a).2 b = receive raw sv c (a ++ b).
Proof.
  destruct (flow c) eqn:Hfl; [|unfold receive; rewrite Hfl; simpl; rewrite Hfl; done..].
  rewrite (receive_rest raw sv c a), (receive_rest raw sv c (a ++ b)) by done.
  destruct (serve_rest (S (length (inbuf c ++ a))) raw sv (cstate c) (inbuf c ++ a) [])
    as [[[[sv1 st1] rest1] o1] fl1] eqn:Hs. cbn [fst snd flow]. intros ->.
  rewrite receive_rest by done. cbn [inbuf cstate sent]. rewrite (app_assoc (inbuf c) a b).
  rewrite (serve_rest_more _ raw sv (cstate c) (inbuf c ++ a) [] b sv1 st1 rest1 o1
    (Nat.lt_succ_diag_r _) Hs).
  rewrite (serve_rest_app _ raw sv1 st1 (rest1 ++ b) o1).
  destruct (serve_rest _ raw sv1 st1 (rest1 ++ b) []) as [[[[? ?] ?] ?] ?]. by rewrite app_assoc.
Qed.

(** *** Invariants of a connection *)

(** A property that every command keeps is kept by any input. *)
Lemma serve_rest_inv (P : Server → ConnState → Prop) fuel raw sv st rest out :
  (∀ sv st argv out, P sv st →
     let '(sv', st', _, _) := handle_command raw sv st argv out in P sv' st') →
  P sv st → let '(sv', st', _, _, _) := serve_rest fuel raw sv st rest out in P sv' st'.
Proof.
  intros Hstep. revert sv st rest out. induction fuel as [|fuel IH]; intros sv st rest out HP; [done|].
  cbn [serve_rest]. destruct (Resp.parse_command rest) as [e| |[argv consumed]]; [done..|].
  destruct argv as [|a argv]; [by apply IH|]. specialize (Hstep sv st (a :: argv) out HP).
  destruct (handle_command raw sv st (a :: argv) out) as [[[sv1 st1] out1] []]; [by apply IH|done..].
Qed.

Definition receive_all (raw : bool) (sv : Server) (c : Conn) (chunks : list bytes) : Server * Conn :=
  foldl (fun '(sv, c) chunk => receive raw sv c chunk) (sv, c) chunks.

Lemma receive_all_inv (P : Server → ConnState → Prop) raw sv c chunks :
  (∀ sv st argv out, P sv st →
     let '(sv', st', _, _) := handle_command raw sv st argv out in P sv' st') →
  P sv (cstate c) →
  let '(sv', c') := receive_all raw sv c chunks in P sv' (cstate c').
Proof.
  intros Hstep. unfold receive_all. revert sv c. induction chunks as [|chunk chunks IH]; intros sv c HP; [done|].
  cbn [foldl]. destruct (flow c) eqn:Hfl.
  - rewrite receive_rest by done.
    pose proof (serve_rest_inv P (S (length (inbuf c ++ chunk))) raw sv (cstate c)
      (inbuf c ++ chunk) [] Hstep HP) as Hs.
    destruct (serve_rest _ raw sv (cstate c) (inbuf c ++ chunk) []) as [[[[? ?] ?] ?] ?]. by apply IH.
  - unfold receive. rewrite Hfl. by apply IH.
  - unfold receive. rewrite Hfl. by apply IH.
  - unfold receive. rewrite Hfl. by apply IH.
Qed.

End input.
