(* ===== verification/ConnProps.v ===== *)
(** * Properties of connections

    What a connection may and may not do to the server, whatever bytes its
    client sends. *)
From S2P Require Import Prelude Std Map Eviction Value Shard Spec ShardOk Store StoreOk StoreProps.
From S2P Require Import Resp RespOk Reply RespProps Dump Config Commands CommandsOk Persistence Conn ConnOk.
Local Open Scope Z_scope.

(** ** The gate of authentication *)

Section auth.
Context {HO : HashOrder} {FT : FloatText}.
Implicit Types (sv : Server) (c : Conn) (st : ConnState) (out : bytes).

(** [AUTH password] or [AUTH user password]. *)
Definition right_password (pw : bytes) (argv : list bytes) : bool :=
  bool_decide (upper (argv !!! 0%nat) = lit "AUTH") &&
  match argv with
  | [_; p] | [_; _; p] => bool_decide (p = pw)
  | _ => false
  end.

Lemma auth_spec argv st cfg pw :
  authenticated st = false → requirepass cfg = Some pw →
  authenticated (auth argv st cfg).1 =
  match argv with [_; p] | [_; _; p] => bool_decide (p = pw) | _ => false end.
Proof.
  intros Hst Hpw. unfold auth. rewrite Hpw.
  destruct argv as [|a [|b [|d [|]]]]; simpl; try done; by case_bool_decide.
Qed.

(** The four commands a client may send before it authenticates. *)
Lemma preauth_inv nm :
  is_preauth_ok nm = true → nm = lit "AUTH" ∨ nm = lit "HELLO" ∨ nm = lit "QUIT" ∨ nm = lit "PING".
Proof.
  unfold is_preauth_ok. intros (p & Hp & ->%bool_decide_eq_true)%existsb_exists.
  repeat destruct Hp as [<-|Hp]; auto. done.
Qed.

Lemma execute_preauth w cfg st argv out pw :
  authenticated st = false → requirepass cfg = Some pw →
  is_preauth_ok (upper (argv !!! 0%nat)) = true →
  let '(w', st', _, _, is_write) := execute w cfg st argv out in
  w' = w ∧ is_write = false ∧ authenticated st' = right_password pw argv.
Proof.
  intros Hst Hpw Hp. pose proof (preauth_inv _ Hp) as Hnm. unfold right_password, execute.
  destruct (serve_fast st argv out) as [m|] eqn:Hm.
  - revert Hm. unfold serve_fast.
    destruct Hnm as [->|[->|[->| ->]]]; simpl; try done.
    destruct (length argv =? 1)%nat; [|done]. by intros [= <-].
  - pose proof (dispatch_preauth argv st cfg w Hp) as Hw.
    pose proof (dispatch_persist_write argv st cfg w) as Hpw'.
    pose proof (auth_spec argv st cfg pw Hst Hpw) as Hauth.
    pose proof (hello_keeps argv st) as Hhello.
    assert (authenticated (dispatch argv st cfg w).2.1 =
      bool_decide (upper (argv !!! 0%nat) = lit "AUTH") &&
      match argv with [_; p] | [_; _; p] => bool_decide (p = pw) | _ => false end) as Hau.
    { unfold dispatch. destruct Hnm as [->|[->|[->| ->]]].
      - exact Hauth.
      - etransitivity; [exact Hhello|exact Hst].
      - exact Hst.
      - exact Hst. }
    destruct (dispatch argv st cfg w) as [w' [st' o]]. cbn [fst snd] in *.
    split_and!; [done| |done]. destruct (persist o); [|done].
    specialize (Hpw' eq_refl). by destruct Hnm as [Hn|[Hn|[Hn|Hn]]]; rewrite Hn in Hpw'.
Qed.

Lemma handle_command_auth raw sv st argv out pw :
  authenticated st = false → requirepass (config sv) = Some pw →
  let '(sv', st', _, _) := handle_command raw sv st argv out in
  store (world sv') = store (world sv) ∧ aof sv' = aof sv ∧ config sv' = config sv ∧
  authenticated st' = right_password pw argv.
Proof.
  intros Hst Hpw. unfold handle_command. set (nm := upper (argv !!! 0%nat)).
  destruct (bool_decide (nm = lit "SYNC") || bool_decide (nm = lit "PSYNC")) eqn:Hs.
  { assert (right_password pw argv = false) as ->.
    { unfold right_password. fold nm. apply orb_true_iff in Hs.
      by destruct Hs as [->%bool_decide_eq_true| ->%bool_decide_eq_true]. }
    destruct raw; [|done]. unfold add_replica_with_snapshot. by destruct (link_down _ _ _). }
  rewrite Hst. cbn [negb]. destruct (is_preauth_ok nm) eqn:Hp; cbn [andb negb].
  - pose proof (preauth_inv _ Hp) as Hnm.
    replace (is_write_command nm) with false by (by destruct Hnm as [->|[->|[->| ->]]]).
    rewrite andb_false_r.
    pose proof (execute_preauth (world sv) (config sv) st argv out pw Hst Hpw Hp) as He.
    destruct (execute _ _ _ _ _) as [[[[w' st'] out'] q] b]. destruct He as (-> & -> & He). done.
  - split_and!; [done..|]. rewrite Hst. unfold right_password. fold nm.
    destruct (decide (nm = lit "AUTH")) as [->|Hne]; [done|].
    by rewrite bool_decide_eq_false_2.
Qed.

(** A client that has not given the password changes nothing: as long as
    the connection is not authenticated, whatever bytes arrived, the data and
    the append-only file are those of the start. *)
Theorem conn_auth_gate raw sv c chunks pw :
  requirepass (config sv) = Some pw →
  let '(sv', c') := receive_all raw sv c chunks in
  authenticated (cstate c') = false →
  store (world sv') = store (world sv) ∧ aof sv' = aof sv.
Proof.
  intros Hpw.
  pose proof (receive_all_inv (fun sv' st' => authenticated st' = true ∨
    (store (world sv') = store (world sv) ∧ aof sv' = aof sv ∧ config sv' = config sv))
    raw sv c chunks) as Hinv.
  destruct (receive_all raw sv c chunks) as [sv' c']. intros Hc'.
  destruct Hinv as [Ht|(? & ? & _)]; [|by right|congruence|done].
  clear sv' c' Hc'. intros sv1 st argv out HP. destruct (authenticated st) eqn:Hst.
  - pose proof (handle_command_keeps_auth raw sv1 st argv out Hst) as Hk.
    destruct (handle_command raw sv1 st argv out) as [[[sv2 st2] out2] fl2]. by left.
  - destruct HP as [|(Hs & Ha & Hc)]; [done|].
    pose proof (handle_command_auth raw sv1 st argv out pw Hst ltac:(congruence)) as Hk.
    destruct (handle_command raw sv1 st argv out) as [[[sv2 st2] out2] fl2].
    destruct Hk as (? & ? & ? & _). right. split_and!; congruence.
Qed.

(** One command authenticates a connection exactly when it is [AUTH] with
    the configured password, with or without a user name. *)
Theorem conn_auth_password raw sv st argv out pw :
  authenticated st = false → requirepass (config sv) = Some pw →
  authenticated (handle_command raw sv st argv out).1.1.2 = right_password pw argv.
Proof.
  intros Hst Hpw. pose proof (handle_command_auth raw sv st argv out pw Hst Hpw) as Hk.
  destruct (handle_command raw sv st argv out) as [[[sv2 st2] out2] fl2]. by destruct Hk as (_ & _ & _ & ?).
Qed.

End auth.

(** ** Serving the input *)

Section serving.
Context {HO : HashOrder} {FT : FloatText}.
Implicit Types (sv : Server) (c : Conn) (st : ConnState) (out rest : bytes).

(** Commands served one after another, until one ends the connection. *)
Fixpoint serve_all (raw : bool) (sv : Server) (st : ConnState) (cmds : list (list bytes)) (out : bytes)
    : Server * ConnState * bytes * Flow :=
  match cmds with
  | [] => (sv, st, out, Next)
  | argv :: cmds =>
      let '(sv, st, out, fl) := handle_command raw sv st argv out in
      match fl with
      | Next => serve_all raw sv st cmds out
      | _ => (sv, st, out, fl)
      end
  end.

Definition encoded (cmds : list (list bytes)) : bytes := concat (Resp.write_cmd [] <$> cmds).

(** A command the parser accepts. *)
Definition sendable (argv : list bytes) : Prop := argv ≠ [] ∧ command_fits argv.

Lemma serve_rest_encoded raw sv st cmds rest out fuel :
  Forall sendable cmds → Resp.parse_command rest = Incomplete →
  (length (encoded cmds ++ rest) < fuel)%nat →
  let '(sv', st', out', fl) := serve_all raw sv st cmds out in
  let '(sv2, st2, rest2, out2, fl2) := serve_rest fuel raw sv st (encoded cmds ++ rest) out in
  sv2 = sv' ∧ st2 = st' ∧ out2 = out' ∧ fl2 = fl ∧ (fl = Next → rest2 = rest).
Proof.
  intros Hc Hrest. revert sv st out fuel.
  induction Hc as [|argv cmds [Hne Hfit] Hc IH]; intros sv st out fuel Hf;
    (destruct fuel as [|fuel]; [lia|]); cbn [serve_all serve_rest].
  - change (encoded [] ++ rest) with rest. by rewrite Hrest.
  - change (encoded (argv :: cmds)) with (Resp.write_cmd [] argv ++ encoded cmds) in *.
    rewrite <- app_assoc in *. rewrite parse_encoded by done.
    destruct argv as [|a argv]; [done|]. rewrite drop_app_length.
    pose proof (parse_command_bounds _ _ _ (parse_encoded (a :: argv) (encoded cmds ++ rest) Hfit)) as Hb.
    rewrite length_app in Hf.
    destruct (handle_command raw sv st (a :: argv) out) as [[[sv1 st1] out1] []]; [|done..].
    apply IH. lia.
Qed.

(** pipelined commands are served in order.  When the encodings of any
    commands arrive, followed by an unfinished one, the server, the connection
    and the bytes sent are those of serving the commands one at a time, and the
    unfinished one stays in the buffer. *)
Theorem conn_pipeline raw sv c cmds next n :
  flow c = Next → inbuf c = [] → Forall sendable cmds →
  command_fits next → (n < length (Resp.write_cmd [] next))%nat →
  let torn := take n (Resp.write_cmd [] next) in
  let '(sv', st', out, fl) := serve_all raw sv (cstate c) cmds [] in
  let '(sv2, c2) := receive raw sv c (encoded cmds ++ torn) in
  sv2 = sv' ∧ cstate c2 = st' ∧ sent c2 = sent c ++ out ∧ flow c2 = fl ∧
  (fl = Next → inbuf c2 = torn).
Proof.
  intros Hfl Hin Hc Hfit Hn torn.
  pose proof (serve_rest_encoded raw sv (cstate c) cmds torn []
    (S (length (encoded cmds ++ torn))) Hc (parse_encoded_prefix next n Hfit Hn) ltac:(lia)) as Hs.
  rewrite receive_rest by done. rewrite Hin, app_nil_l.
  destruct (serve_all raw sv (cstate c) cmds []) as [[[sv' st'] out] fl].
  destruct (serve_rest _ raw sv (cstate c) (encoded cmds ++ torn) []) as [[[[sv2 st2] rest2] out2] fl2].
  by destruct Hs as (-> & -> & -> & -> & Hs).
Qed.

Lemma receive_nothing raw sv c :
  flow c = Next → Resp.parse_command (inbuf c) = Incomplete → receive raw sv c [] = (sv, c).
Proof.
  intros Hfl Hp. rewrite receive_rest by done. rewrite app_nil_r. cbn [serve_rest].
  rewrite Hp, app_nil_r. destruct c. simpl in *. by subst.
Qed.

Lemma receive_all_concat raw sv c chunks :
  flow c = Next → Resp.parse_command (inbuf c) = Incomplete →
  flow (receive_all raw sv c chunks).2 = Next →
  receive_all raw sv c chunks = receive raw sv c (concat chunks).
Proof.
  intros Hfl Hp. induction chunks as [|chunk chunks IH] using rev_ind; intros Hend.
  { cbn [concat]. by rewrite receive_nothing. }
  unfold receive_all in *. rewrite foldl_app in *. cbn [foldl] in *.
  fold (receive_all raw sv c chunks) in *.
  assert (flow (receive_all raw sv c chunks).2 = Next) as Hmid.
  { destruct (receive_all raw sv c chunks) as [sv1 c1] eqn:H1. unfold receive in Hend.
    simpl. by destruct (flow c1) eqn:H2; [|simpl in Hend; congruence..]. }
  rewrite (IH Hmid) in Hmid |- *. rewrite concat_app. cbn [concat]. rewrite app_nil_r.
  rewrite <- (receive_app raw sv c (concat chunks) chunk Hmid). by destruct (receive raw sv c (concat chunks)).
Qed.

(** it does not matter how the input is cut into chunks.  For a connection
    that is still open after the last one, serving the chunks as they arrive
    gives the server, the state, the replies and the buffer of serving all the
    bytes at once. *)
Theorem conn_chunking raw sv id chunks :
  flow (receive_all raw sv (accept sv id) chunks).2 = Next →
  receive_all raw sv (accept sv id) chunks = receive raw sv (accept sv id) (concat chunks).
Proof. by apply receive_all_concat. Qed.

(** C21: clients never modify a read-only replica.  Whatever bytes any
    connection sends, the only entries that can disappear are expired ones, no
    entry is added or changed, and nothing is logged. *)
Theorem conn_read_only_replica mm raw sv c chunks :
  0 <= mm → reach mm (store (world sv)) → read_only sv = true →
  let '(sv', c') := receive_all raw sv c chunks in
  expires_only (clock (world sv)) ⟦store (world sv)⟧ ⟦store (world sv')⟧ ∧ aof sv' = aof sv.
Proof.
  intros Hmm Hr Hro.
  pose proof (receive_all_inv (fun sv' _ =>
    reach mm (store (world sv')) ∧ read_only sv' = true ∧ clock (world sv') = clock (world sv) ∧
    expires_only (clock (world sv)) ⟦store (world sv)⟧ ⟦store (world sv')⟧ ∧ aof sv' = aof sv)
    raw sv c chunks) as Hinv.
  destruct (receive_all raw sv c chunks) as [sv' c'].
  destruct Hinv as (_ & _ & _ & ? & ?); [|split_and!; [done..|apply expires_only_refl|done]|done].
  intros sv1 st argv out (Hr1 & Hro1 & Hc1 & He1 & Ha1).
  pose proof (handle_command_ok mm Hmm raw sv1 st argv out Hr1) as Hok.
  pose proof (handle_command_log mm Hmm raw sv1 st argv out Hr1) as Hlog.
  destruct (handle_command raw sv1 st argv out) as [[[sv2 st2] out2] fl2].
  destruct Hok as (? & ? & ? & ? & _). destruct Hlog as [[He2 Ha2]|[? _]]; [|congruence].
  split_and!; [done|congruence..| |congruence].
  eapply expires_only_trans; [exact He1|]. by rewrite <- Hc1.
Qed.

(** C20: the log misses no change.  A command either leaves the data as it is,
    expired entries apart, and the log too, or it is one of the write commands,
    let through by both gates, and its record is appended to the log after
    whatever a fault of the disk left unwritten; when the disk fails, the file
    still holds all it held, and the connection is closed. *)
Theorem conn_logs_every_change mm raw sv st argv out :
  0 <= mm → reach mm (store (world sv)) →
  let '(sv', st', out', fl) := handle_command raw sv st argv out in
  reach mm (store (world sv')) ∧
  ((expires_only (clock (world sv)) ⟦store (world sv)⟧ ⟦store (world sv')⟧ ∧ aof sv' = aof sv) ∨
   (read_only sv = false ∧ is_write_command (upper (argv !!! 0%nat)) = true ∧
    (authenticated st = true ∨ is_preauth_ok (upper (argv !!! 0%nat)) = true) ∧
    log_outcome sv argv sv' fl)).
Proof.
  intros Hmm Hr. pose proof (handle_command_log mm Hmm raw sv st argv out Hr) as Hlog.
  pose proof (handle_command_ok mm Hmm raw sv st argv out Hr) as Hok.
  destruct (handle_command raw sv st argv out) as [[[sv2 st2] out2] fl2].
  by destruct Hok as (? & _).
Qed.

End serving.

(** ** The fast path *)

Section fast.
Context {HO : HashOrder} {FT : FloatText}.
Implicit Types (w : World) (st : ConnState) (out : bytes).

(** Every stored string has a length that fits a machine word. *)
Definition strings_short (m : Db.t) : Prop :=
  ∀ k v x, m !! k = Some (mkEntry (VStr v) x) → zlen v < 2 ^ 64.

Lemma get_short mm now s k v :
  0 <= mm → reach mm s → strings_short ⟦s⟧ → (Store.get now s k).2 = Ok (Some v) → zlen v < 2 ^ 64.
Proof.
  intros Hmm [Hs _]%reach_ok Hsh Hg; [|done].
  destruct (store_exec_ok now s (OGet k) Hs I) as (Hr & _). cbn [Store.exec Db.exec snd] in Hr.
  destruct (Store.get now s k) as [s' r]. cbn [prod_map snd] in *. subst r.
  injection Hr as Hr. destruct (Db.find now ⟦s⟧ k) as [[[] x]|] eqn:Hf; try done.
  injection Hr as ->. apply Db.find_Some in Hf as [Hf _]. by eapply Hsh.
Qed.

Lemma incr_by_in_i64 mm now s k d v :
  0 <= mm → reach mm s → (Store.incr_by now s k d).2 = Ok v → in_i64 v = true.
Proof.
  intros Hmm [Hs _]%reach_ok Hg; [|done].
  destruct (store_exec_ok now s (OIncrBy k d) Hs I) as (Hr & _). cbn [Store.exec Db.exec] in Hr.
  destruct (Store.incr_by now s k d) as [s' r]. cbn [prod_map snd] in *. subst r.
  unfold Db.incr_by, Db.rewrite_str in Hr. repeat case_match; simplify_eq/=; done.
Qed.

(** The fast path and [dispatch] do the same; the bytes they write are the same
    when the strings are not too long. *)
Definition same_service (w : World) (st : ConnState) (out : bytes)
    (fast : World * (bytes * bool)) (slow : World * (ConnState * Outcome)) : Prop :=
  let '(w1, (out1, is_write)) := fast in
  let '(w2, (st2, o)) := slow in
  store w1 = store w2 ∧ st2 = st ∧ is_write = persist o ∧ quit o = false ∧
  (strings_short ⟦store w⟧ → out1 = encode (reply o) out (resp3 st)).

Lemma fast_get_ok mm w cfg st argv out :
  0 <= mm → reach mm (store w) →
  upper (argv !!! 0%nat) = lit "GET" → length argv = 2%nat →
  same_service w st out
    ((out ← call (fun now s => Store.read_str now s (argv !!! 1%nat) (fun r =>
                        match r with
                        | SRStr b => wrote out (Resp.write_bulk out b)
                        | SRNone => Resp.write_null out (resp3 st)
                        | SRWrongType => Resp.write_error out (lit WRONGTYPE)
                        end)); mret (out, false)) w)
    (dispatch argv st cfg w).
Proof.
  intros Hmm Hr Hnm Hlen.
  assert (dispatch argv st cfg w = (o ← (r ← call (fun now s => Store.get now s (argv !!! 1%nat));
    mret (str_or_err r)); mret (st, o)) w) as ->.
  { unfold dispatch. rewrite Hnm, Hlen. reflexivity. }
  pose proof (get_short mm (clock w (tick w)) (store w) (argv !!! 1%nat)) as Hv.
  destruct (store_exec_ok (clock w (tick w)) (store w) (OGet (argv !!! 1%nat))
    (proj1 (reach_ok mm _ Hmm Hr)) I) as (He & _).
  unfold mbind, M_bind, call. rewrite read_str_get. cbn [Store.exec Db.exec] in He.
  destruct (Store.get (clock w (tick w)) (store w) (argv !!! 1%nat)) as [s' [[v|]|e]];
    cbn [prod_map fst snd] in *.
  - split_and!; [done..|]. intros Hsh. by rewrite (write_bulk_encode out v (resp3 st)) by (by apply (Hv v)).
  - split_and!; [done..|]. by destruct (resp3 st).
  - injection He as He. assert (e = WRONGTYPE) as ->; [|done].
    unfold Db.typed in He. by destruct (value <$> _) as [[]|]; simplify_eq/=.
Qed.

Lemma fast_incr_ok mm w st key d out :
  0 <= mm → reach mm (store w) →
  let '(w1, (out1, b)) := fast_incr key d out w in
  let '(w2, o) := (r ← call (fun now s => Store.incr_by now s key d); mret (incr_reply r)) w in
  store w1 = store w2 ∧ out1 = encode (reply o) out (resp3 st) ∧
  b = persist o ∧ quit o = false.
Proof.
  intros Hmm Hr. unfold fast_incr, mbind, M_bind, call.
  pose proof (incr_by_in_i64 mm (clock w (tick w)) (store w) key d) as Hv.
  destruct (Store.incr_by (clock w (tick w)) (store w) key d) as [s' [v|e]]; cbn [fst snd] in *.
  - rewrite (write_int_encode out v (resp3 st)) by (by apply Hv). done.
  - unfold incr_reply, store_err. by case_bool_decide.
Qed.

Lemma fast_counter_ok mm w cfg st argv nm d out :
  0 <= mm → reach mm (store w) →
  upper (argv !!! 0%nat) = lit nm → length argv = 2%nat →
  (nm = "INCR"%string ∧ d = 1 ∨ nm = "DECR"%string ∧ d = -1) →
  same_service w st out (fast_incr (argv !!! 1%nat) d out w) (dispatch argv st cfg w).
Proof.
  intros Hmm Hr Hnm Hn Hd. pose proof (fast_incr_ok mm w st (argv !!! 1%nat) d out Hmm Hr) as Hf.
  assert (dispatch argv st cfg w = (o ← incr_cmd argv d false; mret (st, o)) w) as ->.
  { unfold dispatch. rewrite Hnm, Hn. by destruct Hd as [[-> ->]|[-> ->]]. }
  unfold incr_cmd. rewrite Hn. cbn [negb Nat.eqb]. unfold mbind at 1, M_bind at 1.
  destruct (fast_incr (argv !!! 1%nat) d out w) as [w1 [out1 b]].
  destruct ((r ← call _; mret (incr_reply r)) w) as [w2 o]. by destruct Hf as (? & ? & ? & ?).
Qed.

Lemma fast_set_ok w cfg st argv out :
  (∀ i, clock w i = clock w 0) →
  upper (argv !!! 0%nat) = lit "SET" → length argv = 3%nat →
  same_service w st out
    ((_ ← call (fun now s => Store.set now s (argv !!! 1%nat) (argv !!! 2%nat) default_options);
      mret (Resp.write_simple out (lit "OK"), true)) w)
    (dispatch argv st cfg w).
Proof.
  intros Hclk Hnm Hn.
  assert (dispatch argv st cfg w = (o ← set_cmd argv; mret (st, o)) w) as ->.
  { unfold dispatch. rewrite Hnm, Hn. reflexivity. }
  unfold set_cmd. rewrite Hn. cbn [Nat.ltb Nat.leb]. rewrite drop_ge by lia. cbn [set_opts].
  unfold now_ms, mbind, M_bind, call, mret, M_ret. cbn [store clock tick set_store].
  rewrite (Hclk (S (tick w))), (Hclk (tick w)).
  assert (∀ s k v, (Store.set (clock w 0) s k v default_options).2 = true) as Hset.
  { intros s k v. unfold Store.set, Store.on_shard, Shard.set. by destruct (Shard.live _ _ _). }
  specialize (Hset (store w) (argv !!! 1%nat) (argv !!! 2%nat)).
  destruct (Store.set (clock w 0) (store w) _ _ _) as [s' did]. simpl in Hset. by subst did.
Qed.

Lemma fast_path_ok mm w cfg st argv out m :
  0 <= mm → reach mm (store w) → (∀ i, clock w i = clock w 0) →
  serve_fast st argv out = Some m → same_service w st out (m w) (dispatch argv st cfg w).
Proof.
  intros Hmm Hr Hclk. unfold serve_fast.
  destruct (bool_decide (_ = lit "GET") && _) eqn:Hg.
  { apply andb_true_iff in Hg as [Hnm%bool_decide_eq_true Hn%Nat.eqb_eq]. intros [= <-].
    by eapply fast_get_ok. }
  destruct (bool_decide (_ = lit "SET") && _) eqn:Hs.
  { apply andb_true_iff in Hs as [Hnm%bool_decide_eq_true Hn%Nat.eqb_eq]. intros [= <-].
    by apply fast_set_ok. }
  destruct (bool_decide (_ = lit "PING") && _) eqn:Hp.
  { apply andb_true_iff in Hp as [Hnm%bool_decide_eq_true Hn%Nat.eqb_eq]. intros [= <-].
    assert (dispatch argv st cfg w = (w, (st, out_r (Simple (lit "PONG"))))) as ->; [|done].
    destruct argv as [|a [|]]; try done. unfold dispatch. rewrite Hnm. reflexivity. }
  destruct (bool_decide (_ = lit "INCR") && _) eqn:Hi.
  { apply andb_true_iff in Hi as [Hnm%bool_decide_eq_true Hn%Nat.eqb_eq]. intros [= <-].
    by apply (fast_counter_ok mm _ _ _ _ "INCR"); [..|left]. }
  destruct (bool_decide (_ = lit "DECR") && _) eqn:Hd; [|done].
  apply andb_true_iff in Hd as [Hnm%bool_decide_eq_true Hn%Nat.eqb_eq]. intros [= <-].
  by apply (fast_counter_ok mm _ _ _ _ "DECR"); [..|right].
Qed.

(** C23: the fast path changes nothing but the speed.  When [serve_fast] takes a
    command, it leaves the same data, writes the same bytes and asks for
    persistence exactly when [dispatch] and [encode] would, under a clock that
    does not move during the command. *)
Theorem conn_fast_path mm w cfg st argv out m :
  0 <= mm → reach mm (store w) → strings_short ⟦store w⟧ → (∀ i, clock w i = clock w 0) →
  serve_fast st argv out = Some m →
  let '(w1, (out1, is_write)) := m w in
  let '(w2, (st2, o)) := dispatch argv st cfg w in
  store w1 = store w2 ∧ st2 = st ∧ out1 = encode (reply o) out (resp3 st) ∧
  is_write = persist o ∧ quit o = false.
Proof.
  intros Hmm Hr Hsh Hclk Hm. pose proof (fast_path_ok mm w cfg st argv out m Hmm Hr Hclk Hm) as H.
  destruct (m w) as [w1 [out1 is_write]]. destruct (dispatch argv st cfg w) as [w2 [st2 o]].
  destruct H as (? & ? & ? & ? & H). split_and!; auto.
Qed.

End fast.

(** ** Witnesses *)

#[local] Existing Instance canonical_order.
#[local] Existing Instance demo_float_text.

Definition demo_world : World :=
  mkWorld (Store.exec 5 (demo_store 0) (demo_set (lit "k") (lit "41"))).1 0 (fun _ => 10)
    (fun _ => demo_seeds) (fun _ => None) None.

Lemma demo_world_reach : reach 0 (store demo_world).
Proof. apply reach_exec; [apply reach_new|done]. Defined.

Definition demo_config (pw : option bytes) : Config :=
  mkConfig (lit "127.0.0.1") 6380 2 0 true pw None None None None
    (lit ".") (lit "inmem.aof") (lit "inmem.snapshot").

Definition demo_server (pw : option bytes) (ro : bool) : Server :=
  mkServer demo_world (demo_config pw) (Some (aof_open [])) (fun _ => None) [] (fun _ _ => false) ro.

Definition demo_conn : Conn := accept (demo_server None false) 7.

Lemma conn_auth_gate_witness :
  let '(sv', c') := receive_all true (demo_server (Some (lit "pw")) false)
    (accept (demo_server (Some (lit "pw")) false) 7) [lit "SET k"; lit " 1" ++ Resp.CRLF] in
  sent c' = lit "-NOAUTH Authentication required." ++ Resp.CRLF ∧ aof sv' = Some (aof_open []).
Proof.
  pose proof (conn_auth_gate true (demo_server (Some (lit "pw")) false)
    (accept (demo_server (Some (lit "pw")) false) 7) [lit "SET k"; lit " 1" ++ Resp.CRLF]
    (lit "pw") eq_refl) as H.
  destruct (receive_all true _ _ _) as [sv' c'] eqn:He.
  vm_compute in He. injection He as <- <-. split; [reflexivity|]. exact (proj2 (H eq_refl)).
Defined.

Lemma conn_auth_password_witness :
  authenticated (handle_command true (demo_server (Some (lit "pw")) false) (conn_new 7 false)
    [lit "auth"; lit "pw"] []).1.1.2 = true.
Proof.
  exact (conn_auth_password true (demo_server (Some (lit "pw")) false) (conn_new 7 false)
    [lit "auth"; lit "pw"] [] (lit "pw") eq_refl eq_refl).
Defined.

Lemma conn_pipeline_witness :
  sent (receive true (demo_server None false) demo_conn
    (encoded [[lit "INCR"; lit "k"]; [lit "GET"; lit "k"]] ++ lit "*1")).2 =
  lit ":42" ++ Resp.CRLF ++ lit "$2" ++ Resp.CRLF ++ lit "42" ++ Resp.CRLF.
Proof.
  pose proof (conn_pipeline true (demo_server None false) demo_conn
    [[lit "INCR"; lit "k"]; [lit "GET"; lit "k"]] [lit "PING"] 2 eq_refl eq_refl
    ltac:(repeat (constructor; [split; [done|split; [by compute|repeat constructor; by compute]]|]);
          constructor)
    ltac:(split; [by compute|repeat constructor; by compute]) ltac:(vm_compute; lia)) as H.
  cbv zeta in H.
  change (take 2 (Resp.write_cmd [] [lit "PING"])) with (lit "*1") in H.
  destruct (serve_all _ _ _ _ _) as [[[sv' st'] out] fl] eqn:He. vm_compute in He. injection He as <- <- <- <-.
  destruct (receive _ _ _ _) as [sv2 c2]. exact (proj1 (proj2 (proj2 H))).
Defined.

Lemma conn_chunking_witness :
  sent (receive_all true (demo_server None false) demo_conn
    [lit "GET"; lit " k"; Resp.CRLF ++ lit "PI"]).2 = lit "$2" ++ Resp.CRLF ++ lit "41" ++ Resp.CRLF.
Proof.
  etransitivity; [exact (f_equal (fun p => sent p.2) (conn_chunking true (demo_server None false) 7
    [lit "GET"; lit " k"; Resp.CRLF ++ lit "PI"] ltac:(vm_compute; reflexivity)))|].
  vm_compute. reflexivity.
Defined.

Lemma conn_read_only_replica_witness :
  ⟦store (world (receive_all true (demo_server None true) demo_conn
     [lit "SET k 1" ++ Resp.CRLF; lit "FLUSHALL" ++ Resp.CRLF]).1)⟧ ⊆ ⟦store demo_world⟧.
Proof.
  pose proof (conn_read_only_replica 0 true (demo_server None true) demo_conn
    [lit "SET k 1" ++ Resp.CRLF; lit "FLUSHALL" ++ Resp.CRLF] ltac:(lia) demo_world_reach eq_refl) as H.
  destruct (receive_all _ _ _ _) as [sv' c']. exact (proj1 (proj1 H)).
Defined.

Lemma conn_logs_every_change_witness :
  aof (handle_command true (demo_server None false) (conn_new 7 true) [lit "INCR"; lit "k"] []).1.1.1 =
  Some (aof_open (encode_command [lit "INCR"; lit "k"] [])).
Proof.
  pose proof (conn_logs_every_change 0 true (demo_server None false) (conn_new 7 true)
    [lit "INCR"; lit "k"] [] ltac:(lia) demo_world_reach) as H.
  destruct (handle_command _ _ _ _ _) as [[[sv' st'] out'] fl] eqn:He. destruct H as [_ [[[Hs _] _]|H]].
  - exfalso. apply (f_equal (fun p => ⟦store (world p.1.1.1)⟧ !! lit "k")) in He. simpl in He.
    rewrite map_subseteq_spec in Hs.
    specialize (Hs (lit "k") (mkEntry (VStr (lit "42")) None)). rewrite <- He in Hs.
    assert (⟦store (world (demo_server None false))⟧ !! lit "k" = Some (mkEntry (VStr (lit "41")) None))
      as Hk by (vm_compute; reflexivity).
    rewrite Hk in Hs. specialize (Hs ltac:(vm_compute; reflexivity)).
    vm_compute in Hs. discriminate.
  - destruct H as (_ & _ & _ & H). unfold log_outcome in H. cbn [aof demo_server fst] in *.
    destruct (aof sv') as [[disk buf]|]; [|done]. destruct H as (e & (_ & _ & Hd & Hf) & _).
    destruct (Hd (Hf eq_refl)) as [Hd1 Hd2]. cbn [on_disk buffered aof_open app] in *. by subst.
Defined.

Lemma conn_fast_path_witness :
  ∃ m, serve_fast (conn_new 7 true) [lit "get"; lit "k"] [] = Some m ∧
       (m demo_world).2.1 = lit "$2" ++ Resp.CRLF ++ lit "41" ++ Resp.CRLF.
Proof.
  eexists. split; [reflexivity|].
  assert (strings_short ⟦store demo_world⟧) as Hs.
  { assert (⟦store demo_world⟧ = {[lit "k" := mkEntry (VStr (lit "41")) None]}) as ->
      by (vm_compute; reflexivity).
    by intros k v x [<- [= <- <-]]%lookup_singleton_Some. }
  pose proof (conn_fast_path 0 demo_world (demo_config None) (conn_new 7 true) [lit "get"; lit "k"] []
    _ ltac:(lia) demo_world_reach Hs ltac:(done) eq_refl) as H.
  match goal with |- (?m demo_world).2.1 = _ => destruct (m demo_world) as [w1 [out1 b]] end.
  destruct (dispatch _ _ _ demo_world) as [w2 [st2 o]] eqn:Hd.
  assert (reply o = Bulk (Some (lit "41"))) as Ho.
  { change (reply (w2, (st2, o)).2.2 = Bulk (Some (lit "41"))). rewrite <- Hd. vm_compute. reflexivity. }
  destruct H as (_ & _ & -> & _). rewrite Ho. reflexivity.
Defined.
