(* ===== verification/Uring.v ===== *)
(** * The io_uring runtime ([crates/server/src/runtime_uring.rs], lines 72 to 180)

    The loop of a connection under the io_uring runtime is written out again in
    the source.  It serves what the portable loop serves, except [SYNC]. *)
From S2P Require Import Prelude Std Map Eviction Value Shard Store StoreProps Resp Reply RespProps Dump.
From S2P Require Import Config Commands Persistence Conn ConnProps.
Local Open Scope Z_scope.

Section uring.
Context {HO : HashOrder} {FT : FloatText}.

(** The body of the inner loop of [handle_conn] after a command was parsed. *)
Definition uring_command (sv : Server) (st : ConnState) (argv : list bytes) (out : bytes)
    : Server * ConnState * bytes * Flow :=
  let nm := upper (argv !!! 0%nat) in
  if bool_decide (nm = lit "SYNC") || bool_decide (nm = lit "PSYNC")
  then (sv, st, Resp.write_error out (lit "ERR replication SYNC is served by the portable listener"), Quit)
  else if negb (authenticated st) && negb (is_preauth_ok nm)
  then (sv, st, Resp.write_error out (lit "NOAUTH Authentication required."), Next)
  else if read_only sv && is_write_command nm
  then (sv, st, Resp.write_error out (lit "READONLY You can't write against a read only replica."), Next)
  else
    let '(w, st, out, quit, is_write) := execute (world sv) (config sv) st argv out in
    let sv := set_world sv w in
    let '(sv, out, failed) :=
      if (is_write : bool) && (bool_decide (is_Some (aof sv)) || has_replicas sv)
      then log_write sv argv out else (sv, out, false) in
    (sv, st, out, if (quit : bool) || (failed : bool) then Quit else Next).

Fixpoint uring_loop (fuel : nat) (sv : Server) (st : ConnState) (inbuf : bytes)
    (cursor : nat) (out : bytes) : Server * ConnState * nat * bytes * Flow :=
  match fuel with
  | O => (sv, st, cursor, out, Next)
  | S fuel =>
      let '(ranges, r) := Resp.parse_command_ranges (drop cursor inbuf) [] in
      match r with
      | Incomplete => (sv, st, cursor, out, Next)
      | Failed e =>
          (sv, st, cursor, Resp.write_error out (lit "ERR Protocol error: " ++ error_text e), Quit)
      | Complete consumed =>
          let base := cursor in
          let cursor := (cursor + consumed)%nat in
          match ranges with
          | [] => uring_loop fuel sv st inbuf cursor out
          | _ =>
              let argv := (fun '(o, l) => Resp.slice inbuf (base + o) (base + o + l)) <$> ranges in
              let '(sv, st, out, flow) := uring_command sv st argv out in
              match flow with
              | Next => uring_loop fuel sv st inbuf cursor out
              | _ => (sv, st, cursor, out, flow)
              end
          end
      end
  end.

(** One turn of the outer loop of [handle_conn] *)
Definition uring_receive (sv : Server) (c : Conn) (chunk : bytes) : Server * Conn :=
  match flow c with
  | Next =>
      let buf := inbuf c ++ chunk in
      let '(sv, st, cursor, out, fl) := uring_loop (S (length buf)) sv (cstate c) buf 0 [] in
      (sv, mkConnection st (drop cursor buf) (sent c ++ out) fl)
  | _ => (sv, c)
  end.

(** Only [SYNC] makes a difference, and the portable loop gives the socket away
    then. *)
Lemma uring_command_same sv st argv out :
  (handle_command true sv st argv out).2 ≠ Passive →
  uring_command sv st argv out = handle_command true sv st argv out.
Proof. unfold uring_command, handle_command. by destruct (bool_decide _ || _). Qed.

Lemma uring_loop_same fuel sv st buf cursor out :
  (input_loop fuel true sv st buf cursor out).2 ≠ Passive →
  uring_loop fuel sv st buf cursor out = input_loop fuel true sv st buf cursor out.
Proof.
  revert sv st cursor out. induction fuel as [|fuel IH]; intros sv st cursor out; [done|].
  cbn [uring_loop input_loop].
  destruct (Resp.parse_command_ranges (drop cursor buf) []) as [ranges [e| |consumed]]; [done..|].
  destruct ranges as [|r ranges]; [apply IH|].
  set (argv := (fun '(o, l) => _) <$> r :: ranges).
  pose proof (uring_command_same sv st argv out) as Hc.
  destruct (handle_command true sv st argv out) as [[[sv' st'] out'] fl]. cbn [snd] in Hc.
  destruct fl; cbn [snd]; intros Hne; [|by rewrite Hc|done|by rewrite Hc].
  rewrite Hc by done. by apply IH.
Qed.

(** C32: the io_uring runtime behaves as the portable server.  On every input
    the portable server does not answer by turning the connection into a replica
    feed, both leave the same server, the same connection and the same replies. *)
Theorem uring_matches_portable sv c chunk :
  flow c ≠ Passive → flow (receive true sv c chunk).2 ≠ Passive →
  uring_receive sv c chunk = receive true sv c chunk.
Proof.
  unfold uring_receive, receive. destruct (flow c) eqn:Hfl; [|done..]. intros _.
  pose proof (uring_loop_same (S (length (inbuf c ++ chunk))) sv (cstate c) (inbuf c ++ chunk) 0 []) as Hl.
  destruct (input_loop _ true sv (cstate c) _ 0 []) as [[[[sv' st'] cur] out] fl].
  cbn [snd flow] in *. intros Hne. by rewrite Hl.
Qed.

End uring.

(** ** Witness *)

#[local] Existing Instance canonical_order.
#[local] Existing Instance demo_float_text.

Lemma uring_matches_portable_witness :
  sent (uring_receive (demo_server None false) demo_conn (lit "INCR k" ++ Resp.CRLF)).2 =
  lit ":42" ++ Resp.CRLF.
Proof.
  etransitivity; [exact (f_equal (fun p => sent p.2) (uring_matches_portable (demo_server None false)
    demo_conn (lit "INCR k" ++ Resp.CRLF) ltac:(done) ltac:(vm_compute; discriminate)))|].
  vm_compute. reflexivity.
Defined.
