(* ===== verification/Replica.v ===== *)
(** * The replica client ([crates/server/src/repl.rs], lines 70 to 131)

    What the primary sends is a list of chunks, one per [read]; an empty chunk
    is the end of the connection, and the end of the list is a [read] that has
    not returned, or has failed. *)
From S2P Require Import Prelude Std Value Shard Store Resp Reply Dump Config Commands Persistence Conn.
Local Open Scope Z_scope.

(** What [sync_once] writes before it reads the stream. *)
Definition handshake (cfg : Config) : bytes :=
  match masterauth cfg with
  | Some pass => encode_args [] [lit "AUTH"; pass]
  | None => []
  end ++ lit "*1" ++ Resp.CRLF ++ lit "$4" ++ Resp.CRLF ++ lit "SYNC" ++ Resp.CRLF.

Section client.
Context {HO : HashOrder} {FT : FloatText}.

(** The inner loop: apply the commands of the buffer.  The result is the state,
    the cursor, and whether the stream was sound.  Every turn consumes a byte. *)
Fixpoint apply_loop (fuel : nat) (cfg : Config) (buf : bytes) (cursor : nat) (st : ConnState)
    : M (ConnState * nat * bool) :=
  match fuel with
  | O => mret (st, cursor, true)
  | S fuel =>
      match Resp.parse_command (drop cursor buf) with
      | Complete (argv, consumed) =>
          let cursor := (cursor + consumed)%nat in
          match argv with
          | [] => apply_loop fuel cfg buf cursor st
          | _ =>
              '(st, _) ← dispatch argv st cfg;
              apply_loop fuel cfg buf cursor st
          end
      | Incomplete => mret (st, cursor, true)
      | Failed _ => mret (st, cursor, false)
      end
  end.

(** The outer loop; the result is what is left in the buffer. *)
Fixpoint stream_loop (cfg : Config) (reads : list bytes) (buf : bytes) (st : ConnState) : M bytes :=
  match reads with
  | [] => mret buf
  | chunk :: reads =>
      match chunk with
      | [] => mret buf
      | _ =>
          let buf := buf ++ chunk in
          '(st, cursor, sound) ← apply_loop (S (length buf)) cfg buf 0 st;
          if (sound : bool) then stream_loop cfg reads (drop cursor buf) st
          else mret (drop cursor buf)
      end
  end.

(** [sync_once]: the reply to [AUTH] is read, 64 bytes of it at most, and
    dropped. *)
Definition sync_once (cfg : Config) (reads : list bytes) : M bytes :=
  let reads := match masterauth cfg with Some _ => drop 1 reads | None => reads end in
  stream_loop cfg reads [] internal.

(** The thread of [start_replica]: one synchronisation after another. *)
Fixpoint replica_thread (cfg : Config) (connections : list (list bytes)) : M unit :=
  match connections with
  | [] => mret ()
  | reads :: connections => _ ← sync_once cfg reads; replica_thread cfg connections
  end.

End client.
