(* ===== verification/Effects.v ===== *)
(** * What a command may do

    A write command is a program of a few effects: operations on keys, readings
    of the clock, and emptying the store.  Here the effects a command may have
    are read off its arguments, and every body of the dispatcher is shown to be
    built from these effects only.  What commands keep, cannot tell apart or do
    not touch then follows by induction on how they are built. *)
From S2P Require Import Prelude Std Map Eviction Value Shard Spec ShardOk Store StoreOk.
From S2P Require Import Resp Reply Dump Config Commands CommandsOk Persistence Conn ConnOk.
Local Open Scope Z_scope.

(** ** Programs built from effects *)

Inductive Effect := EOp (o : Op) | EClock | EFlush.

Section built.
Context {HO : HashOrder}.

(** [built P f]: [f] is a program whose effects all satisfy [P].  A reading of
    the clock counts as an effect only when the program depends on it. *)
Inductive built (P : Effect → Prop) : ∀ A : Type, M A → Prop :=
  | built_ret A a : built P A (mret a)
  | built_bind A B f g : built P A f → (∀ a, built P B (g a)) → built P B (f ≫= g)
  | built_op R (o : Op) (C : R → Ret) (f : Z → Store.t → Store.t * R) :
      (∀ t st, Store.exec t st o = prod_map id C (f t st)) → Inj eq eq C → P (EOp o) →
      built P R (call f)
  | built_now A (g : Z → M A) :
      (∀ t, built P A (g t)) → P EClock ∨ (∀ t1 t2, g t1 = g t2) → built P A (now_ms ≫= g)
  | built_flush : P EFlush → built P unit flush_all.
#[global] Arguments built P {A} f.

Lemma built_mono (P Q : Effect → Prop) A (f : M A) : (∀ e, P e → Q e) → built P f → built Q f.
Proof.
  intros HPQ. induction 1 as [A a|A B f g _ IHf _ IHg|R o C f Hf HC HP|A g _ IHg Ht|HP].
  - apply built_ret.
  - by apply built_bind.
  - by apply (built_op Q R o C f); auto.
  - apply built_now; [done|]. destruct Ht; auto.
  - apply built_flush. auto.
Qed.

Lemma built_mapM P {A B : Type} (f : A → M B) l :
  (∀ a, a ∈ l → built P (f a)) → built P (mapM f l).
Proof.
  induction l as [|a l IH]; intros Hf; cbn [mapM]; [apply built_ret|].
  apply built_bind; [apply Hf; left|]. intros b.
  apply built_bind; [apply IH; intros x Hx; apply Hf; by right|]. intros bs. apply built_ret.
Qed.

End built.

(** ** The effects of a command *)

Definition named (argv : list bytes) (names : list string) : bool :=
  existsb (fun p => bool_decide (upper (argv !!! 0%nat) = lit p)) names.

Lemma named_spec argv names :
  named argv names = true → ∃ p, p ∈ names ∧ upper (argv !!! 0%nat) = lit p.
Proof.
  intros (p & Hp%list_elem_of_In & Hnm%bool_decide_eq_true)%existsb_exists. by exists p.
Qed.

(** The keys a write command may look at or change. *)
Definition command_keys (argv : list bytes) : list bytes :=
  if named argv ["MSET"]%string then (pairs_of (drop 1 argv)).*1
  else if named argv ["DEL"; "UNLINK"]%string then drop 1 argv
  else [argv !!! 1%nat].

(** Whether it empties the store. *)
Definition flushes (argv : list bytes) : bool := named argv ["FLUSHALL"; "FLUSHDB"]%string.

(** Whether it may give a key a time to live. *)
Definition time_option (a : bytes) : bool :=
  existsb (fun p => bool_decide (upper_text a = lit p)) ["EX"; "PX"; "EXAT"; "PXAT"]%string.

Definition timed (argv : list bytes) : bool :=
  named argv ["SETEX"; "PSETEX"; "EXPIRE"; "PEXPIRE"; "EXPIREAT"; "PEXPIREAT"]%string
  || (named argv ["SET"]%string && existsb time_option (drop 3 argv)).

(** An operation that gives no key a time to live. *)
Definition op_timeless (o : Op) : Prop :=
  match o with
  | OSet _ _ opts => opt_expire_at opts = None
  | OExpireAt _ at_ => at_ = None
  | _ => True
  end.

Definition may (argv : list bytes) (e : Effect) : Prop :=
  match e with
  | EOp o => op_ok o ∧ op_key o ∈ command_keys argv ∧ (timed argv = false → op_timeless o)
  | EClock => timed argv = true
  | EFlush => flushes argv = true
  end.

(** ** The bodies of the dispatcher *)

Create HintDb built.

Section commands.
Context {HO : HashOrder} {FT : FloatText}.
Implicit Types (P : Effect → Prop) (argv : list bytes).

(** A hint for a goal about an operation: its key and its times are to be shown. *)
Ltac op o C := apply (built_op _ _ o C); [done|by intros ? ? [=]|].

(** *** Options of [SET] *)

Lemma set_opts_timeless t1 t2 rest opts g :
  existsb time_option rest = false → set_opts t1 rest opts g = set_opts t2 rest opts g.
Proof.
  revert opts g. induction rest as [|a rest IH]; intros opts g; [done|]. cbn [existsb set_opts].
  intros [Ha Hr]%orb_false_iff. cbv zeta.
  unfold time_option in Ha. cbn [existsb] in Ha. rewrite !orb_false_iff in Ha.
  destruct Ha as (-> & -> & -> & -> & _). cbn [orb].
  repeat case_bool_decide; first [by apply IH|done].
Qed.

Lemma set_opts_no_expiry t rest opts g opts' g' :
  existsb time_option rest = false → opt_expire_at opts = None →
  set_opts t rest opts g = inl (opts', g') → opt_expire_at opts' = None.
Proof.
  revert opts g. induction rest as [|a rest IH]; intros opts g; cbn [existsb set_opts]; [naive_solver|].
  intros [Ha Hr]%orb_false_iff Ho. cbv zeta.
  unfold time_option in Ha. cbn [existsb] in Ha. rewrite !orb_false_iff in Ha.
  destruct Ha as (-> & -> & -> & -> & _). cbn [orb].
  by repeat (case_bool_decide; [by apply IH|]).
Qed.

(** *** The commands *)

(** The key of an operation is the one key of the command, or among its keys. *)
Lemma command_keys_one argv :
  named argv ["MSET"; "DEL"; "UNLINK"]%string = false → argv !!! 1%nat ∈ command_keys argv.
Proof.
  unfold command_keys, named. cbn [existsb]. rewrite !orb_false_iff. intros (-> & -> & -> & _).
  cbn [orb]. by apply list_elem_of_singleton.
Qed.

Section one_key.
Context (argv : list bytes) (Hone : named argv ["MSET"; "DEL"; "UNLINK"]%string = false).

Lemma built_key {R : Type} (o : Op) (C : R → Ret) (f : Z → Store.t → Store.t * R) :
  (∀ t st, Store.exec t st o = prod_map id C (f t st)) → Inj eq eq C → op_ok o →
  op_key o = argv !!! 1%nat → (timed argv = false → op_timeless o) → built (may argv) (call f).
Proof.
  intros Hf HC Ho Hk Ht. apply (built_op _ _ o C); [done..|]. split_and!; [done| |done].
  rewrite Hk. by apply command_keys_one.
Qed.

Ltac key o C := apply (built_key o C); [done|by intros ? ? [=]|done|done|done].

Lemma built_get : built (may argv) (call (fun t st => Store.get t st (argv !!! 1%nat))).
Proof. key (OGet (argv !!! 1%nat)) RStr. Qed.
Lemma built_exists : built (may argv) (call (fun t st => Store.exists_ t st (argv !!! 1%nat))).
Proof. key (OExists (argv !!! 1%nat)) RBool. Qed.
Lemma built_pttl : built (may argv) (call (fun t st => Store.pttl t st (argv !!! 1%nat))).
Proof. key (OPttl (argv !!! 1%nat)) RTtl. Qed.
Lemma built_incr_by d : built (may argv) (call (fun t st => Store.incr_by t st (argv !!! 1%nat) d)).
Proof. key (OIncrBy (argv !!! 1%nat) d) RInt. Qed.
Lemma built_append v : built (may argv) (call (fun t st => Store.append t st (argv !!! 1%nat) v)).
Proof. key (OAppend (argv !!! 1%nat) v) RLen. Qed.
Lemma built_push vs b : built (may argv) (call (fun t st => Store.push t st (argv !!! 1%nat) vs b)).
Proof. key (OPush (argv !!! 1%nat) vs b) RLen. Qed.
Lemma built_pop n b : built (may argv) (call (fun t st => Store.pop t st (argv !!! 1%nat) n b)).
Proof. key (OPop (argv !!! 1%nat) n b) RItems. Qed.
Lemma built_hset ps : built (may argv) (call (fun t st => Store.hset t st (argv !!! 1%nat) ps)).
Proof. key (OHset (argv !!! 1%nat) ps) RLen. Qed.
Lemma built_hdel fs : built (may argv) (call (fun t st => Store.hdel t st (argv !!! 1%nat) fs)).
Proof. key (OHdel (argv !!! 1%nat) fs) RLen. Qed.
Lemma built_sadd ms : built (may argv) (call (fun t st => Store.sadd t st (argv !!! 1%nat) ms)).
Proof. key (OSadd (argv !!! 1%nat) ms) RLen. Qed.
Lemma built_srem ms : built (may argv) (call (fun t st => Store.srem t st (argv !!! 1%nat) ms)).
Proof. key (OSrem (argv !!! 1%nat) ms) RLen. Qed.
Lemma built_zrem ms : built (may argv) (call (fun t st => Store.zrem t st (argv !!! 1%nat) ms)).
Proof. key (OZrem (argv !!! 1%nat) ms) RLen. Qed.
Lemma built_zadd ps :
  Forall (fun p => f64_ok p.1) ps →
  built (may argv) (call (fun t st => Store.zadd t st (argv !!! 1%nat) ps)).
Proof. intros Hps. key (OZadd (argv !!! 1%nat) ps) RLen. Qed.
Lemma built_persist : built (may argv) (call (fun t st => Store.expire_at t st (argv !!! 1%nat) None)).
Proof. key (OExpireAt (argv !!! 1%nat) None) RBool. Qed.
Lemma built_expire_at a :
  timed argv = true → built (may argv) (call (fun t st => Store.expire_at t st (argv !!! 1%nat) a)).
Proof.
  intros Ht. apply (built_key (OExpireAt (argv !!! 1%nat) a) RBool); [done|by intros ? ? [=]|done|done|].
  congruence.
Qed.
Lemma built_set v o :
  (timed argv = false → opt_expire_at o = None) →
  built (may argv) (call (fun t st => Store.set t st (argv !!! 1%nat) v o)).
Proof.
  intros Ht. apply (built_key (OSet (argv !!! 1%nat) v o) RBool); [done|by intros ? ? [=]|done..].
Qed.

Hint Resolve built_ret built_get built_exists built_pttl built_incr_by built_append built_push built_pop
  built_hset built_hdel built_sadd built_srem built_zrem built_zadd built_persist : built.

Ltac build :=
  repeat first
    [solve [auto 1 with built]
    |apply built_bind; [|intros ?]
    |case_match; cbv beta iota zeta].

Lemma built_set_cmd : timed argv = existsb time_option (drop 3 argv) → built (may argv) (set_cmd argv).
Proof.
  intros Ht. unfold set_cmd. case_match; [apply built_ret|]. apply built_now.
  - intros t. destruct (set_opts t _ _ _) as [[opts want_get]|e] eqn:Ho; [|apply built_ret].
    apply built_bind; [destruct want_get; [apply built_get|apply built_ret]|].
    intros [old|e]; [|apply built_ret]. apply built_bind; [|intros ?; apply built_ret].
    apply built_set. intros Hf. rewrite Ht in Hf. eapply set_opts_no_expiry; [exact Hf| |exact Ho]. done.
  - cbn [may]. destruct (timed argv); [by left|right]. intros t1 t2.
    by rewrite (set_opts_timeless t1 t2).
Qed.

Lemma built_getset_cmd : built (may argv) (getset_cmd argv).
Proof. unfold getset_cmd. build. by apply built_set. Qed.
Lemma built_setnx_cmd : built (may argv) (setnx_cmd argv).
Proof. unfold setnx_cmd. build. by apply built_set. Qed.
Lemma built_setex_cmd ms : timed argv = true → built (may argv) (setex_cmd argv ms).
Proof.
  intros Ht. unfold setex_cmd. repeat (case_match; try apply built_ret).
  all: apply built_now; [|by left]; intros t; apply built_bind; [|intros ?; apply built_ret];
    apply built_set; congruence.
Qed.
Lemma built_incr_cmd d b : built (may argv) (incr_cmd argv d b).
Proof.
  unfold incr_cmd. repeat case_match; simplify_eq; try apply built_ret;
    (apply built_bind; [apply built_incr_by|intros ?; apply built_ret]).
Qed.
Lemma built_push_cmd b : built (may argv) (push_cmd argv b).
Proof. unfold push_cmd. build. Qed.
Lemma built_pop_cmd b : built (may argv) (pop_cmd argv b).
Proof. unfold pop_cmd. build. Qed.
Lemma built_hset_cmd b : built (may argv) (hset_cmd argv b).
Proof. unfold hset_cmd. build. Qed.
Lemma built_zadd_cmd : built (may argv) (zadd_cmd argv).
Proof.
  unfold zadd_cmd. case_match; [apply built_ret|].
  destruct (zadd_pairs _) as [ps|] eqn:Hps; [|apply built_ret].
  apply built_bind; [by eapply built_zadd, zadd_pairs_ok|intros ?; apply built_ret].
Qed.
Lemma built_expire_cmd u b : timed argv = true → built (may argv) (expire_cmd argv u b).
Proof.
  intros Ht. unfold expire_cmd. case_match; [apply built_ret|]. case_match; [|apply built_ret].
  apply built_bind; [apply built_exists|]. intros []; [|apply built_ret]. cbn [negb].
  apply built_now; [|by left]. intros t. cbv zeta. pose proof (fun a => built_expire_at a Ht).
  build.
Qed.
Lemma built_persist_cmd : built (may argv) (persist_cmd argv).
Proof. unfold persist_cmd. build. Qed.

End one_key.

Lemma built_mset_cmd argv : named argv ["MSET"]%string = true → built (may argv) (mset_cmd argv).
Proof.
  intros Hn. unfold mset_cmd. case_match; [apply built_ret|]. apply built_bind; [|intros ?; apply built_ret].
  apply built_mapM. intros [k v] Hkv. op (OSet k v default_options) RBool. split_and!; [done| |done].
  unfold command_keys. rewrite Hn. apply list_elem_of_fmap. by exists (k, v).
Qed.

Lemma built_del_cmd argv :
  named argv ["DEL"; "UNLINK"]%string = true → named argv ["MSET"]%string = false →
  built (may argv) (n ← countM (fun k => call (fun now st => Store.del now st k)) (drop 1 argv);
                    mret (out_maybe (Int n) (0 <? n))).
Proof.
  intros Hn Hm. apply built_bind; [|intros ?; apply built_ret].
  unfold countM. apply built_bind; [|intros ?; apply built_ret].
  apply built_mapM. intros k Hk. op (ODel k) RBool. split_and!; [done| |done].
  unfold command_keys. by rewrite Hn, Hm.
Qed.

(** *** Dispatch *)

(** The connection a command arrives on is neither read nor changed. *)
Definition effectful argv (b : ConnState → Config → M (ConnState * Outcome)) : Prop :=
  ∃ f : M Outcome, built (may argv) f ∧
    ∀ st cfg w, b st cfg w = (let '(w', o) := f w in (w', (st, o))).

Definition arm_effectful (a : Arm) : Prop :=
  ∀ p argv, p ∈ pats a → is_write_command (lit p) = true → upper (argv !!! 0%nat) = lit p →
    effectful argv (body a (lit p) argv).

Lemma effectful_cmd argv nm (f : list bytes → M Outcome) :
  built (may argv) (f argv) → effectful argv (cmd f nm argv).
Proof.
  intros Hf. exists (f argv). split; [done|]. intros st cfg w.
  unfold cmd, mbind, M_bind. by destruct (f argv w).
Qed.

Lemma effectful_op {R : Type} argv nm (f : Z → Store.t → list bytes → Store.t * R) out :
  built (may argv) (call (fun t st => f t st argv)) → effectful argv (op f out nm argv).
Proof. intros Hf. apply effectful_cmd, built_bind; [done|]. intros r. apply built_ret. Qed.

Lemma effectful_keep argv (f : M Outcome) :
  built (may argv) f → effectful argv (fun st _ => o ← f; mret (st, o)).
Proof.
  intros Hf. exists f. split; [done|]. intros st cfg w. unfold mbind, M_bind. by destruct (f w).
Qed.

(** What a name decides. *)
Ltac by_name := cbn [may]; unfold timed, flushes, named; match goal with H : upper _ = _ |- _ => rewrite H end; reflexivity.

(** An arm of reads, or an arm whose name is one of its patterns. *)
Ltac arm :=
  let p := fresh in let Hp := fresh in let Hw := fresh in
  intros p argv Hp Hw Hnm; cbn [pats] in Hp;
  repeat (apply elem_of_cons in Hp as [Hp|Hp]; [subst p|]); try (by apply elem_of_nil in Hp);
  try (exfalso; vm_compute in Hw; discriminate Hw); clear Hw; cbn [body].

Lemma introspection_effectful : Forall arm_effectful introspection_arms.
Proof.
  unfold introspection_arms. repeat first [apply Forall_nil_2|apply Forall_cons_2]; arm;
    (exists (_ ← flush_all; mret (out_w ok)); split; [|done]);
    (apply built_bind; [apply built_flush; by_name|intros ?; apply built_ret]).
Qed.

Lemma string_effectful : Forall arm_effectful string_arms.
Proof.
  unfold string_arms. repeat first [apply Forall_nil_2|apply Forall_cons_2]; arm.
  - apply effectful_cmd, built_set_cmd; by_name.
  - apply effectful_cmd, built_getset_cmd; by_name.
  - apply effectful_cmd, built_setnx_cmd; by_name.
  - apply effectful_keep, built_setex_cmd; by_name.
  - apply effectful_keep, built_setex_cmd; by_name.
  - apply effectful_cmd, built_mset_cmd; by_name.
  - apply effectful_op, built_append; by_name.
  - apply effectful_cmd, built_incr_cmd; by_name.
  - apply effectful_cmd, built_incr_cmd; by_name.
  - apply effectful_cmd, built_incr_cmd; by_name.
  - apply effectful_cmd, built_incr_cmd; by_name.
Qed.

Lemma collection_effectful : Forall arm_effectful collection_arms.
Proof.
  unfold collection_arms. repeat first [apply Forall_nil_2|apply Forall_cons_2]; arm.
  - apply effectful_cmd, built_push_cmd; by_name.
  - apply effectful_cmd, built_push_cmd; by_name.
  - apply effectful_cmd, built_pop_cmd; by_name.
  - apply effectful_cmd, built_pop_cmd; by_name.
  - apply effectful_keep, built_hset_cmd; by_name.
  - apply effectful_keep, built_hset_cmd; by_name.
  - apply effectful_op, built_hdel; by_name.
  - apply effectful_op, built_sadd; by_name.
  - apply effectful_op, built_srem; by_name.
  - apply effectful_cmd, built_zadd_cmd; by_name.
  - apply effectful_op, built_zrem; by_name.
Qed.

Lemma keyspace_effectful : Forall arm_effectful keyspace_arms.
Proof.
  unfold keyspace_arms. repeat first [apply Forall_nil_2|apply Forall_cons_2]; arm.
  - apply effectful_cmd, built_del_cmd; by_name.
  - apply effectful_cmd, built_del_cmd; by_name.
  - apply effectful_cmd, built_expire_cmd; by_name.
  - apply effectful_cmd, built_expire_cmd; by_name.
  - apply effectful_cmd, built_expire_cmd; by_name.
  - apply effectful_cmd, built_expire_cmd; by_name.
  - apply effectful_cmd, built_persist_cmd; by_name.
Qed.

(** Every write command does what its arguments say, and no more. *)
Lemma dispatch_effectful argv :
  is_write_command (upper (argv !!! 0%nat)) = true → effectful argv (dispatch argv).
Proof.
  intros Hw. unfold dispatch. destruct (find _ arms) as [a|] eqn:Hf.
  - apply find_some in Hf as [Ha%list_elem_of_In Hm].
    assert (arm_effectful a) as He.
    { clear Hm. revert a Ha. apply Forall_forall. unfold arms.
      repeat apply Forall_app_2; auto using introspection_effectful, string_effectful,
        collection_effectful, keyspace_effectful. }
    apply andb_true_iff in Hm as [Hm _].
    apply existsb_exists in Hm as (p & Hp & Hnm%bool_decide_eq_true). rewrite Hnm in Hw |- *.
    apply He; [by apply list_elem_of_In|done|done].
  - exists (mret (unknown_command (argv !!! 0%nat))). split; [apply built_ret|done].
Qed.

End commands.
