(* ===== verification/View.v ===== *)
(** * What a client can see

    Two databases look the same at a time when the same unexpired entries are
    in them.  Operations and write commands cannot tell such databases apart,
    so a write command means the same on a server and on the store it is
    replayed to. *)
From S2P Require Import Prelude Std Map Eviction Value Shard Spec ShardOk Store StoreOk.
From S2P Require Import Resp Reply Dump Config Commands CommandsOk Persistence Conn ConnOk Effects.
Local Open Scope Z_scope.

(** ** Databases that look the same *)

Section view.
Context {HO : HashOrder}.
Implicit Types (now : Z) (m : Db.t) (k : bytes).

Definition same_view now : relation Db.t := fun m1 m2 => ∀ k, Db.find now m1 k = Db.find now m2 k.

#[export] Instance same_view_equiv now : RelationClasses.Equivalence (same_view now).
Proof.
  split.
  - by intros m k.
  - intros m1 m2 H k. by rewrite H.
  - intros m1 m2 m3 H12 H23 k. by rewrite H12, H23.
Qed.

(** An expired entry under the key makes no difference. *)
Lemma exec_purged now m o : Db.exec now (Db.purge now (op_key o) m) o = Db.exec now m o.
Proof.
  unfold Db.purge. destruct (Db.find now m (op_key o)) as [e|] eqn:Hf; [done|].
  assert (Db.find now (delete (op_key o) m) (op_key o) = None) as Hd.
  { unfold Db.find. by rewrite lookup_delete_eq. }
  destruct o; cbn [op_key] in *; cbn [Db.exec];
    unfold Db.read, Db.set, Db.update, Db.incr_by, Db.append, Db.rewrite_str, Db.purge;
    rewrite ?Hd, ?Hf, ?delete_delete_eq; simpl; try done;
    repeat case_match; simplify_eq/=; rewrite ?insert_delete_eq, ?delete_delete_eq; done.
Qed.

(** An operation sees its key only, and changes nothing else that can be seen. *)
Lemma exec_at_key now m1 m2 o :
  Db.find now m1 (op_key o) = Db.find now m2 (op_key o) →
  (Db.exec now m1 o).2 = (Db.exec now m2 o).2 ∧
  Db.find now (Db.exec now m1 o).1 (op_key o) = Db.find now (Db.exec now m2 o).1 (op_key o).
Proof.
  intros Hk. rewrite <- (exec_purged now m1 o), <- (exec_purged now m2 o).
  destruct (Db.exec_local now o) as [Hl _].
  destruct (Hl (Db.purge now (op_key o) m1) (Db.purge now (op_key o) m2)) as [Hr He];
    [by rewrite !Db.purge_lookup|]. split; [done|]. by apply Db.find_local.
Qed.

Lemma exec_other_key now m o j : j ≠ op_key o → Db.find now (Db.exec now m o).1 j = Db.find now m j.
Proof. intros Hj. apply Db.find_local. by apply Db.exec_local. Qed.

Lemma exec_view now m1 m2 o :
  same_view now m1 m2 →
  (Db.exec now m1 o).2 = (Db.exec now m2 o).2 ∧
  same_view now (Db.exec now m1 o).1 (Db.exec now m2 o).1.
Proof.
  intros Hv. destruct (exec_at_key now m1 m2 o (Hv _)) as [Hr Hk]. split; [done|]. intros j.
  destruct (decide (j = op_key o)) as [->|Hj]; [done|]. by rewrite !exec_other_key.
Qed.

#[export] Instance exec_proper now :
  Proper (same_view now ==> eq ==> prod_relation (same_view now) eq) (Db.exec now).
Proof. intros m1 m2 Hv o ? <-. destruct (exec_view now m1 m2 o Hv). by split. Qed.

(** At a fixed time, what expires cannot be seen. *)
Lemma expires_only_view now clk m m' :
  (∀ i, clk i = now) → expires_only clk m m' → same_view now m m'.
Proof.
  intros Hclk [Hsub Hexp] k. apply option_eq. intros e. rewrite !Db.find_Some. split; intros [Hk Hu].
  - split; [|done]. destruct (m' !! k) as [e'|] eqn:Hk'.
    + eapply lookup_weaken in Hsub; [|exact Hk']. congruence.
    + destruct (Hexp k e Hk Hk') as [i Hi]. rewrite Hclk in Hi. congruence.
  - split; [by eapply lookup_weaken|done].
Qed.

End view.

(** ** Computations that cannot tell two worlds apart *)

Section agree.
Context {HO : HashOrder} {FT : FloatText}.
Context (now : Z).
Implicit Types (w : World).

(** No memory limit, and the clock stands at [now]. *)
Definition steady w : Prop := reach 0 (store w) ∧ ∀ i, clock w i = now.

Definition alike w1 w2 : Prop :=
  steady w1 ∧ steady w2 ∧ same_view now ⟦store w1⟧ ⟦store w2⟧.

Definition agree {A : Type} (f : M A) : Prop :=
  ∀ w1 w2, alike w1 w2 → alike (f w1).1 (f w2).1 ∧ (f w1).2 = (f w2).2.

Lemma agree_ret {A : Type} (a : A) : agree (mret a).
Proof. by intros w1 w2. Qed.

Lemma agree_bind {A B : Type} (f : M A) (g : A → M B) :
  agree f → (∀ a, agree (g a)) → agree (f ≫= g).
Proof.
  intros Hf Hg w1 w2 Hw. unfold mbind, M_bind. destruct (Hf w1 w2 Hw) as [Hw' Heq].
  destruct (f w1) as [w1' a1], (f w2) as [w2' a2]. simpl in *. subst a2. by apply Hg.
Qed.

(** Without a limit the store does exactly what the database does. *)
Lemma unlimited_exec t st o :
  reach 0 st → op_ok o →
  (Store.exec t st o).2 = (Db.exec t ⟦st⟧ o).2 ∧ ⟦(Store.exec t st o).1⟧ = (Db.exec t ⟦st⟧ o).1.
Proof.
  intros [Hst Hb]%reach_ok Ho; [|done].
  destruct (store_exec_ok t st o Hst Ho) as (Hr & _ & _ & _ & _ & Heq).
  split; [done|]. apply Heq. left. by rewrite Hb.
Qed.

Lemma call_steady {R : Type} (o : Op) (C : R → Ret) (f : Z → Store.t → Store.t * R) w :
  (∀ t st, Store.exec t st o = prod_map id C (f t st)) → op_ok o → steady w →
  steady (call f w).1 ∧
  C (call f w).2 = (Db.exec now ⟦store w⟧ o).2 ∧
  ⟦store (call f w).1⟧ = (Db.exec now ⟦store w⟧ o).1.
Proof.
  intros Hf Ho [Hr Hc]. unfold call. rewrite Hc.
  destruct (unlimited_exec now (store w) o Hr Ho) as [He Ha].
  pose proof (reach_exec 0 now (store w) o Hr Ho) as Hr'. rewrite Hf in *.
  destruct (f now (store w)) as [st' r]. by split_and!.
Qed.

Lemma agree_call {R : Type} (o : Op) (C : R → Ret) (f : Z → Store.t → Store.t * R) :
  (∀ t st, Store.exec t st o = prod_map id C (f t st)) → Inj eq eq C → op_ok o → agree (call f).
Proof.
  intros Hf HC Ho w1 w2 (Hs1 & Hs2 & Hv).
  destruct (call_steady o C f w1 Hf Ho Hs1) as (Hs1' & Hr1 & Ha1).
  destruct (call_steady o C f w2 Hf Ho Hs2) as (Hs2' & Hr2 & Ha2).
  destruct (exec_view now ⟦store w1⟧ ⟦store w2⟧ o Hv) as [Hr Hv'].
  split; [|apply HC; congruence]. split_and!; [done..|]. by rewrite Ha1, Ha2.
Qed.

Lemma agree_now : agree now_ms.
Proof.
  intros w1 w2 Hw. pose proof Hw as ([_ H1] & [_ H2] & _).
  unfold now_ms, call. cbn [fst snd]. rewrite H1, H2. done.
Qed.

Lemma agree_flush : agree flush_all.
Proof.
  intros w1 w2 ([Hr1 Hc1] & [Hr2 Hc2] & _). split; [|done]. split_and!.
  - split; [by apply reach_flush_all|done].
  - split; [by apply reach_flush_all|done].
  - simpl. apply reach_ok in Hr1 as [Hr1 _], Hr2 as [Hr2 _]; [|done..].
    destruct (flush_all_ok (entropy w1 (tick w1)) (store w1) Hr1) as (_ & _ & ->).
    by destruct (flush_all_ok (entropy w2 (tick w2)) (store w2) Hr2) as (_ & _ & ->).
Qed.

(** A program built from operations on keys cannot tell like worlds apart. *)
Lemma agree_built (P : Effect → Prop) A (f : M A) :
  (∀ o, P (EOp o) → op_ok o) → built P f → agree f.
Proof.
  intros HP. induction 1 as [A a|A B f g _ IHf _ IHg|R o C f Hf HC Ho|A g _ IHg _|_].
  - apply agree_ret.
  - by apply agree_bind.
  - apply (agree_call o C); auto.
  - apply agree_bind; [apply agree_now|done].
  - apply agree_flush.
Qed.

(** *** Dispatch of a write command *)

(** The connection a command arrives on is neither read nor changed. *)
Definition replayable (b : ConnState → Config → M (ConnState * Outcome)) : Prop :=
  ∃ f : M Outcome, agree f ∧
    ∀ st cfg w, b st cfg w = (let '(w', o) := f w in (w', (st, o))).

Lemma dispatch_replayable argv :
  is_write_command (upper (argv !!! 0%nat)) = true → replayable (dispatch argv).
Proof.
  intros (f & Hf & Heq)%dispatch_effectful. exists f. split; [|done].
  apply (agree_built (may argv)); [by intros o (? & _)|done].
Qed.

End agree.
