(* ===== verification/Durable.v ===== *)
(** * Recovery and replication

    The commands a server logs rebuild its data: replayed from the append-only
    file on a restart, or applied from the stream a replica reads. *)
From S2P Require Import Prelude Std Map Eviction Value Shard Spec ShardOk Store StoreOk StoreProps.
From S2P Require Import Resp RespOk Reply RespProps Dump Config Commands CommandsOk Persistence Conn ConnOk ConnProps.
From S2P Require Import Replica View.
Local Open Scope Z_scope.

(** ** Records *)

Lemma encode_command_eq argv out : encode_command argv out = Resp.write_cmd out argv.
Proof. done. Qed.

Lemma encode_args_eq out args : encode_args out args = Resp.write_cmd out args.
Proof. done. Qed.

Section replaying.
Context {HO : HashOrder} {FT : FloatText}.
Implicit Types (w : World) (st : ConnState) (cfg : Config) (cmds : list (list bytes)) (buf rest : bytes).

(** Commands dispatched one after another, whatever they answer. *)
Fixpoint dispatch_all (cfg : Config) (st : ConnState) (cmds : list (list bytes)) : M ConnState :=
  match cmds with
  | [] => mret st
  | argv :: cmds => '(st, _) ← dispatch argv st cfg; dispatch_all cfg st cmds
  end.

Lemma dispatch_all_app cfg st c1 c2 w :
  dispatch_all cfg st (c1 ++ c2) w =
  let '(w', st') := dispatch_all cfg st c1 w in dispatch_all cfg st' c2 w'.
Proof.
  revert st w. induction c1 as [|argv c1 IH]; intros st w; simpl; [done|].
  unfold mbind, M_bind. destruct (dispatch argv st cfg w) as [w1 [st1 o]]. apply IH.
Qed.

Lemma encoded_cons argv cmds : encoded (argv :: cmds) = Resp.write_cmd [] argv ++ encoded cmds.
Proof. done. Qed.

Lemma encoded_app c1 c2 : encoded (c1 ++ c2) = encoded c1 ++ encoded c2.
Proof. unfold encoded. by rewrite fmap_app, concat_app. Qed.

(** A record is never empty. *)
Lemma record_nonempty argv : (0 < length (Resp.write_cmd [] argv))%nat.
Proof. rewrite write_cmd_concat. simpl. lia. Qed.

(** Replay applies the records up to the first text that is not one. *)
Lemma replay_loop_until cfg cmds rest pre st applied fuel w :
  Forall sendable cmds → (∀ r, Resp.parse_command rest ≠ Complete r) →
  (length (encoded cmds ++ rest) < fuel)%nat →
  replay_loop fuel cfg (pre ++ encoded cmds ++ rest) (length pre) st applied w =
  ((dispatch_all cfg st cmds w).1, (applied + length cmds)%nat).
Proof.
  intros Hc Hrest. revert pre st applied fuel w.
  induction Hc as [|argv cmds [Hne Hfit] Hc IH]; intros pre st applied fuel w Hf;
    (destruct fuel as [|fuel]; [lia|]); cbn [replay_loop dispatch_all].
  - rewrite drop_app_length. change (encoded [] ++ rest) with rest. rewrite Nat.add_0_r.
    destruct (_ <? _)%nat; [|done]. by destruct (Resp.parse_command rest) as [| |r]; [..|by destruct (Hrest r)].
  - pose proof (record_nonempty argv) as Hpos. rewrite encoded_cons, <- app_assoc in *.
    rewrite drop_app_length, parse_encoded by done.
    rewrite !length_app in Hf |- *. rewrite (proj2 (Nat.ltb_lt _ _)) by lia.
    destruct argv as [|a argv]; [done|]. unfold mbind, M_bind.
    destruct (dispatch (a :: argv) st cfg w) as [w1 [st1 o]].
    rewrite (app_assoc pre), <- length_app, IH by (rewrite !length_app; lia).
    f_equal. simpl. lia.
Qed.

Lemma replay_loop_encoded cfg cmds rest pre st applied fuel w :
  Forall sendable cmds → Resp.parse_command rest = Incomplete →
  (length (encoded cmds ++ rest) < fuel)%nat →
  replay_loop fuel cfg (pre ++ encoded cmds ++ rest) (length pre) st applied w =
  ((dispatch_all cfg st cmds w).1, (applied + length cmds)%nat).
Proof. intros Hc Hrest. apply replay_loop_until; [done|]. by rewrite Hrest. Qed.

(** Replaying a log applies its commands.  A file that holds the records of
    any commands, followed by a record that was cut short, replays as these
    commands dispatched in order, and their number is reported. *)
Theorem aof_replay cfg cmds next n w :
  Forall sendable cmds → command_fits next → (n < length (encode_command next []))%nat →
  replay_file cfg (Some (concat ((fun argv => encode_command argv []) <$> cmds)
                         ++ take n (encode_command next []))) w =
  ((dispatch_all cfg internal cmds w).1, length cmds).
Proof.
  intros Hc Hfit Hn. rewrite encode_command_eq in *.
  assert (concat ((fun argv => encode_command argv []) <$> cmds) = encoded cmds) as -> by done.
  unfold replay_file.
  apply (replay_loop_encoded cfg cmds (take n (Resp.write_cmd [] next)) [] internal 0); [done| |lia].
  by apply parse_encoded_prefix.
Qed.

(** *** A stream in chunks *)

Definition torn (next : list bytes) (n : nat) : bytes := take n (Resp.write_cmd [] next).

(** A beginning of a stream of records: whole records, then a torn one. *)
Lemma stream_prefix cmds next n buf more :
  Forall sendable cmds → command_fits next → (n < length (Resp.write_cmd [] next))%nat →
  encoded cmds ++ torn next n = buf ++ more →
  ∃ c1 c2 buf', cmds = c1 ++ c2 ∧ buf = encoded c1 ++ buf' ∧
    encoded c2 ++ torn next n = buf' ++ more ∧ Resp.parse_command buf' = Incomplete.
Proof.
  intros Hc Hfit Hn. revert buf. induction Hc as [|argv cmds [Hne Hf] Hc IH]; intros buf Heq.
  - exists [], [], buf. split_and!; [done..|]. change (torn next n = buf ++ more) in Heq.
    assert (buf = take (length buf `min` n) (Resp.write_cmd [] next)) as ->.
    { rewrite <- take_take. unfold torn in Heq. by rewrite Heq, take_app_length. }
    apply parse_encoded_prefix; [done|lia].
  - rewrite encoded_cons, <- app_assoc in Heq.
    destruct (le_lt_dec (length (Resp.write_cmd [] argv)) (length buf)) as [Hle|Hlt].
    + assert (buf = Resp.write_cmd [] argv ++ drop (length (Resp.write_cmd [] argv)) buf) as Hbuf.
      { rewrite <- (take_drop (length (Resp.write_cmd [] argv)) buf) at 1. f_equal.
        apply (f_equal (take (length (Resp.write_cmd [] argv)))) in Heq.
        by rewrite take_app_length, take_app_le in Heq. }
      rewrite Hbuf, <- app_assoc in Heq. apply app_inv_head in Heq.
      destruct (IH _ Heq) as (c1 & c2 & buf' & -> & Hb & Hr & Hp).
      exists (argv :: c1), c2, buf'. split_and!; [done| |done..].
      by rewrite encoded_cons, <- app_assoc, <- Hb.
    + exists [], (argv :: cmds), buf. split_and!; [done..| |].
      { by rewrite encoded_cons, <- app_assoc. }
      assert (buf = take (length buf) (Resp.write_cmd [] argv)) as ->.
      { apply (f_equal (take (length buf))) in Heq.
        by rewrite take_app_length, take_app_le in Heq by lia. }
      apply parse_encoded_prefix; [done|lia].
Qed.

Lemma apply_loop_encoded cfg cmds rest pre st fuel w :
  Forall sendable cmds → Resp.parse_command rest = Incomplete →
  (length (encoded cmds ++ rest) < fuel)%nat →
  apply_loop fuel cfg (pre ++ encoded cmds ++ rest) (length pre) st w =
  let '(w', st') := dispatch_all cfg st cmds w in
  (w', (st', (length pre + length (encoded cmds))%nat, true)).
Proof.
  intros Hc Hrest. revert pre st fuel w.
  induction Hc as [|argv cmds [Hne Hfit] Hc IH]; intros pre st fuel w Hf;
    (destruct fuel as [|fuel]; [lia|]); cbn [apply_loop dispatch_all].
  - rewrite drop_app_length. change (encoded [] ++ rest) with rest. by rewrite Hrest, Nat.add_0_r.
  - pose proof (record_nonempty argv) as Hpos. rewrite encoded_cons, <- app_assoc in *.
    rewrite drop_app_length, parse_encoded by done. rewrite !length_app in Hf.
    destruct argv as [|a argv]; [done|]. unfold mbind, M_bind.
    destruct (dispatch (a :: argv) st cfg w) as [w1 [st1 o]].
    rewrite (app_assoc pre), <- length_app, IH by (rewrite !length_app; lia).
    destruct (dispatch_all cfg st1 cmds w1). rewrite !length_app. do 3 f_equal. lia.
Qed.

Lemma stream_loop_encoded cfg chunks buf st cmds next n w :
  Forall sendable cmds → command_fits next → (n < length (Resp.write_cmd [] next))%nat →
  Forall (.≠ []) chunks → Resp.parse_command buf = Incomplete →
  encoded cmds ++ torn next n = buf ++ concat chunks →
  stream_loop cfg chunks buf st w = ((dispatch_all cfg st cmds w).1, torn next n).
Proof.
  intros Hc Hfit Hn Hch. revert buf st cmds w Hc.
  induction Hch as [|chunk chunks Hne _ IH]; intros buf st cmds w Hc Hinc Heq.
  - simpl in Heq. rewrite app_nil_r in Heq. cbn [stream_loop].
    destruct Hc as [|argv cmds [Hne Hf] Hc]; [by rewrite <- Heq|].
    rewrite <- Heq, encoded_cons, <- app_assoc, parse_encoded in Hinc by done. done.
  - cbn [stream_loop]. destruct chunk as [|b chunk]; [done|]. set (ch := b :: chunk) in *.
    assert (encoded cmds ++ torn next n = (buf ++ ch) ++ concat chunks) as Heq2
      by (rewrite Heq, <- app_assoc; done).
    destruct (stream_prefix cmds next n (buf ++ ch) (concat chunks) Hc Hfit Hn Heq2)
      as (c1 & c2 & buf' & -> & Hbuf & Hrest & Hp).
    apply Forall_app in Hc as [Hc1 Hc2]. unfold mbind, M_bind. rewrite Hbuf.
    pose proof (apply_loop_encoded cfg c1 buf' [] st (S (length (encoded c1 ++ buf'))) w Hc1 Hp
      ltac:(lia)) as Ha. rewrite app_nil_l in Ha. cbn [length Nat.add] in Ha. rewrite Ha.
    rewrite dispatch_all_app. destruct (dispatch_all cfg st c1 w) as [w1 st1].
    rewrite drop_app_length. by apply IH.
Qed.

End replaying.

(** ** The history of a server *)

Section history.
Context {HO : HashOrder} {FT : FloatText}.
Context (now : Z).
Implicit Types (w : World) (st : ConnState) (cfg : Config) (sv : Server) (argv : list bytes).

(** The connections are served one command at a time, in any order, and the
    reaper runs between commands. *)
Inductive server_step : Server → Server → Prop :=
  | step_command raw sv st argv out :
      sendable argv → server_step sv (handle_command raw sv st argv out).1.1.1
  | step_reaper sv : server_step sv (reaper_turn sv).

Lemma alike_store w1 w2 w1' :
  alike now w1 w2 → steady now w1' → same_view now ⟦store w1⟧ ⟦store w1'⟧ → alike now w1' w2.
Proof.
  intros (_ & Hs2 & Hv) Hs1 Hv1. split_and!; [done..|]. by rewrite <- Hv1.
Qed.

Lemma execute_store sv st argv out :
  steady now (world sv) →
  let '(w', _, _, _, is_write) := execute (world sv) (config sv) st argv out in
  store w' = store (dispatch argv st (config sv) (world sv)).1.
Proof.
  intros [Hr Hc]. unfold execute. destruct (serve_fast st argv out) as [m|] eqn:Hm.
  - assert (∀ i, clock (world sv) i = clock (world sv) 0) as Hclk by (intros i; by rewrite !Hc).
    pose proof (fast_path_ok 0 (world sv) (config sv) st argv out m ltac:(lia) Hr Hclk Hm) as Hf.
    destruct (m (world sv)) as [w1 [out1 b]].
    destruct (dispatch argv st (config sv) (world sv)) as [w2 [st2 o]]. by destruct Hf as (? & _).
  - by destruct (dispatch argv st (config sv) (world sv)) as [w2 [st2 o]].
Qed.

Lemma propagate_all sv data :
  (∀ t i, link_down sv t i = false) → replicas (propagate sv data) = (fun f => f ++ data) <$> replicas sv.
Proof.
  intros Hl. unfold propagate, set_replicas. cbn [replicas].
  assert (∀ l j, omap (fun x => x) (imap (fun i (feed : bytes) =>
      if link_down sv (tick (world sv)) (j + i)%nat then None else Some (feed ++ data)) l) =
      (fun f => f ++ data) <$> l) as H.
  { induction l as [|f l IH]; intros j; [done|]. csimpl. rewrite Hl. f_equal.
    rewrite <- (IH (S j)). f_equal. apply imap_ext. intros i x _. simpl. by rewrite Nat.add_succ_r. }
  apply (H (replicas sv) O).
Qed.

(** What a command does to the data, the log and the feeds of the replicas: at
    most entries expire, or it is a write that was executed and logged. *)
Lemma handle_command_split raw sv st argv out :
  reach 0 (store (world sv)) →
  let '(sv', st', out', fl) := handle_command raw sv st argv out in
  (expires_only (clock (world sv)) ⟦store (world sv)⟧ ⟦store (world sv')⟧ ∧ aof sv' = aof sv ∧
   ∃ l, replicas sv' = replicas sv ++ l) ∨
  (is_write_command (upper (argv !!! 0%nat)) = true ∧
   world sv' = (execute (world sv) (config sv) st argv out).1.1.1.1 ∧
   log_outcome sv argv sv' fl ∧
   ((∀ t i, link_down sv t i = false) →
    replicas sv' = (fun f => f ++ encode_args [] argv) <$> replicas sv)).
Proof.
  intros Hr. unfold handle_command. set (nm := upper (argv !!! 0%nat)).
  assert (∀ sv', world sv' = world sv → aof sv' = aof sv → (∃ l, replicas sv' = replicas sv ++ l) →
    expires_only (clock (world sv)) ⟦store (world sv)⟧ ⟦store (world sv')⟧ ∧ aof sv' = aof sv ∧
    ∃ l, replicas sv' = replicas sv ++ l) as Hsame.
  { intros sv' -> -> ?. split_and!; [apply expires_only_refl|done..]. }
  assert (∃ l, replicas sv = replicas sv ++ l) as Hno by (exists []; by rewrite app_nil_r).
  destruct (bool_decide (nm = lit "SYNC") || _).
  { destruct raw; [|left; by apply Hsame]. unfold add_replica_with_snapshot. simpl.
    destruct (link_down sv _ _); simpl; left; (split_and!; [apply expires_only_refl|done|eauto]). }
  destruct (negb (authenticated st) && _); [left; by apply Hsame|].
  destruct (read_only sv && _); [left; by apply Hsame|].
  pose proof (execute_ok 0 ltac:(lia) (world sv) (config sv) st argv out Hr) as He.
  destruct (execute _ _ _ _ _) as [[[[w' st'] out'] q] is_write].
  destruct He as (_ & _ & _ & Hwr & Hex). destruct is_write; cbn [andb]; cycle 1.
  { left. split_and!; [by apply Hex|done..]. }
  specialize (Hwr eq_refl). set (sv1 := set_world sv w').
  destruct (bool_decide (is_Some (aof sv1)) || has_replicas sv1) eqn:Hlog.
  - pose proof (log_write_aof sv1 argv out') as Hl. pose proof (log_write_world sv1 argv out') as Hlw.
    destruct (log_write sv1 argv out') as [[sv2 out2] failed]. destruct Hl as [Hl Hrep].
    cbn [fst] in Hlw. right. rewrite Hlw. split_and!; [done|done| |].
    + unfold log_outcome in *. unfold sv1 in *; cbn [aof aof_fault world set_world] in *.
      destruct (aof sv), (aof sv2); try done. destruct Hl as (e & Happ & Hq). exists e.
      split; [done|]. intros Hne. specialize (Hq Hne). destruct failed; [|done]. by rewrite orb_true_r.
    + intros Hd. rewrite Hrep. unfold has_replicas. destruct (0 <? _)%nat eqn:Hlen.
      * by apply (propagate_all sv1).
      * apply Nat.ltb_ge in Hlen. change (replicas sv1) with (replicas sv) in *.
        by destruct (replicas sv); [|simpl in Hlen; lia].
  - right. unfold log_outcome. unfold sv1 in *; cbn [aof set_world replicas world] in *.
    apply orb_false_iff in Hlog as [Hn%bool_decide_eq_false Hrep]. split_and!; [done|done| |].
    + destruct (aof sv); [by destruct Hn|done].
    + intros _. unfold has_replicas in Hrep. apply Nat.ltb_ge in Hrep.
      cbn [replicas set_world] in Hrep. by destruct (replicas sv); [|simpl in Hrep; lia].
Qed.

(** While the clock stands, what expires cannot be seen. *)
Lemma handle_command_case raw sv st argv out :
  steady now (world sv) →
  let '(sv', st', out', fl) := handle_command raw sv st argv out in
  (same_view now ⟦store (world sv)⟧ ⟦store (world sv')⟧ ∧ aof sv' = aof sv ∧
   ∃ l, replicas sv' = replicas sv ++ l) ∨
  (is_write_command (upper (argv !!! 0%nat)) = true ∧
   store (world sv') = store (dispatch argv st (config sv) (world sv)).1 ∧
   log_outcome sv argv sv' fl ∧
   ((∀ t i, link_down sv t i = false) →
    replicas sv' = (fun f => f ++ encode_args [] argv) <$> replicas sv)).
Proof.
  intros Hs. pose proof Hs as [Hr Hc]. pose proof (handle_command_split raw sv st argv out Hr) as H.
  pose proof (execute_store sv st argv out Hs) as Hst.
  destruct (handle_command raw sv st argv out) as [[[sv' st'] out'] fl].
  destruct H as [(He & Ha)|(Hwr & Hw & H)]; [left|right].
  - split; [|done]. by eapply expires_only_view.
  - split; [done|]. split; [|done]. rewrite Hw.
    by destruct (execute _ _ _ _ _) as [[[[w' st1] out1] q] is_write].
Qed.

(** The commands [more] account for the way from [sv] to [sv']: they lead from
    any world like that of [sv] to one like that of [sv'], and they are what the
    log and the feeds got. *)
Definition logged sv (more : list (list bytes)) sv' : Prop :=
  Forall sendable more ∧
  (∀ cfg st w, alike now (world sv) w →
     alike now (world sv') (dispatch_all cfg st more w).1 ∧ (dispatch_all cfg st more w).2 = st) ∧
  ((∀ t, aof_fault sv t = None) → ∀ file, aof sv = Some (aof_open file) →
     aof sv' = Some (aof_open (file ++ encoded more))) ∧
  ((∀ t i, link_down sv t i = false) → ∀ i feed, replicas sv !! i = Some feed →
     replicas sv' !! i = Some (feed ++ encoded more)).

Definition same_environment sv sv' : Prop :=
  aof_fault sv' = aof_fault sv ∧ link_down sv' = link_down sv.

Lemma logged_nothing sv sv' :
  steady now (world sv') → same_view now ⟦store (world sv)⟧ ⟦store (world sv')⟧ →
  aof sv' = aof sv → (∃ l, replicas sv' = replicas sv ++ l) → logged sv [] sv'.
Proof.
  intros Hs Hv Ha [l Hl]. split_and!; [done|..].
  - intros cfg st w Hw. split; [by eapply alike_store|done].
  - intros _ file Hf. rewrite Ha, Hf. by rewrite app_nil_r.
  - intros _ i feed Hi. rewrite Hl, app_nil_r. by apply lookup_app_l_Some.
Qed.

Lemma handle_command_environment raw sv st argv out :
  same_environment sv (handle_command raw sv st argv out).1.1.1.
Proof.
  unfold handle_command, same_environment. destruct (bool_decide _ || _).
  { destruct raw; [|done]. unfold add_replica_with_snapshot. by destruct (link_down _ _ _). }
  destruct (negb _ && _); [done|]. destruct (read_only sv && _); [done|].
  destruct (execute _ _ _ _ _) as [[[[w' st'] out'] q] b]. destruct (b && _); [|done].
  unfold log_write. destruct (aof _) as [a|]; [destruct (aof_append a _ argv) as [a' [e|]]|];
    by destruct (has_replicas _).
Qed.

(** A write does the same on a world like the one it was served in, whatever
    the connection and the configuration. *)
Lemma write_alike argv st cfg w0 w1 st' cfg' w :
  is_write_command (upper (argv !!! 0%nat)) = true → steady now w1 →
  store w1 = store (dispatch argv st cfg w0).1 → alike now w0 w →
  alike now w1 (dispatch_all cfg' st' [argv] w).1 ∧ (dispatch_all cfg' st' [argv] w).2 = st'.
Proof.
  intros Hwr Hs Hst Hw. destruct (dispatch_replayable now argv Hwr) as (f & Hf & Heq).
  destruct (Hf _ _ Hw) as [Halike _]. cbn [dispatch_all]. unfold mbind, M_bind.
  rewrite Heq in Hst |- *. destruct (f w) as [w2 o2], (f w0) as [w3 o3]. cbn [fst snd] in *.
  split; [|done]. eapply alike_store; [exact Halike|done|]. by rewrite Hst.
Qed.

(** On a disk that does not fail, a logged write is one record more. *)
Lemma log_outcome_file sv argv sv' fl file :
  (∀ t, aof_fault sv t = None) → aof sv = Some (aof_open file) → log_outcome sv argv sv' fl →
  aof sv' = Some (aof_open (file ++ encoded [argv])).
Proof.
  intros Hf Hfile Hlog. unfold log_outcome in Hlog. rewrite Hfile in Hlog.
  destruct (aof sv') as [[disk buf]|]; [|done]. destruct Hlog as (e & (_ & _ & Hd & He) & _).
  destruct (Hd (He (Hf _))) as [Hdisk Hbuf]. cbn [on_disk buffered aof_open app] in *.
  rewrite Hdisk, Hbuf. unfold encoded. simpl. by rewrite app_nil_r.
Qed.

Lemma server_step_logged sv sv' :
  steady now (world sv) → server_step sv sv' →
  steady now (world sv') ∧ same_environment sv sv' ∧ ∃ more, logged sv more sv'.
Proof.
  intros Hs Hstep. destruct Hstep as [raw sv st argv out Hsend|sv].
  - pose proof (handle_command_case raw sv st argv out Hs) as Hcase.
    pose proof (handle_command_environment raw sv st argv out) as Henv.
    pose proof (handle_command_ok 0 ltac:(lia) raw sv st argv out (proj1 Hs)) as Hok.
    destruct (handle_command raw sv st argv out) as [[[sv' st'] out'] fl]. cbn [fst] in *.
    destruct Hok as (Hr' & Hc' & _).
    assert (steady now (world sv')) as Hs' by (split; [done|rewrite Hc'; apply Hs]).
    split_and!; [done..|]. destruct Hcase as [(Hv & Ha & Hl)|(Hwr & Hst & Hlog & Hrep)].
    { exists []. by apply logged_nothing. }
    exists [argv]. split_and!.
    + by constructor.
    + intros cfg st0 w. by eapply write_alike.
    + intros Hf file Hfile. by eapply log_outcome_file.
    + intros Hd i feed Hi. rewrite (Hrep Hd), list_lookup_fmap, Hi. unfold encoded. simpl.
      by rewrite app_nil_r.
  - destruct Hs as [Hr Hc]. unfold reaper_turn, call. rewrite Hc.
    pose proof (reach_purge_expired 0 now (store (world sv)) Hr) as Hr'.
    pose proof (purge_expired_store_ok now (store (world sv)) (proj1 (reach_ok 0 _ ltac:(lia) Hr))) as Hp.
    destruct (Store.purge_expired now (store (world sv))) as [st' n]. cbn [fst] in *.
    destruct Hp as (_ & _ & Ha & _).
    split_and!; [split; [exact Hr'|exact Hc]|done|]. exists [].
    apply logged_nothing; [split; [exact Hr'|exact Hc]| |done|exists []; by rewrite app_nil_r].
    cbn [world set_world store set_store]. rewrite Ha. intros k. apply option_eq. intros e.
    rewrite !Db.find_Some, map_lookup_filter_Some. simpl. naive_solver.
Qed.

Lemma server_run_logged sv sv' :
  steady now (world sv) → rtc server_step sv sv' →
  steady now (world sv') ∧ same_environment sv sv' ∧ ∃ more, logged sv more sv'.
Proof.
  intros Hs Hrun. revert Hs. induction Hrun as [sv|sv1 sv2 sv3 Hstep _ IH]; intros Hs.
  { split_and!; [done..|]. exists []. apply logged_nothing; [done..|]. exists []. by rewrite app_nil_r. }
  destruct (server_step_logged sv1 sv2 Hs Hstep) as (Hs2 & [Hf2 Hl2] & m1 & (Hm1 & Hw1 & Ha1 & Hr1)).
  destruct (IH Hs2) as (Hs3 & [Hf3 Hl3] & m2 & (Hm2 & Hw2 & Ha2 & Hr2)).
  split_and!; [done|split; congruence|]. exists (m1 ++ m2). split_and!.
  - by apply Forall_app.
  - intros cfg st w Hw. destruct (Hw1 cfg st w Hw) as [Hw1' Hst1]. rewrite dispatch_all_app.
    destruct (dispatch_all cfg st m1 w) as [w1 st1]. cbn [fst snd] in *. subst st1. by apply Hw2.
  - intros Hf file Hfile. rewrite encoded_app, app_assoc. apply Ha2; [by rewrite Hf2|by apply Ha1].
  - intros Hd i feed Hi. rewrite encoded_app, app_assoc. apply Hr2; [by rewrite Hl2|by apply Hr1].
Qed.

(** The world a server starts in: no memory limit, and the clock stands. *)
Lemma fresh_steady cfg router w :
  maxmemory cfg = 0 → (∀ i, clock w i = now) →
  let w' := set_store w (Store.new (entropy w (tick w)) router (Z.to_nat (shards cfg)) (maxmemory cfg)) in
  steady now w' ∧ ⟦store w'⟧ = ∅.
Proof.
  intros Hm Hc w'. split.
  - split; [|exact Hc]. unfold w'. rewrite Hm. apply reach_new.
  - unfold w'. rewrite Hm.
    by destruct (new_store_ok (entropy w (tick w)) router (Z.to_nat (shards cfg)) 0 ltac:(lia)) as (_ & ? & _).
Qed.

(** C2: a restart recovers the data. Take a server without a memory limit that
    started empty with an empty append-only file, served any commands of any
    connections, one at a time and in any order, its reaper running at any time,
    on a disk without faults and while its clock stood, and stopped, perhaps in
    the middle of writing a record. A restarted server without a memory limit,
    whose clock reads the same, recovers exactly the entries that were visible,
    whatever its shards and hash functions. *)
Theorem aof_recovery sv0 sv cfg router snap faults links w0 next n :
  steady now (world sv0) → ⟦store (world sv0)⟧ = ∅ → aof sv0 = Some (aof_open []) →
  (∀ t, aof_fault sv0 t = None) → rtc server_step sv0 sv →
  appendonly cfg = true → maxmemory cfg = 0 → (∀ i, clock w0 i = now) →
  command_fits next → (n < length (encode_command next []))%nat →
  ∃ file, aof sv = Some (aof_open file) ∧
    let sv' := bootstrap router cfg (Some (file ++ take n (encode_command next []))) snap faults links w0 in
    same_view now ⟦store (world sv')⟧ ⟦store (world sv)⟧.
Proof.
  intros Hs0 He0 Ha0 Hf Hrun Hon Hmm Hclk Hfit Hn. rewrite encode_command_eq in *.
  destruct (server_run_logged sv0 sv Hs0 Hrun) as (_ & _ & log & (Hlog & Hw & Ha & _)).
  exists (encoded log). split; [by apply (Ha Hf [])|].
  destruct (fresh_steady cfg router w0 Hmm Hclk) as [Hsw Hew].
  unfold bootstrap, load_aof, replay_file. set (w1 := set_store w0 _) in *. rewrite Hon. cbn [andb].
  rewrite bool_decide_eq_true_2 by done.
  pose proof (replay_loop_encoded cfg log (take n (Resp.write_cmd [] next)) [] internal 0
    (S (length (encoded log ++ take n (Resp.write_cmd [] next)))) w1 Hlog
    (parse_encoded_prefix next n Hfit Hn) ltac:(lia)) as Hr.
  rewrite app_nil_l in Hr. cbn [length] in Hr. rewrite Hr. cbn [world].
  destruct (Hw cfg internal w1) as [(_ & _ & Hv) _]; [|by symmetry].
  split_and!; [done..|]. by rewrite He0, Hew.
Qed.

End history.
