(* ===== verification/Commute.v ===== *)
(** * Commands on different keys commute

    A write command sees and changes the keys of its arguments only, so that two
    commands without a common key can be served, logged and replayed in either
    order. *)
From S2P Require Import Prelude Std Map Eviction Value Shard Spec ShardOk Store StoreOk StoreProps.
From S2P Require Import Resp RespOk Reply RespProps Dump Config Commands CommandsOk Persistence Conn ConnOk ConnProps.
From S2P Require Import Effects Replica View Durable.
Local Open Scope Z_scope.

Section commute.
Context {HO : HashOrder} {FT : FloatText}.
Context (now : Z).
Implicit Types (w : World) (K : list bytes) (argv : list bytes) (cmds : list (list bytes)).

(** ** Programs on some keys *)

Definition same_on K w1 w2 : Prop :=
  ∀ k, k ∈ K → Db.find now ⟦store w1⟧ k = Db.find now ⟦store w2⟧ k.

(** [f] changes the keys in [K] at most, and only they matter to it. *)
Definition confined K {A : Type} (f : M A) : Prop :=
  (∀ w, steady now w → steady now (f w).1 ∧
     ∀ k, k ∉ K → Db.find now ⟦store (f w).1⟧ k = Db.find now ⟦store w⟧ k) ∧
  (∀ w1 w2, steady now w1 → steady now w2 → same_on K w1 w2 →
     same_on K (f w1).1 (f w2).1 ∧ (f w1).2 = (f w2).2).

Lemma confined_ret K {A : Type} (a : A) : confined K (mret a).
Proof. by split. Qed.

Lemma confined_bind K {A B : Type} (f : M A) (g : A → M B) :
  confined K f → (∀ a, confined K (g a)) → confined K (f ≫= g).
Proof.
  intros [Hf1 Hf2] Hg. unfold mbind, M_bind. split.
  - intros w Hw. destruct (Hf1 w Hw) as [Hs Hk]. destruct (f w) as [w' a]. cbn [fst] in *.
    destruct (proj1 (Hg a) w' Hs) as [Hs' Hk']. split; [done|]. intros k Hn. by rewrite Hk', Hk.
  - intros w1 w2 Hw1 Hw2 Hon. destruct (Hf1 w1 Hw1) as [Hs1 _], (Hf1 w2 Hw2) as [Hs2 _].
    destruct (Hf2 w1 w2 Hw1 Hw2 Hon) as [Hon' Heq]. destruct (f w1) as [w1' a1], (f w2) as [w2' a2].
    cbn [fst snd] in *. subst a2. by apply (proj2 (Hg a1)).
Qed.

Lemma confined_call K {R : Type} (o : Op) (C : R → Ret) (f : Z → Store.t → Store.t * R) :
  (∀ t st, Store.exec t st o = prod_map id C (f t st)) → Inj eq eq C → op_ok o → op_key o ∈ K →
  confined K (call f).
Proof.
  intros Hf HC Ho Hk. split.
  - intros w Hw. destruct (call_steady now o C f w Hf Ho Hw) as (Hs & _ & Ha). split; [done|].
    intros k Hn. rewrite Ha. apply exec_other_key. by intros ->.
  - intros w1 w2 Hw1 Hw2 Hon.
    destruct (call_steady now o C f w1 Hf Ho Hw1) as (_ & Hr1 & Ha1).
    destruct (call_steady now o C f w2 Hf Ho Hw2) as (_ & Hr2 & Ha2).
    destruct (exec_at_key now ⟦store w1⟧ ⟦store w2⟧ o (Hon _ Hk)) as [Hr He].
    split; [|apply HC; congruence]. intros k Hin. rewrite Ha1, Ha2.
    destruct (decide (k = op_key o)) as [->|Hne]; [done|]. rewrite !exec_other_key by done. by apply Hon.
Qed.

Lemma confined_now K : confined K now_ms.
Proof.
  split; [by intros w Hw|]. intros w1 w2 [_ Hc1] [_ Hc2] Hon. split; [done|].
  unfold now_ms, call. cbn [snd]. by rewrite Hc1, Hc2.
Qed.

Lemma confined_built K (P : Effect → Prop) A (f : M A) :
  (∀ o, P (EOp o) → op_ok o ∧ op_key o ∈ K) → ¬ P EFlush → built P f → confined K f.
Proof.
  intros HP Hfl. induction 1 as [A a|A B f g _ IHf _ IHg|R o C f Hf HC Ho|A g _ IHg _|?]; [| | | |done].
  - apply confined_ret.
  - by apply confined_bind.
  - destruct (HP o Ho). by apply (confined_call K o C).
  - by apply confined_bind; [apply confined_now|].
Qed.

(** Programs on different keys commute. *)
Lemma confined_swap K1 K2 {A B : Type} (f : M A) (g : M B) w :
  confined K1 f → confined K2 g → (∀ k, k ∈ K1 → k ∉ K2) → steady now w →
  alike now (g (f w).1).1 (f (g w).1).1.
Proof.
  intros [Hf1 Hf2] [Hg1 Hg2] Hdis Hw.
  destruct (Hf1 w Hw) as [Hsf Hkf], (Hg1 w Hw) as [Hsg Hkg].
  destruct (Hg1 (f w).1 Hsf) as [Hsgf Hkgf], (Hf1 (g w).1 Hsg) as [Hsfg Hkfg].
  split_and!; [done..|]. intros k.
  assert (same_on K1 w (g w).1) as H1 by (intros j Hj; symmetry; apply Hkg; by apply Hdis).
  assert (same_on K2 w (f w).1) as H2 by (intros j Hj; symmetry; apply Hkf; intros Hin; by eapply Hdis).
  destruct (decide (k ∈ K1)) as [Hin1|Hn1].
  - rewrite Hkgf by (by apply Hdis). by apply (Hf2 _ _ Hw Hsg H1).
  - rewrite Hkfg by done. destruct (decide (k ∈ K2)) as [Hin2|Hn2].
    + symmetry. by apply (Hg2 _ _ Hw Hsf H2).
    + by rewrite Hkgf, Hkf, Hkg.
Qed.

(** ** Write commands *)

(** Neither empties the store, and no key is common. *)
Definition independent (a b : list bytes) : Prop :=
  flushes a = false ∧ flushes b = false ∧ ∀ k, k ∈ command_keys a → k ∉ command_keys b.

Lemma independent_sym a b : independent a b → independent b a.
Proof. intros (? & ? & H). split_and!; [done..|]. intros k Hb Ha. by eapply H. Qed.

Definition is_write argv : Prop := is_write_command (upper (argv !!! 0%nat)) = true.

Lemma dispatch_confined argv :
  is_write argv → flushes argv = false →
  ∃ f : M Outcome, confined (command_keys argv) f ∧
    ∀ st cfg w, dispatch argv st cfg w = (let '(w', o) := f w in (w', (st, o))).
Proof.
  intros (f & Hf & Heq)%dispatch_effectful Hfl. exists f. split; [|done].
  apply (confined_built _ (may argv)); [by intros o (? & ? & _)| |done]. cbn [may]. congruence.
Qed.

(** Writes served on like worlds leave like worlds, and the connection as it is. *)
Lemma dispatch_all_alike cmds cfg1 cfg2 st w1 w2 :
  Forall is_write cmds → alike now w1 w2 →
  alike now (dispatch_all cfg1 st cmds w1).1 (dispatch_all cfg2 st cmds w2).1 ∧
  (dispatch_all cfg1 st cmds w1).2 = st.
Proof.
  intros Hc. revert w1 w2. induction Hc as [|argv cmds Hwr _ IH]; intros w1 w2 Hw; [done|].
  cbn [dispatch_all]. unfold mbind, M_bind. destruct (dispatch_replayable now argv Hwr) as (f & Hf & Heq).
  rewrite !Heq. destruct (Hf _ _ Hw) as [Ha _]. destruct (f w1) as [w1' o1], (f w2) as [w2' o2]. by apply IH.
Qed.

Lemma alike_refl w : steady now w → alike now w w.
Proof. intros Hw. by split_and!. Qed.

Lemma alike_trans w1 w2 w3 : alike now w1 w2 → alike now w2 w3 → alike now w1 w3.
Proof. intros (? & _ & H12) (_ & ? & H23). split_and!; [done..|]. by rewrite H12. Qed.

Lemma dispatch_swap a b cfg st w :
  is_write a → is_write b → independent a b → steady now w →
  alike now (dispatch_all cfg st [a; b] w).1 (dispatch_all cfg st [b; a] w).1.
Proof.
  intros Ha Hb (Hfa & Hfb & Hdis) Hw.
  destruct (dispatch_confined a Ha Hfa) as (f & Hf & Hef), (dispatch_confined b Hb Hfb) as (g & Hg & Heg).
  pose proof (confined_swap _ _ f g w Hf Hg Hdis Hw) as H.
  cbn [dispatch_all]. unfold mbind, M_bind. rewrite Hef, Heg.
  destruct (f w) as [w1 o1], (g w) as [w2 o2]. rewrite Hef, Heg. cbn [fst] in H.
  by destruct (g w1) as [w3 o3], (f w2) as [w4 o4].
Qed.

(** A command moves past commands it has no key in common with. *)
Lemma dispatch_past a cmds cfg st w :
  is_write a → Forall is_write cmds → Forall (independent a) cmds → steady now w →
  alike now (dispatch_all cfg st (a :: cmds) w).1 (dispatch_all cfg st (cmds ++ [a]) w).1.
Proof.
  intros Ha Hc Hind. revert w. induction Hc as [|b cmds Hb Hc IH]; intros w Hw.
  { apply dispatch_all_alike; [by constructor|by apply alike_refl]. }
  apply Forall_cons in Hind as [Hab Hind]. specialize (IH Hind).
  destruct (dispatch_all_alike [b] cfg cfg st w w ltac:(by constructor) (alike_refl w Hw)) as [Hb1 Hst1].
  apply alike_trans with (dispatch_all cfg st (b :: a :: cmds) w).1.
  - change (a :: b :: cmds) with ([a; b] ++ cmds). change (b :: a :: cmds) with ([b; a] ++ cmds).
    rewrite !dispatch_all_app. pose proof (dispatch_swap a b cfg st w Ha Hb Hab Hw) as Hs.
    destruct (dispatch_all_alike [a; b] cfg cfg st w w ltac:(by repeat constructor) (alike_refl w Hw)) as [_ H1].
    destruct (dispatch_all_alike [b; a] cfg cfg st w w ltac:(by repeat constructor) (alike_refl w Hw)) as [_ H2].
    destruct (dispatch_all cfg st [a; b] w) as [w1 st1], (dispatch_all cfg st [b; a] w) as [w2 st2].
    cbn [fst snd] in *. subst st1 st2. by apply dispatch_all_alike.
  - pose proof (dispatch_all_app cfg st [b] (a :: cmds) w) as E1.
    pose proof (dispatch_all_app cfg st [b] (cmds ++ [a]) w) as E2.
    cbn [app] in E1, E2 |- *. rewrite E1, E2.
    destruct (dispatch_all cfg st [b] w) as [w1 st1]. cbn [fst snd] in *. subst st1. apply IH, Hb1.
Qed.

End commute.
