(* ===== verification/Snapshot.v ===== *)
(** * Snapshots rebuild the data

    The commands [dump_commands] writes recreate every live entry, value, type
    and expiry, on an empty store. *)
From S2P Require Import Prelude Std Map Eviction Value Shard Spec ShardOk Store StoreOk StoreProps.
From S2P Require Import Resp RespOk Reply RespProps Dump Float FloatOk Config Commands CommandsOk Persistence Conn ConnOk ConnProps.
From S2P Require Import Replica View Durable.
Local Open Scope Z_scope.

(** ** Collections rebuilt from their elements *)

Section rebuild.
Context {HO : HashOrder}.

Lemma foldl_insert {A : Type} (l : list (bytes * A)) (h0 : gmap bytes A) :
  NoDup l.*1 → foldl (fun h p => <[p.1 := p.2]> h) h0 l = list_to_map l ∪ h0.
Proof.
  revert h0. induction l as [|[k v] l IH]; intros h0 Hnd; csimpl; [by rewrite map_empty_union|].
  apply NoDup_cons in Hnd as [Hk Hnd]. rewrite IH by done.
  rewrite <- insert_union_l. symmetry. apply insert_union_r. by apply not_elem_of_list_to_map_1.
Qed.

Lemma foldl_insert_perm {A : Type} (l : list (bytes * A)) (h : gmap bytes A) :
  l ≡ₚ map_to_list h → foldl (fun h p => <[p.1 := p.2]> h) ∅ l = h.
Proof.
  intros Hp. rewrite foldl_insert by (rewrite Hp; apply NoDup_fst_map_to_list).
  rewrite map_union_empty. symmetry. by apply list_to_map_flip.
Qed.

Lemma rebuild_hash h : (hset_body (iter_map h) ∅).1 = h.
Proof.
  destruct (hset_body_spec (iter_map h) ∅) as [-> _]. apply foldl_insert_perm, iter_map_perm.
Qed.

Lemma rebuild_set s : (sadd_body (iter_set s) ∅).1 = s.
Proof.
  destruct (sadd_body_spec (iter_set s) ∅) as [-> _].
  rewrite (union_empty_l_L). apply set_eq. intros x.
  rewrite elem_of_list_to_set, iter_set_perm, elem_of_elements. done.
Qed.

(** A sorted set is determined by its scores. *)
Lemma sorted_unique (l1 l2 : list (f64 * bytes)) :
  StronglySorted pair_lt l1 → StronglySorted pair_lt l2 → (∀ p, p ∈ l1 ↔ p ∈ l2) → l1 = l2.
Proof.
  intros H1. revert l2. induction H1 as [|x l1 Hs IH Hx]; intros l2 H2 Hel.
  - destruct l2 as [|y l2]; [done|]. exfalso. eapply not_elem_of_nil, Hel. by left.
  - destruct H2 as [|y l2 Hs2 Hy]; [exfalso; eapply not_elem_of_nil, Hel; by left|].
    rewrite Forall_forall in Hx, Hy.
    assert (x = y) as ->.
    { pose proof (proj1 (Hel x) ltac:(by left)) as [->|Hxl]%elem_of_cons; [done|].
      pose proof (proj2 (Hel y) ltac:(by left)) as [->|Hyl]%elem_of_cons; [done|].
      exfalso. apply (pair_lt_irrefl x). eapply pair_cmp_trans; [by apply Hx|by apply Hy]. }
    f_equal. apply IH; [done|]. intros p. specialize (Hel p). rewrite !elem_of_cons in Hel.
    split; intros Hp; [destruct (proj1 Hel (or_intror Hp)) as [->|]|
                       destruct (proj2 Hel (or_intror Hp)) as [->|]]; try done;
      exfalso; apply (pair_lt_irrefl y); auto.
Qed.

Lemma zset_unique z1 z2 : zset_ok z1 → zset_ok z2 → ZSet.scores z1 = ZSet.scores z2 → z1 = z2.
Proof.
  intros [Hs1 _ Ha1] [Hs2 _ Ha2] Heq. destruct z1 as [sc1 so1], z2 as [sc2 so2]. simpl in *. subst sc2.
  f_equal. apply sorted_unique; [done..|]. intros [s m]. by rewrite <- Ha1, Ha2.
Qed.

Lemma rebuild_zset z : zset_ok z → (zadd_body (ZSet.sorted z) ZSet.default).1 = z.
Proof.
  intros Hz. destruct (zadd_body_spec (ZSet.sorted z) ZSet.default zset_default_ok (zok_scores z Hz))
    as (Hok & Hsc & _).
  apply zset_unique; [done..|]. rewrite Hsc. cbn [ZSet.scores ZSet.default].
  rewrite <- (foldl_insert_perm _ _ (zset_sorted_perm z Hz)).
  clear. generalize (∅ : gmap bytes f64). generalize (ZSet.sorted z). intros l. induction l as [|p l IH]; intros h; [done|].
  apply IH.
Qed.

End rebuild.

(** ** The commands of a snapshot *)

Section dump.
Context {HO : HashOrder} {FT : FloatText}.
Implicit Types (now : Z) (st : Store.t) (k : bytes) (e : Entry).

Definition entries st : list (bytes * Entry) :=
  Store.shards st ≫= fun s => FlatMap.iter (Shard.map s).

Lemma shard_entries st i s k e :
  wf st → Store.shards st !! i = Some s → (k, e) ∈ FlatMap.iter (Shard.map s) ↔ ⟦s⟧ !! k = Some e.
Proof.
  intros Hst Hi. pose proof (st_shards st Hst i s Hi) as (Hs & _ & _)%wf_parts.
  rewrite (FlatMap.fm_iter (Shard.map s) (core_map s Hs)). by rewrite elem_of_map_to_list.
Qed.

Lemma elem_of_entries st k e : wf st → (k, e) ∈ entries st ↔ ⟦st⟧ !! k = Some e.
Proof.
  intros Hst. unfold entries. rewrite list_elem_of_bind. split.
  - intros (s & Hk & [i Hi]%list_elem_of_lookup). rewrite (shard_entries st i s) in Hk by done.
    eapply lookup_weaken; [exact Hk|]. by eapply shard_subseteq.
  - rewrite store_lookup by done. intros Hk. exists (Store.shard st k). split.
    + by rewrite (shard_entries st _ _ k e Hst (shard_lookup st k Hst)).
    + apply list_elem_of_lookup. eexists. by apply shard_lookup.
Qed.

Lemma entries_NoDup st : wf st → NoDup (entries st).*1.
Proof.
  intros Hst.
  assert ((entries st).*1 = Store.shards st ≫= fun s => (FlatMap.iter (Shard.map s)).*1) as ->.
  { unfold entries. induction (Store.shards st) as [|s l IH]; csimpl; [done|]. by rewrite fmap_app, IH. }
  apply NoDup_bind_index.
  - intros i j s s' k Hi Hj ([k1 e] & -> & Hk)%list_elem_of_fmap ([k2 e'] & Heq & Hk')%list_elem_of_fmap.
    simpl in Heq. subst k2. rewrite (shard_entries st i s) in Hk by done.
    rewrite (shard_entries st j s') in Hk' by done.
    rewrite <- (st_routed st Hst i s k1 Hi (mk_is_Some _ _ Hk)).
    exact (st_routed st Hst j s' k1 Hj (mk_is_Some _ _ Hk')).
  - intros i s Hi. pose proof (st_shards st Hst i s Hi) as (Hs & _ & _)%wf_parts.
    rewrite (FlatMap.fm_iter (Shard.map s) (core_map s Hs)). apply NoDup_fst_map_to_list.
Qed.

Definition entry_commands now (kv : bytes * Entry) : list (list bytes) :=
  let '(k, e) := kv in
  if Shard.unexpired now e then
    recreate_args k (value e) ::
    match expire_at e with
    | Some t => [[lit "PEXPIREAT"; k; u64_to_string t]]
    | None => []
    end
  else [].

Lemma write_cmd_app out args : Resp.write_cmd out args = out ++ Resp.write_cmd [] args.
Proof. by rewrite !write_cmd_concat. Qed.

Lemma dump_entry_encoded now out kv :
  dump_entry now out kv = out ++ encoded (entry_commands now kv).
Proof.
  destruct kv as [k e]. unfold dump_entry, entry_commands, encode_recreate, encoded.
  destruct (Shard.unexpired now e); [|by rewrite app_nil_r].
  destruct (expire_at e); simpl.
  - rewrite write_cmd_app, (write_cmd_app out). by rewrite app_nil_r, <- app_assoc.
  - by rewrite write_cmd_app, app_nil_r.
Qed.

Lemma foldl_encoded {A : Type} (f : bytes → A → bytes) (g : A → list (list bytes)) out l :
  (∀ out a, f out a = out ++ encoded (g a)) → foldl f out l = out ++ encoded (l ≫= g).
Proof.
  intros Hf. revert out. induction l as [|a l IH]; intros out; csimpl; [by rewrite app_nil_r|].
  by rewrite IH, Hf, encoded_app, <- app_assoc.
Qed.

(** A snapshot is the records of its commands. *)
Lemma dump_commands_encoded now st :
  dump_commands now st = encoded (entries st ≫= entry_commands now).
Proof.
  unfold dump_commands.
  rewrite (foldl_encoded _ (fun s => FlatMap.iter (Shard.map s) ≫= entry_commands now)).
  - unfold entries. rewrite app_nil_l. f_equal.
    induction (Store.shards st) as [|s l IH]; csimpl; [done|]. by rewrite bind_app, IH.
  - intros out s. unfold dump_shard. apply foldl_encoded, dump_entry_encoded.
Qed.

(** ** Restoring an entry *)

(** The limits of the format: the parser's limits on records, an expiry that is
    an [i64], and scores whose text is read back. *)
Definition restorable now k e : Prop :=
  Forall command_fits (entry_commands now (k, e)) ∧
  match expire_at e with Some t => 0 <= t <= i64_max | None => True end ∧
  match value e with
  | VZSet z => Forall (fun p => parse_f64 (fmt_score p.1) = Some p.1) (ZSet.sorted z)
  | _ => True
  end.

End dump.

Section restore.
Context {HO : HashOrder} {FT : FloatText}.
Context (now : Z).
Implicit Types (w : World) (st : ConnState) (k : bytes) (e : Entry) (v : Value).

Definition restored w st k e (r : World * (ConnState * Outcome)) : Prop :=
  steady now r.1 ∧ r.2.1 = st ∧ ⟦store r.1⟧ = <[k := e]> ⟦store w⟧.

Lemma restored_call {R : Type} (o : Op) (C : R → Ret) (f : Z → Store.t → Store.t * R)
    (g : R → Outcome) w st k e :
  (∀ t s, Store.exec t s o = prod_map id C (f t s)) → op_ok o → steady now w →
  (Db.exec now ⟦store w⟧ o).1 = <[k := e]> ⟦store w⟧ →
  restored w st k e ((o ← (r ← call f; mret (g r)); mret (st, o)) w).
Proof.
  intros Hf Ho Hw He. destruct (call_steady now o C f w Hf Ho Hw) as (Hs & _ & Ha).
  unfold restored, mbind, M_bind. destruct (call f w) as [w' r]. cbn [fst snd] in *.
  split_and!; [done..|]. by rewrite <- He.
Qed.

Lemma update_fresh {C R : Type} `{CollectionOk C} (m : Db.t) k (body : C → C * R) c :
  m !! k = None → (body make).1 = c → value_ok (variant c) →
  (Db.update now m k body).1 = <[k := mkEntry (variant c) None]> m.
Proof.
  intros Hk Hb Hv. unfold Db.update, Db.find. rewrite Hk. simpl.
  destruct (body make) as [c' r]. simpl in *. subst c'.
  apply value_ok_variant in Hv as [_ ->]. done.
Qed.

Lemma prod_map_fst {A B D : Type} (g : B → D) (p : A * B) : (prod_map id g p).1 = p.1.
Proof. by destruct p. Qed.

Lemma restore_str cfg st w k s :
  steady now w → ⟦store w⟧ !! k = None →
  restored w st k (mkEntry (VStr s) None) (dispatch (recreate_args k (VStr s)) st cfg w).
Proof.
  intros Hw Hk.
  assert (dispatch (recreate_args k (VStr s)) st cfg w =
    (o ← (did ← call (fun t s' => Store.set t s' k s default_options);
          mret (out_maybe (if (did : bool) then ok else Bulk None) did)); mret (st, o))
      (set_store w (store w))) as -> by reflexivity.
  assert (steady now (set_store w (store w))) as Hw' by exact Hw.
  apply (restored_call (OSet k s default_options) RBool _ _ (set_store w (store w))); [done..|].
  cbn [Db.exec]. rewrite prod_map_fst. unfold Db.set, Db.find. cbn [store set_store]. by rewrite Hk.
Qed.

Lemma restore_list cfg st w k l :
  steady now w → ⟦store w⟧ !! k = None → l ≠ [] →
  restored w st k (mkEntry (VList l) None) (dispatch (recreate_args k (VList l)) st cfg w).
Proof.
  intros Hw Hk Hl.
  assert (dispatch (recreate_args k (VList l)) st cfg w =
    (o ← (r ← call (fun t s => Store.push t s k l false); mret (written_len r)); mret (st, o)) w) as ->.
  { destruct l; [done|]. reflexivity. }
  apply (restored_call (OPush k l false) RLen); [done..|].
  cbn [Db.exec]. rewrite prod_map_fst.
  change (VList l) with (variant l).
  apply (update_fresh ⟦store w⟧ k (push_body l false) l); [done| |done]. by rewrite push_body_spec.
Qed.

Lemma pairs_of_flat (l : list (bytes * bytes)) : pairs_of (l ≫= fun '(f, v) => [f; v]) = l.
Proof. induction l as [|[f v] l IH]; csimpl; [done|]. by rewrite IH. Qed.

Lemma flat_length {A : Type} (f : A → list bytes) (l : list A) :
  (∀ a, length (f a) = 2%nat) → length (l ≫= f) = (2 * length l)%nat.
Proof.
  intros Hf. induction l as [|a l IH]; csimpl; [done|]. rewrite length_app, IH, Hf. lia.
Qed.

Lemma even_length n : is_multiple_of_2 (S (S (2 * n))) = true.
Proof.
  unfold is_multiple_of_2. replace (S (S (2 * n))) with (0 + (n + 1) * 2)%nat by lia.
  rewrite Nat.Div0.mod_add. done.
Qed.

Lemma restore_hash cfg st w k h :
  steady now w → ⟦store w⟧ !! k = None → h ≠ ∅ →
  restored w st k (mkEntry (VHash h) None) (dispatch (recreate_args k (VHash h)) st cfg w).
Proof.
  intros Hw Hk Hh. set (l := iter_map h).
  assert (length l ≠ O) as Hl.
  { unfold l. rewrite iter_map_perm, length_map_to_list. by apply map_size_non_empty_iff. }
  assert (dispatch (recreate_args k (VHash h)) st cfg w =
    (o ← (r ← call (fun t s => Store.hset t s k l); mret (match r with
          | Ok n => out_w (Int (Z.of_nat n)) | Err e => out_r (store_err e) end)); mret (st, o)) w) as ->.
  { unfold recreate_args. fold l. set (args := l ≫= _).
    assert (length args = (2 * length l)%nat) as Hlen by (apply flat_length; by intros []).
    change (dispatch (lit "HSET" :: k :: args) st cfg w) with
      ((o ← hset_cmd (lit "HSET" :: k :: args) false; mret (st, o)) w).
    unfold hset_cmd. change (length (lit "HSET" :: k :: args)) with (S (S (length args))).
    rewrite Hlen, even_length, (proj2 (Nat.ltb_ge _ _)) by lia. cbn [negb orb].
    change (drop 2 (lit "HSET" :: k :: args)) with args. unfold args. by rewrite pairs_of_flat. }
  apply (restored_call (OHset k l) RLen); [done..|].
  cbn [Db.exec]. rewrite prod_map_fst.
  change (VHash h) with (variant h).
  apply (update_fresh ⟦store w⟧ k (hset_body l) h); [done|apply rebuild_hash|done].
Qed.

Lemma restore_set cfg st w k s :
  steady now w → ⟦store w⟧ !! k = None → s ≠ ∅ →
  restored w st k (mkEntry (VSet s) None) (dispatch (recreate_args k (VSet s)) st cfg w).
Proof.
  intros Hw Hk Hs. set (l := iter_set s).
  assert (l ≠ []) as Hl.
  { intros Hl. apply Hs, leibniz_equiv, elements_empty_inv, Permutation_nil_r.
    rewrite <- iter_set_perm. fold l. by rewrite Hl. }
  assert (dispatch (recreate_args k (VSet s)) st cfg w =
    (o ← (r ← call (fun t s => Store.sadd t s k l); mret (dirty_count r)); mret (st, o)) w) as ->.
  { unfold recreate_args. fold l. clearbody l. destruct l; [done|]. reflexivity. }
  apply (restored_call (OSadd k l) RLen); [done..|].
  cbn [Db.exec]. rewrite prod_map_fst.
  change (VSet s) with (variant s).
  apply (update_fresh ⟦store w⟧ k (sadd_body l) s); [done|apply rebuild_set|done].
Qed.

Lemma zadd_pairs_scores (l : list (f64 * bytes)) :
  Forall (fun p => parse_f64 (fmt_score p.1) = Some p.1) l →
  zadd_pairs (pairs_of (l ≫= fun '(sc, m) => [fmt_score sc; m])) = Some l.
Proof.
  induction 1 as [|[sc m] l Hp _ IH]; csimpl; [done|]. simpl in Hp. by rewrite Hp, IH.
Qed.

Lemma restore_zset cfg st w k z :
  steady now w → ⟦store w⟧ !! k = None → zset_ok z → ZSet.len z ≠ O →
  Forall (fun p => parse_f64 (fmt_score p.1) = Some p.1) (ZSet.sorted z) →
  restored w st k (mkEntry (VZSet z) None) (dispatch (recreate_args k (VZSet z)) st cfg w).
Proof.
  intros Hw Hk Hz Hne Hsc. set (l := ZSet.sorted z).
  assert (length l ≠ O) as Hl by (unfold l; by rewrite <- zset_len).
  assert (dispatch (recreate_args k (VZSet z)) st cfg w =
    (o ← (r ← call (fun t s => Store.zadd t s k l); mret (written_len r)); mret (st, o)) w) as ->.
  { unfold recreate_args. fold l. set (args := l ≫= _).
    assert (length args = (2 * length l)%nat) as Hlen by (apply flat_length; by intros []).
    change (dispatch (lit "ZADD" :: k :: args) st cfg w) with
      ((o ← zadd_cmd (lit "ZADD" :: k :: args); mret (st, o)) w).
    unfold zadd_cmd. change (length (lit "ZADD" :: k :: args)) with (S (S (length args))).
    rewrite Hlen, even_length, (proj2 (Nat.ltb_ge _ _)) by lia. cbn [negb orb].
    change (drop 2 (lit "ZADD" :: k :: args)) with args. unfold args.
    by rewrite (zadd_pairs_scores l Hsc). }
  apply (restored_call (OZadd k l) RLen); [done|exact (zok_scores z Hz)|done|].
  cbn [Db.exec]. rewrite prod_map_fst. change (VZSet z) with (variant z).
  apply (update_fresh ⟦store w⟧ k (zadd_body l) z); [done|by apply rebuild_zset|done].
Qed.

Lemma restore_value cfg st w k e :
  steady now w → ⟦store w⟧ !! k = None → value_ok (value e) → restorable now k e →
  restored w st k (mkEntry (value e) None) (dispatch (recreate_args k (value e)) st cfg w).
Proof.
  intros Hw Hk Hv (_ & _ & Hsc). destruct (value e) as [s|l|h|s|z].
  - by apply restore_str.
  - by apply restore_list.
  - by apply restore_hash.
  - by apply restore_set.
  - destruct Hv. by apply restore_zset.
Qed.

(** The second command sets the expiry again. *)
Lemma restore_expiry cfg st w k v t :
  steady now w → ⟦store w⟧ !! k = Some (mkEntry v None) → 0 <= t <= i64_max →
  restored w st k (mkEntry v (Some t))
    (dispatch [lit "PEXPIREAT"; k; u64_to_string t] st cfg w).
Proof.
  intros Hw Hk Ht.
  assert (parse_i64_bytes (u64_to_string t) = Some t) as Hp.
  { pose proof (parse_i64_to_string t) as Hp. unfold i64_to_string in Hp.
    destruct (Z.ltb_spec t 0); [lia|]. apply Hp. apply in_i64_spec. unfold i64_max in Ht. lia. }
  change (dispatch [lit "PEXPIREAT"; k; u64_to_string t] st cfg w) with
    ((o ← expire_cmd [lit "PEXPIREAT"; k; u64_to_string t] 1 true; mret (st, o)) w).
  unfold expire_cmd. change ([lit "PEXPIREAT"; k; u64_to_string t] !!! 2%nat) with (u64_to_string t).
  rewrite Hp. change ([lit "PEXPIREAT"; k; u64_to_string t] !!! 1%nat) with k.
  cbn [length Nat.ltb Nat.leb].
  destruct (call_steady now (OExists k) RBool (fun t s => Store.exists_ t s k) w) as (Hs1 & Hr1 & Ha1);
    [done..|].
  cbn [Db.exec fst snd] in Hr1, Ha1. unfold Db.purge, Db.find in Hr1, Ha1. rewrite Hk in Hr1, Ha1.
  cbn in Hr1, Ha1.
  unfold mbind, M_bind. destruct (call (fun t s => Store.exists_ t s k) w) as [w1 ex].
  cbn [fst snd] in *. injection Hr1 as ->. cbn [negb].
  assert (wrap_u64 (Z.max t 0 * 1) = t) as Hwrap.
  { rewrite Z.max_l, Z.mul_1_r by lia. unfold wrap_u64, u64_modulus. apply Z.mod_small.
    unfold i64_max in Ht. lia. }
  rewrite Hwrap. unfold now_ms, call at 1. cbn [fst snd].
  assert (steady now (set_store w1 (store w1))) as Hs2 by exact Hs1.
  destruct (call_steady now (OExpireAt k (Some t)) RBool (fun n s => Store.expire_at n s k (Some t))
    (set_store w1 (store w1))) as (Hs3 & _ & Ha3); [done..|].
  cbn [lookup list_lookup]. unfold mret, M_ret.
  destruct (call (fun n s => Store.expire_at n s k (Some t)) (set_store w1 (store w1))) as [w3 b].
  cbn [fst snd store set_store] in *. split_and!; [done..|]. cbn [fst]. rewrite Ha3. cbn [Db.exec].
  unfold Db.find. rewrite Ha1, Hk. done.
Qed.

Lemma restore_entry cfg st w k e :
  steady now w → ⟦store w⟧ !! k = None → value_ok (value e) → restorable now k e →
  Shard.unexpired now e = true →
  let '(w', st') := dispatch_all cfg st (entry_commands now (k, e)) w in
  steady now w' ∧ st' = st ∧ ⟦store w'⟧ = <[k := e]> ⟦store w⟧.
Proof.
  intros Hw Hk Hv Hr Hu. pose proof Hr as (_ & Ht & _). unfold entry_commands. rewrite Hu.
  pose proof (restore_value cfg st w k e Hw Hk Hv Hr) as (Hs1 & Hst1 & Ha1).
  destruct e as [v [t|]]; cbn [expire_at value dispatch_all] in *; unfold mbind, M_bind;
    destruct (dispatch (recreate_args k v) st cfg w) as [w1 [st1 o1]]; cbn [fst snd] in *; subst st1.
  - destruct (restore_expiry cfg st w1 k v t) as (Hs2 & Hst2 & Ha2); [done| |done|].
    { by rewrite Ha1, lookup_insert_eq. }
    destruct (dispatch _ st cfg w1) as [w2 [st2 o2]]. cbn [fst snd] in *. subst st2.
    split_and!; [done..|]. by rewrite Ha2, Ha1, insert_insert_eq.
  - done.
Qed.

Lemma restore_entries cfg st w (l : list (bytes * Entry)) :
  steady now w → NoDup l.*1 →
  (∀ k e, (k, e) ∈ l → ⟦store w⟧ !! k = None ∧ value_ok (value e) ∧
     (Shard.unexpired now e = true → restorable now k e)) →
  let '(w', st') := dispatch_all cfg st (l ≫= entry_commands now) w in
  steady now w' ∧ st' = st ∧
  ⟦store w'⟧ = list_to_map (filter (fun p => Shard.unexpired now p.2 = true) l) ∪ ⟦store w⟧.
Proof.
  revert w. induction l as [|[k e] l IH]; intros w Hw Hnd Hl.
  { simpl. split_and!; [done..|]. by rewrite map_empty_union. }
  csimpl in Hnd. apply NoDup_cons in Hnd as [Hk Hnd].
  change (((k, e) :: l) ≫= entry_commands now) with
    (entry_commands now (k, e) ++ (l ≫= entry_commands now)).
  rewrite dispatch_all_app. destruct (Hl k e ltac:(by left)) as (Hfresh & Hv & Hr).
  destruct (Shard.unexpired now e) eqn:Hu.
  - pose proof (restore_entry cfg st w k e Hw Hfresh Hv (Hr eq_refl) Hu) as H1.
    destruct (dispatch_all cfg st (entry_commands now (k, e)) w) as [w1 st1].
    destruct H1 as (Hs1 & -> & Ha1). specialize (IH w1 Hs1 Hnd).
    destruct (dispatch_all cfg st (l ≫= entry_commands now) w1) as [w2 st2].
    destruct IH as (Hs2 & -> & Ha2).
    { intros j x Hj. destruct (Hl j x ltac:(by right)) as (? & ? & ?). split_and!; [|done..].
      rewrite Ha1, lookup_insert_ne; [done|]. intros <-. apply Hk.
      apply list_elem_of_fmap. by exists (k, x). }
    split_and!; [done..|]. rewrite filter_cons_True by done. csimpl.
    rewrite Ha2, Ha1, <- insert_union_l. symmetry. apply insert_union_r.
    apply not_elem_of_list_to_map_1. intros ([j x] & -> & [_ Hj]%list_elem_of_filter)%list_elem_of_fmap.
    apply Hk, list_elem_of_fmap. by exists (j, x).
  - unfold entry_commands at 1. rewrite Hu. cbn [dispatch_all]. unfold mret, M_ret.
    rewrite filter_cons_False by (simpl; by rewrite Hu). apply IH; [done..|].
    intros j x Hj. apply Hl. by right.
Qed.

End restore.

(** ** Properties *)

Section props.
Context {HO : HashOrder} {FT : FloatText}.
Context (now : Z).
Implicit Types (w : World) (st : Store.t) (k : bytes) (e : Entry) (sv : Server) (cfg : Config).

Definition all_restorable st : Prop :=
  ∀ k e, Db.find now ⟦st⟧ k = Some e → restorable now k e.

Definition snapshot_commands st : list (list bytes) := entries st ≫= entry_commands now.

Lemma snapshot_sendable st : wf st → all_restorable st → Forall sendable (snapshot_commands st).
Proof.
  intros Hst Hr. apply Forall_forall. intros argv.
  intros ([k e] & Hin & Hk)%list_elem_of_bind. rewrite elem_of_entries in Hk by done.
  unfold entry_commands in Hin. destruct (Shard.unexpired now e) eqn:Hu; [|by apply elem_of_nil in Hin].
  destruct (Hr k e) as (Hfit & _); [by apply Db.find_Some|].
  unfold entry_commands in Hfit. rewrite Hu in Hfit. rewrite Forall_forall in Hfit.
  split; [|by apply Hfit]. apply elem_of_cons in Hin as [->|Hin]; [by destruct (value e)|].
  destruct (expire_at e); [apply list_elem_of_singleton in Hin as ->; done|by apply elem_of_nil in Hin].
Qed.

Lemma snapshot_restores st cfg cs w0 :
  wf st → all_restorable st → steady now w0 → ⟦store w0⟧ = ∅ →
  let '(w', cs') := dispatch_all cfg cs (snapshot_commands st) w0 in
  steady now w' ∧ cs' = cs ∧ ⟦store w'⟧ = filter (fun p => Shard.unexpired now p.2 = true) ⟦st⟧.
Proof.
  intros Hst Hr Hw0 He0. pose proof (entries_NoDup st Hst) as Hnd.
  pose proof (restore_entries now cfg cs w0 (entries st) Hw0 Hnd) as H.
  unfold snapshot_commands. destruct (dispatch_all _ _ _ w0) as [w' cs'].
  destruct H as (Hs & -> & Ha).
  { intros k e Hk. rewrite elem_of_entries in Hk by done. rewrite He0, lookup_empty.
    split_and!; [done|by eapply store_values_ok|]. intros Hu. apply Hr. by apply Db.find_Some. }
  split_and!; [done..|]. rewrite Ha, He0, map_union_empty. apply map_eq. intros k.
  apply option_eq. intros e. rewrite <- elem_of_list_to_map.
  - rewrite list_elem_of_filter, elem_of_entries, map_lookup_filter_Some by done. naive_solver.
  - eapply sublist_NoDup; [exact Hnd|]. apply fmap_sublist, sublist_filter.
Qed.

Lemma live_view m : same_view now (filter (fun p => Shard.unexpired now p.2 = true) m) m.
Proof.
  intros k. apply option_eq. intros e. rewrite !Db.find_Some, map_lookup_filter_Some. simpl. naive_solver.
Qed.

(** C10: a snapshot restores the data. After [SAVE] succeeds, a server that is
    restarted without an append-only file and without a memory limit, at the
    same reading of the clock, holds exactly the entries that were live, of all
    five types, with their expiry, whatever its shards and hash functions, when
    each is restorable: its commands fit the limits of the parser, its expiry is
    an [i64], and the text of its scores is read back. *)
Theorem snapshot_recovery mm w cfg router faults links w0 :
  0 <= mm → reach mm (store w) → clock w (tick w) = now → io_fault w (tick w) = None →
  all_restorable (store w) → maxmemory cfg = 0 → (∀ i, clock w0 i = now) →
  let '(w1, e) := save_snapshot w in
  let sv := bootstrap router cfg None (snapshot w1) faults links w0 in
  e = None ∧ ⟦store (world sv)⟧ = filter (fun p => Shard.unexpired now p.2 = true) ⟦store w⟧.
Proof.
  intros Hmm Hr Hc Hio Hres Hmem Hclk. apply reach_ok in Hr as [Hst _]; [|done].
  destruct (fresh_steady now cfg router w0 Hmem Hclk) as [Hw0 He0].
  unfold save_snapshot. rewrite Hio, Hc. cbn [snapshot]. split; [done|].
  unfold bootstrap, load_snapshot, replay_file. set (w2 := set_store w0 _) in *.
  rewrite (bool_decide_eq_false_2 (is_Some None)), andb_false_r by (by intros []).
  rewrite bool_decide_eq_true_2 by done.
  rewrite dump_commands_encoded. fold (snapshot_commands (store w)).
  pose proof (replay_loop_encoded cfg (snapshot_commands (store w)) [] [] internal 0
    (S (length (encoded (snapshot_commands (store w))))) w2 (snapshot_sendable _ Hst Hres) eq_refl) as Hp.
  rewrite app_nil_l, app_nil_r in Hp. cbn [length] in Hp. rewrite Hp by lia. cbn [world].
  pose proof (snapshot_restores (store w) cfg internal w2 Hst Hres Hw0 He0) as H.
  destruct (dispatch_all cfg internal _ w2) as [w' cs']. by destruct H as (_ & _ & ?).
Qed.

(** C8: a replica converges. When an empty replica sends [SYNC] to a primary
    that holds any restorable data, and the primary goes on serving any
    commands, one at a time, a replica that has applied all that was sent to it,
    in whatever chunks it arrived, shows the same entries as the primary, if no
    link fails, neither side has a memory limit, and both clocks stand at the
    same time. *)
Theorem replica_converges sv1 sv3 cs out cfg w0 greeting reads :
  steady now (world sv1) → (∀ t i, link_down sv1 t i = false) → all_restorable (store (world sv1)) →
  rtc server_step (handle_command true sv1 cs [lit "SYNC"] out).1.1.1 sv3 →
  steady now w0 → ⟦store w0⟧ = ∅ →
  length greeting = match masterauth cfg with Some _ => 1%nat | None => 0%nat end →
  Forall (.≠ []) reads → replicas sv3 !! length (replicas sv1) = Some (concat reads) →
  same_view now ⟦store (sync_once cfg (greeting ++ reads) w0).1⟧ ⟦store (world sv3)⟧.
Proof.
  intros Hs1 Hlink Hres Hrun Hw0 He0 Hg Hne Hfeed.
  pose proof Hs1 as [[Hst _]%reach_ok Hc]; [|lia].
  set (sv2 := (handle_command true sv1 cs [lit "SYNC"] out).1.1.1) in *.
  assert (sv2 = set_replicas (set_world sv1 (set_store (world sv1) (store (world sv1))))
    (replicas sv1 ++ [encoded (snapshot_commands (store (world sv1)))])) as Hsv2.
  { unfold sv2, snapshot_commands. rewrite <- dump_commands_encoded, <- (Hc (tick (world sv1))).
    unfold handle_command, add_replica_with_snapshot. cbn. by rewrite Hlink. }
  assert (steady now (world sv2)) as Hs2 by (rewrite Hsv2; exact Hs1).
  destruct (server_run_logged now sv2 sv3 Hs2 Hrun) as (_ & _ & more & (Hmore & Hw & _ & Hrep)).
  specialize (Hrep ltac:(rewrite Hsv2; exact Hlink) (length (replicas sv1))).
  rewrite (Hrep (encoded (snapshot_commands (store (world sv1))))) in Hfeed; cycle 1.
  { rewrite Hsv2. cbn [replicas set_replicas]. by apply list_lookup_middle. }
  injection Hfeed as Hfeed. rewrite <- encoded_app in Hfeed.
  unfold sync_once. assert (match masterauth cfg with
    Some _ => drop 1 (greeting ++ reads) | None => greeting ++ reads end = reads) as ->.
  { destruct (masterauth cfg); [by destruct greeting as [|? []]|by destruct greeting]. }
  rewrite (stream_loop_encoded cfg reads [] internal
    (snapshot_commands (store (world sv1)) ++ more) [lit "PING"] 0).
  - cbn [fst]. rewrite dispatch_all_app.
    pose proof (snapshot_restores (store (world sv1)) cfg internal w0 Hst Hres Hw0 He0) as H.
    destruct (dispatch_all cfg internal (snapshot_commands _) w0) as [w1 cs1].
    destruct H as (Hsw1 & -> & Hw1). destruct (Hw cfg internal w1) as [(_ & _ & Hv) _]; [|by symmetry].
    split_and!; [done..|]. rewrite Hsv2, Hw1. cbn [world set_replicas set_world store set_store].
    symmetry. apply live_view.
  - apply Forall_app. split; [by apply snapshot_sendable|done].
  - split; [by compute|repeat constructor; by compute].
  - apply record_nonempty.
  - done.
  - done.
  - unfold torn. by rewrite Hfeed, take_0, app_nil_r.
Qed.

End props.

(** ** Where the recovery falls short *)

Section limits.
Context {HO : HashOrder} {FT : FloatText}.

(** C33: [SYNC] is served before the check of the password: a connection that is
    not authenticated gets a copy of all live data. *)
Theorem sync_before_auth sv st out :
  link_down sv (S (tick (world sv))) (length (replicas sv)) = false → authenticated st = false →
  replicas (handle_command true sv st [lit "SYNC"] out).1.1.1 =
  replicas sv ++ [dump_commands (clock (world sv) (tick (world sv))) (store (world sv))].
Proof.
  intros Hl _. unfold handle_command, add_replica_with_snapshot. cbn. by rewrite Hl.
Qed.

End limits.

(** ** Witnesses *)

#[local] Existing Instance canonical_order.
#[local] Existing Instance demo_float_text.

Definition fresh_world (n : nat) : World :=
  mkWorld (Store.new demo_seeds FlatMap.length_hasher n 0) 0 (fun _ => 10)
    (fun _ => demo_seeds) (fun _ => None) None.

Lemma demo_steady n : steady 10 (fresh_world n).
Proof. split; [apply reach_new|done]. Defined.

Lemma demo_empty n : ⟦store (fresh_world n)⟧ = ∅.
Proof. by destruct (new_store_ok demo_seeds FlatMap.length_hasher n 0 ltac:(lia)) as (_ & ? & _). Qed.

Definition fresh_server : Server :=
  mkServer (fresh_world 2) (demo_config None) (Some (aof_open [])) (fun _ => None) [] (fun _ _ => false) false.

Definition demo_rpush : list bytes := [lit "RPUSH"; lit "l"; lit "x"].

Lemma demo_rpush_sendable : sendable demo_rpush.
Proof. split; [done|]. split; [by compute|repeat constructor; by compute]. Defined.

Definition demo_served : Server :=
  (handle_command true fresh_server (conn_new 7 true) demo_rpush []).1.1.1.

Lemma demo_served_step : server_step fresh_server demo_served.
Proof. apply step_command, demo_rpush_sendable. Defined.

Lemma aof_replay_witness :
  (replay_file (demo_config None)
     (Some (encode_command demo_rpush [] ++ take 7 (encode_command demo_rpush []))) (fresh_world 1)).2 = 1%nat.
Proof.
  pose proof (aof_replay (demo_config None) [demo_rpush] demo_rpush 7 (fresh_world 1)
    ltac:(repeat constructor; apply demo_rpush_sendable) (proj2 demo_rpush_sendable)
    ltac:(vm_compute; lia)) as H.
  cbn [fmap list_fmap concat] in H. rewrite app_nil_r in H. rewrite H. reflexivity.
Defined.

Definition demo_restart (aof_on_disk snap_on_disk : option bytes) : Server :=
  bootstrap FlatMap.length_hasher (demo_config None) aof_on_disk snap_on_disk (fun _ => None)
    (fun _ _ => false) (fresh_world 1).

Lemma aof_recovery_witness :
  ∃ file, aof demo_served = Some (aof_open file) ∧
    same_view 10 ⟦store (world (demo_restart (Some (file ++ take 7 (encode_command demo_rpush []))) None))⟧
      ⟦store (world demo_served)⟧ ∧
    ⟦store (world demo_served)⟧ !! lit "l" = Some (mkEntry (VList [lit "x"]) None).
Proof.
  destruct (aof_recovery 10 fresh_server demo_served (demo_config None) FlatMap.length_hasher None
    (fun _ => None) (fun _ _ => false) (fresh_world 1) demo_rpush 7
    (demo_steady 2) (demo_empty 2) eq_refl (fun _ => eq_refl) (rtc_once _ _ demo_served_step)
    eq_refl eq_refl (fun _ => eq_refl) (proj2 demo_rpush_sendable) ltac:(vm_compute; lia))
    as (file & Ha & H).
  exists file. split; [exact Ha|]. split; [exact H|vm_compute; reflexivity].
Defined.

Lemma demo_served_steady : steady 10 (world demo_served).
Proof. exact (proj1 (server_step_logged 10 fresh_server demo_served (demo_steady 2) demo_served_step)). Defined.

Lemma demo_served_restorable : all_restorable 10 (store (world demo_served)).
Proof.
  assert (⟦store (world demo_served)⟧ = {[lit "l" := mkEntry (VList [lit "x"]) None]}) as Heq
    by (vm_compute; reflexivity).
  intros k e [Hk _]%Db.find_Some. rewrite Heq in Hk. apply lookup_singleton_Some in Hk as [<- <-].
  split_and!; [|done..]. repeat constructor; by compute.
Qed.

Definition demo_synced : Server :=
  (handle_command true demo_served (conn_new 8 true) [lit "SYNC"] []).1.1.1.
Definition demo_later : Server :=
  (handle_command true demo_synced (conn_new 7 true) demo_rpush []).1.1.1.

Lemma replica_converges_witness :
  same_view 10
    ⟦store (sync_once (demo_config None)
       [encode_command demo_rpush []; encode_command demo_rpush []] (fresh_world 1)).1⟧
    ⟦store (world demo_later)⟧.
Proof.
  exact (replica_converges 10 demo_served demo_later (conn_new 8 true) [] (demo_config None) (fresh_world 1)
    [] [encode_command demo_rpush []; encode_command demo_rpush []]
    demo_served_steady (fun _ _ => eq_refl) demo_served_restorable
    (rtc_once _ _ (step_command true demo_synced (conn_new 7 true) demo_rpush [] demo_rpush_sendable))
    (demo_steady 1) (demo_empty 1) eq_refl
    ltac:(repeat constructor; done) ltac:(vm_compute; reflexivity)).
Defined.

Lemma sync_before_auth_witness :
  replicas (handle_command true demo_served (conn_new 8 false) [lit "SYNC"] []).1.1.1 =
  [encode_command demo_rpush []].
Proof.
  etransitivity; [exact (sync_before_auth demo_served (conn_new 8 false) [] eq_refl eq_refl)|].
  vm_compute. reflexivity.
Defined.

(** *** A snapshot of all five types *)

#[local] Existing Instance FloatOk.rust_float_text.

Definition restorable_b (now : Z) (k : bytes) (e : Entry) : bool :=
  bool_decide (Forall (fun argv => Z.of_nat (length argv) <= Resp.MAX_ARRAY_LEN ∧
                 Forall (fun a => Z.of_nat (length a) <= Resp.MAX_BULK_LEN) argv) (entry_commands now (k, e))) &&
  match expire_at e with Some t => (0 <=? t) && (t <=? i64_max) | None => true end &&
  match value e with
  | VZSet z => bool_decide (Forall (fun p => parse_f64 (fmt_score p.1) = Some p.1) (ZSet.sorted z))
  | _ => true
  end.

Lemma restorable_b_spec (now : Z) (k : bytes) (e : Entry) : restorable_b now k e = true → restorable now k e.
Proof.
  unfold restorable_b, restorable. rewrite !andb_true_iff. intros [[Hc%bool_decide_eq_true Ht] Hv].
  split_and!; [done|..].
  - destruct (expire_at e); [|done]. apply andb_true_iff in Ht as [?%Z.leb_le ?%Z.leb_le]. done.
  - destruct (value e); try done. by apply bool_decide_eq_true in Hv.
Qed.

Definition five_commands : list (list bytes) :=
  [[lit "SET"; lit "s"; lit "v"]; [lit "PEXPIREAT"; lit "s"; lit "5000"]; [lit "RPUSH"; lit "l"; lit "a"; lit "b"];
   [lit "HSET"; lit "h"; lit "f"; lit "1"]; [lit "SADD"; lit "m"; lit "x"]; [lit "ZADD"; lit "z"; lit "1.5"; lit "y"]].

Definition five_served : Server :=
  foldl (fun sv argv => (handle_command true sv (conn_new 7 true) argv []).1.1.1) fresh_server five_commands.

Lemma five_steady : steady 10 (world five_served).
Proof.
  assert (∀ (cmds : list (list bytes)) (sv : Server), steady 10 (world sv) → steady 10 (world
    (foldl (fun sv argv => (handle_command true sv (conn_new 7 true) argv []).1.1.1) sv cmds))) as H.
  { induction cmds as [|argv cmds IH]; intros sv Hs; [done|]. cbn [foldl]. apply IH.
    pose proof (handle_command_ok 0 ltac:(lia) true sv (conn_new 7 true) argv [] (proj1 Hs)) as Hok.
    destruct (handle_command _ _ _ _ _) as [[[sv' st'] out'] fl]. destruct Hok as (? & Hc & _).
    split; [done|]. cbn [fst]. rewrite Hc. apply Hs. }
  apply H, demo_steady.
Defined.

Lemma five_restorable : all_restorable 10 (store (world five_served)).
Proof.
  assert (map_Forall (fun k e => restorable_b 10 k e = true) ⟦store (world five_served)⟧) as H
    by (refine (bool_decide_unpack _ _); vm_compute; exact I).
  intros k e [Hk _]%Db.find_Some. by apply restorable_b_spec, (H k e).
Qed.

Lemma snapshot_recovery_witness :
  let sv := bootstrap FlatMap.length_hasher (demo_config None) None (snapshot (save_snapshot (world five_served)).1)
              (fun _ => None) (fun _ _ => false) (fresh_world 1) in
  size ⟦store (world sv)⟧ = 5%nat ∧
  ⟦store (world sv)⟧ !! lit "s" = Some (mkEntry (VStr (lit "v")) (Some 5000)) ∧
  ⟦store (world sv)⟧ = ⟦store (world five_served)⟧.
Proof.
  pose proof (snapshot_recovery 10 0 (world five_served) (demo_config None) FlatMap.length_hasher
    (fun _ => None) (fun _ _ => false) (fresh_world 1) ltac:(lia)
    (proj1 five_steady) (proj2 five_steady _) eq_refl five_restorable
    eq_refl (fun _ => eq_refl)) as H.
  cbv zeta. destruct (save_snapshot (world five_served)) as [w1 e]. cbn [fst].
  rewrite (proj2 H). split_and!; vm_compute; reflexivity.
Defined.
