(* ===== verification/Serial.v ===== *)
(** * Commands of several threads, operation by operation

    Threads take the steps of their commands ([Steps.v]) in any order.  A command
    sees and changes the keys of its arguments only; commands without a common key
    are atomic in spite of the interruptions ([Limits.v] shows that commands with a
    common key are not). *)
From S2P Require Import Prelude Std Map Eviction Value Shard Spec ShardOk Store StoreOk StoreProps.
From S2P Require Import Resp RespOk Reply RespProps Dump Config Commands CommandsOk Persistence Conn ConnOk ConnProps.
From S2P Require Import Effects Replica View Durable Commute Snapshot Steps.
Local Open Scope Z_scope.

(** ** What a command touches *)

Section footprints.
Context {HO : HashOrder} {FT : FloatText}.
Context (now : Z).
Implicit Types (argv : list bytes) (cfg : Config) (w : World) (K : list bytes).

(** The commands on the whole store. *)
Definition whole_names : list string :=
  ["INFO"; "DBSIZE"; "FLUSHALL"; "FLUSHDB"; "KEYS"; "SCAN"; "SAVE"; "BGSAVE"; "SYNC"; "PSYNC"].

(** A command that uses the keys it names, or no key at all. *)
Definition on_keys argv : bool := negb (named argv whole_names).

(** Its keys. *)
Definition footprint argv : list bytes :=
  if named argv ["MGET"; "EXISTS"]%string then drop 1 argv else command_keys argv.

Inductive within K {A : Type} : Prog A → Prop :=
  | within_done a : within K (Done a)
  | within_do R (f : M R) k : confined now K f → (∀ r, within K (k r)) → within K (Do f k).

Lemma within_bind K {A B : Type} (p : Prog A) (q : A → Prog B) :
  within K p → (∀ a, within K (q a)) → within K (p ≫= q).
Proof. intros Hp Hq. induction Hp as [a|R f k Hf _ IH]; [apply Hq|]. by apply within_do. Qed.

Lemma within_inv K {A R : Type} (f : M R) (k : R → Prog A) :
  within K (Do f k) → confined now K f ∧ ∀ r, within K (k r).
Proof.
  intros Hw. refine (match Hw in within _ p return
    match p with Done _ => True | Do f k => confined now K f ∧ ∀ r, within K (k r) end with
    | within_done _ _ => I | within_do _ _ _ _ Hf Hk => conj Hf Hk end).
Qed.

Lemma within_step K {R : Type} (f : M R) : confined now K f → within K (step f).
Proof. intros Hf. apply within_do; [done|]. intros r. apply within_done. Qed.

Lemma within_mapP K {A B : Type} (p : A → Prog B) l :
  (∀ a, a ∈ l → within K (p a)) → within K (mapP p l).
Proof.
  induction l as [|a l IH]; intros Hp; cbn [mapP]; [apply within_done|].
  apply within_bind; [apply Hp; left|]. intros b.
  apply within_bind; [apply IH; intros x Hx; apply Hp; by right|]. intros bs. apply within_done.
Qed.

Lemma within_run K {A : Type} (p : Prog A) : within K p → confined now K (run p).
Proof.
  induction 1 as [a|R f k Hf _ IH]; [apply confined_ret|]. by apply confined_bind.
Qed.

Lemma confined_mapM K {A B : Type} (f : A → M B) l :
  (∀ a, a ∈ l → confined now K (f a)) → confined now K (mapM f l).
Proof.
  induction l as [|a l IH]; intros Hf; cbn [mapM]; [apply confined_ret|].
  apply confined_bind; [apply Hf; left|]. intros b.
  apply confined_bind; [apply IH; intros x Hx; apply Hf; by right|]. intros bs. apply confined_ret.
Qed.

(** An operation on a key of the footprint. *)
Ltac on o C :=
  apply (confined_call now _ o C);
  [done|by intros ? ? [=]|done|first [by apply list_elem_of_singleton|assumption
   |subst; apply list_elem_of_fmap; eexists (_, _); split; [reflexivity|eassumption]]].
Ltac operation :=
  match goal with
  | |- confined _ _ now_ms => apply confined_now
  | |- confined _ _ (call (fun t s => Store.get t s ?k)) => on (OGet k) RStr
  | |- confined _ _ (call (fun t s => Store.set t s ?k ?v ?o)) => on (OSet k v o) RBool
  | |- confined _ _ (call (fun t s => Store.del t s ?k)) => on (ODel k) RBool
  | |- confined _ _ (call (fun t s => Store.exists_ t s ?k)) => on (OExists k) RBool
  | |- confined _ _ (call (fun t s => Store.type_of t s ?k)) => on (OTypeOf k) RType
  | |- confined _ _ (call (fun t s => Store.expire_at t s ?k ?a)) => on (OExpireAt k a) RBool
  | |- confined _ _ (call (fun t s => Store.pttl t s ?k)) => on (OPttl k) RTtl
  | |- confined _ _ (call (fun t s => Store.strlen t s ?k)) => on (OStrlen k) RLen
  | |- confined _ _ (call (fun t s => Store.llen t s ?k)) => on (OLlen k) RLen
  | |- confined _ _ (call (fun t s => Store.lrange t s ?k ?a ?b)) => on (OLrange k a b) RItems
  | |- confined _ _ (call (fun t s => Store.hget t s ?k ?f)) => on (OHget k f) RStr
  | |- confined _ _ (call (fun t s => Store.hlen t s ?k)) => on (OHlen k) RLen
  | |- confined _ _ (call (fun t s => Store.hgetall t s ?k)) => on (OHgetall k) RPairs
  | |- confined _ _ (call (fun t s => Store.sismember t s ?k ?m)) => on (OSismember k m) RFlag
  | |- confined _ _ (call (fun t s => Store.scard t s ?k)) => on (OScard k) RLen
  | |- confined _ _ (call (fun t s => Store.smembers t s ?k)) => on (OSmembers k) RItems
  | |- confined _ _ (call (fun t s => Store.zscore t s ?k ?m)) => on (OZscore k m) RScore
  | |- confined _ _ (call (fun t s => Store.zcard t s ?k)) => on (OZcard k) RLen
  | |- confined _ _ (call (fun t s => Store.zrange t s ?k ?a ?b)) => on (OZrange k a b) RScored
  end.

(** The footprint of a name. *)
Ltac feet argv Hnm :=
  let by_name := (unfold footprint, command_keys, named; rewrite Hnm; reflexivity) in
  first
    [replace (footprint argv) with [argv !!! 1%nat] by by_name
    |replace (footprint argv) with (drop 1 argv) by by_name
    |replace (footprint argv) with ((pairs_of (drop 1 argv)).*1) by by_name].

Definition not_whole (p : string) : bool := negb (existsb (String.eqb p) whole_names).

Definition arm_within (a : SArm) : Prop :=
  ∀ p argv cfg, p ∈ spats a → not_whole p = true → upper (argv !!! 0%nat) = lit p →
    within (footprint argv) (sbody a (lit p) argv cfg).

Lemma arms_within : Forall arm_within stepped_arms.
Proof.
  unfold stepped_arms. repeat first [apply Forall_nil_2|apply Forall_cons_2];
    intros p argv cfg Hp Hw Hnm; cbn [spats] in Hp;
    repeat (apply elem_of_cons in Hp as [Hp|Hp]; [subst p|]); try (by apply elem_of_nil in Hp);
    try (exfalso; vm_compute in Hw; discriminate Hw); clear Hw;
    cbn [sbody]; feet argv Hnm; clear Hnm;
    unfold set_steps, getset_steps, setex_steps, mset_steps, mget_steps, hmget_steps, del_steps, exists_steps,
      countP, expire_steps, persist_steps;
    repeat first
      [apply within_done
      |apply within_step; operation
      |apply within_mapP; intros ? ?
      |apply within_bind; [|intros ?]
      |case_match; cbv beta iota zeta].
Qed.

(** The arms that read keys, or use none. *)
Definition arm_reads (a : Arm) : Prop :=
  ∀ p argv st cfg, p ∈ pats a → negb (is_write_command (lit p)) && not_whole p = true →
    upper (argv !!! 0%nat) = lit p →
    confined now (footprint argv) (body a (lit p) argv st cfg).

Ltac arms_read :=
  repeat first [apply Forall_nil_2|apply Forall_cons_2];
  let p := fresh "p" in let Hp := fresh "Hp" in let Hr := fresh "Hr" in let Hnm := fresh "Hnm" in
  intros p argv st cfg Hp Hr Hnm; cbn [pats] in Hp;
  repeat (apply elem_of_cons in Hp as [Hp|Hp]; [subst p|]); try (by apply elem_of_nil in Hp);
  try (exfalso; vm_compute in Hr; discriminate Hr); clear Hr;
  cbn [body]; feet argv Hnm; clear Hnm;
  unfold op, cmd, pure_cmd, mget_cmd, lrange_cmd, hgetall_cmd, hkeys_vals_cmd, hmget_cmd, zscore_cmd, zrange_cmd, ttl_cmd,
    countM;
  repeat first
    [apply confined_ret
    |operation
    |apply confined_mapM; intros ? ?
    |apply confined_bind; [|intros ?]
    |case_match; cbv beta iota zeta].

Lemma introspection_reads : Forall arm_reads introspection_arms.
Proof. unfold introspection_arms. arms_read. Qed.
Lemma string_reads : Forall arm_reads string_arms.
Proof. unfold string_arms. arms_read. Qed.
Lemma collection_reads : Forall arm_reads collection_arms.
Proof. unfold collection_arms. arms_read. Qed.
Lemma keyspace_reads : Forall arm_reads keyspace_arms.
Proof. unfold keyspace_arms. arms_read. Qed.

Lemma confined_same K {A : Type} (f g : M A) : same f g → confined now K f → confined now K g.
Proof.
  intros Heq [H1 H2]. split.
  - intros w Hw. rewrite <- Heq. by apply H1.
  - intros w1 w2 Hw1 Hw2 Hon. rewrite <- !Heq. by apply H2.
Qed.

Lemma on_keys_name argv p : on_keys argv = true → upper (argv !!! 0%nat) = lit p → not_whole p = true.
Proof.
  unfold on_keys, not_whole, named. intros Hk Hnm. apply negb_true_iff in Hk. apply negb_true_iff.
  apply not_true_iff_false. intros (q & Hq & ->%String.eqb_eq)%existsb_exists.
  apply not_true_iff_false in Hk. apply Hk. apply existsb_exists. exists q. split; [done|].
  by apply bool_decide_eq_true.
Qed.

Lemma read_confined argv st cfg :
  on_keys argv = true → is_write_command (upper (argv !!! 0%nat)) = false →
  confined now (footprint argv) (dispatch argv st cfg).
Proof.
  intros Hk Hw. unfold dispatch. destruct (find _ arms) as [a|] eqn:Hf; [|apply confined_ret].
  apply find_some in Hf as [Ha%list_elem_of_In Hm].
  assert (arm_reads a) as Hr.
  { clear Hm. revert a Ha. apply Forall_forall. unfold arms.
    repeat apply Forall_app_2; auto using introspection_reads, string_reads, collection_reads, keyspace_reads. }
  apply andb_true_iff in Hm as [Hm _].
  apply existsb_exists in Hm as (p & Hp%list_elem_of_In & Hnm%bool_decide_eq_true).
  rewrite Hnm in Hw |- *. apply Hr; [done| |done]. rewrite Hw. by rewrite (on_keys_name argv).
Qed.

Lemma write_footprint argv : is_write argv → footprint argv = command_keys argv.
Proof.
  intros Hw. unfold footprint. destruct (named argv _) eqn:Hn; [|done].
  apply named_spec in Hn as (p & Hp & Hnm). unfold is_write in Hw. rewrite Hnm in Hw.
  repeat (apply elem_of_cons in Hp as [->|Hp]; [by vm_compute in Hw|]). by apply elem_of_nil in Hp.
Qed.

Lemma write_confined argv st cfg :
  is_write argv → flushes argv = false → confined now (footprint argv) (dispatch argv st cfg).
Proof.
  intros Hw Hfl. destruct (dispatch_confined now argv Hw Hfl) as (f & Hf & Heq). rewrite write_footprint by done.
  apply (confined_same _ (o ← f; mret (st, o))).
  - intros w. rewrite Heq. unfold mbind, M_bind. by destruct (f w).
  - apply confined_bind; [done|]. intros o. apply confined_ret.
Qed.

Lemma on_keys_flushes argv : on_keys argv = true → flushes argv = false.
Proof.
  unfold on_keys, flushes, named, whole_names. cbn [existsb]. rewrite negb_true_iff, !orb_false_iff. tauto.
Qed.

Lemma program_within argv st cfg : on_keys argv = true → within (footprint argv) (program argv st cfg).
Proof.
  intros Hk. unfold program. destruct (find _ stepped_arms) as [a|] eqn:Hf.
  - apply find_some in Hf as [Ha%list_elem_of_In Hm].
    apply andb_true_iff in Hm as [Hm _].
    apply existsb_exists in Hm as (p & Hp%list_elem_of_In & Hnm%bool_decide_eq_true). rewrite Hnm.
    apply within_bind; [|intros o; apply within_done].
    apply (proj1 (Forall_forall _ _) arms_within a Ha); [done|by eapply on_keys_name|done].
  - apply within_step. destruct (is_write_command (upper (argv !!! 0%nat))) eqn:Hw.
    + apply write_confined; [done|by apply on_keys_flushes].
    + by apply read_confined.
Qed.

End footprints.

(** ** Programs that overlap *)

(** Programs are in progress, each with the keys it may touch.  They share no key,
    so it is as if each had run to its end when it began. *)
Section overlap.
Context {HO : HashOrder} (now : Z) {A : Type}.
Implicit Types (w : World) (K : list bytes) (p : Prog A) (js : gmap nat (list bytes * Prog A)).

Definition sees w1 w2 (k : bytes) : Prop :=
  Db.find now ⟦store w1⟧ k = Db.find now ⟦store w2⟧ k.

Definition unused js (k : bytes) : Prop := ∀ u K p, js !! u = Some (K, p) → k ∉ K.

(** [w] is the world now, [ws] the one with every program at its end. *)
Record overlap w ws js : Prop := mkOverlap {
  ov_steady : steady now w ∧ steady now ws;
  ov_within u K p : js !! u = Some (K, p) → within now K p;
  ov_sees u K p k : js !! u = Some (K, p) → k ∈ K → sees (run p w).1 ws k;
  ov_disjoint u v K1 K2 p1 p2 k : js !! u = Some (K1, p1) → js !! v = Some (K2, p2) → u ≠ v → k ∈ K1 → k ∉ K2;
  ov_free k : unused js k → sees w ws k
}.

Lemma overlap_begin w ws js u K p :
  overlap w ws js → js !! u = None → within now K p → (∀ k, k ∈ K → unused js k) →
  overlap w (run p ws).1 (<[u := (K, p)]> js) ∧ (run p w).2 = (run p ws).2.
Proof.
  intros [[Hw Hws] Hwi Hsee Hdis Hfree] Hu Hp Hnew. destruct (within_run now _ _ Hp) as [Hc1 Hc2].
  destruct (Hc2 w ws Hw Hws) as [Hon Hr]; [intros k Hk; by apply Hfree, Hnew|].
  destruct (Hc1 ws Hws) as [Hs' Hkeep]. split; [|done]. split.
  - done.
  - intros v K' p' [[<- [= <- <-]]|[_ Hv]]%lookup_insert_Some; [done|by eapply Hwi].
  - intros v K' p' k [[<- [= <- <-]]|[_ Hv]]%lookup_insert_Some Hk; [by apply Hon|].
    unfold sees. rewrite Hkeep; [by eapply Hsee|]. intros Hk'. by eapply Hnew.
  - intros v v' K1 K2 p1 p2 k [[<- [= <- <-]]|[_ H1]]%lookup_insert_Some
      [[<- [= <- <-]]|[_ H2]]%lookup_insert_Some Hne Hk; [done| | |by eapply (Hdis v v')].
    + by eapply Hnew.
    + intros Hk'. by eapply Hnew.
  - intros k Hk. unfold sees. rewrite Hkeep; [apply Hfree|eapply Hk; apply lookup_insert_eq].
    intros v K' p' Hv. apply (Hk v K' p'). rewrite lookup_insert_ne; [done|congruence].
Qed.

(** The other programs answer what they would have answered before. *)
Lemma overlap_do w ws js u K R (f : M R) q :
  overlap w ws js → js !! u = Some (K, Do f q) →
  overlap (f w).1 ws (<[u := (K, q (f w).2)]> js) ∧
  ∀ v K' p, js !! v = Some (K', p) → v ≠ u → (run p (f w).1).2 = (run p w).2.
Proof.
  intros [[Hw Hws] Hwi Hsee Hdis Hfree] Hu.
  destruct (within_inv now K f q (Hwi _ _ _ Hu)) as [[Hf _] Hq]. destruct (Hf w Hw) as [Hw' Hkeep].
  assert (∀ v K' p, js !! v = Some (K', p) → v ≠ u →
    same_on now K' (run p (f w).1).1 (run p w).1 ∧ (run p (f w).1).2 = (run p w).2) as Hoth.
  { intros v K' p Hv Hne. destruct (within_run now _ _ (Hwi _ _ _ Hv)) as [_ Hc]. apply Hc; [done..|].
    intros k Hk. apply Hkeep. by eapply (Hdis v u). }
  split; [|intros v K' p Hv Hne; by eapply Hoth]. split.
  - done.
  - intros v K' p [[<- [= <- <-]]|[_ Hv]]%lookup_insert_Some; [done|by eapply Hwi].
  - intros v K' p k [[<- [= <- <-]]|[Hne Hv]]%lookup_insert_Some Hk.
    + specialize (Hsee u K _ k Hu Hk). cbn [run] in Hsee. unfold mbind, M_bind in Hsee. by destruct (f w).
    + destruct (Hoth v K' p Hv) as [Hon _]; [done|]. unfold sees. rewrite Hon by done. by eapply Hsee.
  - intros v v' K1 K2 p1 p2 k [[<- [= <- <-]]|[_ H1]]%lookup_insert_Some
      [[<- [= <- <-]]|[_ H2]]%lookup_insert_Some; [done|by apply (Hdis u v' K K2 (Do f q) p2)
      |by apply (Hdis v u K1 K p1 (Do f q))|by apply (Hdis v v' K1 K2 p1 p2)].
  - intros k Hk. unfold sees. rewrite Hkeep; [apply Hfree|eapply Hk; apply lookup_insert_eq].
    intros v K' p Hv. destruct (decide (v = u)) as [->|Hne].
    + simplify_eq. eapply Hk. apply lookup_insert_eq.
    + apply (Hk v K' p). by rewrite lookup_insert_ne.
Qed.

Lemma overlap_done w ws js u K a :
  overlap w ws js → js !! u = Some (K, Done a) → overlap w ws (delete u js).
Proof.
  intros [Hs Hwi Hsee Hdis Hfree] Hu. split.
  - done.
  - intros v K' p [_ Hv]%lookup_delete_Some. by eapply Hwi.
  - intros v K' p k [_ Hv]%lookup_delete_Some. by apply (Hsee v K' p k).
  - intros v v' K1 K2 p1 p2 k [_ H1]%lookup_delete_Some [_ H2]%lookup_delete_Some. by eapply Hdis.
  - intros k Hk. destruct (decide (k ∈ K)) as [Hin|Hn]; [exact (Hsee u K _ k Hu Hin)|].
    apply Hfree. intros v K' p Hv. destruct (decide (v = u)) as [->|Hne]; [by simplify_eq|].
    apply (Hk v K' p). by rewrite lookup_delete_ne.
Qed.

(** A change that nobody can see. *)
Lemma overlap_alike w w' ws js :
  overlap w ws js → alike now w' w →
  overlap w' ws js ∧ ∀ v K p, js !! v = Some (K, p) → (run p w').2 = (run p w).2.
Proof.
  intros [[Hw Hws] Hwi Hsee Hdis Hfree] (Hw' & _ & Hv).
  assert (∀ v K p, js !! v = Some (K, p) →
    same_on now K (run p w').1 (run p w).1 ∧ (run p w').2 = (run p w).2) as Hoth.
  { intros v K p Hp. destruct (within_run now _ _ (Hwi _ _ _ Hp)) as [_ Hc]. apply Hc; [done..|].
    intros k _. apply Hv. }
  split; [|intros v K p Hp; by eapply Hoth]. split; [done..| |done|].
  - intros v K p k Hp Hk. unfold sees. destruct (Hoth v K p Hp) as [Hon _]. rewrite Hon by done. by eapply Hsee.
  - intros k Hk. unfold sees. rewrite (Hv k). by apply Hfree.
Qed.

Lemma overlap_empty w : steady now w → overlap w w ∅.
Proof. intros Hw. split; [done| | | |done]; intros *; by rewrite lookup_empty. Qed.

End overlap.

(** ** Threads *)

(** A command that is being served: its number in the order in which the commands
    began, its arguments, and the steps that are left. *)
Record Job := mkJob { ticket : nat; job_argv : list bytes; rest : Prog (ConnState * Outcome) }.

(** The store that the threads share, the commands being served by thread, the
    commands that were begun, and the answers by ticket. *)
Record Sys := mkSys {
  shared : World;
  jobs : gmap nat Job;
  started : list (list bytes * ConnState);
  answers : list (nat * (ConnState * Outcome))
}.

Definition initial (w : World) : Sys := mkSys w ∅ [] [].

Section threads.
Context {HO : HashOrder} {FT : FloatText}.
Context (cfg : Config).

(** What happens next: a thread begins with a command, or takes a step of it. *)
Inductive Turn := Begin (t : nat) (argv : list bytes) (st : ConnState) | Go (t : nat).

Definition turn (s : Sys) (m : Turn) : Sys :=
  match m with
  | Begin t argv st =>
      match jobs s !! t with
      | Some _ => s
      | None =>
          mkSys (shared s) (<[t := mkJob (length (started s)) argv (program argv st cfg)]> (jobs s))
            (started s ++ [(argv, st)]) (answers s)
      end
  | Go t =>
      match jobs s !! t with
      | None => s
      | Some j =>
          match rest j with
          | Done r => mkSys (shared s) (delete t (jobs s)) (started s) (answers s ++ [(ticket j, r)])
          | Do f k =>
              let '(w, r) := f (shared s) in
              mkSys w (<[t := mkJob (ticket j) (job_argv j) (k r)]> (jobs s)) (started s) (answers s)
          end
      end
  end.

(** The commands one after the other. *)
Definition one_by_one (l : list (list bytes * ConnState)) : M (list (ConnState * Outcome)) :=
  mapM (fun '(argv, st) => dispatch argv st cfg) l.

(** A command that begins uses the keys it names, and none of them is in use. *)
Definition admitted (s : Sys) (m : Turn) : Prop :=
  match m with
  | Begin t argv st =>
      on_keys argv = true ∧
      ∀ u j, jobs s !! u = Some j → ∀ k, k ∈ footprint argv → k ∉ footprint (job_argv j)
  | Go _ => True
  end.

Fixpoint apart (s : Sys) (ms : list Turn) : Prop :=
  match ms with
  | [] => True
  | m :: ms => admitted s m ∧ apart (turn s m) ms
  end.

Lemma mapM_app {A B : Type} (f : A → M B) l1 l2 w :
  mapM f (l1 ++ l2) w =
    (let '(w1, bs1) := mapM f l1 w in let '(w2, bs2) := mapM f l2 w1 in (w2, bs1 ++ bs2)).
Proof.
  revert w. induction l1 as [|a l1 IH]; intros w; cbn [app mapM]; unfold mbind, mret, M_bind, M_ret.
  { by destruct (mapM f l2 w). }
  destruct (f a w) as [w1 b]. rewrite IH. destruct (mapM f l1 w1) as [w2 bs1].
  by destruct (mapM f l2 w2) as [w3 bs2].
Qed.

Lemma one_by_one_snoc l argv st w :
  one_by_one (l ++ [(argv, st)]) w =
    (let '(w1, rs) := one_by_one l w in
     let '(w2, r) := dispatch argv st cfg w1 in (w2, rs ++ [r])).
Proof.
  unfold one_by_one. rewrite mapM_app. destruct (mapM _ l w) as [w1 rs]. cbn [mapM].
  unfold mbind, mret, M_bind, M_ret. by destruct (dispatch argv st cfg w1).
Qed.

(** *** The commands take effect when they begin *)

Section serial.
Context (now : Z).

(** The commands being served, with their keys. *)
Definition in_progress (s : Sys) : gmap nat (list bytes * Prog (ConnState * Outcome)) :=
  (fun j => (footprint (job_argv j), rest j)) <$> jobs s.

(** [ws] and [rs] are the store and the answers with every command that was begun
    served to its end, one after the other. *)
Record serial (s : Sys) (ws : World) (rs : list (ConnState * Outcome)) : Prop := mkSerial {
  ser_overlap : overlap now (shared s) ws (in_progress s);
  ser_length : length rs = length (started s);
  ser_job u j : jobs s !! u = Some j → rs !! ticket j = Some (run (rest j) (shared s)).2;
  ser_answer n r : (n, r) ∈ answers s → rs !! n = Some r;
  ser_all n : (n < length (started s))%nat →
    (∃ r, (n, r) ∈ answers s) ∨ ∃ u j, jobs s !! u = Some j ∧ ticket j = n
}.

Lemma serial_initial w : steady now w → serial (initial w) w [].
Proof.
  intros Hw. split; cbn [initial shared jobs started answers].
  - unfold in_progress. cbn [initial jobs]. rewrite fmap_empty. by apply overlap_empty.
  - done.
  - intros u j Hj. by rewrite lookup_empty in Hj.
  - intros n r Hr. by apply elem_of_nil in Hr.
  - cbn. lia.
Qed.

Lemma in_progress_Some s u j :
  jobs s !! u = Some j → in_progress s !! u = Some (footprint (job_argv j), rest j).
Proof. intros Hj. unfold in_progress. by rewrite lookup_fmap, Hj. Qed.

Lemma serial_begin s ws rs t argv st :
  serial s ws rs → admitted s (Begin t argv st) → jobs s !! t = None →
  let '(w', r) := dispatch argv st cfg ws in serial (turn s (Begin t argv st)) w' (rs ++ [r]).
Proof.
  intros [Hov Hlen Hjob Hans Hall] [Hk Hnew] Ht.
  destruct (overlap_begin now (shared s) ws (in_progress s) t (footprint argv) (program argv st cfg) Hov) as [Hov' Hr].
  { unfold in_progress. by rewrite lookup_fmap, Ht. }
  { by apply program_within. }
  { intros k Hin u K p. unfold in_progress. rewrite lookup_fmap_Some. intros (j & [= <- <-] & Hj). by eapply Hnew. }
  rewrite (program_runs argv st cfg ws) in Hov', Hr.
  destruct (dispatch argv st cfg ws) as [w' r]. cbn [fst snd] in *.
  unfold turn. rewrite Ht. split; cbn [shared jobs started answers].
  - unfold in_progress. cbn [jobs]. by rewrite fmap_insert.
  - rewrite !length_app, Hlen. done.
  - intros u j [[<- <-]|[Hne Hj]]%lookup_insert_Some; cbn [rest ticket].
    + rewrite <- Hlen, Hr. by apply list_lookup_middle.
    + by apply lookup_app_l_Some, Hjob with u.
  - intros n r' Hin. by apply lookup_app_l_Some, Hans.
  - intros n Hn. rewrite length_app in Hn. cbn in Hn. destruct (decide (n = length (started s))) as [->|Hne].
    + right. eexists t, _. by rewrite lookup_insert_eq.
    + destruct (Hall n ltac:(lia)) as [Ha|(u & j & Hj & Hn')]; [by left|right].
      exists u, j. rewrite lookup_insert_ne; [done|]. by intros ->; rewrite Ht in Hj.
Qed.

Lemma serial_done s ws rs t j r :
  serial s ws rs → jobs s !! t = Some j → rest j = Done r →
  serial (mkSys (shared s) (delete t (jobs s)) (started s) (answers s ++ [(ticket j, r)])) ws rs.
Proof.
  intros [Hov Hlen Hjob Hans Hall] Ht Hr. pose proof (Hjob t _ Ht) as Hres. rewrite Hr in Hres.
  split; cbn [shared jobs started answers]; [|done| | |].
  - unfold in_progress. cbn [jobs]. rewrite fmap_delete.
    apply (overlap_done now _ _ _ _ (footprint (job_argv j)) r); [done|]. by rewrite lookup_fmap, Ht; cbn; rewrite Hr.
  - intros u i [_ Hi]%lookup_delete_Some. by apply (Hjob u).
  - intros n r'. rewrite elem_of_app, list_elem_of_singleton. intros [Hin|[= -> ->]]; [by apply Hans|done].
  - intros n Hn. destruct (Hall n Hn) as [[r' Ha]|(u & i & Hi & Htk)].
    + left. exists r'. apply elem_of_app. by left.
    + destruct (decide (u = t)) as [->|Hne].
      * simplify_eq. left. exists r. apply elem_of_app. right. by apply list_elem_of_singleton.
      * right. exists u, i. by rewrite lookup_delete_ne.
Qed.

Lemma serial_do s ws rs t j R (f : M R) k :
  serial s ws rs → jobs s !! t = Some j → rest j = Do f k →
  let '(w, r) := f (shared s) in
  serial (mkSys w (<[t := mkJob (ticket j) (job_argv j) (k r)]> (jobs s)) (started s) (answers s)) ws rs.
Proof.
  intros [Hov Hlen Hjob Hans Hall] Ht Hr. pose proof (in_progress_Some s t j Ht) as Hp. rewrite Hr in Hp.
  destruct (overlap_do now _ _ _ t _ R f k Hov Hp) as [Hov' Hoth].
  pose proof (Hjob t j Ht) as Hres. rewrite Hr in Hres. cbn [run] in Hres. unfold mbind, M_bind in Hres.
  destruct (f (shared s)) as [w r]. cbn [fst snd] in *.
  split; cbn [shared jobs started answers]; [|done| |done|].
  - unfold in_progress. cbn [jobs]. by rewrite fmap_insert.
  - intros u i [[<- <-]|[Hne Hi]]%lookup_insert_Some; cbn [rest ticket]; [done|].
    rewrite (Hoth u _ _ (in_progress_Some s u i Hi)) by done. by apply Hjob with u.
  - intros n Hn. destruct (Hall n Hn) as [Ha|(u & i & Hi & Htk)]; [by left|right].
    destruct (decide (u = t)) as [->|Hne].
    + simplify_eq. eexists t, _. by rewrite lookup_insert_eq.
    + exists u, i. by rewrite lookup_insert_ne.
Qed.

Lemma serial_go s ws rs t : serial s ws rs → serial (turn s (Go t)) ws rs.
Proof.
  intros Hser. cbn [turn]. destruct (jobs s !! t) as [j|] eqn:Ht; [|done].
  destruct (rest j) as [r|R f k] eqn:Hr; [by apply serial_done|].
  pose proof (serial_do s ws rs t j R f k Hser Ht Hr). by destruct (f (shared s)).
Qed.

Lemma serial_turns s ms w0 :
  (let '(ws, rs) := one_by_one (started s) w0 in serial s ws rs) → apart s ms →
  let s' := foldl turn s ms in let '(ws, rs) := one_by_one (started s') w0 in serial s' ws rs.
Proof.
  revert s. induction ms as [|m ms IH]; intros s Hs; [done|]. intros [Hm Hms]. cbn [foldl].
  apply IH; [|done]. destruct m as [t argv st|t].
  - destruct (jobs s !! t) eqn:Ht; [cbn [turn]; by rewrite Ht|].
    assert (started (turn s (Begin t argv st)) = started s ++ [(argv, st)]) as -> by (cbn [turn]; by rewrite Ht).
    rewrite one_by_one_snoc. destruct (one_by_one (started s) w0) as [ws rs].
    pose proof (serial_begin s ws rs t argv st Hs Hm Ht). by destruct (dispatch argv st cfg ws).
  - assert (started (turn s (Go t)) = started s) as ->.
    { cbn [turn]. destruct (jobs s !! t) as [j|]; [|done]. destruct (rest j); [done|]. by destruct (f (shared s)). }
    destruct (one_by_one (started s) w0) as [ws rs]. by apply serial_go.
Qed.

End serial.

(** C17: on a store without a memory limit and with a clock that stands, with
    the steps of the commands interleaved in any way, commands on keys, none on
    the whole store, that have no key in common with those being served when
    they begin are atomic: once all have ended, the store shows what it shows
    after the same commands served one after the other, in the order in which
    they began, and every command has got exactly the answer it gets there. *)
Theorem commands_serializable now w ms :
  steady now w → apart (initial w) ms →
  let s := foldl turn (initial w) ms in
  jobs s = ∅ →
  let '(w', rs) := one_by_one (started s) w in
  alike now (shared s) w' ∧ ∀ n r, (n, r) ∈ answers s ↔ rs !! n = Some r.
Proof.
  intros Hw Ha s Hj. pose proof (serial_turns now (initial w) ms w (serial_initial now w Hw) Ha) as Hs.
  cbv zeta in Hs. fold s in Hs. destruct (one_by_one (started s) w) as [w' rs].
  destruct Hs as [[[Hs1 Hs2] _ _ _ Hfree] Hlen _ Hans Hall]. unfold in_progress in Hfree.
  rewrite Hj, fmap_empty in Hfree. rewrite Hj in Hall. split.
  - split_and!; [done..|]. intros k. apply Hfree. intros u K p Hu. by rewrite lookup_empty in Hu.
  - intros n r. split; [apply Hans|]. intros Hr.
    destruct (Hall n) as [[r' Hin]|(u & j & Hu & _)]; [rewrite <- Hlen; by eapply lookup_lt_Some| |].
    + pose proof (Hans n r' Hin). by simplify_eq.
    + by rewrite lookup_empty in Hu.
Qed.

End threads.

(** ** An example *)

#[local] Existing Instance canonical_order.
#[local] Existing Instance demo_float_text.

Definition with_turns (ms : list Turn) : Sys := foldl (turn (demo_config None)) (initial (fresh_world 2)) ms.
Definition begin_at (t : nat) (argv : list bytes) : Turn := Begin t argv (conn_new (Z.of_nat t) true).
Definition answer (s : Sys) (n : nat) : option Reply :=
  (fun p : nat * (ConnState * Outcome) => reply p.2.2) <$> find (fun p => (p.1 =? n)%nat) (answers s).

Definition set_key (k v : string) : list bytes := [lit "SET"; lit k; lit v].
Definition getset (k v : string) : list bytes := [lit "GETSET"; lit k; lit v].
Definition mset_both : list bytes := [lit "MSET"; lit "x"; lit "1"; lit "y"; lit "1"].

(** The command alone. *)
Definition alone (t : nat) (argv : list bytes) : list Turn := begin_at t argv :: replicate 4 (Go t).

(** An [MSET] and a [GETSET] of another key, step by step in turn. *)
Definition turns_apart : list Turn :=
  [begin_at 1 mset_both; begin_at 2 (getset "k" "b"); Go 1; Go 2; Go 1; Go 2; Go 1; Go 2].

Lemma turns_apart_ok : apart (demo_config None) (initial (fresh_world 2)) turns_apart.
Proof.
  split; [split; [reflexivity|]|split; [split; [reflexivity|]|by repeat split]].
  - intros u j Hj. exact (False_ind _ (lookup_empty_Some u j Hj)).
  - intros u j Hj.
    change (jobs _) with (<[1%nat := mkJob 0 mset_both (program mset_both (conn_new 1 true) (demo_config None))]>
      (∅ : gmap nat Job)) in Hj.
    apply lookup_insert_Some in Hj as [[_ <-]|[_ Hj]]; [|exact (False_ind _ (lookup_empty_Some u j Hj))].
    intros k. change (footprint (getset "k" "b")) with [lit "k"]. change (footprint (job_argv _)) with [lit "x"; lit "y"].
    intros ->%list_elem_of_singleton. refine (bool_decide_unpack _ _). vm_compute. exact I.
Qed.

Lemma commands_serializable_witness :
  let s := with_turns turns_apart in
  alike 10 (shared s) (one_by_one (demo_config None) (started s) (fresh_world 2)).1 ∧
  answer s 0 = Some ok.
Proof.
  pose proof (commands_serializable (demo_config None) 10 (fresh_world 2) turns_apart (demo_steady 2)
    turns_apart_ok ltac:(vm_compute; reflexivity)) as H.
  cbv zeta in H |- *. split; [|vm_compute; reflexivity]. unfold with_turns.
  destruct (one_by_one _ _ _) as [w' rs]. exact (proj1 H).
Defined.
