(* ===== verification/Whole.v ===== *)
(** * Commands on the whole store, interrupted

    [KEYS] reads the clock, and then locks the shards one after the other while the
    clients run on in between.  Whatever they do, the answer has every key that was
    there all the time, no key that was there at no time, and no key twice, where a
    key is there when it is not expired at the time that was read. *)
From S2P Require Import Prelude Std Map Eviction Value Shard Spec ShardOk Store StoreOk StoreProps.
From S2P Require Import Resp RespOk Reply RespProps Dump Config Commands CommandsOk Persistence Conn ConnOk ConnProps.
From S2P Require Import Effects Replica View Durable Commute Snapshot Steps Serial.
Local Open Scope Z_scope.

(** ** Every step leaves a store with the same shards *)

Section kept.
Context {HO : HashOrder} {FT : FloatText}.
Context (mm : Z) (Hmm : 0 <= mm).

Definition keeps {A : Type} (f : M A) : Prop :=
  ∀ w, reach mm (store w) →
    reach mm (store (f w).1) ∧ clock (f w).1 = clock w ∧ same_layout (store w) (store (f w).1).

Inductive kept {A : Type} : Prog A → Prop :=
  | kept_done a : kept (Done a)
  | kept_do R (f : M R) k : keeps f → (∀ r, kept (k r)) → kept (Do f k).

Lemma quiet_keeps {A : Type} (f : M A) d : quiet mm f d → keeps f.
Proof. intros Hf w Hw. specialize (Hf w Hw). destruct (f w) as [w' a]. by destruct Hf as (? & ? & ? & _). Qed.

Lemma keeps_same {A : Type} (f : M A) : (∀ w, store (f w).1 = store w ∧ clock (f w).1 = clock w) → keeps f.
Proof. intros Hf w Hw. destruct (Hf w) as [-> ->]. by split_and!. Qed.

Lemma keeps_flush hs i : keeps (flush_step hs i).
Proof.
  intros w Hw. split_and!; [by apply reach_flush_shard|done|].
  by apply flush_shard_ok, (reach_ok mm).
Qed.

Lemma keeps_write data : keeps (write_snapshot data).
Proof. apply keeps_same. intros w. unfold write_snapshot. by destruct (io_fault w (tick w)). Qed.

Lemma kept_bind {A B : Type} (p : Prog A) (q : A → Prog B) : kept p → (∀ a, kept (q a)) → kept (p ≫= q).
Proof. intros Hp Hq. induction Hp as [a|R f k Hf _ IH]; [apply Hq|]. by apply kept_do. Qed.

Lemma kept_step {R : Type} (f : M R) : keeps f → kept (step f).
Proof. intros Hf. apply kept_do; [done|]. intros r. apply kept_done. Qed.

Lemma kept_mapP {A B : Type} (p : A → Prog B) l : (∀ a, kept (p a)) → kept (mapP p l).
Proof.
  intros Hp. induction l as [|a l IH]; cbn [mapP]; [apply kept_done|].
  apply kept_bind; [apply Hp|]. intros b. apply kept_bind; [done|]. intros bs. apply kept_done.
Qed.

Lemma kept_foldP {A B : Type} (p : B → A → Prog B) acc l : (∀ b a, kept (p b a)) → kept (foldP p acc l).
Proof.
  intros Hp. revert acc. induction l as [|a l IH]; intros acc; cbn [foldP]; [apply kept_done|].
  apply kept_bind; [apply Hp|]. intros b. apply IH.
Qed.

Definition arm_kept (a : SArm) : Prop := ∀ nm argv cfg, kept (sbody a nm argv cfg).

Lemma arms_kept : Forall arm_kept stepped_arms.
Proof.
  unfold stepped_arms. repeat first [apply Forall_nil_2|apply Forall_cons_2]; intros nm argv cfg; cbn [sbody];
    unfold set_steps, getset_steps, setex_steps, mset_steps, mget_steps, hmget_steps, del_steps, exists_steps,
      countP, expire_steps, persist_steps, info_steps, dbsize_steps, flush_steps, keys_cmd_steps, scan_steps,
      keys_steps, save_steps, dump_steps, dump_shards;
    repeat first
      [apply kept_done
      |apply kept_step;
        first [apply keeps_flush|apply keeps_write|by apply keeps_same
              |eapply quiet_keeps;
               first [by apply quiet_get|by apply quiet_set|by apply quiet_hget|by apply quiet_del
                     |by apply quiet_exists_|by apply quiet_expire_at|by apply quiet_pttl]]
      |apply kept_mapP; intros ?
      |apply kept_foldP; intros ? ?
      |apply kept_bind; [|intros ?]
      |case_match; cbv beta iota zeta].
Qed.

Lemma program_kept argv st cfg : kept (program argv st cfg).
Proof.
  unfold program. destruct (find _ stepped_arms) as [a|] eqn:Hf.
  - apply find_some in Hf as [Ha%list_elem_of_In _]. apply kept_bind; [|intros o; apply kept_done].
    by apply (proj1 (Forall_forall _ _) arms_kept a Ha).
  - apply kept_step. eapply quiet_keeps. by apply dispatch_quiet.
Qed.

End kept.

(** ** What a program answers whatever happens in between *)

(** Each step is taken in some world of [I]. *)
Fixpoint safe (I : World → Prop) {A : Type} (Q : A → Prop) (p : Prog A) : Prop :=
  match p with
  | Done a => Q a
  | Do f k => ∀ w, I w → safe I Q (k (f w).2)
  end.

Lemma safe_bind I {A B : Type} (p : Prog A) (q : A → Prog B) (P : A → Prop) (Q : B → Prop) :
  safe I P p → (∀ a, P a → safe I Q (q a)) → safe I Q (p ≫= q).
Proof.
  intros Hp Hq. induction p as [a|R f k IH]; [by apply Hq|]. intros w Hw. apply IH, Hp, Hw.
Qed.

(** Each element is what its step gave in some world. *)
Lemma safe_mapP I {A B : Type} (f : A → M B) l :
  safe I (Forall2 (fun a b => ∃ w, I w ∧ b = (f a w).2) l) (mapP (fun a => step (f a)) l).
Proof.
  induction l as [|a l IH]; cbn [mapP]; [constructor|].
  apply (safe_bind I _ _ (fun b => ∃ w, I w ∧ b = (f a w).2)); [intros w Hw; by exists w|].
  intros b Hb. apply (safe_bind I _ _ _ _ IH). intros bs Hbs. by constructor.
Qed.

Section threads.
Context {HO : HashOrder} {FT : FloatText}.
Context (cfg : Config).
Implicit Types (s : Sys) (ms : list Turn).

(** The states on the way, the first and the last one included. *)
Fixpoint visited s ms : list Sys :=
  s :: match ms with [] => [] | m :: ms => visited (turn cfg s m) ms end.

Lemma visited_first s ms : s ∈ visited s ms.
Proof. destruct ms; left. Qed.

(** Tickets are given once, and so are answers. *)
Record numbered s : Prop := mkNumbered {
  num_job u j : jobs s !! u = Some j → (ticket j < length (started s))%nat;
  num_apart u v i j : jobs s !! u = Some i → jobs s !! v = Some j → ticket i = ticket j → u = v;
  num_answer n r : (n, r) ∈ answers s →
    (n < length (started s))%nat ∧ ∀ u j, jobs s !! u = Some j → ticket j ≠ n;
  num_once n r r' : (n, r) ∈ answers s → (n, r') ∈ answers s → r = r'
}.

Lemma numbered_initial w : numbered (initial w).
Proof.
  split; cbn [initial jobs answers]; intros *; rewrite ?lookup_empty; try done; intros Hin; by apply elem_of_nil in Hin.
Qed.

Lemma numbered_turn s m : numbered s → numbered (turn cfg s m).
Proof.
  intros Hn. pose proof Hn as [Hj Ha Hans Honce]. destruct m as [t argv st|t]; cbn [turn].
  - destruct (jobs s !! t) eqn:Ht; [done|]. split; cbn [jobs started answers]; rewrite ?length_app.
    + intros u j [[<- <-]|[_ Hu]]%lookup_insert_Some; cbn; [lia|]. specialize (Hj u j Hu). lia.
    + intros u v i j [[<- <-]|[_ Hu]]%lookup_insert_Some [[<- <-]|[_ Hv]]%lookup_insert_Some;
        cbn [ticket]; [done| | |by apply Ha].
      * intros Heq. specialize (Hj v j Hv). lia.
      * intros Heq. specialize (Hj u i Hu). lia.
    + intros n r Hin. destruct (Hans n r Hin) as [Hlt Hne]. split; [lia|].
      intros u j [[<- <-]|[_ Hu]]%lookup_insert_Some; cbn; [lia|by eapply Hne].
    + done.
  - destruct (jobs s !! t) as [j|] eqn:Ht; [|done]. destruct (rest j) as [r|R f k].
    + split; cbn [jobs started answers].
      * intros u i [_ Hu]%lookup_delete_Some. by eapply Hj.
      * intros u v i i' [_ Hu]%lookup_delete_Some [_ Hv]%lookup_delete_Some. by apply Ha.
      * intros n r' [Hin|[= -> ->]%list_elem_of_singleton]%elem_of_app.
        -- destruct (Hans n r' Hin) as [Hlt Hne]. split; [done|]. intros u i [_ Hu]%lookup_delete_Some. by eapply Hne.
        -- split; [by eapply Hj|]. intros u i [Hne Hu]%lookup_delete_Some Heq. by destruct Hne; eapply Ha.
      * intros n r1 r2 [H1|[= -> ->]%list_elem_of_singleton]%elem_of_app
          [H2|H2%list_elem_of_singleton]%elem_of_app; [by eapply Honce| | |by injection H2].
        -- injection H2 as -> ->. destruct (Hans _ _ H1) as [_ Hne]. by destruct (Hne t j Ht).
        -- destruct (Hans _ _ H2) as [_ Hne]. by destruct (Hne t j Ht).
    + destruct (f (shared s)) as [w r]. split; cbn [jobs started answers].
      * intros u i [[<- <-]|[_ Hu]]%lookup_insert_Some; cbn [ticket]; by eapply Hj.
      * intros u v i i' [[<- <-]|[_ Hu]]%lookup_insert_Some [[<- <-]|[_ Hv]]%lookup_insert_Some;
          cbn [ticket]; [done|by apply Ha..].
      * intros n r' Hin. destruct (Hans n r' Hin) as [Hlt Hne]. split; [done|].
        intros u i [[<- <-]|[_ Hu]]%lookup_insert_Some; cbn [ticket]; by eapply Hne.
      * done.
Qed.

Lemma numbered_turns s ms : numbered s → numbered (foldl (turn cfg) s ms).
Proof. revert s. induction ms as [|m ms IH]; intros s Hs; [done|]. by apply IH, numbered_turn. Qed.

Lemma answers_grow s ms x : x ∈ answers s → x ∈ answers (foldl (turn cfg) s ms).
Proof.
  revert s. induction ms as [|m ms IH]; intros s Hx; [done|]. apply IH. destruct m as [t argv st|t]; cbn [turn].
  - by destruct (jobs s !! t).
  - destruct (jobs s !! t) as [j|]; [|done]. destruct (rest j); [|by destruct (f (shared s))].
    apply elem_of_app. by left.
Qed.

(** The answer of a command that is being served. *)
Lemma answered I Q s ms t j r :
  numbered s → jobs s !! t = Some j → safe I Q (rest j) →
  (∀ s', s' ∈ visited s ms → I (shared s')) → (ticket j, r) ∈ answers (foldl (turn cfg) s ms) → Q r.
Proof.
  revert s j. induction ms as [|m ms IH]; intros s j Hn Ht Hs HI Hr.
  { destruct (num_answer s Hn _ _ Hr) as [_ Hne]. by destruct (Hne t j Ht). }
  assert (∀ s', s' ∈ visited (turn cfg s m) ms → I (shared s')) as HI' by (intros s' Hs'; apply HI; by right).
  pose proof (HI s (visited_first s (m :: ms))) as Hnow. pose proof (numbered_turn s m Hn) as Hn'. cbn [foldl] in Hr.
  assert (jobs (turn cfg s m) !! t = Some j → Q r) as Hsame by (intros Ht'; by eapply (IH _ j)).
  destruct m as [u argv st|u]; cbn [turn] in *.
  - destruct (jobs s !! u) as [i|] eqn:Hu; [by apply Hsame|]. apply Hsame. cbn [jobs].
    rewrite lookup_insert_ne; [done|]. by intros ->; rewrite Ht in Hu.
  - destruct (jobs s !! u) as [i|] eqn:Hu; [|by apply Hsame]. destruct (decide (u = t)) as [->|Hne]; cycle 1.
    { destruct (rest i) as [r'|R f k].
      - apply Hsame. cbn [jobs]. by rewrite lookup_delete_ne.
      - destruct (f (shared s)). apply Hsame. cbn [jobs]. by rewrite lookup_insert_ne. }
    rewrite Ht in Hu. injection Hu as <-. destruct (rest j) as [r'|R f k].
    + assert (r = r') as ->; [|exact Hs]. eapply (num_once (foldl (turn cfg) _ ms)); [by apply numbered_turns|exact Hr|].
      apply answers_grow. cbn [answers]. apply elem_of_app. right. by apply list_elem_of_singleton.
    + specialize (Hs (shared s) Hnow). destruct (f (shared s)) as [w r'].
      eapply (IH _ (mkJob (ticket j) (job_argv j) (k r'))); [done|cbn [jobs]; by rewrite lookup_insert_eq|exact Hs|done|done].
Qed.

(** *** The states on the way have the shards of the first one *)

Definition sound mm s : Prop :=
  reach mm (store (shared s)) ∧ ∀ u j, jobs s !! u = Some j → kept mm (rest j).

Lemma kept_inv mm {A R : Type} (f : M R) (k : R → Prog A) : kept mm (Do f k) → keeps mm f ∧ ∀ r, kept mm (k r).
Proof.
  intros Hk. refine (match Hk in kept _ p return
    match p with Done _ => True | Do f k => keeps mm f ∧ ∀ r, kept mm (k r) end with
    | kept_done _ _ => Logic.I | kept_do _ _ _ _ Hf Hk => conj Hf Hk end).
Qed.

Lemma sound_turn mm s m :
  0 <= mm → sound mm s →
  sound mm (turn cfg s m) ∧ clock (shared (turn cfg s m)) = clock (shared s) ∧
  same_layout (store (shared s)) (store (shared (turn cfg s m))).
Proof.
  intros Hmm Hs. pose proof Hs as [Hr Hk]. pose proof (same_layout_refl (store (shared s))) as Hrefl.
  destruct m as [t argv st|t]; cbn [turn].
  - destruct (jobs s !! t) eqn:Ht; [done|]. split; [|done]. split; [done|].
    cbn [jobs]. intros u j [[<- <-]|[_ Hu]]%lookup_insert_Some; [by apply program_kept|by eapply Hk].
  - destruct (jobs s !! t) as [j|] eqn:Ht; [|done]. specialize (Hk t j Ht) as Hj.
    destruct (rest j) as [r|R f k].
    + split; [|done]. split; [done|]. cbn [jobs]. intros u i [_ Hu]%lookup_delete_Some. by eapply Hk.
    + apply kept_inv in Hj as [Hf Hrest]. destruct (Hf (shared s) Hr) as (Hr' & Hc & Hl).
      destruct (f (shared s)) as [w r]. split; [|done]. split; [done|].
      cbn [jobs]. intros u i [[<- <-]|[_ Hu]]%lookup_insert_Some; [apply Hrest|by eapply Hk].
Qed.

Lemma sound_visited mm s ms s' :
  0 <= mm → sound mm s → s' ∈ visited s ms →
  sound mm s' ∧ clock (shared s') = clock (shared s) ∧ same_layout (store (shared s)) (store (shared s')).
Proof.
  intros Hmm. revert s. induction ms as [|m ms IH]; intros s Hs; cbn [visited].
  - intros ->%list_elem_of_singleton. split; [done|]; split; [done|apply same_layout_refl].
  - intros [->|Hin]%elem_of_cons; [split; [done|]; split; [done|apply same_layout_refl]|].
    destruct (sound_turn mm s m Hmm Hs) as (Hs1 & Hc1 & Hl1).
    destruct (IH _ Hs1 Hin) as (Hs2 & Hc2 & Hl2). split; [done|]. split; [congruence|by eapply same_layout_trans].
Qed.

Lemma visited_last s ms : foldl (turn cfg) s ms ∈ visited s ms.
Proof.
  revert s. induction ms as [|m ms IH]; intros s; cbn [visited foldl]; [by apply list_elem_of_singleton|]. right. apply IH.
Qed.

End threads.

(** ** [KEYS] *)

Section keys.
Context {HO : HashOrder} {FT : FloatText}.
Implicit Types (now : Z) (st : Store.t) (w : World) (k : bytes).

(** The keys of one shard. *)
Lemma shard_keys_spec now st i k :
  wf st → (i < length (Store.shards st))%nat →
  k ∈ Shard.keys now (Store.shards st !!! i) ↔ Store.shard_index st k = i ∧ is_Some (Db.find now ⟦st⟧ k).
Proof.
  intros Hst Hi. pose proof (list_lookup_lookup_total_lt _ _ Hi) as Hs.
  destruct (keys_ok now _ (st_shards st Hst i _ Hs)) as [_ Hk]. rewrite Hk.
  rewrite (Db.find_local now _ _ _ (store_lookup st k Hst)). split.
  - intros Hf. pose proof Hf as [e [He _]%Db.find_Some].
    pose proof (st_routed st Hst i _ k Hs (mk_is_Some _ _ He)) as Hidx. split; [done|].
    unfold Store.shard. by rewrite Hidx.
  - intros [<- Hf]. exact Hf.
Qed.

(** The keys [ks] were read in the worlds of [I] from the shards of [st1], for a
    time that the clock read in one of them. *)
Definition listed (I : World → Prop) (st1 : Store.t) (ks : list bytes) : Prop :=
  NoDup ks ∧ ∃ now, (∃ w, I w ∧ now = clock w (tick w)) ∧
    (∀ k, k ∈ ks → ∃ w, I w ∧ is_Some (Db.find now ⟦store w⟧ k)) ∧
    (∀ k, wf st1 → (∀ w, I w → is_Some (Db.find now ⟦store w⟧ k)) → k ∈ ks).

(** The shards may be read in different states of the store. *)
Lemma safe_keys (I : World → Prop) st1 :
  (∀ w, I w → wf (store w) ∧ same_layout st1 (store w)) → safe I (listed I st1) keys_steps.
Proof.
  intros HI. unfold keys_steps.
  apply (safe_bind I _ _ (fun x => x.2 = Store.shard_count st1 ∧ ∃ w, I w ∧ x.1 = clock w (tick w))).
  { intros w Hw. cbn. destruct (HI w Hw) as (_ & _ & _ & Hl & _). unfold Store.shard_count. rewrite Hl. eauto. }
  intros [now n] [Hn Hnow]. cbn [fst snd] in Hn, Hnow. subst n. apply (safe_bind I _ _ _ _ (safe_mapP I (fun i => peek_shard i (Shard.keys now)) _)).
  intros kss Hkss. cbn [safe mret Prog_ret].
  assert (length kss = length (Store.shards st1)) as Hlen by (by rewrite <- (Forall2_length _ _ _ Hkss), length_seq).
  assert (∀ i ks, kss !! i = Some ks → ∃ w, I w ∧ NoDup ks ∧
    ∀ k, k ∈ ks ↔ Store.shard_index st1 k = i ∧ is_Some (Db.find now ⟦store w⟧ k)) as Hks.
  { intros i ks Hi. pose proof (lookup_lt_Some _ _ _ Hi) as Hlt.
    destruct (Forall2_lookup_r _ _ _ _ _ Hkss Hi) as (j & Hj & w & Hw & ->).
    apply lookup_seq in Hj as [-> _]. destruct (HI w Hw) as (Hwf & Hlay). exists w. split; [done|].
    assert (i < length (Store.shards (store w)))%nat as Hi' by (destruct Hlay as (_ & _ & -> & _); lia).
    cbn. split.
    - apply keys_ok. eapply st_shards; [done|]. by apply list_lookup_lookup_total_lt.
    - intros k. rewrite (shard_keys_spec now _ i k Hwf Hi'). by rewrite (same_layout_index _ _ k Hlay). }
  clear Hkss. assert (concat kss = kss ≫= id) as ->
    by (clear; induction kss as [|ks kss IH]; [done|]; csimpl; by rewrite IH).
  split; [|exists now; split; [done|split]].
  - apply NoDup_bind_index.
    + intros i j x y k Hi Hj Hx Hy. destruct (Hks i x Hi) as (w1 & _ & _ & H1), (Hks j y Hj) as (w2 & _ & _ & H2).
      apply H1 in Hx as [<- _]. by apply H2 in Hy as [<- _].
    + intros i x Hi. by destruct (Hks i x Hi) as (w1 & _ & ? & _).
  - intros k (ks & Hk & [i Hi]%list_elem_of_lookup)%list_elem_of_bind.
    destruct (Hks i ks Hi) as (w & Hw & _ & Hiff). exists w. split; [done|]. by apply Hiff.
  - intros k Hst1 Hall. apply list_elem_of_bind.
    destruct (lookup_lt_is_Some_2 kss (Store.shard_index st1 k)) as [ks Hi].
    { rewrite Hlen. by apply index_in_range. }
    destruct (Hks _ ks Hi) as (w & Hw & _ & Hiff). exists ks. split; [|by eapply list_elem_of_lookup_2].
    apply Hiff. split; [done|by apply Hall].
Qed.

(** The key is stored, and not expired at time [now]. *)
Definition shows now (s : Sys) k : Prop := is_Some (Db.find now ⟦store (shared s)⟧ k).

(** C18: [KEYS] beside other commands, whose steps come between the shards it
    reads, while time passes.  Its answer is for one time, which the clock read
    while [KEYS] was being served.  It has each key at most once and has only keys
    that match the pattern and were stored, and not expired at that time, at some
    moment between its beginning and its end; and it has all matching keys that
    were so at every moment. *)
Theorem keys_interrupted mm cfg w ms0 t pat (st : ConnState) ms o :
  0 <= mm → reach mm (store w) →
  let s := foldl (turn cfg) (initial w) ms0 in
  let s1 := turn cfg s (Begin t [lit "KEYS"; pat] st) in
  jobs s !! t = None → (length (started s), (st, o)) ∈ answers (foldl (turn cfg) s1 ms) →
  ∃ items now, reply o = Array (Some (bulks items)) ∧ NoDup items ∧
    (∃ s', s' ∈ visited cfg s1 ms ∧ now = clock (shared s') (tick (shared s'))) ∧
    (∀ k, k ∈ items → glob_match pat k = true ∧ ∃ s', s' ∈ visited cfg s1 ms ∧ shows now s' k) ∧
    (∀ k, glob_match pat k = true → (∀ s', s' ∈ visited cfg s1 ms → shows now s' k) → k ∈ items).
Proof.
  intros Hmm Hr s s1 Ht Hans.
  assert (sound mm (initial w)) as H0.
  { split; [done|]. intros u j Hj. exact (False_ind _ (lookup_empty_Some u j Hj)). }
  destruct (sound_visited cfg mm (initial w) ms0 s Hmm H0 (visited_last cfg _ _)) as (Hs & _).
  destruct (sound_turn cfg mm s (Begin t [lit "KEYS"; pat] st) Hmm Hs) as (Hs1 & _). fold s1 in Hs1.
  set (I := fun w => ∃ s', s' ∈ visited cfg s1 ms ∧ w = shared s').
  assert (∀ w, I w → wf (store w) ∧ same_layout (store (shared s1)) (store w)) as HI.
  { intros w' (s' & Hs' & ->). destruct (sound_visited cfg mm s1 ms s' Hmm Hs1 Hs') as ([Hr' _] & _ & Hl').
    split; [by apply (reach_ok mm)|done]. }
  set (argv := [lit "KEYS"; pat]).
  apply (answered cfg I (fun r => ∃ items now, reply r.2 = Array (Some (bulks items)) ∧ NoDup items ∧
    (∃ s', s' ∈ visited cfg s1 ms ∧ now = clock (shared s') (tick (shared s'))) ∧
    (∀ k, k ∈ items → glob_match pat k = true ∧ ∃ s', s' ∈ visited cfg s1 ms ∧ shows now s' k) ∧
    (∀ k, glob_match pat k = true → (∀ s', s' ∈ visited cfg s1 ms → shows now s' k) → k ∈ items))
    s1 ms t (mkJob (length (started s)) argv (program argv st cfg)) (st, o));
    [by apply numbered_turn, numbered_turns, numbered_initial| | |by intros s' Hs'; exists s'|done].
  { unfold s1. cbn [turn]. rewrite Ht. cbn [jobs]. apply lookup_insert_eq. }
  change (program argv st cfg) with (o ← keys_cmd_steps argv; mret (st, o)). cbn [rest].
  apply (safe_bind I _ _ (fun o => ∃ ks, reply o = Array (Some (bulks (filter (fun k => glob_match pat k = true) ks)))
    ∧ listed I (store (shared s1)) ks)).
  - unfold keys_cmd_steps. apply (safe_bind I _ _ _ _ (safe_keys I _ HI)). intros ks Hks. by exists ks.
  - intros o' (ks & Ho & Hnd & now & (w' & (s' & Hs' & ->) & Hnow) & Hsome & Hall). cbn [safe mret Prog_ret snd].
    eexists _, now. split; [exact Ho|]. split_and!.
    + by apply NoDup_filter.
    + by exists s'.
    + intros k [Hg Hk]%list_elem_of_filter. split; [done|]. destruct (Hsome k Hk) as (w2 & (s2 & Hs2 & ->) & Hf).
      by exists s2.
    + intros k Hg Hk. apply list_elem_of_filter. split; [done|]. apply Hall.
      * by apply (reach_ok mm), Hs1.
      * intros w2 (s2 & Hs2 & ->). by apply Hk.
Qed.

End keys.

#[local] Existing Instance canonical_order.
#[local] Existing Instance demo_float_text.

(** A key is stored, and while another one is, the two shards are read. *)
Definition stored_k : list Turn := alone 1 (set_key "k" "a").
Definition list_keys : list bytes := [lit "KEYS"; lit "*"].
Definition keys_turns : list Turn :=
  [Go 2; Go 2; begin_at 1 (set_key "x" "b"); Go 1; Go 1; Go 1; Go 2; Go 2].

Definition keys_reply : Outcome := mkOutcome (Array (Some (bulks [lit "k"; lit "x"]))) false false.

Lemma keys_interrupted_witness :
  ∃ items, Array (Some (bulks [lit "k"; lit "x"])) = Array (Some (bulks items)) ∧ NoDup items ∧
    ∀ k, k ∈ items → glob_match (lit "*") k = true.
Proof.
  destruct (keys_interrupted 0 (demo_config None) (fresh_world 2) stored_k 2 (lit "*") (conn_new 2 true)
    keys_turns keys_reply) as (items & now & Hr & Hnd & _ & Hk & _).
  - discriminate.
  - apply reach_new.
  - vm_compute. reflexivity.
  - assert (∃ a, answers (foldl (turn (demo_config None)) (turn (demo_config None)
      (foldl (turn (demo_config None)) (initial (fresh_world 2)) stored_k)
      (Begin 2 list_keys (conn_new 2 true))) keys_turns) = a ++ [(1%nat, (conn_new 2 true, keys_reply))]) as [a Ha].
    { eexists [_; _]. vm_compute. reflexivity. }
    replace (length (started (foldl (turn (demo_config None)) (initial (fresh_world 2)) stored_k))) with 1%nat
      by (vm_compute; reflexivity).
    unfold list_keys in Ha. rewrite Ha. apply elem_of_app. right. by apply list_elem_of_singleton.
  - exists items. split; [exact Hr|]. split; [exact Hnd|]. intros k Hin. apply (Hk k Hin).
Defined.
