(* ===== verification/Client.v ===== *)
(** * What a client reads

    A reader of the reply stream, as the protocol defines it: simple strings,
    errors, integers, bulk strings, arrays, and the RESP3 types the encoder
    uses.  The encoder of [crates/proto/src/resp.rs] is right when this reader
    gets every reply back, in both versions of the protocol. *)
From S2P Require Import Prelude Std Value Shard Store Resp RespOk Reply RespProps Dump Config Commands Conn ConnOk.
Local Open Scope Z_scope.

Import Resp.

(** ** Frames *)

#[local] Set Warnings "-register-all".

(** What arrives at a client: RESP2 has no booleans, doubles and maps, and one
    null is as good as another. *)
Inductive Frame :=
  | FSimple (s : bytes)
  | FError (s : bytes)
  | FInt (n : Z)
  | FBulk (b : bytes)
  | FNull
  | FArray (items : list Frame)
  | FBool (b : bool)
  | FDouble (text : bytes)
  | FMap (pairs : list (Frame * Frame)).

(** [n] items read one after another. *)
Fixpoint read_many {A : Type} (read : bytes → Parsed (A * bytes)) (n : nat) (buf : bytes)
    : Parsed (list A * bytes) :=
  match n with
  | O => Complete ([], buf)
  | S n =>
      pbind (read buf) (fun '(a, buf) =>
        pbind (read_many read n buf) (fun '(l, buf) => Complete (a :: l, buf)))
  end.

Definition read_two {A : Type} (read : bytes → Parsed (A * bytes)) (buf : bytes)
    : Parsed (A * A * bytes) :=
  pbind (read buf) (fun '(a, buf) => pbind (read buf) (fun '(b, buf) => Complete (a, b, buf))).

(** A line [tag ... CR LF], and what follows it. *)
Definition read_header (buf : bytes) : Parsed (byte * bytes * bytes) :=
  match buf with
  | [] => Incomplete
  | tag :: buf =>
      match read_line buf 0 with
      | Some (line, pos) => Complete (tag, line, drop pos buf)
      | None => Incomplete
      end
  end.

(** [n] bytes and the line end behind them. *)
Definition read_data (n : nat) (buf : bytes) : Parsed (bytes * bytes) :=
  if (length buf <? n + 2)%nat then Incomplete
  else if bool_decide (slice buf n (n + 2) = CRLF) then Complete (take n buf, drop (n + 2) buf)
  else Failed (Malformed "bulk not CRLF-terminated").

(** A reply, nested [depth] deep at most. *)
Fixpoint read_frame (depth : nat) (buf : bytes) : Parsed (Frame * bytes) :=
  match depth with
  | O => Failed (Malformed "nested too deep")
  | S depth =>
      pbind (read_header buf) (fun '(tag, line, buf) =>
        if bool_decide (tag = x2b) then Complete (FSimple line, buf)
        else if bool_decide (tag = x2d) then Complete (FError line, buf)
        else if bool_decide (tag = x5f) then Complete (FNull, buf)
        else if bool_decide (tag = x2c) then Complete (FDouble line, buf)
        else if bool_decide (tag = x23) then Complete (FBool (bool_decide (line = lit "t")), buf)
        else
          pbind (parse_int line) (fun n =>
            if bool_decide (tag = x3a) then Complete (FInt n, buf)
            else if n =? -1 then Complete (FNull, buf)
            else if n <? 0 then Failed (Malformed "negative length")
            else if bool_decide (tag = x24) then
              pbind (read_data (Z.to_nat n) buf) (fun '(b, buf) => Complete (FBulk b, buf))
            else if bool_decide (tag = x2a) then
              pbind (read_many (read_frame depth) (Z.to_nat n) buf) (fun '(l, buf) =>
                Complete (FArray l, buf))
            else if bool_decide (tag = x25) then
              pbind (read_many (read_two (read_frame depth)) (Z.to_nat n) buf) (fun '(l, buf) =>
                Complete (FMap l, buf))
            else Failed (Malformed "unknown type")))
  end.

(** The nesting a client accepts. *)
Definition MAX_DEPTH : nat := 7.

Definition read_reply (buf : bytes) : Parsed (Frame * bytes) := read_frame MAX_DEPTH buf.

(** All replies of a stream, and what is left of an unfinished one; every reply
    takes bytes, so a turn per byte is enough. *)
Fixpoint read_stream (fuel : nat) (buf : bytes) : list Frame * bytes :=
  match fuel with
  | O => ([], buf)
  | S fuel =>
      match read_reply buf with
      | Complete (f, buf) => let '(l, buf) := read_stream fuel buf in (f :: l, buf)
      | _ => ([], buf)
      end
  end.

Definition read_replies (buf : bytes) : list Frame * bytes := read_stream (S (length buf)) buf.

(** ** Replies that can be read *)

Section readable.
Context {FT : FloatText}.
Implicit Types (r : Reply) (b : bool) (d : nat) (buf t : bytes).

(** What the client sees of a reply. *)
Fixpoint frame_of (resp3 : bool) (r : Reply) : Frame :=
  match r with
  | Simple s => FSimple s
  | Error s => FError s
  | Int n => FInt n
  | Bulk (Some b) => FBulk b
  | Array (Some items) => FArray (frame_of resp3 <$> items)
  | Bulk None | Array None | Null => FNull
  | Bool b => if resp3 then FBool b else FInt (if b then 1 else 0)
  | Double d => if resp3 then FDouble (format_double d) else FBulk (format_double d)
  | Map pairs =>
      if resp3 then FMap ((fun p => (frame_of resp3 p.1, frame_of resp3 p.2)) <$> pairs)
      else FArray (pairs ≫= fun p => [frame_of resp3 p.1; frame_of resp3 p.2])
  end.

(** The texts of lines hold no line end, and the nesting is bounded. *)
Fixpoint clean (d : nat) (r : Reply) : Prop :=
  match d with
  | O => False
  | S d =>
      match r with
      | Simple s | Error s => CR ∉ s
      | Double x => CR ∉ format_double x
      | Array (Some items) => Forall (clean d) items
      | Map pairs => Forall (fun p => clean d p.1 ∧ clean d p.2) pairs
      | _ => True
      end
  end.

(** Numbers and lengths fit a machine word. *)
Fixpoint sized (d : nat) (r : Reply) : Prop :=
  match d with
  | O => True
  | S d =>
      match r with
      | Int n => in_i64 n = true
      | Bulk (Some x) => zlen x <= i64_max
      | Double x => zlen (format_double x) <= i64_max
      | Array (Some items) => zlen items <= i64_max ∧ Forall (sized d) items
      | Map pairs => 2 * zlen pairs <= i64_max ∧ Forall (fun p => sized d p.1 ∧ sized d p.2) pairs
      | _ => True
      end
  end.

(** *** Encodings as concatenations *)

Lemma encode_array items b :
  encode (Array (Some items)) [] b =
  [x2a] ++ u64_to_string (zlen items) ++ CRLF ++ concat ((fun r => encode r [] b) <$> items).
Proof.
  cbn [encode]. set (go := fix go (items : list Reply) (out : bytes) : bytes := _).
  assert (∀ l out, go l out = out ++ concat ((fun r => encode r [] b) <$> l)) as Hgo.
  { induction l as [|r l IH]; intros out; [by rewrite app_nil_r|]. simpl.
    by rewrite IH, encode_app, <- app_assoc. }
  rewrite Hgo. by rewrite <- !app_assoc.
Qed.

Lemma encode_map pairs b :
  encode (Map pairs) [] b =
  (if b then [x25] ++ u64_to_string (zlen pairs) else [x2a] ++ u64_to_string (zlen pairs * 2))
  ++ CRLF ++ concat ((fun p => encode p.1 [] b ++ encode p.2 [] b) <$> pairs).
Proof.
  cbn [encode]. set (go := fix go (pairs : list (Reply * Reply)) (out : bytes) : bytes := _).
  assert (∀ l out, go l out = out ++ concat ((fun p => encode p.1 [] b ++ encode p.2 [] b) <$> l)) as Hgo.
  { induction l as [|[k v] l IH]; intros out; [by rewrite app_nil_r|]. simpl.
    rewrite IH, encode_app, (encode_app k out). by rewrite <- !app_assoc. }
  rewrite Hgo. destruct b; by rewrite <- !app_assoc.
Qed.

(** *** Reading what was written *)

Lemma read_header_line tag line t :
  CR ∉ line → read_header (tag :: line ++ CRLF ++ t) = Complete (tag, line, t).
Proof.
  intros Hl. unfold read_header. pose proof (read_line_at [] line t Hl) as Hr.
  cbn [app length Nat.add] in Hr. rewrite Hr. do 2 f_equal.
  rewrite app_assoc. replace (length line + 2)%nat with (length (line ++ CRLF)) by (by rewrite length_app).
  apply drop_app_length.
Qed.

Lemma read_data_written x t : read_data (length x) (x ++ CRLF ++ t) = Complete (x, t).
Proof.
  unfold read_data. rewrite (proj2 (Nat.ltb_ge _ _)) by (rewrite !length_app; simpl; lia).
  assert (slice (x ++ CRLF ++ t) (length x) (length x + 2) = CRLF) as ->.
  { apply (slice_middle x CRLF t). }
  rewrite bool_decide_eq_true_2, take_app_length by done. do 2 f_equal.
  rewrite app_assoc. replace (length x + 2)%nat with (length (x ++ CRLF)) by (by rewrite length_app).
  apply drop_app_length.
Qed.

Lemma read_many_written {A B : Type} (read : bytes → Parsed (A * bytes)) (write : B → bytes)
    (f : B → A) l t :
  (∀ x t, x ∈ l → read (write x ++ t) = Complete (f x, t)) →
  read_many read (length l) (concat (write <$> l) ++ t) = Complete (f <$> l, t).
Proof.
  induction l as [|x l IH]; intros Hr; [done|]. csimpl. rewrite <- app_assoc.
  rewrite Hr by constructor. cbn [pbind]. rewrite IH; [done|]. intros. apply Hr. by constructor.
Qed.

Lemma read_many_app {A : Type} (read : bytes → Parsed (A * bytes)) n m buf :
  read_many read (n + m) buf =
  pbind (read_many read n buf) (fun '(l1, buf) =>
    pbind (read_many read m buf) (fun '(l2, buf) => Complete (l1 ++ l2, buf))).
Proof.
  revert buf. induction n as [|n IH]; intros buf; simpl.
  { by destruct (read_many read m buf) as [| |[l2 buf2]]. }
  destruct (read buf) as [| |[a buf1]]; [done..|]. cbn [pbind]. rewrite IH.
  destruct (read_many read n buf1) as [| |[l1 buf2]]; [done..|]. cbn [pbind].
  by destruct (read_many read m buf2) as [| |[l2 buf3]].
Qed.

Lemma u64_no_CR z : 0 <= z → CR ∉ u64_to_string z.
Proof. intros Hz. by apply digits_no_CR, u64_to_string_digits. Qed.

Lemma i64_no_CR z : CR ∉ i64_to_string z.
Proof.
  unfold i64_to_string. destruct (Z.ltb_spec z 0) as [Hz|Hz]; [|by apply u64_no_CR].
  apply not_elem_of_cons. split; [done|]. apply u64_no_CR. lia.
Qed.

Lemma parse_int_len n : 0 <= n <= i64_max → parse_int (u64_to_string n) = Complete n.
Proof.
  intros Hn. apply parse_int_to_string; [lia|]. apply in_i64_spec. unfold i64_max in Hn. lia.
Qed.

Lemma read_simple d s t : CR ∉ s → read_frame (S d) ([x2b] ++ s ++ CRLF ++ t) = Complete (FSimple s, t).
Proof. intros Hs. cbn [app read_frame]. by rewrite read_header_line. Qed.

Lemma read_error d s t : CR ∉ s → read_frame (S d) ([x2d] ++ s ++ CRLF ++ t) = Complete (FError s, t).
Proof. intros Hs. cbn [app read_frame]. by rewrite read_header_line. Qed.

Lemma read_int d n t :
  in_i64 n = true → read_frame (S d) ([x3a] ++ i64_to_string n ++ CRLF ++ t) = Complete (FInt n, t).
Proof.
  intros Hn. cbn [app read_frame]. rewrite read_header_line by apply i64_no_CR. cbn [pbind].
  unfold parse_int. by rewrite parse_i64_to_string.
Qed.

Lemma read_bulk d x t :
  zlen x <= i64_max →
  read_frame (S d) ([x24] ++ u64_to_string (zlen x) ++ CRLF ++ x ++ CRLF ++ t) = Complete (FBulk x, t).
Proof.
  intros Hx. cbn [app read_frame]. unfold zlen in *.
  rewrite read_header_line by (apply u64_no_CR; lia). cbn [pbind].
  rewrite parse_int_len by lia. cbn [pbind].
  change (bool_decide (x24 = x3a)) with false. cbv iota.
  destruct (Z.eqb_spec (Z.of_nat (length x)) (-1)); [lia|].
  destruct (Z.ltb_spec (Z.of_nat (length x)) 0); [lia|].
  change (bool_decide (x24 = x24)) with true. cbv iota. by rewrite Nat2Z.id, read_data_written.
Qed.

Lemma read_array d n body l t :
  0 <= n <= i64_max → read_many (read_frame d) (Z.to_nat n) (body ++ t) = Complete (l, t) →
  read_frame (S d) ([x2a] ++ u64_to_string n ++ CRLF ++ body ++ t) = Complete (FArray l, t).
Proof.
  intros Hn Hb. cbn [app read_frame]. rewrite read_header_line by (apply u64_no_CR; lia). cbn [pbind].
  rewrite parse_int_len by lia. cbn [pbind].
  change (bool_decide (x2a = x3a)) with false. cbv iota.
  destruct (Z.eqb_spec n (-1)); [lia|]. destruct (Z.ltb_spec n 0); [lia|].
  change (bool_decide (x2a = x24)) with false. change (bool_decide (x2a = x2a)) with true. cbv iota.
  by rewrite Hb.
Qed.

Lemma read_map d n body l t :
  0 <= n <= i64_max →
  read_many (read_two (read_frame d)) (Z.to_nat n) (body ++ t) = Complete (l, t) →
  read_frame (S d) ([x25] ++ u64_to_string n ++ CRLF ++ body ++ t) = Complete (FMap l, t).
Proof.
  intros Hn Hb. cbn [app read_frame]. rewrite read_header_line by (apply u64_no_CR; lia). cbn [pbind].
  rewrite parse_int_len by lia. cbn [pbind].
  change (bool_decide (x25 = x3a)) with false. cbv iota.
  destruct (Z.eqb_spec n (-1)); [lia|]. destruct (Z.ltb_spec n 0); [lia|].
  change (bool_decide (x25 = x24)) with false. change (bool_decide (x25 = x2a)) with false.
  change (bool_decide (x25 = x25)) with true. cbv iota. by rewrite Hb.
Qed.

Lemma bind_pairs {A B : Type} (g : A → B) (l : list (A * A)) :
  (l ≫= fun p => [g p.1; g p.2]) = g <$> (l ≫= fun p => [p.1; p.2]).
Proof. induction l as [|[x y] l IH]; [done|]. csimpl. by rewrite IH. Qed.

Lemma concat_pairs {A : Type} (g : A → bytes) (l : list (A * A)) :
  concat ((fun p => g p.1 ++ g p.2) <$> l) = concat (g <$> (l ≫= fun p => [p.1; p.2])).
Proof. induction l as [|[x y] l IH]; [done|]. csimpl. by rewrite IH, app_assoc. Qed.

Lemma length_pairs {A : Type} (l : list (A * A)) : length (l ≫= fun p => [p.1; p.2]) = (length l * 2)%nat.
Proof. induction l as [|[x y] l IH]; [done|]. csimpl. by rewrite IH. Qed.

(** What the encoder wrote is read back, whatever follows. *)
Lemma read_frame_encoded d r b t :
  clean d r → sized d r → read_frame d (encode r [] b ++ t) = Complete (frame_of b r, t).
Proof.
  revert r t. induction d as [|d IH]; intros r t Hc Hs; [done|].
  destruct r as [s|s|n|[x|]|[items|]| |x|x|pairs];
    [..|rewrite encode_map, <- app_assoc].
  - cbn [encode]. rewrite <- !app_assoc. by apply read_simple.
  - cbn [encode]. rewrite <- !app_assoc. by apply read_error.
  - cbn [encode]. rewrite <- !app_assoc. by apply read_int.
  - cbn [encode]. rewrite <- !app_assoc. by apply read_bulk.
  - by destruct b.
  - rewrite encode_array, <- !app_assoc. destruct Hs as [Hl Hs]. apply read_array; [unfold zlen in *; lia|].
    unfold zlen. rewrite Nat2Z.id. apply (read_many_written _ (fun r => encode r [] b)).
    intros r t' Hr. apply IH; [by eapply Forall_forall in Hc|by eapply Forall_forall in Hs].
  - by destruct b.
  - by destruct b.
  - by destruct b, x.
  - cbn [encode]. destruct b; rewrite <- !app_assoc.
    + cbn [app read_frame]. by rewrite read_header_line.
    + by apply read_bulk.
  - destruct Hs as [Hl Hs]. unfold zlen in *.
    assert (∀ p, p ∈ pairs → ∀ r, r = p.1 ∨ r = p.2 → ∀ t', read_frame d (encode r [] b ++ t') =
      Complete (frame_of b r, t')) as Hread.
    { intros p Hp r Hr t'. eapply Forall_forall in Hc, Hs; [|exact Hp..].
      apply IH; destruct Hr as [-> | ->]; naive_solver. }
    destruct b; rewrite <- !app_assoc; cbn [frame_of].
    + apply read_map; [lia|]. rewrite Nat2Z.id.
      apply (read_many_written _ (fun p => encode p.1 [] true ++ encode p.2 [] true)).
      intros p t' Hp. unfold read_two. rewrite <- app_assoc. rewrite (Hread p Hp) by auto. cbn [pbind].
      by rewrite (Hread p Hp) by auto.
    + apply read_array; [lia|]. rewrite (concat_pairs (fun r => encode r [] false)), (bind_pairs (frame_of false)).
      replace (Z.to_nat (Z.of_nat (length pairs) * 2)) with (length (pairs ≫= fun p => [p.1; p.2]))
        by (rewrite length_pairs; lia).
      apply (read_many_written _ (fun r => encode r [] false)). intros r t' Hr.
      apply list_elem_of_bind in Hr as (p & Hr & Hp).
      apply (Hread p Hp). set_solver.
Qed.

(** *** Reading does not look back *)

(** A verdict on the input stands when more input arrives. *)
Definition stands {A : Type} (t : bytes) (x y : Parsed (A * bytes)) : Prop :=
  match x with
  | Incomplete => True
  | Failed e => y = Failed e
  | Complete (a, rest) => y = Complete (a, rest ++ t)
  end.

Definition stable {A : Type} (read : bytes → Parsed (A * bytes)) : Prop :=
  ∀ buf t, stands t (read buf) (read (buf ++ t)).

Lemma stands_bind {A B : Type} t (x y : Parsed (A * bytes)) (f : A * bytes → Parsed (B * bytes)) :
  stands t x y → (∀ a rest, stands t (f (a, rest)) (f (a, rest ++ t))) →
  stands t (pbind x f) (pbind y f).
Proof. intros Hx Hf. destruct x as [e| |[a rest]]; simpl in *; [by rewrite Hx|done|]. rewrite Hx. apply Hf. Qed.

Lemma read_many_stable {A : Type} (read : bytes → Parsed (A * bytes)) n :
  stable read → stable (read_many read n).
Proof.
  intros Hr. induction n as [|n IH]; intros buf t; [done|]. cbn [read_many].
  apply stands_bind; [apply Hr|]. intros a rest. apply stands_bind; [apply IH|]. done.
Qed.

Lemma read_two_stable {A : Type} (read : bytes → Parsed (A * bytes)) : stable read → stable (read_two read).
Proof.
  intros Hr buf t. unfold read_two. apply stands_bind; [apply Hr|]. intros a rest.
  apply stands_bind; [apply Hr|]. done.
Qed.

Lemma read_header_stable : stable read_header.
Proof.
  intros [|tag buf] t; [done|]. cbn [app read_header].
  destruct (read_line buf 0) as [[line pos]|] eqn:Hl; [|done]. rewrite (read_line_app _ _ _ _ Hl).
  apply read_line_spec in Hl as [Hpos _]. simpl. by rewrite drop_app_le by lia.
Qed.

Lemma read_data_stable n : stable (read_data n).
Proof.
  intros buf t. unfold read_data. destruct (Nat.ltb_spec (length buf) (n + 2)); [done|].
  rewrite (proj2 (Nat.ltb_ge _ _)) by (rewrite length_app; lia). rewrite slice_app_l by lia.
  case_bool_decide; [|done]. simpl. by rewrite take_app_le, drop_app_le by lia.
Qed.

Lemma read_frame_stable d : stable (read_frame d).
Proof.
  induction d as [|d IH]; intros buf t; [done|]. cbn [read_frame].
  apply stands_bind; [apply read_header_stable|]. intros [tag line] rest.
  repeat case_bool_decide; try done.
  - destruct (parse_int line); done.
  - destruct (parse_int line) as [| |n]; [done..|]. cbn [pbind]. repeat (case_match; [done|]).
    apply stands_bind; [apply read_data_stable|done].
  - destruct (parse_int line) as [| |n]; [done..|]. cbn [pbind]. repeat (case_match; [done|]).
    apply stands_bind; [by apply read_many_stable|done].
  - destruct (parse_int line) as [| |n]; [done..|]. cbn [pbind]. repeat (case_match; [done|]).
    apply stands_bind; [by apply read_many_stable, read_two_stable|done].
  - destruct (parse_int line) as [| |n]; [done..|]. cbn [pbind]. by repeat case_match.
Qed.

Lemma read_encoded_prefix d r b n :
  clean d r → sized d r → (n < length (encode r [] b))%nat →
  read_frame d (take n (encode r [] b)) = Incomplete.
Proof.
  intros Hc Hs Hn. pose proof (read_frame_encoded d r b [] Hc Hs) as Hfull.
  pose proof (read_frame_stable d (take n (encode r [] b)) (drop n (encode r [] b))) as Hst.
  rewrite app_nil_r in Hfull. rewrite take_drop, Hfull in Hst.
  destruct (read_frame d (take n (encode r [] b))) as [e| |[f rest]]; [done..|]. simpl in Hst.
  injection Hst as _ Hrest. apply (f_equal length) in Hrest.
  rewrite length_app, length_drop in Hrest. simpl in Hrest. lia.
Qed.

(** *** A stream of replies *)

Lemma encode_nonempty r b : (0 < length (encode r [] b))%nat.
Proof.
  destruct r as [s|s|n|[x|]|[items|]| |x|x|pairs]; rewrite ?encode_array, ?encode_map;
    try (destruct b); try (destruct x); apply Nat.lt_0_succ.
Qed.

(** What was sent: each reply in the version of the protocol in force. *)
Definition reply_bytes (rs : list (Reply * bool)) : bytes := concat ((fun p => encode p.1 [] p.2) <$> rs).

Lemma read_stream_encoded rs rest fuel :
  Forall (fun p => clean MAX_DEPTH p.1 ∧ sized MAX_DEPTH p.1) rs →
  read_reply rest = Incomplete → (length (reply_bytes rs) < fuel)%nat →
  read_stream fuel (reply_bytes rs ++ rest) = ((fun p => frame_of p.2 p.1) <$> rs, rest).
Proof.
  intros Hrs Hrest. revert fuel. induction Hrs as [|[r b] rs [Hc Hs] Hrs IH]; intros fuel Hf;
    (destruct fuel as [|fuel]; [lia|]).
  - cbn [read_stream]. change (reply_bytes [] ++ rest) with rest. by rewrite Hrest.
  - unfold reply_bytes in *. csimpl. cbn [fst snd] in *. rewrite fmap_cons in Hf. cbn [concat fst snd] in Hf.
    rewrite length_app in Hf. pose proof (encode_nonempty r b). rewrite <- app_assoc.
    cbn [read_stream]. unfold read_reply. rewrite read_frame_encoded by done.
    fold (read_reply). rewrite IH by lia. done.
Qed.

(** C22: the encoder of replies is right. Whatever sequence of replies is
    written, in RESP2 or RESP3, without CR in their lines, nested up to the
    depth of the reader and of a size it takes, a client reads back exactly
    these replies, and while bytes of the last one are missing it waits for
    them. *)
Theorem reply_round_trip rs last b n :
  Forall (fun p => clean MAX_DEPTH p.1 ∧ sized MAX_DEPTH p.1) rs →
  clean MAX_DEPTH last → sized MAX_DEPTH last → (n < length (encode last [] b))%nat →
  read_replies (concat ((fun p => encode p.1 [] p.2) <$> rs) ++ take n (encode last [] b)) =
  ((fun p => frame_of p.2 p.1) <$> rs, take n (encode last [] b)).
Proof.
  intros Hrs Hc Hs Hn. apply read_stream_encoded; [done|by apply read_encoded_prefix|].
  unfold reply_bytes. rewrite length_app. lia.
Qed.

End readable.

(** ** Witness *)

(** A map and a pipelined error, then the beginning of an array: the map is an
    array in RESP2. *)
Definition demo_replies : list (Reply * bool) :=
  [(Map [(Bulk (Some (lit "k")), Int 7)], false); (Error (lit "ERR x"), true)].

Lemma reply_round_trip_witness :
  read_replies (lit "*2" ++ CRLF ++ lit "$1" ++ CRLF ++ lit "k" ++ CRLF ++ lit ":7" ++ CRLF
                ++ lit "-ERR x" ++ CRLF ++ lit "*1" ++ [CR]) =
  ([FArray [FBulk (lit "k"); FInt 7]; FError (lit "ERR x")], lit "*1" ++ [CR]).
Proof.
  assert (Forall (fun p => clean (FT := demo_float_text) MAX_DEPTH p.1 ∧
                           sized (FT := demo_float_text) MAX_DEPTH p.1) demo_replies) as Hrs.
  { unfold demo_replies, MAX_DEPTH. constructor; [|constructor; [|constructor]]; cbn [fst].
    - split; [by repeat constructor|]. split; [by compute|]. constructor; [|constructor].
      split; [by compute|reflexivity].
    - split; [|done]. apply (bool_decide_unpack (CR ∉ lit "ERR x")). vm_compute. exact I. }
  pose proof (reply_round_trip (FT := demo_float_text) demo_replies (Array (Some [Null])) false 3 Hrs
    ltac:(by repeat constructor) ltac:(split; [by compute|by repeat constructor])
    ltac:(apply Nat.ltb_lt; vm_compute; reflexivity)) as H.
  vm_compute in H. vm_compute. exact H.
Defined.
