(* ===== verification/Answers.v ===== *)
(** * Answers

    Every command has a reply type: what a client gets is an error line or a
    reply of one of the shapes listed for the command, so that the client can
    read it.  On an open connection every command is answered by exactly one
    reply, in order. *)
From S2P Require Import Prelude Std Map Eviction Value Shard Spec ShardOk Store StoreOk StoreProps.
From S2P Require Import Resp RespOk Reply RespProps Dump Config Commands CommandsOk Persistence Conn ConnOk ConnProps Client.
Local Open Scope Z_scope.

Import Resp.

(** ** Reply types *)

Inductive Shape :=
  | ShOk        (* the line OK *)
  | ShPong      (* the line PONG *)
  | ShInt       (* an integer *)
  | ShBulk      (* a string or nil *)
  | ShBulks     (* an array of strings, some of them perhaps nil *)
  | ShNone      (* a nil array *)
  | ShPairs     (* a map of strings, or the same as an array in RESP2 *)
  | ShScan      (* a cursor and an array of keys *)
  | ShType      (* a line that names a type *)
  | ShHello.    (* the properties of the server *)

#[export] Instance shape_eq_dec : EqDecision Shape.
Proof. solve_decision. Defined.

Definition is_bulk (r : Reply) : bool := match r with Bulk _ => true | _ => false end.

Definition is_scalar (r : Reply) : bool :=
  match r with Bulk _ | Int _ | Array (Some []) => true | _ => false end.

Definition type_names : list string := ["string"; "list"; "hash"; "set"; "zset"; "none"]%string.

Definition has_shape (resp3 : bool) (sh : Shape) (r : Reply) : bool :=
  match sh, r with
  | ShOk, Simple s => bool_decide (s = lit "OK")
  | ShPong, Simple s => bool_decide (s = lit "PONG")
  | ShInt, Int _ => true
  | ShBulk, Bulk _ => true
  | ShBulks, Array (Some items) => forallb is_bulk items
  | ShNone, Array None => true
  | ShPairs, Map pairs => resp3 && forallb (fun p => is_bulk p.1 && is_bulk p.2) pairs
  | ShPairs, Array (Some items) => negb resp3 && forallb is_bulk items && (length items mod 2 =? 0)%nat
  | ShScan, Array (Some [Bulk (Some _); Array (Some keys)]) => forallb is_bulk keys
  | ShType, Simple s => existsb (fun t => bool_decide (s = lit t)) type_names
  | ShHello, Map pairs => forallb (fun p => is_bulk p.1 && is_scalar p.2) pairs
  | _, _ => false
  end.

(** The replies of each command other than errors. *)
Definition reply_types : list (list string * list Shape) :=
  [(["PING"], [ShPong; ShBulk]);
   (["HELLO"], [ShHello]);
   (["QUIT"; "SELECT"; "AUTH"; "FLUSHALL"; "FLUSHDB"; "SETEX"; "PSETEX"; "MSET"; "HMSET"; "SAVE"; "BGSAVE"],
    [ShOk]);
   (["COMMAND"], [ShInt; ShBulks]);
   (["CONFIG"], [ShOk; ShBulks]);
   (["CLIENT"], [ShOk; ShBulk; ShInt]);
   (["SET"], [ShOk; ShBulk]);
   (["ECHO"; "INFO"; "GET"; "GETSET"; "HGET"; "ZSCORE"], [ShBulk]);
   (["DBSIZE"; "SETNX"; "APPEND"; "STRLEN"; "INCR"; "DECR"; "INCRBY"; "DECRBY"; "LPUSH"; "RPUSH";
     "LLEN"; "HSET"; "HDEL"; "HLEN"; "HEXISTS"; "SADD"; "SREM"; "SISMEMBER"; "SCARD"; "ZADD"; "ZREM";
     "ZCARD"; "DEL"; "UNLINK"; "EXISTS"; "EXPIRE"; "PEXPIRE"; "EXPIREAT"; "PEXPIREAT"; "PERSIST";
     "TTL"; "PTTL"], [ShInt]);
   (["LPOP"; "RPOP"], [ShBulk; ShBulks; ShNone]);
   (["MGET"; "LRANGE"; "HKEYS"; "HVALS"; "HMGET"; "SMEMBERS"; "ZRANGE"; "KEYS"], [ShBulks]);
   (["HGETALL"], [ShPairs]);
   (["SCAN"], [ShScan]);
   (["TYPE"], [ShType])]%string.

Definition shapes_of (nm : bytes) : list Shape :=
  match find (fun p => existsb (fun s => bool_decide (nm = lit s)) p.1) reply_types with
  | Some (_, l) => l
  | None => []
  end.

Definition no_CR (s : bytes) : bool := forallb (fun b => negb (bool_decide (b = CR))) s.

(** An error line, or one of the shapes of the command. *)
Definition well_typed (nm : bytes) (resp3 : bool) (r : Reply) : bool :=
  match r with
  | Error s => no_CR s
  | _ => existsb (fun sh => has_shape resp3 sh r) (shapes_of nm)
  end.

Lemma no_CR_spec s : no_CR s = true ↔ CR ∉ s.
Proof.
  unfold no_CR. rewrite forallb_forall. setoid_rewrite negb_true_iff. setoid_rewrite bool_decide_eq_false.
  setoid_rewrite <- list_elem_of_In. naive_solver.
Qed.

Lemma no_CR_app s t : no_CR (s ++ t) = no_CR s && no_CR t.
Proof. apply forallb_app. Qed.

Lemma typed_shape sh nm b r :
  bool_decide (sh ∈ shapes_of nm) = true → has_shape b sh r = true → well_typed nm b r = true.
Proof.
  intros Hin%bool_decide_eq_true Hsh. unfold well_typed.
  assert (existsb (fun sh => has_shape b sh r) (shapes_of nm) = true) as He.
  { apply existsb_exists. exists sh. split; [by apply list_elem_of_In|done]. }
  destruct r; [done|by destruct sh|done..].
Qed.

Section clean_replies.
Context {FT : FloatText}.

Lemma bulks_clean d l : forallb is_bulk l = true → Forall (clean (S d)) l.
Proof.
  rewrite forallb_forall. intros Hl. apply Forall_forall. intros r Hr%list_elem_of_In%Hl. by destruct r.
Qed.

(** A reply of a command's type can be read by a client. *)
Lemma typed_clean nm b r : well_typed nm b r = true → clean MAX_DEPTH r.
Proof.
  intros Ht. assert (clean MAX_DEPTH r ∨ ∃ sh, has_shape b sh r = true) as [?|[sh Hsh]].
  { destruct r; try (right; by apply existsb_exists in Ht as (sh & _ & ?); exists sh).
    left. by apply no_CR_spec in Ht. }
  { done. }
  clear Ht. unfold MAX_DEPTH.
  destruct sh, r as [s|s|n|x|[items|]| |x|x|pairs]; try done; cbn [has_shape] in Hsh.
  - apply bool_decide_eq_true in Hsh as ->. by apply no_CR_spec.
  - apply bool_decide_eq_true in Hsh as ->. by apply no_CR_spec.
  - by apply bulks_clean.
  - apply andb_true_iff in Hsh as [Hsh _]. apply andb_true_iff in Hsh as [_ Hsh]. by apply bulks_clean.
  - apply andb_true_iff in Hsh as [_ Hsh]. rewrite forallb_forall in Hsh. apply Forall_forall.
    intros [k v] Hp%list_elem_of_In%Hsh. apply andb_true_iff in Hp as [Hk Hv].
    simpl in *. by destruct k, v.
  - destruct items as [|[| | |[x|]| | | | |] [|[| | | |[keys|]| | | |] [|]]]; try done.
    repeat constructor. by apply (bulks_clean 4).
  - apply existsb_exists in Hsh as (t & Ht & ->%bool_decide_eq_true). unfold type_names in Ht.
    repeat destruct Ht as [<-|Ht]; [..|done]; by apply no_CR_spec.
  - rewrite forallb_forall in Hsh. apply Forall_forall. intros [k v] Hp%list_elem_of_In%Hsh.
    apply andb_true_iff in Hp as [Hk Hv]. simpl in *. destruct k; try done. split; [done|].
    destruct v as [| | | |[[]|]| | | |]; done.
Qed.

End clean_replies.

(** ** The texts of errors *)

Definition err_clean {A : Type} (r : Result A) : Prop :=
  match r with Ok _ => True | Err e => no_CR (lit e) = true end.

(** The results of the store carry error texts without line ends, and the names
    of the types. *)
Definition ret_clean (r : Ret) : Prop :=
  match r with
  | RStr r => err_clean r
  | RInt r => err_clean r
  | RLen r => err_clean r
  | RItems r => err_clean r
  | RPairs r => err_clean r
  | RFlag r => err_clean r
  | RScore r => err_clean r
  | RScored r => err_clean r
  | RType t => t ∈ type_names
  | RBool _ | RTtl _ => True
  end.

Section error_texts.
Context {HO : HashOrder}.

Lemma on_shard_result {R : Type} st k (f : Shard.t → Shard.t * R) :
  (Store.on_shard st k f).2 = (f (Store.shard st k)).2.
Proof. unfold Store.on_shard. by destruct (f _). Qed.

Lemma with_collection_clean {C R : Type} `{Collection C} now s k (body : C → C * R) :
  err_clean (Shard.with_collection now s k body).2.
Proof.
  unfold Shard.with_collection. destruct (Shard.live s k now) as [s1 l].
  destruct (FlatMap.get_mut _ _) as [[e put]|]; [|done].
  destruct (as_variant (value e)) as [c|]; [|done]. destruct (body c). by case_match.
Qed.

Lemma read_collection_clean {R : Type} now s k (f : option Value → Result R) :
  (∀ v, err_clean (f v)) → err_clean (Shard.read_collection now s k f).2.
Proof.
  intros Hf. unfold Shard.read_collection. destruct (Shard.live s k now) as [s1 []]; apply Hf.
Qed.

Lemma incr_by_clean now s k d : err_clean (Shard.incr_by now s k d).2.
Proof.
  unfold Shard.incr_by. destruct (Shard.live s k now) as [s1 l].
  destruct l; repeat case_match; simplify_eq/=; done.
Qed.

Lemma append_clean now s k v : err_clean (Shard.append now s k v).2.
Proof.
  unfold Shard.append. destruct (Shard.live s k now) as [s1 l].
  destruct l; repeat case_match; simplify_eq/=; done.
Qed.

Lemma type_of_named now s k : (Shard.type_of now s k).2 ∈ type_names.
Proof.
  unfold Shard.type_of. destruct (Shard.live s k now) as [s1 []]; cbn [negb snd].
  - destruct (FlatMap.get _ _) as [[[] x]|]; unfold type_names; simpl; set_solver.
  - unfold type_names. set_solver.
Qed.

Lemma exec_clean now st o : ret_clean (Store.exec now st o).2.
Proof.
  assert (∀ (R : Type) (C : R → Ret) k (f : Shard.t → Shard.t * R),
    (∀ s, ret_clean (C (f s).2)) → ret_clean (prod_map id C (Store.on_shard st k f)).2) as Hon.
  { intros R C k f Hf. unfold Store.on_shard. specialize (Hf (Store.shard st k)). by destruct (f _). }
  destruct o; cbn [Store.exec]; apply Hon; intros s; try exact I;
    try (apply with_collection_clean); try (apply read_collection_clean; by intros [[]|]).
  - unfold Shard.get. destruct (Shard.live _ _ _) as [s1 []]; repeat case_match; simplify_eq/=; done.
  - apply type_of_named.
  - apply incr_by_clean.
  - apply append_clean.
  - unfold Shard.strlen. destruct (Shard.live _ _ _) as [s1 []]; repeat case_match; simplify_eq/=; done.
Qed.

End error_texts.

(** ** What a computation can answer *)

Create HintDb yields.

Section yields.
Context {HO : HashOrder} {FT : FloatText}.
Implicit Types (w : World).

(** The system's messages hold no line ends. *)
Definition plain_faults (w : World) : Prop := ∀ i e, io_fault w i = Some e → no_CR e = true.

(** The result satisfies [Q], and the faults to come are the same. *)
Definition yields {A : Type} (Q : A → Prop) (f : M A) : Prop :=
  ∀ w, plain_faults w → io_fault (f w).1 = io_fault w ∧ Q (f w).2.

Lemma yields_ret {A : Type} (Q : A → Prop) a : Q a → yields Q (mret a).
Proof. by intros Ha w Hw. Qed.

Lemma yields_bind {A B : Type} (Q : A → Prop) (P : B → Prop) (f : M A) (g : A → M B) :
  yields Q f → (∀ a, Q a → yields P (g a)) → yields P (f ≫= g).
Proof.
  intros Hf Hg w Hw. unfold mbind, M_bind. destruct (Hf w Hw) as [Hio Ha].
  destruct (f w) as [w1 a]. cbn [fst snd] in *.
  destruct (Hg a Ha w1) as [Hio' Hb]; [unfold plain_faults; by rewrite Hio|]. split; [congruence|done].
Qed.

Lemma yields_weaken {A : Type} (Q P : A → Prop) (f : M A) : (∀ a, Q a → P a) → yields Q f → yields P f.
Proof. intros HQ Hf w Hw. destruct (Hf w Hw). auto. Qed.

Lemma yields_mapM {A B : Type} (Q : B → Prop) (f : A → M B) l :
  (∀ a, yields Q (f a)) → yields (Forall Q) (mapM f l).
Proof.
  intros Hf. induction l as [|a l IH]; [by apply yields_ret|]. cbn [mapM].
  eapply yields_bind; [apply Hf|]. intros b Hb. eapply yields_bind; [exact IH|]. intros bs Hbs.
  apply yields_ret. by constructor.
Qed.

Lemma yields_call {R : Type} (o : Op) (C : R → Ret) (f : Z → Store.t → Store.t * R) :
  (∀ t st, Store.exec t st o = prod_map id C (f t st)) → yields (fun r => ret_clean (C r)) (call f).
Proof.
  intros Hf w Hw. unfold call. pose proof (exec_clean (clock w (tick w)) (store w) o) as He.
  rewrite Hf in He. by destruct (f _ _) as [st' r].
Qed.

Lemma yields_look {R : Type} (f : Z → Store.t → Store.t * R) : yields (fun _ => True) (call f).
Proof. intros w Hw. unfold call. by destruct (f _ _). Qed.

Lemma yields_peek {R : Type} (f : Store.t → R) : yields (fun _ => True) (peek f).
Proof. by intros w Hw. Qed.

Lemma yields_flush : yields (fun _ => True) flush_all.
Proof. by intros w Hw. Qed.

Lemma yields_save : yields (fun r => match r with Some e => no_CR e = true | None => True end) save_snapshot.
Proof. intros w Hw. unfold save_snapshot. destruct (io_fault w (tick w)) as [e|] eqn:He; [|done]. split; [done|]. by eapply Hw. Qed.

Ltac yields_op o C := apply (yields_call o C); done.

Lemma yields_get k : yields err_clean (call (fun t st => Store.get t st k)).
Proof. yields_op (OGet k) RStr. Qed.
Lemma yields_type_of k : yields (.∈ type_names) (call (fun t st => Store.type_of t st k)).
Proof. yields_op (OTypeOf k) RType. Qed.
Lemma yields_incr_by k d : yields err_clean (call (fun t st => Store.incr_by t st k d)).
Proof. yields_op (OIncrBy k d) RInt. Qed.
Lemma yields_append k v : yields err_clean (call (fun t st => Store.append t st k v)).
Proof. yields_op (OAppend k v) RLen. Qed.
Lemma yields_strlen k : yields err_clean (call (fun t st => Store.strlen t st k)).
Proof. yields_op (OStrlen k) RLen. Qed.
Lemma yields_push k vs b : yields err_clean (call (fun t st => Store.push t st k vs b)).
Proof. yields_op (OPush k vs b) RLen. Qed.
Lemma yields_pop k n b : yields err_clean (call (fun t st => Store.pop t st k n b)).
Proof. yields_op (OPop k n b) RItems. Qed.
Lemma yields_llen k : yields err_clean (call (fun t st => Store.llen t st k)).
Proof. yields_op (OLlen k) RLen. Qed.
Lemma yields_lrange k a b : yields err_clean (call (fun t st => Store.lrange t st k a b)).
Proof. yields_op (OLrange k a b) RItems. Qed.
Lemma yields_hset k ps : yields err_clean (call (fun t st => Store.hset t st k ps)).
Proof. yields_op (OHset k ps) RLen. Qed.
Lemma yields_hget k f : yields err_clean (call (fun t st => Store.hget t st k f)).
Proof. yields_op (OHget k f) RStr. Qed.
Lemma yields_hdel k fs : yields err_clean (call (fun t st => Store.hdel t st k fs)).
Proof. yields_op (OHdel k fs) RLen. Qed.
Lemma yields_hlen k : yields err_clean (call (fun t st => Store.hlen t st k)).
Proof. yields_op (OHlen k) RLen. Qed.
Lemma yields_hgetall k : yields err_clean (call (fun t st => Store.hgetall t st k)).
Proof. yields_op (OHgetall k) RPairs. Qed.
Lemma yields_sadd k ms : yields err_clean (call (fun t st => Store.sadd t st k ms)).
Proof. yields_op (OSadd k ms) RLen. Qed.
Lemma yields_srem k ms : yields err_clean (call (fun t st => Store.srem t st k ms)).
Proof. yields_op (OSrem k ms) RLen. Qed.
Lemma yields_sismember k x : yields err_clean (call (fun t st => Store.sismember t st k x)).
Proof. yields_op (OSismember k x) RFlag. Qed.
Lemma yields_scard k : yields err_clean (call (fun t st => Store.scard t st k)).
Proof. yields_op (OScard k) RLen. Qed.
Lemma yields_smembers k : yields err_clean (call (fun t st => Store.smembers t st k)).
Proof. yields_op (OSmembers k) RItems. Qed.
Lemma yields_zadd k ps : yields err_clean (call (fun t st => Store.zadd t st k ps)).
Proof. yields_op (OZadd k ps) RLen. Qed.
Lemma yields_zrem k ms : yields err_clean (call (fun t st => Store.zrem t st k ms)).
Proof. yields_op (OZrem k ms) RLen. Qed.
Lemma yields_zscore k x : yields err_clean (call (fun t st => Store.zscore t st k x)).
Proof. yields_op (OZscore k x) RScore. Qed.
Lemma yields_zcard k : yields err_clean (call (fun t st => Store.zcard t st k)).
Proof. yields_op (OZcard k) RLen. Qed.
Lemma yields_zrange k a b : yields err_clean (call (fun t st => Store.zrange t st k a b)).
Proof. yields_op (OZrange k a b) RScored. Qed.

End yields.

#[export] Hint Resolve yields_get yields_type_of yields_incr_by yields_append yields_strlen yields_push
  yields_pop yields_llen yields_lrange yields_hset yields_hget yields_hdel yields_hlen yields_hgetall
  yields_sadd yields_srem yields_sismember yields_scard yields_smembers yields_zadd yields_zrem
  yields_zscore yields_zcard yields_zrange yields_peek yields_flush yields_save : yields.

(** ** The replies of the commands *)

Lemma err_typed nm b msg : no_CR (lit msg) = true → well_typed nm b (err msg) = true.
Proof. intros Hm. unfold well_typed, err. by rewrite no_CR_app, Hm. Qed.

Lemma wrong_args_typed nm b c : no_CR (lit c) = true → well_typed nm b (wrong_args c) = true.
Proof. intros Hc. unfold well_typed, wrong_args. by rewrite !no_CR_app, Hc. Qed.

Lemma store_err_typed {A : Type} nm b e : err_clean (A := A) (Err e) → well_typed nm b (store_err e) = true.
Proof. intros He. unfold store_err. case_bool_decide; [exact He|by apply err_typed]. Qed.

Lemma bulks_shape b l : has_shape b ShBulks (Array (Some (bulks l))) = true.
Proof. simpl. unfold bulks. induction l; [done|]. simpl. done. Qed.

Lemma forall_bulks b l : Forall (fun r => is_bulk r = true) l → has_shape b ShBulks (Array (Some l)) = true.
Proof. intros Hl. simpl. apply forallb_forall. intros r Hr%list_elem_of_In. by eapply Forall_forall in Hl. Qed.

Lemma pairs_shape_map l :
  has_shape true ShPairs (Map ((fun p => (Bulk (Some p.1), Bulk (Some p.2))) <$> l)) = true.
Proof. simpl. by induction l. Qed.

Lemma pairs_shape_array (l : list (bytes * bytes)) :
  has_shape false ShPairs (Array (Some (bulks (l ≫= fun p => [p.1; p.2])))) = true.
Proof.
  cbn [has_shape negb andb]. apply andb_true_iff. split; [apply (bulks_shape false)|].
  unfold bulks. rewrite length_fmap, length_pairs. apply Nat.eqb_eq. apply Nat.Div0.mod_mul.
Qed.

Lemma scan_shape b c l :
  has_shape b ShScan (Array (Some [Bulk (Some c); Array (Some (bulks l))])) = true.
Proof. apply (bulks_shape b). Qed.

Lemma lossy_no_CR s : no_CR s = true → no_CR (from_utf8_lossy s) = true.
Proof.
  assert (∀ n s, (length s <= n)%nat → no_CR s = true → no_CR (from_utf8_lossy s) = true) as H;
    [|by apply (H (length s))].
  clear s. induction n as [|n IH]; intros s Hn Hs; [by destruct s; [|simpl in Hn; lia]|].
  assert (∀ t, (length t <= n)%nat → no_CR t = true → no_CR (replacement ++ from_utf8_lossy t) = true) as Hrep.
  { intros t Ht Hc. rewrite no_CR_app. by rewrite IH. }
  assert (∀ b t, no_CR (b :: t) = negb (bool_decide (b = CR)) && no_CR t) as Hcons by done.
  destruct s as [|b0 s1]; [done|]. cbn [length] in Hn. rewrite Hcons in Hs.
  apply andb_true_iff in Hs as [H0 Hs1]. cbn [from_utf8_lossy].
  destruct (_ <? 128); [rewrite Hcons, H0; apply IH; [lia|done]|].
  destruct ((194 <=? _) && _).
  { destruct s1 as [|b1 s2]; [done|]. destruct (is_cont b1); [|by apply Hrep; [lia|]].
    rewrite Hcons in Hs1. apply andb_true_iff in Hs1 as [H1 Hs2]. rewrite !Hcons, H0, H1.
    apply IH; [simpl in *; lia|done]. }
  destruct ((224 <=? _) && _).
  { destruct s1 as [|b1 s2]; [done|]. destruct (in_range _ _ b1); [|by apply Hrep; [lia|]].
    rewrite Hcons in Hs1. apply andb_true_iff in Hs1 as [H1 Hs2].
    destruct s2 as [|b2 s3]; [done|]. destruct (is_cont b2); [|apply Hrep; [simpl in *; lia|done]].
    rewrite Hcons in Hs2. apply andb_true_iff in Hs2 as [H2 Hs3]. rewrite !Hcons, H0, H1, H2.
    apply IH; [simpl in *; lia|done]. }
  destruct ((240 <=? _) && _); [|by apply Hrep; [lia|]].
  destruct s1 as [|b1 s2]; [done|]. destruct (in_range _ _ b1); [|by apply Hrep; [lia|]].
  rewrite Hcons in Hs1. apply andb_true_iff in Hs1 as [H1 Hs2].
  destruct s2 as [|b2 s3]; [done|]. destruct (is_cont b2); [|apply Hrep; [simpl in *; lia|done]].
  rewrite Hcons in Hs2. apply andb_true_iff in Hs2 as [H2 Hs3].
  destruct s3 as [|b3 s4]; [done|]. destruct (is_cont b3); [|apply Hrep; [simpl in *; lia|done]].
  rewrite Hcons in Hs3. apply andb_true_iff in Hs3 as [H3 Hs4]. rewrite !Hcons, H0, H1, H2, H3.
  apply IH; [simpl in *; lia|done].
Qed.

Section typed_arms.
Context {HO : HashOrder} {FT : FloatText}.

Definition answers (nm : bytes) (b : bool) : M Outcome → Prop :=
  yields (fun o => well_typed nm b (reply o) = true).

Definition arm_typed (a : Arm) : Prop :=
  ∀ p argv st cfg, p ∈ pats a →
    yields (fun r => well_typed (lit p) (resp3 st) (reply r.2) = true) (body a (lit p) argv st cfg).

Lemma answers_keep nm st (f : M Outcome) :
  answers nm (resp3 st) f →
  yields (fun r => well_typed nm (resp3 st) (reply r.2) = true) (o ← f; mret (st, o)).
Proof. intros Hf. eapply yields_bind; [exact Hf|]. intros o Ho. by apply yields_ret. Qed.

Lemma typed_cmd ps g f :
  (∀ p argv b, p ∈ ps → answers (lit p) b (f argv)) → arm_typed (mkArm ps g (cmd f)).
Proof. intros Hf p argv st cfg Hp. by apply answers_keep, Hf. Qed.

Lemma typed_op {R : Type} (Q : R → Prop) ps g (f : Z → Store.t → list bytes → Store.t * R) out :
  (∀ argv, yields Q (call (fun t st => f t st argv))) →
  (∀ p b r, p ∈ ps → Q r → well_typed (lit p) b (reply (out r)) = true) → arm_typed (mkArm ps g (op f out)).
Proof.
  intros Hf Hout. apply typed_cmd. intros p argv b Hp. eapply yields_bind; [apply Hf|].
  intros r Hr. by apply yields_ret, Hout.
Qed.

Lemma typed_pure ps g f :
  (∀ p argv st cfg, p ∈ ps → well_typed (lit p) (resp3 st) (reply (f argv st cfg).2) = true) →
  arm_typed (mkArm ps g (pure_cmd f)).
Proof. intros Hf p argv st cfg Hp. apply yields_ret. by apply Hf. Qed.

End typed_arms.

(** A reply of the shape [sh] of a command given by its name. *)
Ltac shape sh := apply (typed_shape sh); [vm_compute; reflexivity|].

Ltac answer :=
  first
    [reflexivity
    |apply wrong_args_typed; reflexivity
    |apply err_typed; reflexivity
    |by eapply store_err_typed
    |shape ShInt; reflexivity
    |shape ShOk; reflexivity
    |shape ShBulk; reflexivity
    |shape ShPong; reflexivity
    |shape ShNone; reflexivity
    |shape ShBulks; first [apply bulks_shape|by apply forall_bulks|reflexivity]
    |shape ShScan; apply scan_shape].

(** The side conditions of a reply that is listed for its command. *)
Ltac by_type := first [assumption|vm_compute; reflexivity].

(** The only pattern of an arm. *)
Ltac only_pattern H :=
  repeat (apply elem_of_cons in H as [->|H]); try (exfalso; by apply not_elem_of_nil in H).

Ltac answers :=
  repeat first
    [apply yields_ret; cbn [reply out_r out_w out_maybe]; solve [answer]
    |eapply yields_bind; [first [solve [eauto 3 with yields]|apply yields_look]|intros ? ?]
    |case_match; simplify_eq; cbv beta iota zeta].

Section dispatch_typed.
Context {HO : HashOrder} {FT : FloatText}.

Lemma int_or_err_typed nm b r : bool_decide (ShInt ∈ shapes_of nm) = true →
  err_clean r → well_typed nm b (reply (int_or_err r)) = true.
Proof. intros Hs Hr. destruct r; [by apply (typed_shape ShInt)|by eapply store_err_typed]. Qed.

Lemma str_or_err_typed nm b r : bool_decide (ShBulk ∈ shapes_of nm) = true →
  err_clean r → well_typed nm b (reply (str_or_err r)) = true.
Proof. intros Hs Hr. destruct r; [by apply (typed_shape ShBulk)|by eapply store_err_typed]. Qed.

Lemma items_or_err_typed nm b r : bool_decide (ShBulks ∈ shapes_of nm) = true →
  err_clean r → well_typed nm b (reply (items_or_err r)) = true.
Proof.
  intros Hs Hr. destruct r; [|by eapply store_err_typed]. apply (typed_shape ShBulks); [done|]. apply bulks_shape.
Qed.

Lemma dirty_count_typed nm b r : bool_decide (ShInt ∈ shapes_of nm) = true →
  err_clean r → well_typed nm b (reply (dirty_count r)) = true.
Proof. intros Hs Hr. destruct r; [by apply (typed_shape ShInt)|by eapply store_err_typed]. Qed.

Lemma written_len_typed nm b r : bool_decide (ShInt ∈ shapes_of nm) = true →
  err_clean r → well_typed nm b (reply (written_len r)) = true.
Proof. intros Hs Hr. destruct r; [by apply (typed_shape ShInt)|by eapply store_err_typed]. Qed.

Lemma incr_reply_typed nm b r : bool_decide (ShInt ∈ shapes_of nm) = true →
  err_clean r → well_typed nm b (reply (incr_reply r)) = true.
Proof. intros Hs Hr. destruct r; [by apply (typed_shape ShInt)|by eapply store_err_typed]. Qed.

Lemma set_opts_typed now rest opts want e nm b :
  set_opts now rest opts want = inr e → well_typed nm b e = true.
Proof.
  revert rest opts want e. fix IH 1. intros [|a rest] opts want e; [discriminate|]. cbn [set_opts].
  repeat (case_match; [apply IH|]).
  case_match; [|by intros [= <-]; apply err_typed].
  destruct rest as [|a' rest]; [by intros [= <-]; apply err_typed|].
  destruct (parse_i64_bytes a'); [apply IH|by intros [= <-]; apply err_typed].
Qed.

Lemma set_typed b argv : answers (lit "SET") b (set_cmd argv).
Proof.
  unfold answers, set_cmd. case_match; [answers|]. eapply yields_bind; [apply yields_look|]. intros now _.
  destruct (set_opts _ _ _ _) as [[opts want]|e] eqn:Ho; [|apply yields_ret; by eapply set_opts_typed].
  eapply (yields_bind err_clean).
  { destruct want; [apply yields_get|by apply yields_ret]. }
  intros old Hold. answers.
Qed.

Lemma setex_typed p b argv :
  p ∈ ["SETEX"; "PSETEX"]%string → answers (lit p) b (setex_cmd argv (bool_decide (lit p = lit "PSETEX"))).
Proof. intros Hp. only_pattern Hp; unfold answers, setex_cmd; answers. Qed.

Lemma incr_typed p b argv d by_ :
  p ∈ ["INCR"; "DECR"; "INCRBY"; "DECRBY"]%string → answers (lit p) b (incr_cmd argv d by_).
Proof.
  intros Hp. unfold answers, incr_cmd.
  only_pattern Hp; (destruct by_; answers); apply yields_ret, incr_reply_typed; by_type.
Qed.

Lemma getset_typed b argv : answers (lit "GETSET") b (getset_cmd argv).
Proof. unfold answers, getset_cmd. answers. Qed.

Lemma setnx_typed b argv : answers (lit "SETNX") b (setnx_cmd argv).
Proof. unfold answers, setnx_cmd. answers. Qed.

Lemma mset_typed b argv : answers (lit "MSET") b (mset_cmd argv).
Proof.
  unfold answers, mset_cmd. case_match; [answers|].
  eapply yields_bind; [apply (yields_mapM (fun _ => True)); intros []; apply yields_look|]. intros. answers.
Qed.

(** The items of [MGET] and [HMGET]. *)
Lemma bulk_items {A : Type} (f : A → M (Result (option bytes))) l :
  (∀ a, yields err_clean (f a)) →
  yields (Forall (fun r => is_bulk r = true))
    (mapM (fun a => r ← f a; mret (match r with Ok v => bulk v | Err _ => Bulk None end)) l).
Proof.
  intros Hf. apply yields_mapM. intros a. eapply yields_bind; [apply Hf|]. intros r _.
  apply yields_ret. by destruct r.
Qed.

Lemma mget_typed b argv : answers (lit "MGET") b (mget_cmd argv).
Proof.
  unfold answers, mget_cmd. eapply yields_bind; [apply bulk_items; intros; apply yields_get|].
  intros. answers.
Qed.

Lemma hmget_typed b argv : answers (lit "HMGET") b (hmget_cmd argv).
Proof.
  unfold answers, hmget_cmd. eapply yields_bind; [apply bulk_items; intros; apply yields_hget|].
  intros. answers.
Qed.

Lemma push_typed p b argv left : p ∈ ["LPUSH"; "RPUSH"]%string → answers (lit p) b (push_cmd argv left).
Proof.
  intros Hp. unfold answers, push_cmd.
  only_pattern Hp; destruct left; answers; apply yields_ret, written_len_typed; by_type.
Qed.

Lemma pop_typed p b argv left : p ∈ ["LPOP"; "RPOP"]%string → answers (lit p) b (pop_cmd argv left).
Proof.
  intros Hp. unfold answers, pop_cmd. case_match.
  { only_pattern Hp; destruct left; answers. }
  destruct (if (length argv =? 3)%nat then _ else _) as [count|e] eqn:Hc; cycle 1.
  { apply yields_ret. assert (e = err "value is out of range, must be positive") as ->
      by (repeat case_match; simplify_eq; done). answer. }
  eapply yields_bind; [apply yields_pop|]. intros [items|e] Hr; apply yields_ret; [|by eapply store_err_typed].
  cbn [reply out_maybe]. unfold pop_reply. only_pattern Hp; destruct count, items; answer.
Qed.

Lemma lrange_typed b argv : answers (lit "LRANGE") b (lrange_cmd argv).
Proof.
  unfold answers, lrange_cmd. answers. apply yields_ret, items_or_err_typed; by_type.
Qed.

Lemma hset_typed p b argv :
  p ∈ ["HSET"; "HMSET"]%string → answers (lit p) b (hset_cmd argv (bool_decide (lit p = lit "HMSET"))).
Proof. intros Hp. only_pattern Hp; unfold answers, hset_cmd; answers. Qed.

Lemma hgetall_typed st argv :
  yields (fun o => well_typed (lit "HGETALL") (resp3 st) (reply o) = true) (hgetall_cmd argv st).
Proof.
  unfold hgetall_cmd. eapply yields_bind; [apply yields_hgetall|]. intros [ps|e] Hr; apply yields_ret.
  - destruct (resp3 st); shape ShPairs; [apply pairs_shape_map|apply pairs_shape_array].
  - by eapply store_err_typed.
Qed.

Lemma hkeys_typed p b argv keys :
  p ∈ ["HKEYS"; "HVALS"]%string → answers (lit p) b (hkeys_vals_cmd argv keys).
Proof.
  intros Hp. unfold answers, hkeys_vals_cmd. eapply yields_bind; [apply yields_hgetall|].
  intros [ps|e] Hr; apply yields_ret; [|by eapply store_err_typed]. only_pattern Hp; answer.
Qed.

Lemma zadd_typed b argv : answers (lit "ZADD") b (zadd_cmd argv).
Proof. unfold answers, zadd_cmd. answers. apply yields_ret, written_len_typed; by_type. Qed.

Lemma zscore_typed b argv : answers (lit "ZSCORE") b (zscore_cmd argv).
Proof.
  unfold answers, zscore_cmd. eapply yields_bind; [apply yields_zscore|].
  intros [[s|]|e] Hr; apply yields_ret; [answer..|by eapply store_err_typed].
Qed.

Lemma zrange_typed b argv : answers (lit "ZRANGE") b (zrange_cmd argv).
Proof.
  unfold answers, zrange_cmd. do 2 (case_match; [|answers]).
  eapply yields_bind; [apply yields_zrange|].
  intros [items|e] Hr; apply yields_ret; [answer|by eapply store_err_typed].
Qed.

Lemma expire_typed p b argv u abs :
  p ∈ ["EXPIRE"; "PEXPIRE"; "EXPIREAT"; "PEXPIREAT"]%string → answers (lit p) b (expire_cmd argv u abs).
Proof. intros Hp. unfold answers, expire_cmd. only_pattern Hp; answers. Qed.

Lemma ttl_typed p b argv s : p ∈ ["TTL"; "PTTL"]%string → answers (lit p) b (ttl_cmd argv s).
Proof.
  intros Hp. unfold answers, ttl_cmd, ttl_reply. only_pattern Hp; answers; apply yields_ret;
    case_match; answer.
Qed.

Lemma count_typed p b (f : bytes → M bool) argv (out : Z → Outcome) :
  p ∈ ["DEL"; "UNLINK"; "EXISTS"]%string → (∀ k, yields (fun _ => True) (f k)) →
  (∀ n, reply (out n) = Int n) → answers (lit p) b (n ← countM f (drop 1 argv); mret (out n)).
Proof.
  intros Hp Hf Hout. unfold answers, countM. eapply yields_bind.
  { eapply yields_bind; [by apply yields_mapM|]. intros bs _. by apply (yields_ret (fun _ => True)). }
  intros n _. apply yields_ret. rewrite Hout. only_pattern Hp; answer.
Qed.

Lemma config_typed b argv cfg : well_typed (lit "CONFIG") b (reply (config_cmd argv cfg)) = true.
Proof.
  unfold config_cmd. case_match; [|answer]. cbn [reply out_r]. shape ShBulks. apply forall_bulks.
  apply Forall_forall. intros r (x & Hr & _)%list_elem_of_bind.
  destruct (config_value cfg (lower_text x)); set_solver.
Qed.

Lemma hello_typed argv st : well_typed (lit "HELLO") (resp3 st) (reply (hello argv st).2) = true.
Proof.
  unfold hello. destruct (if (2 <=? length argv)%nat then _ else _); [|reflexivity].
  shape ShHello. reflexivity.
Qed.

Lemma auth_typed argv st cfg : well_typed (lit "AUTH") (resp3 st) (reply (auth argv st cfg).2) = true.
Proof. unfold auth. repeat case_match; answer. Qed.

Lemma client_typed argv st : well_typed (lit "CLIENT") (resp3 st) (reply (client_cmd argv st).2) = true.
Proof. unfold client_cmd. repeat case_match; cbn [snd reply out_r]; answer. Qed.

(** The arms one by one. *)

Lemma introspection_typed : Forall arm_typed introspection_arms.
Proof.
  unfold introspection_arms. repeat apply Forall_cons_2; [..|constructor].
  - apply typed_pure. intros p argv st cfg Hp. only_pattern Hp.
    destruct argv as [|a [|b [|]]]; answer.
  - apply typed_pure. intros p argv st cfg Hp. only_pattern Hp. answer.
  - apply typed_pure. intros p argv st cfg Hp. only_pattern Hp. apply hello_typed.
  - apply typed_pure. intros p argv st cfg Hp. only_pattern Hp. answer.
  - apply typed_pure. intros p argv st cfg Hp. only_pattern Hp. answer.
  - apply typed_pure. intros p argv st cfg Hp. only_pattern Hp. apply auth_typed.
  - apply typed_pure. intros p argv st cfg Hp. only_pattern Hp.
    cbn [snd]. unfold command_meta. case_match; answer.
  - apply typed_pure. intros p argv st cfg Hp. only_pattern Hp. apply config_typed.
  - apply typed_pure. intros p argv st cfg Hp. only_pattern Hp. apply client_typed.
  - intros p argv st cfg Hp. only_pattern Hp. eapply yields_bind; [apply yields_peek|].
    intros t _. apply yields_ret. cbn [snd reply out_r]. answer.
  - intros p argv st cfg Hp. only_pattern Hp. eapply yields_bind; [apply yields_peek|].
    intros t _. apply yields_ret. cbn [snd reply out_r]. answer.
  - intros p argv st cfg Hp. eapply yields_bind; [apply yields_flush|].
    intros t _. apply yields_ret. cbn [snd reply out_w]. only_pattern Hp; answer.
Qed.

Lemma string_typed : Forall arm_typed string_arms.
Proof.
  unfold string_arms. repeat apply Forall_cons_2; [..|constructor].
  - apply typed_cmd. intros p argv b Hp. only_pattern Hp. apply set_typed.
  - apply (typed_op err_clean); [intros; apply yields_get|]. intros p b r Hp Hr. only_pattern Hp.
    apply str_or_err_typed; by_type.
  - apply typed_cmd. intros p argv b Hp. only_pattern Hp. apply getset_typed.
  - apply typed_cmd. intros p argv b Hp. only_pattern Hp. apply setnx_typed.
  - intros p argv st cfg Hp. by apply answers_keep, setex_typed.
  - apply typed_cmd. intros p argv b Hp. only_pattern Hp. apply mset_typed.
  - apply typed_cmd. intros p argv b Hp. only_pattern Hp. apply mget_typed.
  - apply (typed_op err_clean); [intros; apply yields_append|]. intros p b r Hp Hr. only_pattern Hp.
    apply written_len_typed; by_type.
  - apply (typed_op err_clean); [intros; apply yields_strlen|]. intros p b r Hp Hr. only_pattern Hp.
    apply int_or_err_typed; by_type.
  - apply typed_cmd. intros p argv b Hp. apply incr_typed. set_solver.
  - apply typed_cmd. intros p argv b Hp. apply incr_typed. set_solver.
  - apply typed_cmd. intros p argv b Hp. apply incr_typed. set_solver.
  - apply typed_cmd. intros p argv b Hp. apply incr_typed. set_solver.
Qed.

(** An arm that calls the store once and answers by [out]. *)
Ltac typed_call Hy Ht :=
  apply (typed_op err_clean); [intros; apply Hy|];
  let Hp := fresh in intros ? ? ? Hp ?; only_pattern Hp; apply Ht; by_type.

Lemma collection_typed : Forall arm_typed collection_arms.
Proof.
  unfold collection_arms. repeat apply Forall_cons_2; [..|constructor].
  - apply typed_cmd. intros p argv b Hp. apply push_typed. set_solver.
  - apply typed_cmd. intros p argv b Hp. apply push_typed. set_solver.
  - apply typed_cmd. intros p argv b Hp. apply pop_typed. set_solver.
  - apply typed_cmd. intros p argv b Hp. apply pop_typed. set_solver.
  - typed_call yields_llen int_or_err_typed.
  - apply typed_cmd. intros p argv b Hp. only_pattern Hp. apply lrange_typed.
  - intros p argv st cfg Hp. by apply answers_keep, hset_typed.
  - typed_call yields_hget str_or_err_typed.
  - typed_call yields_hdel dirty_count_typed.
  - typed_call yields_hlen int_or_err_typed.
  - apply (typed_op err_clean); [intros; apply yields_hget|]. intros p b r Hp Hr. only_pattern Hp.
    destruct r; [answer|by eapply store_err_typed].
  - intros p argv st cfg Hp. only_pattern Hp. apply answers_keep, hgetall_typed.
  - intros p argv st cfg Hp. by apply answers_keep, hkeys_typed.
  - apply typed_cmd. intros p argv b Hp. only_pattern Hp. apply hmget_typed.
  - typed_call yields_sadd dirty_count_typed.
  - typed_call yields_srem dirty_count_typed.
  - apply (typed_op err_clean); [intros; apply yields_sismember|]. intros p b r Hp Hr. only_pattern Hp.
    destruct r; [answer|by eapply store_err_typed].
  - typed_call yields_scard int_or_err_typed.
  - typed_call yields_smembers items_or_err_typed.
  - apply typed_cmd. intros p argv b Hp. only_pattern Hp. apply zadd_typed.
  - apply typed_cmd. intros p argv b Hp. only_pattern Hp. apply zscore_typed.
  - typed_call yields_zrem dirty_count_typed.
  - typed_call yields_zcard int_or_err_typed.
  - apply typed_cmd. intros p argv b Hp. only_pattern Hp. apply zrange_typed.
Qed.

Lemma keyspace_typed : Forall arm_typed keyspace_arms.
Proof.
  unfold keyspace_arms. repeat apply Forall_cons_2; [..|constructor].
  - apply typed_cmd. intros p argv b Hp. apply (count_typed p b _ _ (fun n => out_maybe (Int n) (0 <? n)));
      [set_solver|intros; apply yields_look|done].
  - apply typed_cmd. intros p argv b Hp. apply (count_typed p b _ _ (fun n => out_r (Int n)));
      [set_solver|intros; apply yields_look|done].
  - apply (typed_op (.∈ type_names)); [intros; apply yields_type_of|]. intros p b r Hp Hr. only_pattern Hp.
    shape ShType. cbn [has_shape reply out_r]. apply existsb_exists. exists r.
    split; [by apply list_elem_of_In|by apply bool_decide_eq_true].
  - apply typed_cmd. intros p argv b Hp. apply expire_typed. set_solver.
  - apply typed_cmd. intros p argv b Hp. apply expire_typed. set_solver.
  - apply typed_cmd. intros p argv b Hp. apply expire_typed. set_solver.
  - apply typed_cmd. intros p argv b Hp. apply expire_typed. set_solver.
  - apply typed_cmd. intros p argv b Hp. only_pattern Hp. unfold answers, persist_cmd. answers.
  - apply typed_cmd. intros p argv b Hp. apply ttl_typed. set_solver.
  - apply typed_cmd. intros p argv b Hp. apply ttl_typed. set_solver.
  - apply typed_cmd. intros p argv b Hp. only_pattern Hp. unfold answers, keys_cmd. answers.
  - apply typed_cmd. intros p argv b Hp. only_pattern Hp. unfold answers, scan_cmd. answers.
  - apply typed_cmd. intros p argv b Hp. unfold answers, save_cmd.
    eapply yields_bind; [apply yields_save|]. intros [e|] He; apply yields_ret; cbn [reply out_r].
    + unfold well_typed. by rewrite no_CR_app, He.
    + only_pattern Hp; answer.
Qed.

Lemma arms_typed a : a ∈ arms → arm_typed a.
Proof.
  revert a. apply Forall_forall. unfold arms.
  repeat apply Forall_app_2; auto using introspection_typed, string_typed, collection_typed, keyspace_typed.
Qed.

Lemma dispatch_typed argv st cfg :
  no_CR (argv !!! 0%nat) = true →
  yields (fun r => well_typed (upper (argv !!! 0%nat)) (resp3 st) (reply r.2) = true) (dispatch argv st cfg).
Proof.
  intros Hnm. unfold dispatch. destruct (find _ arms) as [a|] eqn:Hf.
  - apply find_some in Hf as [Ha%list_elem_of_In%arms_typed Hm].
    apply andb_true_iff in Hm as [(p & Hp & ->%bool_decide_eq_true)%existsb_exists _].
    apply Ha. by apply list_elem_of_In.
  - apply yields_ret. cbn [snd reply unknown_command out_r well_typed].
    by rewrite !no_CR_app, lossy_no_CR.
Qed.

(** C13: every command answers by its type. Whatever the data and the arguments,
    [dispatch] gives an error line or a reply of one of the shapes listed for
    the command, in both versions of the protocol, and a client can read it, as
    long as the name of the command and the error texts of the operating system
    have no CR, which would break the line of an error. *)
Theorem dispatch_reply_typed argv st cfg w :
  no_CR (argv !!! 0%nat) = true → plain_faults w →
  let '(w', (st', o)) := dispatch argv st cfg w in
  well_typed (upper (argv !!! 0%nat)) (resp3 st) (reply o) = true ∧ clean MAX_DEPTH (reply o).
Proof.
  intros Hnm Hw. destruct (dispatch_typed argv st cfg Hnm w Hw) as [_ Ht].
  destruct (dispatch argv st cfg w) as [w' [st' o]]. cbn [fst snd] in Ht.
  split; [done|]. by eapply typed_clean.
Qed.

End dispatch_typed.

(** ** Witness *)

Lemma dispatch_reply_typed_witness :
  let o := (dispatch (HO := canonical_order) (FT := demo_float_text) [lit "ttl"; lit "k"] (conn_new 7 true)
              (demo_config None) demo_world).2.2 in
  has_shape false ShInt (reply o) = true ∧ clean (FT := demo_float_text) MAX_DEPTH (reply o).
Proof.
  pose proof (dispatch_reply_typed (HO := canonical_order) (FT := demo_float_text) [lit "ttl"; lit "k"]
    (conn_new 7 true) (demo_config None) demo_world eq_refl ltac:(done)) as H. cbv zeta.
  split; [vm_compute; reflexivity|].
  destruct (dispatch _ _ _ demo_world) as [w' [st' o]]. exact (proj2 H).
Defined.
