(* ===== verification/Session.v ===== *)
(** * Sessions

    A client sends commands and reads replies.  On a connection that stays open
    it reads exactly one reply per command, in the order of the commands,
    however its bytes were cut on the way. *)
From S2P Require Import Prelude Std Map Eviction Value Shard Spec ShardOk Store StoreOk StoreProps.
From S2P Require Import Resp RespOk Reply RespProps Dump Config Commands CommandsOk Persistence Conn ConnOk ConnProps Client Answers.
Local Open Scope Z_scope.

Section session.
Context {HO : HashOrder} {FT : FloatText}.
Implicit Types (w : World) (sv : Server) (st : ConnState) (out : bytes) (rs : list (Reply * bool)).

(** ** Strings fit the machine when memory is limited *)

Lemma entry_cost_le (m : Db.t) k e : m !! k = Some e → Db.entry_cost k e <= Db.cost m.
Proof.
  intros Hk. unfold Db.cost. rewrite (map_sum_delete _ m k e Hk).
  pose proof (Db.cost_nonneg (delete k m)). unfold Db.cost in *. lia.
Qed.

Lemma limited_short mm s : 0 < mm < 2 ^ 64 → reach mm s → strings_short ⟦s⟧.
Proof.
  intros Hmm Hr k v x Hk%entry_cost_le. pose proof (reach_ok mm s ltac:(lia) Hr) as [Hs Hb].
  rewrite <- total_bytes_cost in Hk by done.
  assert (total_bytes s <= mm).
  { apply total_bytes_bound; [lia|done|]. rewrite Hb. destruct (Z.eqb_spec mm 0); [lia|done]. }
  unfold Db.entry_cost, key_overhead, ENTRY_OVERHEAD in Hk. cbn [value value_bytes] in Hk.
  pose proof (zlen_nonneg k). lia.
Qed.

(** ** The reply to one command *)

(** The world with the clock standing at the next reading. *)
Definition at_instant w : World :=
  mkWorld (store w) (tick w) (fun _ => clock w (tick w)) (entropy w) (io_fault w) (snapshot w).

(** The reply to a command, as [dispatch] defines it, or as one of the gates does.
    The fast path reads the clock once, where [dispatch] may read it again. *)
Definition answer sv st (argv : list bytes) (p : Reply * bool) : Prop :=
  let nm := upper (argv !!! 0%nat) in
  if negb (authenticated st) && negb (is_preauth_ok nm)
  then p.1 = Error (lit "NOAUTH Authentication required.")
  else if read_only sv && is_write_command nm
  then p.1 = Error (lit "READONLY You can't write against a read only replica.")
  else
    let replies w := let '(_, (st', o)) := dispatch argv st (config sv) w in p = (reply o, resp3 st') in
    match serve_fast st argv [] with
    | Some _ => replies (at_instant (world sv))
    | None => replies (world sv)
    end.

(** The fast path looks at the clock once. *)
Lemma serve_fast_instant st argv out m w :
  serve_fast st argv out = Some m → (m (at_instant w)).2 = (m w).2 ∧ io_fault (m w).1 = io_fault w.
Proof.
  unfold serve_fast.
  assert (∀ d, (fast_incr (argv !!! 1%nat) d out (at_instant w)).2 = (fast_incr (argv !!! 1%nat) d out w).2 ∧
    io_fault (fast_incr (argv !!! 1%nat) d out w).1 = io_fault w) as Hincr.
  { intros d. unfold fast_incr, mbind, M_bind, call. cbn [clock tick store at_instant].
    by destruct (Store.incr_by _ _ _ _) as [s' [v|e]]. }
  destruct (bool_decide (_ = lit "GET") && _).
  { intros [= <-]. unfold mbind, M_bind, call. cbn [clock tick store at_instant]. by destruct (Store.read_str _ _ _ _). }
  destruct (bool_decide (_ = lit "SET") && _).
  { intros [= <-]. unfold mbind, M_bind, call. cbn [clock tick store at_instant]. by destruct (Store.set _ _ _ _ _). }
  destruct (bool_decide (_ = lit "PING") && _); [by intros [= <-]|].
  destruct (bool_decide (_ = lit "INCR") && _); [intros [= <-]; apply Hincr|].
  destruct (bool_decide (_ = lit "DECR") && _); [intros [= <-]; apply Hincr|done].
Qed.

(** What is executed is answered with what [dispatch] replies. *)
Lemma execute_replied mm w cfg st argv out :
  0 <= mm → reach mm (store w) → strings_short ⟦store w⟧ → plain_faults w →
  no_CR (argv !!! 0%nat) = true →
  let '(w', _, out', _, _) := execute w cfg st argv out in
  io_fault w' = io_fault w ∧
  ∃ p, clean MAX_DEPTH p.1 ∧ out' = encode p.1 out p.2 ∧
    let '(_, (st', o)) := dispatch argv st cfg (match serve_fast st argv [] with Some _ => at_instant w | None => w end) in
    p = (reply o, resp3 st').
Proof.
  intros Hmm Hr Hsh Hp Hnm. unfold execute. pose proof (serve_fast_app st argv out w) as Happ.
  destruct (serve_fast st argv out) as [m|] eqn:Hm, (serve_fast st argv []) as [m0|]; try done; clear Happ.
  - destruct (serve_fast_instant st argv out m w Hm) as [Hin Hio].
    pose proof (fast_path_ok mm (at_instant w) cfg st argv out m Hmm Hr (fun _ => eq_refl) Hm) as Hf.
    destruct (dispatch_typed argv st cfg Hnm (at_instant w) Hp) as [_ Ht].
    destruct (m w) as [w' [out' b]], (m (at_instant w)) as [w1 [out1 b1]].
    destruct (dispatch argv st cfg (at_instant w)) as [w2 [st2 o]]. cbn [fst snd] in *.
    destruct Hf as (_ & -> & _ & _ & Hout). injection Hin as -> ->. split; [done|].
    exists (reply o, resp3 st). split_and!; [by eapply typed_clean|by apply Hout|done].
  - destruct (dispatch_typed argv st cfg Hnm w Hp) as [Hio Ht].
    destruct (dispatch argv st cfg w) as [w' [st' o]]. cbn [fst snd] in *. split; [done|].
    exists (reply o, resp3 st'). split_and!; [by eapply typed_clean|done|done].
Qed.

(** ** The replies to a command on a connection *)

Lemma handle_command_replied mm raw sv st argv out :
  0 <= mm → reach mm (store (world sv)) → strings_short ⟦store (world sv)⟧ → plain_faults (world sv) →
  no_CR (argv !!! 0%nat) = true →
  let '(sv', st', out', fl) := handle_command raw sv st argv out in
  plain_faults (world sv') ∧
  (fl = Next → ∃ p, answer sv st argv p ∧ clean MAX_DEPTH p.1 ∧ out' = encode p.1 out p.2).
Proof.
  intros Hmm Hr Hsh Hp Hnm. unfold handle_command, answer. set (nm := upper (argv !!! 0%nat)).
  destruct (bool_decide _ || _).
  { destruct raw; [|by split]. split; [|done]. unfold add_replica_with_snapshot. by destruct (link_down _ _ _). }
  assert (∀ e, no_CR e = true → ∃ p : Reply * bool,
    p.1 = Error e ∧ clean MAX_DEPTH p.1 ∧ Resp.write_error out e = encode p.1 out p.2) as Herr.
  { intros e He. exists (Error e, false). split_and!; [done| |done]. by apply no_CR_spec. }
  destruct (negb (authenticated st) && _); [split; [done|intros _; by apply Herr]|].
  destruct (read_only sv && _); [split; [done|intros _; by apply Herr]|].
  pose proof (execute_replied mm (world sv) (config sv) st argv out Hmm Hr Hsh Hp Hnm) as He.
  destruct (execute _ _ _ _ _) as [[[[w' st'] out'] q] is_write]. destruct He as (Hio & p & Hcl & -> & Hd).
  assert (plain_faults w') as Hp' by (unfold plain_faults; by rewrite Hio).
  assert (∃ p0, match serve_fast st argv [] with
    | Some _ => let '(_, (st', o)) := dispatch argv st (config sv) (at_instant (world sv)) in p0 = (reply o, resp3 st')
    | None => let '(_, (st', o)) := dispatch argv st (config sv) (world sv) in p0 = (reply o, resp3 st') end ∧
    clean MAX_DEPTH p0.1 ∧ encode p.1 out p.2 = encode p0.1 out p0.2) as Hans.
  { exists p. split_and!; [|done|done]. by destruct (serve_fast st argv []). }
  destruct (is_write && _); [|split; [done|by intros _]].
  unfold log_write. destruct (aof _) as [a|].
  - destruct (aof_append a _ argv) as [a' [e|]].
    + split; [by destruct (has_replicas _)|]. by rewrite orb_true_r.
    + split; [by destruct (has_replicas _)|]. by intros _.
  - split; [by destruct (has_replicas _)|]. by intros _.
Qed.

(** *** Commands one after another *)

(** The replies to the commands, each in the state the earlier ones left. *)
Fixpoint answered raw sv st (cmds : list (list bytes)) rs : Prop :=
  match cmds, rs with
  | [], [] => True
  | argv :: cmds, p :: rs =>
      answer sv st argv p ∧
      let '(sv1, st1, _, _) := handle_command raw sv st argv [] in answered raw sv1 st1 cmds rs
  | _, _ => False
  end.

(** On the way no string reaches 2^64 bytes. *)
Fixpoint short_run raw sv st (cmds : list (list bytes)) : Prop :=
  strings_short ⟦store (world sv)⟧ ∧
  match cmds with
  | [] => True
  | argv :: cmds => let '(sv1, st1, _, _) := handle_command raw sv st argv [] in short_run raw sv1 st1 cmds
  end.

(** A memory limit keeps strings short. *)
Lemma limited_run mm raw sv st cmds :
  0 < mm < 2 ^ 64 → reach mm (store (world sv)) → short_run raw sv st cmds.
Proof.
  intros Hmm. revert sv st. induction cmds as [|argv cmds IH]; intros sv st Hr; cbn [short_run];
    (split; [by eapply limited_short|]); [done|].
  pose proof (handle_command_ok mm ltac:(lia) raw sv st argv [] Hr) as Hok.
  destruct (handle_command raw sv st argv []) as [[[sv1 st1] out1] fl]. by apply IH, Hok.
Qed.

Lemma answered_length raw sv st cmds rs : answered raw sv st cmds rs → length rs = length cmds.
Proof.
  revert sv st rs. induction cmds as [|argv cmds IH]; intros sv st [|p rs]; try done. cbn [answered length].
  destruct (handle_command raw sv st argv []) as [[[sv1 st1] out1] fl]. intros [_ Hrs]. f_equal. by eapply IH.
Qed.

Lemma serve_all_replied mm raw sv st cmds out :
  0 <= mm → reach mm (store (world sv)) → plain_faults (world sv) → short_run raw sv st cmds →
  Forall (fun argv => no_CR (argv !!! 0%nat) = true) cmds →
  let '(_, _, out', fl) := serve_all raw sv st cmds out in
  fl = Next → ∃ rs, answered raw sv st cmds rs ∧ Forall (fun p => clean MAX_DEPTH p.1) rs ∧
    out' = out ++ reply_bytes rs.
Proof.
  intros Hmm Hr Hp Hsh Hc. revert sv st out Hr Hp Hsh.
  induction Hc as [|argv cmds Hnm Hc IH]; intros sv st out Hr Hp Hsh; cbn [serve_all].
  { intros _. exists []. split_and!; [done|constructor|by rewrite app_nil_r]. }
  cbn [short_run] in Hsh. destruct Hsh as [Hsh Hrun].
  pose proof (handle_command_replied mm raw sv st argv out Hmm Hr Hsh Hp Hnm) as Hh.
  pose proof (handle_command_ok mm Hmm raw sv st argv out Hr) as Hok.
  pose proof (handle_command_app raw sv st argv out) as Happ.
  destruct (handle_command raw sv st argv out) as [[[sv1 st1] out1] fl].
  assert (∃ o, handle_command raw sv st argv [] = (sv1, st1, o, fl)) as [o Ho].
  { destruct (handle_command raw sv st argv []) as [[[? ?] ?] ?]. injection Happ as -> -> _ ->. by eexists. }
  rewrite Ho in Hrun. destruct Hok as (Hr1 & _), Hh as [Hp1 Hone]. destruct fl; [|done..].
  specialize (IH sv1 st1 out1 Hr1 Hp1 Hrun). destruct (serve_all raw sv1 st1 cmds out1) as [[[sv2 st2] out2] fl2].
  intros Hfl. destruct (Hone eq_refl) as (p & Hans & Hcl & ->). destruct (IH Hfl) as (rs & Hrs & Hcs & ->).
  exists (p :: rs). cbn [answered]. rewrite Ho. split_and!; [done|done|by constructor|].
  unfold reply_bytes. cbn. by rewrite encode_app, app_assoc.
Qed.

(** C12: every command is answered, in order.  A client sends any commands, and the
    beginning of another, in any chunks.  If the connection is open at the end,
    the client has been sent, one after the other, the replies of [dispatch] to
    its commands, each in the state that the earlier ones left, or the error of a
    gate; and when the replies fit the reader it reads back exactly these and
    nothing else.  The names of the commands and the messages of the system have
    no line ends, and no stored string reaches 2^64 bytes. *)
Theorem session_answers mm raw sv id cmds next n chunks :
  0 <= mm → reach mm (store (world sv)) → plain_faults (world sv) →
  short_run raw sv (cstate (accept sv id)) cmds →
  Forall sendable cmds → Forall (fun argv => no_CR (argv !!! 0%nat) = true) cmds →
  command_fits next → (n < length (Resp.write_cmd [] next))%nat →
  concat chunks = encoded cmds ++ take n (Resp.write_cmd [] next) →
  let '(sv', c') := receive_all raw sv (accept sv id) chunks in
  flow c' = Next →
  ∃ rs, answered raw sv (cstate (accept sv id)) cmds rs ∧ length rs = length cmds ∧
    sent c' = concat ((fun p => encode p.1 [] p.2) <$> rs) ∧
    Forall (fun p => clean MAX_DEPTH p.1) rs ∧
    (Forall (fun p => sized MAX_DEPTH p.1) rs →
     read_replies (sent c') = ((fun p => frame_of p.2 p.1) <$> rs, [])).
Proof.
  intros Hmm Hr Hp Hsh Hc Hnm Hfit Hn Hch.
  destruct (receive_all raw sv (accept sv id) chunks) as [sv' c'] eqn:Hrec. intros Hfl.
  assert (flow (receive_all raw sv (accept sv id) chunks).2 = Next) as Hend by (by rewrite Hrec).
  rewrite (receive_all_concat raw sv (accept sv id) chunks) in Hrec by done. rewrite Hch in Hrec.
  rewrite receive_rest in Hrec by done. cbn [inbuf cstate accept sent app] in Hrec, Hsh |- *.
  set (st0 := conn_new id _) in *.
  pose proof (serve_rest_encoded raw sv st0 cmds (take n (Resp.write_cmd [] next)) []
    (S (length (encoded cmds ++ take n (Resp.write_cmd [] next)))) Hc
    (parse_encoded_prefix next n Hfit Hn) ltac:(lia)) as Hs.
  pose proof (serve_all_replied mm raw sv st0 cmds [] Hmm Hr Hp Hsh Hnm) as Hrep.
  destruct (serve_all raw sv st0 cmds []) as [[[sv1 st1] out] fl].
  destruct (serve_rest _ raw sv st0 _ []) as [[[[sv2 st2] rest2] out2] fl2].
  destruct Hs as (_ & _ & -> & -> & _). injection Hrec as _ <-. cbn [flow sent] in *. subst fl.
  destruct (Hrep eq_refl) as (rs & Hans & Hcl & ->). exists rs.
  split_and!; [done|by eapply answered_length|done|done|].
  intros Hsz. rewrite app_nil_l. unfold read_replies.
  pose proof (read_stream_encoded rs [] (S (length (reply_bytes rs)))) as Hread.
  rewrite app_nil_r in Hread. apply Hread; [|done|lia]. by apply Forall_and.
Qed.

End session.

(** ** Witness *)

#[local] Existing Instance canonical_order.
#[local] Existing Instance demo_float_text.

(** A server with a memory limit, and two commands in three chunks. *)
Definition limited_server : Server :=
  mkServer (mkWorld demo_full 0 (fun _ => 11) (fun _ => demo_seeds) (fun _ => None) None)
    (demo_config None) (Some (aof_open [])) (fun _ => None) [] (fun _ _ => false) false.

Definition demo_cmds : list (list bytes) := [[lit "INCR"; lit "n"]; [lit "TYPE"; lit "n"]].

Lemma session_answers_witness :
  ∃ rs, answered true limited_server (conn_new 7 true) demo_cmds rs ∧ Forall (fun p => clean MAX_DEPTH p.1) rs ∧
    concat ((fun p => encode p.1 [] p.2) <$> rs) = lit ":1" ++ Resp.CRLF ++ lit "+string" ++ Resp.CRLF.
Proof.
  pose proof (session_answers 300 true limited_server 7 demo_cmds [lit "PING"] 2
    [take 9 (encoded demo_cmds); drop 9 (encoded demo_cmds); lit "*1"]
    ltac:(lia) demo_full_reach ltac:(done) ltac:(apply (limited_run 300); [lia|exact demo_full_reach])
    ltac:(repeat (constructor; [split; [done|split; [by compute|repeat constructor; by compute]]|]); constructor)
    ltac:(repeat constructor) ltac:(split; [by compute|repeat constructor; by compute])
    ltac:(apply Nat.ltb_lt; vm_compute; reflexivity) ltac:(vm_compute; reflexivity)) as H.
  destruct (receive_all _ _ _ _) as [sv' c'] eqn:Hc.
  assert (flow c' = Next) as Hfl.
  { apply (f_equal (fun p => flow p.2)) in Hc. cbn [snd] in Hc. rewrite <- Hc. vm_compute. reflexivity. }
  destruct (H Hfl) as (rs & Hans & _ & Hs & Hcl & _). exists rs. split; [exact Hans|]. split; [exact Hcl|].
  rewrite <- Hs. apply (f_equal (fun p => sent p.2)) in Hc. cbn [snd] in Hc. rewrite <- Hc.
  vm_compute. reflexivity.
Defined.
