(* ===== verification/Input.v ===== *)
(** * What the parser lets through

    Any bytes may arrive, in chunks of at most 64 KiB.  The commands that come
    out of the buffer are within the limits of the protocol, so that they can be
    written to the log and read back. *)
From S2P Require Import Prelude Std Map Eviction Value Shard Spec ShardOk Store StoreOk StoreProps.
From S2P Require Import Resp RespOk Reply RespProps Dump Config Commands CommandsOk Persistence Conn ConnOk ConnProps.
Local Open Scope Z_scope.

Import Resp.

(** ** A verdict depends on what was consumed only *)

Section locality.
Implicit Types (buf t s : bytes) (pos n : nat) (argv : list bytes).

Lemma crlf_from_shrink s t i j :
  crlf_from (s ++ t) i = Some j → (j + 2 <= i + length s)%nat → crlf_from s i = Some j.
Proof.
  revert i. induction s as [|b1 s IH]; intros i Hc Hl.
  { rewrite crlf_from_shift in Hc. destruct (crlf_from ([] ++ t) 0); [|done].
    injection Hc as <-. simpl in Hl. lia. }
  destruct s as [|b2 s].
  - exfalso. change ([b1] ++ t) with (b1 :: t) in Hc. destruct t as [|b2 t]; [done|].
    rewrite crlf_from_cons in Hc. case_match; [injection Hc as <-; simpl in Hl; lia|].
    rewrite crlf_from_shift in Hc. destruct (crlf_from (b2 :: t) 0); [|done].
    injection Hc as <-. simpl in Hl. lia.
  - change ((b1 :: b2 :: s) ++ t) with (b1 :: b2 :: (s ++ t)) in Hc. rewrite crlf_from_cons in *.
    case_match; [done|]. apply IH; [done|simpl in *; lia].
Qed.

Lemma read_line_shrink buf t start line pos :
  read_line (buf ++ t) start = Some (line, pos) → (pos <= length buf)%nat →
  read_line buf start = Some (line, pos).
Proof.
  intros Hr Hp. pose proof Hr as Hs. apply read_line_spec in Hs as [Hb _]. revert Hr. unfold read_line.
  rewrite drop_app_le by lia.
  destruct (crlf_from (drop start buf ++ t) start) as [i|] eqn:Hi; [|done]. intros [= <- <-].
  rewrite (crlf_from_shrink _ _ _ _ Hi) by (rewrite length_drop; lia). by rewrite slice_app_l by lia.
Qed.

Lemma bulk_at_shrink buf t pos a len next :
  bulk_at (buf ++ t) pos = Complete (a, len, next) → (next <= length buf)%nat →
  bulk_at buf pos = Complete (a, len, next).
Proof.
  intros Hb Hn. pose proof (bulk_at_spec _ _ _ _ _ Hb) as (Ha & Hnx & _). revert Hb. unfold bulk_at.
  rewrite lookup_app_l by lia. destruct (buf !! pos) as [b|]; [|done]. case_match; [done|].
  destruct (read_line (buf ++ t) (pos + 1)) as [[line after]|] eqn:Hl; [|done].
  destruct (parse_int line) as [| |z] eqn:Hz; cbn [pbind]; [done..|].
  destruct (z <? 0) eqn:H0; [done|]. destruct (MAX_BULK_LEN <? z) eqn:H1; [done|]. cbv zeta.
  destruct (Nat.ltb_spec (length (buf ++ t)) (after + Z.to_nat z + 2)); [done|].
  case_match eqn:Hc; [done|]. intros [= <- <- Hnext].
  rewrite (read_line_shrink _ _ _ _ _ Hl) by lia. rewrite Hz. cbn [pbind]. rewrite H0, H1.
  destruct (Nat.ltb_spec (length buf) (after + Z.to_nat z + 2)); [lia|].
  rewrite slice_app_l in Hc by lia. rewrite Hc. by rewrite Hnext.
Qed.

Lemma array_loop_shrink n buf t pos argv argv' pos' :
  array_loop n (buf ++ t) pos argv = Complete (argv', pos') → (pos' <= length buf)%nat →
  array_loop n buf pos argv = Complete (argv', pos').
Proof.
  revert pos argv. induction n as [|n IH]; intros pos argv; [done|]. cbn [array_loop].
  destruct (bulk_at (buf ++ t) pos) as [| |[[a len] next]] eqn:Hb; [done..|]. cbn [pbind]. intros Hr Hp.
  pose proof (bulk_at_spec _ _ _ _ _ Hb) as (Ha & Hnx & Hle).
  pose proof (array_loop_pos _ _ _ _ _ _ Hr Hle) as Hpos.
  rewrite (bulk_at_shrink _ _ _ _ _ _ Hb) by lia. cbn [pbind]. rewrite slice_app_l in Hr by lia. by apply IH.
Qed.

Lemma parse_array_shrink buf t argv n :
  parse_array_command (buf ++ t) = Complete (argv, n) → (n <= length buf)%nat →
  parse_array_command buf = Complete (argv, n).
Proof.
  unfold parse_array_command. destruct (read_line (buf ++ t) 1) as [[line pos]|] eqn:Hl; [|done].
  pose proof (read_line_spec _ _ _ _ Hl) as [Hpos _].
  destruct (parse_int line) as [| |z] eqn:Hz; cbn [pbind]; [done..|].
  destruct (z <? 0) eqn:H0.
  { intros [= <- <-] Hn. rewrite (read_line_shrink _ _ _ _ _ Hl) by lia. rewrite Hz. cbn [pbind]. by rewrite H0. }
  destruct (MAX_ARRAY_LEN <? z) eqn:H1; [done|]. intros Hr Hn.
  pose proof (array_loop_pos _ _ _ _ _ _ Hr ltac:(lia)).
  rewrite (read_line_shrink _ _ _ _ _ Hl) by lia. rewrite Hz. cbn [pbind]. rewrite H0, H1.
  by eapply array_loop_shrink.
Qed.

End locality.

(** ** The limits *)

Section limits.
Implicit Types (buf line s : bytes) (pos n : nat) (argv : list bytes).

Lemma bulk_at_fits buf pos a len next :
  bulk_at buf pos = Complete (a, len, next) → bulk_fits (slice buf a (a + len)).
Proof.
  unfold bulk_at. destruct (buf !! pos); [|done]. case_match; [done|].
  destruct (read_line buf (pos + 1)) as [[line after]|]; [|done].
  destruct (parse_int line) as [| |z]; cbn [pbind]; [done..|].
  destruct (Z.ltb_spec z 0); [done|]. destruct (Z.ltb_spec MAX_BULK_LEN z); [done|]. cbv zeta.
  case_match; [done|]. case_match; [done|]. intros [= <- <- _]. unfold bulk_fits, slice.
  rewrite length_take. lia.
Qed.

Lemma array_loop_fits n buf pos acc argv pos' :
  array_loop n buf pos acc = Complete (argv, pos') → Forall bulk_fits acc →
  Forall bulk_fits argv ∧ length argv = (length acc + n)%nat.
Proof.
  revert pos acc. induction n as [|n IH]; intros pos acc; cbn [array_loop].
  { intros [= <- _] Ha. split; [done|lia]. }
  destruct (bulk_at buf pos) as [| |[[a len] next]] eqn:Hb; [done..|]. cbn [pbind]. intros Hr Hacc.
  apply IH in Hr as [Hf Hl].
  - split; [done|]. rewrite Hl, length_app. simpl. lia.
  - apply Forall_app. split; [done|]. constructor; [|done]. by eapply bulk_at_fits.
Qed.

Lemma split_ws_bounds s :
  (length (split_ws s) <= S (length s))%nat ∧ Forall (fun w => (length w <= length s)%nat) (split_ws s).
Proof.
  induction s as [|b s [IHn IHw]]; simpl; [split; [lia|by repeat constructor]|].
  assert (Forall (fun w => (length w <= S (length s))%nat) (split_ws s)) as Hw
    by (eapply Forall_impl; [exact IHw|]; simpl; lia).
  case_match; simpl.
  - split; [lia|]. constructor; [simpl; lia|done].
  - destruct (split_ws s) as [|w ws] eqn:Hs; [by apply split_ws_nonempty in Hs|].
    apply Forall_cons in IHw as [Hw0 _]. apply Forall_cons in Hw as [_ Hws]. simpl in *.
    split; [lia|]. constructor; [simpl; lia|done].
Qed.

(** The longest inline command: a buffer that is too long is refused before
    another chunk arrives. *)
Definition CHUNK_MAX : Z := 64 * 1024.
Definition INLINE_MAX : Z := 2 * CHUNK_MAX.

Definition inline_short buf : Prop := head buf ≠ Some x2a → zlen buf <= INLINE_MAX.

Lemma inline_waiting buf : parse_inline_command buf = Incomplete → zlen buf <= CHUNK_MAX.
Proof.
  unfold parse_inline_command. destruct (read_line buf 0) as [[]|]; [done|].
  destruct (_ <? length buf)%nat eqn:Hl; [done|]. intros _. apply Nat.ltb_ge, Nat2Z.inj_le in Hl.
  rewrite Nat2Z.inj_mul in Hl. exact Hl.
Qed.

Lemma parse_command_fits buf argv n :
  parse_command buf = Complete (argv, n) → inline_short buf → command_fits argv.
Proof.
  unfold parse_command. destruct buf as [|b buf]; [done|]. case_bool_decide as Hb.
  - intros Hp _. revert Hp. unfold parse_array_command.
    destruct (read_line _ 1) as [[line pos]|]; [|done].
    destruct (parse_int line) as [| |z]; cbn [pbind]; [done..|].
    destruct (Z.ltb_spec z 0); [intros [= <- _]; split; [done|constructor]|].
    destruct (Z.ltb_spec MAX_ARRAY_LEN z); [done|]. intros [Hf Hl]%array_loop_fits; [|constructor].
    split; [|done]. rewrite Hl. simpl. lia.
  - intros Hp Hsh. specialize (Hsh ltac:(simpl; congruence)). revert Hp. unfold parse_inline_command.
    destruct (read_line (b :: buf) 0) as [[line pos]|] eqn:Hl; [|by case_match]. intros [= <- _].
    apply read_line_spec in Hl as [Hpos ->].
    assert (zlen (slice (b :: buf) 0 (pos - 2)) <= INLINE_MAX) as Hlen.
    { unfold zlen, slice in *. rewrite length_take, length_drop. lia. }
    destruct (split_ws_bounds (slice (b :: buf) 0 (pos - 2))) as [Hn Hw].
    unfold INLINE_MAX, CHUNK_MAX, zlen in Hlen. split.
    + pose proof (length_filter (fun w => w ≠ []) (split_ws (slice (b :: buf) 0 (pos - 2)))).
      unfold MAX_ARRAY_LEN. lia.
    + apply Forall_forall. intros w Hin. apply list_elem_of_filter in Hin as [_ Hin].
      eapply Forall_forall in Hw; [|exact Hin]. unfold bulk_fits, MAX_BULK_LEN. simpl in Hw. lia.
Qed.

(** After a command the buffer is what is left of the last chunk. *)
Lemma inline_short_next buf chunk argv n :
  parse_command buf = Incomplete → zlen chunk <= CHUNK_MAX →
  parse_command (buf ++ chunk) = Complete (argv, n) → zlen (drop n (buf ++ chunk)) <= INLINE_MAX.
Proof.
  intros Hinc Hch Hp. unfold INLINE_MAX, zlen in *. rewrite length_drop, length_app.
  destruct buf as [|b buf]; [unfold CHUNK_MAX in *; simpl; lia|]. revert Hinc Hp. cbn [parse_command app].
  change (b :: buf ++ chunk) with ((b :: buf) ++ chunk). case_bool_decide as Hb.
  - intros Hinc Hp. destruct (le_lt_dec n (length (b :: buf))) as [Hle|Hlt].
    + rewrite (parse_array_shrink _ _ _ _ Hp Hle) in Hinc. done.
    + unfold CHUNK_MAX in *. lia.
  - intros Hinc%inline_waiting _. unfold zlen in Hinc. lia.
Qed.

Lemma inline_short_chunk buf chunk :
  parse_command buf = Incomplete → zlen chunk <= CHUNK_MAX → inline_short (buf ++ chunk).
Proof.
  intros Hinc Hch Hhd. unfold INLINE_MAX, zlen in *. rewrite length_app.
  destruct buf as [|b buf]; [unfold CHUNK_MAX in *; simpl; lia|].
  revert Hinc. cbn [parse_command]. rewrite bool_decide_eq_false_2 by (simpl in Hhd; congruence).
  intros Hinc%inline_waiting. unfold zlen in Hinc. lia.
Qed.

End limits.

(** ** Input in chunks *)

Section chunks.
Context {HO : HashOrder} {FT : FloatText}.
Implicit Types (sv : Server) (st : ConnState) (c : Conn) (rest chunk out : bytes).

(** Every command that can be cut out of the buffer is within the limits. *)
Definition bounded rest : Prop :=
  inline_short rest ∧
  ∀ argv n, parse_command rest = Complete (argv, n) → zlen (drop n rest) <= INLINE_MAX.

Lemma bounded_small rest : zlen rest <= INLINE_MAX → bounded rest.
Proof.
  intros Hr. split; [by intros _|]. intros argv n _. unfold zlen in *. rewrite length_drop. lia.
Qed.

Lemma bounded_chunk buf chunk :
  parse_command buf = Incomplete → zlen chunk <= CHUNK_MAX → bounded (buf ++ chunk).
Proof. intros Hi Hc. split; [by apply inline_short_chunk|]. intros argv n. by apply inline_short_next. Qed.

(** What every command within the limits keeps, any input keeps; and what stays
    in the buffer is an unfinished command. *)
Lemma serve_rest_bounded (P : Server → ConnState → Prop) fuel raw sv st rest out :
  (∀ sv st argv out, sendable argv → P sv st →
     let '(sv', st', _, _) := handle_command raw sv st argv out in P sv' st') →
  bounded rest → (length rest < fuel)%nat → P sv st →
  let '(sv', st', rest', _, fl) := serve_rest fuel raw sv st rest out in
  P sv' st' ∧ (fl = Next → parse_command rest' = Incomplete).
Proof.
  intros Hstep. revert sv st rest out. induction fuel as [|fuel IH]; intros sv st rest out Hb Hf HP; [lia|].
  cbn [serve_rest]. destruct (parse_command rest) as [e| |[argv n]] eqn:Hp; [done..|].
  destruct Hb as [Hsh Hnext]. specialize (Hnext argv n Hp).
  pose proof (parse_command_bounds _ _ _ Hp) as Hn.
  assert (length (drop n rest) < fuel)%nat as Hlen by (rewrite length_drop; lia).
  apply bounded_small in Hnext.
  destruct argv as [|a argv]; [by apply IH|].
  assert (sendable (a :: argv)) as Hs by (split; [done|by eapply parse_command_fits]).
  specialize (Hstep sv st (a :: argv) out Hs HP).
  destruct (handle_command raw sv st (a :: argv) out) as [[[sv1 st1] out1] []]; [by apply IH|by split..].
Qed.

Definition waiting c : Prop := flow c = Next → parse_command (inbuf c) = Incomplete.

Lemma receive_bounded (P : Server → ConnState → Prop) raw sv c chunk :
  (∀ sv st argv out, sendable argv → P sv st →
     let '(sv', st', _, _) := handle_command raw sv st argv out in P sv' st') →
  waiting c → zlen chunk <= CHUNK_MAX → P sv (cstate c) →
  let '(sv', c') := receive raw sv c chunk in P sv' (cstate c') ∧ waiting c'.
Proof.
  intros Hstep Hw Hch HP. destruct (flow c) eqn:Hfl; cycle 1.
  1-3: (unfold receive; rewrite Hfl; by split).
  rewrite receive_rest by done.
  pose proof (serve_rest_bounded P (S (length (inbuf c ++ chunk))) raw sv (cstate c) (inbuf c ++ chunk) []
    Hstep (bounded_chunk _ _ (Hw Hfl) Hch) ltac:(lia) HP) as Hs.
  by destruct (serve_rest _ raw sv (cstate c) _ []) as [[[[sv' st'] rest'] o] fl].
Qed.

End chunks.
