(* ===== verification/System.v ===== *)
(** * The running server ([crates/server/src/server.rs], lines 82 to 146, and the
    accept loops of [conn.rs] and [runtime_uring.rs])

    The accept loop numbers the connections, every connection is served by a
    thread or a task of its own, and the reaper and, on a replica, the thread
    that follows the primary run beside them.  The whole is a transition system:
    an event is what the operating system reports next, and the events of
    different threads come in any order. *)
From S2P Require Import Prelude Std Map Eviction Value Shard Spec ShardOk Store StoreOk StoreProps.
From S2P Require Import Resp RespOk Reply RespProps Dump Config Commands CommandsOk Persistence Conn ConnOk ConnProps.
From S2P Require Import Uring Replica View Durable Input.
Local Open Scope Z_scope.

(** ** Events *)

(** The portable server with a thread per connection, or io_uring executors. *)
Inductive Runtime := Portable | IoUring.

(** What [listener.incoming()] or [accept().await] gives, and what becomes of
    it: no thread could be spawned, or the connection is handled; [wrapped] says
    whether the TLS session could be set up and [cloned] whether the socket
    could be cloned for a replica. *)
Inductive Incoming :=
  | AcceptError
  | NoThread
  | Handled (wrapped cloned : bool).

(** What a [read] gives. *)
Inductive Input := Data (chunk : bytes) | Eof | ReadError.

(** What happens to the connection of a replica to its primary. *)
Inductive Link := Connected | Fed (i : Input).

Inductive Event := Incomes (i : Incoming) | Reads (id : Z) (i : Input) | Reaps | Follows (l : Link).

(** The thread of a replica: it is to connect, waits for the reply to [AUTH], or
    applies the stream, with what is left of its buffer. *)
Inductive Follower := Unconnected | AuthReply | Following (buf : bytes) (st : ConnState).

Record System := mkSystem {
  server : Server;
  runtime : Runtime;
  tls_on : bool;
  (* the accept loops that are running *)
  listening : nat;
  (* [conn_ids] or [CONN_IDS] *)
  next_id : Z;
  (* the connections by their number, with the socket to feed a replica on *)
  conns : gmap Z (Conn * bool);
  follower : Follower
}.

Definition set_server (s : System) (sv : Server) : System :=
  mkSystem sv (runtime s) (tls_on s) (listening s) (next_id s) (conns s) (follower s).
Definition set_conns (s : System) (m : gmap Z (Conn * bool)) : System :=
  mkSystem (server s) (runtime s) (tls_on s) (listening s) (next_id s) m (follower s).
Definition set_listening (s : System) (n : nat) : System :=
  mkSystem (server s) (runtime s) (tls_on s) n (next_id s) (conns s) (follower s).
Definition set_follower (s : System) (f : Follower) : System :=
  mkSystem (server s) (runtime s) (tls_on s) (listening s) (next_id s) (conns s) f.

(** [fetch_add(1)] on an [AtomicU64] *)
Definition fetch_id (s : System) : Z * System :=
  (next_id s,
   mkSystem (server s) (runtime s) (tls_on s) (listening s) (wrap_u64 (next_id s + 1)) (conns s)
     (follower s)).

Section system.
Context {HO : HashOrder} {FT : FloatText}.

(** [conn::handle] up to its loop: the connection, and whether a replica can be
    fed on it; nothing when the TLS session cannot be set up. *)
Definition handle (tls : bool) (sv : Server) (id : Z) (wrapped cloned : bool) : option (Conn * bool) :=
  if tls then (if wrapped then Some (accept sv id, false) else None)
  else Some (accept sv id, cloned).

(** One turn of the loop of [Server::run]: an error is reported and the loop
    goes on; a number is used up even when no thread can be spawned. *)
Definition run_turn (s : System) (i : Incoming) : System :=
  match i with
  | AcceptError => s
  | NoThread => (fetch_id s).2
  | Handled wrapped cloned =>
      let '(id, s) := fetch_id s in
      match handle (tls_on s) (server s) id wrapped cloned with
      | Some c => set_conns s (<[id := c]> (conns s))
      | None => s
      end
  end.

(** One turn of [accept_loop] of an executor: an error, of binding the listener
    or of accepting, ends its loop. *)
Definition accept_turn (s : System) (i : Incoming) : System :=
  match i with
  | AcceptError => set_listening s (pred (listening s))
  | _ =>
      let '(id, s) := fetch_id s in
      set_conns s (<[id := (accept (server s) id, false)]> (conns s))
  end.

(** The loop of a connection returns. *)
Definition hang_up (c : Conn) : Conn := mkConnection (cstate c) (inbuf c) (sent c) Closed.

(** A [read] of the connection [id].  After [SYNC] the connection is in
    [passive_replica], which drops what arrives; a connection that was closed
    reads no more. *)
Definition read_turn (s : System) (id : Z) (i : Input) : System :=
  match conns s !! id with
  | None => s
  | Some (c, raw) =>
      match i with
      | Eof | ReadError => set_conns s (<[id := (hang_up c, raw)]> (conns s))
      | Data chunk =>
          let '(sv, c) :=
            match runtime s with
            | Portable => receive raw (server s) c chunk
            | IoUring => uring_receive (server s) c chunk
            end in
          set_conns (set_server s sv) (<[id := (c, raw)]> (conns s))
      end
  end.

(** [Server::start_replication]: whether there is a thread that follows a primary. *)
Definition start_replication (sv : Server) : bool := read_only sv.

(** A turn of that thread: it connects, drops the reply to [AUTH], and applies
    what it reads; when the connection ends it starts over. *)
Definition follow_turn (s : System) (l : Link) : System :=
  if negb (start_replication (server s)) then s
  else
    match follower s, l with
    | Unconnected, Connected =>
        set_follower s (match masterauth (config (server s)) with
                        | Some _ => AuthReply
                        | None => Following [] internal
                        end)
    | AuthReply, Fed (Data _ | Eof) => set_follower s (Following [] internal)
    | Following buf st, Fed (Data chunk) =>
        let buf := buf ++ chunk in
        let '(w, (st, cursor, sound)) :=
          apply_loop (S (length buf)) (config (server s)) buf 0 st (world (server s)) in
        set_follower (set_server s (set_world (server s) w))
          (if (sound : bool) then Following (drop cursor buf) st else Unconnected)
    | AuthReply, Fed ReadError => set_follower s Unconnected
    | Following _ _, Fed (Eof | ReadError) => set_follower s Unconnected
    | _, _ => s
    end.

Definition step (s : System) (e : Event) : System :=
  match e with
  | Incomes i =>
      if (listening s =? 0)%nat then s
      else match runtime s with Portable => run_turn s i | IoUring => accept_turn s i end
  | Reads id i => read_turn s id i
  | Reaps => set_server s (reaper_turn (server s))
  | Follows l => follow_turn s l
  end.

Definition run (s : System) (es : list Event) : System := foldl step s es.

(** [Server::run], or [runtime_uring::serve] with that many executors, on a
    server that has just been built. *)
Definition serve (rt : Runtime) (tls : bool) (executors : nat) (sv : Server) : System :=
  mkSystem sv rt tls (match rt with Portable => 1%nat | IoUring => executors end) 1 ∅ Unconnected.

(** A chunk is what fits the buffer of [READ_CHUNK] bytes. *)
Definition chunked (e : Event) : Prop :=
  match e with Reads _ (Data chunk) => zlen chunk <= CHUNK_MAX | _ => True end.

(** ** What every step keeps *)

(** Under io_uring a command does to the server and to the state of the
    connection what it does on a socket that cannot feed a replica. *)
Lemma uring_command_server sv st argv out :
  uring_command sv st argv out = handle_command false sv st argv out ∨
  ((uring_command sv st argv out).1.1 = (sv, st) ∧ (uring_command sv st argv out).2 = Quit ∧
   (handle_command false sv st argv out).1.1 = (sv, st) ∧ (handle_command false sv st argv out).2 = Closed).
Proof. unfold uring_command, handle_command. destruct (bool_decide _ || _); [by right|by left]. Qed.

Lemma uring_loop_server fuel sv st buf cursor out :
  let '(sv1, st1, cur1, _, fl1) := uring_loop fuel sv st buf cursor out in
  let '(sv2, st2, cur2, _, fl2) := input_loop fuel false sv st buf cursor out in
  sv1 = sv2 ∧ st1 = st2 ∧ cur1 = cur2 ∧ (fl1 = Next → fl2 = Next).
Proof.
  revert sv st cursor out. induction fuel as [|fuel IH]; intros sv st cursor out; [done|].
  cbn [uring_loop input_loop].
  destruct (Resp.parse_command_ranges (drop cursor buf) []) as [ranges [e| |consumed]]; [done..|].
  destruct ranges as [|r ranges]; [apply IH|]. set (argv := (fun '(o, l) => _) <$> r :: ranges).
  destruct (uring_command_server sv st argv out) as [->|(H1 & H2 & H3 & H4)].
  - destruct (handle_command false sv st argv out) as [[[sv1 st1] out1] []]; [apply IH|done..].
  - destruct (uring_command sv st argv out) as [[[sv1 st1] out1] fl1].
    destruct (handle_command false sv st argv out) as [[[sv2 st2] out2] fl2]. simpl in *.
    simplify_eq. done.
Qed.

Lemma uring_receive_server sv c chunk :
  let '(sv1, c1) := uring_receive sv c chunk in
  let '(sv2, c2) := receive false sv c chunk in
  sv1 = sv2 ∧ cstate c1 = cstate c2 ∧ inbuf c1 = inbuf c2 ∧ (flow c1 = Next → flow c2 = Next).
Proof.
  unfold uring_receive, receive. destruct (flow c) eqn:Hfl; [|by rewrite ?Hfl..].
  pose proof (uring_loop_server (S (length (inbuf c ++ chunk))) sv (cstate c) (inbuf c ++ chunk) 0 []) as Hl.
  destruct (uring_loop _ _ _ _ _ _) as [[[[sv1 st1] cur1] out1] fl1].
  destruct (input_loop _ _ _ _ _ _ _) as [[[[sv2 st2] cur2] out2] fl2].
  by destruct Hl as (-> & -> & -> & Hfl').
Qed.

(** The connections the system serves, with what is waiting in their buffers. *)
Definition all_waiting (s : System) : Prop := ∀ id c raw, conns s !! id = Some (c, raw) → waiting c.

(** What every command keeps, the stream of commands keeps. *)
Lemma apply_loop_inv (P : World → Prop) fuel cfg buf cursor st w :
  (∀ argv st w, P w → P (dispatch argv st cfg w).1) →
  P w → P (apply_loop fuel cfg buf cursor st w).1.
Proof.
  intros Hd. revert cursor st w. induction fuel as [|fuel IH]; intros cursor st w Hw; [done|].
  cbn [apply_loop]. destruct (Resp.parse_command _) as [e| |[argv n]]; [done..|].
  destruct argv as [|a argv]; [by apply IH|]. unfold mbind, M_bind.
  pose proof (Hd (a :: argv) st w Hw) as Hw1. destruct (dispatch (a :: argv) st cfg w) as [w1 [st1 o]].
  by apply IH.
Qed.

(** The data changes by the stream only when the server is a replica. *)
Lemma follow_turn_server s l :
  server (follow_turn s l) = server s ∨
  (read_only (server s) = true ∧ ∃ fuel buf st,
     server (follow_turn s l) =
     set_world (server s) (apply_loop fuel (config (server s)) buf 0 st (world (server s))).1).
Proof.
  unfold follow_turn, start_replication. destruct (read_only (server s)) eqn:Hro; [|by left]. cbn [negb].
  destruct (follower s) as [| |buf st], l as [|[chunk| |]]; try by left.
  right. split; [done|]. exists (S (length (buf ++ chunk))), (buf ++ chunk), st.
  by destruct (apply_loop _ _ _ _ _ _) as [w [[st' cursor] sound]].
Qed.

Lemma follow_turn_conns s l : conns (follow_turn s l) = conns s ∧ next_id (follow_turn s l) = next_id s.
Proof.
  unfold follow_turn, start_replication. destruct (negb _); [done|].
  destruct (follower s) as [| |buf st], l as [|[chunk| |]]; try done.
  by destruct (apply_loop _ _ _ _ _ _) as [w [[st' cursor] sound]].
Qed.

(** A thread that follows a primary applies what [sync_once] applies. *)
Lemma follow_sync_once s chunks :
  read_only (server s) = true → follower s = Unconnected → Forall (fun c => c ≠ []) chunks →
  world (server (run s (Follows <$> Connected :: (Fed ∘ Data <$> chunks)))) =
  (sync_once (config (server s)) chunks (world (server s))).1.
Proof.
  intros Hro Hun Hne. cbn [fmap list_fmap run foldl step]. unfold follow_turn, start_replication. rewrite Hro, Hun. cbn [negb].
  assert (∀ chunks s buf st, read_only (server s) = true → follower s = Following buf st →
    Forall (fun c => c ≠ []) chunks →
    world (server (foldl step s (Follows <$> (Fed ∘ Data <$> chunks)))) =
    (stream_loop (config (server s)) chunks buf st (world (server s))).1) as Hstream.
  { clear. intros chunks s buf st Hro Hf Hne. revert s buf st Hro Hf.
    induction Hne as [|c chunks Hc Hne IH]; intros s buf st Hro Hf; [done|].
    cbn [fmap list_fmap foldl step stream_loop compose]. destruct c as [|b c]; [done|].
    unfold follow_turn, start_replication. rewrite Hro, Hf. cbn [negb]. unfold mbind, M_bind.
    destruct (apply_loop _ _ _ _ _ _) as [w [[st' cursor] []]].
    - rewrite (IH _ (drop cursor (buf ++ b :: c)) st'); done.
    - clear. set (s' := set_follower _ _).
      assert (follower s' = Unconnected) as Hs' by done. assert (world (server s') = w) as Hw by done.
      clearbody s'. simpl. induction chunks as [|d chunks IH]; [done|].
      cbn [fmap list_fmap foldl step compose]. unfold follow_turn, start_replication. rewrite Hs'.
      by destruct (negb _). }
  unfold sync_once. destruct (masterauth (config (server s))) as [pw|].
  - destruct Hne as [|c chunks Hc Hne]; [done|]. cbn [fmap list_fmap foldl step compose drop].
    unfold follow_turn, start_replication. cbn [read_only server set_follower follower]. rewrite Hro. cbn [negb].
    by rewrite (Hstream chunks _ [] internal).
  - by rewrite (Hstream chunks _ [] internal).
Qed.

(** A property of the server that every command within the limits, every turn of
    the reaper and every command of a primary keep is kept by every step of the
    system.  [Q] is what is known of the state of the connections. *)
Lemma step_inv (P : Server → Prop) (Q : ConnState → Prop) s e :
  (∀ raw sv st argv out, sendable argv → P sv → Q st →
     let '(sv', st', _, _) := handle_command raw sv st argv out in P sv' ∧ Q st') →
  (∀ sv, P sv → P (reaper_turn sv)) →
  (∀ sv argv st, read_only sv = true → P sv →
     P (set_world sv (dispatch argv st (config sv) (world sv)).1)) →
  (∀ sv id, P sv → Q (cstate (accept sv id))) →
  chunked e → all_waiting s → P (server s) → (∀ id c raw, conns s !! id = Some (c, raw) → Q (cstate c)) →
  P (server (step s e)) ∧ all_waiting (step s e) ∧
  (∀ id c raw, conns (step s e) !! id = Some (c, raw) → Q (cstate c)).
Proof.
  intros Hcmd Hreap Hfeed Hacc Hch Hw HP HQ.
  assert (∀ (m : gmap Z (Conn * bool)) id c raw (R : Conn → Prop),
    (∀ i c' r, m !! i = Some (c', r) → R c') → R c →
    ∀ i c' r, <[id := (c, raw)]> m !! i = Some (c', r) → R c') as Hins.
  { intros m id c raw R Hm Hc i c' r [[_ [= <- <-]]|[_ Hi]]%lookup_insert_Some; [done|by eapply Hm]. }
  destruct e as [i|id i| |l]; cbn [step].
  - destruct (listening s =? 0)%nat; [by split_and!|].
    assert (∀ id raw, P (server s) ∧ (∀ i c r, <[id := (accept (server s) id, raw)]> (conns s) !! i = Some (c, r) → waiting c) ∧
      (∀ i c r, <[id := (accept (server s) id, raw)]> (conns s) !! i = Some (c, r) → Q (cstate c))) as Hnew.
    { intros id raw. split_and!; [done|by apply (Hins (conns s) _ _ _ waiting)|].
      by apply (Hins (conns s) _ _ _ (fun c => Q (cstate c))); [|apply Hacc]. }
    destruct (runtime s).
    + destruct i as [| |wrapped cloned]; cbn [run_turn fetch_id snd]; [by split_and!..|].
      unfold handle. destruct (tls_on s), wrapped; cbn [tls_on server set_conns conns]; try apply Hnew.
      by split_and!.
    + destruct i as [| |wrapped cloned]; cbn [accept_turn fetch_id]; [by split_and!|apply Hnew..].
  - unfold read_turn. destruct (conns s !! id) as [[c raw]|] eqn:Hc; [|by split_and!].
    assert (waiting (hang_up c)) as Hup by done.
    destruct i as [chunk| |].
    + cbn [chunked] in Hch. pose proof (Hw _ _ _ Hc) as Hwc. pose proof (HQ _ _ _ Hc) as HQc.
      assert (∀ raw', let '(sv', c') := receive raw' (server s) c chunk in
                      (P sv' ∧ Q (cstate c')) ∧ waiting c') as Hrec.
      { intros raw'. apply (receive_bounded (fun sv st => P sv ∧ Q st)); [|done..].
        intros sv st argv out Hs [HPsv HQst]. by apply Hcmd. }
      assert (let '(sv', c') := match runtime s with
                                | Portable => receive raw (server s) c chunk
                                | IoUring => uring_receive (server s) c chunk end in
              (P sv' ∧ Q (cstate c')) ∧ waiting c') as Hturn.
      { destruct (runtime s); [apply Hrec|]. specialize (Hrec false).
        pose proof (uring_receive_server (server s) c chunk) as Hu.
        destruct (uring_receive (server s) c chunk) as [sv1 c1], (receive false (server s) c chunk) as [sv2 c2].
        destruct Hu as (-> & -> & Hin & Hfl). destruct Hrec as [HPQ Hw2]. split; [done|].
        intros H1. rewrite Hin. by apply Hw2, Hfl. }
      destruct (match runtime s with Portable => _ | IoUring => _ end) as [sv' c'].
      destruct Hturn as [[HP' HQ'] Hw']. split_and!; [done|exact (Hins (conns s) _ _ _ waiting Hw Hw')|].
      by apply (Hins (conns s) _ _ _ (fun c => Q (cstate c))).
    + split_and!; [done|exact (Hins (conns s) _ _ _ waiting Hw Hup)|]. apply (Hins (conns s) _ _ _ (fun c => Q (cstate c))); [done|].
      by eapply (HQ _ c).
    + split_and!; [done|exact (Hins (conns s) _ _ _ waiting Hw Hup)|]. apply (Hins (conns s) _ _ _ (fun c => Q (cstate c))); [done|].
      by eapply (HQ _ c).
  - split_and!; [by apply Hreap|done..].
  - destruct (follow_turn_conns s l) as [Hc _]. unfold all_waiting. rewrite Hc. split_and!; [|done..].
    destruct (follow_turn_server s l) as [->|(Hro & fuel & buf & st & ->)]; [done|].
    apply (apply_loop_inv (fun w => P (set_world (server s) w))); [|by destruct (server s)].
    intros argv st1 w HPw. by apply (Hfeed (set_world (server s) w) argv st1).
Qed.

Lemma run_inv (P : Server → Prop) (Q : ConnState → Prop) s es :
  (∀ raw sv st argv out, sendable argv → P sv → Q st →
     let '(sv', st', _, _) := handle_command raw sv st argv out in P sv' ∧ Q st') →
  (∀ sv, P sv → P (reaper_turn sv)) →
  (∀ sv argv st, read_only sv = true → P sv →
     P (set_world sv (dispatch argv st (config sv) (world sv)).1)) →
  (∀ sv id, P sv → Q (cstate (accept sv id))) →
  Forall chunked es → all_waiting s → P (server s) → (∀ id c raw, conns s !! id = Some (c, raw) → Q (cstate c)) →
  P (server (run s es)) ∧ all_waiting (run s es) ∧
  (∀ id c raw, conns (run s es) !! id = Some (c, raw) → Q (cstate c)).
Proof.
  intros Hcmd Hreap Hfeed Hacc Hes. revert s. induction Hes as [|e es He _ IH]; intros s Hw HP HQ; [by split_and!|].
  cbn [run foldl]. destruct (step_inv P Q s e Hcmd Hreap Hfeed Hacc He Hw HP HQ) as (HP' & Hw' & HQ').
  by apply IH.
Qed.

End system.
