(* ===== verification/SystemProps.v ===== *)
(** * Properties of the running server

    What holds of the whole server, with any number of clients that send any
    bytes in any order, the reaper and the thread of a replica beside them. *)
From S2P Require Import Prelude Std Map Eviction Value Shard Spec ShardOk Store StoreOk StoreProps.
From S2P Require Import Resp RespOk Reply RespProps Dump Config Commands CommandsOk Persistence Conn ConnOk ConnProps.
From S2P Require Import Uring Replica View Durable Input System.
Local Open Scope Z_scope.

Section system.
Context {HO : HashOrder} {FT : FloatText}.
Implicit Types (w : World) (sv : Server) (st : ConnState) (s : System) (es : list Event).

(** ** A server as it starts *)

Lemma replay_loop_reach mm fuel cfg data cursor st applied w :
  0 <= mm → reach mm (store w) → reach mm (store (replay_loop fuel cfg data cursor st applied w).1).
Proof.
  intros Hmm. revert cursor st applied w. induction fuel as [|fuel IH]; intros cursor st applied w Hr; [done|].
  cbn [replay_loop]. destruct (_ <? _)%nat; [|done].
  destruct (Resp.parse_command _) as [e| |[argv n]]; [done..|].
  destruct argv as [|a argv]; [by apply IH|]. unfold mbind, M_bind.
  pose proof (dispatch_quiet mm Hmm (a :: argv) st cfg w Hr) as Hq.
  destruct (dispatch (a :: argv) st cfg w) as [w1 [st1 o]]. destruct Hq as (Hr1 & _). by apply IH.
Qed.

(** Whatever is on the disk, a server starts with a store it could have built. *)
Lemma bootstrap_reach router cfg aof_on_disk snap_on_disk faults links w :
  0 <= maxmemory cfg →
  reach (maxmemory cfg) (store (world (bootstrap router cfg aof_on_disk snap_on_disk faults links w))).
Proof.
  intros Hmm. unfold bootstrap, load_aof, load_snapshot. set (w1 := set_store w _).
  assert (reach (maxmemory cfg) (store w1)) as Hr by apply reach_new.
  assert (∀ file, reach (maxmemory cfg) (store (replay_file cfg file w1).1)) as Hrep.
  { intros [data|]; [|done]. unfold replay_file. by apply replay_loop_reach. }
  destruct (appendonly cfg && _).
  { specialize (Hrep aof_on_disk). by destruct (replay_file cfg aof_on_disk w1). }
  destruct (bool_decide _); [|done].
  specialize (Hrep snap_on_disk). by destruct (replay_file cfg snap_on_disk w1).
Qed.

Lemma reaper_turn_reach mm sv : reach mm (store (world sv)) → reach mm (store (world (reaper_turn sv))).
Proof.
  intros Hr. unfold reaper_turn, call.
  pose proof (reach_purge_expired mm (clock (world sv) (tick (world sv))) (store (world sv)) Hr) as H.
  by destruct (Store.purge_expired _ _).
Qed.

Lemma dispatch_reach mm sv argv st :
  0 <= mm → reach mm (store (world sv)) →
  reach mm (store (world (set_world sv (dispatch argv st (config sv) (world sv)).1))).
Proof.
  intros Hmm Hr. pose proof (dispatch_quiet mm Hmm argv st (config sv) (world sv) Hr) as Hq.
  destruct (dispatch argv st (config sv) (world sv)) as [w [st' o]]. by destruct Hq as (? & _).
Qed.

(** Every event keeps the store within what its operations build. *)
Lemma run_reach mm s es :
  0 <= mm → Forall chunked es → all_waiting s → reach mm (store (world (server s))) →
  reach mm (store (world (server (run s es)))).
Proof.
  intros Hmm Hes Hw Hr.
  destruct (run_inv (fun sv => reach mm (store (world sv))) (fun _ => True) s es) as (H & _); try done.
  - intros raw sv1 st1 argv out _ Hr1 _. pose proof (handle_command_ok mm Hmm raw sv1 st1 argv out Hr1) as Hok.
    destruct (handle_command raw sv1 st1 argv out) as [[[sv' st'] out'] fl]. by destruct Hok as (? & _).
  - intros sv1. apply reaper_turn_reach.
  - intros sv1 argv st _. by apply dispatch_reach.
Qed.

(** ** The numbers of the connections *)

(** A command changes the state of its connection by [HELLO], [AUTH] or
    [CLIENT] only. *)
Definition arm_state (a : Arm) : Prop :=
  ∀ nm argv st cfg w,
    let st' := (body a nm argv st cfg w).2.1 in
    st' = st ∨ st' = (hello argv st).1 ∨ st' = (auth argv st cfg).1 ∨ st' = (client_cmd argv st).1.

Lemma state_kept {A : Type} ps g (m : bytes → list bytes → ConnState → Config → M A)
    (f : bytes → list bytes → ConnState → Config → A → Outcome) :
  arm_state (mkArm ps g (fun nm argv st cfg => o ← m nm argv st cfg; mret (st, f nm argv st cfg o))).
Proof. intros nm argv st cfg w. left. unfold body. by rewrite bind_keeps. Qed.

Lemma state_cmd ps g f : arm_state (mkArm ps g (cmd f)).
Proof. intros nm argv st cfg w. left. unfold body, cmd. by rewrite (bind_keeps _ (fun o => o)). Qed.

Lemma state_pure ps g (f : list bytes → ConnState → Config → Outcome) :
  arm_state (mkArm ps g (pure_cmd (fun argv st cfg => (st, f argv st cfg)))).
Proof. intros nm argv st cfg w. by left. Qed.

Lemma introspection_state : Forall arm_state introspection_arms.
Proof.
  unfold introspection_arms. repeat apply Forall_cons_2; [..|constructor].
  - apply state_pure.
  - apply state_pure.
  - intros nm argv st cfg w. right. left. reflexivity.
  - apply state_pure.
  - apply state_pure.
  - intros nm argv st cfg w. right. right. left. reflexivity.
  - apply (state_pure _ _ (fun argv _ _ => command_meta argv)).
  - apply (state_pure _ _ (fun argv _ cfg => config_cmd argv cfg)).
  - intros nm argv st cfg w. right. right. right. reflexivity.
  - intros nm argv st cfg w. left. reflexivity.
  - intros nm argv st cfg w. left. reflexivity.
  - intros nm argv st cfg w. left. reflexivity.
Qed.

Lemma arms_state a : a ∈ arms → arm_state a.
Proof.
  revert a. apply Forall_forall. unfold arms. apply Forall_app; split; [apply introspection_state|].
  unfold string_arms, collection_arms, keyspace_arms.
  repeat first [apply Forall_nil_2|apply Forall_cons_2];
    first [apply state_cmd
          |intros nm argv st cfg w; left; unfold body; by rewrite (bind_keeps _ (fun o => o))].
Qed.

Lemma hello_id argv st : conn_id (hello argv st).1 = conn_id st.
Proof.
  unfold hello. destruct (2 <=? length argv)%nat; [|done].
  destruct (parse_i64_bytes _) as [[|[[]|[]|]|]|]; try done.
Qed.

Lemma client_id argv st : conn_id (client_cmd argv st).1 = conn_id st.
Proof.
  unfold client_cmd. destruct (length argv <? 2)%nat; [done|]. cbv zeta.
  destruct (bool_decide _ && _); [done|]. do 3 (destruct (bool_decide _); [done|]). done.
Qed.

Lemma auth_id argv st cfg : conn_id (auth argv st cfg).1 = conn_id st.
Proof.
  unfold auth. destruct (if (length argv =? 2)%nat then _ else _); [|done].
  destruct (requirepass cfg); [|done]. by case_bool_decide.
Qed.

Lemma dispatch_id argv st cfg w : conn_id (dispatch argv st cfg w).2.1 = conn_id st.
Proof.
  unfold dispatch. destruct (find _ arms) as [a|] eqn:Hf; [|done].
  apply find_some in Hf as [Ha%list_elem_of_In%arms_state _].
  destruct (Ha (upper (argv !!! 0%nat)) argv st cfg w) as [-> |[-> |[-> | ->]]];
    [done|apply hello_id|apply auth_id|apply client_id].
Qed.

Lemma handle_command_id raw sv st argv out :
  conn_id (handle_command raw sv st argv out).1.1.2 = conn_id st.
Proof.
  unfold handle_command. destruct (bool_decide _ || _); [by destruct raw|].
  destruct (negb _ && _); [done|]. destruct (read_only sv && _); [done|].
  assert (conn_id (execute (world sv) (config sv) st argv out).1.1.1.2 = conn_id st) as He.
  { unfold execute. destruct (serve_fast st argv out) as [m|]; [by destruct (m (world sv)) as [? [? ?]]|].
    pose proof (dispatch_id argv st (config sv) (world sv)) as Hd.
    by destruct (dispatch argv st (config sv) (world sv)) as [? [? ?]]. }
  destruct (execute _ _ _ _ _) as [[[[w' st'] out'] q] b]. by destruct (if b && _ then _ else _) as [[? ?] ?].
Qed.

Lemma receive_id raw sv c chunk : conn_id (cstate (receive raw sv c chunk).2) = conn_id (cstate c).
Proof.
  pose proof (receive_all_inv (fun _ st => conn_id st = conn_id (cstate c)) raw sv c [chunk]) as Hi.
  cbn [receive_all foldl] in Hi. destruct (receive raw sv c chunk) as [sv' c']. apply Hi; [|done].
  intros sv1 st argv out Hst. pose proof (handle_command_id raw sv1 st argv out) as Hh.
  destruct (handle_command raw sv1 st argv out) as [[[? ?] ?] ?]. cbn [fst snd] in Hh. congruence.
Qed.

(** Every connection knows its own number, and the counter is ahead of all. *)
Definition numbered s : Prop :=
  0 < next_id s ∧
  ∀ id c raw, conns s !! id = Some (c, raw) → conn_id (cstate c) = id ∧ 0 < id < next_id s.

Lemma numbered_new s c raw :
  numbered s → next_id s + 1 < 2 ^ 64 → conn_id (cstate c) = next_id s →
  numbered (set_conns (fetch_id s).2 (<[next_id s := (c, raw)]> (conns s))).
Proof.
  intros [Hpos Hn] Hb Hc. unfold fetch_id, wrap_u64, u64_modulus. cbn [snd].
  assert ((next_id s + 1) `mod` 2 ^ 64 = next_id s + 1) as Hw by (apply Z.mod_small; lia).
  split; cbn [next_id conns set_conns]; rewrite Hw; [lia|].
  intros id c' r [[<- [= <- <-]]|[_ Hi]]%lookup_insert_Some; [lia|].
  destruct (Hn id c' r Hi). lia.
Qed.

Lemma numbered_skip s : numbered s → next_id s + 1 < 2 ^ 64 → numbered (fetch_id s).2.
Proof.
  intros [Hpos Hn] Hb. unfold fetch_id, wrap_u64, u64_modulus. cbn [snd].
  assert ((next_id s + 1) `mod` 2 ^ 64 = next_id s + 1) as Hw by (apply Z.mod_small; lia).
  split; cbn [next_id conns]; rewrite Hw; [lia|]. intros id c r Hi. destruct (Hn id c r Hi). lia.
Qed.

Lemma numbered_update s sv id c c' raw :
  numbered s → conns s !! id = Some (c, raw) → conn_id (cstate c') = conn_id (cstate c) →
  numbered (set_conns (set_server s sv) (<[id := (c', raw)]> (conns s))).
Proof.
  intros [Hpos Hn] Hc Hid. split; [done|]. cbn [conns set_conns next_id set_server].
  intros i x r [[<- [= <- <-]]|[_ Hi]]%lookup_insert_Some.
  - rewrite Hid. by eapply Hn.
  - by eapply Hn.
Qed.

Lemma next_id_step s e :
  0 < next_id s → next_id s + 1 < 2 ^ 64 → next_id s <= next_id (step s e) <= next_id s + 1.
Proof.
  intros Hpos Hb.
  assert (wrap_u64 (next_id s + 1) = next_id s + 1) as Hw by (unfold wrap_u64, u64_modulus; apply Z.mod_small; lia).
  destruct e as [i|id i| |l]; cbn [step]; [|unfold read_turn|simpl; lia|].
  - destruct (_ =? 0)%nat; [lia|]. destruct (runtime s), i as [| |a b];
      cbn [run_turn accept_turn fetch_id next_id snd set_conns set_listening]; rewrite ?Hw; try lia.
    destruct (handle _ _ _ a b); cbn [next_id set_conns]; lia.
  - destruct (conns s !! id) as [[c raw]|]; [|lia]. destruct i; [|simpl; lia..].
    destruct (match runtime s with Portable => _ | IoUring => _ end). simpl. lia.
  - destruct (follow_turn_conns s l) as [_ ->]. lia.
Qed.

Lemma numbered_step s e : numbered s → next_id s + 1 < 2 ^ 64 → numbered (step s e).
Proof.
  intros Hn Hb. destruct e as [i|id i| |l]; cbn [step].
  - destruct (_ =? 0)%nat; [done|]. destruct (runtime s), i as [| |a b]; cbn [run_turn accept_turn].
    + done.
    + by apply numbered_skip.
    + cbn [fetch_id]. unfold handle. cbn [tls_on server].
      destruct (tls_on s), a; first [by apply (numbered_new s)|by apply (numbered_skip s)].
    + done.
    + by apply (numbered_new s).
    + by apply (numbered_new s).
  - unfold read_turn. destruct (conns s !! id) as [[c raw]|] eqn:Hc; [|done].
    destruct i as [chunk| |]; [|by apply (numbered_update s (server s) id c)..].
    assert (conn_id (cstate (match runtime s with
                             | Portable => receive raw (server s) c chunk
                             | IoUring => uring_receive (server s) c chunk end).2) = conn_id (cstate c)) as Hid.
    { destruct (runtime s); [apply receive_id|]. pose proof (uring_receive_server (server s) c chunk) as Hu.
      pose proof (receive_id false (server s) c chunk) as Hr.
      destruct (uring_receive (server s) c chunk) as [sv1 c1], (receive false (server s) c chunk) as [sv2 c2].
      destruct Hu as (_ & Hst & _). cbn [snd] in *. by rewrite Hst. }
    destruct (match runtime s with Portable => _ | IoUring => _ end) as [sv' c'].
    by apply (numbered_update s sv' id c).
  - by destruct Hn.
  - unfold numbered. by destruct (follow_turn_conns s l) as [-> ->].
Qed.

Lemma numbered_run s es :
  numbered s → next_id s + zlen es < 2 ^ 64 →
  numbered (run s es) ∧ next_id (run s es) <= next_id s + zlen es.
Proof.
  revert s. induction es as [|e es IH]; intros s Hn Hb; [unfold zlen; simpl; split; [done|lia]|].
  unfold zlen in *. cbn [length] in *. rewrite Nat2Z.inj_succ in *. cbn [run foldl].
  pose proof (next_id_step s e ltac:(apply Hn) ltac:(lia)).
  destruct (IH (step s e)) as [Hr Hl]; [apply numbered_step; [done|lia]|lia|]. split; [exact Hr|].
  change (foldl step (step s e) es) with (run (step s e) es). lia.
Qed.

(** C9: what holds of the whole server at any time.  Whatever was on the disk,
    whatever any number of clients and, on a replica, the primary send, in any
    order and in any pieces, under either runtime: every value in the store is well-formed, the accounting is
    exact and within the memory limit, and every connection has a number of its
    own, less than the counter. *)
Theorem system_invariant rt tls n router cfg aof_on_disk snap_on_disk faults links w es :
  0 <= maxmemory cfg → Forall chunked es → zlen es < 2 ^ 63 →
  let s := run (serve rt tls n (bootstrap router cfg aof_on_disk snap_on_disk faults links w)) es in
  let st := store (world (server s)) in
  Db.values_ok ⟦st⟧ ∧ total_bytes st = Db.cost ⟦st⟧ ∧ (maxmemory cfg ≠ 0 → total_bytes st <= maxmemory cfg) ∧
  ∀ id c raw, conns s !! id = Some (c, raw) → conn_id (cstate c) = id ∧ 0 < id < next_id s.
Proof.
  intros Hmm Hes Hlen s st. set (sv := bootstrap _ _ _ _ _ _ _) in s.
  pose proof (run_reach (maxmemory cfg) (serve rt tls n sv) es Hmm Hes ltac:(done)
    (bootstrap_reach router cfg aof_on_disk snap_on_disk faults links w Hmm)) as Hr.
  pose proof (reach_ok _ _ Hmm Hr) as [Hwf Hb]. fold s in Hwf, Hb. fold st in Hwf, Hb.
  split_and!; [by apply store_values_ok|by apply total_bytes_cost| |].
  - intros Hne. apply total_bytes_bound; [lia|done|]. rewrite Hb. by destruct (Z.eqb_spec (maxmemory cfg) 0).
  - destruct (numbered_run (serve rt tls n sv) es) as [[_ Hn] _]; [|cbn [serve next_id]; lia|exact Hn].
    split; [cbn [serve next_id]; lia|]. intros id c raw. cbn [serve conns]. by rewrite lookup_empty.
Qed.

(** ** The gate of authentication, for the whole server *)

Lemma reaper_expires mm sv :
  0 <= mm → reach mm (store (world sv)) →
  expires_only (clock (world sv)) ⟦store (world sv)⟧ ⟦store (world (reaper_turn sv))⟧.
Proof.
  intros Hmm [Hwf _]%reach_ok; [|done]. unfold reaper_turn, call. cbn [world set_world].
  pose proof (purge_expired_store_ok (clock (world sv) (tick (world sv))) (store (world sv)) Hwf) as Hp.
  destruct (Store.purge_expired _ _) as [st' n]. destruct Hp as (_ & _ & Ha & _).
  cbn [fst store set_store]. rewrite Ha. split; [apply map_filter_subseteq|].
  intros k e Hk Hn. exists (tick (world sv)). apply map_lookup_filter_None in Hn as [Hn|Hn]; [congruence|].
  specialize (Hn e Hk). simpl in Hn. by destruct (Shard.unexpired _ e).
Qed.

Lemma receive_keeps_auth raw sv c chunk :
  authenticated (cstate c) = true → authenticated (cstate (receive raw sv c chunk).2) = true.
Proof.
  intros Hc. pose proof (receive_all_inv (fun _ st => authenticated st = true) raw sv c [chunk]) as Hi.
  cbn [receive_all foldl] in Hi. destruct (receive raw sv c chunk) as [sv' c']. apply Hi; [|done].
  intros sv1 st argv out Hst. pose proof (handle_command_keeps_auth raw sv1 st argv out Hst) as Hh.
  by destruct (handle_command raw sv1 st argv out) as [[[? ?] ?] ?].
Qed.

Lemma receive_auth raw sv c chunk pw :
  requirepass (config sv) = Some pw →
  let '(sv', c') := receive raw sv c chunk in
  authenticated (cstate c') = false → store (world sv') = store (world sv) ∧ aof sv' = aof sv.
Proof.
  intros Hpw.
  pose proof (receive_all_inv (fun sv' st' => authenticated st' = true ∨
    (store (world sv') = store (world sv) ∧ aof sv' = aof sv ∧ config sv' = config sv)) raw sv c [chunk]) as Hinv.
  cbn [receive_all foldl] in Hinv. destruct (receive raw sv c chunk) as [sv' c']. intros Hc'.
  destruct Hinv as [Ht|(? & ? & _)]; [|by right|congruence|done].
  clear sv' c' Hc'. intros sv1 st argv out HP. destruct (authenticated st) eqn:Hst.
  - pose proof (handle_command_keeps_auth raw sv1 st argv out Hst) as Hk.
    destruct (handle_command raw sv1 st argv out) as [[[sv2 st2] out2] fl2]. by left.
  - destruct HP as [|(Hs & Ha & Hc)]; [done|].
    pose proof (handle_command_auth raw sv1 st argv out pw Hst ltac:(congruence)) as Hk.
    destruct (handle_command raw sv1 st argv out) as [[[sv2 st2] out2] fl2].
    destruct Hk as (? & ? & ? & _). right. split_and!; congruence.
Qed.

(** A turn of either runtime on a connection. *)
Lemma turn_cases s c raw chunk :
  ∃ raw', let '(sv1, c1) := match runtime s with
                            | Portable => receive raw (server s) c chunk
                            | IoUring => uring_receive (server s) c chunk end in
    sv1 = (receive raw' (server s) c chunk).1 ∧ cstate c1 = cstate (receive raw' (server s) c chunk).2.
Proof.
  destruct (runtime s); [exists raw|exists false].
  - by destruct (receive raw (server s) c chunk).
  - pose proof (uring_receive_server (server s) c chunk) as Hu.
    destruct (uring_receive (server s) c chunk) as [sv1 c1], (receive false (server s) c chunk) as [sv2 c2].
    by destruct Hu as (? & ? & _).
Qed.

Definition none_authenticated s : Prop :=
  ∀ id c raw, conns s !! id = Some (c, raw) → authenticated (cstate c) = false.

Lemma none_authenticated_before s e :
  numbered s → none_authenticated (step s e) → none_authenticated s.
Proof.
  intros [_ Hn] Hafter id c raw Hc. destruct (authenticated (cstate c)) eqn:Hauth; [exfalso|done].
  assert (∀ c' raw', conns (step s e) !! id = Some (c', raw') → authenticated (cstate c') = true → False) as Hno.
  { intros c' raw' Hc' Ha. by rewrite (Hafter _ _ _ Hc') in Ha. }
  assert (id ≠ next_id s) as Hne by (destruct (Hn _ _ _ Hc); lia).
  destruct e as [i|id' i| |l]; cbn [step] in Hno.
  - destruct (_ =? 0)%nat; [by eapply Hno|].
    destruct (runtime s), i as [| |a b]; cbn [run_turn accept_turn fetch_id snd] in Hno;
      try (by eapply Hno); try (destruct (handle _ _ _ a b); [|by eapply Hno]);
      (eapply Hno; [cbn [conns set_conns]; rewrite lookup_insert_ne by done; exact Hc|done]).
  - unfold read_turn in Hno. destruct (conns s !! id') as [[c1 raw1]|] eqn:Hc1; [|by eapply Hno].
    destruct (decide (id = id')) as [<-|Hd]; cycle 1.
    { destruct i; [|by eapply Hno; [cbn [conns set_conns]; rewrite lookup_insert_ne by done; exact Hc|]..].
      destruct (match runtime s with Portable => _ | IoUring => _ end) as [sv2 c2].
      by eapply Hno; [cbn [conns set_conns]; rewrite lookup_insert_ne by done; exact Hc|]. }
    assert (c1 = c ∧ raw1 = raw) as [-> ->] by (by rewrite Hc in Hc1; simplify_eq).
    destruct i as [chunk| |]; [|by eapply Hno; [apply lookup_insert_eq|]..].
    destruct (turn_cases s c raw chunk) as [raw' Ht].
    pose proof (receive_keeps_auth raw' (server s) c chunk Hauth) as Hk.
    destruct (match runtime s with Portable => _ | IoUring => _ end) as [sv2 c2].
    destruct Ht as [_ Ht]. eapply Hno; [apply lookup_insert_eq|]. by rewrite Ht.
  - by eapply Hno.
  - destruct (follow_turn_conns s l) as [Hcs _]. eapply Hno; [rewrite Hcs; exact Hc|done].
Qed.

Lemma step_auth mm s e pw :
  0 <= mm → reach mm (store (world (server s))) → requirepass (config (server s)) = Some pw →
  read_only (server s) = false → none_authenticated (step s e) →
  expires_only (clock (world (server s))) ⟦store (world (server s))⟧ ⟦store (world (server (step s e)))⟧ ∧
  aof (server (step s e)) = aof (server s).
Proof.
  intros Hmm Hr Hpw Hro Hafter. destruct e as [i|id i| |l]; cbn [step] in *.
  - assert (server (if (listening s =? 0)%nat then s
                    else match runtime s with Portable => run_turn s i | IoUring => accept_turn s i end) =
            server s) as ->; [|split; [apply expires_only_refl|done]].
    destruct (_ =? 0)%nat; [done|]. destruct (runtime s), i as [| |a b]; try done.
    cbn [run_turn fetch_id]. by destruct (handle _ _ _ a b).
  - unfold read_turn in *. destruct (conns s !! id) as [[c raw]|]; [|split; [apply expires_only_refl|done]].
    destruct i as [chunk| |]; [|split; [apply expires_only_refl|done]..].
    destruct (turn_cases s c raw chunk) as [raw' Ht].
    pose proof (receive_auth raw' (server s) c chunk pw Hpw) as Hra.
    destruct (match runtime s with Portable => _ | IoUring => _ end) as [sv2 c2].
    destruct (receive raw' (server s) c chunk) as [sv3 c3]. destruct Ht as [-> Ht]. cbn [fst snd] in *.
    specialize (Hafter id c2 raw (lookup_insert_eq _ _ _)). rewrite Ht in Hafter.
    destruct (Hra Hafter) as [Hs Ha]. cbn [server set_conns set_server]. rewrite Hs.
    split; [apply expires_only_refl|done].
  - split; [by apply (reaper_expires mm)|done].
  - destruct (follow_turn_server s l) as [->|(Hro' & _)]; [split; [apply expires_only_refl|done]|congruence].
Qed.

(** C11: clients without the password change nothing, however many there are.
    As long as no connection of the server is authenticated, whatever all of
    them sent, the data is that of the start, expired entries apart, and the
    append-only file is the same.  (A replica takes the data of its primary.) *)
Theorem system_auth_gate mm rt tls n sv pw es :
  0 <= mm → reach mm (store (world sv)) → requirepass (config sv) = Some pw →
  read_only sv = false → Forall chunked es → zlen es < 2 ^ 63 →
  let s := run (serve rt tls n sv) es in
  (∀ id c raw, conns s !! id = Some (c, raw) → authenticated (cstate c) = false) →
  expires_only (clock (world sv)) ⟦store (world sv)⟧ ⟦store (world (server s))⟧ ∧ aof (server s) = aof sv.
Proof.
  intros Hmm Hr Hpw Hro. assert (numbered (serve rt tls n sv)) as Hn0.
  { split; [cbn [serve next_id]; lia|]. intros id c raw. cbn [serve conns]. by rewrite lookup_empty. }
  induction es as [|e es IH] using rev_ind; intros Hes Hlen s Hnone.
  { split; [apply expires_only_refl|done]. }
  apply Forall_app in Hes as [Hes _]. unfold zlen in *. rewrite length_app in Hlen. simpl in Hlen.
  assert (s = step (run (serve rt tls n sv) es) e) as Hstep by (unfold s, run; by rewrite foldl_app).
  set (s1 := run (serve rt tls n sv) es) in *. rewrite Hstep in Hnone |- *.
  destruct (numbered_run (serve rt tls n sv) es Hn0) as [Hn1 _]; [unfold zlen; cbn [serve next_id]; lia|].
  destruct (IH Hes ltac:(lia) (none_authenticated_before s1 e Hn1 Hnone)) as [He1 Ha1].
  destruct (run_inv (fun sv' => reach mm (store (world sv')) ∧ config sv' = config sv ∧
    clock (world sv') = clock (world sv) ∧ read_only sv' = false) (fun _ => True) (serve rt tls n sv) es)
    as ((Hr1 & Hc1 & Hk1 & Hro1) & _); [| | |done..|].
  { intros raw sv1 st1 argv out _ (Hr1 & Hc1 & Hk1 & Hro1) _.
    pose proof (handle_command_ok mm Hmm raw sv1 st1 argv out Hr1) as Hok.
    destruct (handle_command raw sv1 st1 argv out) as [[[sv' st'] out'] fl].
    destruct Hok as (? & ? & ? & ? & _). split_and!; [done|congruence..|done]. }
  { intros sv1 (Hr1 & Hc1 & Hk1 & Hro1). split_and!; [by apply reaper_turn_reach|done| |done].
    unfold reaper_turn, call. by destruct (Store.purge_expired _ _). }
  { intros sv1 argv st Hro' (_ & _ & _ & Hro1). congruence. }
  destruct (step_auth mm s1 e pw Hmm Hr1 ltac:(fold s1 in Hc1; congruence) Hro1 Hnone) as [He2 Ha2].
  split; [|congruence]. eapply expires_only_trans; [exact He1|]. fold s1 in Hk1. by rewrite <- Hk1.
Qed.

(** ** Expired entries are reaped *)

(** The system after [n] events of an endless run. *)
Definition after (s : System) (ev : nat → Event) (n : nat) : System := run s (ev <$> seq 0 n).

Lemma after_S s ev n : after s ev (S n) = step (after s ev n) (ev n).
Proof. unfold after, run. by rewrite seq_S, fmap_app, foldl_app. Qed.

(** C19: expired data does not stay in memory.  In every endless run in which the
    reaper turns again and again while time passes, for every time [t] and from
    every point on, a state is reached whose store holds no entry that had
    expired by [t], although no client ever asks for these entries. *)
Theorem expired_entries_reaped mm rt tls n sv ev :
  0 <= mm → reach mm (store (world sv)) → (∀ i, chunked (ev i)) →
  (∀ t i, ∃ j, (i <= j)%nat ∧ ev j = Reaps ∧
     let w := world (server (after (serve rt tls n sv) ev j)) in t <= clock w (tick w)) →
  ∀ t i, ∃ j, (i <= j)%nat ∧
    ∀ k e x, ⟦store (world (server (after (serve rt tls n sv) ev j)))⟧ !! k = Some e →
             expire_at e = Some x → t < x.
Proof.
  intros Hmm Hr Hch Hfair t i. destruct (Hfair t i) as (j & Hij & Hev & Ht). exists (S j). split; [lia|].
  rewrite after_S, Hev. cbn [step server set_server].
  pose proof (run_reach mm (serve rt tls n sv) (ev <$> seq 0 j) Hmm
    ltac:(by apply Forall_fmap, Forall_true) ltac:(done) Hr) as Hrj.
  fold (after (serve rt tls n sv) ev j) in Hrj. set (sj := server (after _ ev j)) in *.
  pose proof (reach_ok mm _ Hmm Hrj) as [Hwf _].
  pose proof (purge_expired_store_ok (clock (world sj) (tick (world sj))) (store (world sj)) Hwf) as Hp.
  unfold reaper_turn, call. destruct (Store.purge_expired _ _) as [st' r]. destruct Hp as (_ & _ & Ha & _).
  cbn [fst world set_world store set_store]. rewrite Ha. intros k e x Hk Hx.
  apply map_lookup_filter_Some in Hk as [_ Hu]. simpl in Hu. unfold Shard.unexpired in Hu. rewrite Hx in Hu.
  cbv zeta in Ht. destruct (Z.leb_spec x (clock (world sj) (tick (world sj)))); [done|]. lia.
Qed.

(** ** The whole server takes the steps of its commands *)

Lemma handle_command_read_only raw sv st argv out :
  read_only (handle_command raw sv st argv out).1.1.1 = read_only sv.
Proof.
  unfold handle_command. destruct (bool_decide _ || _).
  { destruct raw; [|done]. unfold add_replica_with_snapshot. by destruct (link_down _ _ _). }
  destruct (negb _ && _); [done|]. destruct (read_only sv && _); [done|].
  destruct (execute _ _ _ _ _) as [[[[w' st'] out'] q] b]. destruct (b && _); [|done].
  unfold log_write. destruct (aof _) as [file|]; [destruct (aof_append file _ argv) as [file' [e|]]|];
    by destruct (has_replicas _).
Qed.

(** Whatever bytes arrive, what happens to a server that is not a replica is a
    history of commands within the limits of the protocol and of turns of the
    reaper. *)
Lemma system_steps rt tls n sv es :
  read_only sv = false → Forall chunked es → rtc server_step sv (server (run (serve rt tls n sv) es)).
Proof.
  intros Hro Hes.
  destruct (run_inv (fun sv' => rtc server_step sv sv' ∧ read_only sv' = false) (fun _ => True)
    (serve rt tls n sv) es) as [[Hr _] _]; [| | |done..].
  - intros raw sv1 st1 argv out Hs [Hrtc Hro1] _.
    pose proof (step_command raw sv1 st1 argv out Hs) as Hstep.
    pose proof (handle_command_read_only raw sv1 st1 argv out) as Hh.
    destruct (handle_command raw sv1 st1 argv out) as [[[sv' st'] out'] fl].
    split; [|done]. split; [eapply rtc_r; [exact Hrtc|exact Hstep]|]. cbn [fst] in Hh. congruence.
  - intros sv1 [Hrtc Hro1]. split; [|done]. eapply rtc_r; [exact Hrtc|apply step_reaper].
  - intros sv1 argv st Hro' [_ Hro1]. congruence.
Qed.

End system.

(** ** Witnesses *)

#[local] Existing Instance canonical_order.
#[local] Existing Instance demo_float_text.

Definition small_config (pw : option bytes) : Config :=
  mkConfig (lit "127.0.0.1") 6380 2 300 true pw None None None None
    (lit ".") (lit "inmem.aof") (lit "inmem.snapshot").

Definition demo_events (input : string) : list Event :=
  [Incomes (Handled true true); Incomes NoThread; Incomes (Handled true true);
   Reads 3 (Data (lit input ++ Resp.CRLF)); Reaps; Reads 1 Eof].

Lemma demo_chunked : Forall chunked (demo_events "SET kk 1").
Proof. unfold demo_events. repeat constructor. cbn [chunked]. vm_compute. discriminate. Qed.

Lemma system_invariant_witness :
  let s := run (serve Portable false 1 (bootstrap FlatMap.length_hasher (small_config None) None None
                  (fun _ => None) (fun _ _ => false) demo_world)) (demo_events "SET kk 1") in
  ⟦store (world (server s))⟧ !! lit "kk" = Some (mkEntry (VStr (lit "1")) None) ∧
  total_bytes (store (world (server s))) <= 300 ∧
  ∃ c raw, conns s !! 3 = Some (c, raw) ∧ conn_id (cstate c) = 3.
Proof.
  destruct (system_invariant Portable false 1 FlatMap.length_hasher (small_config None) None None
    (fun _ => None) (fun _ _ => false) demo_world (demo_events "SET kk 1") ltac:(by compute)
    demo_chunked ltac:(by compute)) as (_ & _ & Hmem & Hids).
  split; [vm_compute; reflexivity|]. split; [apply Hmem; discriminate|].
  destruct (conns _ !! 3) as [[c raw]|] eqn:Hc; [|apply (f_equal is_Some) in Hc].
  - exists c, raw. split; [done|]. by destruct (Hids 3 c raw Hc).
  - exfalso. assert (is_Some (None : option (Conn * bool))) as [? [=]]. rewrite <- Hc. vm_compute. eauto.
Defined.

Lemma system_auth_gate_witness :
  let s := run (serve IoUring false 4 (demo_server (Some (lit "pw")) false)) (demo_events "SET kk 1") in
  ⟦store (world (server s))⟧ ⊆ ⟦store demo_world⟧ ∧ aof (server s) = Some (aof_open []).
Proof.
  destruct (system_auth_gate 0 IoUring false 4 (demo_server (Some (lit "pw")) false) (lit "pw")
    (demo_events "SET kk 1") ltac:(lia) demo_world_reach eq_refl eq_refl demo_chunked
    ltac:(by compute)) as [[He _] Ha].
  - intros id c raw Hc.
    assert (map_Forall (fun _ (p : Conn * bool) => authenticated (cstate p.1) = false)
      (conns (run (serve IoUring false 4 (demo_server (Some (lit "pw")) false)) (demo_events "SET kk 1"))))
      as Hall by (refine (bool_decide_unpack _ _); vm_compute; exact I).
    exact (Hall id (c, raw) Hc).
  - split; [exact He|exact Ha].
Defined.

(** A clock that advances by 100 at every reading, and only the reaper runs. *)
Definition ticking_server : Server :=
  mkServer (mkWorld (Store.exec 5 (demo_store 0) (OSet (lit "k") (lit "1") (mkSetOptions false false false (Some 550)))).1
              0 (fun i => 100 * Z.of_nat i) (fun _ => demo_seeds) (fun _ => None) None)
    (demo_config None) None (fun _ => None) [] (fun _ _ => false) false.

Lemma ticking_world j :
  let w := world (server (after (serve Portable false 1 ticking_server) (fun _ => Reaps) j)) in
  tick w = j ∧ clock w = (fun i => 100 * Z.of_nat i).
Proof.
  induction j as [|j [Ht Hc]]; [done|]. rewrite after_S. cbn [step server set_server].
  set (sj := server (after _ _ j)) in *. unfold reaper_turn, call.
  destruct (Store.purge_expired _ _) as [st' r]. cbn [fst world set_world tick clock set_store].
  by rewrite Ht.
Qed.

Lemma expired_entries_reaped_witness :
  ⟦store (world ticking_server)⟧ !! lit "k" = Some (mkEntry (VStr (lit "1")) (Some 550)) ∧
  ∃ j, ⟦store (world (server (after (serve Portable false 1 ticking_server) (fun _ => Reaps) j)))⟧ !! lit "k"
       ≠ Some (mkEntry (VStr (lit "1")) (Some 550)).
Proof.
  split; [vm_compute; reflexivity|].
  destruct (expired_entries_reaped 0 Portable false 1 ticking_server (fun _ => Reaps) ltac:(lia)
    (reach_exec 0 5 _ (OSet (lit "k") (lit "1") (mkSetOptions false false false (Some 550))) (reach_new 0 _ _ _) I)
    ltac:(done)) with (t := 600) (i := O) as (j & _ & Hj).
  - intros t i. exists (i + Z.to_nat t)%nat. split; [lia|]. split; [done|]. cbv zeta.
    destruct (ticking_world (i + Z.to_nat t)) as [-> ->]. lia.
  - exists j. intros Hk. specialize (Hj _ _ 550 Hk eq_refl). lia.
Defined.
