(* ===== verification/Replay.v ===== *)
(** * Histories and their replay under any clocks

    A server serves commands and keeps a log; later the log is replayed on an
    empty store, at other times.  Whatever relation between the two worlds is kept
    by the expiry of entries on the one side, and by each logged write on both,
    holds between the stopped server and the restarted one. *)
From S2P Require Import Prelude Std Map Eviction Value Shard Spec ShardOk Store StoreOk StoreProps.
From S2P Require Import Resp RespOk Reply RespProps Dump Config Commands CommandsOk Persistence Conn ConnOk ConnProps.
From S2P Require Import Effects Uring Replica View Durable Snapshot Input System SystemProps.
Local Open Scope Z_scope.

Section replay.
Context {HO : HashOrder} {FT : FloatText}.
Implicit Types (w : World) (sv : Server) (argv : list bytes).

(** Any commands, as long as the writes satisfy [P], and the reaper. *)
Inductive history_step (P : list bytes → Prop) : Server → Server → Prop :=
  | history_command raw sv st argv out :
      sendable argv → (is_write_command (upper (argv !!! 0%nat)) = true → P argv) →
      history_step P sv (handle_command raw sv st argv out).1.1.1
  | history_reaper sv : history_step P sv (reaper_turn sv).

(** The effect of a command that is replayed, whatever the connection. *)
Definition effect_of argv (f : M Outcome) : Prop :=
  ∀ st cfg w, dispatch argv st cfg w = (let '(w', o) := f w in (w', (st, o))).

(** ** A relation between the server and the replay *)

Context (P : list bytes → Prop) (R : World → World → Prop).

Hypothesis R_expires : ∀ w w' w2,
  R w w2 → reach 0 (store w') → clock w' = clock w →
  expires_only (clock w) ⟦store w⟧ ⟦store w'⟧ → R w' w2.

Hypothesis R_writes : ∀ argv w w2 cfg st out,
  R w w2 → reach 0 (store w) → is_write_command (upper (argv !!! 0%nat)) = true → P argv →
  ∃ f, effect_of argv f ∧ R (execute w cfg st argv out).1.1.1.1 (f w2).1.

(** The records [more] lead from any world related to the one of [sv] to one
    related to the one of [sv']. *)
Definition rebuilt sv (more : list (list bytes)) sv' : Prop :=
  Forall sendable more ∧ reach 0 (store (world sv')) ∧ aof_fault sv' = aof_fault sv ∧
  (∀ cfg st w, R (world sv) w →
     R (world sv') (dispatch_all cfg st more w).1 ∧ (dispatch_all cfg st more w).2 = st) ∧
  ((∀ t, aof_fault sv t = None) → ∀ file, aof sv = Some (aof_open file) →
     aof sv' = Some (aof_open (file ++ encoded more))).

Lemma rebuilt_nothing sv sv' :
  reach 0 (store (world sv')) → clock (world sv') = clock (world sv) → aof_fault sv' = aof_fault sv →
  expires_only (clock (world sv)) ⟦store (world sv)⟧ ⟦store (world sv')⟧ → aof sv' = aof sv →
  rebuilt sv [] sv'.
Proof.
  intros Hr Hc Hf Hx Ha. split_and!; [done..| |].
  - intros cfg st w Hw. split; [|done]. by eapply R_expires.
  - intros _ file Hfile. by rewrite Ha, Hfile, app_nil_r.
Qed.

Lemma history_step_rebuilt sv sv' :
  reach 0 (store (world sv)) → history_step P sv sv' → ∃ more, rebuilt sv more sv'.
Proof.
  intros Hr Hstep. destruct Hstep as [raw sv st argv out Hsend HP|sv].
  - pose proof (handle_command_split raw sv st argv out Hr) as Hs.
    pose proof (handle_command_environment raw sv st argv out) as [Henv _].
    pose proof (handle_command_ok 0 ltac:(lia) raw sv st argv out Hr) as Hok.
    destruct (handle_command raw sv st argv out) as [[[sv' st'] out'] fl]. cbn [fst] in *.
    destruct Hok as (Hr' & Hc' & _). destruct Hs as [(Hx & Ha & _)|(Hw & Hworld & Hlog & _)].
    { exists []. by apply rebuilt_nothing. }
    exists [argv]. split_and!; [by constructor|done|done| |intros Hf file Hfile; by eapply log_outcome_file].
    intros cfg st0 w Hd. destruct (R_writes argv (world sv) w (config sv) st out Hd Hr Hw (HP Hw)) as (f & Heq & HR).
    rewrite <- Hworld in HR. cbn [dispatch_all]. unfold mbind, M_bind. rewrite Heq. by destruct (f w) as [w1 o1].
  - exists []. apply rebuilt_nothing; [by apply reaper_turn_reach| |done|by apply (reaper_expires 0); [lia|]|done].
    unfold reaper_turn, call. by destruct (Store.purge_expired _ _).
Qed.

Lemma history_rebuilt sv sv' :
  reach 0 (store (world sv)) → rtc (history_step P) sv sv' → ∃ more, rebuilt sv more sv'.
Proof.
  intros Hr Hrun. revert Hr. induction Hrun as [sv|sv1 sv2 sv3 Hstep _ IH]; intros Hr.
  { exists []. by apply rebuilt_nothing; [..|apply expires_only_refl|]. }
  destruct (history_step_rebuilt sv1 sv2 Hr Hstep) as (m1 & Hm1 & Hr2 & Hf2 & Hw1 & Ha1).
  destruct (IH Hr2) as (m2 & Hm2 & Hr3 & Hf3 & Hw2 & Ha2). exists (m1 ++ m2). split_and!.
  - by apply Forall_app.
  - done.
  - congruence.
  - intros cfg st w Hd. destruct (Hw1 cfg st w Hd) as [Hd1 Hst1]. rewrite dispatch_all_app.
    destruct (dispatch_all cfg st m1 w) as [w1 st1]. cbn [fst snd] in *. subst st1. by apply Hw2.
  - intros Hf file Hfile. rewrite encoded_app, app_assoc. apply Ha2; [by rewrite Hf2|by apply Ha1].
Qed.

(** A restart from the log, with the beginning of a torn record behind it. *)
Lemma history_recovered sv0 sv cfg router snap faults links w0 next n :
  reach 0 (store (world sv0)) → aof sv0 = Some (aof_open []) → (∀ t, aof_fault sv0 t = None) →
  rtc (history_step P) sv0 sv → appendonly cfg = true →
  R (world sv0)
    (set_store w0 (Store.new (entropy w0 (tick w0)) router (Z.to_nat (shards cfg)) (maxmemory cfg))) →
  command_fits next → (n < length (encode_command next []))%nat →
  ∃ file, aof sv = Some (aof_open file) ∧
    R (world sv)
      (world (bootstrap router cfg (Some (file ++ take n (encode_command next []))) snap faults links w0)).
Proof.
  intros Hr Ha0 Hf Hrun Hon HR Hfit Hn. rewrite encode_command_eq in *.
  destruct (history_rebuilt sv0 sv Hr Hrun) as (log & Hlog & _ & _ & Hw & Ha).
  exists (encoded log). split; [by apply (Ha Hf [])|].
  unfold bootstrap, load_aof, replay_file. set (w1 := set_store w0 _) in *. rewrite Hon. cbn [andb].
  rewrite bool_decide_eq_true_2 by done.
  pose proof (replay_loop_encoded cfg log (take n (Resp.write_cmd [] next)) [] internal 0
    (S (length (encoded log ++ take n (Resp.write_cmd [] next)))) w1 Hlog
    (parse_encoded_prefix next n Hfit Hn) ltac:(lia)) as Hrep.
  rewrite app_nil_l in Hrep. cbn [length] in Hrep. rewrite Hrep. cbn [world]. by apply Hw.
Qed.

End replay.
