(* ===== verification/Timeless.v ===== *)
(** * Recovery under a moving clock

    The times of a server and of its restart are different.  Data without a time
    to live does not care: whatever the clocks read, commands that give no key a
    time to live do the same on a store in which no key has one. *)
From S2P Require Import Prelude Std Map Eviction Value Shard Spec ShardOk Store StoreOk StoreProps.
From S2P Require Import Resp RespOk Reply RespProps Dump Config Commands CommandsOk Persistence Conn ConnOk ConnProps.
From S2P Require Import Effects Uring Replica View Durable Snapshot Input System SystemProps Replay.
Local Open Scope Z_scope.

(** ** Databases without times *)

Create HintDb lasting.

Section lasting.
Context {HO : HashOrder}.
Implicit Types (m : Db.t) (k : bytes) (t : Z).

Definition lasting m : Prop := ∀ k e, m !! k = Some e → expire_at e = None.

Lemma lasting_empty : lasting ∅.
Proof. intros k e. by rewrite lookup_empty. Qed.

Lemma lasting_delete m k : lasting m → lasting (delete k m).
Proof. intros Hm j e [_ Hj]%lookup_delete_Some. by eapply Hm. Qed.

Lemma lasting_insert m k v : lasting m → lasting (<[k := mkEntry v None]> m).
Proof. intros Hm j e [[_ <-]|[_ Hj]]%lookup_insert_Some; [done|by eapply Hm]. Qed.

Lemma lasting_find t m k : lasting m → Db.find t m k = m !! k.
Proof.
  intros Hm. apply option_eq. intros e. rewrite Db.find_Some. split; [by intros [? _]|]. intros Hk.
  split; [done|]. unfold Shard.unexpired. by rewrite (Hm k e Hk).
Qed.

Lemma lasting_purge t m k : lasting m → Db.purge t k m = m.
Proof.
  intros Hm. unfold Db.purge. rewrite lasting_find by done.
  destruct (m !! k) as [e|] eqn:Hk; [done|]. by apply delete_id.
Qed.

Hint Resolve lasting_delete lasting_insert : lasting.

Lemma lasting_update {C R : Type} `{Collection C} t m k (body : C → C * R) :
  lasting m → lasting (Db.update t m k body).1.
Proof.
  intros Hm. unfold Db.update. rewrite lasting_find by done.
  destruct (m !! k) as [e|] eqn:Hk; [rewrite (Hm k e Hk); destruct (as_variant _); [|done]|];
    destruct (body _) as [c' r]; simpl; case_match; auto with lasting.
Qed.

Lemma lasting_rewrite {R : Type} t m k empty (f : bytes → Result (bytes * R)) :
  lasting m → lasting (Db.rewrite_str t m k empty f).1.
Proof.
  intros Hm. unfold Db.rewrite_str. rewrite lasting_find, lasting_purge by done.
  destruct (m !! k) as [[[] x]|] eqn:Hk; simpl; [|done..|];
    destruct (f _) as [[v r]|]; simpl; try done;
    rewrite ?(Hm k _ Hk : x = None); auto with lasting.
Qed.

Lemma lasting_set t m k v o : lasting m → opt_expire_at o = None → lasting (Db.set t m k v o).1.
Proof.
  intros Hm Ho. unfold Db.set. rewrite lasting_find, lasting_purge by done.
  destruct (m !! k) as [e|] eqn:Hk; (case_match; [done|]); simpl; rewrite ?Ho, ?(Hm k e Hk);
    [destruct (keep_ttl o)|]; auto with lasting.
Qed.

(** An operation that gives no time to live does the same at all times. *)
Lemma exec_timeless t1 t2 m o :
  lasting m → op_timeless o → Db.exec t1 m o = Db.exec t2 m o ∧ lasting (Db.exec t1 m o).1.
Proof.
  intros Hm Ho. split.
  - destruct o; cbn [Db.exec];
      unfold Db.read, Db.update, Db.set, Db.incr_by, Db.append, Db.rewrite_str;
      rewrite ?(lasting_find t1), ?(lasting_find t2), ?(lasting_purge t1), ?(lasting_purge t2) by done;
      try done.
    destruct (m !! k) as [e|] eqn:Hk; [|done]. by rewrite (Hm k e Hk).
  - destruct o; cbn [Db.exec op_timeless] in *; unfold Db.read, Db.incr_by, Db.append;
      rewrite ?lasting_find, ?lasting_purge by done;
      try match goal with |- lasting (prod_map id ?C ?x).1 => change (lasting x.1) end;
      auto using lasting_update, lasting_rewrite, lasting_set with lasting.
    + simpl. auto with lasting.
    + rewrite Ho. case_match; simpl; auto with lasting.
Qed.

End lasting.

(** ** Programs that do not look at the clock *)

Section timeless.
Context {HO : HashOrder} {FT : FloatText}.
Implicit Types (w : World) (sv : Server) (argv : list bytes).

(** No memory limit, and no key with a time to live. *)
Definition everlasting w : Prop := reach 0 (store w) ∧ lasting ⟦store w⟧.

(** Nothing is said about the clocks. *)
Definition same_data w1 w2 : Prop :=
  everlasting w1 ∧ everlasting w2 ∧ ⟦store w1⟧ = ⟦store w2⟧.

Definition ageless {A : Type} (f : M A) : Prop :=
  ∀ w1 w2, same_data w1 w2 → same_data (f w1).1 (f w2).1 ∧ (f w1).2 = (f w2).2.

Lemma call_everlasting {R : Type} (o : Op) (C : R → Ret) (f : Z → Store.t → Store.t * R) w :
  (∀ t st, Store.exec t st o = prod_map id C (f t st)) → op_ok o → op_timeless o → everlasting w →
  everlasting (call f w).1 ∧
  C (call f w).2 = (Db.exec 0 ⟦store w⟧ o).2 ∧ ⟦store (call f w).1⟧ = (Db.exec 0 ⟦store w⟧ o).1.
Proof.
  intros Hf Ho Ht [Hr Hl]. unfold call. set (t := clock w (tick w)).
  destruct (unlimited_exec t (store w) o Hr Ho) as [He Ha].
  destruct (exec_timeless t 0 ⟦store w⟧ o Hl Ht) as [Heq Hl'].
  pose proof (reach_exec 0 t (store w) o Hr Ho) as Hr'. rewrite Hf in *.
  destruct (f t (store w)) as [st' r]. cbn [prod_map fst snd id] in *. unfold everlasting.
  cbn [store set_store fst snd]. rewrite Ha, He, <- Heq. done.
Qed.

Lemma ageless_built (P : Effect → Prop) A (f : M A) :
  (∀ o, P (EOp o) → op_ok o ∧ op_timeless o) → ¬ P EClock → built P f → ageless f.
Proof.
  intros HP Hclock. induction 1 as [A a|A B f g _ IHf _ IHg|R o C f Hf HC Ho|A g _ IHg Hg|_].
  - by intros w1 w2.
  - intros w1 w2 Hw. unfold mbind, M_bind. destruct (IHf w1 w2 Hw) as [Hw' Heq].
    destruct (f w1) as [w1' a1], (f w2) as [w2' a2]. simpl in *. subst a2. by apply IHg.
  - intros w1 w2 (Hs1 & Hs2 & Hd). destruct (HP o Ho) as [Hok Ht].
    destruct (call_everlasting o C f w1 Hf Hok Ht Hs1) as (Hs1' & Hr1 & Ha1).
    destruct (call_everlasting o C f w2 Hf Hok Ht Hs2) as (Hs2' & Hr2 & Ha2).
    split; [|apply HC; congruence]. split_and!; [done..|]. congruence.
  - destruct Hg as [Hg|Hg]; [done|]. intros w1 w2 Hw. unfold mbind, M_bind, now_ms, call.
    rewrite (Hg (clock w1 (tick w1)) (clock w2 (tick w2))). by apply IHg.
  - intros w1 w2 ([Hr1 _] & [Hr2 _] & _). split; [|done].
    assert (∀ w, reach 0 (store w) → reach 0 (store (flush_all w).1) ∧ ⟦store (flush_all w).1⟧ = ∅) as Hfl.
    { intros w Hr. split; [by apply reach_flush_all|]. apply reach_ok in Hr as [Hwf _]; [|done].
      by destruct (flush_all_ok (entropy w (tick w)) (store w) Hwf) as (_ & _ & ?). }
    destruct (Hfl w1 Hr1) as [Hr1' He1], (Hfl w2 Hr2) as [Hr2' He2].
    unfold same_data, everlasting. rewrite He1, He2. split_and!; auto using lasting_empty.
Qed.

(** A write that gives no time to live, whatever the connection. *)
Lemma dispatch_ageless argv :
  is_write_command (upper (argv !!! 0%nat)) = true → timed argv = false →
  ∃ f : M Outcome, ageless f ∧
    ∀ st cfg w, dispatch argv st cfg w = (let '(w', o) := f w in (w', (st, o))).
Proof.
  intros (f & Hf & Heq)%dispatch_effectful Ht. exists f. split; [|done].
  apply (ageless_built (may argv)); [intros o (? & _ & ?); auto| |done]. cbn [may]. congruence.
Qed.

(** The fast path of a write is built from the same effects. *)
Lemma serve_fast_built st argv out m :
  is_write_command (upper (argv !!! 0%nat)) = true → serve_fast st argv out = Some m →
  built (may argv) m ∧ timed argv = false.
Proof.
  intros Hw. unfold serve_fast. cbv zeta. set (nm := upper (argv !!! 0%nat)) in *.
  assert (∀ p, nm = lit p → ∀ l, named argv l = existsb (fun q => bool_decide (lit p = lit q)) l) as Hn.
  { intros p Hp l. unfold named. fold nm. by rewrite Hp. }
  destruct (bool_decide (nm = lit "GET") && _) eqn:Hg.
  { apply andb_true_iff in Hg as [Hg%bool_decide_eq_true _]. by rewrite Hg in Hw. }
  destruct (bool_decide (nm = lit "SET") && _) eqn:Hs.
  { apply andb_true_iff in Hs as [Hs%bool_decide_eq_true Hl%Nat.eqb_eq]. intros [= <-].
    assert (timed argv = false) as Ht.
    { unfold timed. rewrite !(Hn _ Hs), (drop_ge argv 3) by lia. reflexivity. }
    split; [|done]. apply built_bind; [|intros ?; apply built_ret].
    apply built_set; [by rewrite (Hn _ Hs)|done]. }
  destruct (bool_decide (nm = lit "PING") && _) eqn:Hp.
  { apply andb_true_iff in Hp as [Hp%bool_decide_eq_true _]. by rewrite Hp in Hw. }
  assert (∀ p d, nm = lit p → (p = "INCR" ∨ p = "DECR")%string → timed argv = false ∧
    built (may argv) (fast_incr (argv !!! 1%nat) d out)) as Hincr.
  { intros p d Hnm Hor. split; [unfold timed; rewrite !(Hn _ Hnm); by destruct Hor as [->| ->]|].
    unfold fast_incr. apply built_bind; [|intros ?; apply built_ret].
    apply built_incr_by. rewrite (Hn _ Hnm). by destruct Hor as [->| ->]. }
  destruct (bool_decide (nm = lit "INCR") && _) eqn:Hi.
  { apply andb_true_iff in Hi as [Hi%bool_decide_eq_true _]. intros [= <-].
    by destruct (Hincr _ 1 Hi (or_introl eq_refl)). }
  destruct (bool_decide (nm = lit "DECR") && _) eqn:Hd; [|done].
  apply andb_true_iff in Hd as [Hd%bool_decide_eq_true _]. intros [= <-].
  by destruct (Hincr _ (-1) Hd (or_intror eq_refl)).
Qed.

(** The world with a clock that stands. *)
Definition stand w : World := mkWorld (store w) (tick w) (fun _ => 0) (entropy w) (io_fault w) (snapshot w).

Lemma execute_lasting w cfg st argv out :
  everlasting w → is_write_command (upper (argv !!! 0%nat)) = true → timed argv = false →
  same_data (execute w cfg st argv out).1.1.1.1 (dispatch argv st cfg w).1.
Proof.
  intros He Hw Ht. destruct (dispatch_ageless argv Hw Ht) as (f & Hf & Heq).
  assert (same_data w (stand w)) as Hsw by done. assert (same_data w w) as Hww by done.
  unfold execute. destruct (serve_fast st argv out) as [m|] eqn:Hm.
  - destruct (serve_fast_built st argv out m Hw Hm) as [Hb _].
    assert (ageless m) as Hage.
    { apply (ageless_built (may argv)); [intros o (? & _ & ?); auto| |done]. cbn [may]. congruence. }
    pose proof (fast_path_ok 0 (stand w) cfg st argv out m ltac:(lia) (proj1 He) (fun _ => eq_refl) Hm) as Hfast.
    destruct (Hage _ _ Hsw) as [(Hm1 & _ & Hd1) _]. destruct (Hf _ _ Hsw) as [(Hf1 & _ & Hd2) _].
    rewrite Heq in Hfast |- *. destruct (f w) as [w1 o1], (f (stand w)) as [w2 o2].
    destruct (m w) as [w3 [out3 b3]], (m (stand w)) as [w4 [out4 b4]]. cbn [fst snd] in *.
    destruct Hfast as (Hst & _). split_and!; [done..|]. by rewrite Hd1, Hst, <- Hd2.
  - rewrite Heq. destruct (Hf _ _ Hww) as [H _]. by destruct (f w) as [w1 o1].
Qed.

(** ** Histories *)

(** Nothing expires. *)
Lemma lasting_expires (clk : nat → Z) (m m' : Db.t) : lasting m → expires_only clk m m' → m' = m.
Proof.
  intros Hm [Hsub Hexp]. apply map_eq. intros k. destruct (m' !! k) as [e|] eqn:Hk.
  - symmetry. by eapply lookup_weaken.
  - destruct (m !! k) as [e|] eqn:Hk'; [|done]. destruct (Hexp k e Hk' Hk) as [i Hi].
    unfold Shard.unexpired in Hi. by rewrite (Hm k e Hk') in Hi.
Qed.

Lemma same_data_expires w w' w2 :
  same_data w w2 → reach 0 (store w') → clock w' = clock w →
  expires_only (clock w) ⟦store w⟧ ⟦store w'⟧ → same_data w' w2.
Proof.
  intros ([Hr Hl] & [He2 Hl2] & Hd) Hr' _ Hx. pose proof (lasting_expires _ _ _ Hl Hx) as Heq.
  unfold same_data, everlasting. rewrite Heq. by split_and!.
Qed.

Lemma same_data_writes argv w w2 cfg st out :
  same_data w w2 → reach 0 (store w) → is_write_command (upper (argv !!! 0%nat)) = true → timed argv = false →
  ∃ f, effect_of argv f ∧ same_data (execute w cfg st argv out).1.1.1.1 (f w2).1.
Proof.
  intros Hd _ Hw Ht. destruct (dispatch_ageless argv Hw Ht) as (f & Hf & Heq). exists f. split; [done|].
  pose proof (execute_lasting w cfg st argv out (proj1 Hd) Hw Ht) as Hex. rewrite Heq in Hex.
  destruct (Hf _ _ Hd) as [(_ & H2 & H3) _]. destruct (f w) as [w1 o1]. cbn [fst] in *.
  destruct Hex as (H4 & _ & H5). split_and!; [done..|]. by rewrite H5.
Qed.


End timeless.

(** ** An example *)

#[local] Existing Instance canonical_order.
#[local] Existing Instance demo_float_text.

(** An empty store and a clock that reads [t]. *)
Definition world_at (t : Z) : World :=
  mkWorld (Store.new demo_seeds FlatMap.length_hasher 1 0) 0 (fun _ => t)
    (fun _ => demo_seeds) (fun _ => None) None.

Definition server_at (t : Z) : Server :=
  mkServer (world_at t) (demo_config None) (Some (aof_open [])) (fun _ => None) [] (fun _ _ => false) false.

Definition serve_commands (sv : Server) (cmds : list (list bytes)) : Server :=
  foldl (fun sv argv => (handle_command true sv (conn_new 7 true) argv []).1.1.1) sv cmds.

Definition restarted_at (t : Z) (file : bytes) : Server :=
  bootstrap FlatMap.length_hasher (demo_config None) (Some file) None (fun _ => None) (fun _ _ => false)
    (world_at t).

(** The counter without the time to live, at two times. *)
Definition lasting_counter : list (list bytes) :=
  [[lit "SET"; lit "k"; lit "5"; lit "NX"]; [lit "incr"; lit "k"]].

