(* ===== verification/Absolute.v ===== *)
(** * Recovery of keys with absolute times to live

    With times to live, the replay of a log at a later time sees keys expired that
    were there when the command was served.  A discipline keeps recovery exact all
    the same: keys are divided into volatile and lasting ones; a volatile key is
    only ever stored anew or deleted, with an absolute time to live or none, and a
    lasting key is never given a time to live.  Without it, replay loses data ([Limits.v]). *)
From S2P Require Import Prelude Std Map Eviction Value Shard Spec ShardOk Store StoreOk StoreProps.
From S2P Require Import Resp RespOk Reply RespProps Dump Config Commands CommandsOk Persistence Conn ConnOk ConnProps.
From S2P Require Import Effects Uring Replica View Durable Snapshot Input System SystemProps Replay Timeless.
Local Open Scope Z_scope.

(** ** The discipline *)

(** [SET] with no option but an absolute time. *)
Definition plain_set (argv : list bytes) : bool :=
  named argv ["SET"]%string &&
  ((length argv =? 3)%nat ||
   ((length argv =? 5)%nat &&
    (bool_decide (upper_text (argv !!! 3%nat) = lit "EXAT") || bool_decide (upper_text (argv !!! 3%nat) = lit "PXAT")))).

(** The command does not depend on what its keys hold. *)
Definition overwrites (argv : list bytes) : bool :=
  named argv ["MSET"; "DEL"; "UNLINK"; "FLUSHALL"; "FLUSHDB"]%string || plain_set argv.

Definition disciplined (volatile : bytes → bool) (argv : list bytes) : Prop :=
  if overwrites argv then timed argv = true → volatile (argv !!! 1%nat) = true
  else timed argv = false ∧ Forall (fun k => volatile k = false) (command_keys argv).

Section absolute.
Context {HO : HashOrder} {FT : FloatText}.
Context (T : Z) (volatile : bytes → bool).
Implicit Types (m : Db.t) (k : bytes) (w : World) (argv : list bytes).

(** ** Databases that show the same from [T] on *)

Definition matching m1 m2 : Prop :=
  ∀ k, if volatile k then Db.find T m1 k = Db.find T m2 k
       else m1 !! k = m2 !! k ∧ ∀ e, m1 !! k = Some e → expire_at e = None.

Lemma matching_refl_l m1 m2 : matching m1 m2 → matching m1 m1.
Proof. intros Hm k. specialize (Hm k). destruct (volatile k); [done|]. by destruct Hm. Qed.

Lemma matching_trans m1 m2 m3 : matching m1 m2 → matching m2 m3 → matching m1 m3.
Proof.
  intros H12 H23 k. specialize (H12 k). specialize (H23 k). destruct (volatile k); [congruence|].
  destruct H12, H23. split; [congruence|done].
Qed.

Lemma matching_view m1 m2 : matching m1 m2 → same_view T m1 m2.
Proof. intros Hm k. specialize (Hm k). destruct (volatile k); [done|]. apply Db.find_local, Hm. Qed.

(** A change of one key on both sides. *)
Lemma matching_change k m1 m2 m1' m2' :
  matching m1 m2 → (∀ j, j ≠ k → m1' !! j = m1 !! j) → (∀ j, j ≠ k → m2' !! j = m2 !! j) →
  m1' !! k = m2' !! k → (volatile k = false → ∀ e, m1' !! k = Some e → expire_at e = None) →
  matching m1' m2'.
Proof.
  intros Hm H1 H2 Hk Hnone j. destruct (decide (j = k)) as [->|Hne].
  - destruct (volatile k); [by apply Db.find_local|]. split; [done|by apply Hnone].
  - specialize (Hm j). destruct (volatile j).
    + rewrite (Db.find_local T m1' m1), (Db.find_local T m2' m2) by auto. done.
    + rewrite H1, H2 by done. done.
Qed.

Lemma unexpired_later t e : t <= T → Shard.unexpired t e = false → Shard.unexpired T e = false.
Proof. unfold Shard.unexpired. destruct (expire_at e); [|done]. rewrite !negb_false_iff, !Z.leb_le. lia. Qed.

(** What expires before [T] is not seen at [T]. *)
Lemma matching_expires (clk : nat → Z) m m' m2 :
  (∀ i, clk i <= T) → matching m m2 → expires_only clk m m' → matching m' m2.
Proof.
  intros Hclk Hm [Hsub Hexp] k. specialize (Hm k). destruct (m' !! k) as [e|] eqn:Hk.
  - assert (m !! k = Some e) as Hk' by by eapply lookup_weaken.
    destruct (volatile k); [|by rewrite <- Hk'].
    rewrite <- Hm. apply Db.find_local. congruence.
  - destruct (m !! k) as [e|] eqn:Hk'.
    + destruct (Hexp k e Hk' Hk) as [i Hi]. pose proof (unexpired_later (clk i) e (Hclk i) Hi) as HT.
      destruct (volatile k).
      * rewrite <- Hm. unfold Db.find. rewrite Hk, Hk'. cbn. by rewrite HT.
      * destruct Hm as [_ Hm]. unfold Shard.unexpired in Hi. by rewrite (Hm e eq_refl) in Hi.
    + destruct (volatile k); [rewrite <- Hm; apply Db.find_local; congruence|]. split; [by destruct Hm|done].
Qed.

(** *** Operations *)

(** On a lasting key, at any times. *)
Lemma exec_calm t1 t2 m1 m2 o :
  matching m1 m2 → volatile (op_key o) = false → op_timeless o →
  (Db.exec t1 m1 o).2 = (Db.exec t2 m2 o).2 ∧ matching (Db.exec t1 m1 o).1 (Db.exec t2 m2 o).1.
Proof.
  intros Hm Hv Ht. pose proof (Hm (op_key o)) as Hk. rewrite Hv in Hk. destruct Hk as [Hk Hnone].
  set (only := (match m1 !! op_key o with Some e => {[op_key o := e]} | None => ∅ end : Db.t)).
  assert (only !! op_key o = m1 !! op_key o) as Honly.
  { unfold only. destruct (m1 !! op_key o); [apply lookup_singleton_eq|apply lookup_empty]. }
  assert (lasting only) as Hl.
  { intros j e. unfold only. destruct (m1 !! op_key o) as [e'|] eqn:He; [|by rewrite lookup_empty].
    intros [_ <-]%lookup_singleton_Some. by apply Hnone. }
  destruct (exec_timeless t1 t2 only o Hl Ht) as [Heq Hl'].
  destruct (Db.exec_local t1 o) as [L1 O1], (Db.exec_local t2 o) as [L2 O2].
  destruct (L1 only m1 Honly) as [R1 K1]. destruct (L2 only m2 ltac:(congruence)) as [R2 K2].
  split; [by rewrite <- R1, <- R2, Heq|]. apply (matching_change (op_key o) m1 m2); [done|apply O1|apply O2| |].
  - by rewrite <- K1, <- K2, Heq.
  - intros _ e. rewrite <- K1. apply Hl'.
Qed.

(** An operation whose effect does not depend on the key. *)
Definition blind (o : Op) : Prop :=
  match o with
  | OSet k _ opts =>
      nx opts = false ∧ xx opts = false ∧ keep_ttl opts = false ∧ (volatile k = false → opt_expire_at opts = None)
  | ODel _ => True
  | _ => False
  end.

Lemma exec_blind t1 t2 m1 m2 o : matching m1 m2 → blind o → matching (Db.exec t1 m1 o).1 (Db.exec t2 m2 o).1.
Proof.
  intros Hm Ho. destruct o as [|k v opts|k| | | | | | | | | | | | | | | | | | | | | | | | | |]; try done; cbn [Db.exec].
  - destruct Ho as (Hnx & Hxx & Hkeep & Hnone).
    assert (∀ t m, (Db.set t m k v opts).1 = <[k := mkEntry (VStr v) (opt_expire_at opts)]> m) as Hset.
    { intros t m. unfold Db.set. destruct (Db.find t m k); by rewrite ?Hnx, ?Hxx, ?Hkeep. }
    change (matching (Db.set t1 m1 k v opts).1 (Db.set t2 m2 k v opts).1). rewrite !Hset. apply (matching_change k m1 m2); [done| | | |].
    + intros j Hj. by rewrite lookup_insert_ne.
    + intros j Hj. by rewrite lookup_insert_ne.
    + by rewrite !lookup_insert_eq.
    + intros Hv e. rewrite lookup_insert_eq. intros [= <-]. by apply Hnone.
  - cbn [fst]. apply (matching_change k m1 m2); [done| | | |].
    + intros j Hj. by rewrite lookup_delete_ne.
    + intros j Hj. by rewrite lookup_delete_ne.
    + by rewrite !lookup_delete_eq.
    + intros _ e. by rewrite lookup_delete_eq.
Qed.

(** ** Commands *)

(** No memory limit, and the clock reads [T] at most. *)
Definition until w : Prop := reach 0 (store w) ∧ ∀ i, clock w i <= T.

Definition kin w1 w2 : Prop := until w1 ∧ until w2 ∧ matching ⟦store w1⟧ ⟦store w2⟧.

(** Whatever they answer, they lead from kin to kin. *)
Definition loose {A B : Type} (f : M A) (g : M B) : Prop :=
  ∀ w1 w2, kin w1 w2 → kin (f w1).1 (g w2).1.

Lemma loose_ret {A B : Type} (a : A) (b : B) : loose (mret a) (mret b).
Proof. by intros w1 w2. Qed.

Lemma loose_bind {A A' B B' : Type} (f : M A) (f' : M A') (g : A → M B) (g' : A' → M B') :
  loose f f' → (∀ a a', loose (g a) (g' a')) → loose (f ≫= g) (f' ≫= g').
Proof.
  intros Hf Hg w1 w2 Hw. unfold mbind, M_bind. specialize (Hf w1 w2 Hw).
  destruct (f w1) as [w1' a], (f' w2) as [w2' a']. by apply Hg.
Qed.

Lemma loose_ret_bind {A A' B B' : Type} (a : A) (a' : A') (g : A → M B) (g' : A' → M B') :
  loose (g a) (g' a') → loose (mret a ≫= g) (mret a' ≫= g').
Proof. intros H w1 w2 Hw. exact (H w1 w2 Hw). Qed.

Lemma loose_mapM {A B : Type} (f : A → M B) l : (∀ a, a ∈ l → loose (f a) (f a)) → loose (mapM f l) (mapM f l).
Proof.
  induction l as [|a l IH]; intros Hf; cbn [mapM]; [apply loose_ret|].
  apply loose_bind; [apply Hf; left|]. intros b b'.
  apply loose_bind; [apply IH; intros x Hx; apply Hf; by right|]. intros bs bs'. apply loose_ret.
Qed.

Lemma call_until {R : Type} (o : Op) (C : R → Ret) (f : Z → Store.t → Store.t * R) w :
  (∀ t st, Store.exec t st o = prod_map id C (f t st)) → op_ok o → until w →
  until (call f w).1 ∧ C (call f w).2 = (Db.exec (clock w (tick w)) ⟦store w⟧ o).2 ∧
  ⟦store (call f w).1⟧ = (Db.exec (clock w (tick w)) ⟦store w⟧ o).1.
Proof.
  intros Hf Ho [Hr Hc]. unfold call. set (t := clock w (tick w)).
  destruct (unlimited_exec t (store w) o Hr Ho) as [He Ha].
  pose proof (reach_exec 0 t (store w) o Hr Ho) as Hr'. rewrite Hf in *.
  destruct (f t (store w)) as [st' r]. by split_and!.
Qed.

Lemma loose_call {R : Type} (o : Op) (C : R → Ret) (f : Z → Store.t → Store.t * R) :
  (∀ t st, Store.exec t st o = prod_map id C (f t st)) → op_ok o → blind o → loose (call f) (call f).
Proof.
  intros Hf Ho Hb w1 w2 (H1 & H2 & Hm).
  destruct (call_until o C f w1 Hf Ho H1) as (H1' & _ & Ha1).
  destruct (call_until o C f w2 Hf Ho H2) as (H2' & _ & Ha2).
  split_and!; [done..|]. rewrite Ha1, Ha2. by apply exec_blind.
Qed.

Lemma loose_flush : loose flush_all flush_all.
Proof.
  intros w1 w2 ([Hr1 Hc1] & [Hr2 Hc2] & _).
  assert (∀ w, reach 0 (store w) → reach 0 (store (flush_all w).1) ∧ ⟦store (flush_all w).1⟧ = ∅) as Hfl.
  { intros w Hr. split; [by apply reach_flush_all|]. apply reach_ok in Hr as [Hwf _]; [|done].
    by destruct (flush_all_ok (entropy w (tick w)) (store w) Hwf) as (_ & _ & ?). }
  destruct (Hfl w1 Hr1) as [Hr1' He1], (Hfl w2 Hr2) as [Hr2' He2].
  split; [by split|]. split; [by split|]. rewrite He1, He2. intros k. destruct (volatile k); [done|].
  split; [done|]. intros e. by rewrite lookup_empty.
Qed.

(** Commands on lasting keys answer the same, too. *)
Lemma loose_built (P : Effect → Prop) A (f : M A) :
  (∀ o, P (EOp o) → op_ok o ∧ op_timeless o ∧ volatile (op_key o) = false) → ¬ P EClock → built P f →
  ∀ w1 w2, kin w1 w2 → kin (f w1).1 (f w2).1 ∧ (f w1).2 = (f w2).2.
Proof.
  intros HP Hclock. induction 1 as [A a|A B f g _ IHf _ IHg|R o C f Hf HC Ho|A g _ IHg Hg|_]; intros w1 w2 Hw.
  - done.
  - unfold mbind, M_bind. destruct (IHf w1 w2 Hw) as [Hw' Heq].
    destruct (f w1) as [w1' a1], (f w2) as [w2' a2]. simpl in *. subst a2. by apply IHg.
  - destruct (HP o Ho) as (Hok & Ht & Hv). destruct Hw as (H1 & H2 & Hm).
    destruct (call_until o C f w1 Hf Hok H1) as (H1' & Hr1 & Ha1).
    destruct (call_until o C f w2 Hf Hok H2) as (H2' & Hr2 & Ha2).
    destruct (exec_calm (clock w1 (tick w1)) (clock w2 (tick w2)) _ _ o Hm Hv Ht) as [Hr Hm'].
    split; [|apply HC; congruence]. split_and!; [done..|]. by rewrite Ha1, Ha2.
  - destruct Hg as [Hg|Hg]; [done|]. unfold mbind, M_bind, now_ms, call.
    rewrite (Hg (clock w1 (tick w1)) (clock w2 (tick w2))). by apply IHg.
  - split; [by apply loose_flush|done].
Qed.

(** *** The commands that overwrite *)

(** The options of a plain [SET]. *)
Lemma plain_set_opts argv t1 t2 :
  plain_set argv = true →
  set_opts t1 (drop 3 argv) default_options false = set_opts t2 (drop 3 argv) default_options false ∧
  ∀ opts g, set_opts t1 (drop 3 argv) default_options false = inl (opts, g) →
    g = false ∧ nx opts = false ∧ xx opts = false ∧ keep_ttl opts = false.
Proof.
  unfold plain_set. intros [_ [Hl%Nat.eqb_eq|[Hl%Nat.eqb_eq Ho]%andb_true_iff]%orb_true_iff]%andb_true_iff.
  { rewrite drop_ge by lia. split; [done|]. by intros opts g [= <- <-]. }
  destruct argv as [|a0 [|a1 [|a2 [|a3 [|a4 [|]]]]]]; try discriminate Hl. cbn [drop].
  change ([a0; a1; a2; a3; a4] !!! 3%nat) with a3 in Ho. cbn [set_opts]. cbv zeta.
  apply orb_true_iff in Ho as [->%bool_decide_eq_true| ->%bool_decide_eq_true];
    repeat (rewrite bool_decide_eq_false_2 by discriminate); rewrite bool_decide_eq_true_2 by done; cbn [orb];
    destruct (parse_i64_bytes a4) as [n|]; (split; [done|]); intros opts g; [intros [= <- <-]|done|intros [= <- <-]|done];
    done.
Qed.

Lemma set_untimed_opts argv t opts g :
  named argv ["SET"]%string = true → timed argv = false →
  set_opts t (drop 3 argv) default_options false = inl (opts, g) → opt_expire_at opts = None.
Proof.
  unfold timed. intros Hn [_ Ht]%orb_false_iff. rewrite Hn in Ht. cbn [andb] in Ht.
  by apply set_opts_no_expiry.
Qed.

Lemma loose_store_set k v opts :
  blind (OSet k v opts) →
  loose (call (fun t s => Store.set t s k v opts)) (call (fun t s => Store.set t s k v opts)).
Proof. intros Hb. by apply (loose_call (OSet k v opts) RBool). Qed.

Lemma loose_set argv :
  plain_set argv = true → (timed argv = true → volatile (argv !!! 1%nat) = true) →
  loose (set_cmd argv) (set_cmd argv).
Proof.
  intros Hp Hv. unfold set_cmd. destruct (length argv <? 3)%nat; [apply loose_ret|]. cbv zeta.
  apply loose_bind; [by intros w1 w2|]. intros t1 t2. destruct (plain_set_opts argv t1 t2 Hp) as [Heq Hopts].
  rewrite <- Heq. destruct (set_opts t1 _ _ _) as [[opts g]|e] eqn:Hs; [|apply loose_ret].
  destruct (Hopts opts g eq_refl) as (-> & Hnx & Hxx & Hkeep).
  apply loose_ret_bind. apply loose_bind; [|intros b b'; apply loose_ret].
  apply loose_store_set. split_and!; [done..|]. intros Hk. destruct (timed argv) eqn:Ht; [by rewrite Hv in Hk|].
  eapply set_untimed_opts; [|done|exact Hs]. unfold plain_set in Hp. by apply andb_true_iff in Hp as [? _].
Qed.

Lemma loose_mset argv : loose (mset_cmd argv) (mset_cmd argv).
Proof.
  unfold mset_cmd. destruct (_ || _); [apply loose_ret|]. apply loose_bind; [|intros ? ?; apply loose_ret].
  apply loose_mapM. intros [k v] _. by apply loose_store_set.
Qed.

Lemma loose_dels (ks : list bytes) :
  loose (countM (fun k => call (fun t s => Store.del t s k)) ks) (countM (fun k => call (fun t s => Store.del t s k)) ks).
Proof.
  unfold countM. apply loose_bind; [|intros ? ?; apply loose_ret].
  apply loose_mapM. intros k _. by apply (loose_call (ODel k) RBool).
Qed.

(** The body of an arm is the effect of the command. *)
Lemma effect_of_body argv (f : M Outcome) : (∀ st cfg w, dispatch argv st cfg w = ((o ← f; mret (st, o)) : M (ConnState * Outcome)) w) → effect_of argv f.
Proof. intros Hf st cfg w. rewrite Hf. unfold mbind, M_bind. by destruct (f w). Qed.

Lemma overwrites_del argv p :
  upper (argv !!! 0%nat) = lit p → p ∈ ["DEL"; "UNLINK"]%string → ∃ f, effect_of argv f ∧ loose f f.
Proof.
  intros Hnm Hp. destruct argv as [|a [|b ks]].
  - exfalso. repeat (apply elem_of_cons in Hp as [->|Hp]; [discriminate Hnm|]). by apply elem_of_nil in Hp.
  - exists (mret (unknown_command a)). split; [|apply loose_ret]. intros st cfg w. unfold dispatch. rewrite Hnm.
    by repeat (apply elem_of_cons in Hp as [->|Hp]; [reflexivity|]); apply elem_of_nil in Hp.
  - exists (n ← countM (fun k => call (fun t s => Store.del t s k)) (b :: ks); mret (out_maybe (Int n) (0 <? n))).
    split; [|apply loose_bind; [apply loose_dels|intros ? ?; apply loose_ret]].
    apply effect_of_body. intros st cfg w. unfold dispatch. rewrite Hnm.
    by repeat (apply elem_of_cons in Hp as [->|Hp]; [reflexivity|]); apply elem_of_nil in Hp.
Qed.

(** A command that overwrites. *)
Lemma overwrites_loose argv :
  overwrites argv = true → (timed argv = true → volatile (argv !!! 1%nat) = true) →
  ∃ f, effect_of argv f ∧ loose f f.
Proof.
  intros [(p & Hp & Hnm)%named_spec|Hs]%orb_true_iff Hv.
  - assert (loose (_ ← flush_all; mret (out_w ok)) (_ ← flush_all; mret (out_w ok))) as Hflush
      by (apply loose_bind; [apply loose_flush|intros ? ?; apply loose_ret]).
    repeat (apply elem_of_cons in Hp as [->|Hp]); [| | | | |by apply elem_of_nil in Hp].
    + exists (mset_cmd argv). split; [|apply loose_mset]. apply effect_of_body. intros st cfg w. unfold dispatch. by rewrite Hnm.
    + by apply (overwrites_del argv "DEL"); [|left].
    + by apply (overwrites_del argv "UNLINK"); [|right; left].
    + eexists. split; [|exact Hflush]. intros st cfg w. unfold dispatch. by rewrite Hnm.
    + eexists. split; [|exact Hflush]. intros st cfg w. unfold dispatch. by rewrite Hnm.
  - exists (set_cmd argv). split; [|by apply loose_set].
    unfold plain_set in Hs. apply andb_true_iff in Hs as [(p & ->%list_elem_of_singleton & Hnm)%named_spec _].
    apply effect_of_body. intros st cfg w. unfold dispatch. by rewrite Hnm.
Qed.

(** A write that keeps the discipline. *)
Lemma calm_built argv {A : Type} (f : M A) :
  timed argv = false → Forall (fun k => volatile k = false) (command_keys argv) → built (may argv) f → loose f f.
Proof.
  intros Ht Hk Hb w1 w2 Hw. apply (loose_built (may argv) A f); [|by cbn [may]; rewrite Ht|done|done].
  intros o (Hok & Hin & Hto). split_and!; [done|by apply Hto|]. by apply (proj1 (Forall_forall _ _) Hk).
Qed.

Lemma disciplined_loose argv :
  is_write_command (upper (argv !!! 0%nat)) = true → disciplined volatile argv → ∃ f, effect_of argv f ∧ loose f f.
Proof.
  unfold disciplined. intros Hw. destruct (overwrites argv) eqn:Ho; [by apply overwrites_loose|]. intros [Ht Hk].
  destruct (dispatch_effectful argv Hw) as (f & Hf & Heq). exists f. split; [done|]. by apply (calm_built argv).
Qed.

Lemma serve_fast_loose (st : ConnState) argv (out : bytes) (m : M (bytes * bool)) :
  is_write_command (upper (argv !!! 0%nat)) = true → disciplined volatile argv →
  serve_fast st argv out = Some m → loose m m.
Proof.
  intros Hw Hd Hm. unfold disciplined in Hd. destruct (overwrites argv) eqn:Ho; cycle 1.
  { destruct Hd as [Ht Hk]. destruct (serve_fast_built st argv out m Hw Hm) as [Hb _]. by apply (calm_built argv). }
  revert Hm. unfold serve_fast. set (nm := upper (argv !!! 0%nat)) in *.
  assert (∀ p, nm = lit p → p ∈ ["INCR"; "DECR"]%string → False) as Hno.
  { intros p Hp Hin. unfold overwrites, plain_set, named in Ho. fold nm in Ho. rewrite Hp in Ho.
    repeat (apply elem_of_cons in Hin as [->|Hin]; [discriminate Ho|]). by apply elem_of_nil in Hin. }
  destruct (bool_decide (nm = lit "GET") && _) eqn:Hg.
  { apply andb_true_iff in Hg as [Hg%bool_decide_eq_true _]. by rewrite Hg in Hw. }
  destruct (bool_decide (nm = lit "SET") && _).
  { intros [= <-]. apply loose_bind; [|intros ? ?; apply loose_ret]. by apply loose_store_set. }
  destruct (bool_decide (nm = lit "PING") && _) eqn:Hp.
  { apply andb_true_iff in Hp as [Hp%bool_decide_eq_true _]. by rewrite Hp in Hw. }
  destruct (bool_decide (nm = lit "INCR") && _) eqn:Hi.
  { apply andb_true_iff in Hi as [Hi%bool_decide_eq_true _]. destruct (Hno "INCR"%string Hi); set_solver. }
  destruct (bool_decide (nm = lit "DECR") && _) eqn:Hdr; [|done].
  apply andb_true_iff in Hdr as [Hdr%bool_decide_eq_true _]. destruct (Hno "DECR"%string Hdr); set_solver.
Qed.

(** The world with a clock that stands at [T]. *)
Definition halted w : World := mkWorld (store w) (tick w) (fun _ => T) (entropy w) (io_fault w) (snapshot w).

Lemma kin_expires w w' w2 :
  kin w w2 → reach 0 (store w') → clock w' = clock w →
  expires_only (clock w) ⟦store w⟧ ⟦store w'⟧ → kin w' w2.
Proof.
  intros ([Hr Hc] & H2 & Hm) Hr' Hclk Hx. split; [split; [done|by rewrite Hclk]|]. split; [done|].
  by eapply matching_expires.
Qed.

Lemma kin_writes argv w w2 cfg st out :
  kin w w2 → reach 0 (store w) → is_write_command (upper (argv !!! 0%nat)) = true → disciplined volatile argv →
  ∃ f, effect_of argv f ∧ kin (execute w cfg st argv out).1.1.1.1 (f w2).1.
Proof.
  intros Hk Hr Hw Hd. destruct (disciplined_loose argv Hw Hd) as (f & Heq & Hf). exists f. split; [done|].
  unfold execute. destruct (serve_fast st argv out) as [m|] eqn:Hm; cycle 1.
  { rewrite Heq. specialize (Hf w w2 Hk). by destruct (f w) as [w1 o]. }
  pose proof Hk as ([_ Hc] & Hu2 & Hmat).
  assert (until (halted w)) as Hh by (split; [done|]; intros i; cbn; lia).
  assert (kin w (halted w)) as H1 by (split_and!; [apply Hk|done|by eapply matching_refl_l]).
  assert (kin (halted w) w2) as H2 by (by split_and!).
  pose proof (serve_fast_loose st argv out m Hw Hd Hm _ _ H1) as (Hu & _ & Hm1).
  pose proof (Hf _ _ H2) as (_ & Hu' & Hm2).
  pose proof (fast_path_ok 0 (halted w) cfg st argv out m ltac:(lia) Hr (fun _ => eq_refl) Hm) as Hfast.
  rewrite Heq in Hfast. destruct (f (halted w)) as [w3 o3], (m (halted w)) as [w4 [out4 b4]], (m w) as [w5 [out5 b5]].
  cbn [fst snd] in *. destruct Hfast as (Hst & _). split_and!; [done..|]. eapply matching_trans; [exact Hm1|].
  by rewrite Hst.
Qed.


End absolute.

#[local] Existing Instance canonical_order.
#[local] Existing Instance demo_float_text.

(** ** An example *)

(** Sessions expire, counters last. *)
Definition session_key (k : bytes) : bool := bool_decide (k = lit "s").

Definition session_commands : list (list bytes) :=
  [[lit "SET"; lit "s"; lit "v"; lit "PXAT"; lit "100"]; [lit "INCR"; lit "k"]].

