(* ===== verification/Entry.v ===== *)
(** * Starting the program ([crates/server/src/main.rs], [server.rs], [tls.rs])

    The way from the command line and the files on the disk to a running
    server, or to a message and an exit code.  The file system is a finite map
    from paths to contents, with the errors the operating system gives for a
    path; reading certificates is [rustls]'s and a parameter. *)
From S2P Require Import Prelude Std Map Eviction Value Shard Spec ShardOk Store StoreOk StoreProps.
From S2P Require Import Resp RespOk Reply RespProps Dump Config Commands CommandsOk Persistence Conn ConnOk ConnProps.
From S2P Require Import Replica View Durable Snapshot.
Local Open Scope Z_scope.

(** ** Paths *)

(** [Path::join] on Unix: an absolute path replaces the first one. *)
Definition path_join (base file : bytes) : bytes :=
  match file with
  | x2f :: _ => file
  | _ =>
      match last base with
      | None => file
      | Some b => if bool_decide (b = x2f) then base ++ file else base ++ [x2f] ++ file
      end
  end.

Definition aof_path (cfg : Config) : bytes := path_join (dir cfg) (aof_file cfg).
Definition snapshot_path (cfg : Config) : bytes := path_join (dir cfg) (snapshot_file cfg).

(** ** The file system *)

Record Disk := mkDisk {
  files : gmap bytes bytes;
  read_error : bytes → option bytes;
  open_error : bytes → option bytes
}.

Definition file_exists (d : Disk) (path : bytes) : bool := bool_decide (is_Some (files d !! path)).

(** [File::open] and [read_to_end] of a file that is not there fail. *)
Definition NOT_FOUND : bytes := lit "No such file or directory (os error 2)".

Definition read_to_end (d : Disk) (path : bytes) : bytes + bytes :=
  match read_error d path with
  | Some e => inr e
  | None => match files d !! path with Some data => inl data | None => inr NOT_FOUND end
  end.

(** [OpenOptions::new().create(true).append(true).open(path)] *)
Definition open_append (d : Disk) (path : bytes) : Disk + bytes :=
  match open_error d path with
  | Some e => inr e
  | None =>
      inl (mkDisk (<[path := default [] (files d !! path)]> (files d)) (read_error d) (open_error d))
  end.

(** ** TLS *)

(** What the program takes from [rustls] and [rustls_pemfile]. *)
Class Rustls := {
  Cert : Type;
  Key : Type;
  TlsConfig : Type;
  certs : bytes → list Cert + bytes;
  private_key : bytes → option Key + bytes;
  with_single_cert : list Cert → Key → TlsConfig + bytes
}.

Section tls.
Context {RT : Rustls}.

(** [TlsAcceptor::new] *)
Definition tls_new (d : Disk) (cert_path key_path : bytes) : TlsConfig + bytes :=
  match read_to_end d cert_path with
  | inr e => inr e
  | inl pem =>
      match certs pem with
      | inr e => inr e
      | inl [] => inr (lit "no certificates in cert file")
      | inl chain =>
          match read_to_end d key_path with
          | inr e => inr e
          | inl pem =>
              match private_key pem with
              | inr e => inr e
              | inl None => inr (lit "no private key found")
              | inl (Some key) => with_single_cert chain key
              end
          end
      end
  end.

(** The part of [Server::bootstrap] under the feature [tls]; without the feature
    the settings are not looked at. *)
Definition bootstrap_tls (feature : bool) (cfg : Config) (d : Disk) : option TlsConfig + bytes :=
  if negb feature then inl None
  else
    match tls_cert cfg, tls_key cfg with
    | Some cert, Some key => match tls_new d cert key with inl t => inl (Some t) | inr e => inr e end
    | None, None => inl None
    | _, _ => inr (lit "both --tls-cert and --tls-key are required for TLS")
    end.

End tls.

(** ** Startup *)

Section startup.
Context {HO : HashOrder} {FT : FloatText} {RT : Rustls}.

(** What [load_aof] or [load_snapshot] fails with: only the file that is to be
    replayed is read. *)
Definition recovery_error (cfg : Config) (d : Disk) : option bytes :=
  if appendonly cfg && file_exists d (aof_path cfg) then read_error d (aof_path cfg)
  else if file_exists d (snapshot_path cfg) then read_error d (snapshot_path cfg)
  else None.

(** [Server::bootstrap] with its errors, and the disk it leaves. *)
Definition start (feature_tls : bool) (router : bytes → Z) (cfg : Config) (d : Disk)
    (faults : nat → Fault) (links : nat → nat → bool) (w : World)
    : (Server * Disk * option TlsConfig) + bytes :=
  match recovery_error cfg d with
  | Some e => inr e
  | None =>
      let sv := bootstrap router cfg (files d !! aof_path cfg) (files d !! snapshot_path cfg)
                  faults links w in
      match (if appendonly cfg then open_append d (aof_path cfg) else inl d) with
      | inr e => inr e
      | inl d' =>
          match bootstrap_tls feature_tls cfg d' with
          | inr e => inr e
          | inl tls => inl (sv, d', tls)
          end
      end
  end.

(** The files a server leaves behind when it stops: what was appended to the
    log, and the last snapshot. *)
Definition stop (sv : Server) (d : Disk) : Disk :=
  let fs := match aof sv with
            | Some a => <[aof_path (config sv) := on_disk a]> (files d)
            | None => files d
            end in
  let fs := match snapshot (world sv) with
            | Some data => <[snapshot_path (config sv) := data]> fs
            | None => fs
            end in
  mkDisk fs (read_error d) (open_error d).

End startup.

(** ** The program *)

(** The bytes of a character. *)
Definition utf8_of (c : Z) : bytes :=
  if c <? 128 then [byte_of c]
  else if c <? 2048 then [byte_of (192 + c / 64); byte_of (128 + c mod 64)]
  else if c <? 65536
  then [byte_of (224 + c / 4096); byte_of (128 + c / 64 mod 64); byte_of (128 + c mod 64)]
  else [byte_of (240 + c / 262144); byte_of (128 + c / 4096 mod 64); byte_of (128 + c / 64 mod 64);
        byte_of (128 + c mod 64)].

(** The messages of [Config::from_args] *)
Definition config_error_text (e : ConfigError) : bytes :=
  match e with
  | EHelp => lit "help"
  | ENeedsValue name => lit "--" ++ name ++ lit " requires a value"
  | EInvalidPort => lit "invalid port"
  | EInvalidShards => lit "invalid shards"
  | EInvalidMem s => lit "invalid memory size: " ++ (s ≫= utf8_of)
  | EInvalidReplicaofPort => lit "invalid replicaof port"
  end.

Definition HELP : string :=
"inmemd — fast in-memory cache server (RESP2/3)

USAGE:
  inmemd [OPTIONS]

OPTIONS:
  --port <N>             listen port (default 6380)
  --bind <ADDR>          bind address (default 127.0.0.1)
  --shards <N>           number of store partitions for concurrency (default 512)
  --maxmemory <SIZE>     memory budget, e.g. 512mb, 2gb (default: unbounded)
  --appendonly <yes|no>  enable AOF persistence (default no)
  --requirepass <PASS>   require AUTH with this password (default none)
  --replicaof <H:P>      run as a read-only replica of primary host:port
  --masterauth <PASS>    password to authenticate to the primary
  --tls-cert <FILE>      PEM cert chain to enable TLS (needs `--features tls` build)
  --tls-key <FILE>       PEM private key for TLS
  --dir <PATH>           directory for persistence files (default .)
  --aof-file <NAME>      AOF filename (default inmem.aof)
  --snapshot-file <NAME> snapshot filename (default inmem.snapshot)
  --help                 show this help
".

(** How [main] ends, with what it prints and its last message on the error
    output, or the server it runs. *)
Inductive Run {RT : Rustls} :=
  | Exited (code : Z) (printed message : bytes)
  | Serving (sv : Server) (d : Disk) (tls : option TlsConfig) (replica : bool).

Section main.
Context {HO : HashOrder} {FT : FloatText} {RT : Rustls}.

(** [main] of the portable build, up to the accept loop; [bind_error] is the
    error of binding the listener.  The replica thread is started when the server is read-only. *)
Definition main (feature_tls : bool) (router : bytes → Z) (args : list bytes) (d : Disk)
    (bind_error : Config → option bytes) (faults : nat → Fault) (links : nat → nat → bool) (w : World)
    : Run :=
  match from_args args with
  | inr EHelp => Exited 0 (lit HELP) []
  | inr e => Exited 2 [] (lit "error: " ++ config_error_text e ++ [x0a; x0a] ++ lit HELP ++ [x0a])
  | inl cfg =>
      match start feature_tls router cfg d faults links w with
      | inr e => Exited 1 [] (lit "failed to start: " ++ e ++ [x0a])
      | inl (sv, d, tls) =>
          match bind_error cfg with
          | Some e => Exited 1 [] (lit "server error: " ++ e ++ [x0a])
          | None => Serving sv d tls (read_only sv)
          end
      end
  end.

End main.
