(* ===== verification/Restart.v ===== *)
(** * Restarts

    What the program keeps from one run to the next.  A lifetime is a start from
    the disk, a run of the server with any clients, and a stop that leaves the log
    and the last snapshot on the disk. *)
From S2P Require Import Prelude Std Map Eviction Value Shard Spec ShardOk Store StoreOk StoreProps.
From S2P Require Import Resp RespOk Reply RespProps Dump Config Commands CommandsOk Persistence Conn ConnOk ConnProps.
From S2P Require Import Uring Replica View Durable Snapshot Input System SystemProps Entry.
Local Open Scope Z_scope.

Section restart.
Context {HO : HashOrder} {FT : FloatText} {RT : Rustls}.
Context (now : Z) (args : list bytes) (cfg : Config).
Implicit Types (d : Disk) (m : Db.t) (sv : Server) (w : World).

(** ** What a log rebuilds *)

(** Replayed to any empty store, the log shows [m]. *)
Definition rebuilds (log : list (list bytes)) (m : Db.t) : Prop :=
  Forall sendable log ∧
  ∀ cfg' w, steady now w → ⟦store w⟧ = ∅ →
    let '(w', st') := dispatch_all cfg' internal log w in
    steady now w' ∧ st' = internal ∧ same_view now ⟦store w'⟧ m.

Lemma rebuilds_nil : rebuilds [] ∅.
Proof. split; [done|]. intros cfg' w Hs He. split_and!; [done..|]. by rewrite He. Qed.

Lemma rebuilds_logged log m sv more sv' :
  rebuilds log m → steady now (world sv) → same_view now ⟦store (world sv)⟧ m →
  logged now sv more sv' → rebuilds (log ++ more) ⟦store (world sv')⟧.
Proof.
  intros [Hlog Hm] Hs Hv (Hmore & Hw & _). split; [by apply Forall_app|].
  intros cfg' w Hsw He. rewrite dispatch_all_app. specialize (Hm cfg' w Hsw He).
  destruct (dispatch_all cfg' internal log w) as [w1 st1]. destruct Hm as (Hs1 & -> & Hv1).
  destruct (Hw cfg' internal w1) as [(Ha & Hs2 & Hv2) Hst].
  { split_and!; [done..|]. by rewrite Hv, Hv1. }
  destruct (dispatch_all cfg' internal more w1) as [w2 st2]. cbn [fst snd] in *.
  split_and!; [done..|by symmetry].
Qed.

Lemma replay_rebuilds log m w cfg' :
  rebuilds log m → steady now w → ⟦store w⟧ = ∅ →
  let '(w', _) := replay_file cfg' (Some (encoded log)) w in
  steady now w' ∧ same_view now ⟦store w'⟧ m.
Proof.
  intros [Hlog Hm] Hs He. unfold replay_file.
  pose proof (replay_loop_encoded cfg' log [] [] internal 0 (S (length (encoded log))) w Hlog eq_refl) as Hr.
  rewrite app_nil_r in Hr. rewrite app_nil_l in Hr. cbn [length] in Hr. rewrite Hr by lia.
  specialize (Hm cfg' w Hs He). destruct (dispatch_all cfg' internal log w) as [w' st'].
  by destruct Hm as (? & _ & ?).
Qed.

(** ** Lifetimes *)

(** A life of the program: it starts, any number of clients send any bytes to
    either runtime, and it stops.  The clock reads [now] throughout, and the disk
    takes what is written. *)
Inductive lifetimes : Disk → Db.t → Prop :=
  | never_started d :
      files d !! aof_path cfg = None → files d !! snapshot_path cfg = None → lifetimes d ∅
  | one_more d m feature router bind_error faults links w sv0 d0 tls r rt executors es :
      lifetimes d m → (∀ i, clock w i = now) → (∀ t, faults t = None) →
      main feature router args d bind_error faults links w = Serving sv0 d0 tls r →
      Forall chunked es →
      let sv := server (run (serve rt (bool_decide (is_Some tls)) executors sv0) es) in
      lifetimes (stop sv d0) ⟦store (world sv)⟧.

Definition empty_disk d m : Prop :=
  files d !! aof_path cfg = None ∧ files d !! snapshot_path cfg = None ∧ m = ∅.

Definition log_on_disk d m : Prop :=
  ∃ log, files d !! aof_path cfg = Some (encoded log) ∧ rebuilds log m.

Context (Hargs : from_args args = inl cfg) (Hon : appendonly cfg = true) (Hmm : maxmemory cfg = 0).
Context (Hpaths : aof_path cfg ≠ snapshot_path cfg) (Hprimary : replicaof cfg = None).

(** A start from such a disk shows what the disk holds, and opens the log. *)
Lemma bootstrap_disk d m router faults links w :
  empty_disk d m ∨ log_on_disk d m → (∀ i, clock w i = now) →
  let sv := bootstrap router cfg (files d !! aof_path cfg) (files d !! snapshot_path cfg) faults links w in
  steady now (world sv) ∧ same_view now ⟦store (world sv)⟧ m ∧ config sv = cfg ∧ aof_fault sv = faults ∧
  ∃ log, aof sv = Some (aof_open (encoded log)) ∧ rebuilds log m.
Proof.
  intros Hd Hclk. destruct (fresh_steady now cfg router w Hmm Hclk) as [Hs He].
  unfold bootstrap, load_aof. set (w1 := set_store w _) in *. rewrite Hon.
  destruct Hd as [(-> & -> & ->)|(log & -> & Hr)]; cbn [andb].
  - rewrite !bool_decide_eq_false_2 by (by intros [? ?]). cbn [world aof config aof_fault].
    split_and!; [done|by rewrite He|done|done|]. exists []. split; [done|apply rebuilds_nil].
  - rewrite bool_decide_eq_true_2 by done. pose proof (replay_rebuilds log m w1 cfg Hr Hs He) as Hrep.
    destruct (replay_file cfg (Some (encoded log)) w1) as [w2 n]. cbn [world aof config aof_fault].
    destruct Hrep as [Hs2 Hv2]. split_and!; [done..|]. eauto.
Qed.

Lemma main_serving feature router d bind_error faults links w sv0 d0 tls r :
  main feature router args d bind_error faults links w = Serving sv0 d0 tls r →
  sv0 = bootstrap router cfg (files d !! aof_path cfg) (files d !! snapshot_path cfg) faults links w ∧
  files d0 = <[aof_path cfg := default [] (files d !! aof_path cfg)]> (files d).
Proof.
  unfold main. rewrite Hargs. unfold start. destruct (recovery_error cfg d); [done|]. rewrite Hon.
  unfold open_append. destruct (open_error d (aof_path cfg)); [done|].
  destruct (bootstrap_tls feature cfg _); [|done]. destruct (bind_error cfg); [done|].
  by intros [= <- <- _ _].
Qed.

Lemma server_run_config sv sv' :
  steady now (world sv) → rtc server_step sv sv' → config sv' = config sv.
Proof.
  intros Hs Hrun. revert Hs. induction Hrun as [sv|sv1 sv2 sv3 Hstep _ IH]; intros Hs; [done|].
  destruct (server_step_logged now sv1 sv2 Hs Hstep) as (Hs2 & _). rewrite IH by done.
  destruct Hstep as [raw sv st argv out _|sv]; [|done].
  pose proof (handle_command_ok 0 ltac:(lia) raw sv st argv out (proj1 Hs)) as Hok.
  destruct (handle_command raw sv st argv out) as [[[sv' st'] out'] fl]. by destruct Hok as (_ & _ & ? & _).
Qed.

Lemma lifetimes_disk d m : lifetimes d m → empty_disk d m ∨ log_on_disk d m.
Proof.
  induction 1 as [d Ha Hs|d m feature router bind_error faults links w sv0 d0 tls r rt executors es _ IH Hclk Hf Hmain Hes sv].
  { by left. }
  right. apply main_serving in Hmain as [Hsv0 Hfiles].
  assert (read_only sv0 = false) as Hro.
  { rewrite Hsv0. unfold bootstrap. rewrite Hprimary.
    by match goal with |- context [let '(_, _) := ?x in _] => destruct x end. }
  pose proof (system_steps rt (bool_decide (is_Some tls)) executors sv0 es Hro Hes) as Hrun. fold sv in Hrun.
  clearbody sv. subst sv0.
  destruct (bootstrap_disk d m router faults links w IH Hclk) as (Hs & Hv & Hc & Hfl & log & Ha & Hr).
  set (sv0 := bootstrap _ _ _ _ _ _ _) in *.
  destruct (server_run_logged now sv0 sv Hs Hrun) as (_ & _ & more & Hlog).
  exists (log ++ more). split; [|by eapply rebuilds_logged].
  destruct Hlog as (_ & _ & Haof & _). specialize (Haof ltac:(by rewrite Hfl) (encoded log) Ha).
  unfold stop. rewrite Haof, (server_run_config sv0 sv Hs Hrun), Hc. cbn [files on_disk aof_open].
  rewrite <- encoded_app. destruct (snapshot (world sv)).
  - rewrite lookup_insert_ne by done. apply lookup_insert_eq.
  - apply lookup_insert_eq.
Qed.


End restart.

(** ** A snapshot is shadowed by the log *)

Section shadow.
Context {HO : HashOrder} {FT : FloatText} {RT : Rustls}.

(** C37: turning the append-only file on loses the snapshot.  A program that is
    started with [--appendonly yes] on a disk with a snapshot and no log loads
    the snapshot, and creates an empty log; the next start finds the log,
    replays it instead, and comes up empty. *)
Theorem aof_shadows_snapshot feature router args cfg d bind_error faults links w w' sv d1 tls r
    sv2 d2 tls2 r2 :
  from_args args = inl cfg → appendonly cfg = true → 0 <= maxmemory cfg →
  aof_path cfg ≠ snapshot_path cfg → files d !! aof_path cfg = None →
  main feature router args d bind_error faults links w = Serving sv d1 tls r →
  main feature router args (stop sv d1) bind_error faults links w' = Serving sv2 d2 tls2 r2 →
  ⟦store (world sv2)⟧ = ∅.
Proof.
  intros Hargs Hon Hmm Hpaths Hno Hmain Hmain2.
  apply (main_serving args cfg Hargs Hon) in Hmain as [-> _].
  apply (main_serving args cfg Hargs Hon) in Hmain2 as [-> _].
  assert (∀ aof_file snap, aof (bootstrap router cfg aof_file snap faults links w) =
    Some (aof_open (default [] aof_file)) ∧ config (bootstrap router cfg aof_file snap faults links w) = cfg) as Hb.
  { intros aof_file snap. unfold bootstrap. rewrite Hon.
    by match goal with |- context [let '(_, _) := ?x in _] => destruct x end. }
  unfold stop. destruct (Hb (files d !! aof_path cfg) (files d !! snapshot_path cfg)) as [-> ->].
  rewrite Hno. cbn [files on_disk aof_open default].
  assert (∀ (fs : gmap bytes bytes) (o : option bytes),
    (match o with Some data => <[snapshot_path cfg := data]> (<[aof_path cfg := []]> fs)
                | None => <[aof_path cfg := []]> fs end) !! aof_path cfg = Some []) as ->.
  { intros fs [data|]; [rewrite lookup_insert_ne by done|]; apply lookup_insert_eq. }
  unfold bootstrap. rewrite Hon, bool_decide_eq_true_2 by done. cbn [andb world].
  by destruct (new_store_ok (entropy w' (tick w')) router (Z.to_nat (shards cfg)) (maxmemory cfg) Hmm)
    as (_ & ? & _).
Qed.

End shadow.

(** ** Witnesses *)

#[local] Existing Instance canonical_order.
#[local] Existing Instance demo_float_text.

Definition demo_rustls : Rustls :=
  {| Cert := unit; Key := unit; TlsConfig := unit;
     certs _ := inl [()]; private_key _ := inl (Some ()); with_single_cert _ _ := inl () |}.
#[local] Existing Instance demo_rustls.

Definition demo_args : list bytes := [lit "--appendonly"; lit "yes"; lit "--shards"; lit "2"].

Definition demo_cfg : Config :=
  mkConfig (lit "127.0.0.1") 6380 2 0 true None None None None None
    (lit ".") (lit "inmem.aof") (lit "inmem.snapshot").

Definition demo_disk (fs : gmap bytes bytes) : Disk := mkDisk fs (fun _ => None) (fun _ => None).

Definition demo_main (d : Disk) : Run :=
  main false FlatMap.length_hasher demo_args d (fun _ => None) (fun _ => None) (fun _ _ => false) (fresh_world 1).

(** The first start, and a client. *)
Definition demo_first : Server :=
  bootstrap FlatMap.length_hasher demo_cfg None None (fun _ => None) (fun _ _ => false) (fresh_world 1).
Definition demo_client : list Event :=
  [Incomes (Handled true true); Reads 1 (Data (encode_command demo_rpush [])); Reaps].
Definition demo_after : Server := server (run (serve Portable false 1 demo_first) demo_client).


(** The snapshot of a list, and two starts. *)
Lemma aof_shadows_snapshot_witness :
  ∃ sv d1 r sv2 d2 r2,
    demo_main (demo_disk {[snapshot_path demo_cfg := encode_command demo_rpush []]}) = Serving sv d1 None r ∧
    ⟦store (world sv)⟧ !! lit "l" = Some (mkEntry (VList [lit "x"]) None) ∧
    demo_main (stop sv d1) = Serving sv2 d2 None r2 ∧ ⟦store (world sv2)⟧ = ∅.
Proof.
  do 6 eexists. split; [reflexivity|]. split; [vm_compute; reflexivity|]. split; [reflexivity|].
  refine (aof_shadows_snapshot false FlatMap.length_hasher demo_args demo_cfg
    (demo_disk {[snapshot_path demo_cfg := encode_command demo_rpush []]}) (fun _ => None) (fun _ => None)
    (fun _ _ => false) (fresh_world 1) (fresh_world 1) _ _ None _ _ _ None _ _ eq_refl _ _ _ eq_refl eq_refl).
  - vm_compute. reflexivity.
  - vm_compute. discriminate.
  - vm_compute. discriminate.
  - vm_compute. reflexivity.
Defined.
