(* ===== verification/Interleave.v ===== *)
(** * Commands of several threads, interleaved ([crates/server/src/conn.rs],
    lines 100 to 165)

    A command is applied to the store, appended to the log and sent to the
    replicas under three different locks.  Between them other threads run.  Here
    each of these is a step of its own, and the steps of the threads come in any
    order; the store is updated in one step per command. *)
From S2P Require Import Prelude Std Map Eviction Value Shard Spec ShardOk Store StoreOk StoreProps.
From S2P Require Import Resp RespOk Reply RespProps Dump Config Commands CommandsOk Persistence Conn ConnOk ConnProps.
From S2P Require Import Uring Effects Replica View Durable Commute Snapshot Input System SystemProps.
Local Open Scope Z_scope.

(** ** Threads *)

(** What a thread still has to do for the command it is serving. *)
Inductive Duty :=
  | Idle
  | Logging (argv : list bytes) (quit : bool)        (* before the append *)
  | Propagating (argv : list bytes) (quit : bool)    (* between the append and the replicas *)
  | Registering (snapshot : bytes).                  (* between the dump and the registration *)

Record Thread := mkThread {
  tstate : ConnState;
  outbuf : bytes;
  duty : Duty;
  tflow : Flow
}.

Section threads.
Context {HO : HashOrder} {FT : FloatText}.
Implicit Types (sv : Server) (t : Thread) (argv : list bytes).

(** The loop body up to the end of the execution of the command.  The last part
    says whether the command was a write. *)
Definition begin_command (raw : bool) (sv : Server) (t : Thread) (argv : list bytes)
    : Server * Thread * bool :=
  let st := tstate t in
  let out := outbuf t in
  let nm := upper (argv !!! 0%nat) in
  if bool_decide (nm = lit "SYNC") || bool_decide (nm = lit "PSYNC") then
    if raw then
      let w := world sv in
      let snapshot := dump_commands (clock w (tick w)) (store w) in
      (set_world sv (set_store w (store w)), mkThread st out (Registering snapshot) Next, false)
    else (sv, mkThread st (Resp.write_error out (lit "ERR replication is not supported over TLS")) Idle Closed,
          false)
  else if negb (authenticated st) && negb (is_preauth_ok nm)
  then (sv, mkThread st (Resp.write_error out (lit "NOAUTH Authentication required.")) Idle Next, false)
  else if read_only sv && is_write_command nm
  then (sv, mkThread st (Resp.write_error out
              (lit "READONLY You can't write against a read only replica.")) Idle Next, false)
  else
    let '(w, st, out, quit, is_write) := execute (world sv) (config sv) st argv out in
    let sv := set_world sv w in
    if (is_write : bool) then (sv, mkThread st out (Logging argv quit) Next, true)
    else (sv, mkThread st out Idle (if (quit : bool) then Quit else Next), false).

(** The next step of a thread that is in the middle of a command. *)
Definition advance (sv : Server) (t : Thread) : Server * Thread :=
  match duty t with
  | Idle => (sv, t)
  | Logging argv quit =>
      if bool_decide (is_Some (aof sv)) || has_replicas sv then
        match aof sv with
        | None => (sv, mkThread (tstate t) (outbuf t) (Propagating argv quit) Next)
        | Some file =>
            match aof_append file (aof_fault sv (tick (world sv))) argv with
            | (file, None) =>
                (set_aof sv (Some file), mkThread (tstate t) (outbuf t) (Propagating argv quit) Next)
            | (file, Some e) =>
                (set_aof sv (Some file),
                 mkThread (tstate t) (Resp.write_error (outbuf t) (lit "ERR aof write failed: " ++ e))
                   (Propagating argv true) Next)
            end
        end
      else (sv, mkThread (tstate t) (outbuf t) Idle (if quit then Quit else Next))
  | Propagating argv quit =>
      (if has_replicas sv then propagate sv (encode_args [] argv) else sv,
       mkThread (tstate t) (outbuf t) Idle (if quit then Quit else Next))
  | Registering snapshot =>
      (add_replica_with_snapshot sv snapshot, mkThread (tstate t) (outbuf t) Idle Passive)
  end.

(** ** Schedules *)

Inductive Move :=
  | Begins (i : nat) (raw : bool) (argv : list bytes)
  | Advances (i : nat)
  | Reaper.

(** The server and its threads.  The last two record, for the statements below,
    the writes that were applied and the ones whose record was appended. *)
Record Pool := mkPool {
  psv : Server;
  threads : gmap nat Thread;
  applied : list (nat * list bytes);
  logged_by : list (nat * list bytes)
}.

Definition move (p : Pool) (m : Move) : Pool :=
  match m with
  | Begins i raw argv =>
      match threads p !! i with
      | Some (mkThread st out Idle Next as t) =>
          let '(sv, t, is_write) := begin_command raw (psv p) t argv in
          mkPool sv (<[i := t]> (threads p))
            (if is_write then applied p ++ [(i, argv)] else applied p) (logged_by p)
      | _ => p
      end
  | Advances i =>
      match threads p !! i with
      | Some t =>
          let '(sv, t') := advance (psv p) t in
          mkPool sv (<[i := t']> (threads p)) (applied p)
            (match duty t with Logging argv _ => logged_by p ++ [(i, argv)] | _ => logged_by p end)
      | None => p
      end
  | Reaper => mkPool (reaper_turn (psv p)) (threads p) (applied p) (logged_by p)
  end.

Definition moves (p : Pool) (ms : list Move) : Pool := foldl move p ms.

(** ** Undisturbed, a thread does what the sequential loop does *)

(** A thread has at most two steps left after the execution. *)
Definition settle (sv : Server) (t : Thread) : Server * Thread :=
  let '(sv, t) := advance sv t in advance sv t.

Lemma settle_handle_command raw sv t argv :
  let '(sv1, t1, _) := begin_command raw sv t argv in
  let '(sv2, t2) := settle sv1 t1 in
  (sv2, tstate t2, outbuf t2, tflow t2) = handle_command raw sv (tstate t) argv (outbuf t) ∧ duty t2 = Idle.
Proof.
  unfold begin_command, handle_command, settle. set (nm := upper (argv !!! 0%nat)).
  destruct (bool_decide (nm = lit "SYNC") || _); [by destruct raw|].
  destruct (negb (authenticated _) && _); [done|]. destruct (read_only sv && _); [done|].
  destruct (execute _ _ _ _ _) as [[[[w' st'] out'] q] is_write].
  destruct is_write; cbn [andb]; [|by destruct q].
  cbn [advance duty tstate outbuf]. set (sv1 := set_world sv w').
  destruct (bool_decide (is_Some (aof sv1)) || has_replicas sv1); [|by destruct q].
  unfold log_write. destruct (aof sv1) as [file|]; [|by destruct q].
  destruct (aof_append file _ argv) as [file' [e|]]; by destruct q.
Qed.

End threads.

(** ** What every schedule keeps *)

(** The writes of one thread, in their order. *)
Definition by_thread (i : nat) (l : list (nat * list bytes)) : list (list bytes) :=
  (filter (fun x => x.1 = i) l).*2.

(** The write a thread has applied and not yet appended. *)
Definition unlogged (t : option Thread) : list (list bytes) :=
  match t with Some (mkThread _ _ (Logging argv _) _) => [argv] | _ => [] end.

Lemma by_thread_app i l1 l2 : by_thread i (l1 ++ l2) = by_thread i l1 ++ by_thread i l2.
Proof. unfold by_thread. by rewrite filter_app, fmap_app. Qed.

Lemma by_thread_one i j argv : by_thread i [(j, argv)] = if decide (j = i) then [argv] else [].
Proof. unfold by_thread. rewrite filter_cons, filter_nil. simpl. by repeat case_decide. Qed.

(** Lists with the same subsequence for every thread have the same elements. *)
Lemma by_thread_Permutation l1 l2 : (∀ i, by_thread i l1 = by_thread i l2) → l1 ≡ₚ l2.
Proof.
  intros H. apply (Permutation_count_occ (decide_rel eq)). intros [i argv].
  assert (∀ l, count_occ (decide_rel eq) l (i, argv) = count_occ (decide_rel eq) (by_thread i l) argv) as Hc.
  { induction l as [|[j a] l IH]; [done|]. change ((j, a) :: l) with ([(j, a)] ++ l).
    rewrite by_thread_app, by_thread_one, !count_occ_app, IH. f_equal. simpl.
    destruct (decide (j = i)) as [->|Hne]; simpl; repeat case_match; try done; congruence. }
  by rewrite !Hc, H.
Qed.

Section schedules.
Context {HO : HashOrder} {FT : FloatText}.
Context (now : Z).
Implicit Types (sv : Server) (t : Thread) (argv : list bytes) (p : Pool).

Lemma begin_command_ok raw sv t argv :
  steady now (world sv) →
  let '(sv', t', is_write) := begin_command raw sv t argv in
  steady now (world sv') ∧ aof sv' = aof sv ∧ aof_fault sv' = aof_fault sv ∧
  (if is_write : bool
   then is_write_command (upper (argv !!! 0%nat)) = true ∧ unlogged (Some t') = [argv] ∧
        store (world sv') = store (dispatch argv (tstate t) (config sv) (world sv)).1
   else same_view now ⟦store (world sv)⟧ ⟦store (world sv')⟧ ∧ unlogged (Some t') = []).
Proof.
  intros Hs. pose proof Hs as [Hr Hc]. unfold begin_command. set (nm := upper (argv !!! 0%nat)).
  destruct (bool_decide (nm = lit "SYNC") || _); [by destruct raw|].
  destruct (negb (authenticated _) && _); [done|]. destruct (read_only sv && _); [done|].
  pose proof (execute_ok 0 ltac:(lia) (world sv) (config sv) (tstate t) argv (outbuf t) Hr) as He.
  pose proof (execute_store now sv (tstate t) argv (outbuf t) Hs) as Hst.
  destruct (execute _ _ _ _ _) as [[[[w' st'] out'] q] is_write].
  destruct He as (Hr' & Hc' & _ & Hwr & Hex).
  assert (steady now w') as Hs' by (split; [done|by rewrite Hc']).
  destruct is_write; cbn [world set_world aof aof_fault]; split_and!; try done; [by apply Hwr|].
  eapply expires_only_view; [exact Hc|by apply Hex].
Qed.

Lemma advance_ok sv t file :
  (∀ n, aof_fault sv n = None) → aof sv = Some (aof_open file) →
  let '(sv', t') := advance sv t in
  world sv' = world sv ∧ aof_fault sv' = aof_fault sv ∧ unlogged (Some t') = [] ∧
  aof sv' = Some (aof_open (file ++ encoded (unlogged (Some t)))).
Proof.
  intros Hf Ha. destruct t as [st out [|argv quit|argv quit|snapshot] fl]; unfold advance; cbn [duty unlogged];
    change (encoded []) with (@nil byte); rewrite ?app_nil_r.
  - done.
  - rewrite Ha, bool_decide_eq_true_2 by eauto. cbn [orb].
    pose proof (aof_append_ok (aof_open file) (aof_fault sv (tick (world sv))) argv) as Happ.
    destruct (aof_append _ _ argv) as [[disk buf] e]. destruct Happ as (_ & _ & Hd & He).
    specialize (He (Hf _)). subst e. destruct (Hd eq_refl) as [Hdisk Hbuf].
    cbn [on_disk buffered aof_open app] in *. split_and!; [done..|]. cbn [aof set_aof].
    unfold aof_open. rewrite Hdisk, Hbuf. unfold encoded. simpl. by rewrite app_nil_r.
  - by destruct (has_replicas sv).
  - unfold add_replica_with_snapshot. by destruct (link_down sv _ _).
Qed.

(** *** The invariant *)

Definition sendable_move (m : Move) : Prop :=
  match m with Begins _ _ argv => sendable argv | _ => True end.

Definition write_record (x : nat * list bytes) : Prop :=
  sendable x.2 ∧ is_write x.2.

(** From [sv0], whose log held [file]: the data is that of the writes in the
    order in which they were applied, the log has the records in the order in
    which they were appended, and each thread is behind by one record at most. *)
Definition in_step (sv0 : Server) (file : bytes) (p : Pool) : Prop :=
  steady now (world (psv p)) ∧ (∀ n, aof_fault (psv p) n = None) ∧
  (∀ cfg st w, alike now (world sv0) w →
     let r := dispatch_all cfg st (applied p).*2 w in alike now (world (psv p)) r.1 ∧ r.2 = st) ∧
  aof (psv p) = Some (aof_open (file ++ encoded (logged_by p).*2)) ∧
  (∀ i, by_thread i (applied p) = by_thread i (logged_by p) ++ unlogged (threads p !! i)) ∧
  Forall write_record (applied p).

Lemma in_step_begins sv0 file p i raw argv :
  sendable argv → in_step sv0 file p → in_step sv0 file (move p (Begins i raw argv)).
Proof.
  intros Hsend H. pose proof H as (Hs & Hf & Hd & Ha & Hb & Hw). cbn [move].
  destruct (threads p !! i) as [[st out [| | |] []]|] eqn:Hi; try exact H.
  pose proof (begin_command_ok raw (psv p) (mkThread st out Idle Next) argv Hs) as Hok.
  destruct (begin_command _ _ _ _) as [[sv' t'] wr]. destruct Hok as (Hs' & Ha' & Hf' & Hcase).
  cbn [tstate] in Hcase. unfold in_step. cbn [psv threads applied logged_by]. rewrite Ha', Hf'.
  destruct wr.
  - destruct Hcase as (Hwr & Hun & Hst). split_and!; [done|done| |done| |].
    + intros cfg st0 w Hal. rewrite fmap_app, dispatch_all_app. destruct (Hd cfg st0 w Hal) as [Hal1 Hst1].
      destruct (dispatch_all cfg st0 (applied p).*2 w) as [w1 st1]. cbn [fst snd] in *. subst st1.
      by eapply write_alike.
    + intros j. rewrite by_thread_app, by_thread_one, Hb. destruct (decide (i = j)) as [<-|Hne].
      * rewrite lookup_insert_eq, Hi, Hun. by rewrite app_nil_r.
      * by rewrite lookup_insert_ne, app_nil_r.
    + apply Forall_app. split; [done|]. by constructor.
  - destruct Hcase as [Hv Hun]. split_and!; [done|done| |done| |done].
    + intros cfg st0 w Hal. destruct (Hd cfg st0 w Hal) as [Hal1 Hst1]. split; [|done]. by eapply alike_store.
    + intros j. rewrite Hb. destruct (decide (i = j)) as [<-|Hne].
      * by rewrite lookup_insert_eq, Hi, Hun.
      * by rewrite lookup_insert_ne.
Qed.

Lemma in_step_advances sv0 file p i : in_step sv0 file p → in_step sv0 file (move p (Advances i)).
Proof.
  intros H. pose proof H as (Hs & Hf & Hd & Ha & Hb & Hw). cbn [move].
  destruct (threads p !! i) as [t|] eqn:Hi; [|exact H].
  pose proof (advance_ok (psv p) t _ Hf Ha) as Hok. destruct (advance (psv p) t) as [sv' t'].
  destruct Hok as (Hw' & Hf' & Hun & Ha').
  assert (match duty t with Logging argv _ => logged_by p ++ [(i, argv)] | _ => logged_by p end =
    logged_by p ++ ((i,.) <$> unlogged (Some t))) as ->.
  { destruct t as [? ? [] ?]; simpl; by rewrite ?app_nil_r. }
  unfold in_step. cbn [psv threads applied logged_by]. rewrite Hw', Hf'. split_and!; try done.
  - rewrite Ha', fmap_app, encoded_app, <- app_assoc. do 4 f_equal. by destruct t as [? ? [] ?].
  - intros j. rewrite Hb, by_thread_app. destruct (decide (i = j)) as [<-|Hne].
    + rewrite lookup_insert_eq, Hi, Hun, app_nil_r. f_equal.
      destruct t as [? ? [] ?]; cbn [unlogged fmap list_fmap]; try done. by rewrite by_thread_one, decide_True.
    + rewrite lookup_insert_ne by done. f_equal.
      destruct t as [? ? [] ?]; cbn [unlogged fmap list_fmap]; try by rewrite app_nil_r.
      by rewrite by_thread_one, decide_False, app_nil_r.
Qed.

Lemma in_step_reaper sv0 file p : in_step sv0 file p → in_step sv0 file (move p Reaper).
Proof.
  intros (Hs & Hf & Hd & Ha & Hb & Hw). unfold in_step. cbn [move psv threads applied logged_by].
  destruct (server_step_logged now (psv p) _ Hs (step_reaper _)) as (Hs' & _).
  split_and!; try done. intros cfg st w Hal. destruct (Hd cfg st w Hal) as [Hal1 Hst1]. split; [|done].
  eapply alike_store; [exact Hal1|done|]. eapply expires_only_view; [apply Hs|].
  by apply (reaper_expires 0); [lia|apply Hs].
Qed.

Lemma in_step_moves sv0 file p ms :
  Forall sendable_move ms → in_step sv0 file p → in_step sv0 file (moves p ms).
Proof.
  intros Hms. revert p. induction Hms as [|m ms Hm _ IH]; intros p H; [done|].
  cbn [moves foldl]. apply IH. destruct m; [by apply in_step_begins|by apply in_step_advances|by apply in_step_reaper].
Qed.

Lemma in_step_start sv0 ts file :
  steady now (world sv0) → (∀ n, aof_fault sv0 n = None) → aof sv0 = Some (aof_open file) →
  (∀ i t, ts !! i = Some t → duty t = Idle) → in_step sv0 file (mkPool sv0 ts [] []).
Proof.
  intros Hs Hf Ha Hidle. split_and!; [done|done| | | |done].
  - by intros cfg st w Hal.
  - cbn [psv logged_by fmap list_fmap]. change (encoded []) with (@nil byte). by rewrite app_nil_r.
  - intros i. cbn [threads]. destruct (ts !! i) as [[st out d fl]|] eqn:Hi; [|done].
    specialize (Hidle i _ Hi). simpl in Hidle. by subst d.
Qed.

(** All threads at rest: nothing is left to be logged. *)
Definition at_rest p : Prop := ∀ i t, threads p !! i = Some t → duty t = Idle.

Lemma at_rest_unlogged p i : at_rest p → unlogged (threads p !! i) = [].
Proof.
  intros Hr. destruct (threads p !! i) as [[st out d fl]|] eqn:Hi; [|done].
  specialize (Hr i _ Hi). simpl in Hr. by subst d.
Qed.

(** The data a restart recovers from a log of writes. *)
Lemma bootstrap_log (log : list (list bytes)) cfg router snap faults links w0 cfg' w :
  Forall (fun argv => sendable argv ∧ is_write argv) log →
  appendonly cfg = true → maxmemory cfg = 0 → (∀ i, clock w0 i = now) → steady now w → ⟦store w⟧ = ∅ →
  same_view now ⟦store (world (bootstrap router cfg (Some (encoded log)) snap faults links w0))⟧
    ⟦store (dispatch_all cfg' internal log w).1⟧.
Proof.
  intros Hlog Hon Hmm Hclk Hsw Hew. apply Forall_and in Hlog as [Hsend Hwr].
  destruct (fresh_steady now cfg router w0 Hmm Hclk) as [Hsw1 Hew1].
  unfold bootstrap, load_aof, replay_file. set (w1 := set_store w0 _) in *. rewrite Hon. cbn [andb].
  rewrite bool_decide_eq_true_2 by done.
  pose proof (replay_loop_encoded cfg log [] [] internal 0 (S (length (encoded log))) w1 Hsend eq_refl) as Hr.
  rewrite app_nil_r in Hr. rewrite app_nil_l in Hr. cbn [length] in Hr. rewrite Hr by lia. cbn [world].
  apply dispatch_all_alike; [done|]. split_and!; [done..|]. by rewrite Hew1, Hew.
Qed.


(** *** One write per key at a time *)

(** A thread begins a write only when no other thread is between the store and
    the log with a write of one of its keys. *)
Fixpoint keyed (p : Pool) (ms : list Move) : Prop :=
  match ms with
  | [] => True
  | m :: ms =>
      match m with
      | Begins _ _ argv =>
          is_write argv → ∀ j argv', argv' ∈ unlogged (threads p !! j) → independent argv argv'
      | _ => True
      end ∧ keyed (move p m) ms
  end.

(** The writes that are still to be logged can be logged in any order: the
    writes applied do what the logged ones and then those in flight do. *)
Definition orderly p (flight : list (nat * list bytes)) : Prop :=
  (∀ i, by_thread i flight = unlogged (threads p !! i)) ∧ Forall write_record flight ∧
  (∀ x y, x ∈ flight → y ∈ flight → x.1 ≠ y.1 → independent x.2 y.2) ∧
  Forall write_record (logged_by p) ∧
  (∀ cfg st w, steady now w →
     alike now (dispatch_all cfg st (applied p).*2 w).1 (dispatch_all cfg st (logged_by p ++ flight).*2 w).1).

Lemma by_thread_elem i argv l : argv ∈ by_thread i l ↔ (i, argv) ∈ l.
Proof.
  unfold by_thread. rewrite list_elem_of_fmap. setoid_rewrite list_elem_of_filter.
  split; [intros ([j a] & -> & <- & H); done|]. intros H. by exists (i, argv).
Qed.

Lemma writes_only l : Forall write_record l → Forall is_write l.*2.
Proof. intros Hl. apply Forall_fmap. eapply Forall_impl; [exact Hl|]. by intros x [_ ?]. Qed.

Lemma orderly_begins sv0 file p flight i raw argv :
  sendable argv → in_step sv0 file p → orderly p flight → keyed p [Begins i raw argv] →
  ∃ flight', orderly (move p (Begins i raw argv)) flight'.
Proof.
  intros Hsend (Hs & _ & _ & _ & _ & Hwa) (Hfl & Hwf & Hind & Hwl & Hal) [Hkey _]. cbn [move].
  destruct (threads p !! i) as [[st out [| | |] []]|] eqn:Hi; try by exists flight.
  pose proof (begin_command_ok raw (psv p) (mkThread st out Idle Next) argv Hs) as Hok.
  destruct (begin_command _ _ _ _) as [[sv' t'] wr]. destruct Hok as (_ & _ & _ & Hcase). destruct wr; cycle 1.
  - destruct Hcase as [_ Hun]. exists flight. split_and!; try done. intros j. cbn [threads]. rewrite Hfl.
    destruct (decide (i = j)) as [<-|Hne]; [by rewrite lookup_insert_eq, Hi|by rewrite lookup_insert_ne].
  - destruct Hcase as (Hwr & Hun & _). exists (flight ++ [(i, argv)]).
    assert (∀ x, x ∈ flight → independent argv x.2) as Hnew.
    { intros [j a] Hx. apply (Hkey Hwr j). rewrite <- Hfl. by apply by_thread_elem. }
    split_and!; [| | |done|].
    + intros j. cbn [threads]. rewrite by_thread_app, by_thread_one, Hfl.
      destruct (decide (i = j)) as [<-|Hne]; [by rewrite lookup_insert_eq, Hi, Hun|].
      by rewrite lookup_insert_ne, app_nil_r.
    + apply Forall_app. split; [done|]. by constructor.
    + intros x y [Hx| ->%list_elem_of_singleton]%elem_of_app [Hy| ->%list_elem_of_singleton]%elem_of_app Hne;
        [by apply Hind|by apply independent_sym, Hnew|by apply Hnew|done].
    + intros cfg st0 w Hw. cbn [applied logged_by]. rewrite app_assoc.
      rewrite (fmap_app snd (applied p)), (fmap_app snd (logged_by p ++ flight)), !dispatch_all_app. specialize (Hal cfg st0 w Hw).
      destruct (dispatch_all_alike now (applied p).*2 cfg cfg st0 w w (writes_only _ Hwa) (alike_refl now w Hw)) as [_ H1].
      destruct (dispatch_all_alike now (logged_by p ++ flight).*2 cfg cfg st0 w w
        ltac:(apply writes_only; by apply Forall_app) (alike_refl now w Hw)) as [_ H2].
      destruct (dispatch_all cfg st0 (applied p).*2 w) as [w1 st1],
        (dispatch_all cfg st0 (logged_by p ++ flight).*2 w) as [w2 st2]. cbn [fst snd] in *. subst st1 st2.
      apply dispatch_all_alike; [by constructor|done].
Qed.

Lemma orderly_advances p flight i : orderly p flight → ∃ flight', orderly (move p (Advances i)) flight'.
Proof.
  intros H. pose proof H as (Hfl & Hwf & Hind & Hwl & Hal). cbn [move].
  destruct (threads p !! i) as [t|] eqn:Hi; [|by exists flight].
  assert (unlogged (Some (advance (psv p) t).2) = []) as Hun.
  { destruct t as [st out [] fl]; unfold advance; cbn [duty]; try done.
    repeat case_match; done. }
  destruct (advance (psv p) t) as [sv' t'] eqn:Hadv. cbn [snd] in Hun.
  assert (∀ flight', (∀ j, by_thread j flight' = if decide (i = j) then [] else by_thread j flight) →
    ∀ j, by_thread j flight' = unlogged (<[i := t']> (threads p) !! j)) as Hth.
  { intros fl' Hfl' j. rewrite Hfl'. destruct (decide (i = j)) as [<-|Hne];
      [by rewrite lookup_insert_eq|by rewrite lookup_insert_ne, Hfl]. }
  destruct (unlogged (Some t)) as [|argv l] eqn:Hut.
  { exists flight. split_and!; [|done|done|by destruct (duty t) eqn:Hd; destruct t; simpl in *; subst|].
    - apply Hth. intros j. case_decide as Hj; [|done]. subst j. by rewrite Hfl, Hi.
    - by destruct t as [? ? [] ?]. }
  destruct t as [st out [|argv0 q|argv0 q|sn] fl]; simplify_eq/=.
  assert ((i, argv) ∈ flight) as Hin by (apply by_thread_elem; rewrite Hfl, Hi; simpl; by left).
  apply list_elem_of_split in Hin as (l1 & l2 & ->).
  assert (by_thread i l1 = [] ∧ by_thread i l2 = []) as [H1 H2].
  { specialize (Hfl i). rewrite Hi, by_thread_app in Hfl. change ((i, argv) :: l2) with ([(i, argv)] ++ l2) in Hfl.
    rewrite by_thread_app, by_thread_one, decide_True in Hfl by done. cbn [unlogged] in Hfl.
    apply (f_equal length) in Hfl. rewrite !length_app in Hfl. simpl in Hfl.
    split; apply length_zero_iff_nil; lia. }
  assert (∀ x, x ∈ l1 → independent argv x.2) as Hpast.
  { intros [j a] Hx. apply (Hind (i, argv) (j, a)); [set_solver|set_solver|]. simpl. intros ->.
    apply by_thread_elem in Hx. rewrite H1 in Hx. by apply elem_of_nil in Hx. }
  apply Forall_app in Hwf as [Hw1 [[Hsend Hwr] Hw2]%Forall_cons].
  exists (l1 ++ l2). split_and!.
  - apply Hth. intros j. rewrite !by_thread_app. case_decide as Hj; [subst j; by rewrite H1, H2|].
    change ((i, argv) :: l2) with ([(i, argv)] ++ l2).
    by rewrite by_thread_app, by_thread_one, decide_False by done.
  - by apply Forall_app.
  - intros x y Hx Hy. apply Hind; set_solver.
  - apply Forall_app. split; [done|]. by constructor.
  - intros cfg st0 w Hw. cbn [applied logged_by]. eapply alike_trans; [by apply Hal|].
    rewrite !fmap_app, !fmap_cons, <- !app_assoc. cbn [snd fmap list_fmap app].
    rewrite !(dispatch_all_app _ _ (logged_by p).*2).
    destruct (dispatch_all_alike now (logged_by p).*2 cfg cfg st0 w w (writes_only _ Hwl) (alike_refl now w Hw))
      as [(Hs1 & _) Hst1].
    destruct (dispatch_all cfg st0 (logged_by p).*2 w) as [w1 st1]. cbn [fst snd] in *. subst st1.
    pose proof (dispatch_past now argv l1.*2 cfg st0 w1 Hwr (writes_only _ Hw1)
      ltac:(by apply Forall_fmap, Forall_forall) Hs1) as Hp.
    pose proof (dispatch_all_app cfg st0 (argv :: l1.*2) l2.*2 w1) as E1.
    pose proof (dispatch_all_app cfg st0 (l1.*2 ++ [argv]) l2.*2 w1) as E2.
    rewrite <- app_assoc in E2. cbn [app] in E1, E2. rewrite E1, E2.
    destruct (dispatch_all_alike now (argv :: l1.*2) cfg cfg st0 w1 w1
      ltac:(constructor; [done|by apply writes_only]) (alike_refl now w1 Hs1)) as [_ Hst1].
    destruct (dispatch_all_alike now (l1.*2 ++ [argv]) cfg cfg st0 w1 w1
      ltac:(apply Forall_app; split; [by apply writes_only|by constructor]) (alike_refl now w1 Hs1)) as [_ Hst2].
    destruct (dispatch_all cfg st0 (argv :: l1.*2) w1) as [w2 st2],
      (dispatch_all cfg st0 (l1.*2 ++ [argv]) w1) as [w3 st3]. cbn [fst snd] in *. subst st2 st3.
    destruct Hp as (? & ? & Hv). apply dispatch_all_alike; [by apply writes_only|]. split_and!; [done..|by symmetry].
Qed.

Lemma orderly_moves sv0 file p ms :
  Forall sendable_move ms → keyed p ms → in_step sv0 file p → (∃ flight, orderly p flight) →
  ∃ flight, orderly (moves p ms) flight.
Proof.
  intros Hms. revert p. induction Hms as [|m ms Hm _ IH]; intros p Hk Hstep [flight Ho]; [by exists flight|].
  destruct Hk as [Hk Hks]. cbn [moves foldl]. destruct m as [i raw argv|i|].
  - apply IH; [done|by apply in_step_begins|]. by eapply orderly_begins.
  - apply IH; [done|by apply in_step_advances|]. by eapply orderly_advances.
  - apply IH; [done|by apply in_step_reaper|by exists flight].
Qed.

(** Concurrency does no harm to recovery as long as writes of one key do not
    overlap.  Threads serve commands with their steps interleaved in any way, but
    a thread begins a write only when no other thread is between the store and
    the log with a write of a common key.  When all have come to rest, a restart
    from the log shows exactly what is in memory. *)
Theorem keyed_writes_recover sv0 ts ms cfg router snap faults links w0 :
  steady now (world sv0) → ⟦store (world sv0)⟧ = ∅ → aof sv0 = Some (aof_open []) →
  (∀ n, aof_fault sv0 n = None) → (∀ i t, ts !! i = Some t → duty t = Idle) → Forall sendable_move ms →
  keyed (mkPool sv0 ts [] []) ms →
  appendonly cfg = true → maxmemory cfg = 0 → (∀ i, clock w0 i = now) →
  let p := moves (mkPool sv0 ts [] []) ms in
  (∀ i t, threads p !! i = Some t → duty t = Idle) →
  ∃ file, aof (psv p) = Some (aof_open file) ∧
    let sv' := bootstrap router cfg (Some file) snap faults links w0 in
    same_view now ⟦store (world sv')⟧ ⟦store (world (psv p))⟧.
Proof.
  intros Hs0 He0 Ha0 Hf Hidle Hms Hkey Hon Hmm Hclk p Hrest.
  pose proof (in_step_start sv0 ts [] Hs0 Hf Ha0 Hidle) as H0.
  destruct (in_step_moves sv0 [] _ ms Hms H0) as (_ & _ & Hd & Ha & _ & _).
  destruct (orderly_moves sv0 [] (mkPool sv0 ts [] []) ms Hms Hkey H0) as (flight & Hfl & _ & _ & Hwl & Hal).
  { exists []. split_and!; [|done|by intros x y Hx%elem_of_nil|done|].
    - intros i. symmetry. by apply (at_rest_unlogged (mkPool sv0 ts [] [])).
    - intros cfg' st w Hw. by apply alike_refl. }
  fold p in Hd, Ha, Hfl, Hwl, Hal. rewrite app_nil_l in Ha.
  assert (flight = []) as ->.
  { destruct flight as [|[i argv] flight]; [done|]. exfalso. apply (elem_of_nil argv).
    rewrite <- (at_rest_unlogged p i Hrest), <- Hfl. apply by_thread_elem. by left. }
  exists (encoded (logged_by p).*2). split; [done|]. cbv zeta. rewrite app_nil_r in Hal.
  destruct (Hd cfg internal (world sv0) (alike_refl now _ Hs0)) as [(_ & _ & Hmem) _].
  destruct (Hal cfg internal (world sv0) Hs0) as (_ & _ & Hord). rewrite Hmem, Hord.
  apply bootstrap_log; [by apply Forall_fmap|done..].
Qed.

End schedules.

(** ** Examples *)

#[local] Existing Instance canonical_order.
#[local] Existing Instance demo_float_text.

Definition idle_thread (id : Z) : Thread := mkThread (conn_new id true) [] Idle Next.

Definition two_threads : gmap nat Thread := {[1%nat := idle_thread 1; 2%nat := idle_thread 2]}.

Lemma two_threads_idle i t : two_threads !! i = Some t → duty t = Idle.
Proof. unfold two_threads. by intros [[_ <-]|[_ [_ <-]%lookup_singleton_Some]]%lookup_insert_Some. Qed.

Definition set_k (v : string) : list bytes := [lit "SET"; lit "k"; lit v].

(** An empty server with or without a log. *)
Definition race_server (log : option Aof) : Server :=
  mkServer (fresh_world 1) (demo_config None) log (fun _ => None) [] (fun _ _ => false) false.

(** Both writes are applied, then the second thread is first at the log. *)
Definition racing_writes : list Move :=
  [Begins 1 true (set_k "1"); Begins 2 true (set_k "2");
   Advances 2; Advances 2; Advances 1; Advances 1].


(** The same race on two keys. *)
Definition set_l (v : string) : list bytes := [lit "SET"; lit "l"; lit v].

Definition racing_keys : list Move :=
  [Begins 1 true (set_k "1"); Begins 2 true (set_l "2");
   Advances 2; Advances 2; Advances 1; Advances 1].

Lemma racing_keys_keyed : keyed (mkPool (race_server (Some (aof_open []))) two_threads [] []) racing_keys.
Proof.
  assert (∀ j argv', argv' ∈ unlogged (two_threads !! j) → False) as Hnone.
  { intros j argv' Hin.
    pose proof (at_rest_unlogged (mkPool (race_server None) two_threads [] []) j two_threads_idle) as Hu.
    cbn [threads] in Hu. rewrite Hu in Hin. by apply elem_of_nil in Hin. }
  split; [by intros _ j argv' Hin%Hnone|]. split; [|by repeat split].
  assert (∃ q st out fl, threads (move (mkPool (race_server (Some (aof_open []))) two_threads [] [])
    (Begins 1 true (set_k "1"))) = <[1%nat := mkThread st out (Logging (set_k "1") q) fl]> two_threads) as
    (q & st & out & fl & ->) by (do 4 eexists; vm_compute; reflexivity).
  intros _ j argv'. destruct (decide (1%nat = j)) as [<-|Hne]; cycle 1.
  { rewrite lookup_insert_ne by done. by intros Hin%Hnone. }
  rewrite lookup_insert_eq. intros ->%list_elem_of_singleton. split_and!; [vm_compute; reflexivity..|].
  intros k ->%list_elem_of_singleton Hk%list_elem_of_singleton. discriminate Hk.
Qed.

Lemma keyed_writes_recover_witness :
  let p := moves (mkPool (race_server (Some (aof_open []))) two_threads [] []) racing_keys in
  applied p ≠ logged_by p ∧
  ∃ file, aof (psv p) = Some (aof_open file) ∧
    let sv' := bootstrap FlatMap.length_hasher (demo_config None) (Some file) None (fun _ => None)
                 (fun _ _ => false) (fresh_world 1) in
    Db.find 10 ⟦store (world sv')⟧ (lit "k") = Db.find 10 ⟦store (world (psv p))⟧ (lit "k").
Proof.
  split; [vm_compute; discriminate|].
  destruct (keyed_writes_recover 10 (race_server (Some (aof_open []))) two_threads racing_keys
    (demo_config None) FlatMap.length_hasher None (fun _ => None) (fun _ _ => false) (fresh_world 1))
    as (file & Hf & Hview).
  - split; [apply reach_new|done].
  - vm_compute. reflexivity.
  - done.
  - done.
  - exact two_threads_idle.
  - repeat constructor; try done; by compute.
  - exact racing_keys_keyed.
  - done.
  - done.
  - done.
  - intros i t. assert (map_Forall (fun _ t => match duty t with Idle => true | _ => false end = true)
      (threads (moves (mkPool (race_server (Some (aof_open []))) two_threads [] []) racing_keys))) as H
      by (refine (bool_decide_unpack _ _); vm_compute; exact I).
    intros Hi. specialize (H i t Hi). simpl in H. clear Hi. destruct (duty t); [reflexivity|discriminate..].
  - exists file. split; [exact Hf|]. exact (Hview (lit "k")).
Defined.
