(* ===== verification/Grain.v ===== *)
(** * Operations, log and replicas of several threads, interleaved
    ([crates/server/src/conn.rs], lines 99 to 165)

    [Interleave.v] cuts the service of a command at the locks of the log and of
    the replicas, [Steps.v] at the locks of the shards.  Here both are together: a
    thread executes its command operation by operation, then appends it, then
    propagates it, the reaper purges one shard after the other, and all of these
    steps come in any order.  As long as a command begins only when no command
    that uses one of its keys is being executed, the execution of a command might
    as well be one step. *)
From S2P Require Import Prelude Std Map Eviction Value Shard Spec ShardOk Store StoreOk StoreProps.
From S2P Require Import Resp RespOk Reply RespProps Dump Config Commands CommandsOk Persistence Conn ConnOk ConnProps.
From S2P Require Import Uring Effects Replica View Durable Commute Snapshot Interleave Steps Serial.
Local Open Scope Z_scope.

(** ** The service of a command *)

(** What a thread is doing: it waits between two steps of the loop, or it is in
    the middle of the execution of a command. *)
Inductive Task :=
  | Waits (t : Thread)
  | Executes (argv : list bytes) (p : Prog Thread).

(** The server, its threads, and the sweep of the reaper when it is awake. *)
Record Crew := mkCrew {
  csv : Server;
  tasks : gmap nat Task;
  sweep : option (Prog nat)
}.

Inductive Action :=
  | Take (i : nat) (raw : bool) (argv : list bytes)
  | Work (i : nat)
  | Wake
  | Sweep.

Section crew.
Context {HO : HashOrder} {FT : FloatText}.
Implicit Types (sv : Server) (t : Thread) (argv : list bytes) (c : Crew).

(** [execute], step by step *)
Definition execute_steps (cfg : Config) (st : ConnState) argv (out : bytes)
    : Prog (ConnState * bytes * bool * bool) :=
  match serve_fast st argv out with
  | Some m => '(out, is_write) ← step m; mret (st, out, false, is_write)
  | None =>
      '(st, o) ← program argv st cfg;
      mret (st, encode (reply o) out (resp3 st), quit o, persist o)
  end.

(** The loop body up to the end of the execution. *)
Definition begin_steps (raw : bool) (cfg : Config) (ro : bool) t argv : Prog Thread :=
  let st := tstate t in
  let out := outbuf t in
  let nm := upper (argv !!! 0%nat) in
  if bool_decide (nm = lit "SYNC") || bool_decide (nm = lit "PSYNC") then
    if raw then
      '(now, n) ← step now_count;
      snapshot ← dump_shards now n;
      mret (mkThread st out (Registering snapshot) Next)
    else mret (mkThread st (Resp.write_error out (lit "ERR replication is not supported over TLS")) Idle Closed)
  else if negb (authenticated st) && negb (is_preauth_ok nm)
  then mret (mkThread st (Resp.write_error out (lit "NOAUTH Authentication required.")) Idle Next)
  else if ro && is_write_command nm
  then mret (mkThread st (Resp.write_error out
               (lit "READONLY You can't write against a read only replica.")) Idle Next)
  else
    '(st, out, quit, is_write) ← execute_steps cfg st argv out;
    mret (if (is_write : bool) then mkThread st out (Logging argv quit) Next
          else mkThread st out Idle (if (quit : bool) then Quit else Next)).

Definition act c (a : Action) : Crew :=
  match a with
  | Take i raw argv =>
      match tasks c !! i with
      | Some (Waits (mkThread _ _ Idle Next as t)) =>
          mkCrew (csv c)
            (<[i := Executes argv (begin_steps raw (config (csv c)) (read_only (csv c)) t argv)]> (tasks c)) (sweep c)
      | _ => c
      end
  | Work i =>
      match tasks c !! i with
      | None => c
      | Some (Waits t) =>
          let '(sv, t) := advance (csv c) t in mkCrew sv (<[i := Waits t]> (tasks c)) (sweep c)
      | Some (Executes argv (Done t)) => mkCrew (csv c) (<[i := Waits t]> (tasks c)) (sweep c)
      | Some (Executes argv (Do f k)) =>
          let '(w, r) := f (world (csv c)) in
          mkCrew (set_world (csv c) w) (<[i := Executes argv (k r)]> (tasks c)) (sweep c)
      end
  | Wake => match sweep c with None => mkCrew (csv c) (tasks c) (Some purge_steps) | Some _ => c end
  | Sweep =>
      match sweep c with
      | None => c
      | Some (Done _) => mkCrew (csv c) (tasks c) None
      | Some (Do f k) =>
          let '(w, r) := f (world (csv c)) in mkCrew (set_world (csv c) w) (tasks c) (Some (k r))
      end
  end.

Definition acts c (l : list Action) : Crew := foldl act c l.

(** ** Without a break, the program is the step of the coarser model *)

Definition logs t : bool := match duty t with Logging _ _ => true | _ => false end.

Lemma run_execute cfg st argv out w :
  run (execute_steps cfg st argv out) w =
    (let '(w', st', out', q, is_write) := execute w cfg st argv out in (w', (st', out', q, is_write))).
Proof.
  unfold execute_steps, execute. destruct (serve_fast st argv out) as [m|]; rewrite run_bind;
    unfold mbind at 1, M_bind at 1.
  - rewrite run_step. by destruct (m w) as [w' [out' b]].
  - rewrite (program_runs argv st cfg w). by destruct (dispatch argv st cfg w) as [w' [st' o]].
Qed.

Lemma run_begin raw sv t argv :
  begin_command raw sv t argv =
    (let '(w, t') := run (begin_steps raw (config sv) (read_only sv) t argv) (world sv) in
     (set_world sv w, t', logs t')).
Proof.
  unfold begin_command, begin_steps. set (nm := upper (argv !!! 0%nat)).
  assert (set_world sv (world sv) = sv) as Hsv by by destruct sv.
  destruct (bool_decide (nm = lit "SYNC") || _).
  { destruct raw; [|by cbn; rewrite Hsv]. rewrite run_bind. unfold mbind at 1, M_bind at 1. rewrite run_step.
    cbn [now_count call]. rewrite run_bind. unfold mbind at 1, M_bind at 1.
    pose proof (run_dump (clock (world sv) (tick (world sv))) (set_store (world sv) (store (world sv)))) as Hd.
    cbn [set_store store] in Hd. by rewrite Hd. }
  destruct (negb (authenticated _) && _); [by cbn; rewrite Hsv|].
  destruct (read_only sv && _); [by cbn; rewrite Hsv|].
  rewrite run_bind. unfold mbind at 1, M_bind at 1. rewrite run_execute.
  destruct (execute _ _ _ _ _) as [[[[w' st'] out'] q] []]; done.
Qed.

End crew.

(** ** The coarser schedule *)

Section refinement.
Context {HO : HashOrder} {FT : FloatText}.
Context (now : Z).
Implicit Types (sv : Server) (t : Thread) (argv : list bytes) (c : Crew) (q : Pool).

(** A command is executed when it is taken; the reaper is not there. *)
Definition coarse c (a : Action) : list Move :=
  match a with
  | Take i raw argv => match tasks c !! i with Some (Waits _) => [Begins i raw argv] | _ => [] end
  | Work i => match tasks c !! i with Some (Waits _) => [Advances i] | _ => [] end
  | Wake | Sweep => []
  end.

Fixpoint coarsen c (l : list Action) : list Move :=
  match l with
  | [] => []
  | a :: l => coarse c a ++ coarsen (act c a) l
  end.

(** Whatever holds of each action when it is taken. *)
Fixpoint each (P : Crew → Action → Prop) c (l : list Action) : Prop :=
  match l with
  | [] => True
  | a :: l => P c a ∧ each P (act c a) l
  end.

(** A command that is taken uses the keys it names, and no command that is being
    executed uses one of them. *)
Definition separate c (a : Action) : Prop :=
  match a with
  | Take i raw argv =>
      on_keys argv = true ∧
      ∀ j argv' p, tasks c !! j = Some (Executes argv' p) → ∀ k, k ∈ footprint argv → k ∉ footprint argv'
  | _ => True
  end.

(** *** What the steps of a command touch *)

Lemma serve_fast_confined st argv out m :
  serve_fast st argv out = Some m → confined now (footprint argv) m.
Proof.
  unfold serve_fast. set (nm := upper (argv !!! 0%nat)).
  assert (∀ p, (nm = lit p) → p ∈ ["GET"; "SET"; "INCR"; "DECR"]%string → footprint argv = [argv !!! 1%nat]) as Hfeet.
  { intros p Hnm Hp. unfold footprint, command_keys, named. fold nm. rewrite Hnm. clear Hnm.
    repeat (apply elem_of_cons in Hp as [->|Hp]; [reflexivity|]). by apply elem_of_nil in Hp. }
  assert (∀ d, footprint argv = [argv !!! 1%nat] → confined now (footprint argv) (fast_incr (argv !!! 1%nat) d out)) as Hincr.
  { intros d ->. apply confined_bind; [|intros r; apply confined_ret].
    apply (confined_call now _ (OIncrBy (argv !!! 1%nat) d) RInt); [done|by intros ? ? [=]|done|by left]. }
  destruct (bool_decide (nm = lit "GET") && _) eqn:Hg.
  { intros [= <-]. apply andb_true_iff in Hg as [Hg%bool_decide_eq_true _]. rewrite (Hfeet "GET"%string) by (done || set_solver).
    apply confined_bind; [|intros r; apply confined_ret].
    eapply confined_same; [intros w; symmetry; unfold call; rewrite read_str_get; reflexivity|].
    match goal with |- context [prod_map id ?g _] =>
      apply (confined_same now _ (r ← call (fun now s => Store.get now s (argv !!! 1%nat)); mret (g r))) end.
    - intros w. unfold mbind, M_bind, call. by destruct (Store.get _ _ _).
    - apply confined_bind; [|intros r; apply confined_ret].
      apply (confined_call now _ (OGet (argv !!! 1%nat)) RStr); [done|by intros ? ? [=]|done|by left]. }
  destruct (bool_decide (nm = lit "SET") && _) eqn:Hs.
  { intros [= <-]. apply andb_true_iff in Hs as [Hs%bool_decide_eq_true _]. rewrite (Hfeet "SET"%string) by (done || set_solver).
    apply confined_bind; [|intros r; apply confined_ret].
    apply (confined_call now _ (OSet (argv !!! 1%nat) (argv !!! 2%nat) default_options) RBool);
      [done|by intros ? ? [=]|done|by left]. }
  destruct (bool_decide (nm = lit "PING") && _); [intros [= <-]; apply confined_ret|].
  destruct (bool_decide (nm = lit "INCR") && _) eqn:Hi.
  { intros [= <-]. apply andb_true_iff in Hi as [Hi%bool_decide_eq_true _].
    apply Hincr. apply (Hfeet "INCR"%string); [done|set_solver]. }
  destruct (bool_decide (nm = lit "DECR") && _) eqn:Hd; [|done].
  intros [= <-]. apply andb_true_iff in Hd as [Hd%bool_decide_eq_true _].
  apply Hincr. apply (Hfeet "DECR"%string); [done|set_solver].
Qed.

Lemma begin_within raw cfg ro t argv :
  on_keys argv = true → within now (footprint argv) (begin_steps raw cfg ro t argv).
Proof.
  intros Hk. unfold begin_steps. set (nm := upper (argv !!! 0%nat)).
  destruct (bool_decide (nm = lit "SYNC") || _) eqn:Hs.
  { exfalso. apply orb_true_iff in Hs as [Hs%bool_decide_eq_true|Hs%bool_decide_eq_true];
      pose proof (on_keys_name argv _ Hk Hs) as Hn; by vm_compute in Hn. }
  destruct (negb (authenticated _) && _); [apply within_done|]. destruct (ro && _); [apply within_done|].
  apply within_bind; [|intros [[[? ?] ?] ?]; apply within_done]. unfold execute_steps.
  destruct (serve_fast _ argv _) as [m|] eqn:Hm.
  - apply within_bind; [|intros [? ?]; apply within_done]. apply within_step. by eapply serve_fast_confined.
  - apply within_bind; [by apply program_within|intros [? ?]; apply within_done].
Qed.

(** *** The reaper goes unseen *)

Fixpoint hidden {A : Type} (p : Prog A) : Prop :=
  match p with
  | Done _ => True
  | Do f k => ∀ w, steady now w → alike now (f w).1 w ∧ hidden (k (f w).2)
  end.

Lemma hidden_bind {A B : Type} (p : Prog A) (q : A → Prog B) : hidden p → (∀ a, hidden (q a)) → hidden (p ≫= q).
Proof.
  intros Hp Hq. induction p as [a|R f k IH]; [by apply Hq|].
  intros w Hw. destruct (Hp w Hw) as [Ha Hk]. split; [done|by apply IH].
Qed.

Lemma hidden_purge i : hidden (step (purge_step now i)).
Proof.
  intros w [Hr Hc]. split; [|done]. unfold purge_step.
  destruct (purge_shard_ok now i (store w)) as (_ & _ & Hlk); [by apply (reach_ok 0)|].
  pose proof (reach_purge_shard 0 now i (store w) Hr) as Hr'.
  destruct (Store.purge_shard now i (store w)) as [st' n]. cbn [fst] in *. split; [by split|]. split; [by split|].
  intros k. cbn [store]. apply option_eq. intros e. rewrite !Db.find_Some, Hlk. case_decide; [|done].
  rewrite map_lookup_filter_Some. cbn. tauto.
Qed.

Lemma hidden_mapP {A B : Type} (p : A → Prog B) l : (∀ a, hidden (p a)) → hidden (mapP p l).
Proof.
  intros Hp. induction l as [|a l IH]; cbn [mapP]; [done|]. apply hidden_bind; [done|]. intros b.
  by apply hidden_bind.
Qed.

Lemma hidden_purges : hidden purge_steps.
Proof.
  unfold purge_steps. intros w Hw. pose proof Hw as [Hr Hc]. cbn [now_count call fst snd]. rewrite Hc. split.
  - by split_and!.
  - apply (hidden_bind (mapP (fun i => step (purge_step now i)) (seq 0 (Store.shard_count (store w))))); [|done].
    apply hidden_mapP. apply hidden_purge.
Qed.

(** *** The simulation *)

Definition in_execution c : gmap nat (list bytes * Prog Thread) :=
  omap (fun x => match x with Executes argv p => Some (footprint argv, p) | Waits _ => None end) (tasks c).

(** The thread once the command it is executing is executed. *)
Definition at_end (w : World) (x : Task) : Thread :=
  match x with Waits t => t | Executes _ p => (run p w).2 end.

Record sim c q : Prop := mkSim {
  sim_overlap : overlap now (world (csv c)) (world (psv q)) (in_execution c);
  sim_config : config (csv c) = config (psv q) ∧ read_only (csv c) = read_only (psv q);
  sim_fault n : aof_fault (csv c) n = None ∧ aof_fault (psv q) n = None;
  sim_log : ∃ file, aof (csv c) = Some (aof_open file) ∧ aof (psv q) = Some (aof_open file);
  sim_thread i : threads q !! i = at_end (world (csv c)) <$> tasks c !! i;
  sim_sweep p : sweep c = Some p → hidden p;
  sim_pending j argv : argv ∈ unlogged (threads q !! j) →
    flushes argv = false ∧ is_write argv ∧ ∀ argv' p, tasks c !! j = Some (Executes argv' p) → argv = argv'
}.

Lemma in_execution_Some c i K p :
  in_execution c !! i = Some (K, p) ↔ ∃ argv, tasks c !! i = Some (Executes argv p) ∧ K = footprint argv.
Proof.
  unfold in_execution. rewrite lookup_omap. split.
  - destruct (tasks c !! i) as [[t|argv p']|]; cbn; intros [=]; subst. eauto.
  - intros (argv & -> & ->). done.
Qed.

Lemma in_execution_insert sv (ts : gmap nat Task) sw i argv p :
  in_execution (mkCrew sv (<[i := Executes argv p]> ts) sw) = <[i := (footprint argv, p)]> (in_execution (mkCrew sv ts sw)).
Proof. unfold in_execution. cbn [tasks]. by rewrite (omap_insert_Some _ _ _ _ (footprint argv, p)). Qed.

Lemma in_execution_waits sv (ts : gmap nat Task) sw i t :
  in_execution (mkCrew sv (<[i := Waits t]> ts) sw) = delete i (in_execution (mkCrew sv ts sw)).
Proof. unfold in_execution. cbn [tasks]. by rewrite omap_insert_None. Qed.

(** A step of another thread does not change how a command will end. *)
Lemma at_end_other c q i w (ts : gmap nat Task) x :
  (∀ j, j ≠ i → ts !! j = tasks c !! j) → ts !! i = Some x →
  (∀ j K p, in_execution c !! j = Some (K, p) → j ≠ i → (run p w).2 = (run p (world (csv c))).2) →
  (∀ j, threads q !! j = at_end (world (csv c)) <$> tasks c !! j) →
  threads q !! i = Some (at_end w x) → ∀ j, threads q !! j = at_end w <$> ts !! j.
Proof.
  intros Hts Hi Hoth Hth Hx j. destruct (decide (j = i)) as [->|Hne]; [by rewrite Hi|].
  rewrite Hth, Hts by done. destruct (tasks c !! j) as [[t|argv p]|] eqn:Hj; [done| |done]. cbn. f_equal. symmetry.
  apply (Hoth j (footprint argv)); [|done]. apply in_execution_Some. eauto.
Qed.

Lemma sim_take c q i raw argv :
  sim c q → separate c (Take i raw argv) → sim (act c (Take i raw argv)) (moves q (coarse c (Take i raw argv))).
Proof.
  intros H [Hk Hsep]. pose proof H as [Hov [Hcfg Hro] Hf (file & Ha & Haq) Hth Hsw Hpe]. cbn [act coarse].
  destruct (tasks c !! i) as [[t|argv0 p0]|] eqn:Hi; [|exact H|exact H].
  cbn [moves foldl move]. rewrite (Hth i), Hi. cbn [fmap option_fmap option_map at_end].
  destruct t as [st out [| | |] []]; try exact H. set (t := mkThread st out Idle Next).
  rewrite Hcfg, Hro. pose proof (begin_command_ok now raw (psv q) t argv (proj2 (ov_steady _ _ _ _ Hov))) as Hok.
  rewrite run_begin in Hok |- *. set (p := begin_steps _ _ _ _ _) in *.
  destruct (overlap_begin now (world (csv c)) (world (psv q)) (in_execution c) i (footprint argv) p Hov) as [Hov' Hr].
  { unfold in_execution. by rewrite lookup_omap, Hi. }
  { by apply begin_within. }
  { intros k Hin j K p' (argv' & Hj & ->)%in_execution_Some. by eapply Hsep. }
  destruct (run p (world (psv q))) as [w' t'] eqn:Hrun. cbn [fst snd] in *.
  split; cbn [csv psv world set_world config read_only aof aof_fault threads tasks sweep].
  - destruct c as [sv ts sw]. cbn [csv tasks sweep] in *. by rewrite in_execution_insert.
  - done.
  - apply Hf.
  - by exists file.
  - intros j. destruct (decide (i = j)) as [<-|Hne].
    + rewrite !lookup_insert_eq. cbn. by rewrite Hr.
    + by rewrite !lookup_insert_ne.
  - done.
  - intros j a. destruct (decide (i = j)) as [<-|Hne]; cycle 1.
    { rewrite !lookup_insert_ne by done. apply Hpe. }
    rewrite !lookup_insert_eq. intros Hin. destruct Hok as (_ & _ & _ & Hcase). destruct (logs t').
    + destruct Hcase as (Hw & Hun & _). rewrite Hun in Hin. apply list_elem_of_singleton in Hin as ->.
      split_and!; [by apply on_keys_flushes|done|]. by intros ? ? [= -> ->].
    + destruct Hcase as [_ Hun]. rewrite Hun in Hin. by apply elem_of_nil in Hin.
Qed.

(** With a sound disk, what a thread does after the execution depends on the log
    only. *)
Lemma advance_same sv sv' t file :
  (∀ n, aof_fault sv n = None) → (∀ n, aof_fault sv' n = None) →
  aof sv = Some (aof_open file) → aof sv' = Some (aof_open file) →
  (advance sv t).2 = (advance sv' t).2 ∧
  config (advance sv t).1 = config sv ∧ read_only (advance sv t).1 = read_only sv.
Proof.
  intros Hf Hf' Ha Ha'. destruct t as [st out [|argv quit|argv quit|snapshot] fl]; unfold advance; cbn [duty]; [done| | |].
  - rewrite Ha, Ha', Hf, Hf', !bool_decide_eq_true_2 by eauto. cbn [orb].
    by destruct (aof_append _ None argv) as [file' [e|]].
  - by destruct (has_replicas sv).
  - unfold add_replica_with_snapshot. by destruct (link_down sv _ _).
Qed.

Lemma sim_advance c q i t :
  sim c q → tasks c !! i = Some (Waits t) → sim (act c (Work i)) (move q (Advances i)).
Proof.
  intros [Hov [Hcfg Hro] Hf (file & Ha & Haq) Hth Hsw Hpe] Hi. cbn [act move].
  pose proof (Hth i) as Hi'. rewrite Hi in Hi'. cbn [fmap option_fmap option_map at_end] in Hi'. rewrite Hi, Hi'.
  pose proof (fun n => proj1 (Hf n)) as Hf1. pose proof (fun n => proj2 (Hf n)) as Hf2.
  destruct (advance_same (csv c) (psv q) t file Hf1 Hf2 Ha Haq) as (Ht & Hc1 & Hr1).
  destruct (advance_same (psv q) (csv c) t file Hf2 Hf1 Haq Ha) as (_ & Hc2 & Hr2).
  pose proof (advance_ok (csv c) t file Hf1 Ha) as H1. pose proof (advance_ok (psv q) t file Hf2 Haq) as H2.
  destruct (advance (csv c) t) as [sv1 t1], (advance (psv q) t) as [sv2 t2]. cbn [fst snd] in *. subst t2.
  destruct H1 as (Hw1 & Hg1 & Hun & Ha1), H2 as (Hw2 & Hg2 & _ & Ha2).
  split; cbn [csv psv threads tasks sweep]; rewrite ?Hw1, ?Hw2.
  - destruct c as [sv ts sw]. cbn [csv tasks sweep] in *. rewrite in_execution_waits, delete_id; [done|].
    unfold in_execution. cbn [tasks]. by rewrite lookup_omap, Hi.
  - by rewrite Hc1, Hc2, Hr1, Hr2.
  - intros n. by rewrite Hg1, Hg2.
  - eauto.
  - intros j. destruct (decide (i = j)) as [<-|Hne].
    + by rewrite !lookup_insert_eq.
    + by rewrite !lookup_insert_ne.
  - done.
  - intros j a. destruct (decide (i = j)) as [<-|Hne].
    + rewrite lookup_insert_eq, Hun. by intros Hin%elem_of_nil.
    + rewrite !lookup_insert_ne by done. apply Hpe.
Qed.

Lemma sim_execute c q i argv p :
  sim c q → tasks c !! i = Some (Executes argv p) → sim (act c (Work i)) q.
Proof.
  intros [Hov Hcfg Hf Ha Hth Hsw Hpe] Hi. cbn [act]. rewrite Hi.
  assert (in_execution c !! i = Some (footprint argv, p)) as Hin by (apply in_execution_Some; eauto).
  pose proof (Hth i) as Hi'. rewrite Hi in Hi'. cbn [fmap option_fmap option_map at_end] in Hi'.
  destruct p as [t|R f k].
  - split; cbn [csv tasks sweep]; try done.
    + destruct c as [sv ts sw]. cbn [csv tasks sweep] in *. rewrite in_execution_waits. by eapply overlap_done.
    + eapply (at_end_other c q i); [intros j Hne; by rewrite lookup_insert_ne|apply lookup_insert_eq|done|done|exact Hi'].
    + intros j a Hin'. destruct (Hpe j a Hin') as (? & ? & Hex). split_and!; [done..|].
      intros argv' p'. destruct (decide (i = j)) as [<-|Hne]; [by rewrite lookup_insert_eq|].
      rewrite lookup_insert_ne by done. apply Hex.
  - destruct (overlap_do now _ _ _ i (footprint argv) R f k Hov Hin) as [Hov' Hoth].
    cbn [run] in Hi'. unfold mbind, M_bind in Hi'. destruct (f (world (csv c))) as [w r]. cbn [fst snd] in *.
    split; cbn [csv tasks sweep world set_world config read_only aof aof_fault]; try done.
    + destruct c as [sv ts sw]. cbn [csv tasks sweep] in *. by rewrite in_execution_insert.
    + eapply (at_end_other c q i); [intros j Hne; by rewrite lookup_insert_ne|apply lookup_insert_eq
        |by apply Hoth|done|exact Hi'].
    + intros j a Hin'. destruct (Hpe j a Hin') as (? & ? & Hex). split_and!; [done..|].
      intros argv' p'. destruct (decide (i = j)) as [<-|Hne]; [|rewrite lookup_insert_ne by done; apply Hex].
      rewrite lookup_insert_eq. intros [= <- <-]. by eapply Hex.
Qed.

Lemma sim_reaper c q a : sim c q → a = Wake ∨ a = Sweep → sim (act c a) q.
Proof.
  intros H Ha. pose proof H as [Hov Hcfg Hf Hlog Hth Hsw Hpe].
  destruct Ha as [->| ->]; cbn [act]; destruct (sweep c) as [p|] eqn:Hs; try exact H.
  - split; cbn [csv tasks sweep]; try done. intros p [= <-]. apply hidden_purges.
  - specialize (Hsw p eq_refl). destruct p as [n|R f k]; [by split|].
    destruct (Hsw (world (csv c)) (proj1 (ov_steady _ _ _ _ Hov))) as [Hal Hk].
    destruct (overlap_alike now _ _ _ _ Hov Hal) as [Hov' Hoth].
    destruct (f (world (csv c))) as [w r]. cbn [fst snd] in *.
    split; cbn [csv tasks sweep world set_world config read_only aof aof_fault]; try done.
    + intros i. rewrite Hth. destruct (tasks c !! i) as [[t|argv p]|] eqn:Hi; [done| |done]. cbn. f_equal.
      symmetry. apply (Hoth i (footprint argv)). apply in_execution_Some. eauto.
    + by intros p [= <-].
Qed.

Lemma sim_act c q a : sim c q → separate c a → sim (act c a) (moves q (coarse c a)).
Proof.
  intros H Hsep. destruct a as [i raw argv|i| |]; [by apply sim_take| |by apply sim_reaper; [|left]|by apply sim_reaper; [|right]].
  cbn [coarse]. destruct (tasks c !! i) as [[t|argv p]|] eqn:Hi.
  - by apply (sim_advance c q i t).
  - by eapply sim_execute.
  - cbn [act moves foldl]. by rewrite Hi.
Qed.

Lemma moves_app q ms1 ms2 : moves q (ms1 ++ ms2) = moves (moves q ms1) ms2.
Proof. apply foldl_app. Qed.

Lemma sim_acts c q l : sim c q → each separate c l → sim (acts c l) (moves q (coarsen c l)).
Proof.
  revert c q. induction l as [|a l IH]; intros c q H Hl; [done|]. destruct Hl as [Ha Hl].
  cbn [acts foldl coarsen]. rewrite moves_app. apply IH; [|done]. by apply sim_act.
Qed.

(** The crew at the beginning. *)
Definition assembled sv (ts : gmap nat Thread) : Crew := mkCrew sv (Waits <$> ts) None.

Lemma sim_start sv ts file :
  steady now (world sv) → (∀ n, aof_fault sv n = None) → aof sv = Some (aof_open file) →
  (∀ i t, ts !! i = Some t → duty t = Idle) → sim (assembled sv ts) (mkPool sv ts [] []).
Proof.
  intros Hs Hf Ha Hidle. split; cbn [assembled csv psv tasks threads sweep]; [|done|done|eauto| |done|].
  - assert (in_execution (assembled sv ts) = ∅) as ->; [|by apply overlap_empty].
    apply map_eq. intros i. unfold in_execution. rewrite lookup_omap, lookup_empty. cbn [tasks assembled].
    rewrite lookup_fmap. by destruct (ts !! i).
  - intros i. rewrite lookup_fmap. by destruct (ts !! i).
  - intros j a. pose proof (at_rest_unlogged (mkPool sv ts [] []) j Hidle) as Hu. cbn [threads] in Hu. rewrite Hu.
    by intros Hin%elem_of_nil.
Qed.

(** Every thread waits. *)
Definition nobody_executes c : Prop := map_Forall (fun _ x => ∃ t, x = Waits t) (tasks c).

Lemma sim_settled c q :
  sim c q → nobody_executes c →
  tasks c = Waits <$> threads q ∧ aof (csv c) = aof (psv q) ∧ alike now (world (csv c)) (world (psv q)).
Proof.
  intros [[[Hs1 Hs2] _ _ _ Hfree] _ _ (file & -> & ->) Hth _ _] Hno. split_and!.
  - apply map_eq. intros i. rewrite lookup_fmap, Hth. destruct (tasks c !! i) as [x|] eqn:Hi; [|done].
    destruct (Hno i x Hi) as [t ->]. done.
  - done.
  - split_and!; [done..|]. intros k. apply Hfree. intros j K p (argv & Hj & _)%in_execution_Some.
    destruct (Hno j _ Hj) as [t [=]].
Qed.

(** C16: the execution of commands operation by operation is as good as one step
    per command. On a server without a memory limit that logs to a disk without
    faults, while its clock stands, threads execute commands on keys, none on
    the whole store, one store operation at a time, append and propagate them,
    and the reaper purges shard by shard, all interleaved in any way; a command
    is taken only when none that uses one of its keys is being executed. When no
    command is being executed, every thread is where it is in the coarser
    schedule, with the same replies written and the same duties left, the log is
    the same, byte by byte, and the data shows the same. *)
Theorem operations_refine_commands sv ts file l :
  steady now (world sv) → (∀ n, aof_fault sv n = None) → aof sv = Some (aof_open file) →
  (∀ i t, ts !! i = Some t → duty t = Idle) → each separate (assembled sv ts) l →
  let c := acts (assembled sv ts) l in
  let p := moves (mkPool sv ts [] []) (coarsen (assembled sv ts) l) in
  nobody_executes c →
  tasks c = Waits <$> threads p ∧ aof (csv c) = aof (psv p) ∧ alike now (world (csv c)) (world (psv p)).
Proof.
  intros Hs Hf Ha Hidle Hsep c p Hno. apply sim_settled; [|done].
  apply sim_acts; [by eapply sim_start|done].
Qed.

(** *** Recovery *)

(** A write is taken only when no thread is between the store and the log with a
    write of one of its keys. *)
Definition guarded c (a : Action) : Prop :=
  match a with
  | Take i raw argv =>
      is_write argv → ∀ j t argv', tasks c !! j = Some (Waits t) → argv' ∈ unlogged (Some t) →
      ∀ k, k ∈ command_keys argv → k ∉ command_keys argv'
  | _ => True
  end.

Definition sendable_action (_ : Crew) (a : Action) : Prop :=
  match a with Take _ _ argv => sendable argv | _ => True end.

Lemma keyed_app q ms1 ms2 : keyed q ms1 → keyed (moves q ms1) ms2 → keyed q (ms1 ++ ms2).
Proof.
  revert q. induction ms1 as [|m ms1 IH]; intros q; [done|]. intros [Hm H1] H2. split; [done|]. by apply IH.
Qed.

Lemma keyed_coarse c q a : sim c q → separate c a → guarded c a → keyed q (coarse c a).
Proof.
  intros Hsim Hsep Hg. destruct a as [i raw argv|i| |]; cbn [coarse]; [|by destruct (tasks c !! i) as [[]|]|done..].
  destruct (tasks c !! i) as [[t0|]|]; [|done|done]. split; [|done]. intros Hw j argv' Hin. destruct Hsep as [Hk Hsep].
  destruct (sim_pending c q Hsim j argv' Hin) as (Hfl & Hw' & Hex).
  split_and!; [by apply on_keys_flushes|done|]. rewrite (sim_thread c q Hsim j) in Hin.
  destruct (tasks c !! j) as [[t|a p]|] eqn:Hj; cbn in Hin; [|..|by apply elem_of_nil in Hin].
  - by eapply (Hg Hw j).
  - rewrite (Hex a p eq_refl) in *. specialize (Hsep j a p Hj).
    by rewrite (write_footprint argv Hw), (write_footprint a Hw') in Hsep.
Qed.

Lemma keyed_coarsen c q l : sim c q → each separate c l → each guarded c l → keyed q (coarsen c l).
Proof.
  revert c q. induction l as [|a l IH]; intros c q Hsim; [done|]. intros [Hs1 Hs2] [Hg1 Hg2]. cbn [coarsen].
  apply keyed_app; [by apply keyed_coarse|]. apply IH; [|done..]. by apply sim_act.
Qed.

Lemma sendable_coarsen c l : each sendable_action c l → Forall sendable_move (coarsen c l).
Proof.
  revert c. induction l as [|a l IH]; intros c; [constructor|]. intros [Ha Hl]. cbn [coarsen]. apply Forall_app_2.
  - assert (∀ m, sendable_move m → Forall sendable_move [m]) as Hone by (intros m Hm; by constructor).
    destruct a as [i raw argv|i| |]; cbn [coarse]; try apply Forall_nil_2;
      destruct (tasks c !! i) as [[]|]; try apply Forall_nil_2; by apply Hone.
  - by apply IH.
Qed.

(** C15: recovery with everything interleaved. A server without a memory limit
    starts empty with an empty append-only file, on a disk without faults, and
    its clock stands. Threads execute commands on keys, none on the whole store,
    one store operation at a time and append them later, with the reaper purging
    shard by shard in between; a command is taken only when no other is being
    executed, or written and not yet appended, on one of its keys. When all have
    come to rest, a restart from the log, at the same clock reading and without
    a memory limit, shows exactly what is in memory. *)
Theorem operations_recover sv0 ts l cfg router snap faults links w0 :
  steady now (world sv0) → ⟦store (world sv0)⟧ = ∅ → aof sv0 = Some (aof_open []) →
  (∀ n, aof_fault sv0 n = None) → (∀ i t, ts !! i = Some t → duty t = Idle) →
  each sendable_action (assembled sv0 ts) l → each separate (assembled sv0 ts) l →
  each guarded (assembled sv0 ts) l →
  appendonly cfg = true → maxmemory cfg = 0 → (∀ i, clock w0 i = now) →
  let c := acts (assembled sv0 ts) l in
  map_Forall (fun _ x => ∃ t, x = Waits t ∧ duty t = Idle) (tasks c) →
  ∃ file, aof (csv c) = Some (aof_open file) ∧
    let sv' := bootstrap router cfg (Some file) snap faults links w0 in
    same_view now ⟦store (world sv')⟧ ⟦store (world (csv c))⟧.
Proof.
  intros Hs He Ha Hf Hidle Hsend Hsep Hg Hon Hmm Hclk c Hrest.
  pose proof (sim_start sv0 ts [] Hs Hf Ha Hidle) as H0.
  destruct (sim_settled c _ (sim_acts _ _ l H0 Hsep)) as (Hts & Hlog & _ & _ & Hv).
  { intros i x Hx. destruct (Hrest i x Hx) as (t & -> & _). eauto. }
  destruct (keyed_writes_recover now sv0 ts (coarsen (assembled sv0 ts) l) cfg router snap faults links w0)
    as (file & Hfile & Hrec); try done.
  { by apply sendable_coarsen. }
  { by apply keyed_coarsen. }
  { intros i t Hi. destruct (Hrest i (Waits t)) as (t' & [= <-] & Hd); [|done]. by rewrite Hts, lookup_fmap, Hi. }
  exists file. rewrite Hlog. split; [done|]. cbv zeta. by rewrite Hv.
Qed.

End refinement.

(** ** An example *)

#[local] Existing Instance canonical_order.
#[local] Existing Instance demo_float_text.

(** An [MSET] and a [GETSET] of another key, operation by operation in turn with
    the reaper; the command that was taken last is appended first. *)
Definition work_apart : list Action :=
  [Take 1 true mset_both; Take 2 true (getset "k" "b"); Work 1; Wake; Sweep; Work 2; Work 1; Sweep; Sweep;
   Work 2; Work 1; Work 2; Work 2; Work 2; Work 1; Work 1].

Definition race_crew : Crew := assembled (race_server (Some (aof_open []))) two_threads.

Lemma race_crew_idle (j : nat) (x : Task) : tasks race_crew !! j = Some x → ∃ t, x = Waits t ∧ duty t = Idle.
Proof.
  cbn [race_crew assembled tasks]. rewrite lookup_fmap_Some. intros (t & <- & Ht). exists t. split; [done|].
  by apply two_threads_idle in Ht.
Qed.

(** Once the first command is taken. *)
Lemma race_crew_taken (j : nat) (x : Task) :
  tasks (act race_crew (Take 1 true mset_both)) !! j = Some x →
  (∃ p, x = Executes mset_both p) ∨ ∃ t, x = Waits t ∧ duty t = Idle.
Proof.
  assert (∃ p, tasks (act race_crew (Take 1 true mset_both)) = <[1%nat := Executes mset_both p]> (tasks race_crew))
    as [p ->] by (eexists; reflexivity).
  intros [[_ <-]|[_ Hj]]%lookup_insert_Some; [left; by exists p|right; by apply race_crew_idle in Hj].
Qed.

Lemma work_apart_separate : each separate race_crew work_apart.
Proof.
  split; [split; [reflexivity|]|split; [split; [reflexivity|]|by repeat split]].
  - intros j argv' p Hj. by apply race_crew_idle in Hj as (t & [=] & _).
  - intros j argv' p [[p' [= -> _]]|(t & [=] & _)]%race_crew_taken k.
    change (footprint (getset "k" "b")) with [lit "k"]. change (footprint mset_both) with [lit "x"; lit "y"].
    intros ->%list_elem_of_singleton. refine (bool_decide_unpack _ _). vm_compute. exact I.
Qed.

Lemma idle_unlogged (t : Thread) (argv : list bytes) : duty t = Idle → argv ∉ unlogged (Some t).
Proof. destruct t as [st out d fl]. cbn. intros ->. apply not_elem_of_nil. Qed.

Lemma work_apart_guarded : each guarded race_crew work_apart.
Proof.
  split; [|split; [|by repeat split]]; intros _ j t argv' Hj Hin; exfalso.
  - apply race_crew_idle in Hj as (t' & [= <-] & Hd). by eapply idle_unlogged.
  - apply race_crew_taken in Hj as [[p [=]]|(t' & [= <-] & Hd)]. by eapply idle_unlogged.
Qed.

Lemma work_apart_sendable : each sendable_action race_crew work_apart.
Proof.
  assert (sendable mset_both) as H1 by (repeat constructor; try done; by compute).
  assert (sendable (getset "k" "b")) as H2 by (repeat constructor; try done; by compute).
  split; [exact H1|]. split; [exact H2|]. repeat split.
Qed.

(** Everybody is at rest in the end. *)
Definition resting (x : Task) : bool :=
  match x with Waits (mkThread _ _ Idle _) => true | _ => false end.

Lemma work_apart_rests :
  map_Forall (fun _ x => ∃ t, x = Waits t ∧ duty t = Idle) (tasks (acts race_crew work_apart)).
Proof.
  assert (map_Forall (fun _ x => resting x = true) (tasks (acts race_crew work_apart))) as H
    by (refine (bool_decide_unpack _ _); vm_compute; exact I).
  intros j x Hj. specialize (H j x Hj). clear Hj. destruct x as [[st out [] fl]|]; try discriminate H. by eexists.
Qed.

Lemma operations_refine_commands_witness :
  let c := acts race_crew work_apart in
  let p := moves (mkPool (race_server (Some (aof_open []))) two_threads [] []) (coarsen race_crew work_apart) in
  tasks c = Waits <$> threads p ∧ aof (csv c) = aof (psv p) ∧ length (coarsen race_crew work_apart) = 6%nat.
Proof.
  destruct (operations_refine_commands 10 (race_server (Some (aof_open []))) two_threads [] work_apart) as (H1 & H2 & _).
  - split; [apply reach_new|done].
  - done.
  - done.
  - exact two_threads_idle.
  - exact work_apart_separate.
  - intros j x Hx. destruct (work_apart_rests j x Hx) as (t & -> & _). by exists t.
  - split; [exact H1|]. split; [exact H2|]. vm_compute. reflexivity.
Defined.

Lemma operations_recover_witness :
  let c := acts race_crew work_apart in
  Db.find 10 ⟦store (world (csv c))⟧ (lit "y") = Some (mkEntry (VStr (lit "1")) None) ∧
  ∃ file, aof (csv c) = Some (aof_open file) ∧
    let sv' := bootstrap FlatMap.length_hasher (demo_config None) (Some file) None (fun _ => None)
                 (fun _ _ => false) (fresh_world 1) in
    Db.find 10 ⟦store (world sv')⟧ (lit "y") = Db.find 10 ⟦store (world (csv c))⟧ (lit "y").
Proof.
  split; [vm_compute; reflexivity|].
  destruct (operations_recover 10 (race_server (Some (aof_open []))) two_threads work_apart
    (demo_config None) FlatMap.length_hasher None (fun _ => None) (fun _ _ => false) (fresh_world 1))
    as (file & Hf & Hview).
  - split; [apply reach_new|done].
  - vm_compute. reflexivity.
  - done.
  - done.
  - exact two_threads_idle.
  - exact work_apart_sendable.
  - exact work_apart_separate.
  - exact work_apart_guarded.
  - done.
  - done.
  - done.
  - exact work_apart_rests.
  - exists file. split; [exact Hf|]. exact (Hview (lit "y")).
Defined.
