(* ===== verification/Limits.v ===== *)
(** * Where the guarantees end

    The theorems on recovery, replication and interleaving have conditions.  Here
    it is shown of some of them that they cannot be dropped: what the program does
    where they fail, for all data and all histories that are in the way. *)
From S2P Require Import Prelude Std Map Eviction Value Shard Spec ShardOk Store StoreOk StoreProps.
From S2P Require Import Resp RespOk Reply RespProps Dump Config Commands CommandsOk Persistence Conn ConnOk ConnProps.
From S2P Require Import Effects Uring Replica View Durable Commute Snapshot Steps Serial Input System SystemProps Replay Timeless Interleave.
Local Open Scope Z_scope.

(** ** A replica that connects again *)

Section resync.
Context {HO : HashOrder} {FT : FloatText}.
Context (now : Z).
Implicit Types (w : World) (k : bytes) (l : list bytes) (st : ConnState) (cfg : Config) (db : Store.t).

(** The key shows the list, which lasts, or nothing where the list is empty. *)
Definition shows_list w k l : Prop :=
  Db.find now ⟦store w⟧ k = match l with [] => None | _ => Some (mkEntry (VList l) None) end.

(** Writes of other keys leave what a key shows. *)
Lemma dispatch_all_other cmds cfg st w k :
  steady now w → Forall (fun argv => is_write argv ∧ flushes argv = false ∧ k ∉ command_keys argv) cmds →
  steady now (dispatch_all cfg st cmds w).1 ∧ (dispatch_all cfg st cmds w).2 = st ∧
  Db.find now ⟦store (dispatch_all cfg st cmds w).1⟧ k = Db.find now ⟦store w⟧ k.
Proof.
  intros Hw Hc. revert w Hw. induction Hc as [|argv cmds (Hwr & Hfl & Hk) _ IH]; intros w Hw; [done|].
  cbn [dispatch_all]. unfold mbind, M_bind.
  destruct (dispatch_confined now argv Hwr Hfl) as (f & [Hf _] & Heq). rewrite Heq.
  destruct (Hf w Hw) as [Hs Hother]. destruct (f w) as [w1 o1]. cbn [fst] in *.
  destruct (IH w1 Hs) as (? & ? & ->). split_and!; [done..|]. by apply Hother.
Qed.

(** The commands that restore an entry are writes of its key. *)
Lemma entry_commands_confined k e :
  Forall (fun argv => is_write argv ∧ flushes argv = false ∧ command_keys argv = [k])
    (entry_commands now (k, e)).
Proof.
  unfold entry_commands. destruct (Shard.unexpired now e); [|constructor].
  constructor; [by destruct (value e)|]. destruct (expire_at e); by repeat constructor.
Qed.

(** [RPUSH] appends to the list. *)
Lemma rpush_appends cfg st w k l l' :
  steady now w → l ≠ [] → shows_list w k l' →
  let '(w', st') := dispatch_all cfg st [recreate_args k (VList l)] w in
  steady now w' ∧ st' = st ∧ shows_list w' k (l' ++ l).
Proof.
  intros Hw Hl Hk.
  assert (dispatch (recreate_args k (VList l)) st cfg w =
    (o ← (r ← call (fun t s => Store.push t s k l false); mret (written_len r)); mret (st, o)) w) as Heq.
  { destruct l; [done|]. reflexivity. }
  cbn [dispatch_all]. unfold mbind, M_bind in *. rewrite Heq.
  destruct (call_steady now (OPush k l false) RLen (fun t s => Store.push t s k l false) w
    ltac:(done) ltac:(done) Hw) as (Hs & _ & Ha).
  destruct (call (fun t s => Store.push t s k l false) w) as [w1 r]. cbn [fst snd] in *.
  split_and!; [done..|]. unfold shows_list in *. rewrite Ha. clear Ha.
  change (Db.exec now ⟦store w⟧ (OPush k l false)) with
    (prod_map id RLen (Db.update now ⟦store w⟧ k (push_body l false))).
  rewrite prod_map_fst. unfold Db.update. rewrite Hk.
  assert (∀ l0 : list bytes, Db.find now
    (let '(c, r0) := push_body l false l0 in
     (if coll_is_empty c then delete k ⟦store w⟧
      else <[k := mkEntry (variant c) None]> ⟦store w⟧, Ok r0)).1 k = Some (mkEntry (VList (l0 ++ l)) None))
    as Hpush.
  { intros l0. rewrite push_body_spec. cbv zeta.
    destruct (l0 ++ l) eqn:He; [by apply app_eq_nil in He as [_ ?]|].
    unfold Db.find. cbn. by rewrite lookup_insert_eq. }
  destruct l' as [|x l'].
  - destruct l; [done|]. apply (Hpush []).
  - apply (Hpush (x :: l')).
Qed.

(** The commands of a snapshot, on a replica that holds data already. *)
Lemma snapshot_appends db cfg st w k l l' :
  wf db → steady now w → Db.find now ⟦db⟧ k = Some (mkEntry (VList l) None) → shows_list w k l' →
  let '(w', st') := dispatch_all cfg st (snapshot_commands now db) w in
  steady now w' ∧ st' = st ∧ shows_list w' k (l' ++ l).
Proof.
  intros Hdb Hw Hk Hl. apply Db.find_Some in Hk as [Hk Hu].
  assert (l ≠ []) as Hne by (by pose proof (store_values_ok db Hdb k _ Hk)).
  pose proof (entries_NoDup db Hdb) as Hnd.
  apply (elem_of_entries db k _ Hdb) in Hk. apply list_elem_of_split in Hk as (e1 & e2 & He).
  rewrite He, fmap_app, fmap_cons in Hnd. apply NoDup_app in Hnd as (_ & Hn1 & Hn2).
  apply NoDup_cons in Hn2 as [Hn2 _].
  assert (∀ es : list (bytes * Entry), k ∉ es.*1 →
    Forall (fun argv => is_write argv ∧ flushes argv = false ∧ k ∉ command_keys argv)
      (es ≫= entry_commands now)) as Hother.
  { intros es Hes. apply Forall_forall. intros argv ([j e] & Hin & Hj)%list_elem_of_bind.
    pose proof (entry_commands_confined j e) as Hall. rewrite Forall_forall in Hall.
    destruct (Hall argv Hin) as (? & ? & ->). split_and!; [done..|].
    intros ->%list_elem_of_singleton. apply Hes, list_elem_of_fmap. by exists (j, e). }
  unfold snapshot_commands. rewrite He, bind_app, bind_cons.
  replace (entry_commands now (k, mkEntry (VList l) None)) with [recreate_args k (VList l)]
    by (unfold entry_commands; by rewrite Hu).
  rewrite !dispatch_all_app.
  destruct (dispatch_all_other (e1 ≫= entry_commands now) cfg st w k Hw) as (Hs1 & Hst1 & Hk1).
  { apply Hother. intros Hin. apply (Hn1 k Hin). by left. }
  destruct (dispatch_all cfg st (e1 ≫= entry_commands now) w) as [w1 st1]. cbn [fst snd] in *. subst st1.
  rewrite dispatch_all_app.
  pose proof (rpush_appends cfg st w1 k l l' Hs1 Hne ltac:(unfold shows_list; by rewrite Hk1)) as H2.
  destruct (dispatch_all cfg st [recreate_args k (VList l)] w1) as [w2 st2]. destruct H2 as (Hs2 & -> & Hk2).
  destruct (dispatch_all_other (e2 ≫= entry_commands now) cfg st w2 k Hs2 (Hother e2 Hn2)) as (Hs3 & Hst3 & Hk3).
  destruct (dispatch_all cfg st (e2 ≫= entry_commands now) w2) as [w3 st3]. cbn [fst snd] in *.
  split_and!; [done..|]. unfold shows_list in *. by rewrite Hk3.
Qed.

(** What a replica reads on a connection: the answer to [AUTH], where it sent
    one, and then the data in some chunks. *)
Definition delivers cfg (data : bytes) (reads : list bytes) : Prop :=
  ∃ greeting chunks, reads = greeting ++ chunks ∧
    length greeting = match masterauth cfg with Some _ => 1%nat | None => 0%nat end ∧
    Forall (.≠ []) chunks ∧ concat chunks = data.

(** A replica that has read a snapshot has dispatched its commands. *)
Lemma sync_dispatches db cfg w reads :
  wf db → all_restorable now db → delivers cfg (dump_commands now db) reads →
  (sync_once cfg reads w).1 = (dispatch_all cfg internal (snapshot_commands now db) w).1.
Proof.
  intros Hdb Hres (greeting & chunks & -> & Hg & Hne & Hdata).
  rewrite dump_commands_encoded in Hdata. fold (snapshot_commands now db) in Hdata.
  unfold sync_once. assert (match masterauth cfg with
    Some _ => drop 1 (greeting ++ chunks) | None => greeting ++ chunks end = chunks) as ->.
  { destruct (masterauth cfg); [by destruct greeting as [|? []]|by destruct greeting]. }
  rewrite (stream_loop_encoded cfg chunks [] internal (snapshot_commands now db) [lit "PING"] 0); [done|..].
  - by apply snapshot_sendable.
  - split; [by compute|repeat constructor; by compute].
  - apply record_nonempty.
  - done.
  - done.
  - unfold torn. by rewrite Hdata, take_0, app_nil_r.
Qed.

Lemma sync_appends db cfg w k l l' reads :
  wf db → all_restorable now db → steady now w →
  Db.find now ⟦db⟧ k = Some (mkEntry (VList l) None) → shows_list w k l' →
  delivers cfg (dump_commands now db) reads →
  steady now (sync_once cfg reads w).1 ∧ shows_list (sync_once cfg reads w).1 k (l' ++ l).
Proof.
  intros Hdb Hres Hw Hk Hl Hr. rewrite (sync_dispatches db) by done.
  pose proof (snapshot_appends db cfg internal w k l l' Hdb Hw Hk Hl) as H.
  destruct (dispatch_all cfg internal (snapshot_commands now db) w) as [w' st']. by destruct H as (? & _ & ?).
Qed.

Lemma sync_restores db cfg w reads :
  wf db → all_restorable now db → steady now w → ⟦store w⟧ = ∅ → delivers cfg (dump_commands now db) reads →
  same_view now ⟦store (sync_once cfg reads w).1⟧ ⟦db⟧.
Proof.
  intros Hdb Hres Hw He Hr. rewrite (sync_dispatches db) by done.
  pose proof (snapshot_restores now db cfg internal w Hdb Hres Hw He) as H.
  destruct (dispatch_all cfg internal (snapshot_commands now db) w) as [w' st']. destruct H as (_ & _ & H).
  cbn [fst]. rewrite H. apply live_view.
Qed.

(** C34: a replica that reconnects is not emptied first, so the snapshot of each
    further connection is applied on top of the data of the earlier ones: a list
    that the primary holds once, and that lasts, is there as often as the replica
    connected, whatever else the primary holds and in whatever chunks it is sent. *)
Theorem replica_resync_duplicates db cfg w k l connections :
  wf db → all_restorable now db → Db.find now ⟦db⟧ k = Some (mkEntry (VList l) None) →
  steady now w → Db.find now ⟦store w⟧ k = None →
  Forall (delivers cfg (dump_commands now db)) connections → connections ≠ [] →
  Db.find now ⟦store (replica_thread cfg connections w).1⟧ k =
  Some (mkEntry (VList (concat (replicate (length connections) l))) None).
Proof.
  intros Hdb Hres Hk Hw Hnone Hc Hne.
  assert (∀ l', shows_list w k l' →
    shows_list (replica_thread cfg connections w).1 k (l' ++ concat (replicate (length connections) l))) as H.
  { clear Hnone Hne. revert w Hw. induction Hc as [|reads conns Hr _ IH]; intros w Hw l' Hl.
    { simpl. by rewrite app_nil_r. }
    destruct (sync_appends db cfg w k l l' reads Hdb Hres Hw Hk Hl Hr) as [Hs Hl'].
    cbn [replica_thread]. unfold mbind, M_bind. destruct (sync_once cfg reads w) as [w1 b]. cbn [fst] in *.
    cbn [length replicate concat]. rewrite app_assoc. by apply IH. }
  specialize (H [] Hnone). unfold shows_list in H. rewrite H. rewrite app_nil_l.
  apply Db.find_Some in Hk as [Hk _]. pose proof (store_values_ok db Hdb k _ Hk) as Hv.
  by destruct connections as [|r conns], l as [|x l].
Qed.

End resync.

(** ** A log with a torn record in it *)

Section torn_records.
Implicit Types (p q d t pre a s : bytes) (args : list bytes).

(** A line without LF ends at its CR LF. *)
Lemma crlf_from_open s t i :
  Resp.LF ∉ s → Resp.crlf_from (s ++ Resp.CRLF ++ t) i = Some (i + length s)%nat.
Proof.
  revert i. induction s as [|b s IH]; intros i Hs.
  - simpl. f_equal. lia.
  - apply not_elem_of_cons in Hs as [Hb Hs]. rewrite <- app_comm_cons.
    specialize (IH (S i) Hs). destruct (s ++ Resp.CRLF ++ t) as [|b2 s'] eqn:Heq; [by destruct s|].
    rewrite crlf_from_cons. assert (b2 ≠ Resp.LF) as Hb2.
    { destruct s as [|b3 s]; simpl in Heq; injection Heq as <- _; [done|].
      by apply not_elem_of_cons in Hs as [? _]. }
    rewrite (bool_decide_eq_false_2 (b2 = _)), andb_false_r by done. rewrite IH. simpl. f_equal. lia.
Qed.

Lemma read_line_open pre s t :
  Resp.LF ∉ s → Resp.read_line (pre ++ s ++ Resp.CRLF ++ t) (length pre) = Some (s, (length pre + length s + 2)%nat).
Proof.
  intros Hs. unfold Resp.read_line. rewrite drop_app_length, crlf_from_open by done.
  unfold Resp.slice. rewrite drop_app_length.
  replace (length pre + length s - length pre)%nat with (length s) by lia. by rewrite take_app_length.
Qed.

Lemma parse_digits_star acc (s : list Z) : 42 ∈ s → parse_digits acc s = None.
Proof.
  revert acc. induction s as [|c s IH]; intros acc; [by intros ?%elem_of_nil|].
  intros [<-|Hin]%elem_of_cons; [done|]. cbn [parse_digits]. destruct (_ && _); [by apply IH|done].
Qed.

(** A number with a star in it is none. *)
Lemma parse_int_star s : ascii s → x2a ∈ s → ∃ e, Resp.parse_int s = Failed e.
Proof.
  intros Ha Hs. unfold Resp.parse_int, parse_i64_bytes. rewrite from_utf8_ascii by done.
  assert (42 ∈ byte_val <$> s) as Hin by (apply list_elem_of_fmap; by exists x2a). simpl.
  assert (parse_i64_str (byte_val <$> s) = None) as ->; [|eauto].
  destruct (byte_val <$> s) as [|c cs]; [done|]. unfold parse_i64_str.
  assert (c ≠ 42 → 42 ∈ cs) as Hcs by (intros Hc; by apply elem_of_cons in Hin as [<-|?]).
  repeat case_match; simplify_eq; cbn [mbind option_bind]; try done;
    rewrite ?parse_digits_star by (first [by apply Hcs|done]); done.
Qed.

(** What follows a torn record: the beginning of another one. *)
Definition record_ahead t : Prop := ∃ d t', Forall is_digit d ∧ t = [x2a] ++ d ++ Resp.CRLF ++ t'.

Lemma encoded_ahead (cmds : list (list bytes)) : cmds ≠ [] → record_ahead (encoded cmds).
Proof.
  destruct cmds as [|argv cmds]; [done|]. intros _. rewrite encoded_cons, write_cmd_concat.
  exists (u64_to_string (Z.of_nat (length argv))), (concat (Resp.write_arg <$> argv) ++ encoded cmds).
  split; [apply u64_to_string_digits; lia|]. by rewrite app_nil_l, <- !app_assoc.
Qed.

(** A torn line of digits and the record behind it are read as one line. *)
Lemma read_line_torn pre p q ds t :
  Forall is_digit ds → ds ++ Resp.CRLF = p ++ q → q ≠ [] → record_ahead t →
  ∃ line pos, Resp.read_line (pre ++ p ++ t) (length pre) = Some (line, pos) ∧
    ∃ e, Resp.parse_int line = Failed e.
Proof.
  intros Hds Hpq Hq (d & t' & Hd & ->).
  assert (Forall (fun b => is_digit b ∨ b = Resp.CR) p) as Hp.
  { destruct (exists_last Hq) as (q' & b & ->).
    change Resp.CRLF with ([Resp.CR] ++ [Resp.LF]) in Hpq. rewrite !app_assoc in Hpq.
    apply app_inj_2 in Hpq as [Hpq _]; [|done].
    assert (Forall (fun b => is_digit b ∨ b = Resp.CR) (p ++ q')) as [? _]%Forall_app; [|done].
    rewrite <- Hpq. apply Forall_app.
    split; [by eapply Forall_impl; [exact Hds|left]|by constructor; [right|]]. }
  set (line := p ++ [x2a] ++ d).
  assert (Forall (fun b => is_digit b ∨ b = Resp.CR ∨ b = x2a) line) as Hline.
  { unfold line. rewrite !Forall_app. split_and!.
    - eapply Forall_impl; [exact Hp|]. naive_solver.
    - constructor; [by right; right|constructor].
    - eapply Forall_impl; [exact Hd|]. by left. }
  replace (pre ++ p ++ [x2a] ++ d ++ Resp.CRLF ++ t') with (pre ++ line ++ Resp.CRLF ++ t')
    by (unfold line; by rewrite <- !app_assoc).
  exists line. eexists. split.
  - apply read_line_open. intros Hin. rewrite Forall_forall in Hline.
    destruct (Hline _ Hin) as [Hl|[?|?]]; [|done..]. unfold is_digit in Hl.
    change (byte_val Resp.LF) with 10 in Hl. lia.
  - apply parse_int_star; [|unfold line; apply elem_of_app; right; by left].
    eapply Forall_impl; [exact Hline|]. intros b [Hb|[->| ->]]; [unfold is_digit in Hb; lia|done..].
Qed.

(** What is left of the text of an argument that was cut in front of its bytes or
    behind them. *)
Inductive argument_cut a : bytes → Prop :=
  | cut_start : argument_cut a []
  | cut_length p q :
      u64_to_string (Z.of_nat (length a)) ++ Resp.CRLF = p ++ q → q ≠ [] → argument_cut a ([x24] ++ p)
  | cut_end p q :
      Resp.CRLF = p ++ q → q ≠ [] →
      argument_cut a ([x24] ++ u64_to_string (Z.of_nat (length a)) ++ Resp.CRLF ++ a ++ p).

(** What is left of a record that was cut anywhere but in the bytes of an argument. *)
Inductive record_cut args : bytes → Prop :=
  | cut_count p q :
      u64_to_string (Z.of_nat (length args)) ++ Resp.CRLF = p ++ q → q ≠ [] → record_cut args ([x2a] ++ p)
  | cut_argument args1 a args2 p :
      args = args1 ++ a :: args2 → argument_cut a p →
      record_cut args ([x2a] ++ u64_to_string (Z.of_nat (length args)) ++ Resp.CRLF
                         ++ concat (Resp.write_arg <$> args1) ++ p).

(** The bytes of an argument, and then a record in place of the line end. *)
Lemma bulk_at_unterminated pre a p q t :
  bulk_fits a → Resp.CRLF = p ++ q → q ≠ [] → record_ahead t →
  ∃ e, Resp.bulk_at (pre ++ [x24] ++ u64_to_string (Z.of_nat (length a)) ++ Resp.CRLF ++ a ++ p ++ t)
         (length pre) = Failed e.
Proof.
  intros Ha Hp Hq (d & t' & _ & ->). set (L := u64_to_string (Z.of_nat (length a))).
  assert (Resp.CR ∉ L) as HCR by (apply digits_no_CR, u64_to_string_digits; lia).
  unfold Resp.bulk_at. rewrite lookup_app_r, Nat.sub_diag by lia. cbn [app lookup list_lookup].
  rewrite bool_decide_eq_true_2 by done. cbn [negb].
  change (x24 :: L ++ ?x) with ([x24] ++ L ++ x). rewrite (app_assoc pre).
  replace (length pre + 1)%nat with (length (pre ++ [x24])) by (by rewrite length_app).
  rewrite read_line_at by done.
  unfold L at 1. rewrite parse_int_to_string by (lia || by apply bulk_fits_i64). cbn [pbind].
  destruct (Z.ltb_spec (Z.of_nat (length a)) 0); [lia|].
  destruct (Z.ltb_spec Resp.MAX_BULK_LEN (Z.of_nat (length a))); [eauto|]. cbv zeta. rewrite Nat2Z.id.
  set (pre2 := (pre ++ [x24]) ++ L ++ Resp.CRLF ++ a). set (rest := x2a :: d ++ Resp.CRLF ++ t').
  replace ((pre ++ [x24]) ++ L ++ Resp.CRLF ++ a ++ p ++ rest)
    with (pre2 ++ p ++ rest) by (unfold pre2; by rewrite <- !app_assoc).
  replace (length (pre ++ [x24]) + length L + 2 + length a)%nat with (length pre2)
    by (unfold pre2; rewrite !length_app; simpl; lia).
  destruct (Nat.ltb_spec (length (pre2 ++ p ++ rest)) (length pre2 + 2)) as [Hlt|_].
  { unfold rest in Hlt. rewrite !length_app in Hlt. simpl in Hlt. rewrite !length_app in Hlt. simpl in Hlt. lia. }
  rewrite bool_decide_eq_false_2; [cbn [negb]; eauto|].
  unfold Resp.slice. rewrite drop_app_length. replace (length pre2 + 2 - length pre2)%nat with 2%nat by lia.
  destruct p as [|p1 [|p2 p]]; [done|by injection Hp as <- <-|]. injection Hp as _ _ Hp. by destruct p, q.
Qed.

Lemma bulk_at_torn pre a p t :
  bulk_fits a → argument_cut a p → record_ahead t →
  ∃ e, Resp.bulk_at (pre ++ p ++ t) (length pre) = Failed e.
Proof.
  intros Ha [|p' q Hpq Hq|p' q Hpq Hq] Ht.
  - destruct Ht as (d & t' & _ & ->). unfold Resp.bulk_at. rewrite app_nil_l.
    rewrite lookup_app_r, Nat.sub_diag by lia. simpl. eauto.
  - destruct (read_line_torn (pre ++ [x24]) p' q _ t (u64_to_string_digits _ (Nat2Z.is_nonneg _)) Hpq Hq Ht)
      as (line & pos & Hl & e & He).
    unfold Resp.bulk_at. rewrite lookup_app_r, Nat.sub_diag by lia. cbn [app lookup list_lookup].
    rewrite bool_decide_eq_true_2 by done. cbn [negb].
    rewrite length_app, <- app_assoc in Hl. cbn [app length] in Hl. rewrite Hl, He. simpl. eauto.
  - rewrite <- !app_assoc. by apply (bulk_at_unterminated pre a p' q t).
Qed.

Lemma array_loop_torn pre args1 a args2 p t acc :
  Forall bulk_fits (args1 ++ a :: args2) → argument_cut a p → record_ahead t →
  ∃ e, Resp.array_loop (length (args1 ++ a :: args2)) (pre ++ concat (Resp.write_arg <$> args1) ++ p ++ t)
         (length pre) acc = Failed e.
Proof.
  intros Hfit Hcut Ht. revert pre acc Hfit. induction args1 as [|b args1 IH]; intros pre acc Hfit.
  - apply Forall_cons in Hfit as [Ha _]. cbn [app length Resp.array_loop fmap list_fmap concat].
    destruct (bulk_at_torn pre a p t Ha Hcut Ht) as [e ->]. simpl. eauto.
  - apply Forall_cons in Hfit as [Hb Hfit]. rewrite fmap_cons.
    cbn [app length Resp.array_loop concat]. rewrite <- app_assoc.
    destruct (bulk_at_encoded pre b (concat (Resp.write_arg <$> args1) ++ p ++ t) Hb) as (start & -> & _).
    cbn [pbind]. rewrite <- length_app.
    rewrite (app_assoc pre (Resp.write_arg b)). by apply IH.
Qed.

(** A torn record with another record behind it is not a command. *)
Lemma parse_torn args p t :
  command_fits args → record_cut args p → record_ahead t → ∃ e, Resp.parse_command (p ++ t) = Failed e.
Proof.
  intros [Hn Hfit] Hcut Ht. set (L := u64_to_string (Z.of_nat (length args))).
  assert (Forall is_digit L) as HL by (apply u64_to_string_digits; lia).
  destruct Hcut as [p q Hpq Hq|args1 a args2 p Hargs Hcut].
  - destruct (read_line_torn [x2a] p q _ t HL Hpq Hq Ht) as (line & pos & Hl & e & He).
    unfold Resp.parse_command, Resp.parse_array_command. cbn [app length] in *.
    rewrite bool_decide_eq_true_2, Hl, He by done. simpl. eauto.
  - unfold Resp.parse_command. rewrite <- app_assoc. cbn [app]. rewrite bool_decide_eq_true_2 by done.
    unfold Resp.parse_array_command. fold L. rewrite <- !app_assoc.
    change (x2a :: L ++ ?x) with ([x2a] ++ L ++ x). change 1%nat with (length [x2a]) at 1.
    rewrite read_line_at by (by apply digits_no_CR).
    unfold L at 1. unfold Resp.MAX_ARRAY_LEN in *. rewrite parse_int_to_string;
      [|lia|apply in_i64_spec; lia]. cbn [pbind].
    destruct (Z.ltb_spec (Z.of_nat (length args)) 0); [lia|].
    destruct (Z.ltb_spec (1024 * 1024) (Z.of_nat (length args))); [lia|]. rewrite Nat2Z.id.
    replace (length [x2a] + length L + 2)%nat with (length ([x2a] ++ L ++ Resp.CRLF))
      by (rewrite !length_app; simpl; lia).
    rewrite (app_assoc L), (app_assoc [x2a]).
    rewrite Hargs in Hfit |- *. by apply array_loop_torn.
Qed.

Lemma record_cut_prefix args p : record_cut args p → ∃ n, (n < length (Resp.write_cmd [] args))%nat ∧ p = take n (Resp.write_cmd [] args).
Proof.
  intros Hcut. assert (∃ q, Resp.write_cmd [] args = p ++ q ∧ q ≠ []) as (q & -> & Hq).
  { rewrite write_cmd_concat, app_nil_l.
    destruct Hcut as [p q Hpq Hq|args1 a args2 p Hargs Hcut].
    - exists (q ++ concat (Resp.write_arg <$> args)).
      rewrite (app_assoc _ Resp.CRLF), Hpq, <- !app_assoc. split; [done|]. by destruct q.
    - assert (∃ q, Resp.write_arg a = p ++ q ∧ q ≠ []) as (q & Ha & Hq).
      { unfold Resp.write_arg. destruct Hcut as [|p' q Hpq Hq|p' q Hpq Hq].
        - by eexists.
        - exists (q ++ a ++ Resp.CRLF). rewrite (app_assoc _ Resp.CRLF), Hpq, <- !app_assoc.
          split; [done|]. by destruct q.
        - exists q. by rewrite <- !app_assoc, <- Hpq. }
      exists (q ++ concat (Resp.write_arg <$> args2)).
      split; [|by destruct q]. rewrite Hargs at 2. rewrite fmap_app, fmap_cons, concat_app. cbn [concat].
      by rewrite Ha, <- !app_assoc. }
  exists (length p). rewrite take_app_length, length_app. destruct q; [done|]. simpl. split; [lia|done].
Qed.

End torn_records.

Section torn_log.
Context {HO : HashOrder} {FT : FloatText}.
Implicit Types (cfg : Config) (sv : Server) (w : World).

(** Any history appends whole records to the log. *)
Lemma history_appends sv sv' file :
  reach 0 (store (world sv)) → (∀ t, aof_fault sv t = None) → aof sv = Some (aof_open file) →
  rtc (history_step (fun _ => True)) sv sv' →
  ∃ more, Forall sendable more ∧ aof sv' = Some (aof_open (file ++ encoded more)).
Proof.
  intros Hr Hf Ha Hrun.
  destruct (history_rebuilt (fun _ => True) (fun _ _ => True)) with (sv := sv) (sv' := sv')
    as (more & Hm & _ & _ & _ & Hfile); [done| |done|done|].
  - intros argv w w2 cfg st out _ _ (f & _ & Heq)%dispatch_effectful _. by exists f.
  - exists more. split; [done|]. by apply Hfile.
Qed.

(** What a start takes from a log. *)
Lemma bootstrap_until router cfg log rest snap faults links w :
  appendonly cfg = true → Forall sendable log → (∀ r, Resp.parse_command rest ≠ Complete r) →
  world (bootstrap router cfg (Some (encoded log ++ rest)) snap faults links w) =
  (dispatch_all cfg internal log
     (set_store w (Store.new (entropy w (tick w)) router (Z.to_nat (shards cfg)) (maxmemory cfg)))).1.
Proof.
  intros Hon Hlog Hrest. unfold bootstrap, load_aof, replay_file. set (w1 := set_store w _).
  rewrite Hon. cbn [andb]. rewrite bool_decide_eq_true_2 by done.
  pose proof (replay_loop_until cfg log rest [] internal 0 (S (length (encoded log ++ rest))) w1 Hlog Hrest
    ltac:(lia)) as H.
  rewrite app_nil_l in H. cbn [length] in H. by rewrite H.
Qed.

(** C35: a torn record hides what is logged after it.  A server was stopped while it
    wrote a record, so that the log ends with a part of it, cut anywhere but inside
    the bytes of an argument.  The restarted server opens the log for appending
    behind the torn bytes and serves any commands, each of which is logged.  The
    next start takes nothing of them: it does what it would do on the log of before
    the first stop. *)
Theorem aof_torn_tail_hides_writes log next torn cfg router snap faults links w0 sv'
    cfg' router' snap' faults' links' w1 :
  Forall sendable log → command_fits next → record_cut next torn →
  appendonly cfg = true → maxmemory cfg = 0 → (∀ t, faults t = None) →
  rtc (history_step (fun _ => True))
    (bootstrap router cfg (Some (encoded log ++ torn)) snap faults links w0) sv' →
  appendonly cfg' = true →
  ∃ more, Forall sendable more ∧ aof sv' = Some (aof_open (encoded log ++ torn ++ encoded more)) ∧
    world (bootstrap router' cfg' (Some (encoded log ++ torn ++ encoded more)) snap' faults' links' w1) =
    world (bootstrap router' cfg' (Some (encoded log)) snap' faults' links' w1).
Proof.
  intros Hlog Hfit Hcut Hon Hmm Hf Hrun Hon'.
  set (sv := bootstrap router cfg _ snap faults links w0) in *.
  assert (aof sv = Some (aof_open (encoded log ++ torn)) ∧ aof_fault sv = faults) as [Ha Hfa].
  { unfold sv, bootstrap. rewrite Hon. cbn [andb]. rewrite bool_decide_eq_true_2 by done.
    by destruct (load_aof cfg _ _). }
  destruct (history_appends sv sv' (encoded log ++ torn)) as (more & Hm & Hfile); [..|exact Hrun|].
  { rewrite <- Hmm. apply bootstrap_reach. lia. }
  { by rewrite Hfa. }
  { done. }
  exists more. rewrite <- app_assoc in Hfile. split_and!; [done..|].
  rewrite bootstrap_until; [|done..|].
  - rewrite <- (app_nil_r (encoded log)). by rewrite bootstrap_until.
  - intros r Hr. destruct (decide (more = [])) as [->|Hne].
    + destruct (record_cut_prefix next torn Hcut) as (n & Hn & ->).
      change (encoded []) with (@nil byte) in Hr. rewrite app_nil_r in Hr.
      by rewrite parse_encoded_prefix in Hr.
    + destruct (parse_torn next torn (encoded more) Hfit Hcut (encoded_ahead more Hne)) as [e He]. congruence.
Qed.

End torn_log.

(** ** Replay at a later time *)

Section commands.
Context {HO : HashOrder} {FT : FloatText}.
Context (now : Z).
Implicit Types (w : World) (k v : bytes) (argv : list bytes) (m : Db.t).

(** The command leads to the database [m], on any connection; [p] says whether it
    is to be logged. *)
Definition leads_to argv w (p : bool) m : Prop :=
  ∀ st cfg, let '(w', (st', o)) := dispatch argv st cfg w in
    steady now w' ∧ st' = st ∧ persist o = p ∧ ⟦store w'⟧ = m.

Lemma call_leads_to {R : Type} (o : Op) (C : R → Ret) (f : Z → Store.t → Store.t * R) (g : R → Outcome)
    argv w m :
  (∀ st cfg, dispatch argv st cfg w = (o ← (r ← call f; mret (g r)); mret (st, o)) w) →
  (∀ t s, Store.exec t s o = prod_map id C (f t s)) → op_ok o → steady now w →
  (Db.exec now ⟦store w⟧ o).1 = m →
  (∀ r, C r = (Db.exec now ⟦store w⟧ o).2 → persist (g r) = true) → leads_to argv w true m.
Proof.
  intros Heq Hf Ho Hw Hm Hg st cfg. rewrite Heq. unfold mbind, M_bind.
  destruct (call_steady now o C f w Hf Ho Hw) as (Hs & Hr & Ha). destruct (call f w) as [w' r].
  cbn [fst snd] in *. unfold mret, M_ret. split_and!; [done|done|by apply Hg|by rewrite Ha].
Qed.

Lemma parse_time (t : Z) : 0 <= t <= i64_max → parse_i64_bytes (u64_to_string t) = Some t.
Proof.
  intros Ht. pose proof (parse_i64_to_string t) as Hp. unfold i64_to_string in Hp.
  destruct (Z.ltb_spec t 0); [lia|]. apply Hp. apply in_i64_spec. unfold i64_max in Ht. lia.
Qed.

(** What is left of [SET] once its options are read. *)
Lemma set_leads_to argv w k v opts :
  (∀ st cfg, dispatch argv st cfg w =
     (o ← (did ← call (fun n s' => Store.set n s' k v opts);
           mret (out_maybe (if (did : bool) then ok else Bulk None) did)); mret (st, o))
       (set_store w (store w))) →
  nx opts = false → xx opts = false → keep_ttl opts = false → steady now w →
  leads_to argv w true (<[k := mkEntry (VStr v) (opt_expire_at opts)]> ⟦store w⟧).
Proof.
  intros Heq Hnx Hxx Hkeep Hw st cfg. assert (steady now (set_store w (store w))) as Hw' by exact Hw. rewrite Heq.
  destruct (call_steady now (OSet k v opts) RBool (fun n s' => Store.set n s' k v opts)
    (set_store w (store w)) ltac:(done) ltac:(done) Hw') as (Hs & Hr & Ha).
  unfold mbind, M_bind. destruct (call _ (set_store w (store w))) as [w' did]. cbn [fst snd] in *.
  cbn [Db.exec store set_store] in Hr, Ha.
  assert (Db.set now ⟦store w⟧ k v opts = (<[k := mkEntry (VStr v) (opt_expire_at opts)]> ⟦store w⟧, true)) as Hset.
  { unfold Db.set. rewrite Hnx, Hxx, Hkeep. by destruct (Db.find now ⟦store w⟧ k). }
  rewrite Hset in Hr, Ha. cbn [prod_map fst snd] in Hr, Ha. injection Hr as ->.
  unfold mret, M_ret. by split_and!.
Qed.

Lemma set_pxat w k v t :
  steady now w → 0 <= t <= i64_max →
  leads_to [lit "SET"; k; v; lit "PXAT"; u64_to_string t] w true (<[k := mkEntry (VStr v) (Some t)]> ⟦store w⟧).
Proof.
  intros Hw Ht. set (opts := mkSetOptions false false false (Some t)).
  apply (set_leads_to _ w k v opts); [|done..]. intros st cfg.
  change (dispatch [lit "SET"; k; v; lit "PXAT"; u64_to_string t] st cfg w) with
    ((o ← set_cmd [lit "SET"; k; v; lit "PXAT"; u64_to_string t]; mret (st, o)) w).
  unfold set_cmd. cbn [length Nat.ltb Nat.leb drop]. unfold mbind, M_bind, now_ms, call at 1.
  assert (∀ n, set_opts n [lit "PXAT"; u64_to_string t] default_options false = inl (opts, false)) as Ho.
  { intros n. cbn [set_opts]. rewrite parse_time by done.
    transitivity (@inl _ Reply (mkSetOptions false false false (Some (Z.max t 0)), false)); [reflexivity|].
    by rewrite Z.max_l by lia. }
  by rewrite Ho.
Qed.

Lemma persist_live w k e t :
  steady now w → Db.find now ⟦store w⟧ k = Some e → expire_at e = Some t →
  leads_to [lit "PERSIST"; k] w true (<[k := mkEntry (value e) None]> ⟦store w⟧).
Proof.
  intros Hw Hk He st cfg.
  change (dispatch [lit "PERSIST"; k] st cfg w) with ((o ← persist_cmd [lit "PERSIST"; k]; mret (st, o)) w).
  unfold persist_cmd. change ([lit "PERSIST"; k] !!! 1%nat) with k.
  destruct (call_steady now (OPttl k) RTtl (fun n s => Store.pttl n s k) w ltac:(done) ltac:(done) Hw) as (Hs & Hr & Ha).
  unfold mbind, M_bind. destruct (call (fun n s => Store.pttl n s k) w) as [w1 cur]. cbn [fst snd] in *.
  cbn [Db.exec fst snd] in Hr, Ha. unfold Db.purge in Ha. rewrite Hk in Hr, Ha. rewrite He in Hr.
  injection Hr as ->. cbn [is_millis].
  destruct (call_steady now (OExpireAt k None) RBool (fun n s => Store.expire_at n s k None) w1
    ltac:(done) ltac:(done) Hs) as (Hs2 & _ & Ha2).
  destruct (call (fun n s => Store.expire_at n s k None) w1) as [w2 b]. cbn [fst snd] in *.
  unfold mret, M_ret. split_and!; [done..|]. rewrite Ha2. cbn [Db.exec]. by rewrite Ha, Hk.
Qed.

Lemma persist_absent w k :
  steady now w → Db.find now ⟦store w⟧ k = None →
  leads_to [lit "PERSIST"; k] w false (delete k ⟦store w⟧).
Proof.
  intros Hw Hk st cfg.
  change (dispatch [lit "PERSIST"; k] st cfg w) with ((o ← persist_cmd [lit "PERSIST"; k]; mret (st, o)) w).
  unfold persist_cmd. change ([lit "PERSIST"; k] !!! 1%nat) with k.
  destruct (call_steady now (OPttl k) RTtl (fun n s => Store.pttl n s k) w ltac:(done) ltac:(done) Hw) as (Hs & Hr & Ha).
  unfold mbind, M_bind. destruct (call (fun n s => Store.pttl n s k) w) as [w1 cur]. cbn [fst snd] in *.
  cbn [Db.exec fst snd] in Hr, Ha. unfold Db.purge in Ha. rewrite Hk in Hr, Ha.
  injection Hr as ->. cbn [is_millis]. unfold mret, M_ret. by split_and!.
Qed.

(** [INCR] of a number, of which nothing counts as 0. *)
Lemma incr_number w k n :
  steady now w → in_i64 n = true → in_i64 (n + 1) = true →
  match Db.find now ⟦store w⟧ k with
  | Some e => value e = VStr (i64_to_string n)
  | None => n = 0
  end →
  leads_to [lit "INCR"; k] w true
    (<[k := mkEntry (VStr (i64_to_string (n + 1))) (e ← Db.find now ⟦store w⟧ k; expire_at e)]> ⟦store w⟧).
Proof.
  intros Hw Hn Hn1 Hk.
  assert (Db.incr_by now ⟦store w⟧ k 1 =
    (<[k := mkEntry (VStr (i64_to_string (n + 1))) (e ← Db.find now ⟦store w⟧ k; expire_at e)]> ⟦store w⟧,
     Ok (n + 1))) as Hincr.
  { unfold Db.incr_by, Db.rewrite_str. destruct (Db.find now ⟦store w⟧ k) as [e|].
    - rewrite Hk, parse_counter_to_string, Hn1 by done. done.
    - subst n. done. }
  apply (call_leads_to (OIncrBy k 1) RInt (fun t s => Store.incr_by t s k 1) incr_reply); [done..| |].
  - cbn [Db.exec]. by rewrite Hincr.
  - intros r. cbn [Db.exec]. rewrite Hincr. cbn. by intros [= ->].
Qed.

End commands.

Section later.
Context {HO : HashOrder} {FT : FloatText}.
Implicit Types (w : World) (sv : Server) (k v : bytes) (argv : list bytes) (m : Db.t) (st : ConnState).

Definition is_sync argv : bool :=
  bool_decide (upper (argv !!! 0%nat) = lit "SYNC") || bool_decide (upper (argv !!! 0%nat) = lit "PSYNC").

(** A server that logs, on a disk without faults, and takes writes. *)
Definition logs_to sv (file : bytes) : Prop :=
  aof sv = Some (aof_open file) ∧ (∀ t, aof_fault sv t = None) ∧ read_only sv = false.

(** Serving a write: it is executed and logged. *)
Lemma handle_write now raw sv st argv out m file :
  steady now (world sv) → logs_to sv file → authenticated st = true → is_sync argv = false →
  leads_to now argv (world sv) true m →
  let sv' := (handle_command raw sv st argv out).1.1.1 in
  steady now (world sv') ∧ logs_to sv' (file ++ encoded [argv]) ∧ ⟦store (world sv')⟧ = m.
Proof.
  intros Hs (Ha & Hf & Hro) Hauth Hsync Hlead.
  pose proof (handle_command_ok 0 ltac:(lia) raw sv st argv out (proj1 Hs)) as Hok.
  pose proof (handle_command_environment raw sv st argv out) as [Henv _].
  pose proof (execute_store now sv st argv out Hs) as Hst.
  assert ((execute (world sv) (config sv) st argv out).2 = true) as Hwr.
  { specialize (Hlead st (config sv)). unfold execute. destruct (serve_fast st argv out) as [f|] eqn:Hm.
    - pose proof (fast_path_ok 0 (world sv) (config sv) st argv out f ltac:(lia) (proj1 Hs)
        ltac:(intros i; by rewrite !(proj2 Hs)) Hm) as Hfast.
      destruct (f (world sv)) as [w1 [out1 b]], (dispatch argv st (config sv) (world sv)) as [w2 [st2 o]].
      destruct Hfast as (_ & _ & -> & _). by destruct Hlead as (_ & _ & -> & _).
    - destruct (dispatch argv st (config sv) (world sv)) as [w2 [st2 o]]. by destruct Hlead as (_ & _ & -> & _). }
  assert (let sv' := (handle_command raw sv st argv out).1.1.1 in
    world sv' = (execute (world sv) (config sv) st argv out).1.1.1.1 ∧
    aof sv' = Some (aof_open (file ++ encoded [argv]))) as [Hw Ha'].
  { unfold handle_command. fold (is_sync argv). rewrite Hsync, Hauth, Hro. cbn [negb andb].
    destruct (execute (world sv) (config sv) st argv out) as [[[[w' st'] out'] q] b]. cbn [snd] in Hwr. subst b.
    cbn [andb aof set_world]. rewrite bool_decide_eq_true_2 by (rewrite Ha; done). cbn [orb].
    pose proof (log_write_world (set_world sv w') argv out') as Hlw.
    pose proof (log_write_aof (set_world sv w') argv out') as Hl.
    destruct (log_write (set_world sv w') argv out') as [[sv2 out2] failed]. destruct Hl as [Hl _].
    cbn [fst]. cbn [fst] in Hlw. split; [by rewrite Hlw|].
    by apply (log_outcome_file (set_world sv w') argv sv2 _ file Hf Ha Hl). }
  destruct (handle_command raw sv st argv out) as [[[sv' st'] out'] fl]. cbn [fst] in *.
  destruct Hok as (Hr' & Hc' & _ & Hro' & _). specialize (Hlead st (config sv)).
  split; [split; [done|rewrite Hc'; apply Hs]|]. split; [split_and!; [done|by rewrite Henv|by rewrite Hro']|].
  rewrite Hw. destruct (execute (world sv) (config sv) st argv out) as [[[[w' st1] out1] q] b].
  cbn [fst] in *. rewrite Hst. destruct (dispatch argv st (config sv) (world sv)) as [w2 [st2 o]].
  apply Hlead.
Qed.

Lemma dispatch_all_steady now cmds cfg st w : steady now w → steady now (dispatch_all cfg st cmds w).1.
Proof.
  revert st w. induction cmds as [|argv cmds IH]; intros st w Hw; [done|].
  cbn [dispatch_all]. unfold mbind, M_bind.
  pose proof (dispatch_quiet 0 ltac:(lia) argv st cfg w (proj1 Hw)) as Hq.
  destruct (dispatch argv st cfg w) as [w' [st' o]]. destruct Hq as (? & Hc & _). apply IH.
  split; [done|]. rewrite Hc. apply Hw.
Qed.

(** The two commands that are served last, and the start from the log. *)
Definition serve_last raw sv st (a b : list bytes) : Server :=
  (handle_command raw (handle_command raw sv st a []).1.1.1 st b []).1.1.1.

Lemma serve_two (now : Z) (raw : bool) sv st (a b : list bytes) (log : list (list bytes)) (ma mb : Db.t → Db.t) :
  steady now (world sv) → logs_to sv (encoded log) → authenticated st = true →
  is_sync a = false → is_sync b = false →
  (∀ w, steady now w → leads_to now a w true (ma ⟦store w⟧)) →
  (∀ w m, steady now w → ⟦store w⟧ = ma m → leads_to now b w true (mb ⟦store w⟧)) →
  let sv' := serve_last raw sv st a b in
  steady now (world sv') ∧ logs_to sv' (encoded (log ++ [a; b])) ∧ ⟦store (world sv')⟧ = mb (ma ⟦store (world sv)⟧).
Proof.
  intros Hs Hl Hauth Hna Hnb Ha Hb. unfold serve_last.
  destruct (handle_write now raw sv st a [] _ _ Hs Hl Hauth Hna (Ha _ Hs)) as (Hs1 & Hl1 & Hm1).
  destruct (handle_write now raw _ st b [] _ _ Hs1 Hl1 Hauth Hnb (Hb _ _ Hs1 Hm1)) as (Hs2 & Hl2 & Hm2).
  rewrite Hm1 in Hm2. split_and!; [done| |done].
  by rewrite <- app_assoc, <- !encoded_app in Hl2.
Qed.

Lemma replay_last (now : Z) (router : bytes → Z) (cfg : Config) (log : list (list bytes)) (a b : list bytes) (snap : option bytes) (faults : nat → Fault)
    (links : nat → nat → bool) w0 (pa pb : bool) (ma mb : Db.t → Db.t) :
  appendonly cfg = true → maxmemory cfg = 0 → (∀ i, clock w0 i = now) →
  Forall sendable (log ++ [a; b]) →
  (∀ w, steady now w → leads_to now a w pa (ma ⟦store w⟧)) →
  (∀ w m, steady now w → ⟦store w⟧ = ma m → leads_to now b w pb (mb ⟦store w⟧)) →
  ∃ m, ⟦store (world (bootstrap router cfg (Some (encoded (log ++ [a; b]))) snap faults links w0))⟧ = mb (ma m).
Proof.
  intros Hon Hmm Hc Hlog Ha Hb. destruct (fresh_steady now cfg router w0 Hmm Hc) as [Hw1 _].
  rewrite <- (app_nil_r (encoded _)), bootstrap_until by done. set (w1 := set_store w0 _) in *.
  pose proof (dispatch_all_steady now log cfg internal w1 Hw1) as Hs. rewrite dispatch_all_app.
  destruct (dispatch_all cfg internal log w1) as [w2 st2]. cbn [fst] in Hs. cbn [dispatch_all].
  unfold mbind, M_bind. pose proof (Ha w2 Hs st2 cfg) as H2. destruct (dispatch a st2 cfg w2) as [w3 [st3 o3]].
  destruct H2 as (Hs3 & _ & _ & Hm3). pose proof (Hb w3 _ Hs3 Hm3 st3 cfg) as H3.
  destruct (dispatch b st3 cfg w3) as [w4 [st4 o4]]. destruct H3 as (_ & _ & _ & Hm4). cbn [fst].
  exists ⟦store w2⟧. change (⟦store w4⟧ = mb (ma ⟦store w2⟧)). by rewrite Hm4, Hm3.
Qed.

End later.

(** A server has served anything since it started empty with an empty log; then a
    key that expires at [x] is stored at [t] and used once more, and the server is
    restarted at [t'], when [x] has passed. *)
Section later_replay.
Context {HO : HashOrder} {FT : FloatText}.
Context (t x t' : Z) (Hx : t < x <= t') (Hx64 : 0 <= x <= i64_max).
Context (sv : Server) (raw : bool) (st : ConnState) (log : list (list bytes)).
Context (Hsv : steady t (world sv)) (Hlog : Forall sendable log) (Hl : logs_to sv (encoded log)).
Context (Hauth : authenticated st = true).
Context (router : bytes → Z) (cfg : Config) (snap : option bytes) (faults : nat → Fault)
  (links : nat → nat → bool) (w0 : World).
Context (Hon : appendonly cfg = true) (Hmm : maxmemory cfg = 0) (Hc : ∀ i, clock w0 i = t').
Implicit Types (k v : bytes) (n : Z) (m : Db.t).

Definition set_until k v : list bytes := [lit "SET"; k; v; lit "PXAT"; u64_to_string x].

Lemma key_command_fits (c : bytes) k : bulk_fits c → bulk_fits k → sendable [c; k].
Proof. intros Hc' Hk. split; [done|]. split; [by compute|]. by repeat constructor. Qed.

Lemma found_before m k v : Db.find t (<[k := mkEntry (VStr v) (Some x)]> m) k = Some (mkEntry (VStr v) (Some x)).
Proof.
  apply Db.find_Some. rewrite lookup_insert_eq. split; [done|].
  unfold Shard.unexpired. cbn. apply negb_true_iff, Z.leb_gt. lia.
Qed.

Lemma gone_after m k v : Db.find t' (<[k := mkEntry (VStr v) (Some x)]> m) k = None.
Proof.
  unfold Db.find. rewrite lookup_insert_eq. unfold Shard.unexpired. cbn.
  rewrite (proj2 (Z.leb_le _ _)) by lia. done.
Qed.

Lemma persisted_key_lost k v :
  bulk_fits k → sendable (set_until k v) →
  let sv' := serve_last raw sv st (set_until k v) [lit "PERSIST"; k] in
  ⟦store (world sv')⟧ !! k = Some (mkEntry (VStr v) None) ∧
  ∃ file, logs_to sv' file ∧
    Db.find t' ⟦store (world (bootstrap router cfg (Some file) snap faults links w0))⟧ k = None.
Proof.
  intros Hk Hset.
  destruct (serve_two t raw sv st (set_until k v) [lit "PERSIST"; k] log
    (fun m => <[k := mkEntry (VStr v) (Some x)]> m) (fun m => <[k := mkEntry (VStr v) None]> m))
    as (_ & Hl' & Hm); [done..| | |].
  { intros w Hw. by apply set_pxat. }
  { intros w m Hw Hm. apply (persist_live t w k (mkEntry (VStr v) (Some x)) x); [done| |done]. rewrite Hm. apply found_before. }
  split; [by rewrite Hm, lookup_insert_eq|]. eexists. split; [exact Hl'|].
  destruct (replay_last t' router cfg log (set_until k v) [lit "PERSIST"; k] snap faults links w0 true false
    (fun m => <[k := mkEntry (VStr v) (Some x)]> m) (fun m => delete k m)) as [m ->]; [done..| | | |].
  { apply Forall_app. split; [done|]. by apply Forall_cons_2, Forall_cons_2; [|apply key_command_fits|]. }
  { intros w Hw. by apply set_pxat. }
  { intros w m Hw Hm'. apply persist_absent; [done|]. rewrite Hm'. apply gone_after. }
  unfold Db.find. by rewrite lookup_delete_eq.
Qed.

Lemma counter_revived k n :
  in_i64 n = true → in_i64 (n + 1) = true → bulk_fits k → sendable (set_until k (i64_to_string n)) →
  let sv' := serve_last raw sv st (set_until k (i64_to_string n)) [lit "INCR"; k] in
  ⟦store (world sv')⟧ !! k = Some (mkEntry (VStr (i64_to_string (n + 1))) (Some x)) ∧
  Db.find t' ⟦store (world sv')⟧ k = None ∧
  ∃ file, logs_to sv' file ∧
    ⟦store (world (bootstrap router cfg (Some file) snap faults links w0))⟧ !! k =
    Some (mkEntry (VStr (i64_to_string 1)) None).
Proof.
  intros Hn Hn1 Hk Hset. set (v := i64_to_string n).
  destruct (serve_two t raw sv st (set_until k v) [lit "INCR"; k] log
    (fun m => <[k := mkEntry (VStr v) (Some x)]> m)
    (fun m => <[k := mkEntry (VStr (i64_to_string (n + 1))) (Some x)]> m)) as (_ & Hl' & Hm); [done..| | |].
  { intros w Hw. by apply set_pxat. }
  { intros w m Hw Hm. pose proof (incr_number t w k n Hw Hn Hn1) as Hi.
    rewrite Hm, found_before in Hi. rewrite Hm. by apply Hi. }
  split; [by rewrite Hm, lookup_insert_eq|]. split; [rewrite Hm; apply gone_after|].
  eexists. split; [exact Hl'|].
  destruct (replay_last t' router cfg log (set_until k v) [lit "INCR"; k] snap faults links w0 true true
    (fun m => <[k := mkEntry (VStr v) (Some x)]> m)
    (fun m => <[k := mkEntry (VStr (i64_to_string 1)) None]> m)) as [m ->]; [done..| | | |].
  { apply Forall_app. split; [done|]. by apply Forall_cons_2, Forall_cons_2; [|apply key_command_fits|]. }
  { intros w Hw. by apply set_pxat. }
  { intros w m Hw Hm'. pose proof (incr_number t' w k 0 Hw eq_refl eq_refl) as Hi.
    rewrite Hm', gone_after in Hi. rewrite Hm'. by apply Hi. }
  by rewrite lookup_insert_eq.
Qed.

End later_replay.

Section later_theorem.
Context {HO : HashOrder} {FT : FloatText}.

Lemma server_run_read_only sv sv' :
  reach 0 (store (world sv)) → rtc server_step sv sv' → read_only sv' = read_only sv.
Proof.
  intros Hr Hrun. revert Hr. induction Hrun as [|sv1 sv2 sv3 Hstep _ IH]; intros Hr; [done|].
  assert (reach 0 (store (world sv2)) ∧ read_only sv2 = read_only sv1) as [Hr2 <-]; [|by apply IH].
  destruct Hstep as [raw sv st argv out _|sv]; [|split; [by apply reaper_turn_reach|done]].
  pose proof (handle_command_ok 0 ltac:(lia) raw sv st argv out Hr) as Hok.
  destruct (handle_command raw sv st argv out) as [[[sv' st'] out'] fl]. by destruct Hok as (? & _ & _ & ? & _).
Qed.

Lemma dec_loop_length fuel v acc : (length (dec_loop fuel v acc) <= fuel + length acc)%nat.
Proof.
  revert v acc. induction fuel as [|fuel IH]; intros v acc; simpl; [done|].
  destruct (v =? 0); [lia|]. etrans; [apply IH|]. simpl. lia.
Qed.

Lemma number_fits n : bulk_fits (i64_to_string n).
Proof.
  assert (∀ v, (length (u64_to_string v) <= 20)%nat) as Hu.
  { intros v. unfold u64_to_string. destruct (v =? 0); [simpl; lia|].
    etrans; [apply dec_loop_length|]. simpl. lia. }
  unfold bulk_fits, i64_to_string, Resp.MAX_BULK_LEN.
  destruct (n <? 0); [specialize (Hu (- n)); cbn [length]|specialize (Hu n)]; lia.
Qed.

(** C38: a restart loses lasting keys and revives expired ones.  A server that started
    with an empty append-only file has served any commands; at time [t] it is sent
    [SET k .. PXAT x], which is to expire later, and one more command.  Then it is
    restarted when [x] has passed.  Where the second command is [PERSIST k], the
    server keeps the key for ever and the restarted one does not have it: there,
    the key had expired before it was made persistent.  Where the key holds a
    number and the second command is [INCR k], the server no longer shows the key,
    while the restarted one shows 1, for ever. *)
Theorem later_replay_differs t x t' sv0 sv raw st k v n cfg router snap faults links w0 :
  t < x <= t' → 0 <= x <= i64_max → in_i64 n = true → in_i64 (n + 1) = true →
  sendable (set_until x k v) →
  steady t (world sv0) → logs_to sv0 [] → rtc server_step sv0 sv → authenticated st = true →
  appendonly cfg = true → maxmemory cfg = 0 → (∀ i, clock w0 i = t') →
  let restarted file := bootstrap router cfg (Some file) snap faults links w0 in
  (let sv' := serve_last raw sv st (set_until x k v) [lit "PERSIST"; k] in
   ⟦store (world sv')⟧ !! k = Some (mkEntry (VStr v) None) ∧
   ∃ file, logs_to sv' file ∧ Db.find t' ⟦store (world (restarted file))⟧ k = None) ∧
  (let sv' := serve_last raw sv st (set_until x k (i64_to_string n)) [lit "INCR"; k] in
   ⟦store (world sv')⟧ !! k = Some (mkEntry (VStr (i64_to_string (n + 1))) (Some x)) ∧
   Db.find t' ⟦store (world sv')⟧ k = None ∧
   ∃ file, logs_to sv' file ∧
     ⟦store (world (restarted file))⟧ !! k = Some (mkEntry (VStr (i64_to_string 1)) None)).
Proof.
  intros Hx Hx64 Hn Hn1 Hset Hs0 (Ha0 & Hf & Hro) Hrun Hauth Hon Hmm Hc restarted.
  destruct (server_run_logged t sv0 sv Hs0 Hrun) as (Hs & [Hf' _] & log & (Hlog & _ & Ha & _)).
  assert (logs_to sv (encoded log)) as Hl.
  { split_and!; [by apply (Ha Hf [])|by rewrite Hf'|]. by rewrite (server_run_read_only sv0 sv (proj1 Hs0) Hrun). }
  destruct Hset as (Hne & Hlen & Hb). pose proof Hb as Hb'. unfold set_until in Hb. rewrite !Forall_cons in Hb.
  destruct Hb as (Hset & Hk & _ & Hpx & Htime & _). split.
  - by apply (persisted_key_lost t x t' Hx Hx64 sv raw st log).
  - apply (counter_revived t x t' Hx Hx64 sv raw st log); try done.
    split; [done|]. split; [done|]. by repeat constructor; try apply number_fits.
Qed.

End later_theorem.

(** ** Two races *)

Section races.
Context {HO : HashOrder} {FT : FloatText}.
Implicit Types (sv : Server) (w : World) (st : ConnState) (k v out : bytes) (argv : list bytes).

Definition set_to k v : list bytes := [lit "SET"; k; v].

Lemma set_plain now w k v : steady now w → leads_to now (set_to k v) w true (<[k := mkEntry (VStr v) None]> ⟦store w⟧).
Proof. by apply (set_leads_to now (set_to k v) w k v default_options). Qed.

(** *** The steps of a thread that serves a [SET] *)

Definition idle_with st out : Thread := mkThread st out Idle Next.

(** What a client that is served reads. *)
Definition plus_ok out : bytes := Resp.write_simple out (lit "OK").

Lemma begin_set now raw sv st out k v :
  steady now (world sv) → authenticated st = true → read_only sv = false →
  ∃ w', begin_command raw sv (idle_with st out) (set_to k v) =
          (set_world sv w', mkThread st (plus_ok out) (Logging (set_to k v) false) Next, true) ∧
        steady now w' ∧ ⟦store w'⟧ = <[k := mkEntry (VStr v) None]> ⟦store (world sv)⟧.
Proof.
  intros Hs Hauth Hro. exists (call (fun t s' => Store.set t s' k v default_options) (world sv)).1. split.
  - unfold begin_command, idle_with. cbn [tstate outbuf].
    change (upper (set_to k v !!! 0%nat)) with (lit "SET").
    rewrite (bool_decide_eq_false_2 (lit "SET" = lit "SYNC")), (bool_decide_eq_false_2 (lit "SET" = lit "PSYNC")) by done.
    rewrite Hauth, Hro. cbn [orb negb andb].
    assert (execute (world sv) (config sv) st (set_to k v) out =
      ((call (fun t s' => Store.set t s' k v default_options) (world sv)).1, st, plus_ok out, false, true)) as ->; [|done].
    unfold execute. change (serve_fast st (set_to k v) out) with
      (Some (_ ← call (fun now s => Store.set now s k v default_options); mret (plus_ok out, true))).
    cbv beta iota. unfold mbind, M_bind. by destruct (call _ (world sv)).
  - destruct (call_steady now (OSet k v default_options) RBool (fun t s' => Store.set t s' k v default_options)
      (world sv) ltac:(done) ltac:(done) Hs) as (Hs' & _ & Ha). split; [done|]. rewrite Ha. cbn [Db.exec].
    rewrite prod_map_fst. unfold Db.set. by destruct (Db.find now ⟦store (world sv)⟧ k).
Qed.

Lemma advance_logging sv st out argv file fl :
  aof sv = Some (aof_open file) → (∀ n, aof_fault sv n = None) →
  advance sv (mkThread st out (Logging argv false) fl) =
  (set_aof sv (Some (aof_open (file ++ encoded [argv]))), mkThread st out (Propagating argv false) Next).
Proof.
  intros Ha Hf. unfold advance. cbn [duty tstate outbuf].
  rewrite Ha, bool_decide_eq_true_2 by eauto. cbn [orb].
  pose proof (aof_append_ok (aof_open file) (aof_fault sv (tick (world sv))) argv) as Happ.
  destruct (aof_append _ _ argv) as [[disk buf] e]. destruct Happ as (_ & _ & Hd & He).
  specialize (He (Hf _)). subst e. destruct (Hd eq_refl) as [Hdisk Hbuf].
  cbn [on_disk buffered aof_open app] in *. subst disk buf. unfold encoded, aof_open. simpl. by rewrite app_nil_r.
Qed.

Lemma advance_propagating sv st out argv fl :
  ∃ sv', advance sv (mkThread st out (Propagating argv false) fl) = (sv', idle_with st out) ∧
    world sv' = world sv ∧ aof sv' = aof sv ∧ aof_fault sv' = aof_fault sv ∧ read_only sv' = read_only sv ∧
    link_down sv' = link_down sv ∧
    ((∀ n c, link_down sv n c = false) → length (replicas sv') = length (replicas sv)).
Proof.
  unfold advance. cbn [duty tstate outbuf]. eexists. split; [done|].
  destruct (has_replicas sv); [|done]. split_and!; try done. intros Hd.
  by rewrite propagate_all, length_fmap.
Qed.

(** *** The pool *)

Lemma move_begin_set now p i raw st out k v :
  threads p !! i = Some (idle_with st out) → steady now (world (psv p)) → authenticated st = true →
  read_only (psv p) = false →
  ∃ w', move p (Begins i raw (set_to k v)) =
          mkPool (set_world (psv p) w')
            (<[i := mkThread st (plus_ok out) (Logging (set_to k v) false) Next]> (threads p))
            (applied p ++ [(i, set_to k v)]) (logged_by p) ∧
        steady now w' ∧ ⟦store w'⟧ = <[k := mkEntry (VStr v) None]> ⟦store (world (psv p))⟧.
Proof.
  intros Hi Hs Hauth Hro. destruct (begin_set now raw (psv p) st out k v Hs Hauth Hro) as (w' & Hb & Hw).
  exists w'. split; [|done]. cbn [move]. rewrite Hi. unfold idle_with in *. by rewrite Hb.
Qed.

(** The two steps after the execution: the record, then the replicas. *)
Lemma move_finish p i st out argv file :
  threads p !! i = Some (mkThread st out (Logging argv false) Next) →
  aof (psv p) = Some (aof_open file) → (∀ n, aof_fault (psv p) n = None) →
  ∃ sv', moves p [Advances i; Advances i] =
           mkPool sv' (<[i := idle_with st out]> (threads p)) (applied p) (logged_by p ++ [(i, argv)]) ∧
    world sv' = world (psv p) ∧ aof sv' = Some (aof_open (file ++ encoded [argv])) ∧
    aof_fault sv' = aof_fault (psv p) ∧ read_only sv' = read_only (psv p) ∧ link_down sv' = link_down (psv p) ∧
    ((∀ n c, link_down (psv p) n c = false) → length (replicas sv') = length (replicas (psv p))).
Proof.
  intros Hi Ha Hf. cbn [moves foldl move]. rewrite Hi, (advance_logging _ _ _ _ file) by done. cbn [duty].
  set (sv1 := set_aof (psv p) _). cbn [threads psv applied logged_by]. rewrite lookup_insert_eq.
  destruct (advance_propagating sv1 st out argv Next) as (sv' & -> & H). exists sv'.
  cbn [duty applied logged_by]. rewrite insert_insert_eq. by split.
Qed.

(** Run thread [i], which has executed [a], to the end of its command. *)
Ltac finish i st a file sv H :=
  match goal with
  | |- context [moves ?p [Advances i; Advances i]] =>
      destruct (move_finish p i st (plus_ok []) a file) as (sv & -> & H)
  end.

(** Both writes are applied, then the second thread is first at the log. *)
Definition crossing_writes i j k v1 v2 : list Move :=
  [Begins i true (set_to k v1); Begins j true (set_to k v2); Advances j; Advances j; Advances i; Advances i].

(** The dump is taken, a write is served, and then the replica is registered. *)
Definition crossing_sync i j k v : list Move :=
  [Begins i true [lit "SYNC"]; Begins j true (set_to k v); Advances j; Advances j; Advances i].

Lemma crossing_writes_end now sv ts i j sti stj k v1 v2 file :
  steady now (world sv) → logs_to sv file → i ≠ j →
  ts !! i = Some (idle_with sti []) → ts !! j = Some (idle_with stj []) →
  authenticated sti = true → authenticated stj = true →
  let p := moves (mkPool sv ts [] []) (crossing_writes i j k v1 v2) in
  threads p = <[i := idle_with sti (plus_ok [])]> (<[j := idle_with stj (plus_ok [])]> ts) ∧
  ⟦store (world (psv p))⟧ !! k = Some (mkEntry (VStr v2) None) ∧
  aof (psv p) = Some (aof_open (file ++ encoded [set_to k v2; set_to k v1])).
Proof.
  intros Hs (Ha & Hf & Hro) Hij Hi Hj Hai Haj. cbv zeta. unfold crossing_writes.
  change (moves ?p [?a; ?b; ?c; ?c; ?d; ?d]) with (moves (moves (move (move p a) b) [c; c]) [d; d]).
  destruct (move_begin_set now (mkPool sv ts [] []) i true sti [] k v1) as (w1 & -> & Hs1 & _); [done..|].
  cbn [psv threads applied logged_by app].
  destruct (move_begin_set now (mkPool (set_world sv w1)
    (<[i := mkThread sti (plus_ok []) (Logging (set_to k v1) false) Next]> ts) [(i, set_to k v1)] [])
    j true stj [] k v2) as (w2 & -> & Hs2 & Hm2); [by cbn; rewrite lookup_insert_ne|done..|].
  cbn [psv threads applied logged_by app world set_world].
  finish j stj (set_to k v2) file sv3 Hsv3;
    [by cbn; rewrite lookup_insert_eq|exact Ha|exact Hf|]. destruct Hsv3 as (Hw3 & Ha3 & Hf3 & _).
  cbn [psv threads applied logged_by app world set_world aof_fault] in *.
  finish i sti (set_to k v1) (file ++ encoded [set_to k v2]) sv4 Hsv4;
    [by cbn; rewrite !(lookup_insert_ne _ j i), lookup_insert_eq|exact Ha3|cbn [psv]; rewrite Hf3; exact Hf|].
  destruct Hsv4 as (Hw4 & Ha4 & _).
  cbn [psv threads] in *. split_and!.
  - rewrite insert_insert_eq, (insert_insert_ne _ i j), insert_insert_eq by done.
    by rewrite insert_insert_ne.
  - by rewrite Hw4, Hw3, Hm2, lookup_insert_eq.
  - by rewrite Ha4, <- app_assoc, <- encoded_app.
Qed.

Lemma crossing_sync_end now sv ts i j sti stj k v file :
  steady now (world sv) → logs_to sv file → (∀ n c, link_down sv n c = false) → i ≠ j →
  ts !! i = Some (idle_with sti []) → ts !! j = Some (idle_with stj []) → authenticated stj = true →
  let p := moves (mkPool sv ts [] []) (crossing_sync i j k v) in
  threads p = <[i := mkThread sti [] Idle Passive]> (<[j := idle_with stj (plus_ok [])]> ts) ∧
  ⟦store (world (psv p))⟧ !! k = Some (mkEntry (VStr v) None) ∧
  replicas (psv p) !! length (replicas sv) = Some (dump_commands now (store (world sv))).
Proof.
  intros Hs (Ha & Hf & Hro) Hlink Hij Hi Hj Haj. cbv zeta. unfold crossing_sync.
  change (moves ?p [?a; ?b; ?c; ?c; ?d]) with (move (moves (move (move p a) b) [c; c]) d).
  assert (move (mkPool sv ts [] []) (Begins i true [lit "SYNC"]) =
    mkPool (set_world sv (set_store (world sv) (store (world sv))))
      (<[i := mkThread sti [] (Registering (dump_commands now (store (world sv)))) Next]> ts) [] []) as ->.
  { cbn [move threads]. rewrite Hi. unfold idle_with. unfold begin_command. cbn [psv tstate outbuf].
    rewrite <- (proj2 Hs (tick (world sv))). reflexivity. }
  set (data := dump_commands now (store (world sv))). set (sv1 := set_world sv _).
  destruct (move_begin_set now (mkPool sv1 (<[i := mkThread sti [] (Registering data) Next]> ts) [] [])
    j true stj [] k v) as (w2 & -> & Hs2 & Hm2); [by cbn; rewrite lookup_insert_ne|exact Hs|done..|].
  cbn [psv threads applied logged_by app].
  finish j stj (set_to k v) file sv3 Hsv3; [by cbn; rewrite lookup_insert_eq|exact Ha|exact Hf|].
  destruct Hsv3 as (Hw3 & _ & _ & _ & Hl3 & Hr3).
  cbn [psv link_down set_world world] in *. specialize (Hr3 Hlink). cbn [replicas set_world] in Hr3.
  cbn [move threads]. rewrite !(lookup_insert_ne _ j i), lookup_insert_eq by done.
  unfold advance. cbn [duty psv tstate outbuf threads]. unfold add_replica_with_snapshot.
  rewrite Hl3. change (link_down sv1) with (link_down sv). rewrite Hlink.
  cbn [psv threads world set_replicas replicas]. split_and!.
  - rewrite insert_insert_eq, (insert_insert_ne _ i j), insert_insert_eq by done. by rewrite insert_insert_ne.
  - by rewrite Hw3, Hm2, lookup_insert_eq.
  - rewrite lookup_app_r by (rewrite Hr3; done). rewrite Hr3. change (replicas sv1) with (replicas sv).
    by rewrite Nat.sub_diag.
Qed.

(** C39: two races lose data.  A server that logs, with any data and any log, has two
    clients.  If they set one key at the same time, both are answered OK and the
    second value is in memory, but their records may be appended in the other
    order: then a restart brings back the first value.  If one of them asks for
    a synchronisation and the other sets the key between the dump and the
    registration, it is answered OK and the primary has the key, but all that the
    replica is sent is the dump from before the write, so that it shows the key
    as it was, with nothing left to be sent. *)
Theorem races_lose_data now sv ts i j sti stj k v1 v2 log cfg router snap faults links w0 cfg' reads w1 :
  steady now (world sv) → logs_to sv (encoded log) → Forall sendable log → (∀ n c, link_down sv n c = false) →
  all_restorable now (store (world sv)) →
  i ≠ j → ts !! i = Some (idle_with sti []) → ts !! j = Some (idle_with stj []) →
  authenticated sti = true → authenticated stj = true → sendable (set_to k v1) → sendable (set_to k v2) →
  appendonly cfg = true → maxmemory cfg = 0 → (∀ n, clock w0 n = now) →
  steady now w1 → ⟦store w1⟧ = ∅ →
  (let p := moves (mkPool sv ts [] []) (crossing_writes i j k v1 v2) in
   threads p = <[i := idle_with sti (plus_ok [])]> (<[j := idle_with stj (plus_ok [])]> ts) ∧
   ⟦store (world (psv p))⟧ !! k = Some (mkEntry (VStr v2) None) ∧
   ∃ file, aof (psv p) = Some (aof_open file) ∧
     ⟦store (world (bootstrap router cfg (Some file) snap faults links w0))⟧ !! k =
     Some (mkEntry (VStr v1) None)) ∧
  (let p := moves (mkPool sv ts [] []) (crossing_sync i j k v2) in
   threads p = <[i := mkThread sti [] Idle Passive]> (<[j := idle_with stj (plus_ok [])]> ts) ∧
   ⟦store (world (psv p))⟧ !! k = Some (mkEntry (VStr v2) None) ∧
   ∃ feed, replicas (psv p) !! length (replicas sv) = Some feed ∧
     (delivers cfg' feed reads →
      Db.find now ⟦store (sync_once cfg' reads w1).1⟧ k = Db.find now ⟦store (world sv)⟧ k)).
Proof.
  intros Hs Hl Hlog Hlink Hres Hij Hi Hj Hai Haj Hf1 Hf2 Hon Hmm Hc Hs1 He1. split; cbv zeta.
  - destruct (crossing_writes_end now sv ts i j sti stj k v1 v2 (encoded log)) as (Ht & Hm & Ha); [done..|].
    split_and!; [done..|]. rewrite <- encoded_app in Ha. eexists. split; [exact Ha|].
    destruct (replay_last now router cfg log (set_to k v2) (set_to k v1) snap faults links w0 true true
      (fun m => <[k := mkEntry (VStr v2) None]> m) (fun m => <[k := mkEntry (VStr v1) None]> m)) as [m ->];
      [done..| | | |by rewrite lookup_insert_eq].
    + apply Forall_app. split; [done|]. by apply Forall_cons_2, Forall_cons_2.
    + intros w Hw. by apply set_plain.
    + intros w m Hw _. by apply set_plain.
  - destruct (crossing_sync_end now sv ts i j sti stj k v2 (encoded log)) as (Ht & Hm & Hr); [done..|].
    split_and!; [done..|]. eexists. split; [exact Hr|]. intros Hd.
    apply (sync_restores now (store (world sv)) cfg' w1 reads); [by eapply reach_ok; [|apply Hs]|done..].
Qed.

End races.

(** ** Commands with a common key *)

Section overlapping.
Context {HO : HashOrder} {FT : FloatText}.
Context (cfg : Config) (now : Z).
Implicit Types (w : World) (st : ConnState) (k v x y : bytes) (s : Sys) (t u : nat).

(** The key holds the string, or nothing. *)
Definition holds w k (old : option bytes) : Prop :=
  match Db.find now ⟦store w⟧ k with Some e => value e = VStr (default [] old) ∧ is_Some old | None => old = None end.

Lemma get_step w k old :
  steady now w → holds w k old →
  ∃ w', call (fun n db => Store.get n db k) w = (w', Ok old) ∧ steady now w' ∧ same_view now ⟦store w'⟧ ⟦store w⟧.
Proof.
  intros Hw Hk.
  destruct (call_steady now (OGet k) RStr (fun n db => Store.get n db k) w ltac:(done) ltac:(done) Hw) as (Hs & Hr & Ha).
  destruct (call (fun n db => Store.get n db k) w) as [w' r]. cbn [fst snd] in *. exists w'.
  cbn [Db.exec] in Hr, Ha. unfold Db.read in Hr, Ha. cbn [prod_map fst snd] in Hr, Ha. injection Hr as ->.
  split_and!; [|done|].
  - unfold holds in Hk. destruct (Db.find now ⟦store w⟧ k) as [e|]; [|by subst].
    destruct Hk as [He [v ->]]. cbn. by rewrite He.
  - rewrite Ha. intros j. unfold Db.purge. destruct (Db.find now ⟦store w⟧ k) as [e|] eqn:Hf; [done|].
    destruct (decide (j = k)) as [->|Hj]; [|unfold Db.find; cbn; by rewrite lookup_delete_ne].
    rewrite Hf. unfold Db.find. cbn. by rewrite lookup_delete_eq.
Qed.

Lemma set_step w k v :
  steady now w →
  ∃ w' b, call (fun n db => Store.set n db k v default_options) w = (w', b) ∧ steady now w' ∧
    ∀ j, Db.find now ⟦store w'⟧ j = if decide (j = k) then Some (mkEntry (VStr v) None) else Db.find now ⟦store w⟧ j.
Proof.
  intros Hw. destruct (call_steady now (OSet k v default_options) RBool (fun n db => Store.set n db k v default_options)
    w ltac:(done) ltac:(done) Hw) as (Hs & _ & Ha).
  destruct (call (fun n db => Store.set n db k v default_options) w) as [w' b]. cbn [fst snd] in *. exists w', b.
  split_and!; [done..|]. intros j. rewrite Ha. cbn [Db.exec]. rewrite prod_map_fst.
  assert ((Db.set now ⟦store w⟧ k v default_options).1 = <[k := mkEntry (VStr v) None]> ⟦store w⟧) as ->
    by (unfold Db.set; by destruct (Db.find now ⟦store w⟧ k)).
  unfold Db.find. case_decide as Hj; [subst; by rewrite lookup_insert_eq|by rewrite lookup_insert_ne].
Qed.

(** *** Turns *)

Lemma turn_begin s t argv st :
  jobs s !! t = None →
  turn cfg s (Begin t argv st) =
  mkSys (shared s) (<[t := mkJob (length (started s)) argv (program argv st cfg)]> (jobs s))
    (started s ++ [(argv, st)]) (answers s).
Proof. intros Ht. cbn [turn]. by rewrite Ht. Qed.

Lemma turn_do s t n argv {R : Type} (f : M R) (q : R → Prog (ConnState * Outcome)) w' r :
  jobs s !! t = Some (mkJob n argv (Do f q)) → f (shared s) = (w', r) →
  turn cfg s (Go t) = mkSys w' (<[t := mkJob n argv (q r)]> (jobs s)) (started s) (answers s).
Proof. intros Ht Hf. cbn [turn]. rewrite Ht. cbn [rest ticket job_argv]. by rewrite Hf. Qed.

Lemma turn_done s t n argv r :
  jobs s !! t = Some (mkJob n argv (Done r)) →
  turn cfg s (Go t) = mkSys (shared s) (delete t (jobs s)) (started s) (answers s ++ [(n, r)]).
Proof. intros Ht. cbn [turn]. by rewrite Ht. Qed.

Lemma turns_cons s m ms : foldl (turn cfg) s (m :: ms) = foldl (turn cfg) (turn cfg s m) ms.
Proof. done. Qed.

Lemma one_by_one_two w w1 w2 (a b : list bytes) sta stb (ra rb : ConnState * Outcome) :
  dispatch a sta cfg w = (w1, ra) → dispatch b stb cfg w1 = (w2, rb) →
  one_by_one cfg [(a, sta); (b, stb)] w = (w2, [ra; rb]).
Proof.
  intros Ha Hb. unfold one_by_one. cbn [mapM]. unfold mbind, mret, M_bind, M_ret. by rewrite Ha, Hb.
Qed.

(** *** [GETSET] against [GETSET] *)

Definition getset_of k v : list bytes := [lit "GETSET"; k; v].

(** What is left of the command once it has read the old value. *)
Definition getset_rest st k v (old : Result (option bytes)) : Prog (ConnState * Outcome) :=
  o ← match old with
      | Err e => mret (out_r (store_err e))
      | Ok old => _ ← Steps.step (call (fun n db => Store.set n db k v default_options)); mret (out_w (bulk old))
      end;
  mret (st, o).

Lemma program_getset st k v :
  program (getset_of k v) st cfg = Do (call (fun n db => Store.get n db k)) (getset_rest st k v).
Proof. reflexivity. Qed.

Lemma getset_alone w st k v old :
  steady now w → holds w k old →
  ∃ w', dispatch (getset_of k v) st cfg w = (w', (st, out_w (bulk old))) ∧ steady now w' ∧ holds w' k (Some v).
Proof.
  intros Hw Hk. destruct (get_step w k old Hw Hk) as (w1 & Hg & Hs1 & _).
  destruct (set_step w1 k v Hs1) as (w2 & b & Hset & Hs2 & Hf2). exists w2. split_and!; [|done|].
  - change (dispatch (getset_of k v) st cfg w) with ((o ← getset_cmd (getset_of k v); mret (st, o)) w).
    unfold getset_cmd. change (getset_of k v !!! 1%nat) with k. change (getset_of k v !!! 2%nat) with v.
    unfold mbind, M_bind. by rewrite Hg, Hset.
  - unfold holds. by rewrite Hf2, decide_True.
Qed.

(** Both threads read the old value before one of them writes. *)
Definition racing_getsets t u st1 st2 k v1 v2 : list Turn :=
  [Begin t (getset_of k v1) st1; Begin u (getset_of k v2) st2; Go t; Go u; Go t; Go t; Go u; Go u].

Lemma racing_getsets_end w t u st1 st2 k v1 v2 old :
  steady now w → holds w k old → t ≠ u →
  let s := foldl (turn cfg) (initial w) (racing_getsets t u st1 st2 k v1 v2) in
  jobs s = ∅ ∧ answers s = [(0%nat, (st1, out_w (bulk old))); (1%nat, (st2, out_w (bulk old)))] ∧
  Db.find now ⟦store (shared s)⟧ k = Some (mkEntry (VStr v2) None).
Proof.
  intros Hw Hk Hne. destruct (get_step w k old Hw Hk) as (w1 & Hg1 & Hs1 & Hv1).
  assert (holds w1 k old) as Hk1 by (unfold holds; by rewrite Hv1).
  destruct (get_step w1 k old Hs1 Hk1) as (w2 & Hg2 & Hs2 & _).
  destruct (set_step w2 k v1 Hs2) as (w3 & b3 & Hset3 & Hs3 & _).
  destruct (set_step w3 k v2 Hs3) as (w4 & b4 & Hset4 & Hs4 & Hf4).
  unfold racing_getsets.
  rewrite turns_cons, (turn_begin (initial w) t) by apply lookup_empty.
  rewrite turns_cons, turn_begin by (cbn [jobs]; rewrite lookup_insert_ne by done; apply lookup_empty).
  rewrite !program_getset. cbn [initial shared started jobs answers length app].
  rewrite turns_cons, (turn_do _ t 0%nat (getset_of k v1) (call (fun n db => Store.get n db k))
    (getset_rest st1 k v1) w1 (Ok old));
    [|by cbn [jobs]; rewrite lookup_insert_ne, lookup_insert_eq|exact Hg1].
  rewrite turns_cons, (turn_do _ u 1%nat (getset_of k v2) (call (fun n db => Store.get n db k))
    (getset_rest st2 k v2) w2 (Ok old));
    [|by cbn [jobs]; rewrite lookup_insert_ne, lookup_insert_eq|exact Hg2].
  cbn [shared started jobs answers].
  rewrite turns_cons, (turn_do _ t 0%nat (getset_of k v1) (call (fun n db => Store.set n db k v1 default_options))
    (fun _ => Done (st1, out_w (bulk old))) w3 b3);
    [|cbn [jobs]; rewrite lookup_insert_ne, lookup_insert_eq by done; reflexivity|exact Hset3].
  rewrite turns_cons, (turn_done _ t 0%nat (getset_of k v1) (st1, out_w (bulk old))) by (by cbn [jobs]; rewrite lookup_insert_eq).
  cbn [shared started jobs answers].
  rewrite turns_cons, (turn_do _ u 1%nat (getset_of k v2) (call (fun n db => Store.set n db k v2 default_options))
    (fun _ => Done (st2, out_w (bulk old))) w4 b4);
    [|cbn [jobs]; rewrite lookup_delete_ne, lookup_insert_ne, lookup_insert_eq by done; reflexivity|exact Hset4].
  rewrite turns_cons, (turn_done _ u 1%nat (getset_of k v2) (st2, out_w (bulk old))) by (by cbn [jobs]; rewrite lookup_insert_eq).
  cbn [foldl shared started jobs answers app]. split_and!; [|done|by rewrite Hf4, decide_True].
  apply map_eq. intros j. rewrite lookup_empty.
  destruct (decide (j = u)) as [->|Hju]; [by rewrite lookup_delete_eq|]. rewrite lookup_delete_ne, lookup_insert_ne by done.
  destruct (decide (j = t)) as [->|Hjt]; [by rewrite lookup_delete_eq|]. by rewrite lookup_delete_ne, !lookup_insert_ne.
Qed.

(** *** [MGET] in the middle of an [MSET] *)

Definition mset_of x vx y vy : list bytes := [lit "MSET"; x; vx; y; vy].
Definition mget_of x y : list bytes := [lit "MGET"; x; y].

Definition item (r : Result (option bytes)) : Reply :=
  match r with Ok v => bulk v | Err _ => Bulk None end.

Lemma program_mset st x vx y vy :
  program (mset_of x vx y vy) st cfg =
  Do (call (fun n db => Store.set n db x vx default_options)) (fun _ =>
    Do (call (fun n db => Store.set n db y vy default_options)) (fun _ => Done (st, out_w ok))).
Proof. reflexivity. Qed.

Lemma program_mget st x y :
  program (mget_of x y) st cfg =
  Do (call (fun n db => Store.get n db x)) (fun a =>
    Do (call (fun n db => Store.get n db y)) (fun b =>
      Done (st, out_r (Array (Some [item a; item b]))))).
Proof. reflexivity. Qed.

(** The commands alone. *)
Lemma mset_alone w st x vx y vy :
  steady now w → x ≠ y →
  ∃ w', dispatch (mset_of x vx y vy) st cfg w = (w', (st, out_w ok)) ∧ steady now w' ∧
    holds w' x (Some vx) ∧ holds w' y (Some vy).
Proof.
  intros Hw Hxy. destruct (set_step w x vx Hw) as (w1 & b1 & H1 & Hs1 & Hf1).
  destruct (set_step w1 y vy Hs1) as (w2 & b2 & H2 & Hs2 & Hf2). exists w2. split_and!; [|done|..].
  - change (dispatch (mset_of x vx y vy) st cfg w) with ((o ← mset_cmd (mset_of x vx y vy); mret (st, o)) w).
    unfold mset_cmd. change (pairs_of (drop 1 (mset_of x vx y vy))) with [(x, vx); (y, vy)].
    cbn [length mset_of Nat.ltb Nat.leb is_multiple_of_2 mapM]. unfold mbind, M_bind.
    change ((_ || _)%bool) with false. cbv beta iota. rewrite H1. cbv beta iota. by rewrite H2.
  - unfold holds. by rewrite Hf2, decide_False, Hf1, decide_True.
  - unfold holds. by rewrite Hf2, decide_True.
Qed.

Lemma mget_alone w st x y oldx oldy :
  steady now w → holds w x oldx → holds w y oldy →
  ∃ w', dispatch (mget_of x y) st cfg w = (w', (st, out_r (Array (Some [bulk oldx; bulk oldy])))) ∧ steady now w'.
Proof.
  intros Hw Hx Hy. destruct (get_step w x oldx Hw Hx) as (w1 & H1 & Hs1 & Hv1).
  destruct (get_step w1 y oldy Hs1) as (w2 & H2 & Hs2 & _); [unfold holds; by rewrite Hv1|].
  exists w2. split; [|done].
  change (dispatch (mget_of x y) st cfg w) with ((o ← mget_cmd (mget_of x y); mret (st, o)) w).
  unfold mget_cmd. change (drop 1 (mget_of x y)) with [x; y]. cbn [mapM]. unfold mbind, M_bind.
  cbv beta. rewrite H1. unfold mret, M_ret. cbv beta iota. by rewrite H2.
Qed.

(** The keys are read between the two writes. *)
Definition racing_mset t u st1 st2 x vx y vy : list Turn :=
  [Begin t (mset_of x vx y vy) st1; Go t; Begin u (mget_of x y) st2; Go u; Go u; Go u; Go t; Go t].

Lemma racing_mset_end w t u st1 st2 x vx y vy oldy :
  steady now w → x ≠ y → holds w y oldy → t ≠ u →
  let s := foldl (turn cfg) (initial w) (racing_mset t u st1 st2 x vx y vy) in
  jobs s = ∅ ∧
  answers s = [(1%nat, (st2, out_r (Array (Some [bulk (Some vx); bulk oldy])))); (0%nat, (st1, out_w ok))].
Proof.
  intros Hw Hxy Hy Hne. destruct (set_step w x vx Hw) as (w1 & b1 & H1 & Hs1 & Hf1).
  assert (holds w1 x (Some vx)) as Hx1 by (unfold holds; by rewrite Hf1, decide_True).
  destruct (get_step w1 x (Some vx) Hs1 Hx1) as (w2 & H2 & Hs2 & Hv2).
  destruct (get_step w2 y oldy Hs2) as (w3 & H3 & Hs3 & _).
  { unfold holds. by rewrite Hv2, Hf1, decide_False. }
  destruct (set_step w3 y vy Hs3) as (w4 & b4 & H4 & Hs4 & _).
  unfold racing_mset. rewrite turns_cons, (turn_begin (initial w) t) by apply lookup_empty.
  rewrite program_mset. cbn [initial shared started jobs answers length app].
  rewrite turns_cons, (turn_do _ t 0%nat (mset_of x vx y vy) (call (fun n db => Store.set n db x vx default_options))
    (fun _ => Do (call (fun n db => Store.set n db y vy default_options)) (fun _ => Done (st1, out_w ok))) w1 b1);
    [|by cbn [jobs]; rewrite lookup_insert_eq|exact H1]. cbn [shared started jobs answers].
  rewrite turns_cons, turn_begin by (cbn [jobs]; rewrite !lookup_insert_ne by done; apply lookup_empty).
  rewrite program_mget. cbn [shared started jobs answers length app].
  rewrite turns_cons, (turn_do _ u 1%nat (mget_of x y) (call (fun n db => Store.get n db x))
    (fun a => Do (call (fun n db => Store.get n db y)) (fun b => Done (st2, out_r (Array (Some [item a; item b])))))
    w2 (Ok (Some vx))); [|by cbn [jobs]; rewrite lookup_insert_eq|exact H2].
  rewrite turns_cons, (turn_do _ u 1%nat (mget_of x y) (call (fun n db => Store.get n db y))
    (fun b => Done (st2, out_r (Array (Some [item (Ok (Some vx)); item b])))) w3 (Ok oldy));
    [|by cbn [jobs]; rewrite lookup_insert_eq|exact H3].
  rewrite turns_cons, (turn_done _ u 1%nat (mget_of x y) (st2, out_r (Array (Some [bulk (Some vx); bulk oldy]))))
    by (by cbn [jobs]; rewrite lookup_insert_eq).
  cbn [shared started jobs answers].
  rewrite turns_cons, (turn_do _ t 0%nat (mset_of x vx y vy) (call (fun n db => Store.set n db y vy default_options))
    (fun _ => Done (st1, out_w ok)) w4 b4);
    [|by cbn [jobs]; rewrite lookup_delete_ne, !(lookup_insert_ne _ u t), lookup_insert_eq|exact H4].
  rewrite turns_cons, (turn_done _ t 0%nat (mset_of x vx y vy) (st1, out_w ok))
    by (by cbn [jobs]; rewrite lookup_insert_eq).
  cbn [foldl shared started jobs answers app]. split; [|done]. apply map_eq. intros j. rewrite lookup_empty.
  destruct (decide (j = t)) as [->|Hjt]; [by rewrite lookup_delete_eq|]. rewrite lookup_delete_ne, lookup_insert_ne by done.
  destruct (decide (j = u)) as [->|Hju]; [by rewrite lookup_delete_eq|]. by rewrite lookup_delete_ne, !lookup_insert_ne.
Qed.

(** C40: commands with a common key are not atomic.  Whatever the store holds, two
    clients that replace a string with [GETSET] at the same time can both be
    answered the old value, so that the value of the first is overwritten and seen
    by nobody; in either order of the two commands one of them is answered what
    the other stored.  And a client can read what an [MSET] stores under one key
    while the other key is as before; before the [MSET] it reads both keys as
    before, and after it both as stored. *)
Theorem racing_commands_not_atomic w t u st1 st2 k v1 v2 old x vx y vy oldx oldy :
  steady now w → t ≠ u → holds w k old → x ≠ y → holds w x oldx → holds w y oldy →
  (let s := foldl (turn cfg) (initial w) (racing_getsets t u st1 st2 k v1 v2) in
   jobs s = ∅ ∧ answers s = [(0%nat, (st1, out_w (bulk old))); (1%nat, (st2, out_w (bulk old)))] ∧
   Db.find now ⟦store (shared s)⟧ k = Some (mkEntry (VStr v2) None)) ∧
  (one_by_one cfg [(getset_of k v1, st1); (getset_of k v2, st2)] w).2 =
    [(st1, out_w (bulk old)); (st2, out_w (bulk (Some v1)))] ∧
  (one_by_one cfg [(getset_of k v2, st2); (getset_of k v1, st1)] w).2 =
    [(st2, out_w (bulk old)); (st1, out_w (bulk (Some v2)))] ∧
  (let s := foldl (turn cfg) (initial w) (racing_mset t u st1 st2 x vx y vy) in
   jobs s = ∅ ∧
   answers s = [(1%nat, (st2, out_r (Array (Some [bulk (Some vx); bulk oldy])))); (0%nat, (st1, out_w ok))]) ∧
  (one_by_one cfg [(mset_of x vx y vy, st1); (mget_of x y, st2)] w).2 =
    [(st1, out_w ok); (st2, out_r (Array (Some [bulk (Some vx); bulk (Some vy)])))] ∧
  (one_by_one cfg [(mget_of x y, st2); (mset_of x vx y vy, st1)] w).2 =
    [(st2, out_r (Array (Some [bulk oldx; bulk oldy]))); (st1, out_w ok)].
Proof.
  intros Hw Htu Hk Hxy Hx Hy.
  assert (∀ sta stb va vb, (one_by_one cfg [(getset_of k va, sta); (getset_of k vb, stb)] w).2 =
    [(sta, out_w (bulk old)); (stb, out_w (bulk (Some va)))]) as Hgetsets.
  { intros sta stb va vb. destruct (getset_alone w sta k va old Hw Hk) as (w1 & H1 & Hs1 & Hk1).
    destruct (getset_alone w1 stb k vb (Some va) Hs1 Hk1) as (w2 & H2 & _).
    by rewrite (one_by_one_two w w1 w2 _ _ _ _ _ _ H1 H2). }
  destruct (mset_alone w st1 x vx y vy Hw Hxy) as (wa & Ha & Hsa & Hax & Hay).
  destruct (mget_alone wa st2 x y _ _ Hsa Hax Hay) as (wb & Hb & _).
  destruct (mget_alone w st2 x y _ _ Hw Hx Hy) as (wc & Hc & Hsc).
  destruct (mset_alone wc st1 x vx y vy Hsc Hxy) as (wd & Hd & _).
  split; [by apply racing_getsets_end|]. split_and!; [apply Hgetsets|apply Hgetsets|by eapply racing_mset_end..| |].
  - by rewrite (one_by_one_two w wa wb _ _ _ _ _ _ Ha Hb).
  - by rewrite (one_by_one_two w wc wd _ _ _ _ _ _ Hc Hd).
Qed.

End overlapping.

(** ** Examples *)

#[local] Existing Instance canonical_order.
#[local] Existing Instance demo_float_text.

Lemma demo_served_wf : wf (store (world demo_served)).
Proof. by apply (reach_ok 0), demo_served_steady. Qed.

Lemma demo_delivers :
  delivers (demo_config None) (dump_commands 10 (store (world demo_served))) [encode_command demo_rpush []].
Proof.
  exists [], [encode_command demo_rpush []]. split; [reflexivity|]. split; [reflexivity|].
  split; [by repeat constructor|]. vm_compute. reflexivity.
Qed.

(** A replica that connected three times. *)
Lemma replica_resync_duplicates_witness :
  Db.find 10 ⟦store (replica_thread (demo_config None) (replicate 3 [encode_command demo_rpush []]) (fresh_world 1)).1⟧
    (lit "l") = Some (mkEntry (VList [lit "x"; lit "x"; lit "x"]) None).
Proof.
  apply (replica_resync_duplicates 10 (store (world demo_served)) (demo_config None) (fresh_world 1) (lit "l") [lit "x"]
    (replicate 3 [encode_command demo_rpush []])).
  - exact demo_served_wf.
  - exact demo_served_restorable.
  - vm_compute. reflexivity.
  - apply demo_steady.
  - vm_compute. reflexivity.
  - apply Forall_replicate, demo_delivers.
  - discriminate.
Defined.

(** A record of which two bytes were written, and a write after the restart. *)
Definition demo_torn : bytes := lit "*3".
Definition demo_torn_server : Server := demo_restart (Some (encoded [demo_rpush] ++ demo_torn)) None.

Lemma aof_torn_tail_hides_writes_witness :
  let sv' := (handle_command true demo_torn_server (conn_new 7 true) (set_to (lit "k") (lit "1")) []).1.1.1 in
  ⟦store (world sv')⟧ !! lit "k" = Some (mkEntry (VStr (lit "1")) None) ∧
  ∃ more, aof sv' = Some (aof_open (encoded [demo_rpush] ++ demo_torn ++ encoded more)) ∧
    ⟦store (world (demo_restart (Some (encoded [demo_rpush] ++ demo_torn ++ encoded more)) None))⟧ !! lit "k" = None.
Proof.
  cbv zeta. split; [vm_compute; reflexivity|].
  destruct (aof_torn_tail_hides_writes [demo_rpush] demo_rpush demo_torn (demo_config None) FlatMap.length_hasher None
    (fun _ => None) (fun _ _ => false) (fresh_world 1)
    (handle_command true demo_torn_server (conn_new 7 true) (set_to (lit "k") (lit "1")) []).1.1.1
    (demo_config None) FlatMap.length_hasher None (fun _ => None) (fun _ _ => false) (fresh_world 1))
    as (more & _ & Ha & Hw).
  - by constructor; [apply demo_rpush_sendable|].
  - apply demo_rpush_sendable.
  - by apply (cut_count demo_rpush (lit "3") Resp.CRLF).
  - reflexivity.
  - reflexivity.
  - reflexivity.
  - apply rtc_once, history_command; [|done]. repeat constructor; try done; by compute.
  - reflexivity.
  - exists more. split; [exact Ha|]. unfold demo_restart in *. rewrite Hw. vm_compute. reflexivity.
Defined.

(** A key and a counter that expire at 100, used at 10; a restart at 200. *)
Lemma later_replay_differs_witness :
  let sv := server_at 10 in
  (let sv' := serve_last true sv (conn_new 7 true) (set_until 100 (lit "k") (lit "v")) [lit "PERSIST"; lit "k"] in
   ⟦store (world sv')⟧ !! lit "k" = Some (mkEntry (VStr (lit "v")) None) ∧
   ∃ file, logs_to sv' file ∧ Db.find 200 ⟦store (world (restarted_at 200 file))⟧ (lit "k") = None) ∧
  (let sv' := serve_last true sv (conn_new 7 true) (set_until 100 (lit "k") (lit "5")) [lit "INCR"; lit "k"] in
   ∃ file, logs_to sv' file ∧
     ⟦store (world (restarted_at 200 file))⟧ !! lit "k" = Some (mkEntry (VStr (lit "1")) None)).
Proof.
  cbv zeta.
  destruct (later_replay_differs 10 100 200 (server_at 10) (server_at 10) true (conn_new 7 true) (lit "k") (lit "v") 5
    (demo_config None) FlatMap.length_hasher None (fun _ => None) (fun _ _ => false) (world_at 200)) as [H1 H2].
  - done.
  - done.
  - reflexivity.
  - reflexivity.
  - repeat constructor; try done; by compute.
  - split; [apply reach_new|done].
  - by repeat split.
  - apply rtc_refl.
  - reflexivity.
  - reflexivity.
  - reflexivity.
  - reflexivity.
  - split; [exact H1|]. destruct H2 as (_ & _ & H2). exact H2.
Defined.

Lemma races_lose_data_witness :
  let p := moves (mkPool (race_server (Some (aof_open []))) two_threads [] [])
             (crossing_writes 1 2 (lit "k") (lit "1") (lit "2")) in
  ⟦store (world (psv p))⟧ !! lit "k" = Some (mkEntry (VStr (lit "2")) None) ∧
  ∃ file, aof (psv p) = Some (aof_open file) ∧
    ⟦store (world (demo_restart (Some file) None))⟧ !! lit "k" = Some (mkEntry (VStr (lit "1")) None).
Proof.
  destruct (races_lose_data 10 (race_server (Some (aof_open []))) two_threads 1 2 (conn_new 1 true) (conn_new 2 true)
    (lit "k") (lit "1") (lit "2") [] (demo_config None) FlatMap.length_hasher None (fun _ => None) (fun _ _ => false)
    (fresh_world 1) (demo_config None) [] (fresh_world 1)) as [(_ & H) _].
  - split; [apply reach_new|done].
  - by repeat split.
  - constructor.
  - reflexivity.
  - intros k e Hk. exfalso. vm_compute in Hk. discriminate Hk.
  - done.
  - reflexivity.
  - reflexivity.
  - reflexivity.
  - reflexivity.
  - repeat constructor; try done; by compute.
  - repeat constructor; try done; by compute.
  - reflexivity.
  - reflexivity.
  - reflexivity.
  - apply demo_steady.
  - apply demo_empty.
  - exact H.
Defined.

Lemma racing_commands_not_atomic_witness :
  let s := foldl (turn (demo_config None)) (initial (fresh_world 2))
    (racing_getsets 1 2 (conn_new 1 true) (conn_new 2 true) (lit "k") (lit "b") (lit "c")) in
  answers s = [(0%nat, (conn_new 1 true, out_w (Bulk None))); (1%nat, (conn_new 2 true, out_w (Bulk None)))].
Proof.
  destruct (racing_commands_not_atomic (demo_config None) 10 (fresh_world 2) 1 2 (conn_new 1 true) (conn_new 2 true)
    (lit "k") (lit "b") (lit "c") None (lit "x") (lit "1") (lit "y") (lit "1") None None) as [(_ & H & _) _].
  - apply demo_steady.
  - done.
  - reflexivity.
  - done.
  - reflexivity.
  - reflexivity.
  - exact H.
Defined.
